(* ===== verification/_CoqProject ===== *)
-Q . S2P
Prelude.v
Common.v
Keys.v
Address.v
Nodes.v
Bitmap.v
HashTable.v
RWLock.v
RdmaBuf.v
Allocators.v
Memory.v
Verbs.v
Dsm.v
Process.v
Messages.v
ClientThread.v
QueuePair.v
Exchange.v
Keeper.v
Connect.v
Bringup.v
Tickets.v
LockTable.v
LockExclusion.v
Coro.v
CoroLaws.v
CoroLive.v
CoroLocks.v
LocalCache.v
IndexCache.v
NumaPool.v
RadixCache.v
RadixLaws.v
NormalCache.v
NormalLaws.v
Tree.v
TreeSearch.v
TreeShape.v
TreeHeap.v
TreeState.v
TreeWrite.v
TreeInsert.v
TreeRounds.v
TreeOps.v
TreeRange.v
TreeWarm.v
TreeCluster.v
TreeExample.v
