(* ===== verification/Prelude.v ===== *)
(** * Verification of SMART on hybrid heterogeneous memory

    The program is a distributed key/value index: an adaptive radix tree (ART)
    that lies in the memory of remote nodes and that clients read and write with
    one-sided RDMA verbs. A client of a compute node calls [Tree::insert],
    [Tree::search] and [Tree::range_query] (src/Tree.cpp); these use the verbs
    of the DSM layer (src/DSM.cpp, over src/rdma/Operation.cpp), its allocators
    (include/LocalAllocator.h, include/GlobalAllocator.h, src/Directory.cpp), an
    index cache of inner nodes (src/RadixCache.cpp) and a table of local locks
    (include/LocalLockTable.h) that combines operations on the same key.
    Everything below is for the default configuration of the build: fine-grained
    node types, the radix index cache, read delegation, write combining,
    in-place leaf updates and locks embedded in the leaves.

    ** Files

    The prelude ([Prelude]) has the results of code that can stop ([res], with
    the reason as an [error]), integers of a width ([wrap], [uint]), bytes and
    bit fields, the state-and-error monad [M], loops with fuel, and the lemmas
    and tactics on them. [Common] has the constants of include/Common.h.

    Data:
    - [Keys] (include/Key.h): keys, prefixes, order, arithmetic;
    - [Address] (include/GlobalAddress.h): global addresses and their words;
    - [Nodes] (include/Node.h): leaves, headers, entries and pages, as records
      with the words and bytes that encode them. CRC-64 is the class [Checksum].

    Local components, each a state with one definition per function:
    - [Bitmap] (include/Bitmap.h), [HashTable] (include/MyLocalHashTable.h),
      [NumaPool] (include/NumaObjectPool.h), [RdmaBuf] (include/RdmaBuffer.h),
      [LocalCache] (include/LocalCache.h; hash and clock are parameters);
    - [RWLock] (include/WRLock.h): the lock word under every interleaving of
      the atomic accesses of its functions;
    - [Allocators]: thread-local blocks, chunks, the directory and its messages,
      and the heap they share.

    Remote memory:
    - [Memory]: memories of bytes, and words with compare-and-swap, masked
      compare-and-swap and masked fetch-and-add;
    - [Verbs] (src/rdma/Operation.cpp): the work requests each function posts,
      and the polling loops. The network card is the class [Nic], with the
      documented effect of each opcode;
    - [Dsm] (src/DSM.cpp): the verbs, their chains and batches, over [Nic]; the
      refinement theorems give the effect on the shared memory that the tree
      relies on.

    Cluster:
    - [Messages] (src/AbstractMessageConnection.cpp,
      src/RawMessageConnection.cpp): the rings of buffers of the control messages;
    - [QueuePair] (src/rdma/StateTrans.cpp): the transitions of a queue pair.
      libibverbs is the class [Ibv], with the attributes the man page requires
      for each transition;
    - [Exchange] (include/DSMKeeper.h, src/DSMKeeper.cpp): what the servers tell
      each other, its bytes, and what a server does with it;
    - [Keeper] (src/Keeper.cpp, src/DSMKeeper.cpp): node ids, barriers and sums
      over memcached, which is the class [Memcached];
    - [Connect], [Bringup]: the constructor of DSMKeeper as a process, and all
      servers together.

    Clients:
    - [Process]: processes as trees of atomic actions; [run] executes one alone,
      [pool_step] interleaves several, [wpr] states total correctness, [staged]
      turns a pool of threads that run the same code into the list of their
      stages, and [refines] compares processes;
    - [ClientThread] (src/DSM.cpp): the registration of a thread, with its id,
      its connection and its buffers, and the keys it draws;
    - [Tickets]: threads that draw tickets, as phases of a process, and the proof
      that one at most is served; [LockTable] (include/LocalLockTable.h): each
      function as a process on its lock node, with CityHash64 as a parameter;
      [LockExclusion]: the functions keep to the tickets;
    - [Coro] (src/Tree.cpp, include/Common.h): the coroutines of a client
      thread, and the master that resumes them from the completion queue and the
      busy-waiting queue, step by step, with the network card and the other
      threads; [CoroLaws]: such a thread against one thread per coroutine;
      [CoroLive]: what inevitably happens; [CoroLocks]: the lock table as
      coroutines use it, by the class [Implements];
    - [IndexCache]: cache entries (include/NormalCache.h) and the interface of
      an index cache, the class [IndexCache] with its laws [IndexCacheLaws];
    - [RadixCache], [RadixLaws] (src/RadixCache.cpp): the trie with its shared
      nodes, eviction and deferred reclamation, and the proof that it obeys the
      laws; it draws its entries from [NumaPool];
    - [NormalCache], [NormalLaws] (src/NormalCache.cpp): the second
      implementation of the interface, the hash-based cache of the baselines,
      with its thresholds, eviction and accounting of the free space, and the
      proof that it obeys the same laws;
    - [Tree] (src/Tree.cpp): all operations of a client, over the above;
    - [TreeSearch]: [search] on a tree given by what lies in memory ([repr]);
    - [TreeShape]: the tree as a graph of nodes and leaves ([shape]), and the
      steps an insertion makes on it; [TreeHeap]: how memory holds the graph
      ([holds]), within the blocks of the allocator; [TreeState]: the state of a
      client ([mem_inv]), and what its cache may hold of earlier trees
      ([known], [cached], [grows]);
    - [TreeWrite], [TreeInsert], [TreeRounds], [TreeOps]: the out-of-place
      writes, the rounds of [insert] at a leaf and at a node, and the operations
      as a whole; [TreeRange], [TreeWarm]: range queries with a cold and with a
      warm cache; [TreeCluster]: several clients on one memory, and the tree as
      a finite map;
      [TreeExample]: concrete trees, and the theorems there.

    ** What is shown

    - The index is a finite map: after the constructor on fresh memory, any
      sequence of insertions and searches by any number of clients gives the
      answers of a map. Each client keeps its own index cache, which is not told
      of the changes of the others: pages that were read at some time stay
      right in the sense of [cached], and what an entry of them leads to is
      checked against the reverse pointer. The theorems on one operation cover
      every branch: the first key, an empty slot, a full node that grows, a
      header that is split, a leaf that one or two new nodes push down, an
      update in place, a stale entry that is read again. On an empty tree a
      search stops at an assertion.
    - Independently of how the tree was built, [search] on a memory that
      represents a map returns the map's answer. The radix cache only returns
      copies of pages that were added, on the path of the key, after any
      sequence of operations; it obeys the laws the tree relies on.
    - Range queries, on the tree of any such history: with a cold cache a query
      adds pairs of the map alone, and which keys of the range it finds is known
      exactly ([found_cold]): all when the ends part in their first byte, or else
      those that share all but one of the common bytes of the ends with another
      key of the tree. With a warm cache it adds only what lies below the records
      of the cache, and all of it when these are up to date and not nested; when
      they are not it may meet a level with nothing to read. The examples show
      this, and that an entry that has become stale can hide a key.
    - Bring-up: servers that start together reach, in every interleaving, a
      state in which all have returned, and then any two of them are connected
      in pairs of queue pairs that name each other. Barriers and sums are right
      and always end; the keys of the sums collide from twelve servers on.
    - Control messages: the receive ring is a queue that loses nothing while at
      most three quarters of it wait; send buffers are free when they come round.
    - Sharing between threads: read delegation and write combining serve a queue
      of operations on one key with one remote operation and end idle. In every
      interleaving of up to 256 threads a lock node lets one reader and one writer
      in; with 257 its tickets wrap around. An interleaving shows that write
      combining mixes two keys of one lock node.
      The reader-writer lock excludes in every interleaving.
    - Coroutines: a thread that schedules coroutines refines one thread per
      coroutine, so that the processes of [LockTable], in which a thread waits for
      its ticket, describe both modes; no completion and no waiting condition is
      forgotten. Both need every verb to be called with its context: a range
      query, which has none, can take the completion of another coroutine, which
      then never runs again.
    - Memory: the verbs of the DSM layer implement reads, writes and atomic
      operations on words; live blocks of the allocators never overlap; the
      buffers of a coroutine are disjoint until a cursor has turned, and those of
      different coroutines of threads that register at the same time always.
    - Data: the layouts are bijective where the code compares words, the headers
      compress and split paths without loss, node types cover their slots, key
      arithmetic is arithmetic modulo 2^64.
    - Containers: the hash table refines a finite map, the bit map a set of
      bits, the pool never hands out an index in use, the key/value cache stays
      within its bounds and returns what was inserted.
    - Where the code does something else than it means to, a theorem states what
      it does (the read and compare-and-swap chain with its addresses exchanged,
      the directory that hands out a chunk twice, the stale hit of the key/value
      cache, the range query that misses a leaf, and others).

    ** Bounds and fuel

    Loops that retry ([goto next], retries of a compare-and-swap) take a bound
    [fuel] and fail with [EFuel] when it is used up; the theorems show that a
    small bound, given by the depth of the tree ([max_levels], [max_rounds]: a
    round for each of the nine levels, and one for a stale entry), is enough when
    nothing else interferes, so that no theorem holds only because the fuel ran
    out. A range query has two bounds: [steps] for its scan of the cache, which
    visits each key of the range, and [fuel] for its levels, of which ten are
    enough however wide the range is. Waits (spin locks, tickets, completions) are blocked actions. Machine integers
    wrap at their width; signed counters of the source that stay far from their
    limits are integers.

    ** Not modelled

    - Clients whose operations on the tree overlap: the operations of [Tree] are
      processes whose atomic actions interleave, but the theorems on the tree
      perform one operation after the other. Operations that overlap are covered
      where they share a component: lock nodes, lock words, verbs.
    - In the histories of [TreeCluster]: range queries.
    - Statistics counters, and the file of keys that a benchmark loads.
    - The operations of [Tree] as coroutines: they are processes, and [CoroLocks]
      shows for the lock table how a coroutine implements a process.
    - Contexts, memory registration and the creation of queue pairs
      (src/rdma/Resource.cpp) and the connection to memcached: calls of ibverbs
      and libmemcached.
    - Code that the default configuration compiles out, apart from
      src/NormalCache.cpp: the TREE_TEST baselines.
    - Benchmarks and diagnostics. *)

From Stdlib Require Import ZArith Lia Bool.
From stdpp Require Import base tactics decidable option numbers list list_numbers gmap relations.

#[global] Set Default Goal Selector "!".
#[global] Open Scope Z_scope.

(** ** Results of code that can stop

    Every way in which the C++ code stops short of a result is a value. *)

(** Why a computation has no result: a failed [assert], a [std::out_of_range]
    of [std::array::at], an access the language leaves undefined, or the
    model's own bound on the number of loop iterations. *)
Inductive error : Set :=
  | EAssert
  | ERange
  | EUndef
  | EFuel.

Inductive res (A : Type) : Type :=
  | Ok (a : A)
  | Fail (e : error).
Arguments Ok {A} _.
Arguments Fail {A} _.

#[export] Instance error_eq_dec : EqDecision error.
Proof. solve_decision. Defined.

#[export] Instance res_ret : MRet res := @Ok.
#[export] Instance res_bind : MBind res := λ A B f m,
  match m with Ok a => f a | Fail e => Fail e end.
#[export] Instance res_fmap : FMap res := λ A B f m,
  match m with Ok a => Ok (f a) | Fail e => Fail e end.

(** [assert(b)] *)
Definition check (b : bool) : res unit := if b then Ok tt else Fail EAssert.

(** An access that is defined only when [b] holds. *)
Definition defined (b : bool) : res unit := if b then Ok tt else Fail EUndef.

(** [std::array::at] and [std::vector] indexing by a signed index. *)
Definition at_ {A} (l : list A) (i : Z) : res A :=
  if 0 <=? i
  then match l !! Z.to_nat i with Some x => Ok x | None => Fail ERange end
  else Fail ERange.

(** Indexing with [operator[]]: out of range is undefined. *)
Definition idx_ {A} (l : list A) (i : Z) : res A :=
  if 0 <=? i
  then match l !! Z.to_nat i with Some x => Ok x | None => Fail EUndef end
  else Fail EUndef.

(** ** Machine integers

    A [w]-bit unsigned integer is a [Z] in [[0, 2^w)]; an assignment to it
    reduces modulo [2^w]. *)
Definition wrap (w z : Z) : Z := z `mod` 2 ^ w.

Definition uint (w z : Z) : Prop := 0 <= z < 2 ^ w.

#[export] Instance uint_dec w z : Decision (uint w z).
Proof. unfold uint. apply _. Defined.

Declare Scope smart_scope.
Delimit Scope smart_scope with smart.
Notation "a +[ w ] b" := (wrap w (a + b))
  (at level 50, left associativity, format "a  +[ w ]  b") : smart_scope.
Notation "a -[ w ] b" := (wrap w (a - b))
  (at level 50, left associativity, format "a  -[ w ]  b") : smart_scope.
#[global] Open Scope smart_scope.

(** A signed [w]-bit integer from its low bits. *)
Definition sint (w z : Z) : Z :=
  let r := z `mod` 2 ^ w in if 2 * r <? 2 ^ w then r else r - 2 ^ w.

(** ** Bytes *)
#[global] Abbreviation byte := Z (only parsing).

Definition is_byte (b : Z) : Prop := 0 <= b < 256.

#[export] Instance is_byte_dec b : Decision (is_byte b).
Proof. unfold is_byte. apply _. Defined.

(** Little-endian encoding of an integer on [n] bytes, and back. *)
Definition le_bytes (n : nat) (z : Z) : list byte := Z_to_little_endian (Z.of_nat n) 8 z.
Definition le_int (bs : list byte) : Z := little_endian_to_Z 8 bs.

(** A bit field of [w] bits at position [pos] of an integer, and the words
    a masked atomic operation compares and writes. *)
Definition bf (pos w v : Z) : Z := (v / 2 ^ pos) `mod` 2 ^ w.

Definition masked_eq (a b mask : Z) : bool := Z.land a mask =? Z.land b mask.
Definition masked_put (old new mask : Z) : Z :=
  Z.lor (Z.land old (Z.lnot mask)) (Z.land new mask).

(** [len] elements of [l] from [ofs]. *)
Definition slice {A} (ofs len : nat) (l : list A) : list A := take len (drop ofs l).

(** ** Loops

    [iter_fuel n body s] runs [body] until it returns, at most [n] times;
    the loops of the source that are not structural are written with it. *)
Inductive step_result (S A : Type) : Type :=
  | Again (s : S)
  | Done (a : A).
Arguments Again {S A} _.
Arguments Done {S A} _.

Fixpoint iter_fuel {S A} (fuel : nat) (body : S → res (step_result S A)) (s : S) : res A :=
  match fuel with
  | O => Fail EFuel
  | S fuel => match body s with
              | Ok (Again s') => iter_fuel fuel body s'
              | Ok (Done a) => Ok a
              | Fail e => Fail e
              end
  end.

(** ** State and failure

    A computation on a state of type [S] that can stop. *)
Definition M (S A : Type) : Type := S → res (A * S).

#[export] Instance M_ret {S} : MRet (M S) := λ A a s, Ok (a, s).
#[export] Instance M_bind {S} : MBind (M S) := λ A B f m s,
  match m s with Ok (a, s') => f a s' | Fail e => Fail e end.
#[export] Instance M_fmap {S} : FMap (M S) := λ A B f m s,
  match m s with Ok (a, s') => Ok (f a, s') | Fail e => Fail e end.

Definition get {S} : M S S := λ s, Ok (s, s).
Definition put {S} (s : S) : M S unit := λ _, Ok (tt, s).
Definition lift {S A} (m : res A) : M S A := λ s, match m with Ok a => Ok (a, s) | Fail e => Fail e end.

(** ** Lemmas on results *)
Create HintDb smart.

Lemma bind_Ok {A B} (m : res A) (f : A → res B) b :
  (m ≫= f) = Ok b ↔ ∃ a, m = Ok a ∧ f a = Ok b.
Proof. destruct m; cbn; naive_solver. Qed.

Lemma check_Ok b u : check b = Ok u ↔ b = true.
Proof. destruct b, u; cbn; naive_solver. Qed.

Lemma defined_Ok b u : defined b = Ok u ↔ b = true.
Proof. destruct b, u; cbn; naive_solver. Qed.

Lemma at_Ok {A} (l : list A) i x :
  at_ l i = Ok x ↔ 0 <= i ∧ l !! Z.to_nat i = Some x.
Proof.
  unfold at_. destruct (Z.leb_spec 0 i).
  - destruct (l !! Z.to_nat i); naive_solver.
  - naive_solver lia.
Qed.

Lemma idx_Ok {A} (l : list A) i x :
  idx_ l i = Ok x ↔ 0 <= i ∧ l !! Z.to_nat i = Some x.
Proof.
  unfold idx_. destruct (Z.leb_spec 0 i).
  - destruct (l !! Z.to_nat i); naive_solver.
  - naive_solver lia.
Qed.

#[global] Arguments idx_ {A} l i : simpl never.

Lemma idx_0 {A} (x : A) l : idx_ (x :: l) 0 = Ok x.
Proof. done. Qed.

Lemma idx_nat {A} (l : list A) (i : nat) x : l !! i = Some x → idx_ l (Z.of_nat i) = Ok x.
Proof. intros E. apply idx_Ok. rewrite Nat2Z.id. split; [lia|done]. Qed.

Lemma at_lookup {A} (l : list A) (i : Z) x :
  0 <= i → l !! Z.to_nat i = Some x → at_ l i = Ok x.
Proof. intros. by apply at_Ok. Qed.

Lemma at_of_nat {A} (l : list A) (i : nat) x :
  l !! i = Some x → at_ l (Z.of_nat i) = Ok x.
Proof. intros. apply at_Ok. by rewrite Nat2Z.id; split; [lia|]. Qed.

Lemma at_in_range {A} (l : list A) (i : Z) :
  0 <= i < Z.of_nat (length l) → ∃ x, at_ l i = Ok x ∧ l !! Z.to_nat i = Some x.
Proof.
  intros Hi. destruct (lookup_lt_is_Some_2 l (Z.to_nat i)) as [x Hx]; [lia|].
  exists x. split; [by apply at_lookup; [lia|]|done].
Qed.

Lemma at_out_of_range {A} (l : list A) (i : Z) :
  i < 0 ∨ Z.of_nat (length l) <= i → at_ l i = Fail ERange.
Proof.
  intros Hi. unfold at_. destruct (Z.leb_spec 0 i); [|done].
  rewrite lookup_ge_None_2; [done|lia].
Qed.

(** Enough fuel: a body that decreases a measure and never fails returns. *)
Lemma iter_fuel_total {S A} (body : S → res (step_result S A)) (I : S → Prop) (P : A → Prop)
    (mu : S → nat) :
  (∀ s, I s → (∃ s', body s = Ok (Again s') ∧ I s' ∧ (mu s' < mu s)%nat)
              ∨ (∃ a, body s = Ok (Done a) ∧ P a)) →
  ∀ fuel s, I s → (mu s < fuel)%nat → ∃ a, iter_fuel fuel body s = Ok a ∧ P a.
Proof.
  intros Hb. induction fuel as [|n IH]; intros s HI Hmu; [lia|].
  destruct (Hb s HI) as [(s' & E & HI' & Hlt)|(a & E & HP)]; cbn; rewrite E.
  - apply IH; [done|lia].
  - eauto.
Qed.

(** Partial correctness of a loop from an invariant. *)
Lemma iter_fuel_inv {S A} (body : S → res (step_result S A)) (I : S → Prop) (P : A → Prop) :
  (∀ s s', I s → body s = Ok (Again s') → I s') →
  (∀ s a, I s → body s = Ok (Done a) → P a) →
  ∀ fuel s a, I s → iter_fuel fuel body s = Ok a → P a.
Proof.
  intros Hs Hd. induction fuel as [|n IH]; intros s a HI; cbn; [done|].
  destruct (body s) as [[s'|a']|] eqn:E; intros H; simplify_eq; eauto.
Qed.

(** More fuel never changes a result. *)
Lemma iter_fuel_mono {S A} (body : S → res (step_result S A)) n m s a :
  iter_fuel n body s = Ok a → (n <= m)%nat → iter_fuel m body s = Ok a.
Proof.
  revert m s. induction n as [|n IH]; intros m s; cbn; [done|].
  intros H Hle. destruct m as [|m]; [lia|]. cbn.
  destruct (body s) as [[s'|a']|] eqn:E; try done. apply IH; [done|lia].
Qed.

(** A reachability invariant from its preservation by one step. *)
Lemma rtc_invariant {A} (R : relation A) (I : A → Prop) x y :
  (∀ x y, I x → R x y → I y) → rtc R x y → I x → I y.
Proof. intros Hs H. induction H; eauto. Qed.

(** ** Lemmas on machine integers *)
Lemma wrap_range w z : 0 <= w → uint w (wrap w z).
Proof. intros. unfold wrap, uint. apply Z.mod_pos_bound. lia. Qed.

Lemma wrap_small w z : uint w z → wrap w z = z.
Proof. apply Z.mod_small. Qed.

Lemma wrap_wrap_add_l w a b : wrap w (wrap w a + b) = wrap w (a + b).
Proof. unfold wrap. by rewrite Zplus_mod_idemp_l. Qed.

Lemma wrap_idemp w a : wrap w (wrap w a) = wrap w a.
Proof. unfold wrap. by rewrite Zmod_mod. Qed.

#[export] Hint Resolve wrap_range wrap_small : smart.

(** ** Lemmas on bytes *)
Lemma is_byte_land z : is_byte (Z.land z 255).
Proof.
  change 255 with (Z.ones 8). rewrite Z.land_ones by lia.
  apply Z.mod_pos_bound. lia.
Qed.

Lemma length_le_bytes n z : length (le_bytes n z) = n.
Proof.
  unfold le_bytes. pose proof (length_Z_to_little_endian (Z.of_nat n) 8 z). lia.
Qed.

Lemma le_bytes_byte n z : Forall is_byte (le_bytes n z).
Proof. apply (Z_to_little_endian_bound (Z.of_nat n) 8 z); lia. Qed.

Lemma le_int_bytes n z : le_int (le_bytes n z) = z `mod` 2 ^ (Z.of_nat n * 8).
Proof. apply little_endian_to_Z_to_little_endian; lia. Qed.

Lemma le_bytes_int bs :
  Forall is_byte bs → le_bytes (length bs) (le_int bs) = bs.
Proof. intros. apply Z_to_little_endian_to_Z; [done|lia|done]. Qed.

Lemma le_int_range bs :
  Forall is_byte bs → 0 <= le_int bs < 2 ^ (Z.of_nat (length bs) * 8).
Proof. intros. apply little_endian_to_Z_bound; [lia|done]. Qed.

Lemma le_int_inj b1 b2 :
  Forall is_byte b1 → Forall is_byte b2 → length b1 = length b2 →
  le_int b1 = le_int b2 → b1 = b2.
Proof.
  intros H1 H2 Hl He.
  rewrite <-(le_bytes_int b1), <-(le_bytes_int b2) by done. by rewrite Hl, He.
Qed.

Lemma le_bytes_S n z :
  le_bytes (S n) z = z `mod` 256 :: le_bytes n (z / 256).
Proof.
  unfold le_bytes. rewrite Nat2Z.inj_succ, Z_to_little_endian_succ by lia.
  rewrite Z.land_ones, Z.shiftr_div_pow2 by lia. done.
Qed.

Lemma testbit_small a n i : 0 <= a < 2 ^ n → n <= i → Z.testbit a i = false.
Proof.
  intros Ha Hi. destruct (Z.ltb_spec n 0).
  { rewrite Z.pow_neg_r in Ha by lia. lia. }
  rewrite Z.testbit_false, Z.div_small; [done|..|lia].
  split; [lia|]. apply Z.lt_le_trans with (2 ^ n); [lia|]. apply Z.pow_le_mono_r; lia.
Qed.

(** Disjoint bit fields: or is addition. *)
Lemma lor_shiftl_add a b n :
  0 <= n → 0 <= a < 2 ^ n → Z.lor a (b ≪ n) = a + b * 2 ^ n.
Proof.
  intros Hn Ha. rewrite Z.shiftl_mul_pow2 by done.
  assert (Z.land a (b * 2 ^ n) = 0) as Hd.
  { apply Z.bits_inj'. intros i Hi. rewrite Z.land_spec, Z.bits_0.
    destruct (Z.ltb_spec i n).
    - rewrite (Z.mul_pow2_bits_low b n i) by lia. apply andb_false_r.
    - by rewrite (testbit_small a n i) by lia. }
  by rewrite <-Z.lxor_lor, <-Z.add_nocarry_lxor by done.
Qed.

Lemma le_int_cons b bs :
  is_byte b → le_int (b :: bs) = b + 256 * le_int bs.
Proof.
  intros Hb. unfold le_int. cbn [little_endian_to_Z].
  rewrite lor_shiftl_add; [|lia|exact Hb]. change (2 ^ 8) with 256. lia.
Qed.

(** Replacing a row of a list of lists, up to the order of the elements. *)
Lemma concat_insert {A} (bs : list (list A)) i b b' :
  bs !! i = Some b →
  ∃ rest, concat bs ≡ₚ b ++ rest ∧ concat (<[i := b']> bs) ≡ₚ b' ++ rest.
Proof.
  intros H. exists (concat (take i bs) ++ concat (drop (S i) bs)).
  pose proof (lookup_lt_Some _ _ _ H).
  split.
  - rewrite <-(take_drop_middle _ _ _ H) at 1. rewrite concat_app. cbn.
    by rewrite Permutation_app_swap_app.
  - rewrite insert_take_drop by done. rewrite concat_app. cbn.
    by rewrite Permutation_app_swap_app.
Qed.

(** Elements that inject into a list are not more than its elements. *)
Lemma length_inject {A B} (R : A → B → Prop) (l : list A) : ∀ k : list B,
  NoDup l → (∀ x, x ∈ l → ∃ y, y ∈ k ∧ R x y) → (∀ x x' y, R x y → R x' y → x = x') → (length l ≤ length k)%nat.
Proof.
  induction l as [|x l IH]; intros k Hnd Hk Hinj; [cbn; lia|]. inversion Hnd as [|? ? Hx Hl]; subst.
  destruct (Hk x ltac:(by left)) as (y & Hy & Hxy). destruct (proj1 (elem_of_Permutation k y) Hy) as [k' Hp]. rewrite Hp. cbn.
  apply le_n_S, IH; [done| |done]. intros z Hz. destruct (Hk z ltac:(by right)) as (y' & Hy' & Hzy). exists y'. split; [|done].
  rewrite Hp in Hy'. apply elem_of_cons in Hy' as [->|]; [|done]. by rewrite (Hinj x z y) in Hx.
Qed.

(** ** Sums over a list *)
Definition sum_of {A} (f : A → Z) (l : list A) : Z := foldr (λ x n, f x + n) 0 l.

Lemma sum_of_app {A} (f : A → Z) l k : sum_of f (l ++ k) = sum_of f l + sum_of f k.
Proof. induction l as [|x l IH]; cbn; [done|]. fold (sum_of f l) (sum_of f (l ++ k)). lia. Qed.

(** [omap] *)
Lemma omap_len {A B} (f : A → option B) (l : list A) : (length (omap f l) <= length l)%nat.
Proof. induction l as [|x l IH]; cbn; [lia|]. destruct (f x); cbn; lia. Qed.

Lemma omap_snoc_middle {A B} (f : A → option B) (l1 : list A) x l2 :
  omap f (l1 ++ x :: l2) = omap f l1 ++ option_list (f x) ++ omap f l2.
Proof. rewrite omap_app. cbn. by destruct (f x). Qed.

Lemma insert_perm {A} (l l' : list A) (i : nat) x y : l !! i = Some x → l ≡ₚ x :: l' → <[i:=y]> l ≡ₚ y :: l'.
Proof.
  intros Hi Hp. rewrite insert_take_drop by (by eapply lookup_lt_Some).
  rewrite <- (take_drop_middle l i x Hi) in Hp. rewrite <- Permutation_middle in Hp |- *. by apply Permutation_cons_inv in Hp as ->.
Qed.

Lemma sum_of_cons {A} (f : A → Z) x l : sum_of f (x :: l) = f x + sum_of f l.
Proof. done. Qed.

Lemma sum_of_ext {A} (f g : A → Z) l : (∀ x, x ∈ l → f x = g x) → sum_of f l = sum_of g l.
Proof.
  intros H. induction l as [|x l IH]; [done|]. rewrite !sum_of_cons, H by (by left).
  rewrite IH; [done|]. intros y Hy. apply H. by right.
Qed.

Lemma sum_of_perm {A} (f : A → Z) l l' : l ≡ₚ l' → sum_of f l = sum_of f l'.
Proof. induction 1; unfold sum_of in *; cbn; lia. Qed.

Lemma sum_of_insert {A} (f : A → Z) l i x y :
  l !! i = Some x → sum_of f (<[i := y]> l) = sum_of f l - f x + f y.
Proof.
  intros H. pose proof (lookup_lt_Some _ _ _ H).
  rewrite insert_take_drop by done. rewrite <-(take_drop_middle _ _ _ H) at 3.
  rewrite !sum_of_app. cbn. fold (sum_of f (drop (S i) l)). lia.
Qed.

Lemma sum_of_bounds {A} (f : A → Z) l lo hi :
  (∀ x, x ∈ l → lo <= f x <= hi) → lo * Z.of_nat (length l) <= sum_of f l <= hi * Z.of_nat (length l).
Proof.
  induction l as [|x l IH]; intros H; [cbn; lia|].
  pose proof (H x ltac:(by left)) as Hx.
  assert (∀ y, y ∈ l → lo <= f y <= hi) as Hl by (intros y Hy; apply H; by right).
  specialize (IH Hl).
  cbn [length sum_of foldr]. fold (sum_of f l). lia.
Qed.

Lemma sum_of_nonneg {A} (f : A → Z) l : (∀ x, 0 <= f x) → 0 <= sum_of f l.
Proof.
  intros Hp. induction l as [|z l IH]; cbn; [lia|]. fold (sum_of f l). pose proof (Hp z). lia.
Qed.

Lemma sum_of_elem {A} (f : A → Z) l i x :
  (∀ x, 0 <= f x) → l !! i = Some x → f x <= sum_of f l.
Proof.
  intros Hp. revert i. induction l as [|y l IH]; intros [|i] H; cbn in *; simplify_eq.
  - fold (sum_of f l). pose proof (sum_of_nonneg f l Hp). lia.
  - fold (sum_of f l). pose proof (IH i H). pose proof (Hp y). lia.
Qed.

Lemma sum_of_replicate {A} (f : A → Z) n x : sum_of f (replicate n x) = Z.of_nat n * f x.
Proof.
  induction n as [|n IH]; cbn [replicate sum_of foldr]; [done|].
  fold (sum_of f (replicate n x)). lia.
Qed.
#[global] Arguments sum_of : simpl never.

Lemma sum_of_delete {A} (f : A → Z) l i x :
  l !! i = Some x → sum_of f (delete i l) = sum_of f l - f x.
Proof.
  intros H. rewrite delete_take_drop. rewrite <-(take_drop_middle _ _ _ H) at 3.
  rewrite !sum_of_app. change (sum_of f (x :: drop (S i) l)) with (f x + sum_of f (drop (S i) l)). lia.
Qed.

Lemma sum_of_two {A} (f : A → Z) l i j x y :
  (∀ x, 0 <= f x) → l !! i = Some x → l !! j = Some y → i ≠ j → f x + f y <= sum_of f l.
Proof.
  intros Hp Hi Hj Hne.
  assert (f y + sum_of f (delete j l) = sum_of f l) as E3 by (rewrite (sum_of_delete _ _ _ _ Hj); lia).
  assert (∃ k, delete j l !! k = Some x) as [k Hk].
  { destruct (decide (i < j)%nat).
    - exists i. by rewrite list_lookup_delete_lt.
    - exists (i - 1)%nat. rewrite list_lookup_delete_ge by lia. by replace (S (i - 1)) with i by lia. }
  pose proof (sum_of_elem f _ _ _ Hp Hk). lia.
Qed.

(** ** Lemmas on bit fields *)
Lemma bf_testbit pos w v i :
  0 <= pos → 0 <= w → 0 <= i → Z.testbit (bf pos w v) i = (i <? w) && Z.testbit v (pos + i).
Proof.
  intros. unfold bf. destruct (Z.ltb_spec i w).
  - rewrite Z.mod_pow2_bits_low, <-Z.shiftr_div_pow2, Z.shiftr_spec by lia.
    cbn. f_equal. lia.
  - by rewrite Z.mod_pow2_bits_high by lia.
Qed.

Lemma masked_put_testbit old new mask i :
  0 <= i →
  Z.testbit (masked_put old new mask) i =
  if Z.testbit mask i then Z.testbit new i else Z.testbit old i.
Proof.
  intros. unfold masked_put. rewrite Z.lor_spec, !Z.land_spec, Z.lnot_spec by done.
  destruct (Z.testbit mask i), (Z.testbit old i), (Z.testbit new i); done.
Qed.

Lemma bf_ext pos w u v :
  0 <= pos → 0 <= w →
  (∀ i, 0 <= i < w → Z.testbit u (pos + i) = Z.testbit v (pos + i)) →
  bf pos w u = bf pos w v.
Proof.
  intros Hp Hw H. apply Z.bits_inj'. intros i Hi. rewrite !bf_testbit by done.
  destruct (Z.ltb_spec i w); [|done]. by rewrite H.
Qed.

(** A masked write replaces the fields inside the mask and no other. *)
Lemma bf_masked_put_in pos w old new mask :
  0 <= pos → 0 <= w → (∀ i, 0 <= i < w → Z.testbit mask (pos + i) = true) →
  bf pos w (masked_put old new mask) = bf pos w new.
Proof.
  intros Hp Hw H. apply bf_ext; [done..|]. intros i Hi.
  by rewrite masked_put_testbit, H by lia.
Qed.

Lemma bf_masked_put_out pos w old new mask :
  0 <= pos → 0 <= w → (∀ i, 0 <= i < w → Z.testbit mask (pos + i) = false) →
  bf pos w (masked_put old new mask) = bf pos w old.
Proof.
  intros Hp Hw H. apply bf_ext; [done..|]. intros i Hi.
  by rewrite masked_put_testbit, H by lia.
Qed.

(** The bits of a mask [((1 << w) - 1) << p]. *)
Lemma testbit_mask w p i :
  0 <= w → 0 <= p → 0 <= i →
  Z.testbit (Z.shiftl (Z.shiftl 1 w - 1) p) i = (p <=? i) && (i <? p + w).
Proof.
  intros. rewrite Z.shiftl_spec, Z.shiftl_1_l by done.
  replace (2 ^ w - 1) with (Z.ones w) by (rewrite Z.ones_equiv; lia).
  destruct (Z.leb_spec p i).
  - rewrite Z.testbit_ones_nonneg by lia. cbn.
    destruct (Z.ltb_spec (i - p) w), (Z.ltb_spec i (p + w)); lia || done.
  - by rewrite Z.testbit_neg_r by lia.
Qed.

Lemma bf_range pos w v : 0 <= w → uint w (bf pos w v).
Proof. intros. apply wrap_range. lia. Qed.

(** Reading a field back from a word laid out by addition. *)
Lemma bf_low w v hi : 0 <= w → uint w v → bf 0 w (v + hi * 2 ^ w) = v.
Proof.
  intros Hw Hv. unfold bf. change (2 ^ 0) with 1. rewrite Z.div_1_r.
  pose proof (Z.pow_pos_nonneg 2 w). rewrite Z.mod_add by lia. by apply Z.mod_small.
Qed.

Lemma bf_high p w lo hi :
  0 <= p → 0 <= w → uint p lo → ∀ q, 0 <= q → bf (p + q) w (lo + hi * 2 ^ p) = bf q w hi.
Proof.
  intros Hp Hw Hlo q Hq. unfold bf. rewrite Z.pow_add_r, <-Z.div_div by lia.
  pose proof (Z.pow_pos_nonneg 2 p). rewrite Z.div_add, (Z.div_small lo) by (unfold uint in *; lia).
  done.
Qed.

Lemma bf_next p w lo hi :
  0 <= p → 0 <= w → uint p lo → bf p w (lo + hi * 2 ^ p) = bf 0 w hi.
Proof. intros. rewrite <-(Z.add_0_r p) at 1. by apply bf_high. Qed.

Lemma bf_skip p q w lo hi :
  0 <= p <= q → 0 <= w → uint p lo → bf q w (lo + hi * 2 ^ p) = bf (q - p) w hi.
Proof. intros. replace q with (p + (q - p)) at 1 by lia. apply bf_high; done || lia. Qed.

Lemma bf_all w v : uint w v → bf 0 w v = v.
Proof. intros. unfold bf. rewrite Z.div_1_r. by apply Z.mod_small. Qed.

(** A word is the sum of its low field and the rest. *)
Lemma bf_split p v : 0 <= p → v = bf 0 p v + (v / 2 ^ p) * 2 ^ p.
Proof.
  intros. unfold bf. change (2 ^ 0) with 1. rewrite Z.div_1_r.
  pose proof (Z.pow_pos_nonneg 2 p). rewrite (Z.div_mod v (2 ^ p)) at 1 by lia. lia.
Qed.

Lemma bf_div p q w v : 0 <= p → 0 <= q → bf q w (v / 2 ^ p) = bf (p + q) w v.
Proof.
  intros. unfold bf. by rewrite Z.pow_add_r, <-Z.div_div by lia.
Qed.

(** Adjacent fields join. *)
Lemma bf_join p w r v :
  0 <= p → 0 <= w → r = p + w → bf p w v + v / 2 ^ r * 2 ^ w = v / 2 ^ p.
Proof.
  intros Hp Hw ->. rewrite (Z.pow_add_r 2 p w), <-Z.div_div by lia.
  rewrite (bf_split w (v / 2 ^ p)) at 2 by done. by rewrite bf_div, Z.add_0_r by lia.
Qed.

(** The top field of a word is what is left when the others are shifted out. *)
Lemma bf_top p w r v : 0 <= p → 0 <= w → r = p + w → uint r v → bf p w v = v / 2 ^ p.
Proof.
  intros Hp Hw -> [H0 H1]. rewrite Z.pow_add_r in H1 by done.
  unfold bf. pose proof (Z.pow_pos_nonneg 2 p). apply Z.mod_small.
  split; [apply Z.div_pos; lia|apply Z.div_lt_upper_bound; lia].
Qed.

#[export] Hint Resolve bf_range : smart.
#[export] Hint Resolve le_bytes_byte is_byte_land : smart.

(** ** Tactics *)

(** Turn hypotheses [m ≫= f = Ok x] and the like into their parts. *)
Ltac inv_res_step :=
  match goal with
  | H : Ok _ = Ok _ |- _ => injection H; clear H; intros; subst
  | H : Fail _ = Ok _ |- _ => discriminate H
  | H : Ok _ = Fail _ |- _ => discriminate H
  | H : (_ ≫= _) = Ok _ |- _ => apply bind_Ok in H as (? & ? & ?)
  | H : check _ = Ok _ |- _ => apply check_Ok in H
  | H : defined _ = Ok _ |- _ => apply defined_Ok in H
  | H : mret _ = Ok _ |- _ => unfold mret, res_ret in H
  end.
Ltac inv_res := repeat inv_res_step.

(** Read the fields of a word that is laid out as [lo + hi * 2 ^ p]. *)
Ltac bf_simp :=
  repeat first
    [ rewrite bf_low by (done || lia)
    | rewrite bf_all by (done || lia)
    | rewrite bf_skip by (done || lia);
      repeat match goal with
      | |- context [bf (?a - ?b) _ _] =>
        let c := eval vm_compute in (a - b) in change (a - b) with c
      end ].

(** Read boolean comparisons of the source as propositions. *)
Ltac zb :=
  repeat match goal with
  | H : context [Z.ltb ?a ?b] |- _ => destruct (Z.ltb_spec a b)
  | H : context [Z.leb ?a ?b] |- _ => destruct (Z.leb_spec a b)
  | H : context [Z.eqb ?a ?b] |- _ => destruct (Z.eqb_spec a b)
  | |- context [Z.ltb ?a ?b] => destruct (Z.ltb_spec a b)
  | |- context [Z.leb ?a ?b] => destruct (Z.leb_spec a b)
  | |- context [Z.eqb ?a ?b] => destruct (Z.eqb_spec a b)
  end; try done; try lia.
