(* ===== verification/Common.v ===== *)
(** * Configuration constants and macros (include/Common.h)

    The constants of [namespace define], the rounding macros, and the popcount
    helper.  Everything is a closed term, so that bounds that depend on the
    configuration are checked by evaluation. *)

From Stdlib Require Import ZArith Lia Bool.
From stdpp Require Import base tactics numbers list.
From S2P Require Import Prelude.

(** ** Environment configuration *)
Definition MAX_MACHINE : Z := 2.
Definition MEMORY_NODE_NUM : Z := 1.
Definition MAX_CORO_NUM : Z := 8.
Definition ALLOC_ALLIGN_BIT : Z := 8.
Definition MAX_APP_THREAD : Z := 65.
Definition POLL_CQ_MAX_CNT_ONCE : Z := 8.
Definition NR_DIRECTORY : Z := 1.
Definition MESSAGE_SIZE : Z := 96.
Definition ON_CHIP_SIZE : Z := 128.

(** [ADD_ROUND(x, n)]: the value [x] is left with. *)
Definition ADD_ROUND (x n : Z) : Z := (x + 1) `rem` n.

(** [(((x) + (1<<(n)) - 1) & ~((1<<(n)) - 1))] *)
Definition ROUND_UP (x n : Z) : Z :=
  Z.land (x + Z.shiftl 1 n - 1) (Z.lnot (Z.shiftl 1 n - 1)).

(** [((x) & ~((1<<(n)) - 1))] *)
Definition ROUND_DOWN (x n : Z) : Z := Z.land x (Z.lnot (Z.shiftl 1 n - 1)).

(** [std::bitset<64>(u).count()] *)
Definition bits_in (u : Z) : Z :=
  Z.of_nat (length (filter (λ i, Z.testbit u i = true) (seqZ 0 64))).

(** ** [namespace define] *)
Definition MB : Z := 1024 * 1024.
Definition GB : Z := 1024 * MB.

Definition dsmSize : Z := 20.
Definition kChunkSize : Z := 16 * MB.

Definition rdmaBufferSize : Z := 4.
Definition kPerThreadRdmaBuf : Z := rdmaBufferSize * GB / MAX_APP_THREAD.
Definition kPerCoroRdmaBuf : Z := kPerThreadRdmaBuf / MAX_CORO_NUM.

Definition kIndexCacheSize : Z := 60000.
Definition kIndexCacheTtlNs : Z := 1000 * 1000 * 1000.

Definition keyLen : Z := 8.
Definition simulatedValLen : Z := 8.
Definition allocAlignLeafSize : Z :=
  ROUND_UP (keyLen + simulatedValLen + 8 + 2) ALLOC_ALLIGN_BIT.

Definition kRootPointerStoreOffest : Z := kChunkSize / 2.

Definition allocationPageSize : Z := 8 + 8 + 256 * 8.
Definition allocAlignPageSize : Z := ROUND_UP allocationPageSize ALLOC_ALLIGN_BIT.

Definition kvLenBit : Z := 7.
Definition nodeTypeNumBit : Z := 5.
Definition mnIdBit : Z := 8.
Definition offsetBit : Z := 48 - ALLOC_ALLIGN_BIT.
Definition hPartialLenMax : Z := 6.

Definition kLockStartAddr : Z := 0.
Definition kLockChipMemSize : Z := ON_CHIP_SIZE * 1024.
Definition kLocalLockNum : Z := 4 * MB.
Definition kOnChipLockNum : Z := kLockChipMemSize * 8.

(** [constexpr Value kValueNull/kValueMin/kValueMax] *)
Definition kValueNull : Z := 0.
Definition kValueMin : Z := 1.
Definition kValueMax : Z := 2 ^ 64 - 1.
Definition kKeyMin : Z := 1.

(** include/Rdma.h *)
Definition kWriteOroMax : Z := 24.
Definition kReadOroMax : Z := 1024.
Definition kInlineDataMax : Z := 220.

(** ** Lemmas *)
Lemma land_lnot_ones x n :
  0 <= n → Z.land x (Z.lnot (Z.shiftl 1 n - 1)) = x - x `mod` 2 ^ n.
Proof.
  intros Hn. rewrite Z.shiftl_1_l.
  replace (2 ^ n - 1) with (Z.ones n) by (rewrite Z.ones_equiv; lia).
  rewrite <-Z.ldiff_land, Z.ldiff_ones_r by done.
  rewrite Z.shiftr_div_pow2, Z.shiftl_mul_pow2 by done.
  pose proof (Z.div_mod x (2 ^ n)). pose proof (Z.pow_pos_nonneg 2 n). lia.
Qed.

Lemma ROUND_DOWN_spec x n :
  0 <= n → ROUND_DOWN x n = x - x `mod` 2 ^ n.
Proof. apply land_lnot_ones. Qed.

Lemma ROUND_DOWN_aligned x n : 0 <= n → (2 ^ n | ROUND_DOWN x n).
Proof.
  intros Hn. rewrite ROUND_DOWN_spec by done.
  exists (x / 2 ^ n). pose proof (Z.pow_pos_nonneg 2 n).
  pose proof (Z.div_mod x (2 ^ n)). lia.
Qed.

Lemma ROUND_UP_spec x n :
  0 <= n → (2 ^ n | ROUND_UP x n) ∧ x <= ROUND_UP x n < x + 2 ^ n.
Proof.
  intros Hn. unfold ROUND_UP. rewrite land_lnot_ones by done.
  rewrite Z.shiftl_1_l. pose proof (Z.pow_pos_nonneg 2 n ltac:(lia) Hn).
  remember (x + 2 ^ n - 1) as y eqn:Ey.
  assert (0 <= y `mod` 2 ^ n < 2 ^ n) as Hm by (apply Z.mod_pos_bound; lia).
  assert (y = 2 ^ n * (y / 2 ^ n) + y `mod` 2 ^ n) as Hd by (apply Z.div_mod; lia).
  revert Hm Hd. generalize (y `mod` 2 ^ n) (y / 2 ^ n). intros r q Hm Hd.
  split; [exists q; lia|lia].
Qed.

(** Rounding up is the least aligned value that is not below the argument. *)
Lemma ROUND_UP_least x n y :
  0 <= n → (2 ^ n | y) → x <= y → ROUND_UP x n <= y.
Proof.
  intros Hn [q ->] Hle. destruct (ROUND_UP_spec x n Hn) as [[p ->] Hb].
  pose proof (Z.pow_pos_nonneg 2 n ltac:(lia) Hn).
  assert (p < q + 1) by (apply (Z.mul_lt_mono_pos_r (2 ^ n)); lia).
  apply Z.mul_le_mono_nonneg_r; lia.
Qed.

Lemma ROUND_UP_id x n : 0 <= n → (2 ^ n | x) → ROUND_UP x n = x.
Proof.
  intros Hn Hd. pose proof (ROUND_UP_least x n x Hn Hd).
  pose proof (ROUND_UP_spec x n Hn). lia.
Qed.

#[export] Hint Resolve ROUND_UP_id ROUND_DOWN_aligned : smart.

(** Linear arithmetic with the small constants of the configuration. *)
Ltac clia := unfold keyLen, hPartialLenMax, uint, is_byte in *; cbn [Z.sub Z.add] in *; lia.
