(* ===== verification/Keys.v ===== *)
(** * Keys (include/Key.h)

    A key is [std::array<uint8_t, 8>], most significant byte first.  Depths are
    1-based: [get_partial k d] is byte [d-1] of [k], and depth 0 is the root.
    The arithmetic on keys is proved equal to arithmetic modulo [2^64], the
    lexicographic order of [std::array] to the order of the integers, and the
    left and right bounds to the interval of the keys that share a prefix. *)

From Stdlib Require Import ZArith Lia Bool.
From stdpp Require Import base tactics decidable option numbers list list_numbers.
From S2P Require Import Prelude.
From S2P Require Import Common.

#[global] Abbreviation Key := (list byte).
#[global] Abbreviation Prefix := (list byte).

Definition klen : nat := Z.to_nat keyLen.

(** The values of the type [std::array<uint8_t, define::keyLen>]. *)
Definition key_ok (k : Key) : Prop := length k = klen ∧ Forall is_byte k.

#[export] Instance key_ok_dec k : Decision (key_ok k).
Proof. unfold key_ok. apply _. Defined.

Definition get_partial (key : Key) (depth : Z) : res byte :=
  if depth =? 0 then Ok 0 else at_ key (depth - 1).

Definition get_leftmost (key : Key) (depth : Z) : res Key :=
  defined ((0 <=? depth) && (depth <=? keyLen)) ;;
  Ok (take (Z.to_nat depth) key ++ replicate (klen - Z.to_nat depth) 0).

Definition get_rightmost (key : Key) (depth : Z) : res Key :=
  defined ((0 <=? depth) && (depth <=? keyLen)) ;;
  Ok (take (Z.to_nat depth) key ++ replicate (klen - Z.to_nat depth) (Z.shiftl 1 8 - 1)).

(** The overloads on a [Prefix]. *)
Definition prefix_leftmost (prefix : Prefix) : res Key :=
  defined (Z.of_nat (length prefix) <=? keyLen) ;;
  Ok (prefix ++ replicate (klen - length prefix) 0).

Definition prefix_rightmost (prefix : Prefix) : res Key :=
  defined (Z.of_nat (length prefix) <=? keyLen) ;;
  Ok (prefix ++ replicate (klen - length prefix) (Z.shiftl 1 8 - 1)).

Definition remake_prefix (key : Key) (depth : Z) (diff_partial : byte) : res Key :=
  if 0 <? depth then
    defined (depth - 1 <=? keyLen) ;;
    if depth <=? keyLen then
      Ok (take (Z.to_nat (depth - 1)) key ++ [diff_partial]
            ++ replicate (klen - Z.to_nat depth) 0)
    else Fail ERange
  else Ok (replicate klen 0).

(** The loop [for (idx = 0; idx <= max_cmp; ++ idx)], [n] iterations left. *)
Fixpoint lcp_loop (k1 k2 : Key) (depth : Z) (n : nat) (idx : Z) : res Z :=
  match n with
  | O => Ok idx
  | S n =>
    p1 ← get_partial k1 (depth + idx);
    p2 ← get_partial k2 (depth + idx);
    if negb (p1 =? p2) then Ok idx else lcp_loop k1 k2 depth n (idx + 1)
  end.

Definition longest_common_prefix (k1 k2 : Key) (depth : Z) : res Z :=
  check ((0 <=? depth) && (depth <=? keyLen)) ;;
  let max_cmp := keyLen - depth in
  lcp_loop k1 k2 depth (Z.to_nat (max_cmp + 1)) 0.

(** The loops over the bytes run from the last byte to the first; [n] is the
    number of bytes left, so the current one is byte [n-1]. *)
Fixpoint add_one_loop (n : nat) (a : Key) : Key :=
  match n with
  | O => a
  | S m =>
    let partial := a !!! m in
    if partial + 1 <? Z.shiftl 1 8 then <[m := partial + 1]> a
    else add_one_loop m (<[m := 0]> a)
  end.

Definition add_one (a : Key) : Key := add_one_loop klen a.

Fixpoint key_add_loop (n : nat) (res : Key) (b : byte) : Key :=
  match n with
  | O => res
  | S m =>
    let partial := res !!! m in
    if partial + b <? Z.shiftl 1 8 then <[m := partial + b]> res
    else
      let tmp := partial + b in
      key_add_loop m (<[m := tmp `mod` Z.shiftl 1 8]> res) (tmp / Z.shiftl 1 8)
  end.

(** [operator+(const Key& a, uint8_t b)] *)
Definition key_add (a : Key) (b : byte) : Key := key_add_loop klen a b.

(** [while(tmp < b) tmp += (1 << 8), carry ++;] *)
Fixpoint borrow (fuel : nat) (tmp b carry : Z) : res Z :=
  match fuel with
  | O => Fail EFuel
  | S fuel => if tmp <? b then borrow fuel (tmp + Z.shiftl 1 8) b (carry + 1) else Ok carry
  end.

Fixpoint key_sub_loop (n : nat) (res : Key) (b : byte) : Prelude.res Key :=
  match n with
  | O => Ok res
  | S m =>
    let partial := res !!! m in
    if b <=? partial then Ok (<[m := partial - b]> res)
    else
      carry ← borrow 2 partial b 0;
      key_sub_loop m (<[m := (partial + carry * Z.shiftl 1 8) - b]> res) carry
  end.

(** [operator-(const Key& a, uint8_t b)] *)
Definition key_sub (a : Key) (b : byte) : Prelude.res Key := key_sub_loop klen a b.

Definition int2key (key : Z) : Key :=
  (λ i, let shr := (keyLen - i) * 8 in
        if 64 <=? shr then 0 else Z.land (Z.shiftr key shr) (Z.shiftl 1 8 - 1))
  <$> seqZ 1 keyLen.

Definition str2key (key : list byte) : Key :=
  (if Z.of_nat (length key) <=? keyLen then key else take klen key)
    ++ replicate (klen - length key) 0.

Definition key2int (key : Key) : Z :=
  foldl (λ res a, Z.shiftl res 8 +[64] a) 0 key.

(** [std::array]'s lexicographic [operator<] and what is built on it. *)
Fixpoint key_ltb (a b : Key) : bool :=
  match a, b with
  | x :: a, y :: b => if x <? y then true else if y <? x then false else key_ltb a b
  | [], _ :: _ => true
  | _, [] => false
  end.

Definition key_leb (a b : Key) : bool := negb (key_ltb b a).
Definition key_max (a b : Key) : Key := if key_ltb a b then b else a.
Definition key_min (a b : Key) : Key := if key_ltb b a then b else a.
Definition key_eqb (a b : Key) : bool := bool_decide (a = b).

(** ** Lemmas: big-endian values *)

(** The integer a byte string denotes, most significant byte first. *)
Definition be_int (l : list byte) : Z := foldl (λ r a, 256 * r + a) 0 l.

Lemma foldl_be acc l :
  foldl (λ r a, 256 * r + a) acc l = acc * 256 ^ Z.of_nat (length l) + be_int l.
Proof.
  unfold be_int. revert acc. induction l as [|x l IH]; intros acc; cbn [foldl length].
  { change (256 ^ Z.of_nat 0) with 1. lia. }
  rewrite IH, (IH (256 * 0 + x)), Nat2Z.inj_succ, Z.pow_succ_r by lia. lia.
Qed.

Lemma be_int_cons x l :
  be_int (x :: l) = x * 256 ^ Z.of_nat (length l) + be_int l.
Proof. unfold be_int at 1. cbn [foldl]. rewrite foldl_be. lia. Qed.

Lemma be_int_app l r :
  be_int (l ++ r) = be_int l * 256 ^ Z.of_nat (length r) + be_int r.
Proof. unfold be_int at 1. rewrite foldl_app. apply foldl_be. Qed.

Lemma be_int_snoc l x : be_int (l ++ [x]) = 256 * be_int l + x.
Proof.
  rewrite be_int_app, be_int_cons. cbn [length]. change (be_int []) with 0.
  change (256 ^ Z.of_nat 0) with 1. change (256 ^ Z.of_nat 1) with 256. lia.
Qed.

Lemma be_int_range l :
  Forall is_byte l → 0 <= be_int l < 256 ^ Z.of_nat (length l).
Proof.
  induction 1 as [|x l Hx Hl IH]; [done|]. rewrite be_int_cons. cbn [length].
  rewrite Nat2Z.inj_succ, Z.pow_succ_r by lia. unfold is_byte in *. nia.
Qed.

Lemma be_int_inj l r :
  Forall is_byte l → Forall is_byte r → length l = length r →
  be_int l = be_int r → l = r.
Proof.
  intros Hl. revert r. induction Hl as [|x l Hx Hl IH]; intros [|y r] Hr Hlen He; try done.
  inversion Hr as [|? ? Hy Hr']; subst. cbn in Hlen. injection Hlen as Hlen.
  rewrite !be_int_cons, Hlen in He.
  pose proof (be_int_range _ Hl). pose proof (be_int_range _ Hr'). rewrite Hlen in *.
  assert (x = y) as -> by nia. f_equal. apply IH; [done..|lia].
Qed.

Lemma be_int_replicate_0 n : be_int (replicate n 0) = 0.
Proof. induction n as [|n IH]; [done|]. cbn [replicate]. rewrite be_int_cons, IH. lia. Qed.

Lemma be_int_replicate_255 n :
  be_int (replicate n 255) = 256 ^ Z.of_nat n - 1.
Proof.
  induction n as [|n IH]; [done|]. cbn [replicate].
  rewrite be_int_cons, IH, length_replicate, Nat2Z.inj_succ, Z.pow_succ_r by lia. lia.
Qed.

Lemma pow256_klen : 256 ^ Z.of_nat klen = 2 ^ 64.
Proof. reflexivity. Qed.

Lemma key2int_be k : key_ok k → key2int k = be_int k.
Proof.
  intros [Hl Hb]. unfold key2int, be_int.
  assert (∀ l acc, Forall is_byte l → 0 <= acc →
    (acc + 1) * 256 ^ Z.of_nat (length l) <= 2 ^ 64 →
    foldl (λ r a, Z.shiftl r 8 +[64] a) acc l = foldl (λ r a, 256 * r + a) acc l) as H.
  { induction l as [|x l IH]; intros acc Hf H0 Hacc; cbn [foldl]; [done|].
    inversion Hf as [|? ? Hx Hf']; subst. unfold is_byte in Hx.
    cbn [length] in Hacc. rewrite Nat2Z.inj_succ, Z.pow_succ_r in Hacc by lia.
    pose proof (Z.pow_pos_nonneg 256 (Z.of_nat (length l))).
    rewrite Z.shiftl_mul_pow2, wrap_small by (unfold uint; nia).
    replace (acc * 2 ^ 8 + x) with (256 * acc + x) by lia. apply IH; [done|lia|nia]. }
  apply H; [done|lia|]. rewrite Hl, pow256_klen. lia.
Qed.

Lemma key2int_range k : key_ok k → uint 64 (key2int k).
Proof.
  intros Hk. rewrite key2int_be by done. destruct Hk as [Hl Hb].
  pose proof (be_int_range _ Hb) as H. by rewrite Hl, pow256_klen in H.
Qed.

Lemma key2int_inj a b : key_ok a → key_ok b → key2int a = key2int b → a = b.
Proof.
  intros Ha Hb. rewrite !key2int_be by done. destruct Ha, Hb.
  apply be_int_inj; [done..|congruence].
Qed.

(** ** Lemmas: order *)
Lemma key_ltb_be a b :
  Forall is_byte a → Forall is_byte b → length a = length b →
  key_ltb a b = (be_int a <? be_int b).
Proof.
  intros Ha. revert b. induction Ha as [|x a Hx Ha IH]; intros [|y b] Hb Hl; try done.
  inversion Hb as [|? ? Hy Hb']; subst. cbn in Hl. injection Hl as Hl. cbn [key_ltb].
  rewrite (IH b) by done. rewrite !be_int_cons, Hl.
  pose proof (be_int_range _ Ha) as Ra. pose proof (be_int_range _ Hb') as Rb.
  rewrite Hl in Ra.
  destruct (Z.ltb_spec x y), (Z.ltb_spec y x); try lia.
  - symmetry. apply Z.ltb_lt. nia.
  - symmetry. apply Z.ltb_ge. nia.
  - assert (x = y) as -> by lia.
    destruct (Z.ltb_spec (be_int a) (be_int b));
      [symmetry; apply Z.ltb_lt|symmetry; apply Z.ltb_ge]; lia.
Qed.

Lemma key_ltb_int a b :
  key_ok a → key_ok b → key_ltb a b = (key2int a <? key2int b).
Proof.
  intros Ha Hb. rewrite !key2int_be by done. destruct Ha, Hb.
  apply key_ltb_be; [done..|congruence].
Qed.

Lemma key_leb_int a b :
  key_ok a → key_ok b → key_leb a b = (key2int a <=? key2int b).
Proof.
  intros. unfold key_leb. rewrite key_ltb_int by done.
  by rewrite Z.ltb_antisym, negb_involutive.
Qed.

Lemma key_eqb_spec a b : reflect (a = b) (key_eqb a b).
Proof. unfold key_eqb. apply bool_decide_reflect. Qed.

(** ** Lemmas: partial keys *)
Lemma get_partial_0 k : get_partial k 0 = Ok 0.
Proof. done. Qed.

Lemma get_partial_at k d p :
  1 <= d → (get_partial k d = Ok p ↔ k !! Z.to_nat (d - 1) = Some p).
Proof.
  intros Hd. unfold get_partial. destruct (Z.eqb_spec d 0); [lia|].
  rewrite at_Ok. split; [by intros [_ ?]|split; [lia|done]].
Qed.

Lemma get_partial_total k d :
  key_ok k → 0 <= d <= keyLen → ∃ p, get_partial k d = Ok p ∧ is_byte p.
Proof.
  intros [Hl Hb] Hd. unfold get_partial. destruct (Z.eqb_spec d 0).
  { exists 0. split; [done|unfold is_byte; lia]. }
  destruct (at_in_range k (d - 1)) as (x & Hx & Hk).
  { rewrite Hl. change (Z.of_nat klen) with keyLen. lia. }
  exists x. split; [done|]. by eapply Forall_lookup_1.
Qed.

Lemma get_partial_beyond k d :
  key_ok k → keyLen < d → get_partial k d = Fail ERange.
Proof.
  intros [Hl _] Hd. unfold get_partial. destruct (Z.eqb_spec d 0); [unfold keyLen in *; lia|].
  apply at_out_of_range. right. rewrite Hl. change (Z.of_nat klen) with keyLen. lia.
Qed.

(** ** Lemmas: the carry loops

    Each loop works on a prefix [l] of the key and leaves the rest alone; it
    adds (or subtracts) its operand to the prefix modulo [256 ^ length l]. *)
Lemma lookup_total_snoc (l r : list Z) x : (l ++ x :: r) !!! length l = x.
Proof. by rewrite lookup_total_app_r, Nat.sub_diag. Qed.

Lemma insert_snoc (l r : list Z) x y : <[length l := y]> (l ++ x :: r) = l ++ y :: r.
Proof. rewrite <-(Nat.add_0_r (length l)). by rewrite insert_app_r. Qed.

(** Digit-by-digit arithmetic in base 256. *)
Lemma mod_digit u v p b m :
  0 < m → is_byte v → p + b = 256 * u + v →
  ∀ x, 256 * ((x + u) `mod` m) + v = (256 * x + p + b) `mod` (256 * m).
Proof.
  intros Hm Hv He x. unfold is_byte in Hv.
  replace (256 * x + p + b) with (v + (x + u) * 256) by lia.
  rewrite Z.rem_mul_r by lia.
  rewrite Z.mod_add, (Z.mod_small v) by lia. rewrite Z.div_add, (Z.div_small v) by lia.
  rewrite Z.add_0_l. lia.
Qed.

Lemma key_add_loop_spec l r b :
  Forall is_byte l → is_byte b →
  ∃ l', key_add_loop (length l) (l ++ r) b = l' ++ r ∧ length l' = length l ∧
        Forall is_byte l' ∧ be_int l' = (be_int l + b) `mod` 256 ^ Z.of_nat (length l).
Proof.
  revert r b. induction l as [|p l IH] using rev_ind; intros r b Hl Hb.
  { exists []. split_and!; [done..|]. change (256 ^ Z.of_nat (length [])) with 1.
    by rewrite Z.mod_1_r. }
  rewrite Forall_app, Forall_singleton in Hl. destruct Hl as [Hl Hp].
  pose proof (Z.pow_pos_nonneg 256 (Z.of_nat (length l)) ltac:(lia) ltac:(lia)) as Hpow.
  pose proof (be_int_range _ Hl) as Rl.
  rewrite length_app, Nat.add_comm, <-app_assoc. cbn [length Nat.add app key_add_loop].
  rewrite lookup_total_snoc, !insert_snoc. change (Z.shiftl 1 8) with 256.
  rewrite Nat2Z.inj_succ, Z.pow_succ_r by lia. unfold is_byte in Hp, Hb.
  destruct (Z.ltb_spec (p + b) 256) as [Hlt|Hge].
  - exists (l ++ [p + b]). rewrite <-app_assoc, length_app, Forall_app, Forall_singleton.
    split_and!; [done|cbn; lia|done|unfold is_byte; lia|].
    rewrite !be_int_snoc, Z.mod_small by lia. lia.
  - destruct (IH ((p + b) `mod` 256 :: r) ((p + b) / 256)) as (l' & E & Hlen & Hf & Hv).
    { done. }
    { unfold is_byte. split; [apply Z.div_pos; lia|apply Z.div_lt_upper_bound; lia]. }
    exists (l' ++ [(p + b) `mod` 256]).
    assert (is_byte ((p + b) `mod` 256)) as Hd by (apply Z.mod_pos_bound; lia).
    rewrite <-app_assoc, length_app, Forall_app, Forall_singleton.
    split_and!; [done|cbn; lia|done|done|].
    rewrite !be_int_snoc, Hv. apply mod_digit; [done|done|].
    apply Z.div_mod. lia.
Qed.

Lemma add_one_loop_eq n a : add_one_loop n a = key_add_loop n a 1 ∨ ¬ Forall is_byte a.
Proof.
  revert a. induction n as [|m IH]; intros a; [by left|]. cbn.
  destruct (decide (Forall is_byte a)) as [Ha|]; [left|by right].
  destruct (Z.ltb_spec (a !!! m + 1) (Z.shiftl 1 8)) as [|Hge]; [done|].
  change (Z.shiftl 1 8) with 256 in *.
  assert (is_byte (a !!! m)) as Hp.
  { destruct (a !! m) as [x|] eqn:E.
    - rewrite (list_lookup_total_correct _ _ _ E). by eapply Forall_lookup_1.
    - rewrite list_lookup_total_alt, E. done. }
  unfold is_byte in Hp. replace (a !!! m) with 255 by lia.
  change ((255 + 1) `mod` 256) with 0. change ((255 + 1) / 256) with 1.
  destruct (IH (<[m:=0]> a)) as [|Hn]; [done|]. destruct Hn.
  apply Forall_insert; [done|unfold is_byte; lia].
Qed.

Lemma add_one_eq a : Forall is_byte a → add_one a = key_add a 1.
Proof. intros Ha. unfold add_one, key_add. by destruct (add_one_loop_eq klen a). Qed.

(** One round of the borrow loop suffices, whatever the bytes. *)
Lemma borrow_spec p b : is_byte p → is_byte b → p < b → borrow 2 p b 0 = Ok 1.
Proof.
  unfold is_byte. intros. cbn. change (Z.shiftl 1 8) with 256.
  destruct (Z.ltb_spec p b); [|lia]. by destruct (Z.ltb_spec (p + 256) b); [lia|].
Qed.

Lemma key_sub_loop_spec l r b :
  Forall is_byte l → is_byte b →
  ∃ l', key_sub_loop (length l) (l ++ r) b = Ok (l' ++ r) ∧ length l' = length l ∧
        Forall is_byte l' ∧ be_int l' = (be_int l - b) `mod` 256 ^ Z.of_nat (length l).
Proof.
  revert r b. induction l as [|p l IH] using rev_ind; intros r b Hl Hb.
  { exists []. split_and!; [done..|]. change (256 ^ Z.of_nat (length [])) with 1.
    by rewrite Z.mod_1_r. }
  rewrite Forall_app, Forall_singleton in Hl. destruct Hl as [Hl Hp].
  pose proof (Z.pow_pos_nonneg 256 (Z.of_nat (length l)) ltac:(lia) ltac:(lia)) as Hpow.
  pose proof (be_int_range _ Hl) as Rl.
  rewrite length_app, Nat.add_comm, <-app_assoc. cbn [length Nat.add app key_sub_loop].
  rewrite lookup_total_snoc, !insert_snoc.
  rewrite Nat2Z.inj_succ, Z.pow_succ_r by lia. unfold is_byte in Hp, Hb.
  destruct (Z.leb_spec b p) as [Hle|Hgt].
  - exists (l ++ [p - b]). rewrite <-app_assoc, length_app, Forall_app, Forall_singleton.
    split_and!; [done|cbn; lia|done|unfold is_byte; lia|].
    rewrite !be_int_snoc, Z.mod_small by lia. lia.
  - rewrite borrow_spec by done. cbn [mbind res_bind]. change (Z.shiftl 1 8) with 256.
    rewrite insert_snoc.
    destruct (IH (p + 1 * 256 - b :: r) 1) as (l' & E & Hlen & Hf & Hv); [done..|].
    exists (l' ++ [p + 1 * 256 - b]). rewrite E.
    rewrite <-app_assoc, length_app, Forall_app, Forall_singleton.
    split_and!; [done|cbn; lia|done|unfold is_byte; lia|].
    rewrite !be_int_snoc, Hv.
    pose proof (mod_digit (-1) (p + 256 - b) p (- b) (256 ^ Z.of_nat (length l))) as M.
    replace (be_int l - 1) with (be_int l + -1) by lia.
    replace (256 * be_int l + p - b) with (256 * be_int l + p + - b) by lia.
    rewrite <-M; [lia|done|unfold is_byte; lia|lia].
Qed.

Lemma length_int2key n : length (int2key n) = klen.
Proof. done. Qed.

Lemma int2key_ok n : key_ok (int2key n).
Proof.
  split; [done|]. unfold int2key. apply Forall_fmap, Forall_true. intros i. cbn.
  destruct (64 <=? _); [done|apply is_byte_land].
Qed.

Lemma key_add_ok a b :
  key_ok a → is_byte b → key_ok (key_add a b) ∧ key2int (key_add a b) = (key2int a + b) `mod` 2 ^ 64.
Proof.
  intros [Hl Hf] Hb. destruct (key_add_loop_spec a [] b Hf Hb) as (l' & E & Hlen & Hf' & Hv).
  unfold key_add. rewrite app_nil_r, app_nil_r, Hl in *. rewrite E.
  assert (key_ok l') as Hk by done. split; [done|]. by rewrite !key2int_be, Hv, pow256_klen.
Qed.

Lemma key_sub_ok a b :
  key_ok a → is_byte b → ∃ r, key_sub a b = Ok r ∧ key_ok r ∧ key2int r = (key2int a - b) `mod` 2 ^ 64.
Proof.
  intros [Hl Hf] Hb. destruct (key_sub_loop_spec a [] b Hf Hb) as (l' & E & Hlen & Hf' & Hv).
  rewrite !app_nil_r, Hl in *. exists l'. assert (key_ok l') as Hk by done.
  split; [done|]. split; [done|]. by rewrite !key2int_be, Hv, pow256_klen.
Qed.

(** ** Properties *)

(** C28. Key arithmetic is arithmetic modulo [2^64]: [operator+] and [operator-]
    by any byte, with their carries and borrows (the inner borrow loop included,
    which returns), and [add_one], all stay inside the key type. *)
Theorem key_arith a b :
  key_ok a → is_byte b →
  (key_ok (key_add a b) ∧ key2int (key_add a b) = (key2int a + b) `mod` 2 ^ 64) ∧
  (∃ r, key_sub a b = Ok r ∧ key_ok r ∧ key2int r = (key2int a - b) `mod` 2 ^ 64) ∧
  (key_ok (add_one a) ∧ key2int (add_one a) = (key2int a + 1) `mod` 2 ^ 64).
Proof.
  intros Ha Hb. split; [by apply key_add_ok|]. split; [by apply key_sub_ok|].
  rewrite add_one_eq by apply Ha. apply key_add_ok; [done|]. unfold is_byte. lia.
Qed.

Example key_arith_witness :
  key_ok [0; 0; 0; 0; 0; 1; 255; 250] ∧ is_byte 10 ∧
  key2int (key_add [0; 0; 0; 0; 0; 1; 255; 250] 10) = 131076.
Proof.
  assert (key_ok [0; 0; 0; 0; 0; 1; 255; 250]) as Hk by (by vm_compute; repeat constructor).
  assert (is_byte 10) as Hb by (by vm_compute).
  split; [exact Hk|]. split; [exact Hb|].
  destruct (key_arith _ 10 Hk Hb) as [[_ E] _]. rewrite E. by vm_compute.
Defined.

Lemma int2key_be_aux n m :
  (m <= 8)%nat →
  be_int ((λ i, Z.land (Z.shiftr n ((8 - i) * 8)) 255) <$> seqZ 1 (Z.of_nat m))
  = (n / 2 ^ (64 - 8 * Z.of_nat m)) `mod` 256 ^ Z.of_nat m.
Proof.
  induction m as [|m IH]; intros Hm.
  { cbn. by rewrite Z.mod_1_r. }
  rewrite seqZ_S, fmap_app. cbn [fmap list_fmap].
  rewrite Nat2Z.inj_succ.
  rewrite be_int_snoc, IH by lia. change 255 with (Z.ones 8).
  rewrite Z.land_ones, Z.shiftr_div_pow2 by lia.
  set (k := 64 - 8 * Z.succ (Z.of_nat m)).
  replace ((8 - (1 + Z.of_nat m)) * 8) with k by lia.
  replace (64 - 8 * Z.of_nat m) with (k + 8) by lia.
  rewrite Z.pow_add_r, <-Z.div_div by lia. change (2 ^ 8) with 256.
  rewrite Z.pow_succ_r by lia.
  rewrite (Z.rem_mul_r (n / 2 ^ k) 256) by lia. lia.
Qed.

Lemma int2key_be n : be_int (int2key n) = n `mod` 2 ^ 64.
Proof.
  pose proof (int2key_be_aux n 8 ltac:(lia)) as H.
  change (64 - 8 * Z.of_nat 8) with 0 in H. rewrite Z.div_1_r in H. exact H.
Qed.

(** [int2key] and [key2int] are inverse bijections between the 64-bit
    integers and the keys, and they carry the order of the integers to the
    lexicographic order the tree and the scans compare keys with. *)
Theorem key_int_roundtrip :
  (∀ n, uint 64 n → key_ok (int2key n) ∧ key2int (int2key n) = n) ∧
  (∀ k, key_ok k → uint 64 (key2int k) ∧ int2key (key2int k) = k) ∧
  (∀ m n, uint 64 m → uint 64 n → key_ltb (int2key m) (int2key n) = (m <? n)).
Proof.
  assert (∀ n, uint 64 n → key2int (int2key n) = n) as H.
  { intros n Hn. rewrite key2int_be, int2key_be by apply int2key_ok. by apply Z.mod_small. }
  split_and!.
  - intros n Hn. split; [apply int2key_ok|by apply H].
  - intros k Hk. pose proof (key2int_range k Hk). split; [done|].
    apply key2int_inj; [apply int2key_ok|done|by apply H].
  - intros m n Hm Hn. rewrite key_ltb_int by apply int2key_ok. by rewrite !H.
Qed.

Lemma lcp_loop_spec k1 k2 depth n idx :
  key_ok k1 → key_ok k2 → 0 <= depth → 0 <= idx →
  depth + idx + Z.of_nat n <= keyLen + 1 →
  ∃ r, lcp_loop k1 k2 depth n idx = Ok r ∧ idx <= r <= idx + Z.of_nat n ∧
    (∀ j, idx <= j < r → get_partial k1 (depth + j) = get_partial k2 (depth + j)) ∧
    (r < idx + Z.of_nat n → get_partial k1 (depth + r) ≠ get_partial k2 (depth + r)).
Proof.
  intros Hk1 Hk2 Hd. revert idx. induction n as [|n IH]; intros idx Hi Hle.
  { exists idx. split_and!; [done|lia|lia|lia|lia]. }
  cbn [lcp_loop].
  destruct (get_partial_total k1 (depth + idx)) as (p1 & E1 & _); [done|lia|].
  destruct (get_partial_total k2 (depth + idx)) as (p2 & E2 & _); [done|lia|].
  rewrite E1, E2. cbn [mbind res_bind].
  destruct (Z.eqb_spec p1 p2) as [->|Hne]; cbn [negb].
  - destruct (IH (idx + 1)) as (r & E & Hr & Heq & Hne); [lia..|].
    exists r. split_and!; [done|lia|lia| |intros; apply Hne; lia].
    intros j Hj. destruct (decide (j = idx)) as [->|]; [congruence|apply Heq; lia].
  - exists idx. split_and!; [done|lia|lia|lia|]. intros _. congruence.
Qed.

Lemma longest_common_prefix_ok k1 k2 depth :
  key_ok k1 → key_ok k2 → 0 <= depth <= keyLen →
  ∃ r, longest_common_prefix k1 k2 depth = Ok r ∧ 0 <= r <= keyLen - depth + 1 ∧
    (∀ j, 0 <= j < r → get_partial k1 (depth + j) = get_partial k2 (depth + j)) ∧
    (r <= keyLen - depth → get_partial k1 (depth + r) ≠ get_partial k2 (depth + r)).
Proof.
  intros Hk1 Hk2 Hd. unfold longest_common_prefix. rewrite !(proj2 (Z.leb_le _ _)) by lia. cbn [andb check mbind res_bind].
  destruct (lcp_loop_spec k1 k2 depth (Z.to_nat (keyLen - depth + 1)) 0)
    as (r & E & Hr & Heq & Hne); [done|done|lia|lia|lia|].
  exists r. rewrite E. split_and!; [done|lia|lia|done|]. intros. apply Hne. lia.
Qed.

(** [longest_common_prefix k1 k2 depth] returns the number of partial keys
    the two keys share from [depth] on: all those before the result agree, and
    either the one at the result differs or there is none left; the depth
    assertion is its only failure. *)
Theorem longest_common_prefix_spec k1 k2 depth :
  key_ok k1 → key_ok k2 →
  (0 <= depth <= keyLen →
   ∃ r, longest_common_prefix k1 k2 depth = Ok r ∧ 0 <= r <= keyLen - depth + 1 ∧
     (∀ j, 0 <= j < r → get_partial k1 (depth + j) = get_partial k2 (depth + j)) ∧
     (r <= keyLen - depth → get_partial k1 (depth + r) ≠ get_partial k2 (depth + r))) ∧
  (depth < 0 ∨ keyLen < depth → longest_common_prefix k1 k2 depth = Fail EAssert).
Proof.
  intros Hk1 Hk2. split; intros Hd; [by apply longest_common_prefix_ok|]. unfold longest_common_prefix.
  destruct (Z.leb_spec 0 depth), (Z.leb_spec depth keyLen); done || lia.
Qed.

Example longest_common_prefix_spec_witness :
  key_ok [9; 9; 7; 0; 0; 0; 0; 1] ∧ key_ok [9; 9; 8; 0; 0; 0; 0; 1] ∧
  (∃ r, longest_common_prefix [9; 9; 7; 0; 0; 0; 0; 1] [9; 9; 8; 0; 0; 0; 0; 1] 1 = Ok r
        ∧ r = 2).
Proof.
  assert (key_ok [9; 9; 7; 0; 0; 0; 0; 1]) as H1 by (by vm_compute; repeat constructor).
  assert (key_ok [9; 9; 8; 0; 0; 0; 0; 1]) as H2 by (by vm_compute; repeat constructor).
  split; [exact H1|]. split; [exact H2|].
  destruct (longest_common_prefix_spec _ _ 1 H1 H2) as [[r [E _]] _]; [by vm_compute|].
  exists r. split; [exact E|]. vm_compute in E. congruence.
Defined.

Lemma get_leftmost_ok k d :
  key_ok k → 0 <= d <= keyLen →
  get_leftmost k d = Ok (take (Z.to_nat d) k ++ replicate (klen - Z.to_nat d) 0).
Proof. intros. unfold get_leftmost. by rewrite !(proj2 (Z.leb_le _ _)) by lia. Qed.

Lemma get_rightmost_ok k d :
  key_ok k → 0 <= d <= keyLen →
  get_rightmost k d = Ok (take (Z.to_nat d) k ++ replicate (klen - Z.to_nat d) 255).
Proof. intros. unfold get_rightmost. by rewrite !(proj2 (Z.leb_le _ _)) by lia. Qed.

Lemma padded_ok k n c :
  key_ok k → (n <= klen)%nat → is_byte c → key_ok (take n k ++ replicate (klen - n) c).
Proof.
  intros [Hl Hf] Hn Hc. split.
  - rewrite length_app, length_take, length_replicate. lia.
  - apply Forall_app. split; [by apply Forall_take|by apply Forall_replicate].
Qed.

Lemma be_int_split n k : be_int k = be_int (take n k) * 256 ^ Z.of_nat (length (drop n k))
                                    + be_int (drop n k).
Proof. by rewrite <-be_int_app, take_drop. Qed.

(** [get_leftmost k d] and [get_rightmost k d] are the ends of the interval
    of the keys that agree with [k] on the first [d] bytes: a key lies between
    them exactly when it has that prefix. *)
Theorem leftmost_rightmost_interval k d x :
  key_ok k → key_ok x → 0 <= d <= keyLen →
  ∃ lo hi, get_leftmost k d = Ok lo ∧ get_rightmost k d = Ok hi ∧ key_ok lo ∧ key_ok hi ∧
    (take (Z.to_nat d) x = take (Z.to_nat d) k ↔
     key_leb lo x = true ∧ key_leb x hi = true).
Proof.
  intros Hk Hx Hd. rewrite get_leftmost_ok, get_rightmost_ok by done.
  set (n := Z.to_nat d).
  assert (n <= klen)%nat as Hn by (change klen with (Z.to_nat keyLen); lia).
  set (lo := take n k ++ replicate (klen - n) 0).
  set (hi := take n k ++ replicate (klen - n) 255).
  assert (key_ok lo) as Hlo by (by apply padded_ok).
  assert (key_ok hi) as Hhi by (by apply padded_ok).
  exists lo, hi. split_and!; [done..|].
  rewrite !key_leb_int, !key2int_be, !Z.leb_le by done.
  unfold lo, hi. rewrite !be_int_app, be_int_replicate_0, be_int_replicate_255.
  rewrite (be_int_split n x), !length_replicate.
  destruct Hx as [Hxl Hxf], Hk as [Hkl Hkf].
  assert (length (drop n x) = (klen - n)%nat) as -> by (rewrite length_drop; lia).
  pose proof (be_int_range (drop n x) ltac:(by apply Forall_drop)) as Rx.
  rewrite length_drop, Hxl in Rx.
  pose proof (Z.pow_pos_nonneg 256 (Z.of_nat (klen - n)) ltac:(lia) ltac:(lia)).
  split.
  - intros ->. lia.
  - intros [H1 H2]. apply be_int_inj; [by apply Forall_take..| |nia].
    rewrite !length_take. lia.
Qed.

Example leftmost_rightmost_interval_witness :
  ∃ lo hi, get_leftmost [253; 106; 29; 13; 7; 0; 0; 0] 3 = Ok lo ∧
           get_rightmost [253; 106; 29; 13; 7; 0; 0; 0] 3 = Ok hi ∧
           lo = [253; 106; 29; 0; 0; 0; 0; 0] ∧
           hi = [253; 106; 29; 255; 255; 255; 255; 255].
Proof.
  assert (key_ok [253; 106; 29; 13; 7; 0; 0; 0]) as H by (by vm_compute; repeat constructor).
  destruct (leftmost_rightmost_interval _ 3 _ H H) as (lo & hi & E1 & E2 & _);
    [by vm_compute|].
  exists lo, hi. split; [exact E1|]. split; [exact E2|].
  vm_compute in E1, E2. split; congruence.
Defined.
