(* ===== verification/Address.v ===== *)
(** * Global addresses (include/GlobalAddress.h)

    A [GlobalAddress] is a 64-bit union: a 16-bit node id and a 48-bit offset,
    or the word [val].  The bit-fields are laid out from the low end. *)

From Stdlib Require Import ZArith Lia Bool.
From stdpp Require Import base tactics decidable option numbers list.
From S2P Require Import Prelude.
From S2P Require Import Common.

Record GlobalAddress : Set := GA { nodeID : Z; offset : Z }.

#[export] Instance GlobalAddress_eq_dec : EqDecision GlobalAddress.
Proof. solve_decision. Defined.

#[export] Instance GlobalAddress_inhabited : Inhabited GlobalAddress := populate (GA 0 0).

(** The values the bit-fields can hold. *)
Definition gaddr_ok (a : GlobalAddress) : Prop := uint 16 (nodeID a) ∧ uint 48 (offset a).

#[export] Instance gaddr_ok_dec a : Decision (gaddr_ok a).
Proof. unfold gaddr_ok. apply _. Defined.

(** [GlobalAddress(uint64_t nodeID, uint64_t offset)] truncates to the fields. *)
Definition mk_gaddr (nodeID offset : Z) : GlobalAddress := GA (wrap 16 nodeID) (wrap 48 offset).

(** The member [val] of the union, read and written. *)
Definition gaddr_val (a : GlobalAddress) : Z := nodeID a + offset a * 2 ^ 16.
Definition gaddr_of_val (val : Z) : GlobalAddress := GA (bf 0 16 val) (bf 16 48 val).

Definition gaddr_Null : GlobalAddress := gaddr_of_val 0.
Definition gaddr_Max : GlobalAddress := mk_gaddr MEMORY_NODE_NUM 0.

(** [ret.offset += off] on a 48-bit field. *)
Definition GADD (addr : GlobalAddress) (off : Z) : GlobalAddress :=
  GA (nodeID addr) (offset addr +[48] off).

Definition gaddr_eqb (lhs rhs : GlobalAddress) : bool :=
  (nodeID lhs =? nodeID rhs) && (offset lhs =? offset rhs).

(** [std::make_pair(lhs.nodeID, lhs.offset) < std::make_pair(...)] *)
Definition gaddr_ltb (lhs rhs : GlobalAddress) : bool :=
  if nodeID lhs <? nodeID rhs then true
  else if nodeID rhs <? nodeID lhs then false
  else offset lhs <? offset rhs.

(** ** Lemmas *)
Lemma gaddr_eqb_spec a b : reflect (a = b) (gaddr_eqb a b).
Proof.
  unfold gaddr_eqb. destruct a as [n o], b as [n' o']; cbn.
  destruct (Z.eqb_spec n n'), (Z.eqb_spec o o'); constructor; congruence.
Qed.

Lemma gaddr_eqb_refl a : gaddr_eqb a a = true.
Proof. by destruct (gaddr_eqb_spec a a). Qed.

Lemma mk_gaddr_ok n o : gaddr_ok (mk_gaddr n o).
Proof. split; apply wrap_range; lia. Qed.

Lemma mk_gaddr_id a : gaddr_ok a → mk_gaddr (nodeID a) (offset a) = a.
Proof. destruct a; intros []; unfold mk_gaddr; cbn in *. by rewrite !wrap_small. Qed.

Lemma GADD_ok a off : gaddr_ok a → gaddr_ok (GADD a off).
Proof. intros [? ?]. split; [done|]. apply wrap_range. lia. Qed.

Lemma GADD_0 a : gaddr_ok a → GADD a 0 = a.
Proof. destruct a; intros []; unfold GADD; cbn in *. by rewrite Z.add_0_r, wrap_small. Qed.

(** Within the 48-bit space an offset is added, not wrapped. *)
Lemma GADD_offset a off : uint 48 (offset a + off) → offset (GADD a off) = offset a + off.
Proof. apply wrap_small. Qed.

Lemma GADD_GADD a p q : GADD (GADD a p) q = GADD a (p + q).
Proof. unfold GADD; cbn. f_equal. rewrite wrap_wrap_add_l. f_equal. lia. Qed.

Lemma gaddr_of_val_ok v : gaddr_ok (gaddr_of_val v).
Proof. split; apply bf_range; lia. Qed.

Lemma gaddr_of_val_val a : gaddr_ok a → gaddr_of_val (gaddr_val a) = a.
Proof.
  destruct a as [n o]; intros [Hn Ho]; unfold gaddr_of_val, gaddr_val; cbn in *.
  rewrite bf_low by (done || lia).
  rewrite bf_next by (done || lia). by rewrite bf_all.
Qed.

Lemma gaddr_val_range a : gaddr_ok a → uint 64 (gaddr_val a).
Proof. destruct a as [n o]; intros [Hn Ho]; unfold gaddr_val, uint in *; cbn in *. lia. Qed.

Lemma gaddr_val_of_val v : uint 64 v → gaddr_val (gaddr_of_val v) = v.
Proof.
  intros Hv. unfold gaddr_val, gaddr_of_val; cbn.
  rewrite (bf_split 16 v) at 3 by lia. f_equal. f_equal.
  rewrite <-(bf_div 16 0) by lia. apply bf_all. unfold uint in *.
  split; [apply Z.div_pos; lia|apply Z.div_lt_upper_bound; lia].
Qed.

Lemma gaddr_val_inj a b : gaddr_ok a → gaddr_ok b → gaddr_val a = gaddr_val b → a = b.
Proof. intros Ha Hb E. rewrite <-(gaddr_of_val_val a), <-(gaddr_of_val_val b) by done. by rewrite E. Qed.

Lemma gaddr_Null_val a : gaddr_ok a → (a = gaddr_Null ↔ gaddr_val a = 0).
Proof.
  intros Ha. split; [by intros ->|].
  intros E. apply gaddr_val_inj; [done|by apply gaddr_of_val_ok|done].
Qed.

#[export] Hint Resolve mk_gaddr_ok GADD_ok gaddr_of_val_ok gaddr_val_range : smart.
#[export] Hint Resolve gaddr_of_val_val gaddr_val_of_val : smart.
