(* ===== verification/Nodes.v ===== *)
(** * Tree nodes (include/Node.h)

    The data of the tree as it lies in remote memory: packed addresses, leaves,
    headers, internal entries and pages, each as a record with its encoding into
    the words and bytes the RDMA operations move, and the operations of Node.h.

    Bit-fields are laid out from the low end of their unit, as the supported
    compilers do on x86-64.  A node type is kept as the integer of its 5-bit
    field: [static_cast<NodeType>] accepts every value of the field. *)

From Stdlib Require Import ZArith Lia Bool.
From stdpp Require Import base tactics decidable option numbers list list_numbers.
From S2P Require Import Prelude.
From S2P Require Import Common.
From S2P Require Import Keys.
From S2P Require Import Address.

(** ** Node types *)
#[global] Abbreviation NodeType := Z.

(** The enumeration of the fine-grained configuration (the default one). *)
Definition NODE_DELETED : NodeType := 0.
Definition NODE_4 : NodeType := 1.
Definition NODE_256 : NodeType := 7.
Definition MAX_NODE_TYPE_NUM : Z := 8.

Definition node_type_to_num (type : NodeType) : Z :=
  if type =? NODE_DELETED then 0 else Z.shiftl 1 (type + 1).

(** [for (int i = 1; i < MAX_NODE_TYPE_NUM; ++ i)], then [assert(false)]. *)
Fixpoint find_node_type (n : nat) (i num : Z) : res NodeType :=
  match n with
  | O => Fail EAssert
  | S n => if num <? Z.shiftl 1 (i + 1) then Ok i else find_node_type n (i + 1) num
  end.

Definition num_to_node_type (num : Z) : res NodeType :=
  if num =? 0 then Ok NODE_DELETED
  else find_node_type (Z.to_nat (MAX_NODE_TYPE_NUM - 1)) 1 num.

(** The configuration without [TREE_ENABLE_FINE_GRAIN_NODE]. *)
Module Coarse.
Inductive NodeType : Set := NODE_DELETED | NODE_4 | NODE_16 | NODE_48 | NODE_256.

Definition node_type_to_num (type : NodeType) : Z :=
  match type with
  | NODE_DELETED => 0
  | NODE_4 => 4
  | NODE_16 => 16
  | NODE_48 => 48
  | NODE_256 => 256
  end.

Definition num_to_node_type (num : Z) : res NodeType :=
  if num =? 0 then Ok NODE_DELETED
  else if num <? 4 then Ok NODE_4
  else if num <? 16 then Ok NODE_16
  else if num <? 48 then Ok NODE_48
  else if num <? 256 then Ok NODE_256
  else Fail EAssert.
End Coarse.

(** ** Packed addresses *)
Record PackedGAddr : Set := PG { mn_id : Z; pg_offset : Z }.

#[export] Instance PackedGAddr_eq_dec : EqDecision PackedGAddr.
Proof. solve_decision. Defined.

(** [PackedGAddr{addr.nodeID, addr.offset >> ALLOC_ALLIGN_BIT}] *)
Definition pack_gaddr (addr : GlobalAddress) : PackedGAddr :=
  PG (wrap mnIdBit (nodeID addr)) (wrap offsetBit (Z.shiftr (offset addr) ALLOC_ALLIGN_BIT)).

(** [operator uint64_t()] *)
Definition packed_val (p : PackedGAddr) : Z := Z.lor (Z.shiftl (pg_offset p) mnIdBit) (mn_id p).

Definition packed_ok (p : PackedGAddr) : Prop := uint mnIdBit (mn_id p) ∧ uint offsetBit (pg_offset p).

(** ** Headers *)
Record Header : Set := Hdr {
  h_depth : Z;             (* uint8_t *)
  h_node_type : NodeType;  (* 5 bits *)
  h_partial_len : Z;       (* 3 bits *)
  h_partial : list byte    (* uint8_t[hPartialLenMax] *)
}.

#[export] Instance Header_eq_dec : EqDecision Header.
Proof. solve_decision. Defined.

Definition header_ok (h : Header) : Prop :=
  uint 8 (h_depth h) ∧ uint nodeTypeNumBit (h_node_type h) ∧
  uint (8 - nodeTypeNumBit) (h_partial_len h) ∧
  length (h_partial h) = Z.to_nat hPartialLenMax ∧ Forall is_byte (h_partial h).

#[export] Instance header_ok_dec h : Decision (header_ok h).
Proof. unfold header_ok. apply _. Defined.

(** The union with [uint64_t val]. *)
Definition header_val (h : Header) : Z :=
  h_depth h + (h_node_type h + (h_partial_len h + le_int (h_partial h) * 2 ^ 3) * 2 ^ 5) * 2 ^ 8.
Definition header_of_val (v : Z) : Header :=
  Hdr (bf 0 8 v) (bf 8 5 v) (bf 13 3 v) (le_bytes 6 (bf 16 48 v)).

Definition zero_partial : list byte := replicate (Z.to_nat hPartialLenMax) 0.

(** [Header()], [Header(int depth)], [Header(NodeType node_type)] *)
Definition header_default : Header := Hdr 0 0 0 zero_partial.
Definition header_depth (depth : Z) : Header := Hdr (wrap 8 depth) 0 0 zero_partial.
Definition header_type (node_type : NodeType) : Header := Hdr 0 (wrap 5 node_type) 0 zero_partial.

(** The loop [partial[i] = get_partial(k, depth + i)] of the constructor. *)
Fixpoint fill_partial (k : Key) (depth : Z) (n : nat) (i : Z) (partial : list byte) :
    res (list byte) :=
  match n with
  | O => Ok partial
  | S n =>
    p ← get_partial k (depth + i);
    fill_partial k depth n (i + 1) (<[Z.to_nat i := p]> partial)
  end.

(** [Header(k, partial_len, depth, node_type)]: the bytes of [partial] past
    [partial_len] are not initialised, they keep what the memory held ([old]). *)
Definition header_make (old : list byte) (k : Key) (partial_len depth : Z)
    (node_type : NodeType) : res Header :=
  check ((0 <=? partial_len) && (partial_len <=? hPartialLenMax)) ;;
  partial ← fill_partial k depth (Z.to_nat partial_len) 0 old;
  Ok (Hdr (wrap 8 depth) (wrap 5 node_type) (wrap 3 partial_len) partial).

Fixpoint match_loop (h : Header) (k : Key) (n : nat) (i : Z) : res bool :=
  match n with
  | O => Ok true
  | S n =>
    p ← get_partial k (h_depth h + i);
    q ← idx_ (h_partial h) i;
    if negb (p =? q) then Ok false else match_loop h k n (i + 1)
  end.

Definition is_match (h : Header) (k : Key) : res bool :=
  match_loop h k (Z.to_nat (h_partial_len h)) 0.

(** [split_header(old_hdr, diff_idx)]: the new header starts after the partial
    key at [diff_idx]; its node type is 0. *)
Definition split_header (old_hdr : Header) (diff_idx : Z) : res Header :=
  defined ((0 <=? diff_idx) && (h_partial_len old_hdr <=? hPartialLenMax)) ;;
  let moved := slice (Z.to_nat (diff_idx + 1))
                 (Z.to_nat (h_partial_len old_hdr - (diff_idx + 1))) (h_partial old_hdr) in
  Ok (Hdr (wrap 8 (h_depth old_hdr + diff_idx + 1)) 0
          (wrap 3 (h_partial_len old_hdr - diff_idx - 1))
          (moved ++ drop (length moved) zero_partial)).

Definition node_type_mask : Z := Z.shiftl (Z.shiftl 1 nodeTypeNumBit - 1) 8.

(** ** Internal entries

    The two views of the union share the partial key, the leaf bit and the
    address; the 7 bits between them are [kv_len], or [empty] (2 low bits) and
    [node_type]. *)
Record InternalEntry : Set := Ent {
  e_partial : byte;
  e_kv_len : Z;
  e_is_leaf : bool;
  e_packed_addr : PackedGAddr
}.

#[export] Instance InternalEntry_eq_dec : EqDecision InternalEntry.
Proof. solve_decision. Defined.

#[export] Instance InternalEntry_inhabited : Inhabited InternalEntry :=
  populate (Ent 0 0 false (PG 0 0)).

Definition entry_ok (e : InternalEntry) : Prop :=
  is_byte (e_partial e) ∧ uint kvLenBit (e_kv_len e) ∧ packed_ok (e_packed_addr e).

#[export] Instance entry_ok_dec e : Decision (entry_ok e).
Proof. unfold entry_ok, packed_ok. apply _. Defined.

Definition entry_val (e : InternalEntry) : Z :=
  e_partial e + (e_kv_len e + (Z.b2z (e_is_leaf e) +
    (mn_id (e_packed_addr e) + pg_offset (e_packed_addr e) * 2 ^ 8) * 2 ^ 1) * 2 ^ 7) * 2 ^ 8.
Definition entry_of_val (v : Z) : InternalEntry :=
  Ent (bf 0 8 v) (bf 8 7 v) (bf 15 1 v =? 1) (PG (bf 16 8 v) (bf 24 40 v)).

Definition e_empty (e : InternalEntry) : Z := bf 0 (kvLenBit - nodeTypeNumBit) (e_kv_len e).
Definition e_node_type (e : InternalEntry) : NodeType :=
  bf (kvLenBit - nodeTypeNumBit) nodeTypeNumBit (e_kv_len e).

Definition kv_of_type (node_type : NodeType) : Z :=
  wrap nodeTypeNumBit node_type * 2 ^ (kvLenBit - nodeTypeNumBit).

(** The constructors. *)
Definition entry_leaf (partial : byte) (kv_len : Z) (addr : GlobalAddress) : InternalEntry :=
  Ent partial (wrap kvLenBit kv_len) true (pack_gaddr addr).
Definition entry_node (partial : byte) (node_type : NodeType) (addr : GlobalAddress) : InternalEntry :=
  Ent partial (kv_of_type node_type) false (pack_gaddr addr).
Definition entry_repartial (partial : byte) (e : InternalEntry) : InternalEntry :=
  Ent partial (e_kv_len e) (e_is_leaf e) (e_packed_addr e).
Definition entry_retype (node_type : NodeType) (e : InternalEntry) : InternalEntry :=
  Ent (e_partial e) (kv_of_type node_type) (e_is_leaf e) (e_packed_addr e).

Definition entry_Null : InternalEntry := entry_of_val 0.

(** [operator==] compares the words. *)
Definition entry_eqb (lhs rhs : InternalEntry) : bool := entry_val lhs =? entry_val rhs.

(** [addr()] *)
Definition e_addr (e : InternalEntry) : GlobalAddress :=
  mk_gaddr (mn_id (e_packed_addr e)) (Z.shiftl (pg_offset (e_packed_addr e)) ALLOC_ALLIGN_BIT).

(** ** Leaves *)

(** The CRC-64 of Boost, a function of the bytes processed since [reset]. *)
Class Checksum := {
  crc64 : list byte → Z;
  crc64_range bs : uint 64 (crc64 bs)
}.

Record Leaf : Set := mkLeaf {
  l_rev_ptr : GlobalAddress;
  l_valid_byte : byte;   (* f_padding : 7, valid : 1 *)
  l_checksum : Z;
  l_key : Key;
  l_value : Z;
  l_lock_byte : byte     (* w_lock : 1, r_padding : 7 *)
}.

#[export] Instance Leaf_eq_dec : EqDecision Leaf.
Proof. solve_decision. Defined.

Definition leaf_ok (l : Leaf) : Prop :=
  gaddr_ok (l_rev_ptr l) ∧ is_byte (l_valid_byte l) ∧ uint 64 (l_checksum l) ∧
  key_ok (l_key l) ∧ uint 64 (l_value l) ∧ is_byte (l_lock_byte l).

#[export] Instance leaf_ok_dec l : Decision (leaf_ok l).
Proof. unfold leaf_ok. apply _. Defined.

(** [sizeof(Leaf)] and the [STRUCT_OFFSET]s of the packed struct. *)
Definition sizeof_Leaf : Z := 8 + 1 + 8 + keyLen + simulatedValLen + 1.
Definition valid_byte_offset : Z := 8.
Definition lock_byte_offset : Z := 33.

Definition leaf_bytes (l : Leaf) : list byte :=
  le_bytes 8 (gaddr_val (l_rev_ptr l)) ++ [l_valid_byte l] ++ le_bytes 8 (l_checksum l)
    ++ l_key l ++ le_bytes 8 (l_value l) ++ [l_lock_byte l].

Definition leaf_of_bytes (bs : list byte) : Leaf :=
  mkLeaf (gaddr_of_val (le_int (slice 0 8 bs))) (bs !!! 8%nat) (le_int (slice 9 8 bs))
         (slice 17 8 bs) (le_int (slice 25 8 bs)) (bs !!! 33%nat).

Definition l_valid (l : Leaf) : bool := Z.testbit (l_valid_byte l) 7.
Definition l_w_lock (l : Leaf) : bool := Z.testbit (l_lock_byte l) 0.

Section leaf.
Context `{Checksum}.

(** [crc_processor] over [sizeof(Key) + simulatedValLen] bytes from [key]. *)
Definition leaf_crc (l : Leaf) : Z := crc64 (l_key l ++ le_bytes 8 (l_value l)).

Definition is_consistent (l : Leaf) : bool := leaf_crc l =? l_checksum l.

Definition set_consistent (l : Leaf) : Leaf :=
  mkLeaf (l_rev_ptr l) (l_valid_byte l) (leaf_crc l) (l_key l) (l_value l) (l_lock_byte l).

(** [Leaf(key, value, rev_ptr)] *)
Definition leaf_make (key : Key) (value : Z) (rev_ptr : GlobalAddress) : Leaf :=
  set_consistent (mkLeaf rev_ptr 128 0 key value 0).
End leaf.

Definition leaf_is_valid (l : Leaf) (p_ptr : GlobalAddress) (from_cache : bool) : bool :=
  l_valid l && (negb from_cache || gaddr_eqb p_ptr (l_rev_ptr l)).

Definition leaf_set_value (l : Leaf) (val : Z) : Leaf :=
  mkLeaf (l_rev_ptr l) (l_valid_byte l) (l_checksum l) (l_key l) val (l_lock_byte l).
Definition leaf_unlock (l : Leaf) : Leaf :=
  mkLeaf (l_rev_ptr l) (l_valid_byte l) (l_checksum l) (l_key l) (l_value l)
         (Z.clearbit (l_lock_byte l) 0).
Definition leaf_lock (l : Leaf) : Leaf :=
  mkLeaf (l_rev_ptr l) (l_valid_byte l) (l_checksum l) (l_key l) (l_value l)
         (Z.setbit (l_lock_byte l) 0).

(** ** Internal pages *)
Record InternalPage : Set := mkPage {
  pg_rev_ptr : GlobalAddress;
  pg_hdr : Header;
  pg_records : list InternalEntry
}.

#[export] Instance InternalPage_eq_dec : EqDecision InternalPage.
Proof. solve_decision. Defined.

Definition page_records_offset : Z := 8 + 8.

Definition page_bytes (p : InternalPage) : list byte :=
  le_bytes 8 (gaddr_val (pg_rev_ptr p)) ++ le_bytes 8 (header_val (pg_hdr p))
    ++ concat (le_bytes 8 ∘ entry_val <$> pg_records p).

(** The 8-byte words of a byte string. *)
Fixpoint words (n : nat) (bs : list byte) : list Z :=
  match n with
  | O => []
  | S n => le_int (take 8 bs) :: words n (drop 8 bs)
  end.

(** A page as the bytes that were read: it has as many records as they hold. *)
Definition page_of_bytes (bs : list byte) : InternalPage :=
  mkPage (gaddr_of_val (le_int (take 8 bs))) (header_of_val (le_int (take 8 (drop 8 bs))))
         (entry_of_val <$> words ((length bs - 16) / 8) (drop 16 bs)).

(** [InternalPage(k, partial_len, depth, node_type, rev_ptr)] *)
Definition page_make (old : list byte) (k : Key) (partial_len depth : Z) (node_type : NodeType)
    (rev_ptr : GlobalAddress) : res InternalPage :=
  hdr ← header_make old k partial_len depth node_type;
  Ok (mkPage rev_ptr hdr (replicate 256 entry_Null)).

Definition page_is_valid (p : InternalPage) (p_ptr : GlobalAddress) (depth : Z)
    (from_cache : bool) : bool :=
  negb (h_node_type (pg_hdr p) =? NODE_DELETED) && (h_depth (pg_hdr p) <=? depth)
    && (negb from_cache || gaddr_eqb p_ptr (pg_rev_ptr p)).

(** ** Range queries *)
Inductive State : Set := INSIDE | BORDER | OUTSIDE.

#[export] Instance State_eq_dec : EqDecision State.
Proof. solve_decision. Defined.

(** ** Lemmas: the encodings *)
Lemma uint_add_shift p w lo hi :
  0 <= p → 0 <= w → uint p lo → uint w hi → uint (p + w) (lo + hi * 2 ^ p).
Proof.
  unfold uint. intros Hp Hw Hlo Hhi. rewrite Z.pow_add_r by done.
  pose proof (Z.pow_pos_nonneg 2 p). pose proof (Z.pow_pos_nonneg 2 w). nia.
Qed.

Lemma le_int_6 bs :
  length bs = 6%nat → Forall is_byte bs → uint 48 (le_int bs).
Proof. intros Hl Hf. pose proof (le_int_range bs Hf) as H. by rewrite Hl in H. Qed.

Lemma header_val_range h : header_ok h → uint 64 (header_val h).
Proof.
  intros (Hd & Ht & Hp & Hl & Hf). unfold header_val.
  apply (uint_add_shift 8 56); [lia..|done|].
  apply (uint_add_shift 5 51); [lia..|done|].
  apply (uint_add_shift 3 48); [lia..|done|]. by apply le_int_6.
Qed.

Lemma header_of_val_val h : header_ok h → header_of_val (header_val h) = h.
Proof.
  destruct h as [d t p l]. intros (Hd & Ht & Hp & Hl & Hf). cbn in *.
  unfold header_of_val, header_val; cbn.
  pose proof (le_int_6 l Hl Hf) as Hr.
  change (8 - nodeTypeNumBit) with 3 in Hp. change nodeTypeNumBit with 5 in Ht.
  bf_simp. f_equal. change 6%nat with (Z.to_nat hPartialLenMax).
  rewrite <-Hl. by apply le_bytes_int.
Qed.

Lemma header_of_val_ok v : header_ok (header_of_val v).
Proof.
  unfold header_ok, header_of_val; cbn. split_and!; try (apply bf_range; lia).
  - apply length_le_bytes.
  - apply le_bytes_byte.
Qed.

Lemma header_val_inj h h' :
  header_ok h → header_ok h' → header_val h = header_val h' → h = h'.
Proof. intros H H' E. rewrite <-(header_of_val_val h), <-(header_of_val_val h') by done. by rewrite E. Qed.

Lemma header_val_of_val v : uint 64 v → header_val (header_of_val v) = v.
Proof.
  intros Hv. unfold header_val, header_of_val; cbn.
  rewrite le_int_bytes. change (Z.of_nat 6 * 8) with 48.
  rewrite (Z.mod_small (bf 16 48 v)) by (apply (bf_range 16 48 v); lia).
  rewrite (bf_top 16 48 64) by (done || lia).
  rewrite (bf_join 13 3 16), (bf_join 8 5 13), (bf_join 0 8 8) by lia.
  apply Z.div_1_r.
Qed.

Lemma entry_val_range e : entry_ok e → uint 64 (entry_val e).
Proof.
  destruct e as [p k [] [m o]]; intros (Hp & Hk & Hm & Ho); unfold entry_val; cbn in *.
  all: apply (uint_add_shift 8 56); [lia..|done|].
  all: apply (uint_add_shift 7 49); [lia..|done|].
  all: apply (uint_add_shift 1 48); [lia..|by vm_compute|].
  all: by apply (uint_add_shift 8 40); [lia..|done|].
Qed.

Lemma entry_of_val_val e : entry_ok e → entry_of_val (entry_val e) = e.
Proof.
  destruct e as [p k b [m o]]; intros (Hp & Hk & Hm & Ho); unfold entry_val, entry_of_val; cbn in *.
  assert (uint 8 p) by done.
  change kvLenBit with 7 in Hk. change mnIdBit with 8 in Hm. change offsetBit with 40 in Ho.
  assert (uint 1 (Z.b2z b)) as Hb by (by destruct b).
  bf_simp. by destruct b.
Qed.

Lemma entry_of_val_ok v : entry_ok (entry_of_val v).
Proof.
  unfold entry_ok, entry_of_val, packed_ok; cbn. split_and!;
    first [apply (bf_range 0 8 v); lia|apply bf_range; lia].
Qed.

Lemma entry_val_of_val v : uint 64 v → entry_val (entry_of_val v) = v.
Proof.
  intros Hv. unfold entry_val, entry_of_val; cbn.
  rewrite (bf_top 24 40 64) by (done || lia).
  assert (Z.b2z (bf 15 1 v =? 1) = bf 15 1 v) as ->.
  { pose proof (bf_range 15 1 v ltac:(lia)) as Hr. unfold uint in Hr.
    destruct (Z.eqb_spec (bf 15 1 v) 1) as [->|]; cbn; lia. }
  rewrite (bf_join 16 8 24), (bf_join 15 1 16), (bf_join 8 7 15), (bf_join 0 8 8) by lia.
  apply Z.div_1_r.
Qed.

Lemma entry_eqb_spec e f : entry_ok e → entry_ok f → reflect (e = f) (entry_eqb e f).
Proof.
  intros He Hf. unfold entry_eqb. destruct (Z.eqb_spec (entry_val e) (entry_val f)) as [E|E];
    constructor; [|congruence].
  rewrite <-(entry_of_val_val e), <-(entry_of_val_val f) by done. by rewrite E.
Qed.

Lemma entry_Null_ok : entry_ok entry_Null.
Proof. apply entry_of_val_ok. Qed.

Lemma entry_Null_val e : entry_ok e → (e = entry_Null ↔ entry_eqb e entry_Null = true).
Proof.
  intros He. destruct (entry_eqb_spec e entry_Null He entry_Null_ok); split; done.
Qed.

#[export] Hint Resolve header_of_val_val entry_of_val_val header_of_val_ok entry_of_val_ok
  entry_Null_ok header_val_range entry_val_range : smart.

(** *** Bytes *)
Lemma length_leaf_bytes l : key_ok (l_key l) → length (leaf_bytes l) = Z.to_nat sizeof_Leaf.
Proof.
  intros [Hk _]. unfold leaf_bytes. rewrite !length_app, !length_le_bytes, Hk. done.
Qed.

Lemma leaf_bytes_byte l : leaf_ok l → Forall is_byte (leaf_bytes l).
Proof.
  intros (Hr & Hv & Hc & [Hkl Hk] & Hval & Hlk). unfold leaf_bytes.
  rewrite !Forall_app, !Forall_singleton. split_and!; auto using le_bytes_byte.
Qed.

Lemma slice_app_ge {A} (l r : list A) n m :
  (length l <= n)%nat → slice n m (l ++ r) = slice (n - length l) m r.
Proof. intros. unfold slice. by rewrite drop_app_ge by done. Qed.

Lemma slice_app_eq {A} (l r : list A) m : length l = m → slice 0 m (l ++ r) = l.
Proof. intros <-. unfold slice. rewrite drop_0. by rewrite take_app_length. Qed.

Lemma le_int_le_bytes_8 v : uint 64 v → le_int (le_bytes 8 v) = v.
Proof. intros. rewrite le_int_bytes. by apply Z.mod_small. Qed.

#[export] Hint Resolve le_int_le_bytes_8 : smart.

Lemma leaf_of_bytes_bytes l : leaf_ok l → leaf_of_bytes (leaf_bytes l) = l.
Proof.
  destruct l as [r v c k x b]. intros (Hr & Hv & Hc & [Hkl Hk] & Hval & Hlk). cbn in *.
  change klen with 8%nat in Hkl.
  unfold leaf_of_bytes, leaf_bytes; cbn [l_rev_ptr l_valid_byte l_checksum l_key l_value l_lock_byte].
  f_equal.
  - rewrite slice_app_eq by apply length_le_bytes.
    rewrite le_int_le_bytes_8 by auto with smart. by apply gaddr_of_val_val.
  - do 2 (rewrite slice_app_ge by (rewrite ?length_le_bytes; cbn; lia);
          rewrite ?length_le_bytes; cbn [length Nat.sub]).
    rewrite slice_app_eq by apply length_le_bytes. by apply le_int_le_bytes_8.
  - do 3 (rewrite slice_app_ge by (rewrite ?length_le_bytes; cbn; lia);
          rewrite ?length_le_bytes; cbn [length Nat.sub]).
    by apply slice_app_eq.
  - do 3 (rewrite slice_app_ge by (rewrite ?length_le_bytes; cbn; lia);
          rewrite ?length_le_bytes; cbn [length Nat.sub]).
    rewrite slice_app_ge by lia. rewrite Hkl. cbn [Nat.sub].
    rewrite slice_app_eq by apply length_le_bytes. by apply le_int_le_bytes_8.
  - do 5 (rewrite lookup_total_app_r by (rewrite ?length_le_bytes; cbn; lia);
          rewrite ?length_le_bytes, ?Hkl; cbn [length Nat.sub]). done.
Qed.

Lemma words_concat (l : list Z) (r : list byte) :
  Forall (uint 64) l → words (length l) (concat (le_bytes 8 <$> l) ++ r) = l.
Proof.
  induction 1 as [|x l Hx Hl IH]; [done|]. cbn [length words fmap list_fmap concat].
  rewrite <-app_assoc, take_app_length', drop_app_length' by (by rewrite length_le_bytes).
  by rewrite IH, le_int_le_bytes_8.
Qed.

Lemma length_words8 (l : list Z) : length (concat (le_bytes 8 <$> l)) = (8 * length l)%nat.
Proof.
  induction l as [|x l IH]; [done|]. cbn [fmap list_fmap concat length].
  rewrite length_app, length_le_bytes, IH. lia.
Qed.

Definition page_ok (p : InternalPage) : Prop :=
  gaddr_ok (pg_rev_ptr p) ∧ header_ok (pg_hdr p) ∧ Forall entry_ok (pg_records p).

Lemma page_bytes_eq p :
  page_bytes p = le_bytes 8 (gaddr_val (pg_rev_ptr p)) ++ le_bytes 8 (header_val (pg_hdr p))
    ++ concat (le_bytes 8 <$> (entry_val <$> pg_records p)).
Proof. unfold page_bytes. by rewrite list_fmap_compose. Qed.

Lemma length_page_bytes p : length (page_bytes p) = (16 + 8 * length (pg_records p))%nat.
Proof.
  rewrite page_bytes_eq, !length_app, !length_le_bytes, length_words8, length_fmap. lia.
Qed.

Lemma entries_of_vals l :
  Forall entry_ok l → entry_of_val <$> (entry_val <$> l) = l.
Proof.
  induction 1 as [|e l He Hl IH]; [done|]. rewrite !fmap_cons, IH.
  by rewrite entry_of_val_val.
Qed.

Lemma page_of_bytes_bytes p : page_ok p → page_of_bytes (page_bytes p) = p.
Proof.
  destruct p as [r h es]. intros (Hr & Hh & He). unfold page_of_bytes.
  rewrite length_page_bytes, page_bytes_eq. cbn [pg_rev_ptr pg_hdr pg_records] in *.
  rewrite take_app_length' by (by rewrite length_le_bytes).
  rewrite drop_app_length' by (by rewrite length_le_bytes).
  rewrite take_app_length' by (by rewrite length_le_bytes).
  change 16%nat with (8 + 8)%nat at 3. rewrite <-drop_drop.
  rewrite drop_app_length' by (by rewrite length_le_bytes).
  rewrite drop_app_length' by (by rewrite length_le_bytes).
  replace ((16 + 8 * length es - 16) / 8)%nat with (length (entry_val <$> es)).
  2:{ rewrite length_fmap. replace (16 + 8 * length es - 16)%nat with (length es * 8)%nat by lia.
      by rewrite Nat.div_mul. }
  rewrite <-(app_nil_r (concat _)), words_concat.
  2:{ apply Forall_fmap. eapply Forall_impl; [exact He|]. intros e. cbn. apply entry_val_range. }
  rewrite entries_of_vals by done.
  rewrite !le_int_le_bytes_8 by auto with smart.
  by rewrite gaddr_of_val_val, header_of_val_val.
Qed.

(** ** Lemmas: node types *)
Lemma find_node_type_spec n i num :
  0 <= i → num < Z.shiftl 1 (i + Z.of_nat n) →
  0 < Z.of_nat n →
  ∃ t, find_node_type n i num = Ok t ∧ i <= t < i + Z.of_nat n ∧ num < Z.shiftl 1 (t + 1) ∧
       ∀ j, i <= j < t → Z.shiftl 1 (j + 1) <= num.
Proof.
  revert i. induction n as [|n IH]; intros i Hi Hn Hpos; [lia|]. cbn [find_node_type].
  destruct (Z.ltb_spec num (Z.shiftl 1 (i + 1))) as [Hlt|Hge].
  - exists i. split_and!; [done|lia|lia|done|lia].
  - assert (0 < Z.of_nat n) as Hn0.
    { destruct n; [|lia]. change (Z.of_nat 1) with 1 in Hn. lia. }
    destruct (IH (i + 1)) as (t & E & Ht & Hlt & Hle); [lia| |done|].
    { replace (i + 1 + Z.of_nat n) with (i + Z.of_nat (S n)) by lia. done. }
    exists t. split_and!; [done|lia|lia|done|]. intros j Hj.
    destruct (decide (j = i)) as [->|]; [done|apply Hle; lia].
Qed.

(** ** Lemmas: headers *)
Lemma fill_partial_spec k depth n i old :
  key_ok k → 1 <= depth → 0 <= i → depth + i + Z.of_nat n <= keyLen + 1 →
  (Z.to_nat i + n <= length old)%nat →
  ∃ p, fill_partial k depth n i old = Ok p ∧ length p = length old ∧
    (Forall is_byte old → Forall is_byte p) ∧
    (∀ j : nat, (Z.to_nat i <= j < Z.to_nat i + n)%nat → p !! j = k !! (Z.to_nat (depth - 1) + j)%nat) ∧
    (∀ j : nat, (j < Z.to_nat i)%nat ∨ (Z.to_nat i + n <= j)%nat → p !! j = old !! j).
Proof.
  intros Hk Hd. revert i old. induction n as [|n IH]; intros i old Hi Hle Hlen.
  { exists old. split_and!; [done..|lia|done]. }
  cbn [fill_partial].
  destruct (get_partial_total k (depth + i)) as (x & E & Hx); [done|lia|].
  rewrite E. cbn [mbind res_bind]. apply get_partial_at in E; [|lia].
  destruct (IH (i + 1) (<[Z.to_nat i:=x]> old)) as (p & Ep & Hlp & Hb & Hin & Hout).
  { lia. } { lia. } { rewrite length_insert. lia. }
  rewrite length_insert in Hlp. exists p. split_and!; [done|done| | |].
  - intros Hf. apply Hb. by apply Forall_insert.
  - intros j Hj. destruct (decide (j = Z.to_nat i)) as [->|].
    + rewrite Hout by lia. rewrite list_lookup_insert_eq by lia.
      rewrite <-E. f_equal. lia.
    + rewrite Hin by lia. done.
  - intros j Hj. rewrite Hout by lia. rewrite list_lookup_insert_ne by lia. done.
Qed.

Lemma match_loop_spec h k n i :
  key_ok k → 1 <= h_depth h → 0 <= i → h_depth h + i + Z.of_nat n <= keyLen + 1 →
  (Z.to_nat i + n <= length (h_partial h))%nat →
  ∃ b, match_loop h k n i = Ok b ∧
    (b = true ↔ ∀ j : nat, (Z.to_nat i <= j < Z.to_nat i + n)%nat →
                  h_partial h !! j = k !! (Z.to_nat (h_depth h - 1) + j)%nat).
Proof.
  intros Hk Hd. revert i. induction n as [|n IH]; intros i Hi Hle Hlen.
  { exists true. split; [done|]. split; [lia|done]. }
  cbn [match_loop].
  destruct (get_partial_total k (h_depth h + i)) as (x & E & Hx); [done|lia|].
  destruct (lookup_lt_is_Some_2 (h_partial h) (Z.to_nat i)) as [q Hq]; [lia|].
  assert (idx_ (h_partial h) i = Ok q) as Eq by (by apply idx_Ok).
  rewrite E, Eq. cbn [mbind res_bind]. apply get_partial_at in E; [|lia].
  replace (Z.to_nat (h_depth h + i - 1)) with (Z.to_nat (h_depth h - 1) + Z.to_nat i)%nat in E by lia.
  destruct (Z.eqb_spec x q) as [->|Hne]; cbn [negb].
  - destruct (IH (i + 1)) as (b & Eb & Hb); [lia..|]. exists b. split; [done|].
    rewrite Hb. split; intros H j Hj; [|apply H; lia].
    destruct (decide (j = Z.to_nat i)) as [->|]; [congruence|apply H; lia].
  - exists false. split; [done|]. split; [done|]. intros H.
    specialize (H (Z.to_nat i) ltac:(lia)). congruence.
Qed.

(** [k] carries the first [n] compressed bytes of [h] at its depth. *)
Definition carries (h : Header) (k : Key) (n : Z) : Prop :=
  ∀ j : nat, (j < Z.to_nat n)%nat → h_partial h !! j = k !! (Z.to_nat (h_depth h - 1) + j)%nat.

Lemma is_match_spec h k :
  header_ok h → key_ok k → 1 <= h_depth h → h_partial_len h <= hPartialLenMax →
  h_depth h + h_partial_len h <= keyLen + 1 →
  ∃ b, is_match h k = Ok b ∧ (b = true ↔ carries h k (h_partial_len h)).
Proof.
  intros (_ & _ & Hp & Hl & _) Hk Hd Hmax Hle. unfold uint in Hp.
  destruct (match_loop_spec h k (Z.to_nat (h_partial_len h)) 0) as (b & E & Hb);
    [done|done|lia|lia|rewrite Hl; lia|].
  exists b. split; [exact E|]. rewrite Hb. unfold carries. split; intros H j Hj; apply H; lia.
Qed.

Lemma split_header_fields h i :
  header_ok h → 0 <= i < h_partial_len h → h_partial_len h <= hPartialLenMax →
  h_depth h + h_partial_len h <= keyLen + 1 →
  ∃ h', split_header h i = Ok h' ∧ header_ok h' ∧ h_node_type h' = 0 ∧
    h_depth h' = h_depth h + i + 1 ∧ h_partial_len h' = h_partial_len h - i - 1 ∧
    (∀ j : nat, (j < Z.to_nat (h_partial_len h'))%nat →
       h_partial h' !! j = h_partial h !! (Z.to_nat (i + 1) + j)%nat).
Proof.
  intros (Hd & Ht & Hp & Hl & Hf) Hi Hmax Hle. unfold split_header.
  rewrite !(proj2 (Z.leb_le _ _)) by lia. cbn [andb defined mbind res_bind].
  eexists. split; [reflexivity|]. cbn [h_depth h_node_type h_partial_len h_partial].
  unfold uint, hPartialLenMax, keyLen in *. change (8 - nodeTypeNumBit) with 3 in Hp.
  change (Z.to_nat 6) with 6%nat in *.
  rewrite !wrap_small by (unfold uint; lia).
  set (moved := slice (Z.to_nat (i + 1)) (Z.to_nat (h_partial_len h - (i + 1))) (h_partial h)).
  assert (length moved = Z.to_nat (h_partial_len h - (i + 1))) as Hm.
  { unfold moved, slice. rewrite length_take, length_drop. lia. }
  split_and!; [|done|done|done|].
  - unfold header_ok, uint. cbn [h_depth h_node_type h_partial_len h_partial].
    change (8 - nodeTypeNumBit) with 3. split; [lia|]. split; [done|]. split; [lia|]. split.
    + rewrite length_app, length_drop. unfold zero_partial. rewrite length_replicate.
      unfold hPartialLenMax. lia.
    + apply Forall_app. split; [by apply Forall_take, Forall_drop|].
      apply Forall_drop. by apply Forall_replicate.
  - intros j Hj. rewrite lookup_app_l by lia. unfold moved, slice.
    rewrite lookup_take_lt, lookup_drop by lia. done.
Qed.

(** The address of an entry. *)
Lemma e_addr_pack p k b a :
  gaddr_ok a → e_addr (Ent p k b (pack_gaddr a)) = GA (wrap 8 (nodeID a)) (ROUND_DOWN (offset a) ALLOC_ALLIGN_BIT).
Proof.
  destruct a as [n o]. intros [Hn Ho]. cbn in Hn, Ho. unfold e_addr, pack_gaddr, mk_gaddr; cbn. f_equal.
  - apply (wrap_small 16). unfold wrap, mnIdBit, uint.
    pose proof (Z.mod_pos_bound n (2 ^ 8)). lia.
  - rewrite ROUND_DOWN_spec, Z.shiftr_div_pow2, Z.shiftl_mul_pow2 by done.
    unfold uint, ALLOC_ALLIGN_BIT, offsetBit in *. change (48 - ALLOC_ALLIGN_BIT) with 40.
    rewrite (wrap_small 40) by (unfold uint; split;
      [apply Z.div_pos|apply Z.div_lt_upper_bound]; lia).
    pose proof (Z.div_mod o (2 ^ 8)). pose proof (Z.mod_pos_bound o (2 ^ 8)).
    rewrite wrap_small by (unfold uint; lia). lia.
Qed.

(** An aligned address of one of the first 256 nodes is kept. *)
Lemma e_addr_aligned p k b a :
  gaddr_ok a → (2 ^ ALLOC_ALLIGN_BIT | offset a) → nodeID a < 256 → e_addr (Ent p k b (pack_gaddr a)) = a.
Proof.
  intros Ha Hd Hlt. rewrite e_addr_pack by done. destruct a as [n o], Ha as [Hn Ho]. cbn in *. unfold uint in Hn, Ho.
  f_equal; [apply wrap_small; unfold uint; lia|]. rewrite ROUND_DOWN_spec by done. apply Z.mod_divide in Hd; [|done].
  unfold ALLOC_ALLIGN_BIT in *. lia.
Qed.

(** The fields of a header that is made for a key. *)
Lemma header_make_fields old k partial_len depth t :
  key_ok k → Forall is_byte old → length old = 6%nat →
  0 <= partial_len <= hPartialLenMax → 1 <= depth → depth + partial_len <= keyLen + 1 →
  ∃ h, header_make old k partial_len depth t = Ok h ∧ header_ok h ∧
    h_depth h = depth ∧ h_node_type h = wrap 5 t ∧ h_partial_len h = partial_len ∧
    ∀ j : nat, (j < Z.to_nat partial_len)%nat → h_partial h !! j = k !! (Z.to_nat (depth - 1) + j)%nat.
Proof.
  intros Hk Hob Hol Hp Hd Hle. unfold hPartialLenMax, keyLen in *.
  destruct (fill_partial_spec k depth (Z.to_nat partial_len) 0 old)
    as (p & E & Hlp & Hb & Hin & _); [done|done|lia|unfold keyLen; lia|lia|].
  unfold header_make. rewrite !(proj2 (Z.leb_le _ _)) by clia.
  cbn [andb check mbind res_bind]. rewrite E. cbn [mbind res_bind].
  rewrite !wrap_small with (w := 8) by (unfold uint; lia).
  rewrite !wrap_small with (w := 3) by (unfold uint; lia).
  exists (Hdr depth (wrap 5 t) partial_len p). split; [done|]. split.
  { unfold header_ok; cbn [h_depth h_node_type h_partial_len h_partial].
    split; [unfold uint; lia|]. split; [by apply wrap_range|].
    split; [change (8 - nodeTypeNumBit) with 3; unfold uint; lia|].
    split; [unfold hPartialLenMax; lia|auto]. }
  do 3 (split; [done|]). intros j Hj. apply Hin. lia.
Qed.

(** The masked stores to a header. *)
Lemma node_type_mask_bit i : 0 <= i → Z.testbit node_type_mask i = (8 <=? i) && (i <? 13).
Proof. intros Hi. by apply (testbit_mask 5 8). Qed.

Lemma header_put_type old new :
  header_of_val (masked_put old new node_type_mask) =
  Hdr (h_depth (header_of_val old)) (h_node_type (header_of_val new))
      (h_partial_len (header_of_val old)) (h_partial (header_of_val old)).
Proof.
  unfold header_of_val; cbn [h_depth h_node_type h_partial_len h_partial].
  f_equal; [| | |f_equal]; (apply bf_masked_put_in || apply bf_masked_put_out); try lia;
    intros i Hi; rewrite node_type_mask_bit by lia; zb.
Qed.

Lemma header_put_split old new mask :
  (∀ i, 0 <= i < 64 → Z.testbit mask i = negb (Z.testbit node_type_mask i)) →
  header_of_val (masked_put old new mask) =
  Hdr (h_depth (header_of_val new)) (h_node_type (header_of_val old))
      (h_partial_len (header_of_val new)) (h_partial (header_of_val new)).
Proof.
  intros Hm. unfold header_of_val; cbn [h_depth h_node_type h_partial_len h_partial].
  f_equal; [| | |f_equal]; (apply bf_masked_put_in || apply bf_masked_put_out); try lia;
    intros i Hi; rewrite Hm, node_type_mask_bit by lia; zb.
Qed.

(** ** Properties *)

(** C27. The layouts are faithful: a header, an internal entry, a leaf and a page
    are recovered from the words and bytes that encode them, and every 64-bit
    word is the encoding of the header and of the entry read from it, so that
    comparing words (as the CAS operations do) compares records. *)
Theorem layout_roundtrip :
  (∀ h, header_ok h → header_of_val (header_val h) = h) ∧
  (∀ e, entry_ok e → entry_of_val (entry_val e) = e) ∧
  (∀ v, uint 64 v → header_val (header_of_val v) = v ∧ entry_val (entry_of_val v) = v) ∧
  (∀ l, leaf_ok l → leaf_of_bytes (leaf_bytes l) = l ∧
                    Z.of_nat (length (leaf_bytes l)) = sizeof_Leaf) ∧
  (∀ p, page_ok p → page_of_bytes (page_bytes p) = p) ∧
  (∀ e f, entry_ok e → entry_ok f → (entry_eqb e f = true ↔ e = f)).
Proof.
  split_and!; auto using header_of_val_val, entry_of_val_val, page_of_bytes_bytes.
  - intros v Hv. split; [by apply header_val_of_val|by apply entry_val_of_val].
  - intros l Hl. split; [by apply leaf_of_bytes_bytes|].
    rewrite length_leaf_bytes; [done|apply Hl].
  - intros e f He Hf. destruct (entry_eqb_spec e f He Hf); split; done.
Qed.

(** What an entry says about the address it was built from: [addr()] gives
    back the node id modulo 256 and the offset rounded down to the allocation
    alignment, hence the address itself when it is an aligned address of one of
    the first 256 memory nodes; the constructors that change the partial key or
    the node type of an entry keep the address and the leaf bit. *)
Theorem entry_addr_spec partial t kv a e :
  gaddr_ok a →
  e_addr (entry_leaf partial kv a) = GA (wrap 8 (nodeID a)) (ROUND_DOWN (offset a) ALLOC_ALLIGN_BIT) ∧
  e_addr (entry_node partial t a) = GA (wrap 8 (nodeID a)) (ROUND_DOWN (offset a) ALLOC_ALLIGN_BIT) ∧
  ((256 | offset a) → nodeID a < 256 →
     e_addr (entry_leaf partial kv a) = a ∧ e_addr (entry_node partial t a) = a) ∧
  (uint 5 t → e_node_type (entry_node partial t a) = t ∧ e_node_type (entry_retype t e) = t) ∧
  e_addr (entry_retype t e) = e_addr e ∧ e_addr (entry_repartial partial e) = e_addr e ∧
  e_is_leaf (entry_retype t e) = e_is_leaf e ∧ e_is_leaf (entry_repartial partial e) = e_is_leaf e.
Proof.
  intros Ha.
  assert (∀ t, uint 5 t → bf 2 5 (kv_of_type t) = t) as Et.
  { intros u Hu. unfold kv_of_type. rewrite wrap_small by done.
    change (kvLenBit - nodeTypeNumBit) with 2.
    pose proof (bf_next 2 5 0 u) as B. rewrite Z.add_0_l in B.
    rewrite B by (done || lia). by apply bf_all. }
  split_and!; try done.
  - by apply e_addr_pack.
  - by apply e_addr_pack.
  - intros Hd Hlt. split; by apply e_addr_aligned.
  - intros Hu. split; by apply Et.
Qed.

Example entry_addr_spec_witness :
  gaddr_ok (GA 0 16780544) ∧
  e_addr (entry_node 7 NODE_4 (GA 0 16780544)) = GA 0 16780544.
Proof.
  assert (gaddr_ok (GA 0 16780544)) as H by (by vm_compute).
  split; [exact H|].
  destruct (entry_addr_spec 7 NODE_4 0 (GA 0 16780544) entry_Null H) as (_ & E & _).
  rewrite E. by vm_compute.
Defined.

(** Compressed headers: the header a node is created with matches exactly
    the keys that share the [partial_len] partial keys from [depth] with the key
    it was made from, whatever the bytes its memory held before. *)
Theorem header_make_match old k partial_len depth t k' :
  key_ok k → key_ok k' → Forall is_byte old → length old = 6%nat →
  0 <= partial_len <= hPartialLenMax → 1 <= depth → depth + partial_len <= keyLen + 1 →
  ∃ h b, header_make old k partial_len depth t = Ok h ∧ header_ok h ∧
    h_depth h = depth ∧ h_partial_len h = partial_len ∧
    is_match h k' = Ok b ∧
    (b = true ↔ ∀ d, depth <= d < depth + partial_len → get_partial k' d = get_partial k d).
Proof.
  intros Hk Hk' Hob Hol Hp Hd Hle.
  destruct (header_make_fields old k partial_len depth t) as (h & E & Hok & Hhd & _ & Hhp & Hin); [done..|].
  unfold hPartialLenMax, keyLen in *.
  destruct (is_match_spec h k') as (b & Eb & Hb'); [done|done|unfold hPartialLenMax, keyLen; lia..|].
  exists h, b. repeat (split; [done|]). rewrite Hb'. unfold carries. rewrite Hhd, Hhp.
  split.
  - intros H d Hd'. specialize (H (Z.to_nat (d - depth)) ltac:(lia)).
    rewrite Hin in H by lia. unfold get_partial.
    destruct (Z.eqb_spec d 0); [lia|]. unfold at_.
    rewrite (proj2 (Z.leb_le 0 (d - 1))) by lia.
    replace (Z.to_nat (d - 1)) with (Z.to_nat (depth - 1) + Z.to_nat (d - depth))%nat by lia.
    by rewrite H.
  - intros H j Hj. rewrite Hin by lia.
    specialize (H (depth + Z.of_nat j) ltac:(lia)).
    destruct (get_partial_total k' (depth + Z.of_nat j)) as (x & Ex & _); [done|unfold keyLen; lia|].
    rewrite Ex in H. symmetry in H. apply get_partial_at in Ex, H; [|lia..].
    replace (Z.to_nat (depth + Z.of_nat j - 1)) with (Z.to_nat (depth - 1) + j)%nat in * by lia.
    congruence.
Qed.

Example header_make_match_witness :
  ∃ h, header_make (replicate 6 77) [1; 2; 3; 4; 5; 6; 7; 8] 2 2 NODE_4 = Ok h ∧
       is_match h [9; 2; 3; 0; 0; 0; 0; 0] = Ok true.
Proof.
  destruct (header_make_match (replicate 6 77) [1; 2; 3; 4; 5; 6; 7; 8] 2 2 NODE_4
    [9; 2; 3; 0; 0; 0; 0; 0]) as (h & b & E & _ & _ & _ & Em & _);
    [by vm_compute; repeat constructor..|].
  exists h. split; [exact E|]. vm_compute in E. injection E as <-.
  rewrite Em. vm_compute in Em. congruence.
Defined.

(** Splitting a header at the partial key [i] where a key diverges loses no
    information: a key matches the old header exactly when it carries the [i]
    partial keys before the split point, the partial key at the split point, and
    matches the new header, which starts one byte further down. *)
Theorem split_header_spec h i k :
  header_ok h → key_ok k → 1 <= h_depth h → h_partial_len h <= hPartialLenMax →
  h_depth h + h_partial_len h <= keyLen + 1 → 0 <= i < h_partial_len h →
  ∃ h' b b', split_header h i = Ok h' ∧ header_ok h' ∧
    h_depth h' + h_partial_len h' = h_depth h + h_partial_len h ∧
    is_match h k = Ok b ∧ is_match h' k = Ok b' ∧
    (b = true ↔ carries h k i ∧ at_ (h_partial h) i = get_partial k (h_depth h + i) ∧ b' = true).
Proof.
  intros Hh Hk Hd Hmax Hle Hi.
  destruct (split_header_fields h i) as (h' & E & Hok & _ & Hd' & Hp' & Hl'); [done..|].
  destruct (is_match_spec h k) as (b & Eb & Hb); [done..|].
  destruct (is_match_spec h' k) as (b' & Eb' & Hb'); [done|done|lia..|].
  exists h', b, b'. repeat (split; [done || lia|]). rewrite Hb, Hb'.
  destruct Hh as (_ & _ & _ & Hl & _).
  destruct (lookup_lt_is_Some_2 (h_partial h) (Z.to_nat i)) as [q Hq].
  { rewrite Hl. unfold hPartialLenMax in *. lia. }
  destruct (get_partial_total k (h_depth h + i)) as (x & Ex & _); [done|lia|].
  rewrite (at_lookup _ _ q), Ex by (lia || done). apply get_partial_at in Ex; [|lia].
  replace (Z.to_nat (h_depth h + i - 1)) with (Z.to_nat (h_depth h - 1) + Z.to_nat i)%nat in Ex by lia.
  unfold carries. split.
  - intros H. split_and!.
    + intros j Hj. apply H. lia.
    + rewrite H, Ex in Hq by lia. congruence.
    + intros j Hj. rewrite Hl', H by lia. f_equal. lia.
  - intros (H1 & H2 & H3) j Hj. injection H2 as ->.
    destruct (decide (j < Z.to_nat i)%nat); [by apply H1|].
    destruct (decide (j = Z.to_nat i)) as [->|]; [congruence|].
    specialize (H3 (j - Z.to_nat (i + 1))%nat ltac:(lia)). rewrite Hl' in H3 by lia.
    replace (Z.to_nat (i + 1) + (j - Z.to_nat (i + 1)))%nat with j in H3 by lia.
    rewrite H3. f_equal. lia.
Qed.

Example split_header_spec_witness :
  ∃ h', split_header (Hdr 2 3 3 [5; 6; 7; 0; 0; 0]) 1 = Ok h' ∧
        h' = Hdr 4 0 1 [7; 0; 0; 0; 0; 0].
Proof.
  destruct (split_header_spec (Hdr 2 3 3 [5; 6; 7; 0; 0; 0]) 1 [1; 5; 6; 7; 0; 0; 0; 0])
    as (h' & b & b' & E & _); [by vm_compute; repeat constructor..|].
  exists h'. split; [exact E|]. vm_compute in E. congruence.
Defined.

(** Node types and capacities. [num_to_node_type n] is the least type whose
    capacity exceeds [n], so a node switched to the type of the slot [n] that was
    just filled covers that slot; it fails only when there is no such type; and
    a type read back from the enumeration has the capacity of its name. *)
Theorem node_type_capacity num :
  0 <= num →
  (num = 0 → num_to_node_type num = Ok NODE_DELETED) ∧
  (0 < num < 256 → ∃ t, num_to_node_type num = Ok t ∧ NODE_4 <= t <= NODE_256 ∧
     num < node_type_to_num t <= 256 ∧
     ∀ t', NODE_4 <= t' → num < node_type_to_num t' → t <= t') ∧
  (256 <= num → num_to_node_type num = Fail EAssert).
Proof.
  intros H0. unfold num_to_node_type. split_and!.
  - by intros ->.
  - intros Hn. destruct (Z.eqb_spec num 0); [lia|].
    destruct (find_node_type_spec (Z.to_nat (MAX_NODE_TYPE_NUM - 1)) 1 num)
      as (t & E & Ht & Hlt & Hle); [lia| |done|].
    { change (num < 256). lia. }
    change (1 <= t < 8) in Ht. unfold NODE_4, NODE_256, node_type_to_num, NODE_DELETED.
    exists t. split; [done|]. split; [lia|]. destruct (Z.eqb_spec t 0); [lia|]. split.
    + split; [done|]. rewrite Z.shiftl_1_l. change 256 with (2 ^ 8).
      apply Z.pow_le_mono_r; lia.
    + intros t' Ht'. destruct (Z.eqb_spec t' 0); [lia|]. intros Hlt'.
      destruct (decide (t <= t')) as [|Hgt]; [done|].
      specialize (Hle t'). lia.
  - intros Hge. destruct (Z.eqb_spec num 0); [lia|].
    change (Z.to_nat (MAX_NODE_TYPE_NUM - 1)) with 7%nat. cbn [find_node_type].
    assert (∀ c, c <= 256 → (num <? c) = false) as Hc by (intros; apply Z.ltb_ge; lia).
    by rewrite !Hc by (by vm_compute).
Qed.

Example node_type_capacity_witness :
  0 <= 16 ∧ num_to_node_type 16 = Ok 4 ∧ node_type_to_num 4 = 32.
Proof.
  split; [lia|].
  destruct (node_type_capacity 16 ltac:(lia)) as (_ & H & _).
  destruct (H ltac:(lia)) as (t & E & _).
  split; [|by vm_compute]. rewrite E. vm_compute in E. congruence.
Defined.

(** The masked CASes on a node header do not interfere: the one that switches
    the node type ([node_type_mask]) changes the node type and nothing else, and
    the one that stores a split header ([~node_type_mask]) changes everything but
    the node type, so their effects commute. *)
Theorem header_masked_cas old new1 new2 :
  let typed := masked_put old new1 node_type_mask in
  let split := masked_put old new2 (Z.lnot node_type_mask) in
  header_of_val typed =
    Hdr (h_depth (header_of_val old)) (h_node_type (header_of_val new1))
        (h_partial_len (header_of_val old)) (h_partial (header_of_val old)) ∧
  header_of_val split =
    Hdr (h_depth (header_of_val new2)) (h_node_type (header_of_val old))
        (h_partial_len (header_of_val new2)) (h_partial (header_of_val new2)) ∧
  masked_put typed new2 (Z.lnot node_type_mask) = masked_put split new1 node_type_mask.
Proof.
  cbn zeta. split_and!.
  - apply header_put_type.
  - apply header_put_split. intros i Hi. apply Z.lnot_spec. lia.
  - apply Z.bits_inj'. intros i Hi. rewrite !masked_put_testbit, Z.lnot_spec, node_type_mask_bit by done.
    by destruct ((8 <=? i) && (i <? 13)).
Qed.
