(* ===== verification/Bitmap.v ===== *)
(** * Bit maps (include/Bitmap.h)

    A bit map of [n] bits in 64-bit words, with the first-zero search. *)

From Stdlib Require Import ZArith Lia Bool.
From stdpp Require Import base tactics decidable option numbers list list_numbers.
From S2P Require Import Prelude.
From S2P Require Import Common.

Record BitMap : Set := BM { bm_n : Z; bits : list Z }.

(** [BitMap(int n)]: the assertion, then [n / 64] cleared words. *)
Definition bitmap_new (n : Z) : res BitMap :=
  check (n `rem` 64 =? 0) ;; Ok (BM n (replicate (Z.to_nat (n ÷ 64)) 0)).

Definition bitmap_get (bm : BitMap) (pos : Z) : res bool :=
  v ← idx_ (bits bm) (pos ÷ 64);
  Ok (Z.testbit v (pos `rem` 64)).

Definition bitmap_set (bm : BitMap) (pos : Z) : res BitMap :=
  v ← idx_ (bits bm) (pos ÷ 64);
  Ok (BM (bm_n bm) (<[Z.to_nat (pos ÷ 64) := Z.lor v (Z.shiftl 1 (pos `rem` 64))]> (bits bm))).

Definition bitmap_clear (bm : BitMap) (pos : Z) : res BitMap :=
  v ← idx_ (bits bm) (pos ÷ 64);
  Ok (BM (bm_n bm)
         (<[Z.to_nat (pos ÷ 64) := Z.land v (Z.lnot (Z.shiftl 1 (pos `rem` 64)))]> (bits bm))).

(** [__builtin_ctzll(b)], for [b] not zero: the least set bit. *)
Fixpoint ctz_from (n : nat) (i b : Z) : Z :=
  match n with
  | O => i
  | S n => if Z.testbit b i then i else ctz_from n (i + 1) b
  end.
Definition ctzll (b : Z) : Z := ctz_from 64 0 b.

(** The loop of [setZeroPos], over the words from [i] on. *)
Fixpoint set_zero_loop (bs : list Z) (i : Z) : res (Z * list Z) :=
  match bs with
  | [] => Fail EAssert
  | v :: bs' =>
    let b := wrap 64 (Z.lnot v) in
    if negb (b =? 0) then
      let pos := ctzll b in
      Ok (i * 64 + pos, Z.lor v (Z.shiftl 1 pos) :: bs')
    else
      '(p, bs'') ← set_zero_loop bs' (i + 1);
      Ok (p, v :: bs'')
  end.

Definition bitmap_setZeroPos (bm : BitMap) : res (Z * BitMap) :=
  '(p, bs) ← set_zero_loop (bits bm) 0;
  Ok (p, BM (bm_n bm) bs).

(** ** Lemmas *)

Definition bitmap_ok (bm : BitMap) : Prop :=
  0 <= bm_n bm ∧ bm_n bm `mod` 64 = 0 ∧
  Z.of_nat (length (bits bm)) = bm_n bm / 64 ∧ Forall (uint 64) (bits bm).

#[export] Instance bitmap_ok_dec bm : Decision (bitmap_ok bm).
Proof. unfold bitmap_ok. apply _. Defined.

(** Bit [pos] of the whole map. *)
Definition bit (bs : list Z) (pos : Z) : bool :=
  Z.testbit (bs !!! Z.to_nat (pos / 64)) (pos `mod` 64).

Lemma bitmap_ok_index bm pos :
  bitmap_ok bm → 0 <= pos < bm_n bm →
  ∃ v, bits bm !! Z.to_nat (pos / 64) = Some v ∧ idx_ (bits bm) (pos ÷ 64) = Ok v ∧ uint 64 v.
Proof.
  intros (H0 & Hm & Hl & Hf) Hp.
  assert (pos / 64 < bm_n bm / 64) as Hlt.
  { apply Z.div_lt_upper_bound; [lia|]. pose proof (Z.div_mod (bm_n bm) 64). lia. }
  pose proof (Z.div_pos pos 64 ltac:(lia) ltac:(lia)).
  destruct (lookup_lt_is_Some_2 (bits bm) (Z.to_nat (pos / 64))) as [v Hv]; [lia|].
  exists v. split_and!; [done| |by eapply (Forall_lookup_1 (uint 64))..].
  rewrite Z.quot_div_nonneg by lia. by apply idx_Ok.
Qed.

Lemma bitmap_get_bit bm pos :
  bitmap_ok bm → 0 <= pos < bm_n bm → bitmap_get bm pos = Ok (bit (bits bm) pos).
Proof.
  intros Hok Hp. destruct (bitmap_ok_index bm pos Hok Hp) as (v & Hv & E & _).
  unfold bitmap_get, bit. rewrite E. cbn.
  rewrite Z.rem_mod_nonneg by lia. by rewrite (list_lookup_total_correct _ _ _ Hv).
Qed.

Lemma uint_lor_bit w v i : uint w v → 0 <= i < w → uint w (Z.lor v (Z.shiftl 1 i)).
Proof.
  intros Hv Hi. rewrite <-(wrap_small w v) by done.
  assert (Z.shiftl 1 i = wrap w (Z.shiftl 1 i)) as ->.
  { symmetry. apply wrap_small. rewrite Z.shiftl_1_l. unfold uint.
    split; [lia|apply Z.pow_lt_mono_r; lia]. }
  unfold wrap. rewrite <-!Z.land_ones, <-Z.land_lor_distr_l, Z.land_ones by lia.
  apply Z.mod_pos_bound. lia.
Qed.

Lemma uint_land_l w v m : 0 <= w → uint w v → uint w (Z.land v m).
Proof.
  intros Hw Hv. rewrite <-(wrap_small w v) by done. unfold wrap.
  rewrite <-Z.land_ones by lia.
  rewrite <-Z.land_assoc, (Z.land_comm (Z.ones w)), Z.land_assoc, Z.land_ones by lia.
  apply Z.mod_pos_bound. lia.
Qed.

Lemma ctz_from_spec n i b :
  0 <= i → (∃ j, i <= j < i + Z.of_nat n ∧ Z.testbit b j = true) →
  i <= ctz_from n i b < i + Z.of_nat n ∧ Z.testbit b (ctz_from n i b) = true ∧
  ∀ j, i <= j < ctz_from n i b → Z.testbit b j = false.
Proof.
  revert i. induction n as [|n IH]; intros i Hi (j & Hj & Hb); [lia|]. cbn [ctz_from].
  destruct (Z.testbit b i) eqn:E.
  - split_and!; [lia|lia|done|lia].
  - destruct (IH (i + 1)) as (H1 & H2 & H3); [lia| |].
    { exists j. split; [|done]. destruct (decide (j = i)) as [->|]; [congruence|lia]. }
    split_and!; [lia|lia|done|]. intros j' Hj'.
    destruct (decide (j' = i)) as [->|]; [done|apply H3; lia].
Qed.

Lemma lnot_nonzero_bit v :
  uint 64 v → wrap 64 (Z.lnot v) ≠ 0 → ∃ j, 0 <= j < 64 ∧ Z.testbit (wrap 64 (Z.lnot v)) j = true.
Proof.
  intros Hv Hne.
  destruct (decide (Exists (λ j, Z.testbit (wrap 64 (Z.lnot v)) j = true) (seqZ 0 64))) as [He|Hn].
  - apply Exists_exists in He as (j & Hj & Hb). apply elem_of_seqZ in Hj. exists j. split; [lia|done].
  - exfalso. apply Hne. apply Z.bits_inj'. intros i Hi. rewrite Z.bits_0.
    destruct (Z.ltb_spec i 64).
    + destruct (Z.testbit (wrap 64 (Z.lnot v)) i) eqn:E; [|done].
      exfalso. apply Hn. apply Exists_exists. exists i. split; [apply elem_of_seqZ; lia|done].
    + unfold wrap. by rewrite Z.mod_pow2_bits_high by lia.
Qed.

Lemma testbit_wrap_lnot v i : 0 <= i < 64 → Z.testbit (wrap 64 (Z.lnot v)) i = negb (Z.testbit v i).
Proof. intros. unfold wrap. rewrite Z.mod_pow2_bits_low by lia. apply Z.lnot_spec. lia. Qed.

Lemma testbit_lor_bit v i j :
  0 <= i → 0 <= j → Z.testbit (Z.lor v (Z.shiftl 1 i)) j = (j =? i) || Z.testbit v j.
Proof.
  intros. rewrite Z.lor_spec, Z.shiftl_1_l, Z.pow2_bits_eqb by done.
  rewrite orb_comm. by rewrite (Z.eqb_sym i j).
Qed.

Lemma testbit_land_lnot_bit v i j :
  0 <= i → 0 <= j → Z.testbit (Z.land v (Z.lnot (Z.shiftl 1 i))) j = negb (j =? i) && Z.testbit v j.
Proof.
  intros. rewrite Z.land_spec, Z.lnot_spec, Z.shiftl_1_l, Z.pow2_bits_eqb by done.
  rewrite andb_comm. by rewrite (Z.eqb_sym i j).
Qed.

(** Two positions name the same bit only if they are equal. *)
Lemma pos_word_bit p q : p / 64 = q / 64 → p `mod` 64 = q `mod` 64 → p = q.
Proof.
  intros Hd Hm. rewrite (Z.div_mod p 64), (Z.div_mod q 64) by lia. by rewrite Hd, Hm.
Qed.

Lemma bit_insert bs p w q :
  0 <= p → 0 <= q → (Z.to_nat (p / 64) < length bs)%nat →
  bit (<[Z.to_nat (p / 64) := w]> bs) q =
  if q / 64 =? p / 64 then Z.testbit w (q `mod` 64) else bit bs q.
Proof.
  intros Hp Hq Hl. unfold bit.
  pose proof (Z.div_pos p 64 Hp). pose proof (Z.div_pos q 64 Hq).
  destruct (Z.eqb_spec (q / 64) (p / 64)) as [->|Hne].
  - by rewrite list_lookup_total_insert_eq.
  - rewrite list_lookup_total_insert_ne by lia. done.
Qed.

(** [set] and [clear] change the bit they are given and no other, as [get]
    sees them, and keep the map well formed. *)
Theorem bitmap_set_clear_get bm pos q :
  bitmap_ok bm → 0 <= pos < bm_n bm → 0 <= q < bm_n bm →
  ∃ s c b, bitmap_set bm pos = Ok s ∧ bitmap_clear bm pos = Ok c ∧ bitmap_get bm q = Ok b ∧
    bitmap_ok s ∧ bitmap_ok c ∧
    bitmap_get s q = Ok ((q =? pos) || b) ∧ bitmap_get c q = Ok (negb (q =? pos) && b).
Proof.
  intros Hok Hp Hq. destruct (bitmap_ok_index bm pos Hok Hp) as (v & Hv & E & Hu).
  unfold bitmap_set, bitmap_clear. rewrite E. cbn [mbind res_bind].
  rewrite Z.quot_div_nonneg, Z.rem_mod_nonneg by lia.
  pose proof (Z.mod_pos_bound pos 64) as Hmp. pose proof (Z.mod_pos_bound q 64) as Hmq.
  pose proof (lookup_lt_Some _ _ _ Hv) as Hlt.
  eexists _, _, _. split; [done|]. split; [done|]. split; [by apply bitmap_get_bit|].
  assert (∀ w, uint 64 w → bitmap_ok (BM (bm_n bm) (<[Z.to_nat (pos / 64):=w]> (bits bm)))) as Hins.
  { destruct Hok as (H0 & Hm & Hl & Hf). intros w Hw. split_and!; cbn; [done|done| |].
    - by rewrite length_insert.
    - by apply Forall_insert. }
  assert (uint 64 (Z.land v (Z.lnot (Z.shiftl 1 (pos `mod` 64))))) as Hc.
  { by apply uint_land_l. }
  split; [apply Hins, uint_lor_bit; [done|lia]|]. split; [by apply Hins|].
  rewrite !bitmap_get_bit by (try apply Hins; try apply uint_lor_bit; cbn; done || lia).
  cbn [bits]. rewrite !bit_insert by lia.
  rewrite testbit_lor_bit, testbit_land_lnot_bit by lia.
  unfold bit. destruct (Z.eqb_spec (q / 64) (pos / 64)) as [Hd|Hd].
  - rewrite Hd, (list_lookup_total_correct _ _ _ Hv).
    destruct (Z.eqb_spec (q `mod` 64) (pos `mod` 64)) as [Hm|Hm], (Z.eqb_spec q pos); try done.
    + by destruct (pos_word_bit q pos Hd Hm).
    + subst. done.
  - destruct (Z.eqb_spec q pos) as [->|]; done.
Qed.

Lemma bitmap_set_clear_get_witness :
  bitmap_ok (BM 128 [5; 0]) ∧ bitmap_set (BM 128 [5; 0]) 65 = Ok (BM 128 [5; 2]) ∧
  ∃ s c b, bitmap_set (BM 128 [5; 0]) 65 = Ok s ∧ bitmap_clear (BM 128 [5; 0]) 65 = Ok c ∧
    bitmap_get (BM 128 [5; 0]) 2 = Ok b ∧ bitmap_ok s ∧ bitmap_ok c ∧
    bitmap_get s 2 = Ok ((2 =? 65) || b) ∧ bitmap_get c 2 = Ok (negb (2 =? 65) && b).
Proof.
  assert (bitmap_ok (BM 128 [5; 0])) as Hok.
  { apply (bool_decide_unpack _). vm_compute. exact I. }
  split; [exact Hok|]. split; [reflexivity|].
  apply (bitmap_set_clear_get (BM 128 [5; 0]) 65 2 Hok); cbn; lia.
Defined.

(** The loop of [setZeroPos] sets the first clear bit, counted from word [i]. *)
Lemma set_zero_loop_spec bs i :
  Forall (uint 64) bs → 0 <= i →
  match set_zero_loop bs i with
  | Ok (p, bs') =>
    ∃ k v, bs !! k = Some v ∧ p = (i + Z.of_nat k) * 64 + p `mod` 64 ∧
      bs' = <[k := Z.lor v (Z.shiftl 1 (p `mod` 64))]> bs ∧ Z.testbit v (p `mod` 64) = false ∧
      (∀ j, 0 <= j < p `mod` 64 → Z.testbit v j = true) ∧
      ∀ k' u j, (k' < k)%nat → bs !! k' = Some u → 0 <= j < 64 → Z.testbit u j = true
  | Fail e => e = EAssert ∧ ∀ k u j, bs !! k = Some u → 0 <= j < 64 → Z.testbit u j = true
  end.
Proof.
  revert i. induction bs as [|v bs IH]; intros i Hf Hi; cbn [set_zero_loop].
  { by split. }
  inversion Hf as [|?? Hv Hf']; subst.
  destruct (Z.eqb_spec (wrap 64 (Z.lnot v)) 0) as [Hz|Hz]; cbn [negb].
  - assert (∀ j, 0 <= j < 64 → Z.testbit v j = true) as Hall.
    { intros j Hj. rewrite <-(negb_involutive (Z.testbit v j)), <-testbit_wrap_lnot, Hz by lia.
      by rewrite Z.bits_0. }
    specialize (IH (i + 1) Hf' ltac:(lia)).
    destruct (set_zero_loop bs (i + 1)) as [[p bs']|e]; cbn [mbind res_bind].
    + destruct IH as (k & u & Hk & Hp & -> & Hb & Hlow & Hprev).
      exists (S k), u. repeat (split; [by eauto || lia|]).
      intros [|k'] u' j Hlt Hu Hj; cbn in Hu; [simplify_eq; by apply Hall|].
      eapply (Hprev k'); eauto; lia.
    + destruct IH as [-> IH]. split; [done|]. intros [|k] u j Hu Hj; cbn in Hu; [|by eauto].
      simplify_eq. by apply Hall.
  - destruct (lnot_nonzero_bit v Hv Hz) as (j & Hj & Hb).
    destruct (ctz_from_spec 64 0 (wrap 64 (Z.lnot v))) as (Hr & Hset & Hlow); [lia|by exists j|].
    fold (ctzll (wrap 64 (Z.lnot v))) in *. set (q := ctzll _) in *.
    assert ((i * 64 + q) `mod` 64 = q) as Hq.
    { rewrite Z.add_comm, Z.mod_add by lia. apply Z.mod_small. lia. }
    exists 0%nat, v. rewrite Hq. repeat (split; [by eauto || lia|]). split; [|split].
    + rewrite testbit_wrap_lnot in Hset by lia. by apply negb_true_iff.
    + intros j' Hj'. specialize (Hlow j' ltac:(lia)). rewrite testbit_wrap_lnot in Hlow by lia.
      by apply negb_false_iff.
    + intros; lia.
Qed.

(** [setZeroPos] finds and sets the first clear bit: the position it
    returns is in range and was clear, every earlier bit was set, and the new
    map is the one [set] makes; the assertion fails exactly when every bit is
    set. *)
Theorem bitmap_setZeroPos_spec bm :
  bitmap_ok bm →
  match bitmap_setZeroPos bm with
  | Ok (p, bm') =>
    0 <= p < bm_n bm ∧ bitmap_get bm p = Ok false ∧
    (∀ q, 0 <= q < p → bitmap_get bm q = Ok true) ∧ bitmap_set bm p = Ok bm'
  | Fail e => e = EAssert ∧ ∀ q, 0 <= q < bm_n bm → bitmap_get bm q = Ok true
  end.
Proof.
  intros Hok. pose proof Hok as (H0 & Hm & Hl & Hf).
  pose proof (set_zero_loop_spec (bits bm) 0 Hf ltac:(lia)) as H.
  unfold bitmap_setZeroPos. destruct (set_zero_loop (bits bm) 0) as [[p bs']|e]; cbn [mbind res_bind].
  - destruct H as (k & v & Hk & Hp & -> & Hb & Hlow & Hprev).
    pose proof (lookup_lt_Some _ _ _ Hk). pose proof (Z.mod_pos_bound p 64 ltac:(lia)).
    pose proof (Z.div_mod (bm_n bm) 64).
    assert (0 <= p < bm_n bm) as Hr by lia.
    assert (p / 64 = Z.of_nat k) as Hd by (rewrite Hp at 1; rewrite Z.div_add_l, Z.div_small; lia).
    split; [done|]. split; [|split].
    + rewrite bitmap_get_bit by done. unfold bit.
      by rewrite Hd, Nat2Z.id, (list_lookup_total_correct _ _ _ Hk), Hb.
    + intros q Hq. rewrite bitmap_get_bit by (done || lia). unfold bit. f_equal.
      destruct (bitmap_ok_index bm q Hok ltac:(lia)) as (u & Hu & _ & _).
      rewrite (list_lookup_total_correct _ _ _ Hu).
      pose proof (Z.mod_pos_bound q 64 ltac:(lia)). pose proof (Z.div_pos q 64 ltac:(lia) ltac:(lia)).
      pose proof (Z.div_mod q 64 ltac:(lia)).
      destruct (decide (q / 64 = p / 64)) as [E|].
      * rewrite E, Hd, Nat2Z.id, Hk in Hu. simplify_eq. apply Hlow. lia.
      * eapply (Hprev (Z.to_nat (q / 64))); eauto; lia.
    + unfold bitmap_set. rewrite Z.quot_div_nonneg, Z.rem_mod_nonneg, Hd, Nat2Z.id by lia.
      unfold idx_. rewrite (proj2 (Z.leb_le 0 (Z.of_nat k))) by lia. by rewrite Nat2Z.id, Hk.
  - destruct H as [-> H]. split; [done|]. intros q Hq.
    destruct (bitmap_ok_index bm q Hok Hq) as (u & Hu & _ & _).
    rewrite bitmap_get_bit by done. unfold bit. rewrite (list_lookup_total_correct _ _ _ Hu).
    by rewrite (H _ _ (q `mod` 64) Hu) by (apply Z.mod_pos_bound; lia).
Qed.

Lemma bitmap_setZeroPos_spec_witness :
  bitmap_ok (BM 128 [2 ^ 64 - 1; 3]) ∧
  match bitmap_setZeroPos (BM 128 [2 ^ 64 - 1; 3]) with
  | Ok (p, bm') =>
    0 <= p < 128 ∧ bitmap_get (BM 128 [2 ^ 64 - 1; 3]) p = Ok false ∧
    (∀ q, 0 <= q < p → bitmap_get (BM 128 [2 ^ 64 - 1; 3]) q = Ok true) ∧
    bitmap_set (BM 128 [2 ^ 64 - 1; 3]) p = Ok bm'
  | Fail e => e = EAssert ∧ ∀ q, 0 <= q < 128 → bitmap_get (BM 128 [2 ^ 64 - 1; 3]) q = Ok true
  end.
Proof.
  assert (bitmap_ok (BM 128 [2 ^ 64 - 1; 3])) as Hok.
  { apply (bool_decide_unpack _). vm_compute. exact I. }
  split; [exact Hok|]. apply (bitmap_setZeroPos_spec (BM 128 [2 ^ 64 - 1; 3]) Hok).
Defined.
