(* ===== verification/HashTable.v ===== *)
(** * The local hash table (include/MyLocalHashTable.h)

    A chained hash table from keys to values, and its refinement of a finite
    map. *)

From Stdlib Require Import ZArith Lia Bool.
From stdpp Require Import base tactics decidable option numbers list list_numbers gmap fin_maps.
From S2P Require Import Prelude.
From S2P Require Import Common.
From S2P Require Import Keys.

#[global] Abbreviation Node := (Key * Z)%type (only parsing).

Record MyLocalHashTable : Set :=
  HT { buckets : list (list Node); capacity : Z; size : Z }.

Definition hash_step (hash partial : Z) : Z :=
  wrap 64 (wrap 64 (Z.shiftl hash 5) + hash + partial).

(** [hash % hash_size] is undefined for 0. *)
Definition get_hashcode (key : Key) (hash_size : Z) : res Z :=
  defined (negb (hash_size =? 0)) ;; Ok (foldl hash_step 5381 key `mod` hash_size).

Definition table_new (capacity : Z) : MyLocalHashTable :=
  HT (replicate (Z.to_nat capacity) []) capacity 0.

(** [buckets[index].emplace_back(node)] *)
Definition emplace_back (bs : list (list Node)) (index : Z) (node : Node) : res (list (list Node)) :=
  b ← idx_ bs index; Ok (<[Z.to_nat index := b ++ [node]]> bs).

(** The two nested loops of [rehash], over the nodes in bucket order. *)
Fixpoint rehash_nodes (nodes : list Node) (new_capacity : Z) (bs : list (list Node)) :
    res (list (list Node)) :=
  match nodes with
  | [] => Ok bs
  | node :: nodes =>
    index ← get_hashcode node.1 new_capacity;
    bs' ← emplace_back bs index node;
    rehash_nodes nodes new_capacity bs'
  end.

Definition rehash (t : MyLocalHashTable) (new_capacity : Z) : res MyLocalHashTable :=
  bs ← rehash_nodes (concat (buckets t)) new_capacity (replicate (Z.to_nat new_capacity) []);
  Ok (HT bs new_capacity (size t)).

(** [if (node.key == key) { node.value = value; return false; }], over a bucket. *)
Fixpoint update_node (b : list Node) (key : Key) (value : Z) : option (list Node) :=
  match b with
  | [] => None
  | n :: b => if key_eqb n.1 key then Some ((n.1, value) :: b)
              else (cons n) <$> update_node b key value
  end.

Definition insert (t : MyLocalHashTable) (key : Key) (value : Z) : res (MyLocalHashTable * bool) :=
  t ← (if 3 * Z.of_nat (length (buckets t)) <=? 4 * size t
       then rehash t (Z.of_nat (length (buckets t)) * 2) else Ok t);
  index ← get_hashcode key (capacity t);
  b ← idx_ (buckets t) index;
  match update_node b key value with
  | Some b' => Ok (HT (<[Z.to_nat index := b']> (buckets t)) (capacity t) (size t), false)
  | None =>
    bs ← emplace_back (buckets t) index (key, value);
    Ok (HT bs (capacity t) (size t + 1), true)
  end.

Fixpoint find_node (b : list Node) (key : Key) : option Z :=
  match b with
  | [] => None
  | n :: b => if key_eqb n.1 key then Some n.2 else find_node b key
  end.

Definition query (t : MyLocalHashTable) (key : Key) : res (option Z) :=
  index ← get_hashcode key (capacity t);
  b ← idx_ (buckets t) index;
  Ok (find_node b key).

Fixpoint erase_node (b : list Node) (key : Key) : option (list Node) :=
  match b with
  | [] => None
  | n :: b => if key_eqb n.1 key then Some b else (cons n) <$> erase_node b key
  end.

Definition erase (t : MyLocalHashTable) (key : Key) : res (MyLocalHashTable * bool) :=
  index ← get_hashcode key (capacity t);
  b ← idx_ (buckets t) index;
  match erase_node b key with
  | Some b' => Ok (HT (<[Z.to_nat index := b']> (buckets t)) (capacity t) (size t - 1), true)
  | None => Ok (t, false)
  end.

(** ** The map a table stands for *)

(** Every node is in the bucket of its hash. *)
Definition placed (bs : list (list Node)) (cap : Z) : Prop :=
  Z.of_nat (length bs) = cap ∧ 0 < cap ∧
  ∀ i b n, bs !! i = Some b → n ∈ b → get_hashcode n.1 cap = Ok (Z.of_nat i).

Definition to_map (l : list Node) : gmap Key Z := list_to_map l.

Record represents (t : MyLocalHashTable) (m : gmap Key Z) : Prop := {
  rep_placed : placed (buckets t) (capacity t);
  rep_nodup : NoDup (concat (buckets t)).*1;
  rep_map : to_map (concat (buckets t)) = m;
  rep_size : size t = Z.of_nat (length (concat (buckets t)));
}.

(** ** Lemmas *)

Lemma get_hashcode_total key cap :
  0 < cap → ∃ i, get_hashcode key cap = Ok i ∧ 0 <= i < cap.
Proof.
  intros Hc. unfold get_hashcode. destruct (Z.eqb_spec cap 0); [lia|]. cbn.
  eexists. split; [done|]. apply Z.mod_pos_bound. lia.
Qed.

(** The bucket of a key exists. *)
Lemma bucket_total bs cap key :
  placed bs cap →
  ∃ i b, get_hashcode key cap = Ok (Z.of_nat i) ∧ bs !! i = Some b ∧ idx_ bs (Z.of_nat i) = Ok b.
Proof.
  intros (Hl & Hc & _). destruct (get_hashcode_total key cap Hc) as (i & Hi & Hr).
  destruct (lookup_lt_is_Some_2 bs (Z.to_nat i)) as [b Hb]; [lia|].
  exists (Z.to_nat i), b. rewrite Z2Nat.id by lia. split; [done|]. split; [done|].
  apply idx_Ok. split; [lia|done].
Qed.

Lemma placed_insert bs cap i b b' key :
  placed bs cap → bs !! i = Some b → get_hashcode key cap = Ok (Z.of_nat i) →
  (∀ n, n ∈ b' → n ∈ b ∨ n.1 = key) → placed (<[i := b']> bs) cap.
Proof.
  intros (Hl & Hc & H) Hb Hk Hn. split; [by rewrite length_insert|]. split; [done|].
  intros j c n Hj Hin. apply list_lookup_insert_Some in Hj as [(-> & -> & _)|(_ & Hj)]; [|by eauto].
  destruct (Hn n Hin) as [|<-]; [by eauto|done].
Qed.

Lemma find_node_spec b k :
  match find_node b k with Some v => (k, v) ∈ b | None => k ∉ b.*1 end.
Proof.
  induction b as [|[k' v'] b IH]; cbn; [apply not_elem_of_nil|].
  unfold key_eqb. case_bool_decide; subst; [by left|].
  destruct (find_node b k); [by right|]. rewrite not_elem_of_cons. split; [congruence|done].
Qed.

Lemma update_node_spec b k v :
  match update_node b k v with
  | Some b' => ∃ v0 r, b ≡ₚ (k, v0) :: r ∧ b' ≡ₚ (k, v) :: r
  | None => k ∉ b.*1
  end.
Proof.
  induction b as [|[k' v'] b IH]; cbn; [apply not_elem_of_nil|].
  unfold key_eqb. case_bool_decide; subst; cbn; [by exists v', b|].
  destruct (update_node b k v); cbn.
  - destruct IH as (v0 & r & Hb & Hb'). exists v0, ((k', v') :: r). rewrite Hb, Hb'. split; apply Permutation_swap.
  - rewrite not_elem_of_cons. split; [congruence|done].
Qed.

Lemma erase_node_spec b k :
  match erase_node b k with
  | Some b' => ∃ v0, b ≡ₚ (k, v0) :: b'
  | None => k ∉ b.*1
  end.
Proof.
  induction b as [|[k' v'] b IH]; cbn; [apply not_elem_of_nil|].
  unfold key_eqb. case_bool_decide; subst; cbn; [by exists v'|].
  destruct (erase_node b k); cbn.
  - destruct IH as (v0 & Hb). exists v0. rewrite Hb. apply Permutation_swap.
  - rewrite not_elem_of_cons. split; [congruence|done].
Qed.

(** A key that is not in its bucket is nowhere. *)
Lemma absent_everywhere bs cap key i b :
  placed bs cap → bs !! i = Some b → get_hashcode key cap = Ok (Z.of_nat i) →
  key ∉ b.*1 → key ∉ (concat bs).*1.
Proof.
  intros (_ & _ & H) Hb Hk Hn [[k v] [-> Hin]]%list_elem_of_fmap. cbn in *.
  rewrite list_elem_of_In, in_concat in Hin. destruct Hin as (b' & Hb' & Hin).
  rewrite <-list_elem_of_In in Hin. rewrite <-list_elem_of_In in Hb'. apply list_elem_of_lookup in Hb' as [j Hj].
  pose proof (H _ _ _ Hj Hin) as E. cbn in E. rewrite Hk in E. simplify_eq.
  simplify_eq. apply Hn. rewrite list_elem_of_fmap. by exists (k, v).
Qed.

Lemma in_bucket_in_concat (bs : list (list Node)) i b (n : Node) :
  bs !! i = Some b → n ∈ b → n ∈ concat bs.
Proof.
  intros Hb Hn. rewrite list_elem_of_In, in_concat. exists b.
  rewrite <-!list_elem_of_In. split; [by eapply list_elem_of_lookup_2|done].
Qed.

(** Changing a represented table by a permutation of its nodes. *)
Lemma represents_perm bs cap sz (l : list Node) :
  placed bs cap → concat bs ≡ₚ l → NoDup l.*1 → sz = Z.of_nat (length l) →
  represents (HT bs cap sz) (to_map l).
Proof.
  intros Hp Hl Hn ->. split; cbn; [done|by rewrite Hl| |by rewrite Hl].
  apply list_to_map_proper; [by rewrite Hl|done].
Qed.

Lemma to_map_some l k v : NoDup l.*1 → (k, v) ∈ l → to_map l !! k = Some v.
Proof. apply elem_of_list_to_map_1. Qed.

Lemma to_map_none l k : k ∉ l.*1 → to_map l !! k = None.
Proof. apply not_elem_of_list_to_map_1. Qed.

Lemma to_map_cons k v l : to_map ((k, v) :: l) = <[k := v]> (to_map l).
Proof. done. Qed.

Lemma to_map_perm l l' : NoDup l.*1 → l ≡ₚ l' → to_map l = to_map l'.
Proof. apply list_to_map_proper. Qed.

Lemma query_spec t m k : represents t m → query t k = Ok (m !! k).
Proof.
  intros [Hp Hn <- _]. destruct (bucket_total _ _ k Hp) as (i & b & Hk & Hb & E).
  unfold query. rewrite Hk. cbn. rewrite E. cbn. f_equal.
  pose proof (find_node_spec b k) as Hf. destruct (find_node b k) as [v|].
  - symmetry. apply elem_of_list_to_map_1; [done|]. by eapply in_bucket_in_concat.
  - symmetry. apply not_elem_of_list_to_map_1. by eapply absent_everywhere.
Qed.

Lemma emplace_back_spec bs cap key v :
  placed bs cap →
  ∃ i bs', get_hashcode key cap = Ok i ∧ emplace_back bs i (key, v) = Ok bs' ∧
    placed bs' cap ∧ concat bs' ≡ₚ (key, v) :: concat bs.
Proof.
  intros Hp. destruct (bucket_total _ _ key Hp) as (i & b & Hk & Hb & E).
  unfold emplace_back. exists (Z.of_nat i). eexists. rewrite E, Nat2Z.id. cbn.
  split; [done|]. split; [done|]. split.
  - eapply placed_insert; [done..|]. intros n. rewrite elem_of_app, list_elem_of_singleton. intros [?| ->]; [by left|by right].
  - destruct (concat_insert bs i b (b ++ [(key, v)]) Hb) as (r & -> & ->).
    by rewrite <-app_assoc, Permutation_app_swap_app.
Qed.

Lemma rehash_nodes_spec nodes cap bs :
  placed bs cap →
  ∃ bs', rehash_nodes nodes cap bs = Ok bs' ∧ placed bs' cap ∧ concat bs' ≡ₚ nodes ++ concat bs.
Proof.
  revert bs. induction nodes as [|[k v] nodes IH]; intros bs Hp; cbn; [by eauto|].
  destruct (emplace_back_spec _ _ k v Hp) as (i & bs1 & -> & E & Hp1 & Hc1). cbn. rewrite E. cbn.
  destruct (IH bs1 Hp1) as (bs2 & -> & Hp2 & Hc2). exists bs2. split; [done|]. split; [done|].
  rewrite Hc2, Hc1. by rewrite Permutation_middle.
Qed.

Lemma concat_replicate_nil n : concat (replicate n ([] : list Node)) = [].
Proof. by induction n. Qed.

Lemma placed_new cap : 0 < cap → placed (replicate (Z.to_nat cap) []) cap.
Proof.
  intros. split; [rewrite length_replicate; lia|]. split; [done|].
  intros i b n [-> _]%lookup_replicate Hn. by apply not_elem_of_nil in Hn.
Qed.

Lemma represents_new cap : 0 < cap → represents (table_new cap) ∅.
Proof.
  intros. split; cbn; rewrite ?concat_replicate_nil; [by apply placed_new|constructor|done|done].
Qed.

Lemma rehash_spec t m cap :
  represents t m → 0 < cap → ∃ t', rehash t cap = Ok t' ∧ represents t' m ∧ capacity t' = cap.
Proof.
  intros [Hp Hn <- Hs] Hc. unfold rehash.
  destruct (rehash_nodes_spec (concat (buckets t)) cap _ (placed_new cap Hc)) as (bs & -> & Hp' & Hc').
  rewrite concat_replicate_nil, app_nil_r in Hc'. cbn.
  eexists. split; [done|]. split; [|done]. by apply represents_perm.
Qed.

Lemma insert_spec t m k v :
  represents t m →
  ∃ t', insert t k v = Ok (t', bool_decide (m !! k = None)) ∧ represents t' (<[k := v]> m).
Proof.
  intros Hr. unfold insert.
  assert (∃ t', (if 3 * Z.of_nat (length (buckets t)) <=? 4 * size t
      then rehash t (Z.of_nat (length (buckets t)) * 2) else Ok t) = Ok t' ∧ represents t' m)
    as (t1 & -> & Hr1).
  { destruct (_ <=? _); [|by eauto].
    destruct (rehash_spec t m (Z.of_nat (length (buckets t)) * 2) Hr) as (t' & ? & ? & _); [|by eauto].
    destruct Hr as [(? & ? & _) _ _ _]. lia. }
  clear t Hr. cbn. destruct Hr1 as [Hp Hn <- Hs].
  destruct (bucket_total _ _ k Hp) as (i & b & Hk & Hb & E). rewrite Hk. cbn. rewrite E. cbn.
  pose proof (update_node_spec b k v) as Hu. destruct (update_node b k v) as [b'|].
  - destruct Hu as (v0 & r & Hpb & Hpb').
    destruct (concat_insert _ _ _ b' Hb) as (rest & Hc & Hc').
    rewrite (Permutation_app_tail rest Hpb) in Hc.
    rewrite (Permutation_app_tail rest Hpb') in Hc'. rewrite Nat2Z.id.
    assert (to_map (concat (buckets t1)) !! k = Some v0) as Hkv.
    { apply to_map_some; [done|]. rewrite Hc. by left. }
    rewrite Hkv. eexists. split; [done|].
    rewrite Hc in Hn. assert (to_map (concat (buckets t1)) = to_map ((k, v0) :: r ++ rest)) as ->.
    { apply to_map_perm; by rewrite Hc. }
    rewrite to_map_cons, insert_insert_eq, <-to_map_cons.
    apply represents_perm; [|done|done|].
    + eapply placed_insert; [done..|]. intros n. rewrite Hpb', Hpb, !elem_of_cons.
      intros [->|]; [by right|left; by right].
    + rewrite Hs, Hc. cbn. lia.
  - pose proof (absent_everywhere _ _ _ _ _ Hp Hb Hk Hu) as Hno.
    destruct (emplace_back_spec _ _ k v Hp) as (i' & bs1 & Hi' & E1 & Hp1 & Hc1).
    rewrite Hk in Hi'. simplify_eq. rewrite E1. cbn.
    rewrite (to_map_none _ _ Hno).
    eexists. split; [done|].
    rewrite <-to_map_cons.
    apply represents_perm; [done|done|by constructor|]. rewrite Hs. cbn. lia.
Qed.

Lemma erase_spec t m k :
  represents t m →
  ∃ t', erase t k = Ok (t', bool_decide (m !! k ≠ None)) ∧ represents t' (delete k m).
Proof.
  intros Hr. pose proof Hr as [Hp Hn <- Hs]. unfold erase.
  destruct (bucket_total _ _ k Hp) as (i & b & Hk & Hb & E). rewrite Hk. cbn. rewrite E. cbn.
  pose proof (erase_node_spec b k) as Hu. destruct (erase_node b k) as [b'|].
  - destruct Hu as (v0 & Hpb).
    destruct (concat_insert _ _ _ b' Hb) as (rest & Hc & Hc').
    rewrite (Permutation_app_tail rest Hpb) in Hc. rewrite Nat2Z.id.
    assert (to_map (concat (buckets t)) !! k = Some v0) as Hkv.
    { apply to_map_some; [done|]. rewrite Hc. by left. }
    rewrite Hkv. eexists. split; [done|].
    rewrite Hc in Hn. assert (to_map (concat (buckets t)) = to_map ((k, v0) :: b' ++ rest)) as ->.
    { apply to_map_perm; by rewrite Hc. }
    cbn in Hn. apply NoDup_cons in Hn as [Hk0 Hn].
    rewrite to_map_cons, delete_insert_id by by apply to_map_none.
    apply represents_perm; [|done|done|].
    + eapply placed_insert; [done..|]. intros n. rewrite Hpb, elem_of_cons. tauto.
    + rewrite Hs, Hc. cbn. lia.
  - pose proof (absent_everywhere _ _ _ _ _ Hp Hb Hk Hu) as Hno.
    apply to_map_none in Hno. rewrite Hno.
    exists t. split; [done|]. by rewrite delete_id.
Qed.

(** ** Property *)

(** C25. The table refines a finite map: from a table that stands for [m],
    [insert], [query] and [erase] always return, [query] gives the map's
    entry, [insert] and [erase] lead to tables that stand for the updated map
    (the automatic rehash included) and report whether the key was new or
    present, and [size] counts the entries. *)
Theorem table_refines_map t m k v :
  represents t m →
  size t = Z.of_nat (base.size m) ∧ query t k = Ok (m !! k) ∧
  (∃ t', insert t k v = Ok (t', bool_decide (m !! k = None)) ∧ represents t' (<[k := v]> m)) ∧
  (∃ t', erase t k = Ok (t', bool_decide (m !! k ≠ None)) ∧ represents t' (delete k m)) ∧
  ∀ cap, 0 < cap → ∃ t', rehash t cap = Ok t' ∧ represents t' m.
Proof.
  intros Hr. split; [|split; [by apply query_spec|split; [by apply insert_spec|split; [by apply erase_spec|]]]].
  - destruct Hr as [_ Hn <- ->]. f_equal. rewrite <-length_map_to_list.
    unfold to_map. by rewrite map_to_list_to_map.
  - intros cap Hc. destruct (rehash_spec t m cap Hr Hc) as (t' & ? & ? & _). eauto.
Qed.

Lemma table_refines_map_witness :
  represents (table_new 16) ∅ ∧
  size (table_new 16) = 0 ∧ query (table_new 16) [1; 2] = Ok None ∧
  (∃ t', insert (table_new 16) [1; 2] 7 = Ok (t', true) ∧ represents t' (<[[1; 2] := 7]> ∅)) ∧
  (∃ t', erase (table_new 16) [1; 2] = Ok (t', false) ∧ represents t' (delete [1; 2] ∅)) ∧
  ∀ cap, 0 < cap → ∃ t', rehash (table_new 16) cap = Ok t' ∧ represents t' ∅.
Proof.
  assert (represents (table_new 16) ∅) as Hr by (apply represents_new; lia).
  split; [exact Hr|]. exact (table_refines_map (table_new 16) ∅ [1; 2] 7 Hr).
Defined.
