(* ===== verification/RWLock.v ===== *)
(** * The reader-writer spin lock (include/WRLock.h)

    One 16-bit atomic word: 0 unlocked, 1 held by a writer, and 2 for each
    reader. Threads run the lock's functions one atomic access at a time, in
    any order. *)

From Stdlib Require Import ZArith Lia Bool.
From stdpp Require Import base tactics decidable option numbers list relations.
From S2P Require Import Prelude.
From S2P Require Import Common.

Definition UNLOCKED : Z := 0.
Definition LOCKED : Z := 1.

(** Where a thread is: outside the lock, before an atomic access of one of
    the functions (with the local [v] that is live there), or in the critical
    section of a writer or a reader. *)
Inductive pc : Set :=
  | Idle
  | WLoad | WCas                 (* wLock *)
  | TryWLoad | TryWCas           (* try_wLock *)
  | Writing
  | RLoad | RCas (v : Z)         (* rLock *)
  | TryRLoad | TryRCas (v : Z)   (* try_rLock *)
  | Reading
  | RUnlockLoad | RUnlockCas (v : Z).

#[export] Instance pc_eq_dec : EqDecision pc.
Proof. solve_decision. Defined.

(** [l.compare_exchange_strong(expected, desired)] *)
Definition compare_exchange (l expected desired : Z) : bool * Z :=
  if l =? expected then (true, desired) else (false, l).

(** One atomic access of [wLock]. *)
Definition wLock_step (l : Z) (p : pc) : pc * Z :=
  match p with
  | WLoad => (if negb (l =? UNLOCKED) then WLoad else WCas, l)
  | WCas => let '(ok, l') := compare_exchange l UNLOCKED LOCKED in (if ok then Writing else WLoad, l')
  | p => (p, l)
  end.

(** One atomic access of [try_wLock]; a failure returns to [Idle]. *)
Definition try_wLock_step (l : Z) (p : pc) : pc * Z :=
  match p with
  | TryWLoad => (if negb (l =? UNLOCKED) then Idle else TryWCas, l)
  | TryWCas => let '(ok, l') := compare_exchange l UNLOCKED LOCKED in (if ok then Writing else Idle, l')
  | p => (p, l)
  end.

Definition rLock_step (l : Z) (p : pc) : pc * Z :=
  match p with
  | RLoad => (if l =? LOCKED then RLoad else RCas l, l)
  | RCas v =>
    let b := wrap 16 (v + 2) in
    let '(ok, l') := compare_exchange l v b in (if ok then Reading else RLoad, l')
  | p => (p, l)
  end.

Definition try_rLock_step (l : Z) (p : pc) : pc * Z :=
  match p with
  | TryRLoad => (if l =? LOCKED then Idle else TryRCas l, l)
  | TryRCas v =>
    let b := wrap 16 (v + 2) in
    let '(ok, l') := compare_exchange l v b in (if ok then Reading else TryRLoad, l')
  | p => (p, l)
  end.

Definition rUnlock_step (l : Z) (p : pc) : pc * Z :=
  match p with
  | RUnlockLoad => (RUnlockCas l, l)
  | RUnlockCas v =>
    let b := wrap 16 (v - 2) in
    let '(ok, l') := compare_exchange l v b in (if ok then Idle else RUnlockLoad, l')
  | p => (p, l)
  end.

Definition wUnlock_step (l : Z) (p : pc) : pc * Z :=
  match p with
  | Writing => (Idle, UNLOCKED)
  | p => (p, l)
  end.

(** The function a thread is in the middle of takes its next access. *)
Definition run_step (l : Z) (p : pc) : pc * Z :=
  match p with
  | WLoad | WCas => wLock_step l p
  | TryWLoad | TryWCas => try_wLock_step l p
  | RLoad | RCas _ => rLock_step l p
  | TryRLoad | TryRCas _ => try_rLock_step l p
  | RUnlockLoad | RUnlockCas _ => rUnlock_step l p
  | Idle | Writing | Reading => (p, l)
  end.

(** A thread calls a lock function when it is outside, and the unlock that
    matches what it holds when it is inside. *)
Inductive call : pc → pc → Prop :=
  | call_wLock : call Idle WLoad
  | call_try_wLock : call Idle TryWLoad
  | call_rLock : call Idle RLoad
  | call_try_rLock : call Idle TryRLoad
  | call_rUnlock : call Reading RUnlockLoad.

Record lock_state : Set := LS { word : Z; threads : list pc }.

Inductive lock_step : lock_state → lock_state → Prop :=
  | step_call s i p q :
      threads s !! i = Some p → call p q →
      lock_step s (LS (word s) (<[i := q]> (threads s)))
  | step_run s i p :
      threads s !! i = Some p →
      lock_step s (LS (run_step (word s) p).2 (<[i := (run_step (word s) p).1]> (threads s)))
  | step_wUnlock s i :
      threads s !! i = Some Writing →
      lock_step s (LS (wUnlock_step (word s) Writing).2
                      (<[i := (wUnlock_step (word s) Writing).1]> (threads s))).

(** [init()], with [n] threads outside. *)
Definition lock_init (n : nat) : lock_state := LS UNLOCKED (replicate n Idle).

(** ** Invariant *)

Definition writes (p : pc) : Z := match p with Writing => 1 | _ => 0 end.
Definition reads (p : pc) : Z :=
  match p with Reading | RUnlockLoad | RUnlockCas _ => 1 | _ => 0 end.

Definition writers (s : lock_state) : Z := sum_of writes (threads s).
Definition readers (s : lock_state) : Z := sum_of reads (threads s).

(** A compare-and-swap of a reader never expects the writer's value. *)
Definition pc_ok (p : pc) : Prop :=
  match p with RCas v | TryRCas v => v ≠ LOCKED | _ => True end.

(** The word counts the holders. *)
Definition word_ok (w ws rs : Z) : Prop :=
  (w = LOCKED ∧ ws = 1 ∧ rs = 0) ∨ (ws = 0 ∧ w = 2 * rs).

Record lock_inv (s : lock_state) : Prop := {
  inv_threads : Z.of_nat (length (threads s)) < 2 ^ 15;
  inv_pc : Forall pc_ok (threads s);
  inv_word : word_ok (word s) (writers s) (readers s);
}.

Lemma readers_bound s : 0 <= readers s <= Z.of_nat (length (threads s)).
Proof.
  pose proof (sum_of_bounds reads (threads s) 0 1).
  assert (∀ x, x ∈ threads s → 0 <= reads x <= 1) as H' by (intros [] _; cbn; lia).
  specialize (H H'). unfold readers. lia.
Qed.

Lemma writers_nonneg s : 0 <= writers s.
Proof. apply sum_of_nonneg. intros []; cbn; lia. Qed.

(** One thread moves: the invariant from the effect on the word. *)
Lemma lock_inv_move s i p q w :
  lock_inv s → threads s !! i = Some p → pc_ok q →
  word_ok w (writers s - writes p + writes q) (readers s - reads p + reads q) →
  lock_inv (LS w (<[i := q]> (threads s))).
Proof.
  intros [H1 H2 H3] Hi Hq Hw. split; cbn.
  - by rewrite length_insert.
  - by apply Forall_insert.
  - unfold writers, readers in *. cbn. by rewrite (sum_of_insert writes _ _ _ _ Hi), (sum_of_insert reads _ _ _ _ Hi).
Qed.

Lemma holder_bounds s i p :
  threads s !! i = Some p → writes p <= writers s ∧ reads p <= readers s.
Proof.
  intros H. split; eapply sum_of_elem; try exact H; intros []; cbn; lia.
Qed.

(** A thread that holds nothing leaves room for one more reader. *)
Lemma room_bound s i p :
  threads s !! i = Some p → readers s - reads p + 1 <= Z.of_nat (length (threads s)).
Proof.
  intros H. pose proof (readers_bound (LS 0 (<[i := Reading]> (threads s)))) as Hb.
  unfold readers in *. cbn [threads] in Hb.
  rewrite (sum_of_insert reads _ _ _ _ H), length_insert in Hb. cbn [reads] in Hb. lia.
Qed.

Ltac lock_crush :=
  repeat first
    [ progress cbn in *
    | match goal with
      | |- context [?a =? ?b] => destruct (Z.eqb_spec a b); subst
      end ];
  unfold word_ok, LOCKED, UNLOCKED in *; try lia.

Lemma run_step_inv s i p :
  lock_inv s → threads s !! i = Some p →
  pc_ok (run_step (word s) p).1 ∧
  word_ok (run_step (word s) p).2
    (writers s - writes p + writes (run_step (word s) p).1)
    (readers s - reads p + reads (run_step (word s) p).1).
Proof.
  intros [Hn Hpc Hw] Hi.
  pose proof (holder_bounds _ _ _ Hi) as [Hwp Hrp]. pose proof (readers_bound s).
  pose proof (room_bound _ _ _ Hi) as Hroom. change (2 ^ 15) with 32768 in Hn.
  pose proof (writers_nonneg s). pose proof (Forall_lookup_1 _ _ _ _ Hpc Hi) as Hp.
  destruct p as [| | | | | | |v| |v| | |v]; cbn [run_step];
    unfold wLock_step, try_wLock_step, rLock_step, try_rLock_step, rUnlock_step, compare_exchange;
    cbn in Hp, Hwp, Hrp; (split; [lock_crush; done|]); lock_crush.
  all: rewrite wrap_small; unfold uint; change (2 ^ 16) with 65536; lia.
Qed.

Lemma lock_inv_step s s' : lock_inv s → lock_step s s' → lock_inv s'.
Proof.
  intros Hinv Hs. destruct Hs as [s i p q Hi Hc|s i p Hi|s i Hi].
  - eapply lock_inv_move; [done|done| |].
    + by destruct Hc.
    + destruct Hinv as [_ _ Hw]. destruct Hc; lock_crush.
  - destruct (run_step_inv s i p Hinv Hi). by eapply lock_inv_move.
  - eapply lock_inv_move; [done|done|done|].
    destruct (holder_bounds _ _ _ Hi) as [Hw _]. destruct Hinv as [_ _ Hwo].
    pose proof (readers_bound s). cbn in *. lock_crush.
Qed.

Lemma lock_inv_init n : Z.of_nat n < 2 ^ 15 → lock_inv (lock_init n).
Proof.
  intros H. split; cbn.
  - by rewrite length_replicate.
  - by apply Forall_replicate.
  - right. unfold writers, readers. cbn. rewrite !sum_of_replicate. cbn. unfold UNLOCKED. lia.
Qed.

(** ** Property *)

(** C20. Mutual exclusion: with fewer than 2^15 threads that unlock what they
    locked, in every interleaving of the atomic accesses the lock word counts
    the holders exactly ([is_unlock] tells whether there is none), a writer
    excludes every other writer and every reader, and the word never wraps. *)
Theorem wrlock_mutual_exclusion n s :
  Z.of_nat n < 2 ^ 15 → rtc lock_step (lock_init n) s →
  word_ok (word s) (writers s) (readers s) ∧ uint 16 (word s) ∧
  (word s = UNLOCKED ↔ writers s = 0 ∧ readers s = 0) ∧
  (∀ i j p, threads s !! i = Some Writing → threads s !! j = Some p →
            writes p = 1 ∨ reads p = 1 → i = j).
Proof.
  intros Hn Hr. assert (lock_inv s) as Hinv.
  { eapply rtc_invariant; [apply lock_inv_step|exact Hr|by apply lock_inv_init]. }
  pose proof Hinv as [Hlen _ Hw]. pose proof (readers_bound s). pose proof (writers_nonneg s).
  split; [done|]. split; [unfold uint; lock_crush|]. split; [lock_crush|].
  intros i j p Hi Hj Hp. destruct (decide (i = j)) as [|Hne]; [done|]. exfalso.
  destruct (holder_bounds _ _ _ Hi) as [Hwi _]. destruct (holder_bounds _ _ _ Hj) as [_ Hrj].
  pose proof (sum_of_insert writes (threads s) i Writing Idle Hi) as E. cbn in E.
  assert (<[i := Idle]> (threads s) !! j = Some p) as Hj' by (by rewrite list_lookup_insert_ne).
  destruct (holder_bounds (LS 0 (<[i := Idle]> (threads s))) _ _ Hj') as [Hwj _].
  unfold writers in *. cbn in *. rewrite E in Hwj. lock_crush.
Qed.

Lemma wrlock_mutual_exclusion_witness :
  rtc lock_step (lock_init 2) (LS 2 [Reading; TryWLoad]) ∧
  (word_ok 2 0 1 ∧ uint 16 2 ∧ (2 = UNLOCKED ↔ 0 = 0 ∧ 1 = 0) ∧
   (∀ i j p, [Reading; TryWLoad] !! i = Some Writing → [Reading; TryWLoad] !! j = Some p →
             writes p = 1 ∨ reads p = 1 → i = j)).
Proof.
  assert (rtc lock_step (lock_init 2) (LS 2 [Reading; TryWLoad])) as Hr.
  { eapply rtc_l; [apply (step_call (lock_init 2) 0 Idle RLoad); [done|constructor]|].
    eapply rtc_l; [apply (step_run _ 0 RLoad); done|].
    eapply rtc_l; [apply (step_run _ 0 (RCas 0)); done|].
    eapply rtc_l; [apply (step_call _ 1 Idle TryWLoad); [done|constructor]|].
    apply rtc_refl. }
  split; [exact Hr|].
  apply (wrlock_mutual_exclusion 2 (LS 2 [Reading; TryWLoad])); [done|exact Hr].
Defined.
