(* ===== verification/RdmaBuf.v ===== *)
(** * The buffers of a coroutine (include/RdmaBuffer.h)

    One registered region is cut into areas, and each area is handed out
    block by block in a circle. Addresses are integers. *)

From Stdlib Require Import ZArith Lia Bool.
From stdpp Require Import base tactics decidable option numbers list.
From S2P Require Import Prelude.
From S2P Require Import Common.

Definition kCasBufferCnt : Z := 256.
Definition kPageBufferCnt : Z := 256.
Definition kLeafBufferCnt : Z := 32.
Definition kHeaderBufferCnt : Z := 32.
Definition kEntryBufferCnt : Z := 32.

Record RdmaBuffer : Set := RB {
  buffer : Z;
  cas_buffer : Z; page_buffer : Z; leaf_buffer : Z; header_buffer : Z; entry_buffer : Z;
  range_buffer : Z; zero_byte : Z;
  cas_buffer_cur : Z; page_buffer_cur : Z; leaf_buffer_cur : Z;
  header_buffer_cur : Z; entry_buffer_cur : Z;
}.

(** [set_buffer]: the areas, the byte at [zero_byte] that becomes 0 (its
    address is the second result), and the assertion. *)
Definition set_buffer (b : RdmaBuffer) (buffer : Z) : res (RdmaBuffer * Z) :=
  let cas := buffer in
  let page := cas + 8 * kCasBufferCnt in
  let leaf := page + allocationPageSize * kPageBufferCnt in
  let header := leaf + allocAlignLeafSize * kLeafBufferCnt in
  let entry := header + 8 * kHeaderBufferCnt in
  let zero := entry + 8 * kEntryBufferCnt in
  let range := zero + 1 in
  check (wrap 64 (range - buffer) <? kPerCoroRdmaBuf) ;;
  Ok (RB buffer cas page leaf header entry range zero
        (cas_buffer_cur b) (page_buffer_cur b) (leaf_buffer_cur b)
        (header_buffer_cur b) (entry_buffer_cur b), zero).

(** [RdmaBuffer(char *buffer)] *)
Definition buffer_new (buffer : Z) : res (RdmaBuffer * Z) :=
  set_buffer (RB 0 0 0 0 0 0 0 0 0 0 0 0 0) buffer.

Definition with_curs (b : RdmaBuffer) (cas page leaf header entry : Z) : RdmaBuffer :=
  RB (buffer b) (cas_buffer b) (page_buffer b) (leaf_buffer b) (header_buffer b) (entry_buffer b)
     (range_buffer b) (zero_byte b) cas page leaf header entry.

Definition get_cas_buffer (b : RdmaBuffer) : Z * RdmaBuffer :=
  let cur := (cas_buffer_cur b + 1) `rem` kCasBufferCnt in
  (cas_buffer b + cur * 8,
   with_curs b cur (page_buffer_cur b) (leaf_buffer_cur b) (header_buffer_cur b) (entry_buffer_cur b)).

Definition get_page_buffer (b : RdmaBuffer) : Z * RdmaBuffer :=
  let cur := (page_buffer_cur b + 1) `rem` kPageBufferCnt in
  (page_buffer b + cur * allocationPageSize,
   with_curs b (cas_buffer_cur b) cur (leaf_buffer_cur b) (header_buffer_cur b) (entry_buffer_cur b)).

Definition get_leaf_buffer (b : RdmaBuffer) : Z * RdmaBuffer :=
  let cur := (leaf_buffer_cur b + 1) `rem` kLeafBufferCnt in
  (leaf_buffer b + cur * allocAlignLeafSize,
   with_curs b (cas_buffer_cur b) (page_buffer_cur b) cur (header_buffer_cur b) (entry_buffer_cur b)).

Definition get_header_buffer (b : RdmaBuffer) : Z * RdmaBuffer :=
  let cur := (header_buffer_cur b + 1) `rem` kHeaderBufferCnt in
  (header_buffer b + cur * 8,
   with_curs b (cas_buffer_cur b) (page_buffer_cur b) (leaf_buffer_cur b) cur (entry_buffer_cur b)).

Definition get_entry_buffer (b : RdmaBuffer) : Z * RdmaBuffer :=
  let cur := (entry_buffer_cur b + 1) `rem` kEntryBufferCnt in
  (entry_buffer b + cur * 8,
   with_curs b (cas_buffer_cur b) (page_buffer_cur b) (leaf_buffer_cur b) (header_buffer_cur b) cur).

Definition get_range_buffer (b : RdmaBuffer) : Z := range_buffer b.
Definition get_zero_byte (b : RdmaBuffer) : Z := zero_byte b.

(** ** A run of getters *)

(** The getters that advance a cursor. *)
Inductive area : Set := Cas | Page | LeafA | HeaderA | EntryA.

#[export] Instance area_eq_dec : EqDecision area.
Proof. solve_decision. Defined.

Definition get (k : area) : RdmaBuffer → Z * RdmaBuffer :=
  match k with
  | Cas => get_cas_buffer
  | Page => get_page_buffer
  | LeafA => get_leaf_buffer
  | HeaderA => get_header_buffer
  | EntryA => get_entry_buffer
  end.

(** The addresses a sequence of getters returns. *)
Fixpoint gets (ks : list area) (b : RdmaBuffer) : list Z :=
  match ks with
  | [] => []
  | k :: ks => let '(a, b') := get k b in a :: gets ks b'
  end.

Definition cnt (k : area) : Z :=
  match k with
  | Cas => kCasBufferCnt | Page => kPageBufferCnt | LeafA => kLeafBufferCnt
  | HeaderA => kHeaderBufferCnt | EntryA => kEntryBufferCnt
  end.
Definition sz (k : area) : Z :=
  match k with
  | Cas | HeaderA | EntryA => 8 | Page => allocationPageSize | LeafA => allocAlignLeafSize
  end.
Definition base_of (b : RdmaBuffer) (k : area) : Z :=
  match k with
  | Cas => cas_buffer b | Page => page_buffer b | LeafA => leaf_buffer b
  | HeaderA => header_buffer b | EntryA => entry_buffer b
  end.
Definition cur_of (b : RdmaBuffer) (k : area) : Z :=
  match k with
  | Cas => cas_buffer_cur b | Page => page_buffer_cur b | LeafA => leaf_buffer_cur b
  | HeaderA => header_buffer_cur b | EntryA => entry_buffer_cur b
  end.

Definition uses (k k' : area) : Z := if decide (k = k') then 1 else 0.

(** The layout [set_buffer] makes, with the cursors in range. *)
Definition buffer_ok (b : RdmaBuffer) : Prop :=
  cas_buffer b = buffer b ∧
  page_buffer b = cas_buffer b + cnt Cas * sz Cas ∧
  leaf_buffer b = page_buffer b + cnt Page * sz Page ∧
  header_buffer b = leaf_buffer b + cnt LeafA * sz LeafA ∧
  entry_buffer b = header_buffer b + cnt HeaderA * sz HeaderA ∧
  zero_byte b = entry_buffer b + cnt EntryA * sz EntryA ∧
  range_buffer b = zero_byte b + 1 ∧
  ∀ k, 0 <= cur_of b k < cnt k.

(** ** Lemmas *)

(** Linear arithmetic with the sizes evaluated. *)
Ltac buf_lia :=
  cbn [cnt sz base_of cur_of] in *;
  change allocAlignLeafSize with 256 in *; change allocationPageSize with 2064 in *;
  change kPerCoroRdmaBuf with 8259552 in *;
  unfold kCasBufferCnt, kPageBufferCnt, kLeafBufferCnt, kHeaderBufferCnt, kEntryBufferCnt in *; lia.

Lemma cnt_sz_pos k : 0 < cnt k ∧ 0 < sz k.
Proof. destruct k; buf_lia. Qed.

Lemma uses_nonneg q k : 0 <= uses q k.
Proof. unfold uses. case_decide; lia. Qed.

Lemma get_spec k b :
  buffer_ok b →
  (get k b).1 = base_of b k + (cur_of b k + 1) `mod` cnt k * sz k ∧
  buffer_ok (get k b).2 ∧
  (∀ k', base_of (get k b).2 k' = base_of b k') ∧
  (∀ k', cur_of (get k b).2 k' = (cur_of b k' + uses k k') `mod` cnt k').
Proof.
  intros (H1 & H2 & H3 & H4 & H5 & H6 & H7 & Hc).
  assert (∀ k', (cur_of b k' + 1) `rem` cnt k' = (cur_of b k' + 1) `mod` cnt k') as Hrem.
  { intros k'. pose proof (Hc k'). apply Z.rem_mod_nonneg; destruct (cnt_sz_pos k'); lia. }
  assert (∀ k', cur_of (get k b).2 k' = (cur_of b k' + uses k k') `mod` cnt k') as Hcur.
  { intros k'. unfold uses. case_decide as E.
    - subst k'. rewrite <-Hrem. by destruct k.
    - rewrite Z.add_0_r, Z.mod_small by apply Hc. by destruct k, k'. }
  split; [rewrite <-Hrem; by destruct k|]. split; [|split; [by destruct k|done]].
  unfold buffer_ok. repeat (split; [by destruct k|]). intros k'. rewrite Hcur.
  apply Z.mod_pos_bound, cnt_sz_pos.
Qed.

(** The address of each block of a run, from the uses before it. *)
Lemma gets_lookup ks b i k a :
  buffer_ok b → ks !! i = Some k → gets ks b !! i = Some a →
  a = base_of b k + (cur_of b k + sum_of (λ k', uses k' k) (take (S i) ks)) `mod` cnt k * sz k.
Proof.
  revert b i. induction ks as [|k0 ks IH]; intros b i Hok; [done|]. cbn [gets].
  destruct (get_spec k0 b Hok) as (Ha & Hok' & Hb & Hc).
  destruct (get k0 b) as [a0 b'] eqn:E. cbn in *. destruct i as [|i]; cbn; intros Hk Hi; simplify_eq.
  - unfold sum_of, uses. cbn. by rewrite decide_True.
  - rewrite (IH b' i Hok' Hk Hi), Hb, Hc. destruct (cnt_sz_pos k).
    rewrite Zplus_mod_idemp_l. unfold sum_of. cbn [foldr].
    fold (sum_of (λ k', uses k' k) (take (S i) ks)). do 3 f_equal. lia.
Qed.

Lemma length_gets ks b : length (gets ks b) = length ks.
Proof.
  revert b. induction ks as [|k ks IH]; intros b; cbn; [done|].
  destruct (get k b). cbn. by rewrite IH.
Qed.

Definition disjoint (a n a' n' : Z) : Prop := a + n <= a' ∨ a' + n' <= a.

(** Blocks of one area with different indices, and of different areas. *)
Lemma blocks_disjoint b k k' x y :
  buffer_ok b → 0 <= x < cnt k → 0 <= y < cnt k' → (k = k' → x ≠ y) →
  disjoint (base_of b k + x * sz k) (sz k) (base_of b k' + y * sz k') (sz k').
Proof.
  intros (H1 & H2 & H3 & H4 & H5 & H6 & H7 & _) Hx Hy Hne. unfold disjoint.
  destruct (decide (k = k')) as [<-|Hk].
  { specialize (Hne eq_refl). destruct (cnt_sz_pos k). nia. }
  destruct k, k'; try done; buf_lia.
Qed.

Lemma block_in_region b k x :
  buffer_ok b → 0 <= x < cnt k →
  buffer b <= base_of b k + x * sz k ∧ base_of b k + x * sz k + sz k <= zero_byte b.
Proof.
  intros (H1 & H2 & H3 & H4 & H5 & H6 & H7 & _) Hx.
  destruct k; buf_lia.
Qed.

Lemma buffer_new_ok a :
  ∃ b, buffer_new a = Ok (b, zero_byte b) ∧ buffer_ok b ∧ buffer b = a.
Proof.
  unfold buffer_new, set_buffer.
  assert ((wrap 64 (a + 8 * kCasBufferCnt + allocationPageSize * kPageBufferCnt +
    allocAlignLeafSize * kLeafBufferCnt + 8 * kHeaderBufferCnt + 8 * kEntryBufferCnt + 1 - a)
    <? kPerCoroRdmaBuf) = true) as ->.
  { replace (_ - a) with (8 * kCasBufferCnt + allocationPageSize * kPageBufferCnt +
      allocAlignLeafSize * kLeafBufferCnt + 8 * kHeaderBufferCnt + 8 * kEntryBufferCnt + 1) by lia.
    reflexivity. }
  cbn [check mbind res_bind].
  match goal with |- ∃ b, Ok (?x, _) = _ ∧ _ => exists x end. split; [reflexivity|]. cbn. split; [|done].
  unfold buffer_ok. cbn. do 7 (split; [buf_lia|]). intros []; cbn; buf_lia.
Qed.

(** ** Property *)

(** C30. The buffers never collide: the constructor's assertion holds for every
    base address; after it, in every sequence of getter calls each block lies
    inside the coroutine's region and below the zero byte, and two blocks
    overlap only if they come from the same area with a full turn of its
    cursor between them. *)
Theorem rdma_buffers_disjoint a :
  ∃ b, buffer_new a = Ok (b, zero_byte b) ∧
    zero_byte b < range_buffer b ∧ range_buffer b < a + kPerCoroRdmaBuf ∧
    ∀ ks i j k k' x y, (i < j)%nat →
      ks !! i = Some k → gets ks b !! i = Some x → ks !! j = Some k' → gets ks b !! j = Some y →
      a <= x ∧ x + sz k <= zero_byte b ∧
      (k = k' → sum_of (λ q, uses q k) (slice (S i) (j - i) ks) < cnt k →
       disjoint x (sz k) y (sz k')) ∧
      (k ≠ k' → disjoint x (sz k) y (sz k')).
Proof.
  destruct (buffer_new_ok a) as (b & E & Hok & Ha). exists b. split; [done|].
  pose proof Hok as (H1 & H2 & H3 & H4 & H5 & H6 & H7 & Hc).
  split; [lia|]. split; [buf_lia|].
  intros ks i j k k' x y Hij Hk Hx Hk' Hy.
  rewrite (gets_lookup ks b i k x Hok Hk Hx), (gets_lookup ks b j k' y Hok Hk' Hy).
  set (m := sum_of _ (take (S i) ks)). set (n := sum_of _ (take (S j) ks)).
  destruct (cnt_sz_pos k) as [Hp _], (cnt_sz_pos k') as [Hp' _].
  pose proof (Z.mod_pos_bound (cur_of b k + m) (cnt k) Hp) as Hm.
  pose proof (Z.mod_pos_bound (cur_of b k' + n) (cnt k') Hp') as Hn.
  destruct (block_in_region b k _ Hok Hm) as [Hlo Hhi]. rewrite Ha in Hlo.
  split; [done|]. split; [done|]. split; [|intros; by apply blocks_disjoint].
  intros <- Hless. apply blocks_disjoint; [done..|]. intros _ Heq.
  assert (n = m + sum_of (λ q, uses q k) (slice (S i) (j - i) ks)) as Hnm.
  { subst n m. rewrite <-sum_of_app. f_equal. unfold slice.
    replace (S j) with (S i + (j - i))%nat by lia. by rewrite take_take_drop. }
  assert (1 <= sum_of (λ q, uses q k) (slice (S i) (j - i) ks)) as Hge.
  { assert (slice (S i) (j - i) ks !! (j - i - 1)%nat = Some k) as Hl.
    { unfold slice. rewrite lookup_take, decide_True, lookup_drop by lia.
      by replace (S i + (j - i - 1))%nat with j by lia. }
    apply (sum_of_elem (λ q, uses q k)) in Hl; [|intros q; apply uses_nonneg].
    etransitivity; [|exact Hl]. unfold uses. by rewrite decide_True. }
  remember (sum_of _ (slice _ _ _)) as d. rewrite Hnm in Heq. clear -Heq Hless Hge Hp.
  assert (d `mod` cnt k = 0) as Hd.
  { replace d with ((cur_of b k + (m + d)) - (cur_of b k + m)) by lia.
    by rewrite Zminus_mod, <-Heq, Z.sub_diag, Z.mod_0_l by lia. }
  rewrite Z.mod_small in Hd by lia. lia.
Qed.
