(* ===== verification/Allocators.v ===== *)
(** * Memory allocation (include/LocalAllocator.h, include/CXLAllocator.h,
    include/GlobalAllocator.h, src/Directory.cpp, the allocation part of
    include/DSM.h)

    A memory node's directory hands out 16 MB chunks; each thread cuts its
    chunk into aligned blocks and keeps the blocks it frees. *)

From Stdlib Require Import ZArith Lia Bool.
From stdpp Require Import base tactics decidable option numbers list relations.
From S2P Require Import Prelude.
From S2P Require Import Common.
From S2P Require Import Address.

(** ** [LocalAllocator] *)
Record LocalAllocator : Set := LA {
  head : GlobalAddress; cur : GlobalAddress; free_list : list (GlobalAddress * Z)
}.

Definition local_new : LocalAllocator := LA gaddr_Null gaddr_Null [].

(** The search of the free list: the first block that is large enough, and
    the list without it. *)
Fixpoint take_free (l : list (GlobalAddress * Z)) (size : Z) :
    option (GlobalAddress * list (GlobalAddress * Z)) :=
  match l with
  | [] => None
  | e :: l => if size <=? e.2 then Some (e.1, l)
              else '(a, l') ← take_free l size; Some (a, e :: l')
  end.

(** [malloc]: the address, [need_chunck] and the new state. *)
Definition malloc (la : LocalAllocator) (size : Z) (align : bool) :
    GlobalAddress * bool * LocalAllocator :=
  let cur := if align then GA (nodeID (cur la)) (wrap 48 (ROUND_UP (offset (cur la)) ALLOC_ALLIGN_BIT))
             else cur la in
  if gaddr_eqb (head la) gaddr_Null
     || (wrap 64 (offset (head la) + kChunkSize) <? wrap 64 (offset cur + size)) then
    match take_free (free_list la) size with
    | Some (res, l) => (res, false, LA (head la) cur l)
    | None => (cur, true, LA (head la) cur (free_list la))
    end
  else (cur, false, LA (head la) (GADD cur size) (free_list la)).

Definition set_chunck (la : LocalAllocator) (addr : GlobalAddress) : LocalAllocator :=
  LA addr addr (free_list la).

Definition local_free (la : LocalAllocator) (addr : GlobalAddress) (size : Z) : LocalAllocator :=
  LA (head la) (cur la) (free_list la ++ [(addr, size)]).

(** ** [GlobalAllocator] *)
Record GlobalAllocator : Set := GAlloc {
  start : GlobalAddress; gsize : Z;
  bitmap : list bool; bitmap_len : Z; bitmap_tail : Z
}.

Definition global_new (start : GlobalAddress) (size : Z) : res GlobalAllocator :=
  let len := size / kChunkSize in
  defined (0 <? len) ;;
  Ok (GAlloc start size (<[0%nat := true]> (replicate (Z.to_nat len) false)) len 1).

(** [alloc_chunck]: when the tail has reached the end the map is cleared and
    the search starts over at chunk 1, and the address carries node id 2. *)
Definition alloc_chunck (g : GlobalAllocator) : res (GlobalAddress * GlobalAllocator) :=
  let wrapped := bitmap_len g <=? bitmap_tail g in
  let tail := if wrapped then 1 else bitmap_tail g in
  let bm := if wrapped then <[0%nat := true]> (replicate (Z.to_nat (bitmap_len g)) false)
            else bitmap g in
  let a := if wrapped then GA 2 (offset (start g)) else start g in
  used ← idx_ bm tail;
  if negb used then
    Ok (GADD a (wrap 64 (tail * kChunkSize)),
        GAlloc (start g) (gsize g) (<[Z.to_nat tail := true]> bm) (bitmap_len g) (tail + 1))
  else Ok (a, GAlloc (start g) (gsize g) bm (bitmap_len g) tail).

Definition free_chunk (g : GlobalAllocator) (addr : GlobalAddress) : res GlobalAllocator :=
  let i := wrap 64 (offset addr - offset (start g)) / kChunkSize in
  _ ← idx_ (bitmap g) i;
  Ok (GAlloc (start g) (gsize g) (<[Z.to_nat i := false]> (bitmap g)) (bitmap_len g) (bitmap_tail g)).

(** ** [Directory] *)
Inductive RpcType : Set := MALLOC | FREE | NEW_ROOT | NOP.

Record RawMessage : Set := RM {
  type : RpcType; node_id : Z; app_id : Z; addr : GlobalAddress; level : Z
}.

Record Directory : Set := Dir { chunckAlloc : GlobalAllocator; g_root_ptr : GlobalAddress; g_root_level : Z }.

(** The constructor: directory [dirID] owns its share of the node's memory. *)
Definition directory_new (dsm_size dirID nodeID : Z) : res Directory :=
  let per := dsm_size / NR_DIRECTORY in
  g ← global_new (mk_gaddr nodeID (per * dirID)) per;
  Ok (Dir g gaddr_Null (-1)).

(** [process_message]: the new state, and the reply sent back (the address,
    the node and the thread it goes to). *)
Definition process_message (d : Directory) (m : RawMessage) :
    res (Directory * option (GlobalAddress * Z * Z)) :=
  match type m with
  | MALLOC =>
    '(a, g) ← alloc_chunck (chunckAlloc d);
    Ok (Dir g (g_root_ptr d) (g_root_level d), Some (a, node_id m, app_id m))
  | NEW_ROOT =>
    Ok (if g_root_level d <? level m then Dir (chunckAlloc d) (addr m) (level m) else d, None)
  | FREE | NOP => Fail EAssert
  end.

(** [dirThread], on the control messages that arrive. *)
Fixpoint dirThread (d : Directory) (ms : list RawMessage) :
    res (Directory * list (GlobalAddress * Z * Z)) :=
  match ms with
  | [] => Ok (d, [])
  | m :: ms =>
    '(d1, r) ← process_message d m;
    '(d2, rs) ← dirThread d1 ms;
    Ok (d2, option_list r ++ rs)
  end.

(** ** [DSM::alloc], [DSM::alloc_nodes], [DSM::free] *)

(** The thread-local state of allocation. *)
Record alloc_thread : Set := AT {
  my_node : Z; my_thread : Z;
  local_allocators : list (list LocalAllocator);
  cur_target_node : Z; cur_target_dir_id : Z
}.

Definition thread_new (my_node my_thread : Z) : alloc_thread :=
  AT my_node my_thread
     (replicate (Z.to_nat MEMORY_NODE_NUM) (replicate (Z.to_nat NR_DIRECTORY) local_new))
     ((my_thread + my_node) `rem` MEMORY_NODE_NUM) ((my_thread + my_node) `rem` NR_DIRECTORY).

Definition get_local (t : alloc_thread) (n d : Z) : res LocalAllocator :=
  row ← idx_ (local_allocators t) n; idx_ row d.

Definition put_local (t : alloc_thread) (n d : Z) (la : LocalAllocator) : alloc_thread :=
  AT (my_node t) (my_thread t)
     (alter (λ row, <[Z.to_nat d := la]> row) (Z.to_nat n) (local_allocators t))
     (cur_target_node t) (cur_target_dir_id t).

(** The request of a chunk and the reply. *)
Definition rpc_malloc (t : alloc_thread) (d : Directory) : res (GlobalAddress * Directory) :=
  '(d', r) ← process_message d (RM MALLOC (my_node t) (my_thread t) gaddr_Null 0);
  match r with
  | Some (a, _, _) => Ok (a, d')
  | None => Fail EUndef
  end.

Definition next_target (t : alloc_thread) : alloc_thread :=
  let dir := cur_target_dir_id t + 1 in
  if dir =? NR_DIRECTORY then
    AT (my_node t) (my_thread t) (local_allocators t) ((cur_target_node t + 1) `rem` MEMORY_NODE_NUM) 0
  else AT (my_node t) (my_thread t) (local_allocators t) (cur_target_node t) dir.

(** [alloc]; [dirs] holds the directories of each memory node. *)
Definition alloc (t : alloc_thread) (dirs : list (list Directory)) (size : Z) (align : bool) :
    res (GlobalAddress * alloc_thread * list (list Directory)) :=
  let t := next_target t in
  let n := cur_target_node t in
  let i := cur_target_dir_id t in
  la ← get_local t n i;
  let '(a, need_chunk, la) := malloc la size align in
  if need_chunk then
    row ← idx_ dirs n;
    d ← idx_ row i;
    '(chunk, d') ← rpc_malloc t d;
    let '(a, _, la) := malloc (set_chunck la chunk) size align in
    Ok (a, put_local t n i la, <[Z.to_nat n := <[Z.to_nat i := d']> row]> dirs)
  else Ok (a, put_local t n i la, dirs).

Fixpoint alloc_nodes (node_num : nat) (t : alloc_thread) (dirs : list (list Directory)) (align : bool) :
    res (list GlobalAddress * alloc_thread * list (list Directory)) :=
  match node_num with
  | O => Ok ([], t, dirs)
  | S k =>
    '(a, t, dirs) ← alloc t dirs allocationPageSize align;
    '(l, t, dirs) ← alloc_nodes k t dirs align;
    Ok (a :: l, t, dirs)
  end.

Definition free (t : alloc_thread) (a : GlobalAddress) (size : Z) : res alloc_thread :=
  la ← get_local t (nodeID a) 0;
  Ok (put_local t (nodeID a) 0 (local_free la a size)).

(** ** Ownership

    A block occupies its size rounded up to the alignment. [cover x e] is 1
    when the block [e] occupies byte [x] of memory node 0, the only memory
    node of the default configuration. *)
Definition span (x o n : Z) : Z := if (o <=? x) && (x <? o + n) then 1 else 0.

Definition pad (n : Z) : Z := ROUND_UP n ALLOC_ALLIGN_BIT.

Definition cover (x : Z) (e : GlobalAddress * Z) : Z := span x (offset e.1) (pad e.2).

Definition cover_all (x : Z) (l : list (GlobalAddress * Z)) : Z := sum_of (cover x) l.

(** The rest of the chunk a thread cuts, from its rounded cursor, and its
    free blocks. *)
Definition la_cover (x : Z) (la : LocalAllocator) : Z :=
  (if gaddr_eqb (head la) gaddr_Null then 0
   else span x (pad (offset (cur la))) (offset (head la) + kChunkSize - pad (offset (cur la))))
  + cover_all x (free_list la).

Definition block_ok (e : GlobalAddress * Z) : Prop :=
  gaddr_ok e.1 ∧ nodeID e.1 = 0 ∧ (2 ^ ALLOC_ALLIGN_BIT | offset e.1) ∧ 0 <= e.2.

(** A chunk starts at a positive multiple of its size, inside the offsets. *)
Definition chunk_ok (a : GlobalAddress) : Prop :=
  nodeID a = 0 ∧ (kChunkSize | offset a) ∧ 0 < offset a ∧ offset a + kChunkSize < 2 ^ 48.

Definition la_ok (la : LocalAllocator) : Prop :=
  Forall block_ok (free_list la) ∧
  ((head la = gaddr_Null ∧ cur la = gaddr_Null) ∨
   (chunk_ok (head la) ∧ nodeID (cur la) = 0 ∧
    offset (head la) <= offset (cur la) <= offset (head la) + kChunkSize)).

Lemma span_range x o n : 0 <= span x o n <= 1.
Proof. unfold span. destruct (_ && _); lia. Qed.

Lemma cover_range x e : 0 <= cover x e <= 1.
Proof. apply span_range. Qed.

Lemma cover_all_nonneg x l : 0 <= cover_all x l.
Proof. apply sum_of_nonneg. intros e. apply cover_range. Qed.

Lemma la_cover_nonneg x la : 0 <= la_cover x la.
Proof.
  unfold la_cover. pose proof (cover_all_nonneg x (free_list la)).
  destruct (gaddr_eqb _ _); [lia|].
  pose proof (span_range x (pad (offset (cur la)))
    (offset (head la) + kChunkSize - pad (offset (cur la)))). lia.
Qed.

(** A span is the sum of a prefix and the rest. *)
Lemma span_split x o n m : 0 <= n <= m → span x o n + span x (o + n) (m - n) = span x o m.
Proof.
  intros. unfold span.
  destruct (Z.leb_spec o x), (Z.ltb_spec x (o + n)), (Z.leb_spec (o + n) x),
    (Z.ltb_spec x (o + n + (m - n))), (Z.ltb_spec x (o + m)); cbn; lia.
Qed.

Lemma span_mono x o n o' n' : o' <= o → o + n <= o' + n' → span x o n <= span x o' n'.
Proof.
  intros. unfold span.
  destruct (Z.leb_spec o x), (Z.ltb_spec x (o + n)),
    (Z.leb_spec o' x), (Z.ltb_spec x (o' + n')); cbn; lia.
Qed.

Lemma pad_spec n : (2 ^ ALLOC_ALLIGN_BIT | pad n) ∧ n <= pad n.
Proof. destruct (ROUND_UP_spec n ALLOC_ALLIGN_BIT) as [H1 H2]; [done|]. split; [done|]. unfold pad. lia. Qed.

Lemma pad_mono n m : n <= m → pad n <= pad m.
Proof.
  intros H. destruct (pad_spec m) as [H1 H2].
  apply ROUND_UP_least; [done|done|lia].
Qed.

Lemma pad_id n : (2 ^ ALLOC_ALLIGN_BIT | n) → pad n = n.
Proof. intros. by apply ROUND_UP_id. Qed.

Lemma pad_add o n : (2 ^ ALLOC_ALLIGN_BIT | o) → pad (o + n) = o + pad n.
Proof.
  intros Ho. destruct (pad_spec n) as [H1 H2], (pad_spec (o + n)) as [H3 H4]. apply Z.le_antisymm.
  - apply ROUND_UP_least; [done|by apply Z.divide_add_r|lia].
  - assert (pad n <= pad (o + n) - o); [|lia].
    apply ROUND_UP_least; [done|by apply Z.divide_sub_r|lia].
Qed.

Lemma pad_pad n m : n <= pad m → pad n <= pad m.
Proof. intros. apply ROUND_UP_least; [done|apply pad_spec|done]. Qed.

Lemma take_free_spec l size a l' :
  take_free l size = Some (a, l') → Forall block_ok l →
  Forall block_ok l' ∧ (∃ n, block_ok (a, n) ∧ size <= n) ∧
  ∀ x, cover x (a, size) + cover_all x l' <= cover_all x l.
Proof.
  revert l'. induction l as [|[b n] l IH]; intros l' H Hf; cbn in H; [done|].
  inversion Hf as [|?? Hb Hf']; subst. destruct (Z.leb_spec size n); simplify_eq.
  - split; [done|]. split; [by exists n|]. intros x. unfold cover_all, sum_of; cbn.
    fold (cover_all x l'). pose proof (span_mono x (offset a) (pad size) (offset a) (pad n)).
    pose proof (pad_mono size n). unfold cover in *; cbn [fst snd] in *. lia.
  - destruct (take_free l size) as [[a' l0]|] eqn:E; cbn in H; simplify_eq.
    destruct (IH l0 eq_refl Hf') as (H1 & H2 & H3). split; [by constructor|]. split; [done|].
    intros x. specialize (H3 x). unfold cover_all, sum_of in *; cbn. lia.
Qed.

Lemma chunk_align a : (kChunkSize | a) → (2 ^ ALLOC_ALLIGN_BIT | a).
Proof. intros H. etransitivity; [|exact H]. exists 65536. reflexivity. Qed.

Lemma round_up_mono_chunk o e :
  (2 ^ ALLOC_ALLIGN_BIT | e) → o <= e → ROUND_UP o ALLOC_ALLIGN_BIT <= e.
Proof. intros. apply ROUND_UP_least; [unfold ALLOC_ALLIGN_BIT; lia|done|done]. Qed.

(** The allocator after its cursor is rounded up. *)
Definition aligned (la : LocalAllocator) : LocalAllocator :=
  LA (head la) (GA (nodeID (cur la)) (wrap 48 (ROUND_UP (offset (cur la)) ALLOC_ALLIGN_BIT)))
     (free_list la).

Lemma aligned_ok la :
  la_ok la →
  la_ok (aligned la) ∧ (2 ^ ALLOC_ALLIGN_BIT | offset (cur (aligned la))) ∧
  ∀ x, la_cover x (aligned la) = la_cover x la.
Proof.
  intros [Hf [[E1 E2]|(Hh & Hn & Hr)]]; unfold aligned, la_cover; cbn [head cur free_list offset].
  - rewrite E1, E2. split; [split; [done|by left]|]. split; [by exists 0|]. done.
  - destruct (ROUND_UP_spec (offset (cur la)) ALLOC_ALLIGN_BIT) as [Hal Hge]; [done|].
    assert (ROUND_UP (offset (cur la)) ALLOC_ALLIGN_BIT <= offset (head la) + kChunkSize) as Hle.
    { destruct Hh as (_ & [q Hq] & _). apply round_up_mono_chunk; [|lia].
      apply chunk_align. exists (q + 1). lia. }
    remember (ROUND_UP (offset (cur la)) ALLOC_ALLIGN_BIT) as o.
    pose proof Hh as (_ & _ & H0 & Hlt).
    rewrite (wrap_small 48 o) by (unfold uint; lia).
    split; [split; [done|right; cbn; split; [done|]; split; [done|lia]]|]. split; [done|].
    intros x. rewrite (pad_id o) by done. unfold pad. by rewrite <-Heqo.
Qed.

Lemma malloc_free_path la size b l :
  la_ok la → take_free (free_list la) size = Some (b, l) → 0 < size →
  la_ok (LA (head la) (cur la) l) ∧ block_ok (b, size) ∧
  ∀ x, cover x (b, size) + la_cover x (LA (head la) (cur la) l) <= la_cover x la.
Proof.
  intros [Hf Hc] E Hs. destruct (take_free_spec _ _ _ _ E Hf) as (Hl & (n & Hb & Hn) & Hcov).
  split; [by split|]. split.
  - destruct Hb as (Hb1 & Hb2 & Hb3 & _). repeat (split; [done|]). cbn. lia.
  - intros x. specialize (Hcov x). unfold la_cover; cbn. lia.
Qed.

Lemma malloc_bump_path la size :
  la_ok la → chunk_ok (head la) → nodeID (cur la) = 0 → (2 ^ ALLOC_ALLIGN_BIT | offset (cur la)) →
  offset (head la) <= offset (cur la) → 0 < size →
  offset (cur la) + size <= offset (head la) + kChunkSize →
  la_ok (LA (head la) (GADD (cur la) size) (free_list la)) ∧ block_ok (cur la, size) ∧
  ∀ x, cover x (cur la, size) + la_cover x (LA (head la) (GADD (cur la) size) (free_list la))
       <= la_cover x la.
Proof.
  intros [Hf _] Hh Hn Hal Hge Hs Hle. pose proof Hh as (Hh0 & _ & Hhp & Hhl).
  destruct (cur la) as [n o] eqn:Ecur; cbn in *. subst n. unfold GADD, la_cover; cbn [nodeID offset head cur free_list].
  rewrite (wrap_small 48 (o + size)) by (unfold uint; lia).
  split; [split; [done|right; cbn; split; [done|]; split; [done|lia]]|]. split.
  - split; [split; [done|]|split; [done|]; split; [done|cbn; lia]]. cbn. unfold uint. lia.
  - intros x. rewrite Ecur. destruct (gaddr_eqb_spec (head la) gaddr_Null) as [E|]; [by rewrite E in Hhp|].
    unfold cover; cbn [fst snd offset]. rewrite pad_add, (pad_id o) by done.
    assert (o + pad size <= offset (head la) + kChunkSize) as Hp.
    { rewrite <-pad_add by done. apply ROUND_UP_least; [done| |done].
      destruct Hh as (_ & [q Hq] & _). apply chunk_align. exists (q + 1). lia. }
    destruct (pad_spec size) as [_ Hps].
    pose proof (span_split x o (pad size) (offset (head la) + kChunkSize - o) ltac:(lia)) as Hsp.
    replace (offset (head la) + kChunkSize - (o + pad size))
      with (offset (head la) + kChunkSize - o - pad size) by lia. lia.
Qed.

(** [malloc] hands out part of what the allocator owns and keeps the rest. *)
Lemma malloc_spec la size a need la' :
  la_ok la → 0 < size <= kChunkSize → malloc la size true = (a, need, la') →
  la_ok la' ∧ free_list la' = free_list la ∧ need = true ∧ (∀ x, la_cover x la' <= la_cover x la) ∨
  la_ok la' ∧ need = false ∧ block_ok (a, size) ∧
  ∀ x, cover x (a, size) + la_cover x la' <= la_cover x la.
Proof.
  intros Hok Hsz. destruct (aligned_ok la Hok) as (Hok1 & Hal & Hc1).
  unfold malloc. cbn zeta iota.
  change (free_list la) with (free_list (aligned la)). change (head la) with (head (aligned la)).
  change (GA (nodeID (cur la)) _) with (cur (aligned la)).
  remember (aligned la) as la1. clear Heqla1.
  assert (∀ x, la_cover x la1 <= la_cover x la) as Hle1 by (intros; by rewrite Hc1).
  assert ((∃ b l, take_free (free_list la1) size = Some (b, l) ∧
      (a, need, la') = (b, false, LA (head la1) (cur la1) l)) ∨
      (a, need, la') = (cur la1, true, la1) → la_ok la' ∧ free_list la' = free_list la1 ∧ need = true ∧
      (∀ x, la_cover x la' <= la_cover x la) ∨ la_ok la' ∧ need = false ∧ block_ok (a, size) ∧
      ∀ x, cover x (a, size) + la_cover x la' <= la_cover x la) as Hslow.
  { intros [(b & l & E & ?)|?]; simplify_eq; [right|by left].
    destruct (malloc_free_path la1 size b l Hok1 E ltac:(lia)) as (H1 & H2 & H3).
    repeat (split; [done|]). intros x. specialize (H3 x). rewrite <-Hc1. lia. }
  destruct (gaddr_eqb_spec (head la1) gaddr_Null) as [Hnull|Hnn]; cbn [orb].
  { destruct (take_free (free_list la1) size) as [[b l]|] eqn:E; intros H; apply Hslow; [left; by eauto|].
    right. rewrite <-H. by destruct la1. }
  destruct (proj2 Hok1) as [[]|(Hh & Hn & Hr)]; [done|]. pose proof Hh as (_ & _ & Hhp & Hhl).
  rewrite !wrap_small by (unfold uint; unfold kChunkSize, MB in *; lia).
  destruct (Z.ltb_spec (offset (head la1) + kChunkSize) (offset (cur la1) + size)).
  { destruct (take_free (free_list la1) size) as [[b l]|] eqn:E; intros H'; apply Hslow; [left; by eauto|].
    right. rewrite <-H'. by destruct la1. }
  intros ?; simplify_eq. right.
  destruct (malloc_bump_path la1 size) as (H1 & H2 & H3); [done|done|done|done|lia..|].
  split; [done|]. split; [done|]. split; [done|]. intros x. specialize (H3 x). rewrite <-Hc1. lia.
Qed.

(** ** The heap: one directory and the threads that allocate from it *)

(** The directory of node 0 before its chunks run out. *)
Definition global_ok (g : GlobalAllocator) : Prop :=
  start g = GA 0 0 ∧ Z.of_nat (length (bitmap g)) = bitmap_len g ∧
  1 <= bitmap_tail g ∧ bitmap_len g * kChunkSize < 2 ^ 48 ∧
  ∀ i, bitmap_tail g <= i < bitmap_len g → bitmap g !! Z.to_nat i = Some false.

Lemma global_new_ok size :
  kChunkSize <= size < 2 ^ 48 →
  ∃ g, global_new (GA 0 0) size = Ok g ∧ global_ok g ∧ bitmap_len g = size / kChunkSize ∧
       bitmap_tail g = 1.
Proof.
  intros [Hlo Hhi]. unfold global_new. cbn zeta.
  assert (kChunkSize = 16777216) as HC by reflexivity. rewrite HC in *.
  pose proof (Z.div_mod size 16777216 ltac:(lia)) as Hd.
  pose proof (Z.mod_pos_bound size 16777216 ltac:(lia)) as Hm.
  remember (size / 16777216) as len. destruct (Z.ltb_spec 0 len); [|lia].
  cbn [defined mbind res_bind]. eexists. split; [done|]. split; [|done].
  split; [done|]. cbn. rewrite HC. split; [rewrite length_insert, length_replicate; lia|].
  split; [lia|]. split; [lia|]. intros i Hi.
  rewrite list_lookup_insert_ne by lia. apply lookup_replicate_2. lia.
Qed.

Lemma alloc_chunck_spec g :
  global_ok g → bitmap_tail g < bitmap_len g →
  ∃ g', alloc_chunck g = Ok (GA 0 (bitmap_tail g * kChunkSize), g') ∧ global_ok g' ∧
        bitmap_tail g' = bitmap_tail g + 1 ∧ bitmap_len g' = bitmap_len g ∧
        chunk_ok (GA 0 (bitmap_tail g * kChunkSize)).
Proof.
  intros (Hs & Hl & Ht & Hlen & Hb) Hlt. unfold alloc_chunck.
  destruct (Z.leb_spec (bitmap_len g) (bitmap_tail g)); [lia|].
  pose proof (Hb (bitmap_tail g) ltac:(lia)) as Hbit.
  assert (idx_ (bitmap g) (bitmap_tail g) = Ok false) as -> by (apply idx_Ok; split; [lia|done]).
  cbn [mbind res_bind negb]. rewrite Hs. unfold GADD; cbn [nodeID offset].
  assert (kChunkSize = 16777216) as HC by reflexivity. rewrite HC in *.
  rewrite (wrap_small 64), Z.add_0_l, (wrap_small 48) by (unfold uint; lia).
  eexists. split; [done|]. split; [|split; [done|split; [done|]]].
  - split; [done|]. cbn. rewrite length_insert, HC. split; [done|]. split; [lia|]. split; [done|].
    intros i Hi. rewrite list_lookup_insert_ne by lia. apply Hb. lia.
  - unfold chunk_ok; cbn. rewrite HC. split; [done|]. split; [by exists (bitmap_tail g)|lia].
Qed.

(** A thread of the default configuration has one local allocator. *)
Definition thread_ok (t : alloc_thread) : Prop :=
  ∃ la, local_allocators t = [[la]] ∧ la_ok la ∧ cur_target_node t = 0 ∧ cur_target_dir_id t = 0.

Definition thread_cover (x : Z) (t : alloc_thread) : Z :=
  sum_of (λ row, sum_of (la_cover x) row) (local_allocators t).

Record heap : Set := Heap {
  hdir : Directory; hthreads : list alloc_thread; live : list (GlobalAddress * Z)
}.

(** Some thread allocates or frees a block; [live] records the blocks handed
    out and not yet freed. A block may be given back in part, or with its padding
    (as [Tree] does with [allocAlignPageSize]). *)
Inductive heap_step : heap → heap → Prop :=
  | step_alloc h i t size a t' d' :
      hthreads h !! i = Some t → 0 < size <= kChunkSize →
      bitmap_tail (chunckAlloc (hdir h)) < bitmap_len (chunckAlloc (hdir h)) →
      alloc t [[hdir h]] size true = Ok (a, t', [[d']]) →
      heap_step h (Heap d' (<[i := t']> (hthreads h)) ((a, size) :: live h))
  | step_free h i t k a n size t' :
      hthreads h !! i = Some t → live h !! k = Some (a, n) → 0 <= size <= pad n →
      free t a size = Ok t' →
      heap_step h (Heap (hdir h) (<[i := t']> (hthreads h)) (delete k (live h))).

Definition owned (x : Z) (h : heap) : Z :=
  sum_of (thread_cover x) (hthreads h) + cover_all x (live h).

Record heap_inv (h : heap) : Prop := {
  heap_dir : global_ok (chunckAlloc (hdir h));
  heap_tail : bitmap_tail (chunckAlloc (hdir h)) <= bitmap_len (chunckAlloc (hdir h));
  heap_threads : Forall thread_ok (hthreads h);
  heap_live : Forall block_ok (live h);
  heap_owned : ∀ x, owned x h <=
    if (kChunkSize <=? x) && (x <? bitmap_tail (chunckAlloc (hdir h)) * kChunkSize) then 1 else 0;
}.

Lemma thread_la_cover x t la :
  local_allocators t = [[la]] → thread_cover x t = la_cover x la.
Proof. intros E. unfold thread_cover. rewrite E. unfold sum_of. cbn. lia. Qed.

Lemma put_local_ok t la la' :
  local_allocators t = [[la]] → cur_target_node t = 0 → cur_target_dir_id t = 0 → la_ok la' →
  thread_ok (put_local t 0 0 la') ∧ ∀ x, thread_cover x (put_local t 0 0 la') = la_cover x la'.
Proof.
  intros E Hn Hd Hla. unfold put_local. rewrite E.
  split; [by exists la'|]. intros x. by apply thread_la_cover.
Qed.

Lemma cover_part x a n m : n <= pad m → cover x (a, n) <= cover x (a, m).
Proof. intros H. apply span_mono; cbn; [lia|]. pose proof (pad_pad n m H). lia. Qed.

Lemma cover_chunk x o : cover x (GA 0 o, kChunkSize) = span x o kChunkSize.
Proof. done. Qed.

Lemma next_target_ok t :
  cur_target_node t = 0 → cur_target_dir_id t = 0 → next_target t = t.
Proof. destruct t; cbn. intros -> ->. done. Qed.

(** Taking a chunk adds its bytes and forgets what was left of the last one. *)
Lemma set_chunck_cover x la a :
  la_cover x (set_chunck la a) <= cover x (a, kChunkSize) + la_cover x la.
Proof.
  unfold la_cover, set_chunck; cbn [head cur free_list].
  pose proof (span_range x (pad (offset (cur la))) (offset (head la) + kChunkSize - pad (offset (cur la)))).
  pose proof (cover_range x (a, kChunkSize)).
  destruct (pad_spec (offset a)) as [_ Ha].
  assert (span x (pad (offset a)) (offset a + kChunkSize - pad (offset a)) <= cover x (a, kChunkSize)).
  { apply span_mono; cbn [fst snd]; [lia|]. change (pad kChunkSize) with kChunkSize. lia. }
  destruct (gaddr_eqb a _), (gaddr_eqb (head la) _); lia.
Qed.

Lemma malloc_fresh la a size :
  la_ok la → chunk_ok a → 0 < size <= kChunkSize →
  ∃ la', malloc (set_chunck la a) size true = (a, false, la').
Proof.
  intros _ Ha Hsz. pose proof Ha as (Hn & [q Hq] & H0 & Hlt). destruct a as [n o]; cbn in *. subst n.
  unfold malloc, set_chunck; cbn [head cur offset nodeID free_list].
  rewrite ROUND_UP_id by (done || apply chunk_align; by exists q).
  rewrite (wrap_small 48 o) by (unfold uint, kChunkSize, MB in *; lia).
  rewrite !wrap_small by (unfold uint, kChunkSize, MB in *; lia).
  destruct (gaddr_eqb_spec (GA 0 o) gaddr_Null) as [E|]; [injection E as ->; cbv in H0; done|].
  destruct (Z.ltb_spec (o + kChunkSize) (o + size)); [lia|]. cbn [orb]. by eexists.
Qed.

(** How many blocks of at most [block_max] bytes are left for certain: in the
    chunk a thread cuts, and in the chunks of the directory. *)
Definition block_max : Z := pad allocationPageSize.

Definition la_blocks (la : LocalAllocator) : Z :=
  if gaddr_eqb (head la) gaddr_Null then 0
  else (offset (head la) + kChunkSize - pad (offset (cur la))) / block_max.

Definition thread_blocks (t : alloc_thread) : Z :=
  match local_allocators t with [[la]] => la_blocks la | _ => 0 end.

Definition heap_blocks (t : alloc_thread) (d : Directory) : Z :=
  thread_blocks t + (bitmap_len (chunckAlloc d) - bitmap_tail (chunckAlloc d)) * (kChunkSize / block_max).

Lemma aligned_blocks la : la_ok la → la_blocks (aligned la) = la_blocks la.
Proof.
  intros Hok. unfold la_blocks. change (head (aligned la)) with (head la).
  destruct (gaddr_eqb_spec (head la) gaddr_Null); [done|].
  destruct (proj2 Hok) as [[]|(Hh & _ & Hr)]; [done|]. cbn [aligned cur offset].
  destruct (ROUND_UP_spec (offset (cur la)) ALLOC_ALLIGN_BIT) as [Hal Hge]; [done|].
  destruct Hh as (_ & [q Hq] & H0 & Hlt).
  pose proof (round_up_mono_chunk (offset (cur la)) (offset (head la) + kChunkSize)
    ltac:(apply chunk_align; exists (q + 1); lia) ltac:(lia)).
  rewrite wrap_small by (unfold uint; lia). rewrite pad_id by done. done.
Qed.

Lemma thread_blocks_range t : thread_ok t → 0 <= thread_blocks t <= kChunkSize / block_max.
Proof.
  intros (la & E & Hla & _). unfold thread_blocks. rewrite E, <- (aligned_blocks la Hla).
  destruct (aligned_ok la Hla) as (Hok & Hal & _). unfold la_blocks. change block_max with 2304.
  destruct (gaddr_eqb_spec (head (aligned la)) gaddr_Null); [by vm_compute|].
  destruct (proj2 Hok) as [[]|(_ & _ & Hr)]; [done|]. rewrite (pad_id _ Hal).
  split; [apply Z.div_pos; lia|apply Z.div_le_mono; lia].
Qed.

(** [malloc] asks for a chunk only when no whole block is left, and uses up at
    most one. *)
Lemma malloc_blocks la size a need la' :
  la_ok la → 0 < size <= block_max → malloc la size true = (a, need, la') →
  la_blocks la - 1 <= la_blocks la' ∧ (need = true → la_blocks la <= 0).
Proof.
  intros Hok Hsz. destruct (aligned_ok la Hok) as (Hok1 & Hal & _). rewrite <-(aligned_blocks la Hok).
  unfold malloc. cbn zeta iota.
  change (free_list la) with (free_list (aligned la)). change (head la) with (head (aligned la)).
  change (GA (nodeID (cur la)) _) with (cur (aligned la)).
  remember (aligned la) as la1. clear Heqla1 Hok la. change block_max with 2304 in *. unfold la_blocks. change block_max with 2304.
  assert (∀ c l, la_blocks (LA (head la1) c l) = if gaddr_eqb (head la1) gaddr_Null then 0
            else (offset (head la1) + kChunkSize - pad (offset c)) / 2304) as Hb by done. unfold la_blocks in Hb.
  change block_max with 2304 in Hb.
  destruct (gaddr_eqb_spec (head la1) gaddr_Null) as [Hnull|Hnn]; cbn [orb].
  { destruct (take_free _ _) as [[b l]|]; intros ?; simplify_eq; rewrite Hb; lia. }
  destruct (proj2 Hok1) as [[]|(Hh & _ & Hr)]; [done|]. pose proof Hh as (_ & _ & Hhp & Hhl).
  rewrite !wrap_small by (unfold uint; unfold kChunkSize, MB in *; lia).
  rewrite (pad_id (offset (cur la1))) by done.
  pose proof (Z.div_mod (offset (head la1) + kChunkSize - offset (cur la1)) 2304 ltac:(lia)).
  pose proof (Z.mod_pos_bound (offset (head la1) + kChunkSize - offset (cur la1)) 2304 ltac:(lia)).
  destruct (Z.ltb_spec (offset (head la1) + kChunkSize) (offset (cur la1) + size)).
  { destruct (take_free _ _) as [[b l]|]; intros ?; simplify_eq; rewrite Hb, pad_id by done; lia. }
  intros ?; simplify_eq. rewrite Hb. split; [|done]. unfold GADD. cbn [offset].
  rewrite wrap_small by (unfold uint; unfold kChunkSize, MB in *; lia). rewrite pad_add by done.
  assert (pad size <= 2304) as Hp by (change 2304 with (pad 2304); apply pad_mono; lia).
  pose proof (Z.div_mod (offset (head la1) + kChunkSize - (offset (cur la1) + pad size)) 2304 ltac:(lia)).
  pose proof (Z.mod_pos_bound (offset (head la1) + kChunkSize - (offset (cur la1) + pad size)) 2304 ltac:(lia)). lia.
Qed.

Lemma fresh_blocks la c : chunk_ok c → la_blocks (set_chunck la c) = kChunkSize / block_max.
Proof.
  intros (_ & Hal & H0 & _). unfold la_blocks, set_chunck. cbn [head cur].
  destruct (gaddr_eqb_spec c gaddr_Null) as [->|]; [by vm_compute in H0|].
  rewrite pad_id by by apply chunk_align. f_equal. lia.
Qed.

(** [alloc] returns, while a chunk is left or none is needed. *)
Lemma alloc_spec t d size :
  thread_ok t → global_ok (chunckAlloc d) → 0 < size <= kChunkSize →
  bitmap_tail (chunckAlloc d) <= bitmap_len (chunckAlloc d) →
  bitmap_tail (chunckAlloc d) < bitmap_len (chunckAlloc d) ∨ size <= block_max ∧ 0 < heap_blocks t d →
  ∃ a t' d', alloc t [[d]] size true = Ok (a, t', [[d']]) ∧ thread_ok t' ∧ block_ok (a, size) ∧
    global_ok (chunckAlloc d') ∧ bitmap_len (chunckAlloc d') = bitmap_len (chunckAlloc d) ∧
    bitmap_tail (chunckAlloc d') <= bitmap_len (chunckAlloc d) ∧
    (size <= block_max → heap_blocks t d - 1 <= heap_blocks t' d') ∧
    ((bitmap_tail (chunckAlloc d') = bitmap_tail (chunckAlloc d) ∧
      ∀ x, cover x (a, size) + thread_cover x t' <= thread_cover x t) ∨
     (bitmap_tail (chunckAlloc d') = bitmap_tail (chunckAlloc d) + 1 ∧
      ∀ x, cover x (a, size) + thread_cover x t' <=
           cover x (GA 0 (bitmap_tail (chunckAlloc d) * kChunkSize), kChunkSize) + thread_cover x t)).
Proof.
  intros (la & E & Hla & Hn & Hd) Hg Hsz Hle Hleft. unfold alloc, get_local.
  rewrite next_target_ok, Hn, Hd, E by done. do 4 (rewrite idx_0; cbn [mbind res_bind]).
  assert (∀ la', thread_blocks (put_local t 0 0 la') = la_blocks la') as Hput.
  { intros la'. unfold thread_blocks, put_local. by rewrite E. }
  assert (heap_blocks t d = la_blocks la + (bitmap_len (chunckAlloc d) - bitmap_tail (chunckAlloc d)) * (kChunkSize / block_max))
    as Hhb by (unfold heap_blocks, thread_blocks; by rewrite E).
  rewrite Hhb in *.
  destruct (malloc la size true) as [[a need] la1] eqn:Em.
  destruct (malloc_spec _ _ _ _ _ Hla Hsz Em) as [(Hok1 & Hfl & -> & Hcov)|(Hok1 & -> & Hb & Hcov)].
  - assert (bitmap_tail (chunckAlloc d) < bitmap_len (chunckAlloc d)) as Htail.
    { destruct Hleft as [|[Hmax Hpos]]; [done|].
      destruct (malloc_blocks _ _ _ _ _ Hla (conj (proj1 Hsz) Hmax) Em) as [_ H0].
      specialize (H0 eq_refl). change (kChunkSize / block_max) with 7281 in *. lia. }
    destruct (alloc_chunck_spec _ Hg Htail) as (g' & Ea & Hg' & Ht' & Hl' & Hch).
    unfold rpc_malloc, process_message. cbn [type]. rewrite Ea. cbn [mbind res_bind].
    set (c := GA 0 (bitmap_tail (chunckAlloc d) * kChunkSize)) in *.
    destruct (malloc_fresh la1 c size Hok1 Hch Hsz) as [la2 E2]. rewrite E2.
    assert (la_ok (set_chunck la1 c)) as Hsc.
    { split; [apply Hok1|]. right. split; [done|]. split; [apply Hch|cbn; unfold kChunkSize, MB; lia]. }
    destruct (malloc_spec _ _ _ _ _ Hsc Hsz E2) as [(_ & _ & ? & _)|(Hok2 & _ & Hb & Hcov2)]; [done|].
    destruct (put_local_ok t la la2 E Hn Hd Hok2) as [Ht Hpc].
    eexists _, _, _. split; [done|]. split; [done|]. split; [done|]. split; [done|]. split; [done|].
    cbn [chunckAlloc]. split; [lia|]. split.
    { intros Hmax. unfold heap_blocks. rewrite Hput. cbn [chunckAlloc]. rewrite Ht', Hl'.
      destruct (malloc_blocks _ _ _ _ _ Hsc (conj (proj1 Hsz) Hmax) E2) as [Hb2 _].
      rewrite (fresh_blocks la1 c Hch) in Hb2.
      destruct (malloc_blocks _ _ _ _ _ Hla (conj (proj1 Hsz) Hmax) Em) as [_ H0].
      specialize (H0 eq_refl). change (kChunkSize / block_max) with 7281 in *. lia. }
    right. split; [done|]. intros x. rewrite Hpc, (thread_la_cover x t la E).
    specialize (Hcov x). specialize (Hcov2 x). pose proof (set_chunck_cover x la1 c). lia.
  - destruct (put_local_ok t la la1 E Hn Hd Hok1) as [Ht Hpc].
    eexists _, _, _. split; [done|]. split; [done|]. split; [done|]. split; [done|]. split; [done|]. split; [done|]. split.
    { intros Hmax. unfold heap_blocks. rewrite Hput.
      destruct (malloc_blocks _ _ _ _ _ Hla (conj (proj1 Hsz) Hmax) Em) as [Hb2 _]. lia. }
    left. split; [done|]. intros x. rewrite Hpc, (thread_la_cover x t la E). apply Hcov.
Qed.

(** What an allocation leaves of the heap. *)
Lemma heap_inv_alloc h i t size :
  heap_inv h → hthreads h !! i = Some t → 0 < size <= kChunkSize →
  bitmap_tail (chunckAlloc (hdir h)) < bitmap_len (chunckAlloc (hdir h)) ∨ size <= block_max ∧ 0 < heap_blocks t (hdir h) →
  ∃ a t' d', alloc t [[hdir h]] size true = Ok (a, t', [[d']]) ∧
    heap_inv (Heap d' (<[i := t']> (hthreads h)) ((a, size) :: live h)) ∧
    (size <= block_max → heap_blocks t (hdir h) - 1 <= heap_blocks t' d').
Proof.
  intros [Hd Ht Hth Hlv Ho] Hi Hsz Hleft. pose proof (Forall_lookup_1 _ _ _ _ Hth Hi) as Hok.
  destruct (alloc_spec t (hdir h) size Hok Hd Hsz Ht Hleft) as (a & t' & d' & E & Hok' & Hb & Hd' & Hl & Hle & Hbl & Hc).
  exists a, t', d'. split; [done|]. split; [|done]. split; cbn; [done|lia|by apply Forall_insert|by constructor|].
  intros x. specialize (Ho x). unfold owned in *. cbn.
  rewrite (sum_of_insert (thread_cover x) _ _ _ _ Hi). unfold cover_all in *.
  change (sum_of (cover x) ((a, size) :: live h)) with (cover x (a, size) + sum_of (cover x) (live h)).
  destruct Hc as [[-> Hc]|[-> Hc]]; specialize (Hc x); [lia|].
  revert Ho Hc. generalize (cover x (a, size)). intros ca.
  rewrite cover_chunk. unfold span.
  destruct Hd as (_ & _ & H1 & _). unfold kChunkSize, MB in *. revert H1.
  generalize (bitmap_tail (chunckAlloc (hdir h))). intros T H1 Ho Hc.
  destruct (Z.leb_spec (16 * (1024 * 1024)) x),
    (Z.ltb_spec x ((T + 1) * (16 * (1024 * 1024)))), (Z.ltb_spec x (T * (16 * (1024 * 1024)))),
    (Z.leb_spec (T * (16 * (1024 * 1024))) x),
    (Z.ltb_spec x (T * (16 * (1024 * 1024)) + 16 * (1024 * 1024))); cbn in *; lia.
Qed.

(** ** Properties *)

Lemma heap_inv_step h h' : heap_inv h → heap_step h h' → heap_inv h'.
Proof.
  intros Hinv Hs. destruct Hs as [h i t size a t' d' Hi Hsz Htail E|h i t k a n size t' Hi Hk Hsz E].
  - destruct (heap_inv_alloc h i t size Hinv Hi Hsz (or_introl Htail)) as (a0 & t0 & d0 & E0 & Hinv' & _).
    rewrite E0 in E. by simplify_eq.
  - destruct Hinv as [Hd Ht Hth Hlv Ho].
    pose proof (Forall_lookup_1 _ _ _ _ Hth Hi) as (la & El & Hla & Hn & Hdd).
    pose proof (Forall_lookup_1 _ _ _ _ Hlv Hk) as Hb. pose proof Hb as (Hb1 & Hb2 & Hb3 & Hb4). cbn in *.
    unfold free, get_local in E. rewrite Hb2, El in E. do 2 (rewrite idx_0 in E; cbn [mbind res_bind] in E). simplify_eq.
    assert (la_ok (local_free la a size)) as Hla'.
    { split; [|apply Hla]. cbn. apply Forall_app. split; [apply Hla|]. constructor; [|done].
      split; [done|]. split; [done|]. split; [done|cbn; lia]. }
    destruct (put_local_ok t la _ El Hn Hdd Hla') as [Hok' Hc].
    split; cbn; [done|done|by apply Forall_insert|by apply Forall_delete|].
    intros x. specialize (Ho x). unfold owned in *. cbn.
    rewrite (sum_of_insert (thread_cover x) _ _ _ _ Hi), Hc, (thread_la_cover x t la El).
    unfold cover_all in *. rewrite (sum_of_delete (cover x) _ _ _ Hk).
    pose proof (cover_part x a size n ltac:(lia)).
    unfold la_cover, local_free, cover_all in *; cbn [head cur free_list] in *. rewrite sum_of_app.
    change (sum_of (cover x) [(a, size)]) with (cover x (a, size) + 0). lia.
Qed.

Lemma thread_new_ok n i : 0 <= n → 0 <= i → thread_ok (thread_new n i).
Proof.
  intros Hn Hi. exists local_new. split; [done|]. split; [split; [constructor|by left]|].
  cbn. unfold MEMORY_NODE_NUM, NR_DIRECTORY. split; apply Z.rem_1_r.
Qed.

(** The heap of a fresh directory and [n] fresh threads of node [m]. *)
Definition heap_init (d : Directory) (m : Z) (n : nat) : heap :=
  Heap d ((λ i, thread_new m (Z.of_nat i)) <$> seq 0 n) [].

Lemma heap_inv_init size m n d :
  kChunkSize <= size < 2 ^ 48 → 0 <= m → directory_new size 0 0 = Ok d → heap_inv (heap_init d m n).
Proof.
  intros Hs Hm E. unfold directory_new in E. unfold NR_DIRECTORY in E.
  rewrite Z.div_1_r, Z.mul_0_r in E. change (mk_gaddr 0 0) with (GA 0 0) in E.
  destruct (global_new_ok size Hs) as (g & Eg & Hg & Hl & Ht). rewrite Eg in E. cbn in E. simplify_eq.
  split; cbn; [done| |apply Forall_fmap, Forall_true|constructor|].
  - rewrite Ht, Hl. apply Z.div_le_lower_bound; [done|lia].
  - intros i. apply thread_new_ok; lia.
  - intros x. unfold owned, heap_init; cbn. unfold cover_all. change (sum_of (cover x) []) with 0.
    assert (sum_of (thread_cover x) ((λ i, thread_new m (Z.of_nat i)) <$> seq 0 n) = 0) as ->.
    { generalize (seq 0 n). intros l. induction l as [|i l IH]; [done|]. cbn.
      unfold sum_of in *. cbn. rewrite IH. done. }
    destruct (_ && _); lia.
Qed.

Lemma heap_inv_reachable size m n d h :
  kChunkSize <= size < 2 ^ 48 → 0 <= m → directory_new size 0 0 = Ok d →
  rtc heap_step (heap_init d m n) h → heap_inv h.
Proof.
  intros Hs Hm E Hr. eapply rtc_invariant; [apply heap_inv_step|exact Hr|by eapply heap_inv_init].
Qed.

Lemma heap_live_cover h x :
  heap_inv h →
  cover_all x (live h) <=
  if (kChunkSize <=? x) && (x <? bitmap_tail (chunckAlloc (hdir h)) * kChunkSize) then 1 else 0.
Proof.
  intros [_ _ _ _ Ho]. specialize (Ho x). unfold owned in Ho.
  assert (0 <= sum_of (thread_cover x) (hthreads h)); [|lia].
  apply sum_of_nonneg. intros t. apply sum_of_nonneg. intros row. apply sum_of_nonneg.
  apply la_cover_nonneg.
Qed.

Lemma cover_inside x a n : offset a <= x < offset a + pad n → cover x (a, n) = 1.
Proof.
  intros Hx. unfold cover, span; cbn.
  destruct (Z.leb_spec (offset a) x), (Z.ltb_spec x (offset a + pad n)); lia || done.
Qed.

Lemma heap_live_disjoint h i j a p b q :
  heap_inv h → live h !! i = Some (a, p) → live h !! j = Some (b, q) → i ≠ j → 0 < p → 0 < q →
  offset a + pad p <= offset b ∨ offset b + pad q <= offset a.
Proof.
  intros Hinv Hi Hj Hne Hp Hq. pose proof (λ x, heap_live_cover h x Hinv) as Hc. unfold cover_all in Hc.
  assert (∀ x (e : GlobalAddress * Z), 0 <= cover x e) as Hnn by (intros; apply cover_range).
  destruct (pad_spec p) as [_ Hpp], (pad_spec q) as [_ Hqq].
  destruct (Z.le_gt_cases (offset a + pad p) (offset b)); [by left|].
  destruct (Z.le_gt_cases (offset b + pad q) (offset a)); [by right|]. exfalso.
  specialize (Hc (Z.max (offset a) (offset b))).
  pose proof (sum_of_two (cover (Z.max (offset a) (offset b))) _ _ _ _ _ (Hnn _) Hi Hj Hne) as H2.
  rewrite !cover_inside in H2 by lia. destruct (_ && _); lia.
Qed.

Lemma heap_live_placed h i a p :
  heap_inv h → live h !! i = Some (a, p) → 0 < p →
  gaddr_ok a ∧ nodeID a = 0 ∧ (2 ^ ALLOC_ALLIGN_BIT | offset a) ∧ kChunkSize <= offset a ∧
  offset a + pad p <= bitmap_len (chunckAlloc (hdir h)) * kChunkSize.
Proof.
  intros Hinv Hi Hp. pose proof (λ x, heap_live_cover h x Hinv) as Hc. unfold cover_all in Hc.
  assert (∀ x (e : GlobalAddress * Z), 0 <= cover x e) as Hnn by (intros; apply cover_range).
  destruct Hinv as [Hd Ht Hth Hlv _]. pose proof (Forall_lookup_1 _ _ _ _ Hlv Hi) as (Hb1 & Hb2 & Hb3 & _).
  cbn in *. split; [done|]. split; [done|]. split; [done|]. destruct (pad_spec p) as [_ Hpp].
  assert (∀ x, offset a <= x < offset a + pad p →
    kChunkSize <= x < bitmap_tail (chunckAlloc (hdir h)) * kChunkSize) as Hin.
  { intros x Hx. specialize (Hc x). pose proof (sum_of_elem (cover x) _ _ _ (Hnn _) Hi) as H1.
    rewrite cover_inside in H1 by lia.
    destruct (Z.leb_spec kChunkSize x),
      (Z.ltb_spec x (bitmap_tail (chunckAlloc (hdir h)) * kChunkSize)); cbn in Hc; lia. }
  pose proof (Hin (offset a) ltac:(lia)). pose proof (Hin (offset a + pad p - 1) ltac:(lia)).
  split; [lia|]. apply Z.le_trans with (bitmap_tail (chunckAlloc (hdir h)) * kChunkSize); [lia|].
  apply Z.mul_le_mono_nonneg_r; done.
Qed.

(** C19. No two live blocks overlap: in every run of any number of threads that
    allocate aligned blocks of up to a chunk and free what they hold (in any
    order and by any thread, in part or with the padding), while the directory
    has chunks left, each live block is aligned, on node 0 and past the
    reserved first chunk, no byte is in two live blocks or their padding, and
    the next [alloc] of any thread returns. *)
Theorem alloc_blocks_disjoint size m n d h :
  kChunkSize <= size < 2 ^ 48 → 0 <= m → directory_new size 0 0 = Ok d →
  rtc heap_step (heap_init d m n) h →
  (∀ i j a p b q, live h !! i = Some (a, p) → live h !! j = Some (b, q) → i ≠ j → 0 < p → 0 < q →
     offset a + pad p <= offset b ∨ offset b + pad q <= offset a) ∧
  (∀ i a p, live h !! i = Some (a, p) → 0 < p →
     nodeID a = 0 ∧ (2 ^ ALLOC_ALLIGN_BIT | offset a) ∧ kChunkSize <= offset a ∧
     offset a + pad p <= bitmap_len (chunckAlloc (hdir h)) * kChunkSize) ∧
  (∀ i t sz, hthreads h !! i = Some t → 0 < sz <= kChunkSize →
     bitmap_tail (chunckAlloc (hdir h)) < bitmap_len (chunckAlloc (hdir h)) →
     ∃ a t' d', alloc t [[hdir h]] sz true = Ok (a, t', [[d']])).
Proof.
  intros Hs Hm E Hr. pose proof (heap_inv_reachable _ _ _ _ _ Hs Hm E Hr) as Hinv. split; [|split].
  - intros i j a p b q. by apply heap_live_disjoint.
  - intros i a p Hi Hp. by destruct (heap_live_placed _ _ _ _ Hinv Hi Hp) as (_ & ?).
  - intros i t sz Hi Hsz Htail.
    destruct (heap_inv_alloc h i t sz Hinv Hi Hsz (or_introl Htail)) as (a & t' & d' & H & _). eauto.
Qed.

(** C37. When the chunks run out the directory starts over: the next chunk it
    hands out is chunk 1 again, whether or not it is in use, with node id 2,
    and the [free] of a block of that chunk is out of the bounds of
    [local_allocators]. *)
Theorem alloc_chunck_exhausted d t m a sz :
  global_ok (chunckAlloc d) → 1 < bitmap_len (chunckAlloc d) →
  bitmap_tail (chunckAlloc d) = bitmap_len (chunckAlloc d) → type m = MALLOC → thread_ok t →
  ∃ d', process_message d m = Ok (d', Some (GA 2 kChunkSize, node_id m, app_id m)) ∧
        (nodeID a = 2 → free t a sz = Fail EUndef).
Proof.
  intros (Hs & Hl & Ht & Hlen & Hb) H1 Heq Hm (la & El & _).
  unfold process_message, alloc_chunck. rewrite Hm, Heq, Z.leb_refl.
  destruct (chunckAlloc d) as [st gs bm len tail] eqn:Eg; cbn in *. subst.
  assert (idx_ (<[0%nat:=true]> (replicate (Z.to_nat (Z.of_nat (length bm))) false)) 1 = Ok false) as ->.
  { apply idx_Ok. split; [lia|]. rewrite list_lookup_insert_ne by lia. apply lookup_replicate_2. lia. }
  cbn [mbind res_bind negb]. eexists. split; [reflexivity|].
  intros Hn. unfold free, get_local. by rewrite Hn, El.
Qed.

(** A directory of three chunks, the second one handed out. *)
Definition example_dir (tail : Z) : Directory :=
  Dir (GAlloc (GA 0 0) (3 * kChunkSize) [true; bool_decide (2 <= tail); bool_decide (3 <= tail)] 3 tail)
      gaddr_Null (-1).

Definition example_thread (cursor : Z) (l : list (GlobalAddress * Z)) : alloc_thread :=
  AT 0 0 [[LA (GA 0 kChunkSize) (GA 0 cursor) l]] 0 0.

Lemma alloc_blocks_disjoint_witness :
  directory_new (3 * kChunkSize) 0 0 = Ok (example_dir 1) ∧
  rtc heap_step (heap_init (example_dir 1) 0 1)
    (Heap (example_dir 2) [example_thread (kChunkSize + 266) [(GA 0 kChunkSize, 34)]]
          [(GA 0 (kChunkSize + 256), 10)]) ∧
  ∃ a t' d', alloc (example_thread (kChunkSize + 266) [(GA 0 kChunkSize, 34)])
                   [[example_dir 2]] kChunkSize true = Ok (a, t', [[d']]).
Proof.
  assert (directory_new (3 * kChunkSize) 0 0 = Ok (example_dir 1)) as Hd by reflexivity.
  assert (rtc heap_step (heap_init (example_dir 1) 0 1)
    (Heap (example_dir 2) [example_thread (kChunkSize + 266) [(GA 0 kChunkSize, 34)]]
          [(GA 0 (kChunkSize + 256), 10)])) as Hr.
  { eapply rtc_l; [apply (step_alloc _ 0 (thread_new 0 0) 34 (GA 0 kChunkSize)
      (example_thread (kChunkSize + 34) []) (example_dir 2)); [done|done|done|vm_compute; reflexivity]|].
    eapply rtc_l; [apply (step_alloc _ 0 (example_thread (kChunkSize + 34) []) 10 (GA 0 (kChunkSize + 256))
      (example_thread (kChunkSize + 266) []) (example_dir 2)); [done|done|done|vm_compute; reflexivity]|].
    eapply rtc_l; [eapply (step_free _ 0 (example_thread (kChunkSize + 266) []) 1 (GA 0 kChunkSize) 34 34);
      [done|done|by vm_compute|vm_compute; reflexivity]|].
    apply rtc_refl. }
  split; [exact Hd|]. split; [exact Hr|].
  destruct (alloc_blocks_disjoint (3 * kChunkSize) 0 1 (example_dir 1) _ ltac:(done) ltac:(done) Hd Hr)
    as (_ & _ & H).
  apply (H 0%nat); done.
Defined.

Lemma alloc_chunck_exhausted_witness :
  global_ok (chunckAlloc (example_dir 3)) ∧
  ∃ d', process_message (example_dir 3) (RM MALLOC 0 7 gaddr_Null 0)
        = Ok (d', Some (GA 2 kChunkSize, 0, 7)) ∧
        (2 = 2 → free (thread_new 0 0) (GA 2 kChunkSize) 34 = Fail EUndef).
Proof.
  assert (global_ok (chunckAlloc (example_dir 3))) as Hg.
  { split; [done|]. split; [done|]. split; [done|]. split; [done|]. cbn. intros i Hi. lia. }
  split; [exact Hg|].
  apply (alloc_chunck_exhausted (example_dir 3) (thread_new 0 0) (RM MALLOC 0 7 gaddr_Null 0)
           (GA 2 kChunkSize) 34 Hg); [done|done|done|].
  apply thread_new_ok; done.
Defined.
