(* ===== verification/Memory.v ===== *)
(** * Byte memories, and the shared memory the tree is built on

    A memory maps a region and an offset to a byte. [region] names the two
    registered regions of a memory node. The operations on it are what the
    DSM layer promises to its clients (see [Dsm.v]). *)

From Stdlib Require Import ZArith Lia Bool Setoid Morphisms.
From stdpp Require Import base tactics decidable option numbers list list_numbers.
From S2P Require Import Prelude.
From S2P Require Import Common.

(** ** Memories over any kind of region *)
Section mem.
Context {K : Type} `{EqDecision K}.

Definition mem : Type := K → Z → byte.

Definition load (m : mem) (k : K) (o : Z) (n : nat) : list byte :=
  (λ i, m k (o + Z.of_nat i)) <$> seq 0 n.

Definition store (m : mem) (k : K) (o : Z) (bs : list byte) : mem := λ k' o',
  if decide (k' = k) then
    if (o <=? o') && (o' <? o + Z.of_nat (length bs))
    then nth (Z.to_nat (o' - o)) bs 0 else m k' o'
  else m k' o'.

(** Memories are compared byte by byte. *)
#[export] Instance mem_equiv : Equiv mem := λ m m', ∀ k o, m k o = m' k o.

#[export] Instance mem_equivalence : Equivalence (≡@{mem}).
Proof.
  split.
  - by intros m k o.
  - by intros m m' H k o.
  - intros m1 m2 m3 H12 H23 k o. by rewrite H12, H23.
Qed.

#[export] Instance load_proper : Proper ((≡) ==> (=) ==> (=) ==> (=) ==> (=)) load.
Proof.
  intros m m' Hm k ? <- o ? <- n ? <-. unfold load. apply list_fmap_ext. intros. apply Hm.
Qed.

#[export] Instance store_proper : Proper ((≡) ==> (=) ==> (=) ==> (=) ==> (≡)) store.
Proof.
  intros m m' Hm k ? <- o ? <- bs ? <- k' o'. unfold store.
  case_decide; [|apply Hm]. destruct (_ && _); [done|apply Hm].
Qed.

Definition mem_ok (m : mem) : Prop := ∀ k o, is_byte (m k o).

Lemma length_load m k o n : length (load m k o n) = n.
Proof. unfold load. by rewrite length_fmap, length_seq. Qed.

Lemma lookup_load m k o n i : (i < n)%nat → load m k o n !! i = Some (m k (o + Z.of_nat i)).
Proof.
  intros. unfold load. rewrite list_lookup_fmap, lookup_seq_lt by done. done.
Qed.

Lemma load_ext m m' k k' o o' n :
  (∀ i, 0 <= i < Z.of_nat n → m k (o + i) = m' k' (o' + i)) → load m k o n = load m' k' o' n.
Proof.
  intros H. apply list_eq_same_length with n; rewrite ?length_load; [done..|].
  intros i x y Hi. rewrite !lookup_load by done. intros [= <-] [= <-]. apply H. lia.
Qed.

Lemma load_byte m k o n : mem_ok m → Forall is_byte (load m k o n).
Proof. intros Hm. unfold load. apply Forall_fmap, Forall_true. intros i. apply Hm. Qed.

Lemma store_inside m k o bs i :
  0 <= i < Z.of_nat (length bs) → store m k o bs k (o + i) = nth (Z.to_nat i) bs 0.
Proof.
  intros Hi. unfold store. rewrite decide_True by done.
  destruct (Z.leb_spec o (o + i)), (Z.ltb_spec (o + i) (o + Z.of_nat (length bs))); try lia.
  cbn. f_equal. lia.
Qed.

Lemma store_outside m k o bs k' o' :
  k' ≠ k ∨ o' < o ∨ o + Z.of_nat (length bs) <= o' → store m k o bs k' o' = m k' o'.
Proof.
  intros H. unfold store. case_decide; [|done].
  destruct (Z.leb_spec o o'), (Z.ltb_spec o' (o + Z.of_nat (length bs))); cbn; naive_solver lia.
Qed.

(** Reading back what was stored. *)
Lemma load_store_same m k o bs : load (store m k o bs) k o (length bs) = bs.
Proof.
  apply list_eq_same_length with (length bs); rewrite ?length_load; [done..|].
  intros i x y Hi. rewrite lookup_load, store_inside by lia. rewrite Nat2Z.id.
  intros [= <-] Hy. by apply nth_lookup_Some.
Qed.

Lemma load_store_other m k o bs k' o' n :
  k' ≠ k ∨ o' + Z.of_nat n <= o ∨ o + Z.of_nat (length bs) <= o' →
  load (store m k o bs) k' o' n = load m k' o' n.
Proof. intros H. apply load_ext. intros i Hi. apply store_outside. naive_solver lia. Qed.

(** Reading a part of what was stored. *)
Lemma load_store_part m k o bs d n :
  (d + n <= length bs)%nat → load (store m k o bs) k (o + Z.of_nat d) n = slice d n bs.
Proof.
  intros H. apply list_eq_same_length with n;
    [unfold slice; rewrite ?length_take, ?length_drop, ?length_load; lia..|].
  intros i x y Hi. rewrite lookup_load by lia.
  replace (o + Z.of_nat d + Z.of_nat i) with (o + Z.of_nat (d + i)) by lia.
  rewrite store_inside by lia. rewrite Nat2Z.id. unfold slice.
  rewrite lookup_take, decide_True, lookup_drop by done. intros [= <-] Hy. by apply nth_lookup_Some.
Qed.

Lemma load_split m k o n1 n2 :
  load m k o (n1 + n2) = load m k o n1 ++ load m k (o + Z.of_nat n1) n2.
Proof.
  unfold load. rewrite seq_app, fmap_app. f_equal.
  rewrite Nat.add_0_l, <-(Nat.add_0_r n1), <-fmap_add_seq, <-list_fmap_compose.
  apply list_fmap_ext. intros i x _. cbn. f_equal. lia.
Qed.

Lemma load_slice m k o d len n :
  (d + len <= n)%nat → slice d len (load m k o n) = load m k (o + Z.of_nat d) len.
Proof.
  intros H. replace n with (d + (len + (n - d - len)))%nat by lia.
  rewrite !load_split. unfold slice. rewrite drop_app_length' by by rewrite length_load.
  by rewrite take_app_length' by by rewrite length_load.
Qed.

(** Writing back what is there changes nothing. *)
Lemma store_load m k o n : store m k o (load m k o n) ≡ m.
Proof.
  intros k' o'. unfold store. case_decide; [subst k'|done]. rewrite length_load.
  destruct (Z.leb_spec o o'), (Z.ltb_spec o' (o + Z.of_nat n)); cbn; try done.
  apply nth_lookup_Some. rewrite lookup_load by lia. do 2 f_equal. lia.
Qed.

Lemma store_store m k o bs bs' :
  length bs = length bs' → store (store m k o bs) k o bs' ≡ store m k o bs'.
Proof.
  intros H k' o'. unfold store. rewrite H. repeat case_decide; try done. destruct (_ && _); done.
Qed.

Lemma store_comm m k o bs k' o' bs' :
  k ≠ k' ∨ o + Z.of_nat (length bs) <= o' ∨ o' + Z.of_nat (length bs') <= o →
  store (store m k o bs) k' o' bs' ≡ store (store m k' o' bs') k o bs.
Proof.
  intros H q p. unfold store.
  repeat case_decide; try done.
  destruct (Z.leb_spec o p), (Z.ltb_spec p (o + Z.of_nat (length bs))),
    (Z.leb_spec o' p), (Z.ltb_spec p (o' + Z.of_nat (length bs'))); cbn; try done.
  subst. naive_solver lia.
Qed.

Lemma store_ok m k o bs : mem_ok m → Forall is_byte bs → mem_ok (store m k o bs).
Proof.
  intros Hm Hb k' o'. unfold store. case_decide; [|done]. destruct (_ && _) eqn:E; [|done].
  apply andb_true_iff in E as [E1%Z.leb_le E2%Z.ltb_lt].
  destruct (lookup_lt_is_Some_2 bs (Z.to_nat (o' - o))) as [b E]; [lia|].
  rewrite (nth_lookup_Some _ _ _ _ E). by eapply Forall_lookup_1.
Qed.

(** ** 64-bit words and the atomic operations of the network cards *)
Definition load_word (m : mem) (k : K) (o : Z) : Z := le_int (load m k o 8).
Definition store_word (m : mem) (k : K) (o v : Z) : mem := store m k o (le_bytes 8 v).

Definition mem_cas (m : mem) (k : K) (o equal val : Z) : Z * mem :=
  let old := load_word m k o in (old, if old =? equal then store_word m k o val else m).

Definition mem_cas_mask (m : mem) (k : K) (o equal val mask : Z) : Z * mem :=
  let old := load_word m k o in
  (old, if masked_eq old equal mask then store_word m k o (masked_put old val mask) else m).

(** The masked fetch-and-add: no carry out of bit [boundary]. *)
Definition mem_faa (m : mem) (k : K) (o add boundary : Z) : Z * mem :=
  let old := load_word m k o in
  let w := boundary + 1 in
  (old, store_word m k o (bf 0 w (old + add) + bf 0 (64 - w) (old / 2 ^ w + add / 2 ^ w) * 2 ^ w)).

#[export] Instance load_word_proper : Proper ((≡) ==> (=) ==> (=) ==> (=)) load_word.
Proof. intros m m' Hm k ? <- o ? <-. unfold load_word. by rewrite Hm. Qed.

Lemma load_store_word m k o v : uint 64 v → load_word (store_word m k o v) k o = v.
Proof.
  intros Hv. unfold load_word, store_word.
  pose proof (load_store_same m k o (le_bytes 8 v)) as H. rewrite length_le_bytes in H.
  rewrite H, le_int_bytes. by apply Z.mod_small.
Qed.

(** The words of a row of words. *)
Lemma length_words (ws : list Z) : length (concat (le_bytes 8 <$> ws)) = (8 * length ws)%nat.
Proof. induction ws as [|w ws IH]; [done|]. cbn [fmap list_fmap concat]. rewrite length_app, length_le_bytes, IH. cbn. lia. Qed.

Lemma slice_words (ws : list Z) j w :
  ws !! j = Some w → slice (8 * j) 8 (concat (le_bytes 8 <$> ws)) = le_bytes 8 w.
Proof.
  intros Hj. rewrite <- (take_drop_middle ws j w Hj). pose proof (lookup_lt_Some _ _ _ Hj).
  rewrite fmap_app, concat_app. unfold slice. rewrite drop_app_length' by (rewrite length_words, length_take; lia).
  cbn [fmap list_fmap concat]. by rewrite take_app_length' by by rewrite length_le_bytes.
Qed.

Lemma load_word_store_words (m : mem) k o (ws : list Z) (j : nat) w :
  ws !! j = Some w → uint 64 w →
  load_word (store m k o (concat (le_bytes 8 <$> ws))) k (o + 8 * Z.of_nat j) = w.
Proof.
  intros Hj Hw. pose proof (lookup_lt_Some _ _ _ Hj). unfold load_word.
  replace (8 * Z.of_nat j) with (Z.of_nat (8 * j)) by lia.
  rewrite load_store_part by (rewrite length_words; lia). rewrite (slice_words ws j w Hj), le_int_bytes. by apply Z.mod_small.
Qed.

Lemma load_word_range m k o : mem_ok m → uint 64 (load_word m k o).
Proof.
  intros Hm. unfold load_word. pose proof (le_int_range (load m k o 8) (load_byte m k o 8 Hm)) as H.
  by rewrite length_load in H.
Qed.
End mem.
Arguments mem K : clear implicits.

Lemma load_ext_across {K K'} (m : mem K) (m' : mem K') k k' o o' n :
  (∀ i, 0 <= i < Z.of_nat n → m k (o + i) = m' k' (o' + i)) → load m k o n = load m' k' o' n.
Proof.
  intros H. apply list_eq_same_length with n; rewrite ?length_load; [done..|].
  intros i x y Hi. rewrite !lookup_load by done. intros [= <-] [= <-]. apply H. lia.
Qed.

(** ** The shared memory *)

(** The registered regions of a memory node: its DSM memory, and the on-chip
    memory of its network card. *)
Inductive region : Set := Reg (on_chip : bool) (node : Z).

#[export] Instance region_eq_dec : EqDecision region.
Proof. solve_decision. Defined.

Definition shared_mem : Type := mem region.
