(* ===== verification/Verbs.v ===== *)
(** * RDMA verbs (src/rdma/Operation.cpp, include/Rdma.h)

    Each function fills one or two work requests (or a chain of up to
    [kReadOroMax]) and posts them. The model gives the chain that is posted;
    what the network card does with it is the class [Nic]. *)

From Stdlib Require Import ZArith Lia Bool.
From stdpp Require Import base tactics decidable option numbers list.
From S2P Require Import Prelude.
From S2P Require Import Common.
From S2P Require Import Memory.

(** [remoteRKey] and [is_on_chip] share one word, [rkey]. *)
Record RdmaOpRegion : Set := Ror { source : Z; dest : Z; size : Z; lkey : Z; rkey : Z }.

#[export] Instance RdmaOpRegion_inhabited : Inhabited RdmaOpRegion := populate (Ror 0 0 0 0 0).

Definition is_on_chip (r : RdmaOpRegion) : bool := negb (bf 0 8 (rkey r) =? 0).
Definition with_on_chip (r : RdmaOpRegion) (b : bool) : RdmaOpRegion :=
  Ror (source r) (dest r) (size r) (lkey r) (Z.b2z b).

(** A scatter entry and a work request: the fields the functions set. *)
Record ibv_sge : Set := Sge { sg_addr : Z; sg_length : Z; sg_lkey : Z }.

Inductive wr_op : Set :=
  | WR_SEND
  | WR_SEND_WITH_IMM (imm : Z)
  | WR_RDMA_READ (remote_addr rkey : Z)
  | WR_RDMA_WRITE (remote_addr rkey : Z)
  | WR_RDMA_WRITE_WITH_IMM (remote_addr rkey imm : Z)
  | WR_ATOMIC_CMP_AND_SWP (remote_addr rkey compare swap : Z)
  | WR_ATOMIC_FETCH_AND_ADD (remote_addr rkey add : Z)
  | WR_MASKED_CMP_AND_SWP (remote_addr rkey compare swap compare_mask swap_mask : Z)
  | WR_MASKED_FETCH_AND_ADD (remote_addr rkey add field_boundary : Z).

Record send_wr : Set := Wr {
  wr_id : Z; sg_list : ibv_sge; opcode : wr_op; signaled : bool; send_inline : bool
}.

(** [fillSgeWr]: a request with one scatter entry and nothing else set. *)
Definition fillSgeWr (source size lkey : Z) : ibv_sge := Sge source (wrap 32 size) lkey.

Definition inline_ok (size : Z) : bool := size <=? kInlineDataMax.

(** UD send, and RC send. *)
Definition rdmaSend_ud (source size lkey : Z) (isSignaled : bool) : list send_wr :=
  [Wr 0 (fillSgeWr source size lkey) WR_SEND isSignaled false].

Definition rdmaSend (source size lkey imm : Z) : list send_wr :=
  [Wr 0 (fillSgeWr source size lkey) (if imm =? -1 then WR_SEND else WR_SEND_WITH_IMM imm) true false].

(** A receive request: its scatter entry and [wr_id]. *)
Definition rdmaReceive (source size lkey wr_id : Z) : ibv_sge * Z := (fillSgeWr source size lkey, wr_id).

Definition rdmaRead (source dest size lkey remoteRKey : Z) (signal : bool) (wrID : Z) : list send_wr :=
  [Wr wrID (fillSgeWr source size lkey) (WR_RDMA_READ dest remoteRKey) signal false].

Definition rdmaWrite (source dest size lkey remoteRKey imm : Z) (isSignaled : bool) (wrID : Z) :
    list send_wr :=
  [Wr wrID (fillSgeWr source size lkey)
      (if imm =? -1 then WR_RDMA_WRITE dest remoteRKey else WR_RDMA_WRITE_WITH_IMM dest remoteRKey imm)
      isSignaled (inline_ok size)].

Definition rdmaFetchAndAdd (source dest add lkey remoteRKey : Z) : list send_wr :=
  [Wr 0 (fillSgeWr source 8 lkey) (WR_ATOMIC_FETCH_AND_ADD dest remoteRKey add) true false].

Definition rdmaFetchAndAddBoundary (source dest add lkey remoteRKey boundary : Z) (singal : bool)
    (wr_id : Z) : list send_wr :=
  [Wr wr_id (fillSgeWr source 8 lkey)
      (WR_MASKED_FETCH_AND_ADD dest remoteRKey add (wrap 64 (Z.shiftl 1 boundary))) singal true].

Definition rdmaCompareAndSwap (source dest compare swap lkey remoteRKey : Z) (signal : bool) (wrID : Z) :
    list send_wr :=
  [Wr wrID (fillSgeWr source 8 lkey) (WR_ATOMIC_CMP_AND_SWP dest remoteRKey compare swap) signal false].

Definition rdmaCompareAndSwapMask (source dest compare swap lkey remoteRKey mask : Z) (singal : bool)
    (wrID : Z) : list send_wr :=
  [Wr wrID (fillSgeWr source 8 lkey)
      (WR_MASKED_CMP_AND_SWP dest remoteRKey compare swap mask mask) singal true].

(** The loops of the two batches: the last request carries the signal. An
    empty or too long batch is out of the bounds of the local arrays. *)
Fixpoint read_batch_loop (ror : list RdmaOpRegion) (isSignaled : bool) (wrID : Z) : list send_wr :=
  match ror with
  | [] => []
  | r :: ror =>
    Wr wrID (fillSgeWr (source r) (size r) (lkey r)) (WR_RDMA_READ (dest r) (rkey r))
       (match ror with [] => isSignaled | _ => false end) false
    :: read_batch_loop ror isSignaled wrID
  end.

Definition rdmaReadBatch (ror : list RdmaOpRegion) (isSignaled : bool) (wrID : Z) : res (list send_wr) :=
  defined ((0 <? Z.of_nat (length ror)) && (Z.of_nat (length ror) <=? kReadOroMax)) ;;
  Ok (read_batch_loop ror isSignaled wrID).

Fixpoint write_batch_loop (ror : list RdmaOpRegion) (isSignaled : bool) (wrID : Z) : list send_wr :=
  match ror with
  | [] => []
  | r :: ror =>
    Wr wrID (fillSgeWr (source r) (size r) (lkey r)) (WR_RDMA_WRITE (dest r) (rkey r))
       (match ror with [] => isSignaled | _ => false end) (inline_ok (size r))
    :: write_batch_loop ror isSignaled wrID
  end.

Definition rdmaWriteBatch (ror : list RdmaOpRegion) (isSignaled : bool) (wrID : Z) : res (list send_wr) :=
  defined ((0 <? Z.of_nat (length ror)) && (Z.of_nat (length ror) <=? kWriteOroMax)) ;;
  Ok (write_batch_loop ror isSignaled wrID).

Definition rdmaCasRead (cas_ror read_ror : RdmaOpRegion) (compare swap : Z) (isSignaled : bool) (wrID : Z) :
    list send_wr :=
  [Wr 0 (fillSgeWr (source cas_ror) 8 (lkey cas_ror))
      (WR_ATOMIC_CMP_AND_SWP (dest cas_ror) (rkey cas_ror) compare swap) false false;
   Wr wrID (fillSgeWr (source read_ror) (size read_ror) (lkey read_ror))
      (WR_RDMA_READ (dest read_ror) (rkey read_ror)) isSignaled false].

(** As written: the read takes its destination from [cas_ror] and the
    compare-and-swap from [read_ror]. *)
Definition rdmaReadCas (read_ror cas_ror : RdmaOpRegion) (compare swap : Z) (isSignaled : bool) (wrID : Z) :
    list send_wr :=
  [Wr 0 (fillSgeWr (source read_ror) (size read_ror) (lkey read_ror))
      (WR_RDMA_READ (dest cas_ror) (rkey cas_ror)) false false;
   Wr wrID (fillSgeWr (source cas_ror) 8 (lkey cas_ror))
      (WR_ATOMIC_CMP_AND_SWP (dest read_ror) (rkey read_ror) compare swap) isSignaled false].

Definition rdmaCasWrite (cas_ror write_ror : RdmaOpRegion) (compare swap : Z) (isSignaled : bool)
    (wrID : Z) : list send_wr :=
  [Wr 0 (fillSgeWr (source cas_ror) 8 (lkey cas_ror))
      (WR_ATOMIC_CMP_AND_SWP (dest cas_ror) (rkey cas_ror) compare swap) false false;
   Wr wrID (fillSgeWr (source write_ror) (size write_ror) (lkey write_ror))
      (WR_RDMA_WRITE (dest write_ror) (rkey write_ror)) isSignaled false].

Definition rdmaWriteFaa (write_ror faa_ror : RdmaOpRegion) (add_val : Z) (isSignaled : bool) (wrID : Z) :
    list send_wr :=
  [Wr 0 (fillSgeWr (source write_ror) (size write_ror) (lkey write_ror))
      (WR_RDMA_WRITE (dest write_ror) (rkey write_ror)) false false;
   Wr wrID (fillSgeWr (source faa_ror) 8 (lkey faa_ror))
      (WR_ATOMIC_FETCH_AND_ADD (dest faa_ror) (rkey faa_ror) add_val) isSignaled false].

Definition rdmaWriteCas (write_ror cas_ror : RdmaOpRegion) (compare swap : Z) (isSignaled : bool)
    (wrID : Z) : list send_wr :=
  [Wr 0 (fillSgeWr (source write_ror) (size write_ror) (lkey write_ror))
      (WR_RDMA_WRITE (dest write_ror) (rkey write_ror)) false false;
   Wr wrID (fillSgeWr (source cas_ror) 8 (lkey cas_ror))
      (WR_ATOMIC_CMP_AND_SWP (dest cas_ror) (rkey cas_ror) compare swap) isSignaled false].

Definition rdmaWriteCasMask (write_ror cas_ror : RdmaOpRegion) (compare swap mask : Z) (isSignaled : bool)
    (wrID : Z) : list send_wr :=
  [Wr 0 (fillSgeWr (source write_ror) (size write_ror) (lkey write_ror))
      (WR_RDMA_WRITE (dest write_ror) (rkey write_ror)) false false;
   Wr wrID (fillSgeWr (source cas_ror) 8 (lkey cas_ror))
      (WR_MASKED_CMP_AND_SWP (dest cas_ror) (rkey cas_ror) compare swap mask mask) isSignaled true].

Definition rdmaTwoCasMask (cas_ror_1 : RdmaOpRegion) (compare_1 swap_1 mask_1 : Z)
    (cas_ror_2 : RdmaOpRegion) (compare_2 swap_2 mask_2 : Z) (isSignaled : bool) (wrID : Z) :
    list send_wr :=
  [Wr 0 (fillSgeWr (source cas_ror_1) 8 (lkey cas_ror_1))
      (WR_MASKED_CMP_AND_SWP (dest cas_ror_1) (rkey cas_ror_1) compare_1 swap_1 mask_1 mask_1) false true;
   Wr wrID (fillSgeWr (source cas_ror_2) 8 (lkey cas_ror_2))
      (WR_MASKED_CMP_AND_SWP (dest cas_ror_2) (rkey cas_ror_2) compare_2 swap_2 mask_2 mask_2)
      isSignaled true].

(** ** Completion queues *)

Record ibv_wc : Set := Wc { status_ok : bool; wc_wr_id : Z }.

(** The loop of [pollWithCQ] over the results of [ibv_poll_cq]: a count, and
    the completion it wrote when the count is positive. The loop spins while
    completions are missing. *)
Fixpoint poll_loop (polls : list (Z * ibv_wc)) (count pollNumber : Z) (wc : option ibv_wc) :
    res (Z * option ibv_wc * list (Z * ibv_wc)) :=
  match polls with
  | [] => Fail EFuel
  | (new_count, w) :: polls =>
    let count := count + new_count in
    let wc := if 0 <? new_count then Some w else wc in
    if count <? pollNumber then poll_loop polls count pollNumber wc else Ok (count, wc, polls)
  end.

(** [pollWithCQ]: its return value, the completion in [wc], and the polls not
    yet made. Reading [wc->status] before a completion was written is
    undefined. *)
Definition pollWithCQ (polls : list (Z * ibv_wc)) (pollNumber : Z) :
    res (Z * option ibv_wc * list (Z * ibv_wc)) :=
  '(count, wc, rest) ← poll_loop polls 0 pollNumber None;
  if count <? 0 then Ok (-1, wc, rest)
  else match wc with
       | None => Fail EUndef
       | Some w => if negb (status_ok w) then Ok (-1, wc, rest) else Ok (count, wc, rest)
       end.

(** [pollOnce], on one result of [ibv_poll_cq] (the count and the completions). *)
Definition pollOnce (poll : Z * list ibv_wc) : res Z :=
  let '(count, ws) := poll in
  if count <=? 0 then Ok 0
  else match ws with
       | [] => Fail EUndef
       | w :: _ => if negb (status_ok w) then Ok (-1) else Ok count
       end.

(** ** The network card

    Remote memory is addressed by node, remote key and address; local memory
    by address. [exec] is the effect of one request to [node]; the laws are
    the documented effect of each operation code that the DSM layer posts. *)
Record net : Type := Net { remote : mem (Z * Z); local : mem unit }.

Class Nic := {
  exec : Z → send_wr → net → net;
  exec_read node id a len lk dest rk sg inl w :
    exec node (Wr id (Sge a len lk) (WR_RDMA_READ dest rk) sg inl) w
    = Net (remote w) (store (local w) tt a (load (remote w) (node, rk) dest (Z.to_nat len)));
  exec_write node id a len lk dest rk sg inl w :
    exec node (Wr id (Sge a len lk) (WR_RDMA_WRITE dest rk) sg inl) w
    = Net (store (remote w) (node, rk) dest (load (local w) tt a (Z.to_nat len))) (local w);
  exec_cas node id a len lk dest rk compare swap sg inl w :
    exec node (Wr id (Sge a len lk) (WR_ATOMIC_CMP_AND_SWP dest rk compare swap) sg inl) w
    = Net (mem_cas (remote w) (node, rk) dest compare swap).2
          (store_word (local w) tt a (mem_cas (remote w) (node, rk) dest compare swap).1);
  exec_faa node id a len lk dest rk add sg inl w :
    exec node (Wr id (Sge a len lk) (WR_ATOMIC_FETCH_AND_ADD dest rk add) sg inl) w
    = Net (mem_faa (remote w) (node, rk) dest add 63).2
          (store_word (local w) tt a (mem_faa (remote w) (node, rk) dest add 63).1);
  exec_cas_mask node id a len lk dest rk compare swap mask sg inl w :
    exec node (Wr id (Sge a len lk) (WR_MASKED_CMP_AND_SWP dest rk compare swap mask mask) sg inl) w
    = Net (mem_cas_mask (remote w) (node, rk) dest compare swap mask).2
          (store_word (local w) tt a (mem_cas_mask (remote w) (node, rk) dest compare swap mask).1);
  exec_faa_mask node id a len lk dest rk add boundary sg inl w :
    0 <= boundary < 64 →
    exec node (Wr id (Sge a len lk) (WR_MASKED_FETCH_AND_ADD dest rk add (2 ^ boundary)) sg inl) w
    = Net (mem_faa (remote w) (node, rk) dest add boundary).2
          (store_word (local w) tt a (mem_faa (remote w) (node, rk) dest add boundary).1);
}.

(** A card that obeys the laws. *)
Definition exec_model (node : Z) (r : send_wr) (w : net) : net :=
  let a := sg_addr (sg_list r) in
  let n := Z.to_nat (sg_length (sg_list r)) in
  let atomic (p : Z * mem (Z * Z)) := Net p.2 (store_word (local w) tt a p.1) in
  match opcode r with
  | WR_SEND | WR_SEND_WITH_IMM _ => w
  | WR_RDMA_READ dest rk => Net (remote w) (store (local w) tt a (load (remote w) (node, rk) dest n))
  | WR_RDMA_WRITE dest rk | WR_RDMA_WRITE_WITH_IMM dest rk _ =>
    Net (store (remote w) (node, rk) dest (load (local w) tt a n)) (local w)
  | WR_ATOMIC_CMP_AND_SWP dest rk c s => atomic (mem_cas (remote w) (node, rk) dest c s)
  | WR_ATOMIC_FETCH_AND_ADD dest rk add => atomic (mem_faa (remote w) (node, rk) dest add 63)
  | WR_MASKED_CMP_AND_SWP dest rk c s m _ => atomic (mem_cas_mask (remote w) (node, rk) dest c s m)
  | WR_MASKED_FETCH_AND_ADD dest rk add b => atomic (mem_faa (remote w) (node, rk) dest add (Z.log2 b))
  end.

#[export] Program Instance nic_model : Nic := {| exec := exec_model |}.
Solve Obligations with done.
Next Obligation.
  intros. unfold exec_model; cbn. by rewrite Z.log2_pow2 by lia.
Qed.

(** ** Properties *)

Lemma poll_loop_spec polls count n wc :
  match poll_loop polls count n wc with
  | Ok (c, wc', rest) =>
    ∃ taken, polls = taken ++ rest ∧ taken ≠ [] ∧ c = count + sum_of fst taken ∧ n <= c ∧
      (∀ p q, taken = p ++ q → p ≠ [] → q ≠ [] → count + sum_of fst p < n) ∧
      (wc' = wc ∧ c <= count ∨ ∃ i k w, taken !! i = Some (k, w) ∧ 0 < k ∧ wc' = Some w)
  | Fail e => e = EFuel ∧ ∀ p q, polls = p ++ q → p ≠ [] → count + sum_of fst p < n
  end.
Proof.
  revert count wc. induction polls as [|[k w] polls IH]; intros count wc; cbn [poll_loop].
  { split; [done|]. intros [|x p] q Hpq Hp; [done|done]. }
  destruct (Z.ltb_spec (count + k) n).
  - specialize (IH (count + k) (if 0 <? k then Some w else wc)).
    destruct (poll_loop polls _ n _) as [[[c wc'] rest]|e].
    + destruct IH as (taken & -> & Hne & -> & Hle & Hpre & Hwc).
      exists ((k, w) :: taken). rewrite sum_of_cons. cbn [fst].
      split; [done|]. split; [done|]. split; [lia|]. split; [lia|]. split.
      * intros [|x p] q Hpq Hp Hq; [done|]. injection Hpq as <- Hpq. rewrite sum_of_cons. cbn [fst].
        destruct (decide (p = [])) as [->|Hp']; [unfold sum_of; cbn; lia|].
        pose proof (Hpre p q Hpq Hp' Hq). lia.
      * destruct Hwc as [[-> Hc]|(i & k' & w' & Hi & Hk' & ->)].
        -- destruct (Z.ltb_spec 0 k); [|by left; split; [done|lia]].
           right. exists 0%nat, k, w. done.
        -- right. exists (S i), k', w'. done.
    + destruct IH as [-> Hpre]. split; [done|]. intros [|x p] q Hpq Hp; [done|].
      injection Hpq as <- Hpq. rewrite sum_of_cons. cbn [fst].
      destruct (decide (p = [])) as [->|Hp']; [unfold sum_of; cbn; lia|].
      pose proof (Hpre p q Hpq Hp'). lia.
  - exists [(k, w)]. unfold sum_of; cbn. split; [done|]. split; [done|]. split; [lia|]. split; [lia|]. split.
    + intros [|x p] q Hpq Hp Hq; [done|]. injection Hpq as <- Hpq.
      symmetry in Hpq. apply app_eq_nil in Hpq as [-> ->]. done.
    + destruct (Z.ltb_spec 0 k); [|left; split; [done|lia]]. right. exists 0%nat, k, w. done.
Qed.

(** [pollWithCQ], asked for at least one completion, makes the fewest polls
    whose counts reach the number asked for, and then reports the status of
    the last completion: its result is the count or -1. It never takes the
    branch for a negative count, and with too few completions, or an error
    ([ibv_poll_cq] is negative), it polls on. *)
Theorem pollWithCQ_spec polls n :
  0 < n →
  match pollWithCQ polls n with
  | Ok (r, wc, rest) =>
    ∃ taken w, polls = taken ++ rest ∧ n <= sum_of fst taken ∧
      (∀ p q, taken = p ++ q → p ≠ [] → q ≠ [] → sum_of fst p < n) ∧
      wc = Some w ∧ (∃ i k, taken !! i = Some (k, w) ∧ 0 < k) ∧
      r = if status_ok w then sum_of fst taken else -1
  | Fail e => e = EFuel ∧ ∀ p q, polls = p ++ q → p ≠ [] → sum_of fst p < n
  end.
Proof.
  intros Hn. unfold pollWithCQ. pose proof (poll_loop_spec polls 0 n None) as Hl.
  destruct (poll_loop polls 0 n None) as [[[c wc] rest]|e]; cbn [mbind res_bind]; [|exact Hl].
  destruct Hl as (taken & -> & Hne & -> & Hle & Hpre & Hwc).
  destruct (Z.ltb_spec (0 + sum_of fst taken) 0); [lia|].
  destruct Hwc as [[_ ?]|(i & k & w & Hi & Hk & ->)]; [lia|].
  destruct (status_ok w) eqn:Ew; cbn [negb]; exists taken, w; rewrite Ew;
    (split; [done|]; split; [lia|]; split; [done|]; split; [done|]; split; [by exists i, k|lia]).
Qed.

Lemma pollWithCQ_spec_witness :
  pollWithCQ [(-1, Wc true 0); (1, Wc true 7); (1, Wc true 8)] 1
  = Ok (1, Some (Wc true 8), []) ∧
  ∃ taken w, [(-1, Wc true 0); (1, Wc true 7); (1, Wc true 8)] = taken ++ [] ∧ 1 <= sum_of fst taken ∧
    (∀ p q, taken = p ++ q → p ≠ [] → q ≠ [] → sum_of fst p < 1) ∧
    Some (Wc true 8) = Some w ∧ (∃ i k, taken !! i = Some (k, w) ∧ 0 < k) ∧
    1 = if status_ok w then sum_of fst taken else -1.
Proof.
  split; [reflexivity|].
  exact (pollWithCQ_spec [(-1, Wc true 0); (1, Wc true 7); (1, Wc true 8)] 1 eq_refl).
Defined.
