(* ===== verification/Dsm.v ===== *)
(** * The DSM verbs (src/DSM.cpp, include/DSM.h)

    Each verb turns global addresses into remote addresses and keys, posts
    work requests on the queue pair of the memory node, and waits for their
    completion: by polling when there is no coroutine, by yielding to the
    master otherwise. Requests take effect when they are posted; waiting
    consumes the completions of the signaled ones. *)

From Stdlib Require Import ZArith Lia Bool.
From stdpp Require Import base tactics decidable option numbers list.
From S2P Require Import Prelude.
From S2P Require Import Common.
From S2P Require Import Address.
From S2P Require Import Memory.
From S2P Require Import Verbs.

(** What a thread knows of a memory node ([RemoteConnection]). *)
Record node_info : Set := NI { dsmBase : Z; dsmRKey : Z; lockBase : Z; lockRKey : Z }.

(** The network, and the number of completions that wait in the thread's
    queue. *)
Record dsm_state : Type := DS { dnet : net; cq : Z }.

(** [GlobalAddress{ror.dest}] *)
Definition dest_addr (r : RdmaOpRegion) : GlobalAddress := gaddr_of_val (dest r).

Section dsm.
Context `{Nic} (remoteInfo : list node_info) (cacheLKey : Z).

Definition info (node : Z) : M dsm_state node_info := lift (idx_ remoteInfo node).

(** Posting on the queue pair [iCon->data[0][node]]. *)
Definition post (node : Z) (l : list send_wr) : M dsm_state unit := λ s,
  Ok (tt, DS (foldl (λ w r, exec node r w) (dnet s) l)
             (cq s + sum_of (λ r, Z.b2z (signaled r)) l)).

(** [pollWithCQ(iCon->cq, n, &wc)] on the completions that wait; the queue
    is empty after them. *)
Definition poll (n : Z) : M dsm_state unit := λ s,
  match pollWithCQ (replicate (Z.to_nat (cq s)) (1, Wc true 0) ++ [(0, Wc true 0)]) n with
  | Ok (_, _, rest) => Ok (tt, DS (dnet s) (sum_of fst rest))
  | Fail e => Fail e
  end.

(** [( *ctx->yield)( *ctx->master)]: the master resumes the coroutine when a
    completion with its id arrives. *)
Definition yield : M dsm_state unit := λ s,
  if 1 <=? cq s then Ok (tt, DS (dnet s) (cq s - 1)) else Fail EFuel.

Definition load_local (a : Z) : M dsm_state Z := λ s, Ok (load_word (local (dnet s)) tt a, s).

Definition coro_of (ctx : option Z) : Z := default 0 ctx.
Definition signal_of (signal : bool) (ctx : option Z) : bool :=
  match ctx with None => signal | Some _ => true end.

(** The two branches of every verb: post, and yield when there is a coroutine. *)
Definition post_ctx (node : Z) (l : list send_wr) (ctx : option Z) : M dsm_state unit :=
  match ctx with None => post node l | Some _ => post node l ;; yield end.

(** [if (ctx == nullptr) pollWithCQ(iCon->cq, n, &wc)] *)
Definition wait_ctx (n : Z) (ctx : option Z) : M dsm_state unit :=
  match ctx with None => poll n | Some _ => mret tt end.

(** *** Reads and writes *)
Definition read (buffer : Z) (gaddr : GlobalAddress) (size : Z) (signal : bool) (ctx : option Z) :
    M dsm_state unit :=
  i ← info (nodeID gaddr);
  post_ctx (nodeID gaddr)
    (rdmaRead buffer (wrap 64 (dsmBase i + offset gaddr)) size cacheLKey (dsmRKey i)
       (signal_of signal ctx) (coro_of ctx)) ctx.

Definition read_sync (buffer : Z) (gaddr : GlobalAddress) (size : Z) (ctx : option Z) : M dsm_state unit :=
  read buffer gaddr size true ctx ;; wait_ctx 1 ctx.

Definition write (buffer : Z) (gaddr : GlobalAddress) (size : Z) (signal : bool) (ctx : option Z) :
    M dsm_state unit :=
  i ← info (nodeID gaddr);
  post_ctx (nodeID gaddr)
    (rdmaWrite buffer (wrap 64 (dsmBase i + offset gaddr)) size cacheLKey (dsmRKey i) (-1)
       (signal_of signal ctx) (coro_of ctx)) ctx.

Definition write_sync (buffer : Z) (gaddr : GlobalAddress) (size : Z) (ctx : option Z) : M dsm_state unit :=
  write buffer gaddr size true ctx ;; wait_ctx 1 ctx.

(** [fill_keys_dest]: the key overwrites [is_on_chip], which shares its word. *)
Definition fill_keys_dest (ror : RdmaOpRegion) (gaddr : GlobalAddress) (is_chip : bool) :
    M dsm_state RdmaOpRegion :=
  i ← info (nodeID gaddr);
  mret (if is_chip
        then Ror (source ror) (wrap 64 (lockBase i + offset gaddr)) (size ror) cacheLKey (lockRKey i)
        else Ror (source ror) (wrap 64 (dsmBase i + offset gaddr)) (size ror) cacheLKey (dsmRKey i)).

Definition fill_ror (ror : RdmaOpRegion) : M dsm_state RdmaOpRegion :=
  fill_keys_dest ror (dest_addr ror) (is_on_chip ror).

(** *** Batches *)

(** The loop that fills the requests; the batch goes to the node of the last. *)
Fixpoint fill_batch (rs : list RdmaOpRegion) (node_id : Z) : M dsm_state (list RdmaOpRegion * Z) :=
  match rs with
  | [] => mret ([], node_id)
  | r :: rs =>
    r' ← fill_ror r;
    '(rs', n) ← fill_batch rs (nodeID (dest_addr r));
    mret (r' :: rs', n)
  end.

Definition read_batch (rs : list RdmaOpRegion) (signal : bool) (ctx : option Z) : M dsm_state unit :=
  '(rs, node_id) ← fill_batch rs (-1);
  l ← lift (rdmaReadBatch rs (signal_of signal ctx) (coro_of ctx));
  post_ctx node_id l ctx.

Definition read_batch_sync (rs : list RdmaOpRegion) (ctx : option Z) : M dsm_state unit :=
  read_batch rs true ctx ;; wait_ctx 1 ctx.

Definition write_batch (rs : list RdmaOpRegion) (signal : bool) (ctx : option Z) : M dsm_state unit :=
  '(rs, node_id) ← fill_batch rs (-1);
  l ← lift (rdmaWriteBatch rs (signal_of signal ctx) (coro_of ctx));
  post_ctx node_id l ctx.

Definition write_batch_sync (rs : list RdmaOpRegion) (ctx : option Z) : M dsm_state unit :=
  write_batch rs true ctx ;; wait_ctx 1 ctx.

(** [each_rs[node_id][cnt[node_id]++] = rs[i]]: both indices are checked
    by nobody, so a bad one is undefined. *)
Definition add_each (each : list (list RdmaOpRegion)) (limit : Z) (r : RdmaOpRegion) :
    res (list (list RdmaOpRegion)) :=
  let node_id := nodeID (dest_addr r) in
  row ← idx_ each node_id;
  defined (Z.of_nat (length row) <? limit) ;;
  Ok (<[Z.to_nat node_id := row ++ [r]]> each).

(** The inner loop of [read_batches_sync]: it stops when a row is full. *)
Fixpoint split_reads (rs : list RdmaOpRegion) (each : list (list RdmaOpRegion)) :
    res (list (list RdmaOpRegion) * list RdmaOpRegion) :=
  match rs with
  | [] => Ok (each, [])
  | r :: rs =>
    each ← add_each each kReadOroMax r;
    row ← idx_ each (nodeID (dest_addr r));
    if kReadOroMax <=? Z.of_nat (length row) then Ok (each, rs) else split_reads rs each
  end.

Definition no_rows : list (list RdmaOpRegion) := replicate (Z.to_nat MAX_MACHINE) [].

(** One batch for each machine that has requests; the number of batches. *)
Fixpoint read_rows (each : list (list RdmaOpRegion)) (ctx : option Z) : M dsm_state Z :=
  match each with
  | [] => mret 0
  | [] :: each => read_rows each ctx
  | row :: each => read_batch row true ctx ;; n ← read_rows each ctx; mret (n + 1)
  end.

Fixpoint read_batches_loop (fuel : nat) (rs : list RdmaOpRegion) (poll_num : Z) (ctx : option Z) :
    M dsm_state Z :=
  match rs, fuel with
  | [], _ => mret poll_num
  | _, O => lift (Fail EFuel)
  | _, S fuel =>
    '(each, rs) ← lift (split_reads rs no_rows);
    n ← read_rows each ctx;
    read_batches_loop fuel rs (poll_num + n) ctx
  end.

Definition read_batches_sync (rs : list RdmaOpRegion) (ctx : option Z) : M dsm_state unit :=
  poll_num ← read_batches_loop (length rs) rs 0 ctx;
  wait_ctx poll_num ctx.

Fixpoint split_writes (rs : list RdmaOpRegion) (each : list (list RdmaOpRegion)) :
    res (list (list RdmaOpRegion)) :=
  match rs with
  | [] => Ok each
  | r :: rs => each ← add_each each kWriteOroMax r; split_writes rs each
  end.

Fixpoint write_rows (each : list (list RdmaOpRegion)) (ctx : option Z) : M dsm_state Z :=
  match each with
  | [] => mret 0
  | [] :: each => write_rows each ctx
  | row :: each => write_batch row true ctx ;; n ← write_rows each ctx; mret (n + 1)
  end.

Definition write_batches_sync (rs : list RdmaOpRegion) (ctx : option Z) : M dsm_state unit :=
  each ← lift (split_writes rs no_rows);
  poll_num ← write_rows each ctx;
  wait_ctx poll_num ctx.

(** *** Two requests in one chain *)
Definition write_faa (write_ror faa_ror : RdmaOpRegion) (add_val : Z) (signal : bool) (ctx : option Z) :
    M dsm_state unit :=
  let node_id := nodeID (dest_addr write_ror) in
  write_ror ← fill_ror write_ror;
  faa_ror ← fill_ror faa_ror;
  post_ctx node_id (rdmaWriteFaa write_ror faa_ror add_val (signal_of signal ctx) (coro_of ctx)) ctx.

Definition write_faa_sync (write_ror faa_ror : RdmaOpRegion) (add_val : Z) (ctx : option Z) :
    M dsm_state unit :=
  write_faa write_ror faa_ror add_val true ctx ;; wait_ctx 1 ctx.

Definition write_cas (write_ror cas_ror : RdmaOpRegion) (equal val : Z) (signal : bool) (ctx : option Z) :
    M dsm_state unit :=
  let node_id := nodeID (dest_addr write_ror) in
  write_ror ← fill_ror write_ror;
  cas_ror ← fill_ror cas_ror;
  post_ctx node_id (rdmaWriteCas write_ror cas_ror equal val (signal_of signal ctx) (coro_of ctx)) ctx.

Definition write_cas_sync (write_ror cas_ror : RdmaOpRegion) (equal val : Z) (ctx : option Z) :
    M dsm_state unit :=
  write_cas write_ror cas_ror equal val true ctx ;; wait_ctx 1 ctx.

Definition write_cas_mask (write_ror cas_ror : RdmaOpRegion) (equal val mask : Z) (signal : bool)
    (ctx : option Z) : M dsm_state unit :=
  let node_id := nodeID (dest_addr write_ror) in
  write_ror ← fill_ror write_ror;
  cas_ror ← fill_ror cas_ror;
  post_ctx node_id
    (rdmaWriteCasMask write_ror cas_ror equal val mask (signal_of signal ctx) (coro_of ctx)) ctx.

Definition write_cas_mask_sync (write_ror cas_ror : RdmaOpRegion) (equal val mask : Z) (ctx : option Z) :
    M dsm_state unit :=
  write_cas_mask write_ror cas_ror equal val mask true ctx ;; wait_ctx 1 ctx.

Definition cas_read (cas_ror read_ror : RdmaOpRegion) (equal val : Z) (signal : bool) (ctx : option Z) :
    M dsm_state unit :=
  let node_id := nodeID (dest_addr cas_ror) in
  cas_ror ← fill_ror cas_ror;
  read_ror ← fill_ror read_ror;
  post_ctx node_id (rdmaCasRead cas_ror read_ror equal val (signal_of signal ctx) (coro_of ctx)) ctx.

Definition cas_read_sync (cas_ror read_ror : RdmaOpRegion) (equal val : Z) (ctx : option Z) :
    M dsm_state bool :=
  cas_read cas_ror read_ror equal val true ctx ;; wait_ctx 1 ctx ;;
  old ← load_local (source cas_ror); mret (equal =? old).

Definition read_cas (read_ror cas_ror : RdmaOpRegion) (equal val : Z) (signal : bool) (ctx : option Z) :
    M dsm_state unit :=
  let node_id := nodeID (dest_addr read_ror) in
  read_ror ← fill_ror read_ror;
  cas_ror ← fill_ror cas_ror;
  post_ctx node_id (rdmaReadCas read_ror cas_ror equal val (signal_of signal ctx) (coro_of ctx)) ctx.

Definition read_cas_sync (read_ror cas_ror : RdmaOpRegion) (equal val : Z) (ctx : option Z) :
    M dsm_state bool :=
  read_cas read_ror cas_ror equal val true ctx ;; wait_ctx 1 ctx ;;
  old ← load_local (source cas_ror); mret (equal =? old).

Definition cas_write (cas_ror write_ror : RdmaOpRegion) (equal val : Z) (signal : bool) (ctx : option Z) :
    M dsm_state unit :=
  let node_id := nodeID (dest_addr cas_ror) in
  cas_ror ← fill_ror cas_ror;
  write_ror ← fill_ror write_ror;
  post_ctx node_id (rdmaCasWrite cas_ror write_ror equal val (signal_of signal ctx) (coro_of ctx)) ctx.

(** *** Atomic operations on one word *)
Definition cas (gaddr : GlobalAddress) (equal val rdma_buffer : Z) (signal : bool) (ctx : option Z) :
    M dsm_state unit :=
  i ← info (nodeID gaddr);
  post_ctx (nodeID gaddr)
    (rdmaCompareAndSwap rdma_buffer (wrap 64 (dsmBase i + offset gaddr)) equal val cacheLKey (dsmRKey i)
       (signal_of signal ctx) (coro_of ctx)) ctx.

Definition cas_sync (gaddr : GlobalAddress) (equal val rdma_buffer : Z) (ctx : option Z) :
    M dsm_state bool :=
  cas gaddr equal val rdma_buffer true ctx ;; wait_ctx 1 ctx ;;
  old ← load_local rdma_buffer; mret (equal =? old).

Definition cas_mask (gaddr : GlobalAddress) (equal val rdma_buffer mask : Z) (signal : bool)
    (ctx : option Z) : M dsm_state unit :=
  i ← info (nodeID gaddr);
  post_ctx (nodeID gaddr)
    (rdmaCompareAndSwapMask rdma_buffer (wrap 64 (dsmBase i + offset gaddr)) equal val cacheLKey (dsmRKey i)
       mask (signal_of signal ctx) (coro_of ctx)) ctx.

Definition cas_mask_sync (gaddr : GlobalAddress) (equal val rdma_buffer mask : Z) (ctx : option Z) :
    M dsm_state bool :=
  cas_mask gaddr equal val rdma_buffer mask true ctx ;; wait_ctx 1 ctx ;;
  old ← load_local rdma_buffer; mret (masked_eq equal old mask).

Definition faa_boundary (gaddr : GlobalAddress) (add_val rdma_buffer mask : Z) (signal : bool)
    (ctx : option Z) : M dsm_state unit :=
  i ← info (nodeID gaddr);
  post_ctx (nodeID gaddr)
    (rdmaFetchAndAddBoundary rdma_buffer (wrap 64 (dsmBase i + offset gaddr)) add_val cacheLKey (dsmRKey i)
       mask (signal_of signal ctx) (coro_of ctx)) ctx.

Definition faa_boundary_sync (gaddr : GlobalAddress) (add_val rdma_buffer mask : Z) (ctx : option Z) :
    M dsm_state unit :=
  faa_boundary gaddr add_val rdma_buffer mask true ctx ;; wait_ctx 1 ctx.

(** *** The on-chip memory *)
Definition read_dm (buffer : Z) (gaddr : GlobalAddress) (size : Z) (signal : bool) (ctx : option Z) :
    M dsm_state unit :=
  i ← info (nodeID gaddr);
  post_ctx (nodeID gaddr)
    (rdmaRead buffer (wrap 64 (lockBase i + offset gaddr)) size cacheLKey (lockRKey i)
       (signal_of signal ctx) (coro_of ctx)) ctx.

Definition read_dm_sync (buffer : Z) (gaddr : GlobalAddress) (size : Z) (ctx : option Z) :
    M dsm_state unit :=
  read_dm buffer gaddr size true ctx ;; wait_ctx 1 ctx.

Definition write_dm (buffer : Z) (gaddr : GlobalAddress) (size : Z) (signal : bool) (ctx : option Z) :
    M dsm_state unit :=
  i ← info (nodeID gaddr);
  post_ctx (nodeID gaddr)
    (rdmaWrite buffer (wrap 64 (lockBase i + offset gaddr)) size cacheLKey (lockRKey i) (-1)
       (signal_of signal ctx) (coro_of ctx)) ctx.

Definition write_dm_sync (buffer : Z) (gaddr : GlobalAddress) (size : Z) (ctx : option Z) :
    M dsm_state unit :=
  write_dm buffer gaddr size true ctx ;; wait_ctx 1 ctx.

Definition cas_dm (gaddr : GlobalAddress) (equal val rdma_buffer : Z) (signal : bool) (ctx : option Z) :
    M dsm_state unit :=
  i ← info (nodeID gaddr);
  post_ctx (nodeID gaddr)
    (rdmaCompareAndSwap rdma_buffer (wrap 64 (lockBase i + offset gaddr)) equal val cacheLKey (lockRKey i)
       (signal_of signal ctx) (coro_of ctx)) ctx.

Definition cas_dm_sync (gaddr : GlobalAddress) (equal val rdma_buffer : Z) (ctx : option Z) :
    M dsm_state bool :=
  cas_dm gaddr equal val rdma_buffer true ctx ;; wait_ctx 1 ctx ;;
  old ← load_local rdma_buffer; mret (equal =? old).

Definition cas_dm_mask (gaddr : GlobalAddress) (equal val rdma_buffer mask : Z) (signal : bool)
    (ctx : option Z) : M dsm_state unit :=
  i ← info (nodeID gaddr);
  post_ctx (nodeID gaddr)
    (rdmaCompareAndSwapMask rdma_buffer (wrap 64 (lockBase i + offset gaddr)) equal val cacheLKey (lockRKey i)
       mask (signal_of signal ctx) (coro_of ctx)) ctx.

Definition cas_dm_mask_sync (gaddr : GlobalAddress) (equal val rdma_buffer mask : Z) (ctx : option Z) :
    M dsm_state bool :=
  cas_dm_mask gaddr equal val rdma_buffer mask true ctx ;; wait_ctx 1 ctx ;;
  old ← load_local rdma_buffer; mret (masked_eq equal old mask).

Definition faa_dm_boundary (gaddr : GlobalAddress) (add_val rdma_buffer mask : Z) (signal : bool)
    (ctx : option Z) : M dsm_state unit :=
  i ← info (nodeID gaddr);
  post_ctx (nodeID gaddr)
    (rdmaFetchAndAddBoundary rdma_buffer (wrap 64 (lockBase i + offset gaddr)) add_val cacheLKey (lockRKey i)
       mask (signal_of signal ctx) (coro_of ctx)) ctx.

Definition faa_dm_boundary_sync (gaddr : GlobalAddress) (add_val rdma_buffer mask : Z) (ctx : option Z) :
    M dsm_state unit :=
  faa_dm_boundary gaddr add_val rdma_buffer mask true ctx ;; wait_ctx 1 ctx.

(** *** Operations that may span two nodes *)
Definition cas_write_sync (cas_ror write_ror : RdmaOpRegion) (equal val : Z) (ctx : option Z) :
    M dsm_state bool :=
  (if nodeID (dest_addr cas_ror) =? nodeID (dest_addr write_ror) then
     cas_write cas_ror write_ror equal val true ctx ;; wait_ctx 1 ctx
   else
     (if negb (is_on_chip cas_ror) then cas (dest_addr cas_ror) equal val (source cas_ror) true ctx
      else cas_dm (dest_addr cas_ror) equal val (source cas_ror) true ctx) ;;
     (if negb (is_on_chip write_ror) then write (source write_ror) (dest_addr write_ror) (size write_ror) true ctx
      else write_dm (source write_ror) (dest_addr write_ror) (size write_ror) true ctx) ;;
     wait_ctx 2 ctx) ;;
  old ← load_local (source cas_ror); mret (equal =? old).

Definition two_cas_mask (cas_ror_1 : RdmaOpRegion) (equal_1 val_1 mask_1 : Z) (cas_ror_2 : RdmaOpRegion)
    (equal_2 val_2 mask_2 : Z) (signal : bool) (ctx : option Z) : M dsm_state unit :=
  let node_id := nodeID (dest_addr cas_ror_1) in
  cas_ror_1 ← fill_ror cas_ror_1;
  cas_ror_2 ← fill_ror cas_ror_2;
  post_ctx node_id (rdmaTwoCasMask cas_ror_1 equal_1 val_1 mask_1 cas_ror_2 equal_2 val_2 mask_2
                      (signal_of signal ctx) (coro_of ctx)) ctx.

Definition two_cas_mask_sync (cas_ror_1 : RdmaOpRegion) (equal_1 val_1 mask_1 : Z)
    (cas_ror_2 : RdmaOpRegion) (equal_2 val_2 mask_2 : Z) (ctx : option Z) : M dsm_state (bool * bool) :=
  (if nodeID (dest_addr cas_ror_1) =? nodeID (dest_addr cas_ror_2) then
     two_cas_mask cas_ror_1 equal_1 val_1 mask_1 cas_ror_2 equal_2 val_2 mask_2 true ctx ;; wait_ctx 1 ctx
   else
     (if negb (is_on_chip cas_ror_1)
      then cas_mask (dest_addr cas_ror_1) equal_1 val_1 (source cas_ror_1) mask_1 true ctx
      else cas_dm_mask (dest_addr cas_ror_1) equal_1 val_1 (source cas_ror_1) mask_1 true ctx) ;;
     (if negb (is_on_chip cas_ror_2)
      then cas_mask (dest_addr cas_ror_2) equal_2 val_2 (source cas_ror_2) mask_2 true ctx
      else cas_dm_mask (dest_addr cas_ror_2) equal_2 val_2 (source cas_ror_2) mask_2 true ctx) ;;
     wait_ctx 2 ctx) ;;
  old_1 ← load_local (source cas_ror_1);
  old_2 ← load_local (source cas_ror_2);
  mret (equal_1 =? old_1, equal_2 =? old_2).

(** *** Polling from the tree's master *)
Definition poll_rdma_cq_once (wr : Z * list ibv_wc) : res (bool * option Z) :=
  r ← pollOnce wr; Ok (r =? 1, wc_wr_id <$> head wr.2).

Definition poll_rdma_cq_batch_once (wr : Z * list ibv_wc) (count : Z) : res (Z * list Z) :=
  check (count <=? POLL_CQ_MAX_CNT_ONCE) ;;
  r ← pollOnce wr;
  Ok (r, wc_wr_id <$> take (Z.to_nat r) wr.2).
End dsm.

(** ** The shared memory that clients see *)

Definition region_key (i : node_info) (c : bool) : Z := if c then lockRKey i else dsmRKey i.
Definition region_base (i : node_info) (c : bool) : Z := if c then lockBase i else dsmBase i.

(** The regions of the memory nodes, in the address spaces of the network. *)
Definition dsm_view (remoteInfo : list node_info) (w : mem (Z * Z)) : shared_mem := λ r o,
  let 'Reg c n := r in
  match remoteInfo !! Z.to_nat n with
  | Some i => if 0 <=? n then w (n, region_key i c) (region_base i c + o) else 0
  | None => 0
  end.

(** The state a client works with: shared memory and its own memory. *)
Record abs : Type := Abs { sm : shared_mem; lm : mem unit }.

Definition a_read (c : bool) (g : GlobalAddress) (buf size : Z) (st : abs) : abs :=
  Abs (sm st) (store (lm st) tt buf (load (sm st) (Reg c (nodeID g)) (offset g) (Z.to_nat size))).

Definition a_write (c : bool) (g : GlobalAddress) (buf size : Z) (st : abs) : abs :=
  Abs (store (sm st) (Reg c (nodeID g)) (offset g) (load (lm st) tt buf (Z.to_nat size))) (lm st).

(** An atomic operation: the old word goes to the buffer. *)
Definition a_atomic (f : shared_mem → region → Z → Z * shared_mem) (c : bool) (g : GlobalAddress)
    (buf : Z) (st : abs) : abs :=
  let p := f (sm st) (Reg c (nodeID g)) (offset g) in Abs p.2 (store_word (lm st) tt buf p.1).

Definition a_cas (equal val : Z) := a_atomic (λ m k o, mem_cas m k o equal val).
Definition a_cas_mask (equal val mask : Z) := a_atomic (λ m k o, mem_cas_mask m k o equal val mask).
Definition a_faa (add boundary : Z) := a_atomic (λ m k o, mem_faa m k o add boundary).

(** The old word of an atomic operation on [g]. *)
Definition a_word (c : bool) (g : GlobalAddress) (st : abs) : Z :=
  load_word (sm st) (Reg c (nodeID g)) (offset g).

Definition info_ok (i : node_info) : Prop :=
  0 <= dsmBase i ∧ dsmBase i + 2 ^ 48 <= 2 ^ 64 ∧ 0 <= lockBase i ∧ lockBase i + 2 ^ 48 <= 2 ^ 64 ∧
  dsmRKey i ≠ lockRKey i.

(** Two clients' states are the same when no byte differs. *)
#[export] Instance abs_equiv : Equiv abs := λ a b, sm a ≡ sm b ∧ lm a ≡ lm b.

#[export] Instance abs_equivalence : Equivalence (≡@{abs}).
Proof.
  split.
  - intros a. by split.
  - intros a b [H1 H2]. split; by symmetry.
  - intros a b c [H1 H2] [H3 H4]. split; by etransitivity.
Qed.

#[export] Instance a_read_proper c g buf size : Proper ((≡) ==> (≡)) (a_read c g buf size).
Proof. intros a b [H1 H2]. split; [done|]. cbn. by rewrite H1, H2. Qed.

#[export] Instance a_write_proper c g buf size : Proper ((≡) ==> (≡)) (a_write c g buf size).
Proof. intros a b [H1 H2]. split; [|done]. cbn. by rewrite H1, H2. Qed.

Section refinement.
Context `{Nic} (remoteInfo : list node_info) (cacheLKey : Z).
Context (infos_ok : Forall info_ok remoteInfo).

#[local] Abbreviation view := (dsm_view remoteInfo).

(** The network stands for a client's state. *)
Definition stands (w : net) (st : abs) : Prop := view (remote w) ≡ sm st ∧ local w ≡ lm st.

Definition known (g : GlobalAddress) : Prop :=
  gaddr_ok g ∧ nodeID g < Z.of_nat (length remoteInfo).

Lemma known_info g :
  known g → ∃ i, remoteInfo !! Z.to_nat (nodeID g) = Some i ∧ info_ok i ∧
    idx_ remoteInfo (nodeID g) = Ok i ∧
    ∀ c, wrap 64 (region_base i c + offset g) = region_base i c + offset g.
Proof.
  intros [[[Hn _] Ho] Hlt].
  destruct (lookup_lt_is_Some_2 remoteInfo (Z.to_nat (nodeID g))) as [i Hi]; [lia|].
  pose proof (Forall_lookup_1 _ _ _ _ infos_ok Hi) as Hok.
  exists i. split; [done|]. split; [done|]. split; [by apply idx_Ok|].
  intros c. apply wrap_small. destruct Hok as (H1 & H2 & H3 & H4 & _).
  unfold uint in *. destruct c; cbn; lia.
Qed.

Lemma load_view w g i c n :
  known g → remoteInfo !! Z.to_nat (nodeID g) = Some i →
  load (view w) (Reg c (nodeID g)) (offset g) n
  = load w (nodeID g, region_key i c) (region_base i c + offset g) n.
Proof.
  intros [[[Hn _] _] _] Hi. apply load_ext_across. intros j Hj. unfold dsm_view. rewrite Hi.
  rewrite (proj2 (Z.leb_le 0 _)) by done. f_equal. lia.
Qed.

Lemma store_view w g i c bs :
  known g → remoteInfo !! Z.to_nat (nodeID g) = Some i → info_ok i →
  view (store w (nodeID g, region_key i c) (region_base i c + offset g) bs)
  ≡ store (view w) (Reg c (nodeID g)) (offset g) bs.
Proof.
  intros [[[Hn _] _] _] Hi (_ & _ & _ & _ & Hne) [c' n'] o. unfold dsm_view, store.
  destruct (remoteInfo !! Z.to_nat n') as [i'|] eqn:Hi'.
  2: { rewrite decide_False; [done|]. intros [= -> ->]. congruence. }
  destruct (Z.leb_spec 0 n').
  2: { rewrite decide_False; [done|]. intros [= -> ->]. lia. }
  destruct (decide (n' = nodeID g)) as [->|Hnn].
  2: { rewrite !decide_False; [done|congruence|congruence]. }
  rewrite Hi in Hi'. injection Hi' as <-.
  destruct (decide (c' = c)) as [->|Hc].
  - rewrite !decide_True by done.
    replace (region_base i c + offset g <=? region_base i c + o) with (offset g <=? o)
      by (destruct (Z.leb_spec (offset g) o); symmetry; [apply Z.leb_le|apply Z.leb_gt]; lia).
    replace (region_base i c + o <? region_base i c + offset g + Z.of_nat (length bs))
      with (o <? offset g + Z.of_nat (length bs))
      by (destruct (Z.ltb_spec o (offset g + Z.of_nat (length bs))); symmetry;
          [apply Z.ltb_lt|apply Z.ltb_ge]; lia).
    replace (region_base i c + o - (region_base i c + offset g)) with (o - offset g) by lia. done.
  - rewrite !decide_False; [done|congruence|]. intros [= Hk].
    destruct c, c'; cbn in Hk; congruence.
Qed.

Lemma load_word_view w g i c :
  known g → remoteInfo !! Z.to_nat (nodeID g) = Some i →
  load_word (view w) (Reg c (nodeID g)) (offset g)
  = load_word w (nodeID g, region_key i c) (region_base i c + offset g).
Proof. intros Hg Hi. unfold load_word. by rewrite (load_view w g i c). Qed.

(** *** One request *)
Lemma sim_read w st g i c buf size id lk sg inl :
  stands w st → known g → remoteInfo !! Z.to_nat (nodeID g) = Some i → uint 32 size →
  stands (exec (nodeID g) (Wr id (fillSgeWr buf size lk)
            (WR_RDMA_READ (region_base i c + offset g) (region_key i c)) sg inl) w)
         (a_read c g buf size st).
Proof.
  intros [Hv Hl] Hg Hi Hs. unfold fillSgeWr. rewrite exec_read. split; cbn; [done|].
  by rewrite (wrap_small 32 size), Hl, <-(load_view _ g i c), Hv.
Qed.

Lemma sim_write w st g i c buf size id lk sg inl :
  stands w st → known g → remoteInfo !! Z.to_nat (nodeID g) = Some i → info_ok i → uint 32 size →
  stands (exec (nodeID g) (Wr id (fillSgeWr buf size lk)
            (WR_RDMA_WRITE (region_base i c + offset g) (region_key i c)) sg inl) w)
         (a_write c g buf size st).
Proof.
  intros [Hv Hl] Hg Hi Hio Hs. unfold fillSgeWr. rewrite exec_write. split; cbn; [|done].
  by rewrite (wrap_small 32 size), store_view, Hv, Hl.
Qed.

Lemma sim_cas w st g i c e v buf id n lk sg inl :
  stands w st → known g → remoteInfo !! Z.to_nat (nodeID g) = Some i → info_ok i →
  stands (exec (nodeID g) (Wr id (fillSgeWr buf n lk)
            (WR_ATOMIC_CMP_AND_SWP (region_base i c + offset g) (region_key i c) e v) sg inl) w)
         (a_cas e v c g buf st).
Proof.
  intros [Hv Hl] Hg Hi Hio. unfold fillSgeWr, a_cas, a_atomic. rewrite exec_cas.
  unfold mem_cas; cbn [fst snd remote local]. rewrite <-(load_word_view _ g i c), Hv by done.
  split; cbn [remote local sm lm fst snd]; [destruct (_ =? _); [|done]; unfold store_word; by rewrite store_view, Hv|].
  unfold store_word. by rewrite Hl.
Qed.

Lemma sim_cas_mask w st g i c e v m buf id n lk sg inl :
  stands w st → known g → remoteInfo !! Z.to_nat (nodeID g) = Some i → info_ok i →
  stands (exec (nodeID g) (Wr id (fillSgeWr buf n lk)
            (WR_MASKED_CMP_AND_SWP (region_base i c + offset g) (region_key i c) e v m m) sg inl) w)
         (a_cas_mask e v m c g buf st).
Proof.
  intros [Hv Hl] Hg Hi Hio. unfold fillSgeWr, a_cas_mask, a_atomic. rewrite exec_cas_mask.
  unfold mem_cas_mask; cbn [fst snd remote local]. rewrite <-(load_word_view _ g i c), Hv by done.
  split; cbn [remote local sm lm fst snd]; [destruct (masked_eq _ _ _); [|done]; unfold store_word; by rewrite store_view, Hv|].
  unfold store_word. by rewrite Hl.
Qed.

Lemma sim_faa w st g i c add b buf id n lk sg inl :
  stands w st → known g → remoteInfo !! Z.to_nat (nodeID g) = Some i → info_ok i → 0 <= b < 64 →
  stands (exec (nodeID g) (Wr id (fillSgeWr buf n lk)
            (WR_MASKED_FETCH_AND_ADD (region_base i c + offset g) (region_key i c) add
               (wrap 64 (Z.shiftl 1 b))) sg inl) w)
         (a_faa add b c g buf st).
Proof.
  intros [Hv Hl] Hg Hi Hio Hb. unfold fillSgeWr, a_faa, a_atomic.
  rewrite Z.shiftl_1_l, (wrap_small 64 (2 ^ b)).
  2: { split; [lia|]. apply Z.pow_lt_mono_r; lia. }
  rewrite exec_faa_mask by done.
  unfold mem_faa; cbn [fst snd remote local]. rewrite <-(load_word_view _ g i c), Hv by done.
  split; cbn [remote local sm lm fst snd]; unfold store_word; [by rewrite store_view, Hv|by rewrite Hl].
Qed.

Lemma sim_faa_plain w st g i c add buf id n lk sg inl :
  stands w st → known g → remoteInfo !! Z.to_nat (nodeID g) = Some i → info_ok i →
  stands (exec (nodeID g) (Wr id (fillSgeWr buf n lk)
            (WR_ATOMIC_FETCH_AND_ADD (region_base i c + offset g) (region_key i c) add) sg inl) w)
         (a_faa add 63 c g buf st).
Proof.
  intros [Hv Hl] Hg Hi Hio. unfold fillSgeWr, a_faa, a_atomic. rewrite exec_faa.
  unfold mem_faa; cbn [fst snd remote local]. rewrite <-(load_word_view _ g i c), Hv by done.
  split; cbn [remote local sm lm fst snd]; unfold store_word; [by rewrite store_view, Hv|by rewrite Hl].
Qed.
(** *** Waiting *)
Definition idle (s : dsm_state) : Prop := cq s = 0.

(** A thread with nothing in flight, whose network stands for [st]. *)
Definition ready (s : dsm_state) (st : abs) : Prop := idle s ∧ stands (dnet s) st.

Lemma poll_loop_all k w rest count wc :
  (0 < k)%nat →
  poll_loop (replicate k (1, w) ++ rest) count (count + Z.of_nat k) wc
  = Ok (count + Z.of_nat k, Some w, rest).
Proof.
  revert count wc. induction k as [|k IH]; intros count wc Hk; [lia|]. cbn [replicate app poll_loop].
  destruct k as [|k].
  - cbn [replicate app]. destruct (Z.ltb_spec (count + 1) (count + Z.of_nat 1)); [lia|done].
  - destruct (Z.ltb_spec (count + 1) (count + Z.of_nat (S (S k)))); [|lia].
    replace (count + Z.of_nat (S (S k))) with (count + 1 + Z.of_nat (S k)) by lia.
    by rewrite IH by lia.
Qed.

(** Polling for as many completions as there are takes them all. *)
Lemma poll_all s n : 0 < n → cq s = n → poll n s = Ok (tt, DS (dnet s) 0).
Proof.
  intros Hn Hc. unfold poll, pollWithCQ. rewrite Hc.
  pose proof (poll_loop_all (Z.to_nat n) (Wc true 0) [(0, Wc true 0)] 0 None ltac:(lia)) as Hp.
  rewrite Z2Nat.id, Z.add_0_l in Hp by lia. rewrite Hp. cbn [mbind res_bind].
  destruct (Z.ltb_spec n 0); [lia|]. done.
Qed.

Definition signals (l : list send_wr) : Z := sum_of (λ r, Z.b2z (signaled r)) l.

Definition exec_list (node : Z) (l : list send_wr) (w : net) : net :=
  foldl (λ w r, exec node r w) w l.

(** One chain with one signaled request, and the wait for it. *)
Lemma post_wait node l ctx s :
  idle s → signals l = 1 →
  (post_ctx node l ctx ;; wait_ctx 1 ctx) s = Ok (tt, DS (exec_list node l (dnet s)) 0).
Proof.
  intros Hi Hl. unfold idle in Hi. unfold post_ctx, wait_ctx, signals in *. destruct ctx.
  - unfold mbind, M_bind, mret, M_ret, post, yield. cbn [cq]. by rewrite Hi, Hl.
  - unfold mbind, M_bind, post. rewrite Hi, Hl. by rewrite poll_all.
Qed.

Lemma info_known g s : known g →
  ∃ i, info remoteInfo (nodeID g) s = Ok (i, s) ∧ remoteInfo !! Z.to_nat (nodeID g) = Some i ∧
       info_ok i ∧ ∀ c, wrap 64 (region_base i c + offset g) = region_base i c + offset g.
Proof.
  intros Hg. destruct (known_info g Hg) as (i & Hi & Hok & E & Hw).
  exists i. unfold info, lift. rewrite E. done.
Qed.

Lemma bind_assoc {S A B C} (m : M S A) (f : A → M S B) (g : B → M S C) s :
  ((m ≫= f) ≫= g) s = (m ≫= λ a, f a ≫= g) s.
Proof. unfold mbind, M_bind. by destruct (m s) as [[a s']|]. Qed.

Lemma bind_run {S A B} (m : M S A) (f : A → M S B) s a s' :
  m s = Ok (a, s') → (m ≫= f) s = f a s'.
Proof. unfold mbind, M_bind. by intros ->. Qed.

(** The verb of either region. *)
Definition read_any (c : bool) := if c then read_dm_sync remoteInfo cacheLKey else read_sync remoteInfo cacheLKey.
Definition write_any (c : bool) := if c then write_dm_sync remoteInfo cacheLKey else write_sync remoteInfo cacheLKey.
Definition cas_any (c : bool) := if c then cas_dm_sync remoteInfo cacheLKey else cas_sync remoteInfo cacheLKey.
Definition cas_mask_any (c : bool) :=
  if c then cas_dm_mask_sync remoteInfo cacheLKey else cas_mask_sync remoteInfo cacheLKey.
Definition faa_any (c : bool) :=
  if c then faa_dm_boundary_sync remoteInfo cacheLKey else faa_boundary_sync remoteInfo cacheLKey.

Lemma signal_true ctx : signal_of true ctx = true.
Proof. by destruct ctx. Qed.

Lemma read_any_spec c g buf size ctx s st :
  known g → ready s st → uint 32 size →
  ∃ s', read_any c buf g size ctx s = Ok (tt, s') ∧ ready s' (a_read c g buf size st).
Proof.
  intros Hg [Hid Hst] Hs. destruct (info_known g s Hg) as (i & Ei & Hi & Hok & Hw).
  pose proof (Hw c) as Hwc.
  exists (DS (exec_list (nodeID g) (rdmaRead buf (region_base i c + offset g) size cacheLKey
    (region_key i c) true (coro_of ctx)) (dnet s)) 0). split.
  - destruct c; cbn [read_any region_base] in *; unfold read_dm_sync, read_sync, read_dm, read;
      rewrite bind_assoc, (bind_run _ _ _ _ _ Ei), Hwc, signal_true; by apply post_wait.
  - split; [done|]. cbn [exec_list foldl dnet]. destruct c; by apply sim_read.
Qed.

Lemma write_any_spec c g buf size ctx s st :
  known g → ready s st → uint 32 size →
  ∃ s', write_any c buf g size ctx s = Ok (tt, s') ∧ ready s' (a_write c g buf size st).
Proof.
  intros Hg [Hid Hst] Hs. destruct (info_known g s Hg) as (i & Ei & Hi & Hok & Hw).
  pose proof (Hw c) as Hwc.
  exists (DS (exec_list (nodeID g) (rdmaWrite buf (region_base i c + offset g) size cacheLKey
    (region_key i c) (-1) true (coro_of ctx)) (dnet s)) 0). split.
  - destruct c; cbn [write_any region_base] in *; unfold write_dm_sync, write_sync, write_dm, write;
      rewrite bind_assoc, (bind_run _ _ _ _ _ Ei), Hwc, signal_true; by apply post_wait.
  - split; [done|]. cbn [exec_list foldl dnet]. destruct c; by apply sim_write.
Qed.

(** The old word is what the buffer holds afterwards. *)
Lemma old_word w st f c g buf :
  stands w (a_atomic f c g buf st) → uint 64 (f (sm st) (Reg c (nodeID g)) (offset g)).1 →
  load_word (local w) tt buf = (f (sm st) (Reg c (nodeID g)) (offset g)).1.
Proof. intros [_ Hl] Hr. rewrite Hl. by apply load_store_word. Qed.

Lemma cas_any_spec c g e v buf ctx s st :
  known g → ready s st → mem_ok (sm st) →
  ∃ s', cas_any c g e v buf ctx s = Ok (e =? a_word c g st, s') ∧ ready s' (a_cas e v c g buf st).
Proof.
  intros Hg [Hid Hst] Hm. destruct (info_known g s Hg) as (i & Ei & Hi & Hok & Hw).
  pose proof (Hw c) as Hwc. set (l := rdmaCompareAndSwap buf (region_base i c + offset g) e v cacheLKey
                                        (region_key i c) true (coro_of ctx)).
  assert (stands (exec_list (nodeID g) l (dnet s)) (a_cas e v c g buf st)) as Hs
    by (destruct c; by apply sim_cas).
  exists (DS (exec_list (nodeID g) l (dnet s)) 0). split; [|by split].
  assert (a_word c g st = load_word (local (exec_list (nodeID g) l (dnet s))) tt buf) as ->
    by (symmetry; by apply (old_word _ st _ c g buf Hs), load_word_range).
  destruct c; cbn [cas_any region_base] in *; unfold cas_dm_sync, cas_sync, cas_dm, cas;
    rewrite !bind_assoc, (bind_run _ _ _ _ _ Ei), Hwc, signal_true, <-bind_assoc;
    by erewrite bind_run by by apply post_wait.
Qed.

Lemma cas_mask_any_spec c g e v buf m ctx s st :
  known g → ready s st → mem_ok (sm st) →
  ∃ s', cas_mask_any c g e v buf m ctx s = Ok (masked_eq e (a_word c g st) m, s') ∧
        ready s' (a_cas_mask e v m c g buf st).
Proof.
  intros Hg [Hid Hst] Hm. destruct (info_known g s Hg) as (i & Ei & Hi & Hok & Hw).
  pose proof (Hw c) as Hwc. set (l := rdmaCompareAndSwapMask buf (region_base i c + offset g) e v cacheLKey
                                        (region_key i c) m true (coro_of ctx)).
  assert (stands (exec_list (nodeID g) l (dnet s)) (a_cas_mask e v m c g buf st)) as Hs
    by (destruct c; by apply sim_cas_mask).
  exists (DS (exec_list (nodeID g) l (dnet s)) 0). split; [|by split].
  assert (a_word c g st = load_word (local (exec_list (nodeID g) l (dnet s))) tt buf) as ->
    by (symmetry; by apply (old_word _ st _ c g buf Hs), load_word_range).
  destruct c; cbn [cas_mask_any region_base] in *; unfold cas_dm_mask_sync, cas_mask_sync, cas_dm_mask, cas_mask;
    rewrite !bind_assoc, (bind_run _ _ _ _ _ Ei), Hwc, signal_true, <-bind_assoc;
    by erewrite bind_run by by apply post_wait.
Qed.

Lemma faa_any_spec c g add b buf ctx s st :
  known g → ready s st → 0 <= b < 64 →
  ∃ s', faa_any c g add buf b ctx s = Ok (tt, s') ∧ ready s' (a_faa add b c g buf st).
Proof.
  intros Hg [Hid Hst] Hb. destruct (info_known g s Hg) as (i & Ei & Hi & Hok & Hw).
  pose proof (Hw c) as Hwc.
  exists (DS (exec_list (nodeID g) (rdmaFetchAndAddBoundary buf (region_base i c + offset g)
    add cacheLKey (region_key i c) b true (coro_of ctx)) (dnet s)) 0). split.
  - destruct c; cbn [faa_any region_base] in *;
      unfold faa_dm_boundary_sync, faa_boundary_sync, faa_dm_boundary, faa_boundary;
      rewrite bind_assoc, (bind_run _ _ _ _ _ Ei), Hwc, signal_true; by apply post_wait.
  - split; [done|]. cbn [exec_list foldl dnet]. destruct c; by apply sim_faa.
Qed.

(** *** Chains and batches *)

(** The effect of a request on a client's state. *)
Definition a_read_r (r : RdmaOpRegion) := a_read (is_on_chip r) (dest_addr r) (source r) (size r).
Definition a_write_r (r : RdmaOpRegion) := a_write (is_on_chip r) (dest_addr r) (source r) (size r).
Definition a_cas_r (e v : Z) (r : RdmaOpRegion) := a_cas e v (is_on_chip r) (dest_addr r) (source r).
Definition a_cas_mask_r (e v m : Z) (r : RdmaOpRegion) :=
  a_cas_mask e v m (is_on_chip r) (dest_addr r) (source r).
Definition a_word_r (r : RdmaOpRegion) := a_word (is_on_chip r) (dest_addr r).

Definition ror_ok (r : RdmaOpRegion) : Prop := known (dest_addr r) ∧ uint 32 (size r).

Definition filled (i : node_info) (r : RdmaOpRegion) : RdmaOpRegion :=
  Ror (source r) (region_base i (is_on_chip r) + offset (dest_addr r)) (size r) cacheLKey
      (region_key i (is_on_chip r)).

Lemma fill_ror_run r s :
  ror_ok r → ∃ i, remoteInfo !! Z.to_nat (nodeID (dest_addr r)) = Some i ∧ info_ok i ∧
    fill_ror remoteInfo cacheLKey r s = Ok (filled i r, s).
Proof.
  intros [Hk _]. destruct (info_known (dest_addr r) s Hk) as (i & Ei & Hi & Hok & Hw).
  exists i. split; [done|]. split; [done|]. unfold fill_ror, fill_keys_dest.
  rewrite (bind_run _ _ _ _ _ Ei). unfold filled, mret, M_ret.
  pose proof (Hw true) as Ht. pose proof (Hw false) as Hf. cbn [region_base region_key] in *.
  rewrite Ht, Hf. by destruct (is_on_chip r).
Qed.

(** Two requests to one node: both are filled, then the chain is posted. *)
Lemma chain_run (mk : RdmaOpRegion → RdmaOpRegion → list send_wr) r1 r2 ctx s :
  idle s → ror_ok r1 → ror_ok r2 → nodeID (dest_addr r1) = nodeID (dest_addr r2) →
  (∀ a b, signals (mk a b) = 1) →
  ∃ i, remoteInfo !! Z.to_nat (nodeID (dest_addr r1)) = Some i ∧ info_ok i ∧
    ((a ← fill_ror remoteInfo cacheLKey r1;
      b ← fill_ror remoteInfo cacheLKey r2;
      post_ctx (nodeID (dest_addr r1)) (mk a b) ctx) ;; wait_ctx 1 ctx) s
    = Ok (tt, DS (exec_list (nodeID (dest_addr r1)) (mk (filled i r1) (filled i r2)) (dnet s)) 0).
Proof.
  intros Hid H1 H2 Hn Hmk. destruct (fill_ror_run r1 s H1) as (i & Hi & Hok & E1).
  destruct (fill_ror_run r2 s H2) as (i2 & Hi2 & _ & E2). rewrite <-Hn in Hi2. simplify_eq.
  exists i. split; [done|]. split; [done|].
  rewrite bind_assoc, (bind_run _ _ _ _ _ E1), bind_assoc, (bind_run _ _ _ _ _ E2).
  by apply post_wait.
Qed.

Lemma write_cas_mask_spec w c e v m ctx s st :
  ready s st → ror_ok w → ror_ok c → nodeID (dest_addr w) = nodeID (dest_addr c) →
  ∃ s', write_cas_mask_sync remoteInfo cacheLKey w c e v m ctx s = Ok (tt, s') ∧
        ready s' (a_cas_mask_r e v m c (a_write_r w st)).
Proof.
  intros [Hid Hst] Hw Hc Hn.
  destruct (chain_run (λ w c, rdmaWriteCasMask w c e v m (signal_of true ctx) (coro_of ctx)) w c ctx s)
    as (i & Hi & Hok & E); [done..|by intros; rewrite signal_true|].
  eexists. split; [exact E|]. split; [done|]. cbn [exec_list foldl rdmaWriteCasMask filled dnet rkey dest lkey source size].
  rewrite Hn in *. destruct Hw as [Hw1 Hw2], Hc as [Hc1 Hc2].
  apply sim_cas_mask; [|done..]. rewrite <-Hn. apply sim_write; rewrite ?Hn; done.
Qed.

Lemma write_cas_spec w c e v ctx s st :
  ready s st → ror_ok w → ror_ok c → nodeID (dest_addr w) = nodeID (dest_addr c) →
  ∃ s', write_cas_sync remoteInfo cacheLKey w c e v ctx s = Ok (tt, s') ∧
        ready s' (a_cas_r e v c (a_write_r w st)).
Proof.
  intros [Hid Hst] Hw Hc Hn.
  destruct (chain_run (λ w c, rdmaWriteCas w c e v (signal_of true ctx) (coro_of ctx)) w c ctx s)
    as (i & Hi & Hok & E); [done..|by intros; rewrite signal_true|].
  eexists. split; [exact E|]. split; [done|]. cbn [exec_list foldl rdmaWriteCas filled dnet rkey dest lkey source size].
  rewrite Hn in *. destruct Hw as [Hw1 Hw2], Hc as [Hc1 Hc2].
  apply sim_cas; [|done..]. rewrite <-Hn. apply sim_write; rewrite ?Hn; done.
Qed.

Lemma write_faa_spec w f add ctx s st :
  ready s st → ror_ok w → ror_ok f → nodeID (dest_addr w) = nodeID (dest_addr f) →
  ∃ s', write_faa_sync remoteInfo cacheLKey w f add ctx s = Ok (tt, s') ∧
        ready s' (a_faa add 63 (is_on_chip f) (dest_addr f) (source f) (a_write_r w st)).
Proof.
  intros [Hid Hst] Hw Hc Hn.
  destruct (chain_run (λ w c, rdmaWriteFaa w c add (signal_of true ctx) (coro_of ctx)) w f ctx s)
    as (i & Hi & Hok & E); [done..|by intros; rewrite signal_true|].
  eexists. split; [exact E|]. split; [done|]. cbn [exec_list foldl rdmaWriteFaa filled dnet rkey dest lkey source size].
  rewrite Hn in *. destruct Hw as [Hw1 Hw2], Hc as [Hc1 Hc2].
  apply sim_faa_plain; [|done..]. rewrite <-Hn. apply sim_write; rewrite ?Hn; done.
Qed.

(** The word an atomic operation left in [buf] survives a write elsewhere. *)
Definition apart (buf other size : Z) : Prop := buf + 8 <= other ∨ other + size <= buf.

Lemma old_word_kept w lm0 buf old other bs :
  local w ≡ store (store_word lm0 tt buf old) tt other bs → uint 64 old →
  apart buf other (Z.of_nat (length bs)) → load_word (local w) tt buf = old.
Proof.
  intros Hl Hr Ha. rewrite Hl. unfold load_word, apart in *. rewrite load_store_other by lia.
  by apply (load_store_word lm0 tt buf old).
Qed.

(** As [chain_run], for the verbs that then read a buffer. *)
Lemma chain_run_ret {A} (mk : RdmaOpRegion → RdmaOpRegion → list send_wr) r1 r2 ctx s
    (k : unit → M dsm_state A) :
  idle s → ror_ok r1 → ror_ok r2 → nodeID (dest_addr r1) = nodeID (dest_addr r2) →
  (∀ a b, signals (mk a b) = 1) →
  ∃ i, remoteInfo !! Z.to_nat (nodeID (dest_addr r1)) = Some i ∧ info_ok i ∧
    ((a ← fill_ror remoteInfo cacheLKey r1;
      b ← fill_ror remoteInfo cacheLKey r2;
      post_ctx (nodeID (dest_addr r1)) (mk a b) ctx) ;; wait_ctx 1 ctx ≫= k) s
    = k tt (DS (exec_list (nodeID (dest_addr r1)) (mk (filled i r1) (filled i r2)) (dnet s)) 0).
Proof.
  intros Hid H1 H2 Hn Hmk. destruct (chain_run mk r1 r2 ctx s Hid H1 H2 Hn Hmk) as (i & Hi & Hok & E).
  exists i. split; [done|]. split; [done|]. rewrite <-(bind_run _ k _ _ _ E).
  symmetry. apply bind_assoc.
Qed.

Lemma cas_read_spec c r e v ctx s st :
  ready s st → mem_ok (sm st) → ror_ok c → ror_ok r → nodeID (dest_addr c) = nodeID (dest_addr r) →
  apart (source c) (source r) (size r) →
  ∃ s', cas_read_sync remoteInfo cacheLKey c r e v ctx s = Ok (e =? a_word_r c st, s') ∧
        ready s' (a_read_r r (a_cas_r e v c st)).
Proof.
  intros [Hid Hst] Hm Hc Hr Hn Ha.
  destruct (chain_run_ret (λ c r, rdmaCasRead c r e v (signal_of true ctx) (coro_of ctx)) c r ctx s
    (λ _, old ← load_local (source c); mret (e =? old)))
    as (i & Hi & Hok & E); [done..|by intros; rewrite signal_true|].
  set (w := exec_list _ _ _) in E. destruct Hc as [Hc1 Hc2], Hr as [Hr1 Hr2].
  assert (stands w (a_read_r r (a_cas_r e v c st))) as Hw.
  { subst w. cbn [exec_list foldl rdmaCasRead filled rkey dest lkey source size].
    rewrite Hn in *. apply sim_read; [|done..]. rewrite <-Hn. apply sim_cas; rewrite ?Hn; done. }
  exists (DS w 0). split; [|by split]. unfold cas_read_sync, cas_read. etransitivity; [exact E|].
  unfold mbind, M_bind, load_local, mret, M_ret. cbn [dnet]. do 3 f_equal.
  eapply old_word_kept; [apply Hw|by apply load_word_range|].
  rewrite length_load. unfold uint in Hr2. by rewrite Z2Nat.id by lia.
Qed.

(** The swap of [read_ror] and [cas_ror] in [rdmaReadCas], seen from the
    verb: the compare-and-swap is on the word to be read, and the read is of
    the word to be swapped. *)
Lemma read_cas_spec r c e v ctx s st :
  ready s st → mem_ok (sm st) → ror_ok c → ror_ok r → nodeID (dest_addr r) = nodeID (dest_addr c) →
  let swapped := a_cas e v (is_on_chip r) (dest_addr r) (source c)
                   (a_read (is_on_chip c) (dest_addr c) (source r) (size r) st) in
  ∃ s', read_cas_sync remoteInfo cacheLKey r c e v ctx s
        = Ok (e =? a_word_r r st, s') ∧ ready s' swapped.
Proof.
  intros [Hid Hst] Hm Hc Hr Hn swapped.
  destruct (chain_run_ret (λ r c, rdmaReadCas r c e v (signal_of true ctx) (coro_of ctx)) r c ctx s
    (λ _, old ← load_local (source c); mret (e =? old)))
    as (i & Hi & Hok & E); [done..|by intros; rewrite signal_true|].
  set (w := exec_list _ _ _) in E. destruct Hc as [Hc1 Hc2], Hr as [Hr1 Hr2].
  assert (stands w swapped) as Hw.
  { subst w swapped. cbn [exec_list foldl rdmaReadCas filled rkey dest lkey source size].
    apply sim_cas; [|done..]. rewrite Hn in *. by apply sim_read. }
  exists (DS w 0). split; [|by split]. unfold read_cas_sync, read_cas. etransitivity; [exact E|].
  unfold mbind, M_bind, load_local, mret, M_ret. cbn [dnet]. do 3 f_equal.
  apply (old_word w _ _ _ (dest_addr r) (source c) Hw). by apply load_word_range.
Qed.

(** Two posts, and the wait for both. *)
Lemma post_two {A} n1 l1 n2 l2 ctx s (k : unit → M dsm_state A) :
  idle s → signals l1 = 1 → signals l2 = 1 →
  (post_ctx n1 l1 ctx ;; post_ctx n2 l2 ctx ;; wait_ctx 2 ctx ≫= k) s
  = k tt (DS (exec_list n2 l2 (exec_list n1 l1 (dnet s))) 0).
Proof.
  intros Hi H1 H2. unfold idle, signals in *. destruct ctx; unfold post_ctx, wait_ctx.
  - unfold mbind, M_bind, post, yield, mret, M_ret. cbn [cq dnet]. rewrite Hi, H1. cbn.
    fold (sum_of (λ r, Z.b2z (signaled r)) l2). by rewrite H2.
  - unfold mbind, M_bind, post. cbn [cq dnet]. rewrite Hi, H1, H2. by rewrite poll_all.
Qed.

(** The two sides of [if (!ror.is_on_chip) ... else ...]. *)
Lemma cas_async r e v ctx s :
  ror_ok r →
  ∃ i, remoteInfo !! Z.to_nat (nodeID (dest_addr r)) = Some i ∧ info_ok i ∧
    (if negb (is_on_chip r) then cas remoteInfo cacheLKey (dest_addr r) e v (source r) true ctx
     else cas_dm remoteInfo cacheLKey (dest_addr r) e v (source r) true ctx) s
    = post_ctx (nodeID (dest_addr r))
        (rdmaCompareAndSwap (source r) (region_base i (is_on_chip r) + offset (dest_addr r)) e v cacheLKey
           (region_key i (is_on_chip r)) true (coro_of ctx)) ctx s.
Proof.
  intros [Hk _]. destruct (info_known (dest_addr r) s Hk) as (i & Ei & Hi & Hok & Hw).
  exists i. split; [done|]. split; [done|]. pose proof (Hw (is_on_chip r)) as Hwc.
  destruct (is_on_chip r); cbn [negb region_base region_key] in *; unfold cas, cas_dm;
    by rewrite (bind_run _ _ _ _ _ Ei), Hwc, signal_true.
Qed.

Lemma cas_mask_async r e v m ctx s :
  ror_ok r →
  ∃ i, remoteInfo !! Z.to_nat (nodeID (dest_addr r)) = Some i ∧ info_ok i ∧
    (if negb (is_on_chip r) then cas_mask remoteInfo cacheLKey (dest_addr r) e v (source r) m true ctx
     else cas_dm_mask remoteInfo cacheLKey (dest_addr r) e v (source r) m true ctx) s
    = post_ctx (nodeID (dest_addr r))
        (rdmaCompareAndSwapMask (source r) (region_base i (is_on_chip r) + offset (dest_addr r)) e v cacheLKey
           (region_key i (is_on_chip r)) m true (coro_of ctx)) ctx s.
Proof.
  intros [Hk _]. destruct (info_known (dest_addr r) s Hk) as (i & Ei & Hi & Hok & Hw).
  exists i. split; [done|]. split; [done|]. pose proof (Hw (is_on_chip r)) as Hwc.
  destruct (is_on_chip r); cbn [negb region_base region_key] in *; unfold cas_mask, cas_dm_mask;
    by rewrite (bind_run _ _ _ _ _ Ei), Hwc, signal_true.
Qed.

Lemma write_async r ctx s :
  ror_ok r →
  ∃ i, remoteInfo !! Z.to_nat (nodeID (dest_addr r)) = Some i ∧ info_ok i ∧
    (if negb (is_on_chip r) then write remoteInfo cacheLKey (source r) (dest_addr r) (size r) true ctx
     else write_dm remoteInfo cacheLKey (source r) (dest_addr r) (size r) true ctx) s
    = post_ctx (nodeID (dest_addr r))
        (rdmaWrite (source r) (region_base i (is_on_chip r) + offset (dest_addr r)) (size r) cacheLKey
           (region_key i (is_on_chip r)) (-1) true (coro_of ctx)) ctx s.
Proof.
  intros [Hk _]. destruct (info_known (dest_addr r) s Hk) as (i & Ei & Hi & Hok & Hw).
  exists i. split; [done|]. split; [done|]. pose proof (Hw (is_on_chip r)) as Hwc.
  destruct (is_on_chip r); cbn [negb region_base region_key] in *; unfold write, write_dm;
    by rewrite (bind_run _ _ _ _ _ Ei), Hwc, signal_true.
Qed.

(** A verb that posts when run in a state, followed by another. *)
Lemma run_two {A} (m1 m2 : M dsm_state unit) n1 l1 n2 l2 ctx s (k : unit → M dsm_state A) :
  (∀ s, m1 s = post_ctx n1 l1 ctx s) → (∀ s, m2 s = post_ctx n2 l2 ctx s) →
  idle s → signals l1 = 1 → signals l2 = 1 →
  (((m1 ;; m2 ;; wait_ctx 2 ctx)) ≫= k) s
  = k tt (DS (exec_list n2 l2 (exec_list n1 l1 (dnet s))) 0).
Proof.
  intros H1 H2 Hi Hs1 Hs2. rewrite <-(post_two n1 l1 n2 l2 ctx s k Hi Hs1 Hs2).
  unfold mbind, M_bind. rewrite H1. destruct (post_ctx n1 l1 ctx s) as [[[] s1]|]; [|done].
  rewrite H2. by destruct (post_ctx n2 l2 ctx s1) as [[[] s2]|].
Qed.

Lemma cas_write_spec c w e v ctx s st :
  ready s st → mem_ok (sm st) → ror_ok c → ror_ok w →
  ∃ s', cas_write_sync remoteInfo cacheLKey c w e v ctx s = Ok (e =? a_word_r c st, s') ∧
        ready s' (a_write_r w (a_cas_r e v c st)).
Proof.
  intros [Hid Hst] Hm Hc Hw. unfold cas_write_sync.
  assert (∀ net', stands net' (a_write_r w (a_cas_r e v c st)) →
    (old ← load_local (source c); mret (e =? old)) (DS net' 0) = Ok (e =? a_word_r c st, DS net' 0)) as Hret.
  { intros net' [_ Hl]. unfold mbind, M_bind, load_local, mret, M_ret. cbn [dnet]. do 3 f_equal.
    rewrite Hl. apply load_store_word. by apply load_word_range. }
  destruct (Z.eqb_spec (nodeID (dest_addr c)) (nodeID (dest_addr w))) as [Hn|Hn].
  - destruct (chain_run_ret (λ c w, rdmaCasWrite c w e v (signal_of true ctx) (coro_of ctx)) c w ctx s
      (λ _, old ← load_local (source c); mret (e =? old)))
      as (i & Hi & Hok & E); [done..|by intros; rewrite signal_true|].
    set (w' := exec_list _ _ _) in E. destruct Hc as [Hc1 Hc2], Hw as [Hw1 Hw2].
    assert (stands w' (a_write_r w (a_cas_r e v c st))) as Hs.
    { subst w'. cbn [exec_list foldl rdmaCasWrite filled rkey dest lkey source size].
      rewrite Hn in *. apply sim_write; [|done..]. rewrite <-Hn. apply sim_cas; rewrite ?Hn; done. }
    exists (DS w' 0). split; [|by split]. rewrite <-(Hret w' Hs), <-E. unfold cas_write.
    apply bind_assoc.
  - destruct (cas_async c e v ctx s Hc) as (i & Hi & Hok & _).
    destruct (write_async w ctx s Hw) as (j & Hj & Hok' & _).
    set (w' := exec_list (nodeID (dest_addr w))
      (rdmaWrite (source w) (region_base j (is_on_chip w) + offset (dest_addr w)) (size w) cacheLKey
         (region_key j (is_on_chip w)) (-1) true (coro_of ctx))
      (exec_list (nodeID (dest_addr c))
         (rdmaCompareAndSwap (source c) (region_base i (is_on_chip c) + offset (dest_addr c)) e v cacheLKey
            (region_key i (is_on_chip c)) true (coro_of ctx)) (dnet s))).
    assert (stands w' (a_write_r w (a_cas_r e v c st))) as Hs.
    { apply sim_write; [|by apply Hw|exact Hj|done|by apply Hw].
      apply sim_cas; [done|by apply Hc|exact Hi|done]. }
    exists (DS w' 0). split; [|by split]. rewrite <-(Hret w' Hs). 
    apply (run_two _ _ _ _ _ _ _ _ (λ _ : unit, old ← load_local (source c); mret (e =? old)));
      [| |done|done|done].
    + intros s0. destruct (cas_async c e v ctx s0 Hc) as (i' & Hi' & _ & E).
      rewrite Hi in Hi'. injection Hi' as <-. exact E.
    + intros s0. destruct (write_async w ctx s0 Hw) as (j' & Hj' & _ & E).
      rewrite Hj in Hj'. injection Hj' as <-. exact E.
Qed.

Lemma two_cas_mask_spec c1 e1 v1 m1 c2 e2 v2 m2 ctx s st :
  ready s st → mem_ok (sm st) → mem_ok (sm (a_cas_mask_r e1 v1 m1 c1 st)) → ror_ok c1 → ror_ok c2 →
  apart (source c1) (source c2) 8 →
  ∃ s', two_cas_mask_sync remoteInfo cacheLKey c1 e1 v1 m1 c2 e2 v2 m2 ctx s
        = Ok (e1 =? a_word_r c1 st, e2 =? a_word_r c2 (a_cas_mask_r e1 v1 m1 c1 st), s') ∧
        ready s' (a_cas_mask_r e2 v2 m2 c2 (a_cas_mask_r e1 v1 m1 c1 st)).
Proof.
  intros [Hid Hst] Hm Hm1 Hc1 Hc2 Ha. unfold two_cas_mask_sync.
  set (st1 := a_cas_mask_r e1 v1 m1 c1 st) in *. set (st2 := a_cas_mask_r e2 v2 m2 c2 st1).
  assert (∀ net', stands net' st2 →
    (old_1 ← load_local (source c1); old_2 ← load_local (source c2); mret (e1 =? old_1, e2 =? old_2))
      (DS net' 0) = Ok (e1 =? a_word_r c1 st, e2 =? a_word_r c2 st1, DS net' 0)) as Hret.
  { intros net' Hs. unfold mbind, M_bind, load_local, mret, M_ret. cbn [dnet].
    assert (load_word (local net') tt (source c1) = a_word_r c1 st) as ->.
    { eapply old_word_kept; [apply Hs|by apply load_word_range|]. by rewrite length_le_bytes. }
    assert (load_word (local net') tt (source c2) = a_word_r c2 st1) as ->; [|done].
    destruct Hs as [_ Hl]. rewrite Hl. apply load_store_word. by apply load_word_range. }
  destruct (Z.eqb_spec (nodeID (dest_addr c1)) (nodeID (dest_addr c2))) as [Hn|Hn].
  - destruct (chain_run_ret (λ a b, rdmaTwoCasMask a e1 v1 m1 b e2 v2 m2 (signal_of true ctx) (coro_of ctx))
      c1 c2 ctx s (λ _, old_1 ← load_local (source c1); old_2 ← load_local (source c2);
                        mret (e1 =? old_1, e2 =? old_2)))
      as (i & Hi & Hok & E); [done..|by intros; rewrite signal_true|].
    set (w' := exec_list _ _ _) in E.
    assert (stands w' st2) as Hs.
    { subst w'. cbn [exec_list foldl rdmaTwoCasMask filled rkey dest lkey source size].
      rewrite Hn in *. apply sim_cas_mask; [|apply Hc2|done..]. rewrite <-Hn.
      apply sim_cas_mask; [done|apply Hc1|by rewrite Hn|done]. }
    exists (DS w' 0). split; [|by split]. rewrite <-(Hret w' Hs), <-E. unfold two_cas_mask.
    apply bind_assoc.
  - destruct (cas_mask_async c1 e1 v1 m1 ctx s Hc1) as (i & Hi & Hok & _).
    destruct (cas_mask_async c2 e2 v2 m2 ctx s Hc2) as (j & Hj & Hok' & _).
    set (w' := exec_list (nodeID (dest_addr c2))
      (rdmaCompareAndSwapMask (source c2) (region_base j (is_on_chip c2) + offset (dest_addr c2)) e2 v2
         cacheLKey (region_key j (is_on_chip c2)) m2 true (coro_of ctx))
      (exec_list (nodeID (dest_addr c1))
         (rdmaCompareAndSwapMask (source c1) (region_base i (is_on_chip c1) + offset (dest_addr c1)) e1 v1
            cacheLKey (region_key i (is_on_chip c1)) m1 true (coro_of ctx)) (dnet s))).
    assert (stands w' st2) as Hs.
    { apply sim_cas_mask; [|by apply Hc2|exact Hj|done].
      apply sim_cas_mask; [done|by apply Hc1|exact Hi|done]. }
    exists (DS w' 0). split; [|by split]. rewrite <-(Hret w' Hs). 
    apply (run_two _ _ _ _ _ _ _ _ (λ _ : unit, old_1 ← load_local (source c1);
      old_2 ← load_local (source c2); mret (e1 =? old_1, e2 =? old_2))); [| |done|done|done].
    + intros s0. destruct (cas_mask_async c1 e1 v1 m1 ctx s0 Hc1) as (i' & Hi' & _ & E).
      rewrite Hi in Hi'. injection Hi' as <-. exact E.
    + intros s0. destruct (cas_mask_async c2 e2 v2 m2 ctx s0 Hc2) as (j' & Hj' & _ & E).
      rewrite Hj in Hj'. injection Hj' as <-. exact E.
Qed.

(** *** Batches *)
Definition a_reads (rs : list RdmaOpRegion) (st : abs) : abs := foldl (λ st r, a_read_r r st) st rs.
Definition a_writes (rs : list RdmaOpRegion) (st : abs) : abs := foldl (λ st r, a_write_r r st) st rs.

(** The requests of one batch go to node [n]. *)
Definition row_ok (n : Z) (rs : list RdmaOpRegion) : Prop :=
  Forall (λ r, ror_ok r ∧ nodeID (dest_addr r) = n) rs.

Lemma fill_batch_run rs n s :
  row_ok n rs → rs ≠ [] →
  ∃ i, remoteInfo !! Z.to_nat n = Some i ∧ info_ok i ∧
    ∀ n0, fill_batch remoteInfo cacheLKey rs n0 s = Ok (filled i <$> rs, n, s).
Proof.
  induction rs as [|r rs IH]; intros Hrs Hne; [done|]. inversion Hrs as [|?? [Hr Hn] Hrs']; subst.
  destruct (fill_ror_run r s Hr) as (i & Hi & Hok & E). exists i. split; [done|]. split; [done|].
  intros n0. cbn [fill_batch]. rewrite (bind_run _ _ _ _ _ E).
  destruct (decide (rs = [])) as [->|Hne']; [done|].
  destruct (IH Hrs' Hne') as (i' & Hi' & _ & E'). rewrite Hi in Hi'. injection Hi' as <-.
  by rewrite (bind_run _ _ _ _ _ (E' _)).
Qed.

Lemma sim_reads n rs i sg id w st :
  row_ok n rs → remoteInfo !! Z.to_nat n = Some i → info_ok i → stands w st →
  stands (exec_list n (read_batch_loop (filled i <$> rs) sg id) w) (a_reads rs st).
Proof.
  intros Hrs Hi Hok. revert w st. induction Hrs as [|r rs [[Hk Hs] Hn] _ IH]; intros w st Hst; [done|].
  cbn [fmap list_fmap read_batch_loop exec_list foldl a_reads]. apply IH.
  subst n. by apply sim_read.
Qed.

Lemma sim_writes n rs i sg id w st :
  row_ok n rs → remoteInfo !! Z.to_nat n = Some i → info_ok i → stands w st →
  stands (exec_list n (write_batch_loop (filled i <$> rs) sg id) w) (a_writes rs st).
Proof.
  intros Hrs Hi Hok. revert w st. induction Hrs as [|r rs [[Hk Hs] Hn] _ IH]; intros w st Hst; [done|].
  cbn [fmap list_fmap write_batch_loop exec_list foldl a_writes]. apply IH.
  subst n. by apply sim_write.
Qed.

Lemma signals_cons x l : signals (x :: l) = Z.b2z (signaled x) + signals l.
Proof. done. Qed.

Lemma signals_read rs id : rs ≠ [] → signals (read_batch_loop rs true id) = 1.
Proof.
  induction rs as [|r rs IH]; intros Hne; [done|]. cbn [read_batch_loop]. rewrite signals_cons.
  destruct rs as [|r' rs]; [done|]. rewrite IH by done. done.
Qed.

Lemma signals_write rs id : rs ≠ [] → signals (write_batch_loop rs true id) = 1.
Proof.
  induction rs as [|r rs IH]; intros Hne; [done|]. cbn [write_batch_loop]. rewrite signals_cons.
  destruct rs as [|r' rs]; [done|]. rewrite IH by done. done.
Qed.

(** The completions one signaled chain leaves in the queue. *)
Definition pending (ctx : option Z) : Z := match ctx with None => 1 | Some _ => 0 end.

Lemma post_ctx_run n l ctx s :
  0 <= cq s → signals l = 1 →
  post_ctx n l ctx s = Ok (tt, DS (exec_list n l (dnet s)) (cq s + pending ctx)).
Proof.
  intros Hc Hl. unfold signals in Hl. unfold post_ctx, pending. destruct ctx.
  - unfold mbind, M_bind, post, yield. cbn [cq dnet]. rewrite Hl.
    destruct (Z.leb_spec 1 (cq s + 1)); [|lia]. do 3 f_equal. lia.
  - unfold post. by rewrite Hl.
Qed.

Lemma read_batch_run n rs ctx s st :
  row_ok n rs → rs ≠ [] → Z.of_nat (length rs) <= kReadOroMax → 0 <= cq s → stands (dnet s) st →
  ∃ w, read_batch remoteInfo cacheLKey rs true ctx s = Ok (tt, DS w (cq s + pending ctx)) ∧
       stands w (a_reads rs st).
Proof.
  intros Hrs Hne Hlen Hc Hst. destruct (fill_batch_run rs n s Hrs Hne) as (i & Hi & Hok & E).
  eexists. split; [|by eapply sim_reads]. unfold read_batch. rewrite (bind_run _ _ _ _ _ (E _)).
  unfold rdmaReadBatch. rewrite length_fmap. assert (0 < length rs)%nat by (destruct rs; cbn; [done|lia]).
  rewrite (proj2 (Z.ltb_lt _ _)), (proj2 (Z.leb_le _ _)) by lia. cbn [defined andb mbind res_bind lift].
  unfold mbind at 1, M_bind. rewrite signal_true. apply post_ctx_run; [done|].
  apply signals_read. by destruct rs.
Qed.

Lemma write_batch_run n rs ctx s st :
  row_ok n rs → rs ≠ [] → Z.of_nat (length rs) <= kWriteOroMax → 0 <= cq s → stands (dnet s) st →
  ∃ w, write_batch remoteInfo cacheLKey rs true ctx s = Ok (tt, DS w (cq s + pending ctx)) ∧
       stands w (a_writes rs st).
Proof.
  intros Hrs Hne Hlen Hc Hst. destruct (fill_batch_run rs n s Hrs Hne) as (i & Hi & Hok & E).
  eexists. split; [|by eapply sim_writes]. unfold write_batch. rewrite (bind_run _ _ _ _ _ (E _)).
  unfold rdmaWriteBatch. rewrite length_fmap. assert (0 < length rs)%nat by (destruct rs; cbn; [done|lia]).
  rewrite (proj2 (Z.ltb_lt _ _)), (proj2 (Z.leb_le _ _)) by lia. cbn [defined andb mbind res_bind lift].
  unfold mbind at 1, M_bind. rewrite signal_true. apply post_ctx_run; [done|].
  apply signals_write. by destruct rs.
Qed.

Definition rows_ok (limit : Z) (k : Z) (each : list (list RdmaOpRegion)) : Prop :=
  ∀ j row, each !! j = Some row → row_ok (k + Z.of_nat j) row ∧ Z.of_nat (length row) <= limit.

Lemma rows_ok_cons limit k row each :
  rows_ok limit k (row :: each) →
  row_ok k row ∧ Z.of_nat (length row) <= limit ∧ rows_ok limit (k + 1) each.
Proof.
  intros Hr. destruct (Hr 0%nat row eq_refl) as [H1 H2]. rewrite Z.add_0_r in H1.
  split; [done|]. split; [done|]. intros j r Hj. destruct (Hr (S j) r Hj).
  by replace (k + 1 + Z.of_nat j) with (k + Z.of_nat (S j)) by lia.
Qed.

Lemma a_reads_app l1 l2 st : a_reads (l1 ++ l2) st = a_reads l2 (a_reads l1 st).
Proof. apply foldl_app. Qed.

Lemma a_writes_app l1 l2 st : a_writes (l1 ++ l2) st = a_writes l2 (a_writes l1 st).
Proof. apply foldl_app. Qed.

(** The non-empty rows are posted in order; the count is that of the batches. *)
Lemma read_rows_run each k ctx s st :
  rows_ok kReadOroMax k each → 0 <= cq s → stands (dnet s) st →
  ∃ n w, read_rows remoteInfo cacheLKey each ctx s = Ok (n, DS w (cq s + n * pending ctx)) ∧
         stands w (a_reads (concat each) st) ∧ 0 <= n ∧ (concat each ≠ [] → 0 < n).
Proof.
  revert k s st. induction each as [|row each IH]; intros k s st Hok Hc Hst.
  - exists 0, (dnet s). cbn. rewrite Z.add_0_r. destruct s. done.
  - apply rows_ok_cons in Hok as (Hrow & Hlen & Hok).
    destruct row as [|r row]; [cbn; by apply (IH (k + 1))|]. cbn [read_rows].
    destruct (read_batch_run k (r :: row) ctx s st Hrow ltac:(done) Hlen Hc Hst) as (w & E & Hw).
    assert (0 <= pending ctx) by (by destruct ctx).
    destruct (IH (k + 1) (DS w (cq s + pending ctx)) _ Hok ltac:(cbn; lia) Hw) as (n & w' & E' & Hw' & Hn & _).
    exists (n + 1), w'. rewrite (bind_run _ _ _ _ _ E), (bind_run _ _ _ _ _ E'). cbn [cq concat].
    rewrite a_reads_app. split; [|split; [done|split; [lia|lia]]]. unfold mret, M_ret. do 3 f_equal. lia.
Qed.

Lemma write_rows_run each k ctx s st :
  rows_ok kWriteOroMax k each → 0 <= cq s → stands (dnet s) st →
  ∃ n w, write_rows remoteInfo cacheLKey each ctx s = Ok (n, DS w (cq s + n * pending ctx)) ∧
         stands w (a_writes (concat each) st) ∧ 0 <= n ∧ (concat each ≠ [] → 0 < n).
Proof.
  revert k s st. induction each as [|row each IH]; intros k s st Hok Hc Hst.
  - exists 0, (dnet s). cbn. rewrite Z.add_0_r. destruct s. done.
  - apply rows_ok_cons in Hok as (Hrow & Hlen & Hok).
    destruct row as [|r row]; [cbn; by apply (IH (k + 1))|]. cbn [write_rows].
    destruct (write_batch_run k (r :: row) ctx s st Hrow ltac:(done) Hlen Hc Hst) as (w & E & Hw).
    assert (0 <= pending ctx) by (by destruct ctx).
    destruct (IH (k + 1) (DS w (cq s + pending ctx)) _ Hok ltac:(cbn; lia) Hw) as (n & w' & E' & Hw' & Hn & _).
    exists (n + 1), w'. rewrite (bind_run _ _ _ _ _ E), (bind_run _ _ _ _ _ E'). cbn [cq concat].
    rewrite a_writes_app. split; [|split; [done|split; [lia|lia]]]. unfold mret, M_ret. do 3 f_equal. lia.
Qed.

(** A request to a machine the local arrays have a row for. *)
Definition machine_ok (r : RdmaOpRegion) : Prop := ror_ok r ∧ nodeID (dest_addr r) < MAX_MACHINE.

Definition table_ok (limit : Z) (each : list (list RdmaOpRegion)) : Prop :=
  rows_ok limit 0 each ∧ Z.of_nat (length each) = MAX_MACHINE.

Lemma add_each_spec limit each r :
  table_ok limit each → machine_ok r →
  ∃ row, each !! Z.to_nat (nodeID (dest_addr r)) = Some row ∧
    (Z.of_nat (length row) < limit →
     ∃ each', add_each each limit r = Ok each' ∧ table_ok limit each' ∧
       each' !! Z.to_nat (nodeID (dest_addr r)) = Some (row ++ [r]) ∧
       concat each' ≡ₚ concat each ++ [r] ∧
       ∀ j, j ≠ Z.to_nat (nodeID (dest_addr r)) → each' !! j = each !! j).
Proof.
  intros [Hrows Hlen] [Hr Hm]. pose proof Hr as [[[[Hn0 _] _] _] _].
  destruct (lookup_lt_is_Some_2 each (Z.to_nat (nodeID (dest_addr r)))) as [row Hrow]; [lia|].
  exists row. split; [done|]. intros Hlt. exists (<[Z.to_nat (nodeID (dest_addr r)) := row ++ [r]]> each).
  split; [|split; [|split; [|split]]].
  - unfold add_each. rewrite (proj2 (idx_Ok _ _ _)) by done. cbn [mbind res_bind].
    by rewrite (proj2 (Z.ltb_lt _ _)) by done.
  - split; [|by rewrite length_insert]. intros j row' Hj.
    apply list_lookup_insert_Some in Hj as [(Hij & <- & _)|(_ & Hj)]; [|by apply Hrows].
    rewrite <-Hij. destruct (Hrows _ _ Hrow) as [Hok _]. rewrite length_app. change (length [r]) with 1%nat.
    split; [|lia]. apply Forall_app. split; [done|]. apply Forall_singleton. split; [done|]. lia.
  - apply list_lookup_insert_eq. by eapply lookup_lt_Some.
  - destruct (concat_insert each _ row (row ++ [r]) Hrow) as (rest & -> & ->).
    rewrite <-!app_assoc. apply Permutation_app_head. apply Permutation_app_comm.
  - intros j Hj. by rewrite list_lookup_insert_ne.
Qed.

(** No row is full. *)
Definition room (limit : Z) (each : list (list RdmaOpRegion)) : Prop :=
  ∀ (j : nat) row, each !! j = Some row → Z.of_nat (length row) < limit.

Lemma split_reads_spec rs each :
  table_ok kReadOroMax each → room kReadOroMax each → Forall machine_ok rs →
  ∃ each' rest, split_reads rs each = Ok (each', rest) ∧ table_ok kReadOroMax each' ∧
    (∃ pre, rs = pre ++ rest ∧ concat each' ≡ₚ concat each ++ pre ∧ (rs ≠ [] → pre ≠ [])).
Proof.
  revert each. induction rs as [|r rs IH]; intros each Ht Hroom Hrs.
  - exists each, []. split; [done|]. split; [done|]. exists [].
    rewrite !app_nil_r. by split.
  - inversion Hrs as [|?? Hr Hrs']; subst. cbn [split_reads].
    destruct (add_each_spec _ _ _ Ht Hr) as (row & Hrow & Hadd).
    destruct (Hadd (Hroom _ _ Hrow)) as (each1 & E & Ht1 & Hrow1 & Hc1 & Hother). rewrite E. cbn [mbind res_bind].
    rewrite (proj2 (idx_Ok _ _ _) (conj (proj1 (proj1 (proj1 (proj1 (proj1 Hr))))) Hrow1)). cbn [mbind res_bind].
    destruct (Z.leb_spec kReadOroMax (Z.of_nat (length (row ++ [r])))).
    + exists each1, rs. split; [done|]. split; [done|]. exists [r]. done.
    + destruct (IH each1 Ht1) as (each2 & rest & E2 & Ht2 & pre & -> & Hc2 & _); [|done|].
      { intros j row' Hj. destruct (decide (j = Z.to_nat (nodeID (dest_addr r)))) as [->|Hne].
        - rewrite Hrow1 in Hj. injection Hj as <-. done.
        - rewrite Hother in Hj by done. by eapply Hroom. }
      exists each2, rest. split; [done|]. split; [done|]. exists (r :: pre).
      split; [done|]. split; [|done]. by rewrite Hc2, Hc1, <-app_assoc.
Qed.

Lemma table_ok_no_rows limit : 0 <= limit → table_ok limit no_rows.
Proof.
  intros Hl. split; [|done]. intros j row [-> _]%lookup_replicate. split; [constructor|done].
Qed.

Lemma concat_no_rows : concat no_rows = [].
Proof. done. Qed.

Lemma read_batches_loop_run fuel rs poll ctx s st :
  (length rs <= fuel)%nat → Forall machine_ok rs → 0 <= cq s → stands (dnet s) st →
  ∃ n w rs', read_batches_loop remoteInfo cacheLKey fuel rs poll ctx s
             = Ok (poll + n, DS w (cq s + n * pending ctx)) ∧
    rs' ≡ₚ rs ∧ stands w (a_reads rs' st) ∧ 0 <= n ∧ (rs ≠ [] → 0 < n).
Proof.
  revert rs poll s st. induction fuel as [|fuel IH]; intros rs poll s st Hf Hrs Hc Hst;
    destruct rs as [|r rs]; cbn in Hf; try lia.
  1, 2: exists 0, (dnet s), []; cbn [read_batches_loop]; unfold mret, M_ret;
    rewrite !Z.add_0_r; destruct s; done.
  destruct (split_reads_spec (r :: rs) no_rows) as (each & rest & E & [Hrows _] & pre & Hpre & Hperm & Hne);
    [by apply table_ok_no_rows|intros j row [-> _]%lookup_replicate; done|done|].
  destruct (read_rows_run each 0 ctx s st Hrows Hc Hst) as (n & w & En & Hw & Hn & Hpos).
  rewrite concat_no_rows in Hperm. cbn [app] in Hperm. specialize (Hne ltac:(done)).
  assert (0 < n) as Hn'.
  { apply Hpos. intros Hnil. rewrite Hnil in Hperm. by apply Permutation_nil in Hperm. }
  assert (0 <= pending ctx) by (by destruct ctx).
  rewrite Hpre in Hrs. apply Forall_app in Hrs as [Hpok Hrok].
  destruct (IH rest (poll + n) (DS w (cq s + n * pending ctx)) (a_reads (concat each) st)) as (n2 & w2 & rs2 & E2 & Hp2 & Hw2 & Hn2 & _);
    [|done|cbn; nia|exact Hw|].
  { apply (f_equal length) in Hpre. rewrite length_app in Hpre. cbn in Hpre. destruct pre; [done|].
    cbn in Hpre. lia. }
  exists (n + n2), w2, (concat each ++ rs2).
  split; [|split; [|split; [|split; [lia|lia]]]].
  - cbn [read_batches_loop]. unfold mbind at 1, M_bind at 1, lift. rewrite E.
    rewrite (bind_run _ _ _ _ _ En), E2. cbn [cq]. f_equal. f_equal; [lia|f_equal; ring].
  - by rewrite Hperm, Hp2, Hpre.
  - by rewrite a_reads_app.
Qed.

(** Reads into separate buffers give the same result in any order. *)
Definition separate (r1 r2 : RdmaOpRegion) : Prop :=
  source r1 + size r1 <= source r2 ∨ source r2 + size r2 <= source r1.

#[export] Instance a_read_r_proper r : Proper ((≡) ==> (≡)) (a_read_r r).
Proof. unfold a_read_r. apply _. Qed.

#[export] Instance a_write_r_proper r : Proper ((≡) ==> (≡)) (a_write_r r).
Proof. unfold a_write_r. apply _. Qed.

Lemma fold_proper (op : RdmaOpRegion → abs → abs) rs :
  (∀ r, Proper ((≡) ==> (≡)) (op r)) → Proper ((≡) ==> (≡)) (λ st, foldl (λ st r, op r st) st rs).
Proof.
  intros Hop. induction rs as [|r rs IH]; intros a b Hab; [done|]. cbn [foldl]. apply IH. by apply Hop.
Qed.

Lemma a_read_r_comm r1 r2 st :
  ror_ok r1 → ror_ok r2 → separate r1 r2 → a_read_r r2 (a_read_r r1 st) ≡ a_read_r r1 (a_read_r r2 st).
Proof.
  intros [_ [H1 _]] [_ [H2 _]] Hs. split; [done|]. cbn. apply store_comm.
  rewrite !length_load. unfold separate in Hs. right. rewrite !Z2Nat.id by done. lia.
Qed.

(** Writes to separate places also commute. *)
Definition separate_dest (r1 r2 : RdmaOpRegion) : Prop :=
  Reg (is_on_chip r1) (nodeID (dest_addr r1)) ≠ Reg (is_on_chip r2) (nodeID (dest_addr r2)) ∨
  offset (dest_addr r1) + size r1 <= offset (dest_addr r2) ∨
  offset (dest_addr r2) + size r2 <= offset (dest_addr r1).

Lemma a_write_r_comm r1 r2 st :
  ror_ok r1 → ror_ok r2 → separate_dest r1 r2 →
  a_write_r r2 (a_write_r r1 st) ≡ a_write_r r1 (a_write_r r2 st).
Proof.
  intros [_ [H1 _]] [_ [H2 _]] Hs. split; [|done]. cbn. apply store_comm.
  rewrite !length_load, !Z2Nat.id by done. exact Hs.
Qed.

Lemma fold_perm (op : RdmaOpRegion → abs → abs) (sep : RdmaOpRegion → RdmaOpRegion → Prop) rs rs' st :
  (∀ r, Proper ((≡) ==> (≡)) (op r)) → (∀ x y, sep x y → sep y x) →
  (∀ x y st, ror_ok x → ror_ok y → sep x y → op y (op x st) ≡ op x (op y st)) →
  rs ≡ₚ rs' → Forall ror_ok rs →
  (∀ i j r1 r2, rs !! i = Some r1 → rs !! j = Some r2 → i ≠ j → sep r1 r2) →
  foldl (λ st r, op r st) st rs ≡ foldl (λ st r, op r st) st rs'.
Proof.
  intros Hop Hsym Hcomm Hp. revert st.
  induction Hp as [|r l l' Hp IH|r1 r2 l|l1 l2 l3 Hp1 IH1 Hp2 IH2]; intros st Hok Hsep.
  - done.
  - inversion Hok; subst. cbn [foldl]. apply IH; [done|].
    intros i j x y Hi Hj Hne. apply (Hsep (S i) (S j)); [done|done|lia].
  - inversion Hok as [|?? Hr1 Hok']; subst. inversion Hok' as [|?? Hr2 _]; subst. cbn [foldl].
    apply (fold_proper op l Hop). symmetry. apply Hcomm; [done|done|]. apply (Hsep 1%nat 0%nat); done.
  - rewrite IH1 by done. apply IH2; [by rewrite <-Hp1|].
    intros i j x y Hi Hj Hne. apply Permutation_sym, Permutation_inj in Hp1 as [_ (f & Hf & Hl)].
    apply (Hsep (f i) (f j)); [by rewrite <-Hl|by rewrite <-Hl|]. intros Heq. by apply Hne, (inj f).
Qed.

Lemma length_row_concat (each : list (list RdmaOpRegion)) j row :
  each !! j = Some row → (length row <= length (concat each))%nat.
Proof.
  intros Hj. destruct (concat_insert each j row row Hj) as (rest & Hc & _). rewrite Hc, length_app. lia.
Qed.

Lemma split_writes_spec rs each :
  table_ok kWriteOroMax each → Z.of_nat (length (concat each) + length rs) <= kWriteOroMax →
  Forall machine_ok rs →
  ∃ each', split_writes rs each = Ok each' ∧ table_ok kWriteOroMax each' ∧ concat each' ≡ₚ concat each ++ rs.
Proof.
  revert each. induction rs as [|r rs IH]; intros each Ht Hlen Hrs.
  - exists each. by rewrite app_nil_r.
  - inversion Hrs as [|?? Hr Hrs']; subst. cbn [split_writes].
    destruct (add_each_spec _ _ _ Ht Hr) as (row & Hrow & Hadd).
    pose proof (length_row_concat _ _ _ Hrow) as Hl. cbn [length] in Hlen.
    destruct (Hadd ltac:(lia)) as (each1 & E & Ht1 & _ & Hc1 & _). rewrite E. cbn [mbind res_bind].
    destruct (IH each1 Ht1) as (each2 & E2 & Ht2 & Hc2); [|done|].
    { rewrite Hc1, length_app. cbn. lia. }
    exists each2. split; [done|]. split; [done|]. by rewrite Hc2, Hc1, <-app_assoc.
Qed.

Lemma wait_ctx_run n ctx w :
  0 < n → wait_ctx n ctx (DS w (0 + n * pending ctx)) = Ok (tt, DS w 0).
Proof.
  intros Hn. unfold wait_ctx, pending. destruct ctx; [by rewrite Z.mul_0_r|].
  rewrite poll_all; cbn; [done|done|lia].
Qed.

(** ** Properties *)

(** C11. The one-word verbs and the plain reads and writes do what their names
    say on the shared memory, for the DSM memory and the on-chip memory, with
    and without a coroutine: each returns with no completion left behind; a
    read copies the remote bytes to the buffer, a write the buffer to the
    remote bytes; an atomic operation changes the remote word as specified,
    leaves the old word in the buffer, and the returned flag says whether the
    (masked) comparison succeeded. *)
Theorem dsm_verbs_refine c g ctx s st :
  known g → ready s st → mem_ok (sm st) →
  (∀ buf size, uint 32 size →
     ∃ s', read_any c buf g size ctx s = Ok (tt, s') ∧ ready s' (a_read c g buf size st)) ∧
  (∀ buf size, uint 32 size →
     ∃ s', write_any c buf g size ctx s = Ok (tt, s') ∧ ready s' (a_write c g buf size st)) ∧
  (∀ equal val buf, ∃ s', cas_any c g equal val buf ctx s = Ok (equal =? a_word c g st, s') ∧
     ready s' (a_cas equal val c g buf st)) ∧
  (∀ equal val buf mask, ∃ s', cas_mask_any c g equal val buf mask ctx s
     = Ok (masked_eq equal (a_word c g st) mask, s') ∧ ready s' (a_cas_mask equal val mask c g buf st)) ∧
  (∀ add buf boundary, 0 <= boundary < 64 →
     ∃ s', faa_any c g add buf boundary ctx s = Ok (tt, s') ∧ ready s' (a_faa add boundary c g buf st)).
Proof.
  intros Hg Hs Hm. split; [|split; [|split; [|split]]]; intros.
  - by apply read_any_spec.
  - by apply write_any_spec.
  - by apply cas_any_spec.
  - by apply cas_mask_any_spec.
  - by apply faa_any_spec.
Qed.

(** C12. The verbs that chain two requests have the effect of the two in
    order, on one node; [cas_write_sync] also when the two are on different
    nodes; and they return whether the compare-and-swap succeeded. *)
Theorem dsm_chains_refine r1 r2 equal val ctx s st :
  ready s st → mem_ok (sm st) → ror_ok r1 → ror_ok r2 →
  (∃ s', cas_write_sync remoteInfo cacheLKey r1 r2 equal val ctx s = Ok (equal =? a_word_r r1 st, s') ∧
         ready s' (a_write_r r2 (a_cas_r equal val r1 st))) ∧
  (nodeID (dest_addr r1) = nodeID (dest_addr r2) →
   (∀ mask, ∃ s', write_cas_mask_sync remoteInfo cacheLKey r1 r2 equal val mask ctx s = Ok (tt, s') ∧
         ready s' (a_cas_mask_r equal val mask r2 (a_write_r r1 st))) ∧
   (∃ s', write_cas_sync remoteInfo cacheLKey r1 r2 equal val ctx s = Ok (tt, s') ∧
         ready s' (a_cas_r equal val r2 (a_write_r r1 st))) ∧
   (∀ add, ∃ s', write_faa_sync remoteInfo cacheLKey r1 r2 add ctx s = Ok (tt, s') ∧
         ready s' (a_faa add 63 (is_on_chip r2) (dest_addr r2) (source r2) (a_write_r r1 st))) ∧
   (apart (source r1) (source r2) (size r2) →
    ∃ s', cas_read_sync remoteInfo cacheLKey r1 r2 equal val ctx s = Ok (equal =? a_word_r r1 st, s') ∧
         ready s' (a_read_r r2 (a_cas_r equal val r1 st)))).
Proof.
  intros Hs Hm H1 H2. split; [by apply cas_write_spec|]. intros Hn.
  split; [intros; by apply write_cas_mask_spec|]. split; [by apply write_cas_spec|].
  split; [intros; by apply write_faa_spec|]. intros. by apply cas_read_spec.
Qed.

(** C14. [two_cas_mask_sync] applies the two masked compare-and-swaps in
    order, on one node or two, and returns whether each old word equals the
    expected word (on all 64 bits, whatever the mask). *)
Theorem dsm_two_cas_refine c1 e1 v1 m1 c2 e2 v2 m2 ctx s st :
  ready s st → mem_ok (sm st) → mem_ok (sm (a_cas_mask_r e1 v1 m1 c1 st)) → ror_ok c1 → ror_ok c2 →
  apart (source c1) (source c2) 8 →
  ∃ s', two_cas_mask_sync remoteInfo cacheLKey c1 e1 v1 m1 c2 e2 v2 m2 ctx s
        = Ok (e1 =? a_word_r c1 st, e2 =? a_word_r c2 (a_cas_mask_r e1 v1 m1 c1 st), s') ∧
        ready s' (a_cas_mask_r e2 v2 m2 c2 (a_cas_mask_r e1 v1 m1 c1 st)).
Proof. apply two_cas_mask_spec. Qed.

(** C13. The batched verbs, which sort the requests by machine and post one
    batch for each, have the effect of the requests one by one in the given
    order, poll exactly the completions they asked for, and (reads) go round
    as often as the 1024-entry rows need; reads for any number of requests
    with separate buffers, writes for up to 24 with separate targets. *)
Theorem dsm_batches_refine rs ctx s st :
  ready s st → rs ≠ [] → Forall machine_ok rs →
  ((∀ i j r1 r2, rs !! i = Some r1 → rs !! j = Some r2 → i ≠ j → separate r1 r2) →
   ∃ s', read_batches_sync remoteInfo cacheLKey rs ctx s = Ok (tt, s') ∧ ready s' (a_reads rs st)) ∧
  (Z.of_nat (length rs) <= kWriteOroMax →
   (∀ i j r1 r2, rs !! i = Some r1 → rs !! j = Some r2 → i ≠ j → separate_dest r1 r2) →
   ∃ s', write_batches_sync remoteInfo cacheLKey rs ctx s = Ok (tt, s') ∧ ready s' (a_writes rs st)).
Proof.
  intros [Hid Hst] Hne Hrs. unfold idle in Hid.
  assert (Forall ror_ok rs) as Hror by (eapply Forall_impl; [exact Hrs|by intros ? []]).
  split.
  - intros Hsep. destruct (read_batches_loop_run (length rs) rs 0 ctx s st) as (n & w & rs' & E & Hp & Hw & _ & Hn);
      [done|done|lia|done|].
    exists (DS w 0). split.
    + unfold read_batches_sync. rewrite (bind_run _ _ _ _ _ E), Hid. apply wait_ctx_run. by apply Hn.
    + split; [done|]. assert (a_reads rs st ≡ a_reads rs' st) as [H1 H2].
      { apply (fold_perm a_read_r separate); [apply _|unfold separate; intros; lia|apply a_read_r_comm|done..]. }
      destruct Hw as [Hw1 Hw2]. split; cbn; [by rewrite H1|by rewrite H2].
  - intros Hlen Hsep.
    destruct (split_writes_spec rs no_rows) as (each & E & [Hrows _] & Hp);
      [by apply table_ok_no_rows|by rewrite concat_no_rows|done|].
    rewrite concat_no_rows in Hp. cbn [app] in Hp.
    destruct (write_rows_run each 0 ctx s st Hrows ltac:(lia) Hst) as (n & w & En & Hw & _ & Hn).
    assert (0 < n) as Hn'.
    { apply Hn. intros Hnil. rewrite Hnil in Hp. by apply Permutation_nil_l in Hp. }
    exists (DS w 0). split.
    + unfold write_batches_sync. unfold mbind at 1, M_bind at 1, lift. rewrite E.
      rewrite (bind_run _ _ _ _ _ En), Hid. by apply wait_ctx_run.
    + split; [done|]. assert (a_writes rs st ≡ a_writes (concat each) st) as [H1 H2].
      { apply (fold_perm a_write_r separate_dest); [apply _|unfold separate_dest; intros; intuition congruence|
          apply a_write_r_comm|done..]. }
      destruct Hw as [Hw1 Hw2]. split; cbn; [by rewrite H1|by rewrite H2].
Qed.

(** C36. [read_cas_sync] is not the read followed by the compare-and-swap: the
    request that reads takes its remote address from [cas_ror], and the
    compare-and-swap changes the word that was to be read. *)
Theorem dsm_read_cas_swapped r c equal val ctx s st :
  ready s st → mem_ok (sm st) → ror_ok c → ror_ok r → nodeID (dest_addr r) = nodeID (dest_addr c) →
  ∃ s', read_cas_sync remoteInfo cacheLKey r c equal val ctx s = Ok (equal =? a_word_r r st, s') ∧
    ready s' (a_cas equal val (is_on_chip r) (dest_addr r) (source c)
               (a_read (is_on_chip c) (dest_addr c) (source r) (size r) st)).
Proof. apply read_cas_spec. Qed.
End refinement.

(** ** Witnesses: one memory node, and memories that hold only zeros *)
Definition example_info : list node_info := [NI 4096 1 0 2].
Definition example_state : dsm_state := DS (Net (λ _ _, 0) (λ _ _, 0)) 0.
Definition example_abs : abs := Abs (λ _ _, 0) (λ _ _, 0).
Definition example_ror (src off size : Z) (chip : bool) : RdmaOpRegion :=
  with_on_chip (Ror src (gaddr_val (GA 0 off)) size 0 0) chip.

Lemma example_infos_ok : Forall info_ok example_info.
Proof. apply Forall_singleton. unfold info_ok; cbn. lia. Qed.

Lemma example_ready : ready example_info example_state example_abs.
Proof.
  split; [done|]. split; [|done]. intros [c n] o. cbn. unfold dsm_view.
  destruct (_ !! _); [|done]. by destruct (_ <=? _).
Qed.

Lemma example_mem_ok : mem_ok (sm example_abs).
Proof. intros k o. cbn. unfold is_byte. lia. Qed.

Lemma dsm_verbs_refine_witness :
  known example_info (GA 0 64) ∧
  ∃ s', cas_any example_info 7 false (GA 0 64) 0 9 16 None example_state = Ok (true, s') ∧
        ready example_info s' (a_cas 0 9 false (GA 0 64) 16 example_abs).
Proof.
  assert (known example_info (GA 0 64)) as Hk by (split; [split; done|done]).
  split; [exact Hk|].
  destruct (dsm_verbs_refine example_info 7 example_infos_ok false (GA 0 64) None example_state example_abs
              Hk example_ready example_mem_ok) as (_ & _ & Hc & _).
  exact (Hc 0 9 16).
Defined.

Lemma dsm_chains_refine_witness :
  ror_ok example_info (example_ror 0 64 8 false) ∧ ror_ok example_info (example_ror 8 128 8 true) ∧
  ∃ s', write_cas_sync example_info 7 (example_ror 0 64 8 false) (example_ror 8 128 8 true) 0 5 (Some 3)
          example_state = Ok (tt, s') ∧
        ready example_info s' (a_cas_r 0 5 (example_ror 8 128 8 true)
                                 (a_write_r (example_ror 0 64 8 false) example_abs)).
Proof.
  assert (ror_ok example_info (example_ror 0 64 8 false)) as H1 by (split; [split; [split; done|done]|done]).
  assert (ror_ok example_info (example_ror 8 128 8 true)) as H2 by (split; [split; [split; done|done]|done]).
  split; [exact H1|]. split; [exact H2|].
  destruct (dsm_chains_refine example_info 7 example_infos_ok (example_ror 0 64 8 false)
              (example_ror 8 128 8 true) 0 5 (Some 3) example_state example_abs
              example_ready example_mem_ok H1 H2) as (_ & H).
  exact (proj1 (proj2 (H eq_refl))).
Defined.

Lemma dsm_two_cas_refine_witness :
  ∃ s', two_cas_mask_sync example_info 7 (example_ror 0 64 8 false) 0 5 255 (example_ror 8 128 8 false) 1 6 255
          None example_state = Ok (true, false, s') ∧
        ready example_info s' (a_cas_mask_r 1 6 255 (example_ror 8 128 8 false)
                                 (a_cas_mask_r 0 5 255 (example_ror 0 64 8 false) example_abs)).
Proof.
  apply (dsm_two_cas_refine example_info 7 example_infos_ok (example_ror 0 64 8 false) 0 5 255
           (example_ror 8 128 8 false) 1 6 255 None example_state example_abs example_ready example_mem_ok).
  - cbn. apply store_ok; [intros k o; cbn; unfold is_byte; lia|apply le_bytes_byte].
  - split; [split; [split; done|done]|done].
  - split; [split; [split; done|done]|done].
  - left. cbn. lia.
Defined.

Lemma dsm_batches_refine_witness :
  ∃ s', read_batches_sync example_info 7 [example_ror 0 64 8 false; example_ror 8 128 8 false] None example_state
        = Ok (tt, s') ∧
        ready example_info s' (a_reads [example_ror 0 64 8 false; example_ror 8 128 8 false] example_abs).
Proof.
  destruct (dsm_batches_refine example_info 7 example_infos_ok
              [example_ror 0 64 8 false; example_ror 8 128 8 false] None example_state example_abs
              example_ready) as [H _].
  - discriminate.
  - repeat constructor; done.
  - apply H. intros [|[|i]] [|[|j]] r1 r2 H1 H2 Hne; try discriminate H1; try discriminate H2;
      try (by destruct Hne); injection H1 as <-; injection H2 as <-; unfold separate; cbn; lia.
Defined.

Lemma dsm_read_cas_swapped_witness :
  ∃ s', read_cas_sync example_info 7 (example_ror 0 64 8 false) (example_ror 8 128 8 false) 0 5 None example_state
        = Ok (true, s') ∧
      ready example_info s' (a_cas 0 5 false (GA 0 64) 8 (a_read false (GA 0 128) 0 8 example_abs)).
Proof.
  apply (dsm_read_cas_swapped example_info 7 example_infos_ok (example_ror 0 64 8 false)
           (example_ror 8 128 8 false) 0 5 None example_state example_abs example_ready example_mem_ok).
  - split; [split; [split; done|done]|done].
  - split; [split; [split; done|done]|done].
  - reflexivity.
Defined.
