(* ===== verification/Process.v ===== *)
(** * Processes over a shared state

    Code that runs concurrently with other code is a process: a tree of atomic
    actions on the shared state. An action may be blocked (a spin loop waits
    for its condition). A process alone runs by [run]; several interleave by
    [pool_step]. *)

From Stdlib Require Import ZArith Lia Bool.
From stdpp Require Import base tactics decidable option numbers list relations.
From S2P Require Import Prelude.

Inductive proc (S A : Type) : Type :=
  | Return (a : A)
  | Crash (e : error)
  | Act (f : S → option (S * proc S A)).
Arguments Return {S A} _.
Arguments Crash {S A} _.
Arguments Act {S A} _.

(** Induction that also reaches the continuations of an action. *)
Lemma proc_ind' {S A} (P : proc S A → Prop) :
  (∀ a, P (Return a)) → (∀ e, P (Crash e)) →
  (∀ f, (∀ s s' p, f s = Some (s', p) → P p) → P (Act f)) → ∀ p, P p.
Proof.
  intros HR HC HA. fix IH 1. intros [a|e|f]; [apply HR|apply HC|].
  apply HA. intros s. destruct (f s) as [[s1 p1]|]; [|discriminate].
  pose proof (IH p1) as H. intros s' p [= <- <-]. exact H.
Qed.

Fixpoint pbind {S A B} (p : proc S A) (k : A → proc S B) : proc S B :=
  match p with
  | Return a => k a
  | Crash e => Crash e
  | Act f => Act (λ s, match f s with
                       | Some (s', p') => Some (s', pbind p' k)
                       | None => None
                       end)
  end.

#[export] Instance proc_ret {S} : MRet (proc S) := λ A a, Return a.
#[export] Instance proc_bind {S} : MBind (proc S) := λ A B k p, pbind p k.

(** An atomic read-modify-write, one that can stop the program, a wait for a
    condition, and a computation on no shared state. *)
Definition atomic {S A} (f : S → A * S) : proc S A :=
  Act (λ s, let '(a, s') := f s in Some (s', Return a)).
Definition atomic_res {S A} (f : M S A) : proc S A :=
  Act (λ s, match f s with Ok (a, s') => Some (s', Return a) | Fail e => Some (s, Crash e) end).
Definition await {S} (b : S → bool) : proc S unit :=
  Act (λ s, if b s then Some (s, Return tt) else None).
Definition pure {S A} (m : res A) : proc S A :=
  match m with Ok a => Return a | Fail e => Crash e end.

(** A process on a part of the state. *)
Fixpoint on {W S A} (get : W → S) (set : S → W → W) (p : proc S A) : proc W A :=
  match p with
  | Return a => Return a
  | Crash e => Crash e
  | Act f => Act (λ w, match f (get w) with
                       | Some (s', p') => Some (set s' w, on get set p')
                       | None => None
                       end)
  end.

(** The run of a process that nothing else disturbs; a wait that is not
    satisfied never ends. *)
Fixpoint run {S A} (p : proc S A) : M S A :=
  match p with
  | Return a => λ s, Ok (a, s)
  | Crash e => λ _, Fail e
  | Act f => λ s, match f s with
                  | Some (s', p') => run p' s'
                  | None => Fail EFuel
                  end
  end.

(** One thread of a pool takes a step. *)
Inductive pool_step {S A} : relation (list (proc S A) * S) :=
  | pool_act ps s i f s' p' :
      ps !! i = Some (Act f) → f s = Some (s', p') → pool_step (ps, s) (<[i := p']> ps, s').

(** The pool after the scheduled threads have taken a step each. *)
Fixpoint schedule {S A} (ids : list nat) (ps : list (proc S A)) (s : S) : option (list (proc S A) * S) :=
  match ids with
  | [] => Some (ps, s)
  | i :: ids =>
    match ps !! i with
    | Some (Act f) => match f s with
                      | Some (s', p') => schedule ids (<[i := p']> ps) s'
                      | None => None
                      end
    | _ => None
    end
  end.

(** ** Lemmas *)
Lemma run_bind {S A B} (p : proc S A) (k : A → proc S B) s :
  run (p ≫= k) s = match run p s with Ok (a, s') => run (k a) s' | Fail e => Fail e end.
Proof.
  revert s. unfold mbind, proc_bind. induction p as [a|e|f IH] using proc_ind'; intros s; cbn; [done|done|].
  destruct (f s) as [[s1 p1]|] eqn:E; [|done]. by apply (IH s s1 p1).
Qed.

Lemma run_bind_Ok {S A B} (p : proc S A) (k : A → proc S B) s a s' :
  run p s = Ok (a, s') → run (p ≫= k) s = run (k a) s'.
Proof. intros H. by rewrite run_bind, H. Qed.

Lemma run_bind_Fail {S A B} (p : proc S A) (k : A → proc S B) s e :
  run p s = Fail e → run (p ≫= k) s = Fail e.
Proof. intros H. by rewrite run_bind, H. Qed.

Lemma run_ret {S A} (a : A) (s : S) : run (mret a) s = Ok (a, s).
Proof. done. Qed.

Lemma run_atomic {S A} (f : S → A * S) s : run (atomic f) s = Ok (f s).
Proof. unfold atomic; cbn. by destruct (f s). Qed.

Lemma run_atomic_res {S A} (f : M S A) s : run (atomic_res f) s = f s.
Proof. unfold atomic_res; cbn. by destruct (f s) as [[]|]. Qed.

Lemma run_await {S} (b : S → bool) s : b s = true → run (await b) s = Ok (tt, s).
Proof. intros H. unfold await; cbn. by rewrite H. Qed.

Lemma run_pure {S A} (m : res A) (s : S) :
  run (pure m) s = match m with Ok a => Ok (a, s) | Fail e => Fail e end.
Proof. by destruct m. Qed.

(** Running on a part changes that part only. *)
Lemma run_on {W S A} (get : W → S) (set : S → W → W) (p : proc S A) w :
  (∀ s w, get (set s w) = s) → (∀ s s' w, set s (set s' w) = set s w) → (∀ w, set (get w) w = w) →
  run (on get set p) w = match run p (get w) with Ok (a, s) => Ok (a, set s w) | Fail e => Fail e end.
Proof.
  intros Hgs Hss Hsg. revert w. induction p as [a|e|f IH] using proc_ind'; intros w; cbn.
  - by rewrite Hsg.
  - done.
  - destruct (f (get w)) as [[s' p']|] eqn:E; [|done]. rewrite (IH _ _ _ E), Hgs.
    destruct (run p' s') as [[a s]|]; [|done]. by rewrite Hss.
Qed.

Lemma schedule_nsteps {S A} ids (ps : list (proc S A)) s ps' s' :
  schedule ids ps s = Some (ps', s') → nsteps pool_step (length ids) (ps, s) (ps', s').
Proof.
  revert ps s. induction ids as [|i ids IH]; intros ps s; cbn.
  { intros [= -> ->]. apply nsteps_O. }
  destruct (ps !! i) as [[a|e|f]|] eqn:Hi; try done.
  destruct (f s) as [[s1 p1]|] eqn:Hf; [|done]. intros H.
  eapply nsteps_l; [by eapply pool_act|]. by apply IH.
Qed.

Lemma schedule_steps {S A} ids (ps : list (proc S A)) s ps' s' :
  schedule ids ps s = Some (ps', s') → rtc pool_step (ps, s) (ps', s').
Proof. intros H. eapply rtc_nsteps_2, schedule_nsteps, H. Qed.

(** More threads. *)
Lemma pool_steps_app_r {S A} (qs : list (proc S A)) c c' :
  rtc pool_step c c' → rtc pool_step (qs ++ c.1, c.2) (qs ++ c'.1, c'.2).
Proof.
  apply (rtc_congruence (λ c, (qs ++ c.1, c.2))). intros ? ? [ps s i f s' p' Hi Hf]. cbn.
  rewrite <- insert_app_r. apply (pool_act _ _ (length qs + i) f); [|done].
  rewrite lookup_app_r by lia. by replace (length qs + i - length qs)%nat with i by lia.
Qed.

(** What the thread [i] of a scheduled pool has returned. *)
Definition returned {S A} (i : nat) (r : option (list (proc S A) * S)) : option A :=
  match r with
  | Some (ps, _) => match ps !! i with Some (Return a) => Some a | _ => None end
  | None => None
  end.

Lemma returned_Some {S A} (i : nat) ids (ps : list (proc S A)) s a :
  returned i (schedule ids ps s) = Some a →
  ∃ ps' s', nsteps pool_step (length ids) (ps, s) (ps', s') ∧ ps' !! i = Some (Return a).
Proof.
  unfold returned. destruct (schedule ids ps s) as [[ps' s']|] eqn:E; [|done]. intros Hi. exists ps', s'.
  split; [by apply schedule_nsteps|]. destruct (ps' !! i) as [[b| |]|]; congruence.
Qed.

(** ** Total correctness of a run

    [wpr p s Q]: the process runs alone to its end, and the result and the
    state satisfy [Q]. *)
Definition wpr {S A} (p : proc S A) (s : S) (Q : A → S → Prop) : Prop :=
  ∃ a s', run p s = Ok (a, s') ∧ Q a s'.

Section wpr.
Context {S : Type}.
Implicit Types s : S.

Lemma wpr_bind {A B} (p : proc S A) (k : A → proc S B) s Q :
  wpr p s (λ a s', wpr (k a) s' Q) → wpr (p ≫= k) s Q.
Proof. intros (a & s1 & H1 & b & s2 & H2 & HQ). exists b, s2. by rewrite run_bind, H1. Qed.

Lemma wpr_mono {A} (p : proc S A) s (Q Q' : A → S → Prop) :
  wpr p s Q → (∀ a s', Q a s' → Q' a s') → wpr p s Q'.
Proof. intros (a & s1 & H1 & HQ) H. exists a, s1. auto. Qed.

Lemma wpr_ret {A} (a : A) s Q : Q a s → wpr (mret a) s Q.
Proof. intros H. by exists a, s. Qed.

Lemma wpr_atomic {A} (f : S → A * S) s Q : Q (f s).1 (f s).2 → wpr (atomic f) s Q.
Proof. intros H. exists (f s).1, (f s).2. split; [|done]. rewrite run_atomic. by destruct (f s). Qed.

Lemma wpr_atomic_res {A} (f : M S A) s a s' Q : f s = Ok (a, s') → Q a s' → wpr (atomic_res f) s Q.
Proof. intros E H. exists a, s'. by rewrite run_atomic_res. Qed.

Lemma wpr_pure {A} (m : res A) s a Q : m = Ok a → Q a s → wpr (pure m) s Q.
Proof. intros -> H. by exists a, s. Qed.
End wpr.

(** ** Pools given by stages

    When every thread of a pool is at one of the stages of the same code, the
    pool is the list of the stages. A stage has a process, and [trans] gives
    the stage that its next action leads to. *)
Section staged.
Context {S A T : Type} (code : T → proc S A) (trans : T → S → option (S * T)) (rank : T → nat).

Definition staged : Prop := ∀ t s,
  match code t with Act f => f s | _ => None end = prod_map id code <$> trans t s.

Definition ranks (ts : list T) : nat := sum_list_with rank ts.

Lemma ranks_insert ts (i : nat) t t' :
  ts !! i = Some t → (ranks (<[i:=t']> ts) + rank t = ranks ts + rank t')%nat.
Proof.
  unfold ranks. revert i. induction ts as [|u ts IH]; intros [|i] H; cbn in *; try done; [injection H as ->; lia|].
  specialize (IH _ H). unfold insert in *. lia.
Qed.

(** What holds of the stages after every step, and how many steps there are. *)
Lemma staged_runs (I : list T → S → Prop) k ts s ps s' :
  staged →
  (∀ ts s (i : nat) t s' t', I ts s → ts !! i = Some t → trans t s = Some (s', t') →
     I (<[i:=t']> ts) s' ∧ (rank t' < rank t)%nat) →
  I ts s → nsteps pool_step k (code <$> ts, s) (ps, s') →
  ∃ ts', ps = code <$> ts' ∧ I ts' s' ∧ length ts' = length ts ∧ (k + ranks ts' <= ranks ts)%nat.
Proof.
  intros Hc Hstep. revert ts s. induction k as [|k IH]; intros ts s HI Hk; inversion Hk as [|? ? [ps1 s1] ? H1 H2]; subst.
  { exists ts. split_and!; done || lia. }
  inversion H1 as [? ? i f ? p' Hi Hf]; subst. apply list_lookup_fmap_Some in Hi as (t & Hp & Ht).
  specialize (Hc t s). rewrite <- Hp, Hf in Hc. destruct (trans t s) as [[s2 t']|] eqn:Et; [|done]. cbn in Hc. simplify_eq.
  destruct (Hstep _ _ _ _ _ _ HI Ht Et) as [HI' Hr]. rewrite <- list_fmap_insert in H2.
  destruct (IH _ _ HI' H2) as (ts' & -> & HI2 & Hl & Hk'). exists ts'. rewrite length_insert in Hl.
  pose proof (ranks_insert ts i t t' Ht). split_and!; [done|done|done|lia].
Qed.

Lemma staged_can_step ts s (i : nat) t :
  staged → ts !! i = Some t → is_Some (trans t s) → ∃ c, pool_step (code <$> ts, s) c.
Proof.
  intros Hc Ht [[s' t'] E]. specialize (Hc t s). rewrite E in Hc. cbn in Hc.
  destruct (code t) as [| |f] eqn:Ef; try done. eexists.
  apply (pool_act _ _ i f s' (code t')); [|done]. by rewrite list_lookup_fmap, Ht; cbn; rewrite Ef.
Qed.
End staged.

(** ** Refinement of processes

    Every action of [p] is one of [q], or changes nothing; a process that is
    out of fuel refines any other. *)
Fixpoint refines {S A} (p q : proc S A) : Prop :=
  match p with
  | Return a => q = Return a
  | Crash e => e = EFuel ∨ q = Crash e
  | Act f => ∀ s, match f s with
                  | Some (s', p') => (s' = s ∧ refines p' q) ∨
                                     (∃ g q', q = Act g ∧ g s = Some (s', q') ∧ refines p' q')
                  | None => True
                  end
  end.

Lemma refines_refl {S A} (p : proc S A) : refines p p.
Proof.
  induction p as [a|e|f IH] using proc_ind'; cbn; [done|by right|]. intros s.
  destruct (f s) as [[s' p']|] eqn:E; [|done]. right. exists f, p'. split_and!; [done..|by eapply IH].
Qed.

(** Pools of which the first threads refine those of another. *)
Lemma refines_step {S A} (ps qs os rs : list (proc S A)) s s' :
  Forall2 refines ps qs → pool_step (ps ++ os, s) (rs, s') →
  ∃ ps' qs' os', rs = ps' ++ os' ∧ rtc pool_step (qs ++ os, s) (qs' ++ os', s') ∧
    Forall2 refines ps' qs' ∧ length os' = length os.
Proof.
  intros Hr Hstep. pose proof (Forall2_length _ _ _ Hr) as Hl.
  inversion Hstep as [? ? i f ? p' Hi Hf]; subst. destruct (decide (i < length ps)%nat) as [Hlt|Hge].
  - rewrite lookup_app_l in Hi by done. rewrite insert_app_l by done.
    destruct (Forall2_lookup_l _ _ _ _ _ Hr Hi) as (q & Hq & H). specialize (H s). rewrite Hf in H.
    destruct H as [[-> H]|(g & q' & -> & Hg & H)].
    + exists (<[i := p']> ps), qs, os. split_and!; [done..| |done]. rewrite <- (list_insert_id qs i q) by done. by apply Forall2_insert.
    + exists (<[i := p']> ps), (<[i := q']> qs), os. split_and!; [done| |by apply Forall2_insert|done].
      rewrite <- insert_app_l by lia. eapply rtc_once, pool_act; [|done]. by rewrite lookup_app_l by lia.
  - rewrite lookup_app_r in Hi by lia. replace i with (length ps + (i - length ps))%nat by lia. rewrite insert_app_r.
    exists ps, qs, (<[(i - length ps)%nat := p']> os). split_and!; [done| |done|apply length_insert].
    apply (pool_steps_app_r qs (os, s) (_, s')). by eapply rtc_once, pool_act.
Qed.

Lemma refines_steps {S A} (ps qs os rs : list (proc S A)) s s' :
  rtc pool_step (ps ++ os, s) (rs, s') → Forall2 refines ps qs →
  ∃ ps' qs' os', rs = ps' ++ os' ∧ rtc pool_step (qs ++ os, s) (qs' ++ os', s') ∧
    Forall2 refines ps' qs' ∧ length os' = length os.
Proof.
  intros H. remember (ps ++ os, s) as c. remember (rs, s') as c'. revert ps qs os s Heqc.
  induction H as [c|c [ps1 s1] c2 H1 _ IH]; intros ps qs os s -> Hr.
  - simplify_eq. by exists ps, qs, os.
  - destruct (refines_step _ _ _ _ _ _ Hr H1) as (ps2 & qs1 & os1 & -> & Hs & Hr1 & Hl1).
    destruct (IH Heqc' ps2 qs1 os1 s1 eq_refl Hr1) as (ps3 & qs3 & os3 & -> & Hs3 & Hr3 & Hl3).
    exists ps3, qs3, os3. split_and!; [done|by etrans|done|congruence].
Qed.
