(* ===== verification/Messages.v ===== *)
(** * Control messages (src/AbstractMessageConnection.cpp,
    src/RawMessageConnection.cpp)

    A connection has a ring of buffers for the messages that arrive and one for
    those that are sent. The network card takes the receive requests in the
    order in which they are posted and puts a message, behind forty bytes of
    routing header, into the buffer of the oldest one; a message that finds no
    request is lost. *)

From Stdlib Require Import ZArith Lia Bool.
From stdpp Require Import base tactics decidable option numbers list.
From S2P Require Import Prelude.
From S2P Require Import Common.
From S2P Require Import Memory.
From S2P Require Import Verbs.

Definition kBatchCount : Z := 4.
Definition SIGNAL_BATCH : Z := 31.
Definition APP_MESSAGE_NR : Z := 96.
Definition DIR_MESSAGE_NR : Z := 128.

Record MessageConnection : Set := MC {
  messageNR : Z; curMessage : Z; curSend : Z; sendCounter : Z; sendPadding : Z; recvPadding : Z;
  messagePool : Z; sendPool : Z; messageLkey : Z;
  subNR : Z; recvs : list (list ibv_sge)
}.

(** The constructor, on a pool of [2 * messageNR] buffers. *)
Definition connection_new (sendPad recvPad nr pool lkey : Z) : res MessageConnection :=
  check (nr `rem` kBatchCount =? 0) ;;
  Ok (MC (wrap 16 nr) 0 0 0 sendPad recvPad pool (pool + wrap 16 nr * MESSAGE_SIZE) lkey 0 []).

Definition raw_connection_new (nr pool lkey : Z) : res MessageConnection := connection_new 0 40 nr pool lkey.

(** [initRecv]: the connection, and the requests that are posted. *)
Definition recv_entry (c : MessageConnection) (sub k i : Z) : ibv_sge :=
  Sge (messagePool c + (k * sub + i) * MESSAGE_SIZE) MESSAGE_SIZE (messageLkey c).

Definition initRecv (c : MessageConnection) : MessageConnection * list ibv_sge :=
  let sub := messageNR c / kBatchCount in
  let batches := (λ k, (λ i, recv_entry c sub (Z.of_nat k) (Z.of_nat i)) <$> seq 0 (Z.to_nat sub)) <$> seq 0 (Z.to_nat kBatchCount) in
  (MC (messageNR c) (curMessage c) (curSend c) (sendCounter c) (sendPadding c) (recvPadding c)
      (messagePool c) (sendPool c) (messageLkey c) sub batches, mjoin batches).

(** [getMessage]: where the next message is, and what is posted again. *)
Definition getMessage (c : MessageConnection) : res (Z * MessageConnection * list ibv_sge) :=
  let m := messagePool c + curMessage c * MESSAGE_SIZE + recvPadding c in
  defined (negb (messageNR c =? 0) && negb (subNR c =? 0)) ;;
  let cur := ADD_ROUND (curMessage c) (messageNR c) in
  let c' := MC (messageNR c) cur (curSend c) (sendCounter c) (sendPadding c) (recvPadding c)
               (messagePool c) (sendPool c) (messageLkey c) (subNR c) (recvs c) in
  if cur `rem` subNR c =? 0
  then batch ← idx_ (recvs c) (wrap 32 (wrap 32 (cur / subNR c - 1) + kBatchCount) `rem` kBatchCount); Ok (m, c', batch)
  else Ok (m, c', []).

Definition getSendPool (c : MessageConnection) : res (Z * MessageConnection) :=
  let s := sendPool c + curSend c * MESSAGE_SIZE + sendPadding c in
  defined (negb (messageNR c =? 0)) ;;
  Ok (s, MC (messageNR c) (curMessage c) (ADD_ROUND (curSend c) (messageNR c)) (sendCounter c) (sendPadding c) (recvPadding c)
            (messagePool c) (sendPool c) (messageLkey c) (subNR c) (recvs c)).

(** [sendRawMessage]: how many completions are waited for, and the request. *)
Definition rawMessageSize : Z := 17.
Definition sendRawMessage (m : Z) (c : MessageConnection) : Z * list send_wr * MessageConnection :=
  let batch_start : bool := Z.land (sendCounter c) SIGNAL_BATCH =? 0 in
  (if batch_start && (0 <? sendCounter c) then 1 else 0,
   rdmaSend_ud (m - sendPadding c) (rawMessageSize + sendPadding c) (messageLkey c) batch_start,
   MC (messageNR c) (curMessage c) (curSend c) (wrap 64 (sendCounter c + 1)) (sendPadding c) (recvPadding c)
      (messagePool c) (sendPool c) (messageLkey c) (subNR c) (recvs c)).

(** ** The connection and the card *)
Record ring : Type := Ring { conn : MessageConnection; rq : list ibv_sge; pool : mem unit }.

(** A message arrives: its routing header and its contents. *)
Definition arrive (grh msg : list byte) (w : ring) : option ring :=
  match rq w with
  | s :: q => Some (Ring (conn w) q (store (pool w) tt (sg_addr s) (grh ++ msg)))
  | [] => None
  end.

Definition take_message (w : ring) : res (Z * ring) :=
  '(m, c, posted) ← getMessage (conn w); Ok (m, Ring c (rq w ++ posted) (pool w)).

(** What can happen to a connection: messages of [msgs] have arrived, [g] of
    them were taken, each after its completion. *)
Inductive ring_run (nr base key : Z) : ring → list (list byte) → nat → Prop :=
  | run_start c c' posted p :
      raw_connection_new nr base key = Ok c → initRecv c = (c', posted) → ring_run nr base key (Ring c' posted p) [] 0
  | run_arrive w msgs g grh msg w' :
      ring_run nr base key w msgs g → length grh = 40%nat → Z.of_nat (length msg) <= MESSAGE_SIZE - 40 →
      arrive grh msg w = Some w' → ring_run nr base key w' (msgs ++ [msg]) g
  | run_take w msgs g m w' :
      ring_run nr base key w msgs g → (g < length msgs)%nat → take_message w = Ok (m, w') → ring_run nr base key w' msgs (S g).

(** ** The ring is a queue *)
Section ring.
Context (sub : nat) (base key : Z).
Hypothesis sub_range : 0 < Z.of_nat sub ∧ Z.of_nat (4 * sub) < 2 ^ 16.

(** The buffer of the [j]-th message, and what is posted after [g] messages
    were taken. *)
Definition slot (j : nat) : ibv_sge := Sge (base + Z.of_nat (j `mod` (4 * sub)) * MESSAGE_SIZE) MESSAGE_SIZE key.
Definition posted (g : nat) : nat := (4 * sub + sub * (g / sub))%nat.

Record ring_inv (w : ring) (msgs : list (list byte)) (g : nat) : Prop := {
  ri_nr : messageNR (conn w) = Z.of_nat (4 * sub);
  ri_cur : curMessage (conn w) = Z.of_nat (g `mod` (4 * sub));
  ri_sub : subNR (conn w) = Z.of_nat sub;
  ri_pad : recvPadding (conn w) = 40;
  ri_pool : messagePool (conn w) = base;
  ri_recvs : recvs (conn w) = (λ k, slot <$> seq (k * sub) sub) <$> seq 0 4;
  ri_taken : (g <= length msgs)%nat;
  ri_room : (length msgs <= posted g)%nat;
  ri_rq : rq w = slot <$> seq (length msgs) (posted g - length msgs);
  ri_size (j : nat) msg : msgs !! j = Some msg → Z.of_nat (length msg) <= MESSAGE_SIZE - 40;
  ri_kept (j : nat) msg : msgs !! j = Some msg → (length msgs <= j + 4 * sub)%nat →
    load (pool w) tt (sg_addr (slot j) + 40) (length msg) = msg
}.

Lemma slot_apart i j :
  (i < j < i + 4 * sub)%nat →
  sg_addr (slot i) + MESSAGE_SIZE <= sg_addr (slot j) ∨ sg_addr (slot j) + MESSAGE_SIZE <= sg_addr (slot i).
Proof.
  intros Hij. unfold slot. cbn [sg_addr]. unfold MESSAGE_SIZE.
  assert (Hne : (i `mod` (4 * sub) ≠ j `mod` (4 * sub))%nat).
  { intros E. pose proof (Nat.div_mod_eq i (4 * sub)) as Ei. pose proof (Nat.div_mod_eq j (4 * sub)) as Ej. rewrite E in Ei.
    revert Hij Ei Ej. generalize (4 * sub)%nat as N, (i / (4 * sub))%nat as a, (j / (4 * sub))%nat as b, (j `mod` (4 * sub))%nat as r.
    intros N a b r Hij -> ->. destruct (decide (b <= a)%nat); nia. }
  revert Hne. generalize (i `mod` (4 * sub))%nat as x, (j `mod` (4 * sub))%nat as y. lia.
Qed.

Lemma slot_period j k : slot (4 * sub * k + j) = slot j.
Proof. unfold slot. do 3 f_equal. rewrite Nat.mul_comm, Nat.add_comm, Nat.Div0.mod_add. done. Qed.

Lemma start_inv c c' post p :
  raw_connection_new (Z.of_nat (4 * sub)) base key = Ok c → initRecv c = (c', post) → ring_inv (Ring c' post p) [] 0.
Proof.
  intros Ec Ei.
  assert (c = MC (Z.of_nat (4 * sub)) 0 0 0 0 40 base (base + Z.of_nat (4 * sub) * MESSAGE_SIZE) key 0 []) as ->.
  { unfold raw_connection_new, connection_new in Ec. apply bind_Ok in Ec as (? & _ & Ec).
    rewrite wrap_small in Ec by (unfold uint; lia). by injection Ec. }
  unfold initRecv in Ei. cbn [messageNR] in Ei.
  replace (Z.of_nat (4 * sub) / kBatchCount) with (Z.of_nat sub) in Ei
    by (unfold kBatchCount; rewrite Nat2Z.inj_mul, Z.mul_comm; symmetry; by apply Z.div_mul).
  rewrite Nat2Z.id in Ei. change (Z.to_nat kBatchCount) with 4%nat in Ei.
  assert (Hb : ∀ k, (k < 4)%nat → (λ i, recv_entry (MC (Z.of_nat (4 * sub)) 0 0 0 0 40 base (base + Z.of_nat (4 * sub) * MESSAGE_SIZE) key 0 [])
      (Z.of_nat sub) (Z.of_nat k) (Z.of_nat i)) <$> seq 0 sub = slot <$> seq (k * sub) sub).
  { intros k Hk. rewrite <- (Nat.add_0_r (k * sub)), <- fmap_add_seq, <- list_fmap_compose. apply list_fmap_ext. intros i ? [-> Hi]%lookup_seq.
    unfold compose, slot. rewrite Nat.mod_small by nia. unfold recv_entry. cbn [messagePool messageLkey]. f_equal. nia. }
  rewrite (list_fmap_ext _ (λ k, slot <$> seq (k * sub) sub) (seq 0 4)) in Ei
    by (intros i k [-> Hk]%lookup_seq; by apply Hb).
  apply pair_equal_spec in Ei as [<- <-]. split; cbn [conn rq pool messageNR curMessage subNR recvPadding messagePool recvs]; try done.
  - by rewrite Nat.Div0.mod_0_l.
  - apply Nat.le_0_l.
  - unfold posted. cbn [length]. rewrite Nat.Div0.div_0_l.
    cbn [seq fmap list_fmap mjoin list_join]. rewrite app_nil_r, <- !fmap_app. f_equal.
    replace (4 * sub + sub * 0 - 0)%nat with (sub + (sub + (sub + sub)))%nat by lia. rewrite !seq_app. do 2 f_equal; [f_equal; lia|]. do 2 f_equal; lia.
Qed.

Lemma arrive_inv w msgs g grh msg :
  ring_inv w msgs g → length grh = 40%nat → Z.of_nat (length msg) <= MESSAGE_SIZE - 40 → (length msgs < posted g)%nat →
  ∃ w', arrive grh msg w = Some w' ∧ ring_inv w' (msgs ++ [msg]) g.
Proof.
  intros [] Hg Hm Hroom. unfold arrive. rewrite ri_rq0.
  replace (posted g - length msgs)%nat with (S (posted g - S (length msgs)))%nat by lia. cbn [seq fmap list_fmap].
  eexists. split; [done|]. split; cbn [conn rq pool]; try done; rewrite ?length_app; cbn [length].
  - lia.
  - lia.
  - replace (length msgs + 1)%nat with (S (length msgs)) by lia. done.
  - intros j msg' [Hj|[_ Hj]]%lookup_app_Some; [by eapply ri_size0|]. apply list_lookup_singleton_Some in Hj as [_ <-]. done.
  - intros j msg' Hj Hle. apply lookup_app_Some in Hj as [Hj|[Hge Hj]].
    + pose proof (lookup_lt_Some _ _ _ Hj) as Hlt. pose proof (ri_size0 _ _ Hj) as Hs1.
      rewrite load_store_other; [by apply ri_kept0; [|lia]|]. rewrite length_app, Hg.
      right. unfold MESSAGE_SIZE in *. destruct (slot_apart j (length msgs)) as [Hs|Hs]; [lia|unfold MESSAGE_SIZE in Hs; lia..].
    + apply list_lookup_singleton_Some in Hj as [Hj <-]. replace j with (length msgs) by lia.
      change 40 with (Z.of_nat 40). rewrite load_store_part by (rewrite length_app; lia).
      unfold slice. rewrite drop_app_length' by done. by rewrite take_ge.
Qed.

(** After a whole batch has been taken, its requests are posted again: they
    continue the ones that are waiting. *)
Lemma next_batch g : (S g `mod` sub = 0)%nat →
  slot <$> seq ((g / sub) `mod` 4 * sub) sub = slot <$> seq (posted g) sub ∧ posted (S g) = (posted g + sub)%nat.
Proof.
  intros Hg. set (q := (g / sub)%nat).
  assert (Eq : (S g / sub = S q)%nat).
  { pose proof (Nat.div_mod_eq (S g) sub) as E1. rewrite Hg in E1. pose proof (Nat.div_mod_eq g sub) as E2. fold q in E2.
    pose proof (Nat.mod_upper_bound g sub ltac:(lia)). nia. }
  split; [|unfold posted; rewrite Eq; fold q; lia].
  rewrite <- (Nat.add_0_r (_ * sub)), <- (Nat.add_0_r (posted g)), <- !fmap_add_seq, <- !list_fmap_compose.
  apply list_fmap_ext. intros i ? [-> Hi]%lookup_seq. unfold compose, posted. fold q.
  pose proof (Nat.div_mod_eq q 4) as E4. replace (4 * sub + sub * q + (0 + i))%nat with (4 * sub * (1 + q / 4) + (q `mod` 4 * sub + i))%nat by nia.
  by rewrite slot_period.
Qed.

Lemma batch_index g : (S g `mod` sub = 0)%nat →
  wrap 32 (wrap 32 (Z.of_nat (S g `mod` (4 * sub)) / Z.of_nat sub - 1) + kBatchCount) `rem` kBatchCount = Z.of_nat ((g / sub) `mod` 4).
Proof.
  intros Hg. destruct (next_batch g Hg) as [_ Hp]. unfold posted in Hp.
  assert (Eq : S g = (sub * S (g / sub))%nat). { pose proof (Nat.div_mod_eq (S g) sub) as E. nia. }
  rewrite Eq, (Nat.mul_comm 4 sub), Nat.Div0.mul_mod_distr_l, Nat2Z.inj_mul, Z.mul_comm, Z.div_mul by lia.
  clear. generalize (g / sub)%nat as q. intros q. rewrite <- Nat.add_1_r, <- Nat.Div0.add_mod_idemp_l.
  pose proof (Nat.mod_upper_bound q 4 ltac:(lia)) as Hq. revert Hq. generalize (q `mod` 4)%nat as r. intros r Hr.
  do 4 (destruct r as [|r]; [by vm_compute|]). lia.
Qed.

Lemma same_posted g : (S g `mod` sub ≠ 0)%nat → posted (S g) = posted g.
Proof.
  intros Hg. unfold posted. do 2 f_equal. pose proof (Nat.div_mod_eq (S g) sub). pose proof (Nat.div_mod_eq g sub).
  pose proof (Nat.mod_upper_bound g sub ltac:(lia)). pose proof (Nat.mod_upper_bound (S g) sub ltac:(lia)). nia.
Qed.

Lemma getMessage_spec w msgs g :
  ring_inv w msgs g →
  ∃ c' post, getMessage (conn w) = Ok (sg_addr (slot g) + 40, c', post) ∧
    post = slot <$> seq (posted g) (posted (S g) - posted g) ∧
    c' = MC (Z.of_nat (4 * sub)) (Z.of_nat (S g `mod` (4 * sub))) (curSend (conn w)) (sendCounter (conn w)) (sendPadding (conn w)) 40
            base (sendPool (conn w)) (messageLkey (conn w)) (Z.of_nat sub) (recvs (conn w)).
Proof.
  intros []. unfold getMessage. rewrite ri_nr0, ri_cur0, ri_sub0, ri_pad0, ri_pool0.
  rewrite (proj2 (Z.eqb_neq (Z.of_nat (4 * sub)) 0)), (proj2 (Z.eqb_neq (Z.of_nat sub) 0)) by lia.
  change (defined (negb false && negb false)) with (Ok tt). cbn [mbind res_bind].
  assert (Ecur : ADD_ROUND (Z.of_nat (g `mod` (4 * sub))) (Z.of_nat (4 * sub)) = Z.of_nat (S g `mod` (4 * sub))).
  { unfold ADD_ROUND. rewrite Z.rem_mod_nonneg by lia. replace (Z.of_nat (g `mod` (4 * sub)) + 1) with (Z.of_nat (S (g `mod` (4 * sub)))) by lia.
    rewrite <- Nat2Z.inj_mod. f_equal. rewrite <- Nat.add_1_r, Nat.Div0.add_mod_idemp_l. f_equal. lia. }
  rewrite Ecur. rewrite Z.rem_mod_nonneg, <- Nat2Z.inj_mod by lia.
  assert (Emod : ((S g `mod` (4 * sub)) `mod` sub = S g `mod` sub)%nat).
  { rewrite (Nat.mul_comm 4 sub), Nat.Div0.mod_mul_r. rewrite Nat.mul_comm, Nat.Div0.mod_add. apply Nat.Div0.mod_mod. }
  rewrite Emod. destruct (Z.eqb_spec (Z.of_nat (S g `mod` sub)) 0) as [E0|E0].
  - destruct (next_batch g ltac:(lia)) as [Hb Hp]. rewrite batch_index by lia.
    rewrite (proj2 (idx_Ok (recvs (conn w)) (Z.of_nat ((g / sub) `mod` 4)) (slot <$> seq ((g / sub) `mod` 4 * sub) sub))).
    2:{ rewrite Nat2Z.id. split; [lia|]. pose proof (Nat.mod_upper_bound (g / sub) 4 ltac:(lia)).
        by rewrite ri_recvs0, list_lookup_fmap, lookup_seq_lt. }
    eexists _, _. split; [done|]. split; [|done]. by rewrite Hb, Hp, Nat.add_comm, Nat.add_sub.
  - eexists _, _. split; [done|]. split; [|done]. rewrite same_posted by lia. by rewrite Nat.sub_diag.
Qed.

Lemma take_inv w msgs g :
  ring_inv w msgs g → (g < length msgs)%nat →
  ∃ w', take_message w = Ok (sg_addr (slot g) + 40, w') ∧ pool w' = pool w ∧ ring_inv w' msgs (S g).
Proof.
  intros Hi Hg. destruct (getMessage_spec w msgs g Hi) as (c' & post & E & -> & ->). destruct Hi.
  unfold take_message. rewrite E. eexists. split; [done|]. split; [done|].
  assert (Hp : (posted g <= posted (S g))%nat).
  { destruct (decide (S g `mod` sub = 0)%nat) as [E0|E0]; [destruct (next_batch g E0); lia|by rewrite same_posted]. }
  split; cbn [conn rq pool messageNR curMessage subNR recvPadding messagePool recvs]; try done; [lia|].
  rewrite ri_rq0, <- fmap_app. f_equal.
  replace (posted (S g) - length msgs)%nat with ((posted g - length msgs) + (posted (S g) - posted g))%nat by lia.
  rewrite seq_app. do 2 f_equal. lia.
Qed.
End ring.

Lemma arrive_room sub base key w msgs g grh msg w' :
  ring_inv sub base key w msgs g → arrive grh msg w = Some w' → (length msgs < posted sub g)%nat.
Proof.
  intros Hi Ha. unfold arrive in Ha. rewrite (ri_rq _ _ _ _ _ _ Hi) in Ha.
  destruct (posted sub g - length msgs)%nat as [|k] eqn:E; [done|lia].
Qed.

Lemma posted_bounds sub g : (0 < sub)%nat → (g + 3 * sub < posted sub g <= g + 4 * sub)%nat.
Proof.
  intros Hs. unfold posted. pose proof (Nat.div_mod_eq g sub). pose proof (Nat.mod_upper_bound g sub ltac:(lia)). nia.
Qed.

Lemma ring_run_inv sub base key w msgs g :
  0 < Z.of_nat sub ∧ Z.of_nat (4 * sub) < 2 ^ 16 →
  ring_run (Z.of_nat (4 * sub)) base key w msgs g → ring_inv sub base key w msgs g.
Proof.
  intros Hs Hr. induction Hr as [c c' post p Ec Ei|w msgs g grh msg w' Hr IH Hg Hm Ha|w msgs g m w' Hr IH Hg Ht].
  - by eapply start_inv.
  - pose proof (arrive_room _ _ _ _ _ _ _ _ _ IH Ha) as Hroom.
    destruct (arrive_inv sub base key Hs w msgs g grh msg) as (w2 & E & H2); [done..|]. congruence.
  - destruct (take_inv sub base key Hs w msgs g IH Hg) as (w2 & E & _ & H2). congruence.
Qed.

(** C23. The ring of [4 * sub] buffers is a queue: a message that has arrived
    and was not taken is what the next call returns, the oldest first, and
    taking it never fails; a message is accepted whenever at most [3 * sub]
    are waiting, and is lost only when more are; and what was taken last stays
    in its buffer until [4 * sub] newer messages have arrived. *)
Theorem message_ring_fifo sub base key w msgs g :
  0 < Z.of_nat sub ∧ Z.of_nat (4 * sub) < 2 ^ 16 →
  ring_run (Z.of_nat (4 * sub)) base key w msgs g →
  (∀ msg, msgs !! g = Some msg →
     ∃ m w', take_message w = Ok (m, w') ∧ load (pool w') tt m (length msg) = msg ∧
       ∀ grh new w2, length grh = 40%nat → Z.of_nat (length new) <= MESSAGE_SIZE - 40 → (length msgs < g + 4 * sub)%nat →
         arrive grh new w' = Some w2 → load (pool w2) tt m (length msg) = msg) ∧
  ((length msgs <= g + 3 * sub)%nat → ∀ grh msg, is_Some (arrive grh msg w)).
Proof.
  intros Hs Hr. pose proof (ring_run_inv _ _ _ _ _ _ Hs Hr) as Hi. split.
  - intros msg Hg. pose proof (lookup_lt_Some _ _ _ Hg) as Hlt.
    destruct (take_inv sub base key Hs w msgs g Hi Hlt) as (w' & E & Ep & Hi'). exists (sg_addr (slot sub base key g) + 40), w'.
    pose proof (posted_bounds sub g ltac:(lia)) as Hb. pose proof (ri_room _ _ _ _ _ _ Hi) as Hroom.
    split_and!; [done|rewrite Ep; apply (ri_kept _ _ _ _ _ _ Hi); [done|lia]|].
    intros grh new w2 Hgrh Hnew Hlen Ha. pose proof (arrive_room _ _ _ _ _ _ _ _ _ Hi' Ha) as Hroom'.
    destruct (arrive_inv sub base key Hs w' msgs (S g) grh new) as (w3 & E3 & Hi3); [done..|].
    rewrite Ha in E3. injection E3 as <-. apply (ri_kept _ _ _ _ _ _ Hi3).
    + by rewrite lookup_app_l.
    + rewrite length_app. cbn. lia.
  - intros Hle grh msg. pose proof (posted_bounds sub g ltac:(lia)) as Hb. unfold arrive. rewrite (ri_rq _ _ _ _ _ _ Hi).
    destruct (posted sub g - length msgs)%nat as [|k] eqn:E; [lia|]. by eexists.
Qed.

(** ** The buffers for sending

    The card sends in order, so the completion of a message that is signalled
    is that of all before it. [send_run]: [n] messages were sent, and [p]
    completions have been waited for. *)
Inductive send_run (nr base key : Z) : MessageConnection → nat → Z → Prop :=
  | send_start c : raw_connection_new nr base key = Ok c → send_run nr base key c 0 0
  | send_one c n p s c1 polls wrs c2 :
      send_run nr base key c n p → getSendPool c = Ok (s, c1) → sendRawMessage s c1 = (polls, wrs, c2) →
      send_run nr base key c2 (S n) (p + polls).

(** The message [j] is known to have left: one from [j] on was signalled and
    its completion was seen. *)
Definition has_left (p : Z) (j : nat) : Prop := ∃ q, q < p ∧ Z.of_nat j <= 32 * q.

Lemma send_counter nr base key c n p :
  send_run nr base key c n p → 0 < nr < 2 ^ 16 → Z.of_nat n < 2 ^ 64 →
  messageNR c = nr ∧ curSend c = Z.of_nat n `mod` nr ∧ sendCounter c = Z.of_nat n ∧ sendPool c = base + nr * MESSAGE_SIZE ∧ sendPadding c = 0 ∧
  p = (if decide (n = 0%nat) then 0 else (Z.of_nat n - 1) / 32).
Proof.
  intros Hr Hnr. induction Hr as [c E|c n p s c1 polls wrs c2 Hr IH E1 E2]; intros Hn.
  - unfold raw_connection_new, connection_new in E. apply bind_Ok in E as (? & _ & [= <-]). cbn.
    rewrite wrap_small by (unfold uint; lia). split_and!; done || by rewrite Zmod_0_l.
  - destruct IH as (I1 & I2 & I3 & I4 & I5 & I6); [lia|]. unfold getSendPool in E1. apply bind_Ok in E1 as (? & _ & [= <- <-]).
    unfold sendRawMessage in E2. cbn [sendCounter sendPadding messageLkey] in E2. injection E2 as <- <- <-. cbn.
    rewrite I3, wrap_small by (unfold uint; lia). split_and!; try done; try lia.
    + unfold ADD_ROUND. rewrite I2, I1, Z.rem_mod_nonneg by (pose proof (Z.mod_pos_bound (Z.of_nat n) nr); lia).
      rewrite Zplus_mod_idemp_l. f_equal. lia.
    + unfold SIGNAL_BATCH. change 31 with (Z.ones 5). rewrite Z.land_ones by lia. change (2 ^ 5) with 32. rewrite I6, (decide_False (P := S n = 0%nat)) by done.
      replace (Z.of_nat (S n) - 1) with (Z.of_nat n) by lia.
      destruct (decide (n = 0%nat)) as [->|Hne]; [done|].
      pose proof (Z.div_mod (Z.of_nat n) 32 ltac:(lia)). pose proof (Z.mod_pos_bound (Z.of_nat n) 32 ltac:(lia)).
      pose proof (Z.div_mod (Z.of_nat n - 1) 32 ltac:(lia)). pose proof (Z.mod_pos_bound (Z.of_nat n - 1) 32 ltac:(lia)).
      rewrite (proj2 (Z.ltb_lt 0 (Z.of_nat n))), andb_true_r by lia.
      destruct (Z.eqb_spec (Z.of_nat n `mod` 32) 0) as [E0|E0]; lia.
Qed.

(** C24. With at least 64 buffers, the buffer that is handed out for a message
    is not in use: when it comes round again, the message that was sent from it
    is known to have left, although only every 32nd message is signalled. *)
Theorem send_buffer_free nr base key c n p :
  64 <= nr < 2 ^ 16 → Z.of_nat n < 2 ^ 64 → send_run nr base key c n p →
  ∃ c', getSendPool c = Ok (base + nr * MESSAGE_SIZE + (Z.of_nat n `mod` nr) * MESSAGE_SIZE, c') ∧
    ∀ j : nat, (j < n)%nat → Z.of_nat j `mod` nr = Z.of_nat n `mod` nr → has_left p j.
Proof.
  intros Hnr Hn Hr. destruct (send_counter nr base key c n p Hr) as (I1 & I2 & I3 & I4 & I5 & I6); [lia|done|].
  unfold getSendPool. rewrite I1, I2, I4, I5, (proj2 (Z.eqb_neq nr 0)), Z.add_0_r by lia. eexists. split; [done|].
  intros j Hj Ej. rewrite decide_False in I6 by lia.
  assert (Hle : Z.of_nat j <= Z.of_nat n - nr).
  { pose proof (Z.div_mod (Z.of_nat j) nr ltac:(lia)) as D1. pose proof (Z.div_mod (Z.of_nat n) nr ltac:(lia)) as D2. rewrite Ej in D1.
    revert D1 D2. generalize (Z.of_nat j / nr) as a, (Z.of_nat n / nr) as b, (Z.of_nat n `mod` nr) as r. intros a b r D1 D2.
    assert (Hab : a < b) by (apply (Z.mul_lt_mono_pos_l nr); lia).
    pose proof (Z.mul_le_mono_nonneg_l (a + 1) b nr). lia. }
  exists (p - 1). pose proof (Z.div_mod (Z.of_nat n - 1) 32 ltac:(lia)). pose proof (Z.mod_pos_bound (Z.of_nat n - 1) 32 ltac:(lia)). lia.
Qed.

(** ** Witnesses *)
Definition ex_mem : mem unit := λ _ _, 0.

Lemma ex_ring : ∃ w w', ring_run (Z.of_nat (4 * 24)) 4096 7 w [] 0 ∧
  arrive (replicate 40 0) [1; 2; 3] w = Some w' ∧ ring_run (Z.of_nat (4 * 24)) 4096 7 w' [[1; 2; 3]] 0.
Proof.
  destruct (raw_connection_new (Z.of_nat (4 * 24)) 4096 7) as [c|] eqn:E; [|by vm_compute in E].
  destruct (initRecv c) as [c' post] eqn:Ei. exists (Ring c' post ex_mem).
  assert (Hs : ring_run (Z.of_nat (4 * 24)) 4096 7 (Ring c' post ex_mem) [] 0) by (by apply (run_start _ _ _ c)).
  destruct (arrive (replicate 40 0) [1; 2; 3] (Ring c' post ex_mem)) as [w'|] eqn:Ea.
  2:{ injection E as <-. vm_compute in Ei. injection Ei as <- <-. done. }
  exists w'. split_and!; [done|done|]. apply (run_arrive _ _ _ (Ring c' post ex_mem) [] 0 (replicate 40 0) [1; 2; 3] w'); done.
Qed.

Lemma message_ring_fifo_witness :
  ∃ w m w', ring_run (Z.of_nat (4 * 24)) 4096 7 w [[1; 2; 3]] 0 ∧ take_message w = Ok (m, w') ∧ load (pool w') tt m 3 = [1; 2; 3].
Proof.
  destruct ex_ring as (w0 & w & _ & _ & Hr).
  destruct (message_ring_fifo 24 4096 7 w [[1; 2; 3]] 0) as [Ht _]; [lia|done|].
  destruct (Ht [1; 2; 3] eq_refl) as (m & w' & E & Hl & _). by exists w, m, w'.
Defined.

Lemma ex_sends : ∃ c, send_run 96 4096 7 c 1 0.
Proof.
  destruct (raw_connection_new 96 4096 7) as [c|] eqn:E; [|by vm_compute in E].
  destruct (getSendPool c) as [[s c1]|] eqn:E1; [|injection E as <-; by vm_compute in E1].
  destruct (sendRawMessage s c1) as [[polls wrs] c2] eqn:E2. exists c2.
  replace 0 with (0 + polls); [by eapply send_one; [apply (send_start _ _ _ c)| |]|].
  injection E as <-. vm_compute in E1. injection E1 as <- <-. vm_compute in E2. by injection E2 as <- _ _.
Qed.

Lemma send_buffer_free_witness : ∃ c s c', send_run 96 4096 7 c 1 0 ∧ getSendPool c = Ok (s, c').
Proof.
  destruct ex_sends as (c & Hr). destruct (send_buffer_free 96 4096 7 c 1 0) as (c' & E & _); [lia|lia|done|]. by exists c, (4096 + 96 * MESSAGE_SIZE + (1 `mod` 96) * MESSAGE_SIZE), c'.
Defined.
