(* ===== verification/ClientThread.v ===== *)
(** * Client threads (src/DSM.cpp)

    [DSM::registerThread]: a thread takes its id, its connection and its
    buffers. Several threads register at the same time; the counter of ids is
    atomic, the rest belongs to the thread. And the keys that a thread of a
    benchmark draws from the key space. *)

From Stdlib Require Import ZArith Lia Bool.
From stdpp Require Import base tactics decidable option numbers list relations.
From S2P Require Import Prelude Common Keys RdmaBuf Verbs Process Messages.

(** The thread-local variables; [icon] is the index of the thread's connection. *)
Record thread_locals : Set := TL {
  thread_id : Z; thread_tag : Z; icon : option Z; rdma_buffer : Z; rbuf : list RdmaBuffer }.

Definition rbuf_new : RdmaBuffer := RB 0 0 0 0 0 0 0 0 0 0 0 0 0.
Definition thread_new : thread_locals := TL (-1) 0 None 0 (replicate (Z.to_nat MAX_CORO_NUM) rbuf_new).

(** What the threads share: the counter, the message connections with the
    receive requests posted on them, and where a zero byte was stored. *)
Record dsm : Set := Dsm {
  appID : Z; messages : list MessageConnection; requests : list (list ibv_sge); zeroed : list Z }.

(** [rbuf[i].set_buffer(...)] for every coroutine. *)
Fixpoint set_buffers (bs : list RdmaBuffer) (a : Z) : res (list RdmaBuffer * list Z) :=
  match bs with
  | [] => Ok ([], [])
  | b :: bs =>
    '(b, z) ← set_buffer b a;
    '(bs, zs) ← set_buffers bs (a + kPerCoroRdmaBuf);
    Ok (b :: bs, z :: zs)
  end.

Section register.
Context (my_node cache_data : Z).

Definition take_id : proc dsm Z :=
  atomic (λ d, (appID d, Dsm (appID d + 1) (messages d) (requests d) (zeroed d))).

(** [iCon = thCon[thread_id]; iCon->message->initRecv()], and [initSend], which
    does nothing. *)
Definition init_messages (id : Z) : proc dsm unit :=
  atomic_res (λ d,
    c ← idx_ (messages d) id;
    let '(c, posted) := initRecv c in
    Ok (tt, Dsm (appID d) (<[Z.to_nat id := c]> (messages d))
              (alter (λ q, q ++ posted) (Z.to_nat id) (requests d)) (zeroed d))).

Definition init_buffers (tl : thread_locals) : proc dsm thread_locals :=
  atomic_res (λ d,
    let a := cache_data + thread_id tl * kPerThreadRdmaBuf in
    '(bs, zs) ← set_buffers (rbuf tl) a;
    Ok (TL (thread_id tl) (thread_tag tl) (icon tl) a bs, Dsm (appID d) (messages d) (requests d) (zeroed d ++ zs))).

Definition registerThread (tl : thread_locals) : proc dsm thread_locals :=
  if negb (thread_id tl =? -1) then mret tl
  else
    id ← take_id;
    let tag := wrap 64 (id + wrap 64 (Z.shiftl my_node 32) + 1) in
    init_messages id ;;
    init_buffers (TL id tag (Some id) (rdma_buffer tl) (rbuf tl)).
End register.

(** ** The key space *)

(** [getNoComflictKey]: the key space is cut into a part for each thread. *)
Definition getNoComflictKey (keyBuffer : list Key) (keySpaceSize key_hash global_thread_id global_thread_num : Z) : res Key :=
  defined (negb (global_thread_num =? 0)) ;;
  let part := keySpaceSize / global_thread_num in
  defined (negb (part =? 0)) ;;
  idx_ keyBuffer (wrap 64 (wrap 64 (part * global_thread_id) + key_hash `mod` part)).

(** [getRandomKey]; [r] is what [rand_r] returns, an [int]; the remainder is
    taken of unsigned numbers. *)
Definition getRandomKey (keyBuffer : list Key) (keySpaceSize r : Z) : res Key :=
  defined (negb (keySpaceSize =? 0)) ;;
  idx_ keyBuffer (wrap 64 r `mod` keySpaceSize).

(** ** Buffers of different coroutines *)

(** The buffers of a thread: coroutine [c] has the region from [a] plus [c]
    times its size. *)
Definition buffers_at (a : Z) (bs : list RdmaBuffer) : Prop :=
  ∀ (c : nat) b, bs !! c = Some b → buffer_ok b ∧ buffer b = a + Z.of_nat c * kPerCoroRdmaBuf.

Lemma set_buffers_ok m a :
  ∃ bs zs, set_buffers (replicate m rbuf_new) a = Ok (bs, zs) ∧ length bs = m ∧ buffers_at a bs.
Proof.
  revert a. induction m as [|m IH]; intros a; cbn [replicate set_buffers].
  { exists [], []. by split_and!. }
  destruct (buffer_new_ok a) as (b & E & Hok & Hb). unfold buffer_new in E. fold rbuf_new in E. rewrite E. cbn [mbind res_bind].
  destruct (IH (a + kPerCoroRdmaBuf)) as (bs & zs & -> & Hl & Hbs). cbn [mbind res_bind].
  exists (b :: bs), (zero_byte b :: zs). split_and!; [done|cbn; lia|].
  intros [|c] b' Hc; cbn in Hc.
  - simplify_eq. split; [done|]. lia.
  - destruct (Hbs c b' Hc) as [Hok' Hb']. split; [done|]. lia.
Qed.

(** The regions of all threads lie side by side in the cache. *)
Lemma regions (cache i i' c c' : Z) :
  0 <= i < MAX_APP_THREAD → 0 <= i' < MAX_APP_THREAD → 0 <= c < MAX_CORO_NUM → 0 <= c' < MAX_CORO_NUM →
  let at_ i c := cache + i * kPerThreadRdmaBuf + c * kPerCoroRdmaBuf in
  cache <= at_ i c ∧ at_ i c + kPerCoroRdmaBuf <= cache + rdmaBufferSize * GB ∧
  ((i, c) ≠ (i', c') → disjoint (at_ i c) kPerCoroRdmaBuf (at_ i' c') kPerCoroRdmaBuf).
Proof.
  change MAX_APP_THREAD with 65. change MAX_CORO_NUM with 8. change kPerThreadRdmaBuf with 66076419.
  change kPerCoroRdmaBuf with 8259552. change (rdmaBufferSize * GB) with 4294967296.
  intros Hi Hi' Hc Hc'. cbn. split; [lia|]. split; [lia|]. intros Hne. unfold disjoint.
  destruct (Z.lt_trichotomy i i') as [?|[->|?]]; [lia| |lia].
  destruct (Z.lt_trichotomy c c') as [?|[->|?]]; [lia|done|lia].
Qed.

(** ** The stages of a registration *)
Section stages.
Context (my_node cache_data : Z).

Inductive stage : Set :=
  | RFresh
  | RGot (id : Z)
  | RConnected (id : Z)
  | RDone (tl : thread_locals)
  | RCrash (e : error).

Definition tag_of (id : Z) : Z := wrap 64 (id + wrap 64 (Z.shiftl my_node 32) + 1).
Definition named (id : Z) : thread_locals := TL id (tag_of id) (Some id) 0 (rbuf thread_new).

Definition stage_code (t : stage) : proc dsm thread_locals :=
  match t with
  | RFresh => registerThread my_node cache_data thread_new
  | RGot id => init_messages id ;; init_buffers cache_data (named id)
  | RConnected id => init_buffers cache_data (named id)
  | RDone tl => Return tl
  | RCrash e => Crash e
  end.

Definition stage_trans (t : stage) (d : dsm) : option (dsm * stage) :=
  match t with
  | RFresh => Some (Dsm (appID d + 1) (messages d) (requests d) (zeroed d), RGot (appID d))
  | RGot id => match run (init_messages id) d with Ok (_, d') => Some (d', RConnected id) | Fail e => Some (d, RCrash e) end
  | RConnected id => match run (init_buffers cache_data (named id)) d with Ok (tl, d') => Some (d', RDone tl) | Fail e => Some (d, RCrash e) end
  | RDone _ | RCrash _ => None
  end.

Definition stage_rank (t : stage) : nat :=
  match t with RFresh => 3 | RGot _ => 2 | RConnected _ => 1 | _ => 0 end.

Lemma register_staged : staged stage_code stage_trans.
Proof.
  intros [|id|id|tl|e] d; [done| | |done|done]; cbn [stage_code stage_trans].
  - unfold init_messages. rewrite run_atomic_res. cbn. by destruct (idx_ (messages d) id) as [c|e].
  - unfold init_buffers. rewrite run_atomic_res. cbn.
    by destruct (set_buffers _ _) as [[bs zs]|e].
Qed.

(** ** The invariant *)
Definition stage_id (t : stage) : option Z :=
  match t with RGot id | RConnected id => Some id | RDone tl => Some (thread_id tl) | _ => None end.

Record registered (tl : thread_locals) : Prop := {
  rg_tag : thread_tag tl = tag_of (thread_id tl);
  rg_icon : icon tl = Some (thread_id tl);
  rg_base : rdma_buffer tl = cache_data + thread_id tl * kPerThreadRdmaBuf;
  rg_rbuf : length (rbuf tl) = Z.to_nat MAX_CORO_NUM;
  rg_buffers : buffers_at (rdma_buffer tl) (rbuf tl) }.

Record reg_inv (n : nat) (ts : list stage) (d : dsm) : Prop := {
  ri_length : length ts = n;
  ri_messages : length (messages d) = Z.to_nat MAX_APP_THREAD;
  ri_ids : ∃ a : nat, appID d = Z.of_nat a ∧ omap stage_id ts ≡ₚ Z.of_nat <$> seq 0 a;
  ri_crash : Forall (λ t, ∀ e, t ≠ RCrash e) ts;
  ri_done : Forall (λ t, ∀ tl, t = RDone tl → registered tl) ts }.

(** The ids that are given out are below the number of threads. *)
Lemma id_range n ts d (i : nat) t id :
  reg_inv n ts d → ts !! i = Some t → stage_id t = Some id → 0 <= id < Z.of_nat n.
Proof.
  intros [<- _ (a & _ & Hp) _ _] Hi Ht. pose proof (omap_len stage_id ts) as Hl. rewrite Hp, length_fmap, length_seq in Hl.
  assert (id ∈ Z.of_nat <$> seq 0 a) as (j & -> & Hj%elem_of_seq)%list_elem_of_fmap; [|lia].
  rewrite <- Hp. apply list_elem_of_omap. exists t. split; [by eapply list_elem_of_lookup_2|done].
Qed.

(** No two threads have the same id. *)
Lemma ids_distinct n ts d (i j : nat) t u id :
  reg_inv n ts d → ts !! i = Some t → ts !! j = Some u → stage_id t = Some id → stage_id u = Some id → i = j.
Proof.
  intros [_ _ (a & _ & Hp) _ _] Hi Hj Ht Hu.
  assert (Hnd : NoDup (omap stage_id ts)) by (rewrite Hp; apply NoDup_fmap_2; [intros ?? ?; lia|apply NoDup_seq]).
  clear Hp. revert i j Hi Hj. induction ts as [|v ts IH]; intros [|i] [|j] Hi Hj; cbn in *; simplify_eq; [done| | |].
  - exfalso. rewrite Ht in Hnd. apply NoDup_cons in Hnd as [H _]. apply H, list_elem_of_omap. exists u. split; [by eapply list_elem_of_lookup_2|done].
  - exfalso. rewrite Hu in Hnd. apply NoDup_cons in Hnd as [H _]. apply H, list_elem_of_omap. exists t. split; [by eapply list_elem_of_lookup_2|done].
  - f_equal. apply IH; [|done..]. destruct (stage_id v); [|done]. by apply NoDup_cons in Hnd as [_ ?].
Qed.

Lemma omap_insert_same {B} (f : stage → option B) (ts : list stage) (i : nat) t t' :
  ts !! i = Some t → f t' = f t → omap f (<[i := t']> ts) = omap f ts.
Proof.
  revert i. induction ts as [|v ts IH]; intros [|i] Hi Ef; cbn in *; simplify_eq; [by rewrite Ef|].
  change (list_insert i t' ts) with (<[i := t']> ts). by rewrite IH.
Qed.

Lemma reg_step n ts d (i : nat) t d' t' :
  (n <= Z.to_nat MAX_APP_THREAD)%nat → reg_inv n ts d → ts !! i = Some t → stage_trans t d = Some (d', t') →
  reg_inv n (<[i := t']> ts) d' ∧ (stage_rank t' < stage_rank t)%nat.
Proof.
  intros Hn HI Hi Ht. pose proof HI as [Hl Hm (a & Ha & Hp) Hc Hd]. destruct t as [|id|id|tl|e]; cbn [stage_trans] in Ht; try done.
  - injection Ht as <- <-. split; [|cbn; lia]. split; cbn; [by rewrite length_insert|done| | |]; [|by apply Forall_insert..].
    exists (S a). split; [lia|]. apply list_elem_of_split_length in Hi as (l1 & l2 & -> & ->).
    rewrite insert_app_r_alt, Nat.sub_diag by done. cbn [insert list_insert].
    rewrite omap_snoc_middle in Hp |- *. cbn in Hp. rewrite seq_S, fmap_app, <- Hp, Ha. cbn. solve_Permutation.
  - pose proof (id_range _ _ _ _ _ _ HI Hi eq_refl) as Hid.
    destruct (lookup_lt_is_Some_2 (messages d) (Z.to_nat id)) as [c Ec]; [lia|].
    unfold init_messages in Ht. rewrite run_atomic_res, (proj2 (idx_Ok (messages d) id c)) in Ht by (split; [lia|done]). cbn in Ht.
    injection Ht as <- <-. split; [|cbn; lia]. split; cbn; rewrite ?length_insert; try done; [|by apply Forall_insert..].
    exists a. split; [done|]. by rewrite (omap_insert_same _ _ _ (RGot id)).
  - unfold init_buffers in Ht. rewrite run_atomic_res in Ht. cbn in Ht.
    destruct (set_buffers_ok (Z.to_nat MAX_CORO_NUM) (cache_data + id * kPerThreadRdmaBuf)) as (bs & zs & E & Hlb & Hbs).
    rewrite E in Ht. cbn in Ht. injection Ht as <- <-. split; [|cbn; lia].
    split; cbn; rewrite ?length_insert; try done; [|by apply Forall_insert|].
    + exists a. split; [done|]. by rewrite (omap_insert_same _ _ _ (RConnected id)).
    + apply Forall_insert; [done|]. by intros tl [= <-].
Qed.
End stages.

Lemma tag_value my_node id : 0 <= my_node < 2 ^ 16 → 0 <= id < MAX_APP_THREAD → tag_of my_node id = id + my_node * 2 ^ 32 + 1.
Proof.
  change MAX_APP_THREAD with 65. change (2 ^ 16) with 65536. intros Hn Hi. unfold tag_of.
  rewrite Z.shiftl_mul_pow2 by lia. change (2 ^ 32) with 4294967296.
  unfold wrap. change (2 ^ 64) with 18446744073709551616. 
  rewrite (Z.mod_small (my_node * _)), Z.mod_small by lia. done.
Qed.

(** The stages of a pool that has run. *)
Lemma register_stages my_node cache n k d ps d' :
  (n <= Z.to_nat MAX_APP_THREAD)%nat → appID d = 0 → length (messages d) = Z.to_nat MAX_APP_THREAD →
  nsteps pool_step k (replicate n (registerThread my_node cache thread_new), d) (ps, d') →
  ∃ ts, ps = stage_code my_node cache <$> ts ∧ reg_inv my_node cache n ts d' ∧ (k <= 3 * n)%nat.
Proof.
  intros Hn Ha Hm Hrun.
  assert (E : replicate n (registerThread my_node cache thread_new) = stage_code my_node cache <$> replicate n RFresh)
    by (by rewrite fmap_replicate).
  assert (HI : reg_inv my_node cache n (replicate n RFresh) d).
  { split; [apply length_replicate|done| |by apply Forall_replicate..]. exists 0%nat. split; [lia|].
    clear. by induction n. }
  assert (Hr : ranks stage_rank (replicate n RFresh) = (3 * n)%nat).
  { clear. unfold ranks. induction n as [|n IH]; cbn in *; lia. }
  rewrite E in Hrun.
  destruct (staged_runs _ _ _ (reg_inv my_node cache n) _ _ _ _ _ (register_staged my_node cache)
    (λ ts s i t s' t', reg_step my_node cache n ts s i t s' t' Hn) HI Hrun) as (ts & -> & HI' & _ & Hk).
  exists ts. split_and!; [done..|]. lia.
Qed.

(** C29. Threads that register at the same time, at most as many as there are
    connections, all get through in every interleaving, in three steps each. They
    have different ids, the connection and the tag of their id, and the
    buffers of all their coroutines are laid out in regions of the cache of
    which no two overlap. *)
Theorem register_threads (my_node cache : Z) (n k : nat) (d d' : dsm) (ps : list (proc dsm thread_locals))
    (Hn : (n <= Z.to_nat MAX_APP_THREAD)%nat) (Hnode : 0 <= my_node < 2 ^ 16)
    (Ha : appID d = 0) (Hm : length (messages d) = Z.to_nat MAX_APP_THREAD)
    (Hrun : nsteps pool_step k (replicate n (registerThread my_node cache thread_new), d) (ps, d')) :
  (k <= 3 * n)%nat ∧ ((∀ p, p ∈ ps → ∃ tl, p = Return tl) ∨ ∃ c, pool_step (ps, d') c) ∧
  ∀ (i : nat) tl, ps !! i = Some (Return tl) →
    0 <= thread_id tl < Z.of_nat n ∧ icon tl = Some (thread_id tl) ∧
    thread_tag tl = thread_id tl + my_node * 2 ^ 32 + 1 ∧ length (rbuf tl) = Z.to_nat MAX_CORO_NUM ∧
    (∀ (j : nat) tl', ps !! j = Some (Return tl') → i ≠ j → thread_id tl ≠ thread_id tl') ∧
    ∀ (c : nat) b, rbuf tl !! c = Some b →
      buffer_ok b ∧ cache <= buffer b ∧ buffer b + kPerCoroRdmaBuf <= cache + rdmaBufferSize * GB ∧
      ∀ (j c' : nat) tl' b', ps !! j = Some (Return tl') → rbuf tl' !! c' = Some b' → (i, c) ≠ (j, c') →
        disjoint (buffer b) kPerCoroRdmaBuf (buffer b') kPerCoroRdmaBuf.
Proof.
  destruct (register_stages _ _ _ _ _ _ _ Hn Ha Hm Hrun) as (ts & -> & HI & Hk). split; [done|].
  pose proof HI as [Hl _ _ Hc Hd].
  assert (Hdone : ∀ (i : nat) tl, (stage_code my_node cache <$> ts) !! i = Some (Return tl) → ts !! i = Some (RDone tl)).
  { intros i tl (t & Et & Hi)%list_lookup_fmap_Some. destruct t; try done. cbn in Et. by simplify_eq. }
  split.
  - destruct (decide (Exists (λ t, stage_rank t ≠ 0%nat) ts)) as [(t & (i & Hi)%list_elem_of_lookup & Hr)%Exists_exists|Hno].
    + right. eapply staged_can_step; [apply register_staged|exact Hi|]. destruct t; try done; cbn [stage_trans]; repeat case_match; eauto.
    + left. intros p (t & -> & (i & Hi)%list_elem_of_lookup)%list_elem_of_fmap.
      assert (Ht : stage_rank t = 0%nat).
      { apply dec_stable. intros Hr. apply Hno, Exists_exists. exists t. split; [by eapply list_elem_of_lookup_2|done]. }
      destruct t as [| | |tl|e]; try done; [by exists tl|]. by destruct (Forall_lookup_1 _ _ _ _ Hc Hi e).
  - intros i tl Hi%Hdone. pose proof (Forall_lookup_1 _ _ _ _ Hd Hi tl eq_refl) as [Htag Hicon Hbase Hlen Hbufs].
    pose proof (id_range _ _ _ _ _ _ _ _ HI Hi eq_refl) as Hid. cbn in Hid.
    split_and!; [lia|lia|done|rewrite Htag; apply tag_value; lia|done| |].
    + intros j tl' Hj%Hdone Hne Eid. apply Hne. by eapply (ids_distinct _ _ _ _ _ i j); [exact HI|exact Hi|exact Hj|cbn; by rewrite Eid|done].
    + intros c b Hb. destruct (Hbufs c b Hb) as [Hok Eb]. pose proof (lookup_lt_Some _ _ _ Hb) as Hcl.
      rewrite Hbase in Eb.
      assert (Hi' : 0 <= thread_id tl < MAX_APP_THREAD) by lia. assert (Hc' : 0 <= Z.of_nat c < MAX_CORO_NUM) by lia.
      destruct (regions cache _ _ _ _ Hi' Hi' Hc' Hc') as (H1 & H2 & _). rewrite Eb. split_and!; [done..|].
      intros j c' tl' b' Hj%Hdone Hb' Hne. pose proof (Forall_lookup_1 _ _ _ _ Hd Hj tl' eq_refl) as [_ _ Hbase' Hlen' Hbufs'].
      pose proof (id_range _ _ _ _ _ _ _ _ HI Hj eq_refl) as Hid'. cbn in Hid'.
      destruct (Hbufs' c' b' Hb') as [_ ->]. rewrite Hbase'. pose proof (lookup_lt_Some _ _ _ Hb').
      apply (regions cache (thread_id tl) (thread_id tl') (Z.of_nat c) (Z.of_nat c')); [lia..|].
      intros [= Eid Ec]. apply Hne. f_equal; [|lia].
      eapply (ids_distinct _ _ _ _ _ i j); [exact HI|exact Hi|exact Hj|cbn; by rewrite Eid|done].
Qed.

(** Two threads of node 1 register, their steps mixed. *)
Definition ex_dsm : dsm :=
  Dsm 0 (replicate (Z.to_nat MAX_APP_THREAD) (MC APP_MESSAGE_NR 0 0 0 0 40 0 0 7 0 [])) (replicate (Z.to_nat MAX_APP_THREAD) []) [].
Definition ex_order : list nat := [1; 0; 0; 1; 1; 0]%nat.
Definition ex_pool : list (proc dsm thread_locals) := replicate 2 (registerThread 1 4096 thread_new).

Lemma register_threads_witness :
  (2 <= Z.to_nat MAX_APP_THREAD)%nat ∧ 0 <= 1 < 2 ^ 16 ∧ appID ex_dsm = 0 ∧
  length (messages ex_dsm) = Z.to_nat MAX_APP_THREAD ∧
  ∃ ps d' tl, nsteps pool_step 6 (ex_pool, ex_dsm) (ps, d') ∧ ps !! 0%nat = Some (Return tl) ∧ thread_tag tl = 4294967298 ∧
    ∀ (c : nat) b, rbuf tl !! c = Some b → buffer_ok b.
Proof.
  assert (H1 : (2 <= Z.to_nat MAX_APP_THREAD)%nat) by (vm_compute; lia).
  assert (H2 : 0 <= 1 < 2 ^ 16) by lia.
  assert (H3 : appID ex_dsm = 0) by reflexivity.
  assert (H4 : length (messages ex_dsm) = Z.to_nat MAX_APP_THREAD) by reflexivity.
  assert (Hr : thread_tag <$> returned 0 (schedule ex_order ex_pool ex_dsm) = Some 4294967298) by (vm_compute; reflexivity).
  destruct (returned 0 (schedule ex_order ex_pool ex_dsm)) as [tl|] eqn:E; [|discriminate].
  apply returned_Some in E as (ps & d' & Hs & Hps). split_and!; [done..|].
  exists ps, d', tl. split_and!; [done|done|by injection Hr|]. intros c b Hb.
  destruct (register_threads 1 4096 2 6 ex_dsm d' ps H1 H2 H3 H4 Hs) as (_ & _ & H).
  destruct (H _ _ Hps) as (_ & _ & _ & _ & _ & Hbuf). by destruct (Hbuf c b Hb).
Defined.

(** The keys of different threads come from different parts of the key space,
    when there are as many keys as threads; with fewer, a remainder by zero. *)
Lemma getNoComflictKey_part keys size hash id num :
  0 < num <= size → size < 2 ^ 64 → size <= Z.of_nat (length keys) → 0 <= id < num → 0 <= hash →
  ∃ (i : nat) x, getNoComflictKey keys size hash id num = Ok x ∧ keys !! i = Some x ∧
    size / num * id <= Z.of_nat i < size / num * (id + 1).
Proof.
  intros Hn Hs Hl Hid Hh. unfold getNoComflictKey. assert (1 <= size / num) as Hp by (apply Z.div_le_lower_bound; lia).
  pose proof (Z.mul_div_le size num). pose proof (Z.mod_pos_bound hash (size / num)).
  rewrite !(proj2 (Z.eqb_neq _ 0)) by lia. cbn [negb defined mbind res_bind]. cbv zeta.
  unfold wrap. rewrite (Z.mod_small (size / num * id)), Z.mod_small by nia.
  destruct (lookup_lt_is_Some_2 keys (Z.to_nat (size / num * id + hash `mod` (size / num)))) as [x Hx]; [nia|].
  exists (Z.to_nat (size / num * id + hash `mod` (size / num))), x. split_and!; [|done|nia|nia].
  apply idx_Ok. split; [nia|done].
Qed.

Lemma getNoComflictKey_few_keys keys size hash id num :
  0 <= size < num → getNoComflictKey keys size hash id num = Fail EUndef.
Proof.
  intros H. unfold getNoComflictKey. rewrite (proj2 (Z.eqb_neq num 0)) by lia. cbn [negb defined mbind res_bind]. cbv zeta.
  by rewrite Z.div_small by lia.
Qed.
