(* ===== verification/QueuePair.v ===== *)
(** * Queue pairs (src/rdma/StateTrans.cpp, src/rdma/Resource.cpp)

    A queue pair is created in the state RESET and brought to RTS by
    [ibv_modify_qp], which takes attributes and a mask that says which of them
    count. The library is the class [Ibv]: for each transition the man page
    names the attributes that must be in the mask, and a call that follows it
    sets them. *)

From Stdlib Require Import ZArith Lia Bool.
From stdpp Require Import base tactics decidable option numbers list.
From S2P Require Import Prelude.

Inductive qp_type : Set := IBV_QPT_RC | IBV_QPT_UC | IBV_QPT_UD | IBV_EXP_QPT_DC_INI.
Inductive qp_state : Set := IBV_QPS_RESET | IBV_QPS_INIT | IBV_QPS_RTR | IBV_QPS_RTS.
Inductive access_flag : Set := IBV_ACCESS_LOCAL_WRITE | IBV_ACCESS_REMOTE_READ | IBV_ACCESS_REMOTE_WRITE | IBV_ACCESS_REMOTE_ATOMIC.

Inductive ibv_mtu : Set := IBV_MTU_4096.

(** The bits of the mask. *)
Inductive attr_flag : Set :=
  | IBV_QP_STATE | IBV_QP_PKEY_INDEX | IBV_QP_PORT | IBV_QP_ACCESS_FLAGS | IBV_QP_QKEY
  | IBV_QP_AV | IBV_QP_PATH_MTU | IBV_QP_DEST_QPN | IBV_QP_RQ_PSN
  | IBV_QP_MAX_DEST_RD_ATOMIC | IBV_QP_MIN_RNR_TIMER
  | IBV_QP_SQ_PSN | IBV_QP_TIMEOUT | IBV_QP_RETRY_CNT | IBV_QP_RNR_RETRY | IBV_QP_MAX_QP_RD_ATOMIC.

#[export] Instance qp_type_eq_dec : EqDecision qp_type.
Proof. solve_decision. Defined.
#[export] Instance qp_state_eq_dec : EqDecision qp_state.
Proof. solve_decision. Defined.
#[export] Instance attr_flag_eq_dec : EqDecision attr_flag.
Proof. solve_decision. Defined.

(** [RdmaContext] *)
Record RdmaContext : Set := Ctx { port : Z; gidIndex : Z; ctx_lid : Z; ctx_gid : list byte }.

(** [ibv_ah_attr] with its global route header. *)
Record ibv_ah_attr : Set := Ah {
  dlid : Z; sl : Z; src_path_bits : Z; ah_port_num : Z; is_global : Z;
  dgid : list byte; flow_label : Z; hop_limit : Z; sgid_index : Z; traffic_class : Z
}.
Definition ah_zero : ibv_ah_attr := Ah 0 0 0 0 0 (replicate 16 0) 0 0 0 0.

Definition fillAhAttr (remoteLid : Z) (remoteGid : list byte) (context : RdmaContext) : ibv_ah_attr :=
  Ah remoteLid 0 0 (port context) 1 remoteGid 0 1 (gidIndex context) 0.

(** [ibv_qp_attr]: the fields that are set; the rest is zero. *)
Record ibv_qp_attr : Set := Attr {
  a_state : qp_state; a_port_num : Z; a_pkey_index : Z; a_access_flags : list access_flag; a_qkey : Z;
  a_ah : ibv_ah_attr; a_path_mtu : option ibv_mtu; a_dest_qp_num : Z; a_rq_psn : Z; a_max_dest_rd_atomic : Z; a_min_rnr_timer : Z;
  a_sq_psn : Z; a_timeout : Z; a_retry_cnt : Z; a_rnr_retry : Z; a_max_rd_atomic : Z
}.

Definition attr_zero (s : qp_state) : ibv_qp_attr := Attr s 0 0 [] 0 ah_zero None 0 0 0 0 0 0 0 0 0.

(** A queue pair and its attributes. *)
Record ibv_qp : Set := Qp { qp_num : Z; qp_kind : qp_type; qp_attr : ibv_qp_attr }.
Definition qp_at (q : ibv_qp) : qp_state := a_state (qp_attr q).

(** What the man page of ibv_modify_qp requires for a transition. *)
Definition required (t : qp_type) (from to : qp_state) : option (list attr_flag) :=
  match t, from, to with
  | IBV_QPT_RC, IBV_QPS_RESET, IBV_QPS_INIT => Some [IBV_QP_STATE; IBV_QP_PKEY_INDEX; IBV_QP_PORT; IBV_QP_ACCESS_FLAGS]
  | IBV_QPT_RC, IBV_QPS_INIT, IBV_QPS_RTR =>
    Some [IBV_QP_STATE; IBV_QP_AV; IBV_QP_PATH_MTU; IBV_QP_DEST_QPN; IBV_QP_RQ_PSN; IBV_QP_MAX_DEST_RD_ATOMIC; IBV_QP_MIN_RNR_TIMER]
  | IBV_QPT_RC, IBV_QPS_RTR, IBV_QPS_RTS =>
    Some [IBV_QP_STATE; IBV_QP_SQ_PSN; IBV_QP_TIMEOUT; IBV_QP_RETRY_CNT; IBV_QP_RNR_RETRY; IBV_QP_MAX_QP_RD_ATOMIC]
  | IBV_QPT_UC, IBV_QPS_RESET, IBV_QPS_INIT => Some [IBV_QP_STATE; IBV_QP_PKEY_INDEX; IBV_QP_PORT; IBV_QP_ACCESS_FLAGS]
  | IBV_QPT_UC, IBV_QPS_INIT, IBV_QPS_RTR => Some [IBV_QP_STATE; IBV_QP_AV; IBV_QP_PATH_MTU; IBV_QP_DEST_QPN; IBV_QP_RQ_PSN]
  | IBV_QPT_UC, IBV_QPS_RTR, IBV_QPS_RTS => Some [IBV_QP_STATE; IBV_QP_SQ_PSN]
  | IBV_QPT_UD, IBV_QPS_RESET, IBV_QPS_INIT => Some [IBV_QP_STATE; IBV_QP_PKEY_INDEX; IBV_QP_PORT; IBV_QP_QKEY]
  | IBV_QPT_UD, IBV_QPS_INIT, IBV_QPS_RTR => Some [IBV_QP_STATE]
  | IBV_QPT_UD, IBV_QPS_RTR, IBV_QPS_RTS => Some [IBV_QP_STATE; IBV_QP_SQ_PSN]
  | _, _, _ => None
  end.

(** The attributes of the mask are set, the others kept. *)
Definition attr_set (m : list attr_flag) (a o : ibv_qp_attr) : ibv_qp_attr :=
  let pick {A} (f : attr_flag) (get : ibv_qp_attr → A) : A := if decide (f ∈ m) then get a else get o in
  Attr (pick IBV_QP_STATE a_state) (pick IBV_QP_PORT a_port_num) (pick IBV_QP_PKEY_INDEX a_pkey_index)
       (pick IBV_QP_ACCESS_FLAGS a_access_flags) (pick IBV_QP_QKEY a_qkey) (pick IBV_QP_AV a_ah)
       (pick IBV_QP_PATH_MTU a_path_mtu) (pick IBV_QP_DEST_QPN a_dest_qp_num) (pick IBV_QP_RQ_PSN a_rq_psn)
       (pick IBV_QP_MAX_DEST_RD_ATOMIC a_max_dest_rd_atomic) (pick IBV_QP_MIN_RNR_TIMER a_min_rnr_timer)
       (pick IBV_QP_SQ_PSN a_sq_psn) (pick IBV_QP_TIMEOUT a_timeout) (pick IBV_QP_RETRY_CNT a_retry_cnt)
       (pick IBV_QP_RNR_RETRY a_rnr_retry) (pick IBV_QP_MAX_QP_RD_ATOMIC a_max_rd_atomic).

(** libibverbs: [None] is a non-zero result, which leaves the queue pair as it
    was. A mask without an attribute that is required is refused. *)
Class Ibv := {
  ibv_modify_qp : ibv_qp → ibv_qp_attr → list attr_flag → option ibv_qp;
  ibv_modify_qp_ok q a m req :
    required (qp_kind q) (qp_at q) (a_state a) = Some req → (∀ f, f ∈ m ↔ f ∈ req) →
    ibv_modify_qp q a m = Some (Qp (qp_num q) (qp_kind q) (attr_set m a (qp_attr q)));
  ibv_modify_qp_missing q a m req f :
    required (qp_kind q) (qp_at q) (a_state a) = Some req → f ∈ req → f ∉ m → ibv_modify_qp q a m = None;
  ibv_ah : Set;
  ibv_create_ah : RdmaContext → ibv_ah_attr → option ibv_ah;
  ibv_create_ah_ok ctx a : ah_port_num a = port ctx → is_Some (ibv_create_ah ctx a)
}.

(** A library that does no more than the laws say. *)
#[refine] Instance ibv_model : Ibv := {|
  ibv_modify_qp q a m :=
    match required (qp_kind q) (qp_at q) (a_state a) with
    | Some req => if decide (Forall (λ f, f ∈ req) m ∧ Forall (λ f, f ∈ m) req)
                  then Some (Qp (qp_num q) (qp_kind q) (attr_set m a (qp_attr q))) else None
    | None => None
    end;
  ibv_ah := ibv_ah_attr;
  ibv_create_ah ctx a := if ah_port_num a =? port ctx then Some a else None
|}.
Proof.
  - intros q a m req -> Hm. rewrite decide_True; [done|]. rewrite !Forall_forall. naive_solver.
  - intros q a m req f -> Hf Hm. rewrite decide_False; [done|]. rewrite !Forall_forall. naive_solver.
  - intros ctx a ->. rewrite Z.eqb_refl. by eexists.
Defined.

(** ** StateTrans.cpp

    Each function gives whether it succeeded, and the queue pair. The attributes
    start from a cleared structure. *)
Definition PSN : Z := 3185.
Definition UD_PKEY : Z := 0x11111111.

Section transitions.
Context `{Ibv}.

Definition modify (q : ibv_qp) (a : ibv_qp_attr) (m : list attr_flag) : bool * ibv_qp :=
  match ibv_modify_qp q a m with Some q' => (true, q') | None => (false, q) end.

#[local] Arguments modify : simpl never.

Definition init_attr (q : ibv_qp) (context : RdmaContext) : ibv_qp_attr :=
  Attr IBV_QPS_INIT (port context) 0
       (match qp_kind q with
        | IBV_QPT_RC => [IBV_ACCESS_REMOTE_READ; IBV_ACCESS_REMOTE_WRITE; IBV_ACCESS_REMOTE_ATOMIC]
        | IBV_QPT_UC => [IBV_ACCESS_REMOTE_WRITE]
        | _ => []
        end)
       0 ah_zero None 0 0 0 0 0 0 0 0 0.

Definition modifyQPtoInit (q : ibv_qp) (context : RdmaContext) : bool * ibv_qp :=
  modify q (init_attr q context) [IBV_QP_STATE; IBV_QP_PKEY_INDEX; IBV_QP_PORT; IBV_QP_ACCESS_FLAGS].

Definition is_rc (q : ibv_qp) : bool := bool_decide (qp_kind q = IBV_QPT_RC).

Definition modifyQPtoRTR (q : ibv_qp) (remoteQPN remoteLid : Z) (remoteGid : list byte) (context : RdmaContext) :
    bool * ibv_qp :=
  let '(max_dest_rd_atomic, min_rnr_timer) := if is_rc q then (16, 12) else (0, 0) in
  modify q (Attr IBV_QPS_RTR 0 0 [] 0 (fillAhAttr remoteLid remoteGid context) (Some IBV_MTU_4096) remoteQPN PSN
                 max_dest_rd_atomic min_rnr_timer 0 0 0 0 0)
         ([IBV_QP_STATE; IBV_QP_AV; IBV_QP_PATH_MTU; IBV_QP_DEST_QPN; IBV_QP_RQ_PSN]
          ++ if is_rc q then [IBV_QP_MAX_DEST_RD_ATOMIC; IBV_QP_MIN_RNR_TIMER] else []).

Definition modifyQPtoRTS (q : ibv_qp) : bool * ibv_qp :=
  let '(timeout, retry_cnt, rnr_retry, max_rd_atomic) := if is_rc q then (14, 7, 7, 16) else (0, 0, 0, 0) in
  modify q (Attr IBV_QPS_RTS 0 0 [] 0 ah_zero None 0 0 0 0 PSN timeout retry_cnt rnr_retry max_rd_atomic)
         ([IBV_QP_STATE; IBV_QP_SQ_PSN]
          ++ if is_rc q then [IBV_QP_TIMEOUT; IBV_QP_RETRY_CNT; IBV_QP_RNR_RETRY; IBV_QP_MAX_QP_RD_ATOMIC] else []).

(** [modifyUDtoRTS] returns at the first call that fails. *)
Definition modifyUDtoRTS (q : ibv_qp) (context : RdmaContext) : bool * ibv_qp :=
  let ud : bool := bool_decide (qp_kind q = IBV_QPT_UD) in
  let '(ok, q) := modify q (Attr IBV_QPS_INIT (port context) 0 [] UD_PKEY ah_zero None 0 0 0 0 0 0 0 0 0)
                         (if ud then [IBV_QP_STATE; IBV_QP_PKEY_INDEX; IBV_QP_PORT; IBV_QP_QKEY] else [IBV_QP_STATE; IBV_QP_PORT]) in
  if negb ok then (false, q) else
  let '(ok, q) := modify q (attr_zero IBV_QPS_RTR) [IBV_QP_STATE] in
  if negb ok then (false, q) else
  modify q (Attr IBV_QPS_RTS 0 0 [] 0 ah_zero None 0 0 0 0 PSN 0 0 0 0)
         (if ud then [IBV_QP_STATE; IBV_QP_SQ_PSN] else [IBV_QP_STATE]).

(** ** What the functions achieve *)

(** A queue pair that can talk to [remoteQPN]. *)
Record connected (q : ibv_qp) (remoteQPN remoteLid : Z) (remoteGid : list byte) : Prop := {
  cn_state : qp_at q = IBV_QPS_RTS;
  cn_dest : a_dest_qp_num (qp_attr q) = remoteQPN;
  cn_lid : dlid (a_ah (qp_attr q)) = remoteLid;
  cn_gid : dgid (a_ah (qp_attr q)) = remoteGid;
  cn_psn : a_rq_psn (qp_attr q) = PSN ∧ a_sq_psn (qp_attr q) = PSN;
  cn_access : ∀ f, f ∈ [IBV_ACCESS_REMOTE_READ; IBV_ACCESS_REMOTE_WRITE; IBV_ACCESS_REMOTE_ATOMIC] → f ∈ a_access_flags (qp_attr q)
}.

Definition connect_qp (q : ibv_qp) (remoteQPN remoteLid : Z) (remoteGid : list byte) (context : RdmaContext) : ibv_qp :=
  (modifyQPtoRTS (modifyQPtoRTR (modifyQPtoInit q context).2 remoteQPN remoteLid remoteGid context).2).2.

Lemma modify_ok q a m : required (qp_kind q) (qp_at q) (a_state a) = Some m →
  modify q a m = (true, Qp (qp_num q) (qp_kind q) (attr_set m a (qp_attr q))).
Proof. intros E. unfold modify. by rewrite (ibv_modify_qp_ok q a m m E). Qed.

Lemma connect_qp_connected q remoteQPN remoteLid remoteGid context :
  qp_kind q = IBV_QPT_RC → qp_at q = IBV_QPS_RESET →
  let q' := connect_qp q remoteQPN remoteLid remoteGid context in
  qp_num q' = qp_num q ∧ qp_kind q' = IBV_QPT_RC ∧ connected q' remoteQPN remoteLid remoteGid.
Proof.
  destruct q as [num k a]. cbn. intros -> Hs. unfold connect_qp.
  unfold modifyQPtoInit. rewrite modify_ok by (cbn; by rewrite Hs). cbn [snd].
  unfold modifyQPtoRTR. replace (is_rc _) with true by done. rewrite modify_ok by done.
  unfold modifyQPtoRTS. replace (is_rc _) with true by done. rewrite modify_ok by done. by split_and!.
Qed.

Lemma modifyUDtoRTS_ok q context :
  qp_kind q = IBV_QPT_UD → qp_at q = IBV_QPS_RESET →
  ∃ q', modifyUDtoRTS q context = (true, q') ∧ qp_num q' = qp_num q ∧ qp_at q' = IBV_QPS_RTS ∧
    a_qkey (qp_attr q') = UD_PKEY ∧ a_sq_psn (qp_attr q') = PSN.
Proof.
  destruct q as [num k a]. cbn. intros -> Hs. unfold modifyUDtoRTS. replace (bool_decide _) with true by done.
  rewrite modify_ok by (cbn; by rewrite Hs). rewrite modify_ok by done. cbn [negb].
  rewrite modify_ok by done. eexists. by split_and!.
Qed.
End transitions.
