(* ===== verification/Exchange.v ===== *)
(** * What the servers exchange (include/DSMKeeper.h, include/Connection.h,
    src/DSMKeeper.cpp)

    A server describes itself in an [ExchangeMeta], whose bytes go through
    memcached; from the one it receives it connects its queue pairs and fills
    its [RemoteConnection] of the sender. *)

From Stdlib Require Import ZArith Lia Bool.
From stdpp Require Import base tactics decidable option numbers list.
From S2P Require Import Prelude.
From S2P Require Import Common.
From S2P Require Import QueuePair.

(** ** The structures *)
Record ExPerThread : Set := EPT { lid : Z; gid : list byte; rKey : Z; lock_rkey : Z }.

Record ExchangeMeta : Set := EM {
  m_dsmBase : Z; m_cacheBase : Z; m_lockBase : Z;
  appTh : list ExPerThread;
  dirTh : list ExPerThread;
  appUdQpn : list Z;
  dirUdQpn : list Z;
  appRcQpn2dir : list (list Z);
  dirRcQpn2app : list (list Z)
}.

Definition n_app : nat := Z.to_nat MAX_APP_THREAD.
Definition n_dir : nat := Z.to_nat NR_DIRECTORY.

(** ** Their bytes: both are packed *)
Definition per_thread_bytes (e : ExPerThread) : list byte :=
  le_bytes 2 (lid e) ++ gid e ++ le_bytes 4 (rKey e) ++ le_bytes 4 (lock_rkey e).

Definition row_bytes (l : list Z) : list byte := mjoin (le_bytes 4 <$> l).

Definition meta_bytes (m : ExchangeMeta) : list byte :=
  le_bytes 8 (m_dsmBase m) ++ le_bytes 8 (m_cacheBase m) ++ le_bytes 8 (m_lockBase m) ++
  mjoin (per_thread_bytes <$> appTh m) ++ mjoin (per_thread_bytes <$> dirTh m) ++
  row_bytes (appUdQpn m) ++ row_bytes (dirUdQpn m) ++
  mjoin (row_bytes <$> appRcQpn2dir m) ++ mjoin (row_bytes <$> dirRcQpn2app m).

(** Reading a structure from memory takes its bytes from the front; there must
    be enough of them. *)
Definition reader (A : Type) : Type := M (list byte) A.
Definition read_bytes (n : nat) : reader (list byte) := λ bs,
  defined (Z.of_nat n <=? Z.of_nat (length bs)) ;; Ok (take n bs, drop n bs).
Definition read_int (n : nat) : reader Z := le_int <$> read_bytes n.

Fixpoint read_array {A} (n : nat) (r : reader A) : reader (list A) :=
  match n with
  | O => mret []
  | S n => x ← r; l ← read_array n r; mret (x :: l)
  end.

Definition read_per_thread : reader ExPerThread :=
  l ← read_int 2; g ← read_bytes 16; k ← read_int 4; o ← read_int 4; mret (EPT l g k o).

Definition read_meta : reader ExchangeMeta :=
  d ← read_int 8; c ← read_int 8; o ← read_int 8;
  at_ ← read_array n_app read_per_thread; dt ← read_array n_dir read_per_thread;
  au ← read_array n_app (read_int 4); du ← read_array n_dir (read_int 4);
  ar ← read_array n_app (read_array n_dir (read_int 4));
  dr ← read_array n_dir (read_array n_app (read_int 4));
  mret (EM d c o at_ dt au du ar dr).

(** The members of the structures fit their types. *)
Definition per_thread_ok (e : ExPerThread) : Prop :=
  uint 16 (lid e) ∧ length (gid e) = 16%nat ∧ uint 32 (rKey e) ∧ uint 32 (lock_rkey e).
Definition row_ok (n : nat) (l : list Z) : Prop := length l = n ∧ Forall (uint 32) l.
Definition meta_ok (m : ExchangeMeta) : Prop :=
  (uint 64 (m_dsmBase m) ∧ uint 64 (m_cacheBase m) ∧ uint 64 (m_lockBase m)) ∧
  (length (appTh m) = n_app ∧ Forall per_thread_ok (appTh m)) ∧
  (length (dirTh m) = n_dir ∧ Forall per_thread_ok (dirTh m)) ∧
  row_ok n_app (appUdQpn m) ∧ row_ok n_dir (dirUdQpn m) ∧
  (length (appRcQpn2dir m) = n_app ∧ Forall (row_ok n_dir) (appRcQpn2dir m)) ∧
  (length (dirRcQpn2app m) = n_dir ∧ Forall (row_ok n_app) (dirRcQpn2app m)).

(** ** The layout is a bijection

    [reads r bs x]: the reader takes [bs] from the front and gives [x]. *)
Definition reads {A} (r : reader A) (bs : list byte) (x : A) : Prop := ∀ rest, r (bs ++ rest) = Ok (x, rest).

Lemma reads_bind {A B} (r : reader A) (f : A → reader B) bs bs' x y :
  reads r bs x → reads (f x) bs' y → reads (r ≫= f) (bs ++ bs') y.
Proof. intros H1 H2 rest. unfold mbind, M_bind. by rewrite <- app_assoc, H1, H2. Qed.

Lemma reads_ret {A} (x : A) : reads (mret x) [] x.
Proof. by intros rest. Qed.

Lemma reads_bytes n bs : length bs = n → reads (read_bytes n) bs bs.
Proof.
  intros <- rest. unfold read_bytes. rewrite length_app, (proj2 (Z.leb_le _ _)) by lia.
  cbn. by rewrite take_app_length, drop_app_length.
Qed.

Lemma reads_int n z : uint (8 * Z.of_nat n) z → reads (read_int n) (le_bytes n z) z.
Proof.
  intros Hz rest. unfold read_int, fmap, M_fmap. rewrite reads_bytes by apply length_le_bytes.
  rewrite le_int_bytes, Z.mod_small; [done|]. by rewrite Z.mul_comm.
Qed.

Lemma reads_array {A} (r : reader A) (f : A → list byte) n l :
  length l = n → Forall (λ x, reads r (f x) x) l → reads (read_array n r) (mjoin (f <$> l)) l.
Proof.
  intros <- Hl. induction Hl as [|x l Hx Hl IH]; cbn; [apply reads_ret|].
  apply (reads_bind _ _ _ _ _ _ Hx). rewrite <- (app_nil_r (mjoin _)).
  apply (reads_bind _ _ _ _ _ _ IH). apply reads_ret.
Qed.

Lemma reads_per_thread e : per_thread_ok e → reads read_per_thread (per_thread_bytes e) e.
Proof.
  destruct e as [l g k o]. intros (Hl & Hg & Hk & Ho). cbn in *. unfold read_per_thread, per_thread_bytes. cbn.
  apply (reads_bind _ _ _ _ _ _ (reads_int 2 l Hl)). apply (reads_bind _ _ _ _ _ _ (reads_bytes 16 g Hg)).
  apply (reads_bind _ _ _ _ _ _ (reads_int 4 k Hk)). rewrite <- (app_nil_r (le_bytes 4 o)).
  apply (reads_bind _ _ _ _ _ _ (reads_int 4 o Ho)). apply reads_ret.
Qed.

Lemma reads_row n l : row_ok n l → reads (read_array n (read_int 4)) (row_bytes l) l.
Proof.
  intros [Hn Hl]. apply reads_array; [done|]. eapply Forall_impl; [exact Hl|]. intros z. by apply (reads_int 4).
Qed.

Lemma reads_threads n l : length l = n → Forall per_thread_ok l → reads (read_array n read_per_thread) (mjoin (per_thread_bytes <$> l)) l.
Proof. intros Hn Hl. apply reads_array; [done|]. eapply Forall_impl; [exact Hl|]. apply reads_per_thread. Qed.

Lemma reads_rows n k l : length l = n → Forall (row_ok k) l → reads (read_array n (read_array k (read_int 4))) (mjoin (row_bytes <$> l)) l.
Proof. intros Hn Hl. apply reads_array; [done|]. eapply Forall_impl; [exact Hl|]. apply reads_row. Qed.

Lemma reads_meta m : meta_ok m → reads read_meta (meta_bytes m) m.
Proof.
  destruct m as [d c o a_t dt au du ar dr]. intros ((Hd & Hc & Ho) & [Ha1 Ha2] & [Hd1 Hd2] & Hau & Hdu & [Har1 Har2] & [Hdr1 Hdr2]).
  cbn [m_dsmBase m_cacheBase m_lockBase appTh dirTh appUdQpn dirUdQpn appRcQpn2dir dirRcQpn2app] in *.
  unfold read_meta, meta_bytes. cbn [m_dsmBase m_cacheBase m_lockBase appTh dirTh appUdQpn dirUdQpn appRcQpn2dir dirRcQpn2app].
  apply (reads_bind _ _ _ _ _ _ (reads_int 8 d Hd)). apply (reads_bind _ _ _ _ _ _ (reads_int 8 c Hc)).
  apply (reads_bind _ _ _ _ _ _ (reads_int 8 o Ho)). apply (reads_bind _ _ _ _ _ _ (reads_threads _ _ Ha1 Ha2)).
  apply (reads_bind _ _ _ _ _ _ (reads_threads _ _ Hd1 Hd2)). apply (reads_bind _ _ _ _ _ _ (reads_row _ _ Hau)).
  apply (reads_bind _ _ _ _ _ _ (reads_row _ _ Hdu)). apply (reads_bind _ _ _ _ _ _ (reads_rows _ _ _ Har1 Har2)).
  rewrite <- (app_nil_r (mjoin _)). apply (reads_bind _ _ _ _ _ _ (reads_rows _ _ _ Hdr1 Hdr2)). apply reads_ret.
Qed.

Lemma length_mjoin_const {A} (f : A → list byte) k l :
  (∀ x, x ∈ l → length (f x) = k) → length (mjoin (f <$> l)) = (length l * k)%nat.
Proof.
  induction l as [|x l IH]; intros Hf; [done|]. cbn. rewrite length_app, Hf by (by left).
  f_equal. apply IH. intros y Hy. apply Hf. by right.
Qed.

(** ** The ends of the connections *)
Record ThreadConnection : Set := TC {
  t_ctx : RdmaContext; t_cachePool : Z; t_rkey : Z; t_qpn : Z; t_data : list (list ibv_qp)
}.
Record DirectoryConnection : Set := DC {
  d_ctx : RdmaContext; d_dsmPool : Z; d_lockPool : Z; d_rkey : Z; d_qpn : Z; data2app : list (list ibv_qp)
}.

Definition with_data (c : ThreadConnection) (rows : list (list ibv_qp)) : ThreadConnection :=
  TC (t_ctx c) (t_cachePool c) (t_rkey c) (t_qpn c) rows.
Definition with_data2app (c : DirectoryConnection) (rows : list (list ibv_qp)) : DirectoryConnection :=
  DC (d_ctx c) (d_dsmPool c) (d_lockPool c) (d_rkey c) (d_qpn c) rows.

Section keeper.
Context `{Ibv}.

Record RemoteConnection : Set := RC {
  dsmBase : Z; dsmRKey : list Z; dirMessageQPN : list Z; appToDirAh : list (list ibv_ah);
  cacheBase : Z; lockBase : Z; appRKey : list Z; appMessageQPN : list Z; dirToAppAh : list (list ibv_ah)
}.

Record DSMKeeper : Set := DK {
  thCon : list ThreadConnection; dirCon : list DirectoryConnection; remoteCon : list RemoteConnection;
  localMeta : ExchangeMeta
}.

(** [initLocalMeta]; what it does not set keeps the contents of the memory. *)
Definition initLocalMeta (k : DSMKeeper) : res DSMKeeper :=
  dc ← idx_ (dirCon k) 0; tc ← idx_ (thCon k) 0;
  let m := localMeta k in
  Ok (DK (thCon k) (dirCon k) (remoteCon k)
         (EM (d_dsmPool dc) (t_cachePool tc) (d_lockPool dc)
             (zip_with (λ c o, EPT (ctx_lid (t_ctx c)) (ctx_gid (t_ctx c)) (t_rkey c) (lock_rkey o)) (thCon k) (appTh m))
             (zip_with (λ c o, EPT (ctx_lid (d_ctx c)) (ctx_gid (d_ctx c)) (d_rkey c) (lock_rkey o)) (dirCon k) (dirTh m))
             (t_qpn <$> thCon k) (d_qpn <$> dirCon k) (appRcQpn2dir m) (dirRcQpn2app m))).

(** The loops over the arrays of connections, with the index. *)
Fixpoint for_i {A B} (i : nat) (f : nat → A → res B) (l : list A) : res (list B) :=
  match l with
  | [] => Ok []
  | x :: l => y ← f i x; l' ← for_i (S i) f l; Ok (y :: l')
  end.

Definition setDataToRemote (remoteID : Z) (k : DSMKeeper) : res DSMKeeper :=
  let nums (rows : list (list ibv_qp)) := for_i 0 (λ _ qps, q ← idx_ qps remoteID; Ok (qp_num q)) rows in
  dir ← for_i 0 (λ _ c, nums (data2app c)) (dirCon k);
  app ← for_i 0 (λ _ c, nums (t_data c)) (thCon k);
  let m := localMeta k in
  Ok (DK (thCon k) (dirCon k) (remoteCon k)
         (EM (m_dsmBase m) (m_cacheBase m) (m_lockBase m) (appTh m) (dirTh m) (appUdQpn m) (dirUdQpn m) app dir)).

(** One queue pair: [qpn] and [th] are what the other side says of its end. *)
Definition connect_row (remoteID : Z) (ctx : RdmaContext) (qpns : list (list Z)) (ths : list ExPerThread) (i k : nat) (qps : list ibv_qp) :
    res (list ibv_qp) :=
  q ← idx_ qps remoteID;
  check (bool_decide (qp_kind q = IBV_QPT_RC)) ;;
  row ← idx_ qpns (Z.of_nat k); qpn ← idx_ row (Z.of_nat i); th ← idx_ ths (Z.of_nat k);
  Ok (<[Z.to_nat remoteID := connect_qp q qpn (lid th) (gid th) ctx]> qps).

Definition create_ahs (ctxs : list RdmaContext) (ths : list ExPerThread) : res (list (list ibv_ah)) :=
  for_i 0 (λ _ ctx, for_i 0 (λ _ th, match ibv_create_ah ctx (fillAhAttr (lid th) (gid th) ctx) with
                                     | Some ah => Ok ah
                                     | None => Fail EAssert
                                     end) ths) ctxs.

Definition setDataFromRemote (remoteID : Z) (m : ExchangeMeta) (k : DSMKeeper) : res DSMKeeper :=
  dir ← for_i 0 (λ i c, rows ← for_i 0 (connect_row remoteID (d_ctx c) (appRcQpn2dir m) (appTh m) i) (data2app c);
                        Ok (with_data2app c rows)) (dirCon k);
  app ← for_i 0 (λ i c, rows ← for_i 0 (connect_row remoteID (t_ctx c) (dirRcQpn2app m) (dirTh m) i) (t_data c);
                        Ok (with_data c rows)) (thCon k);
  _ ← idx_ (remoteCon k) remoteID;
  to_dir ← create_ahs (t_ctx <$> app) (dirTh m);
  to_app ← create_ahs (d_ctx <$> dir) (appTh m);
  Ok (DK app dir
         (<[Z.to_nat remoteID := RC (m_dsmBase m) (rKey <$> dirTh m) (dirUdQpn m) to_dir (m_cacheBase m) (m_lockBase m)
                                    (rKey <$> appTh m) (appUdQpn m) to_app]> (remoteCon k))
         (localMeta k)).

(** ** Well-formed keepers *)
Lemma for_i_spec {A B} (P : nat → A → B → Prop) (f : nat → A → res B) l j :
  (∀ i x, l !! i = Some x → ∃ y, f (j + i)%nat x = Ok y ∧ P (j + i)%nat x y) →
  ∃ l', for_i j f l = Ok l' ∧ length l' = length l ∧ ∀ i x, l !! i = Some x → ∃ y, l' !! i = Some y ∧ P (j + i)%nat x y.
Proof.
  revert j. induction l as [|x l IH]; intros j Hf; [by exists []|].
  destruct (Hf O x eq_refl) as (y & Ey & Hy). rewrite Nat.add_0_r in Ey, Hy.
  destruct (IH (S j)) as (l' & El & Hl & Hl').
  { intros i z Hz. specialize (Hf (S i) z Hz). by rewrite <- Nat.add_succ_comm in Hf. }
  exists (y :: l'). cbn. rewrite Ey. cbn. rewrite El. cbn. split_and!; [done|by f_equal|].
  intros [|i] z Hz; cbn in *; [injection Hz as <-; exists y; by rewrite Nat.add_0_r|].
  rewrite <- Nat.add_succ_comm. by apply Hl'.
Qed.

Definition app_qp (k : DSMKeeper) (a d r : nat) : option ibv_qp := c ← thCon k !! a; row ← t_data c !! d; row !! r.
Definition dir_qp (k : DSMKeeper) (d a r : nat) : option ibv_qp := c ← dirCon k !! d; row ← data2app c !! a; row !! r.

Definition ctx_ok (c : RdmaContext) : Prop := uint 16 (ctx_lid c) ∧ length (ctx_gid c) = 16%nat.
Definition rows_ok (nr n : nat) (rows : list (list ibv_qp)) : Prop :=
  length rows = n ∧ Forall (λ qps, length qps = nr ∧ Forall (λ q, qp_kind q = IBV_QPT_RC ∧ uint 32 (qp_num q)) qps) rows.

(** The arrays have their sizes, and every value its width. *)
Record keeper_ok (nr : nat) (k : DSMKeeper) : Prop := {
  ko_app : length (thCon k) = n_app;
  ko_dir : length (dirCon k) = n_dir;
  ko_remote : length (remoteCon k) = nr;
  ko_thread c : c ∈ thCon k → ctx_ok (t_ctx c) ∧ uint 64 (t_cachePool c) ∧ uint 32 (t_rkey c) ∧ uint 32 (t_qpn c) ∧ rows_ok nr n_dir (t_data c);
  ko_directory c : c ∈ dirCon k →
    ctx_ok (d_ctx c) ∧ uint 64 (d_dsmPool c) ∧ uint 64 (d_lockPool c) ∧ uint 32 (d_rkey c) ∧ uint 32 (d_qpn c) ∧ rows_ok nr n_app (data2app c);
  ko_meta : meta_ok (localMeta k)
}.

Lemma nums_spec nr n r rows :
  rows_ok nr n rows → (r < nr)%nat →
  ∃ l, for_i 0 (λ _ qps, q ← idx_ qps (Z.of_nat r); Ok (qp_num q)) rows = Ok l ∧ row_ok n l ∧
    ∀ j, l !! j = (row ← rows !! j; q ← row !! r; Some (qp_num q)).
Proof.
  intros [Hn Hrows] Hr. rewrite Forall_forall in Hrows.
  destruct (for_i_spec (λ j qps z, ∃ q, qps !! r = Some q ∧ z = qp_num q ∧ uint 32 z)
              (λ _ qps, q ← idx_ qps (Z.of_nat r); Ok (qp_num q)) rows 0) as (l & E & Hl & Hlk).
  { intros i qps Hi. destruct (Hrows qps) as [Hlen Hq]; [by eapply list_elem_of_lookup_2|].
    destruct (lookup_lt_is_Some_2 qps r) as [q Eq]; [lia|]. exists (qp_num q).
    rewrite (proj2 (idx_Ok qps (Z.of_nat r) q)) by (by rewrite Nat2Z.id; split; [lia|]).
    split; [done|]. exists q. split_and!; [done|done|]. rewrite Forall_forall in Hq. by apply Hq; eapply list_elem_of_lookup_2. }
  exists l. split_and!; [done|split; [congruence|]|].
  - apply Forall_lookup. intros j z Hz. destruct (lookup_lt_is_Some_2 rows j) as [qps Hqps]; [apply lookup_lt_Some in Hz; lia|].
    destruct (Hlk _ _ Hqps) as (z' & Hz' & q & _ & _ & Hu). congruence.
  - intros j. destruct (rows !! j) as [qps|] eqn:Ej; cbn.
    + destruct (Hlk _ _ Ej) as (z & Hz & q & Hq & -> & _). by rewrite Hz, Hq.
    + apply lookup_ge_None. apply lookup_ge_None in Ej. lia.
Qed.

(** ** What a server tells of itself

    [describes k m]: the fixed part of [m] is that of the server with the
    connections [k]; [talks k r m]: the queue pair numbers are those of the
    queue pairs for server [r]. *)
Definition t_end (c : ThreadConnection) : RdmaContext * Z * Z * Z := (t_ctx c, t_cachePool c, t_rkey c, t_qpn c).
Definition d_end (c : DirectoryConnection) : RdmaContext * Z * Z * Z * Z := (d_ctx c, d_dsmPool c, d_lockPool c, d_rkey c, d_qpn c).
Definition th_end (e : ExPerThread) : Z * list byte * Z := (lid e, gid e, rKey e).

Record describes (k : DSMKeeper) (m : ExchangeMeta) : Prop := {
  ds_app : th_end <$> appTh m = (λ '(c, _, key, _), (ctx_lid c, ctx_gid c, key)) ∘ t_end <$> thCon k;
  ds_dir : th_end <$> dirTh m = (λ '(c, _, _, key, _), (ctx_lid c, ctx_gid c, key)) ∘ d_end <$> dirCon k;
  ds_app_ud : appUdQpn m = snd ∘ t_end <$> thCon k;
  ds_dir_ud : dirUdQpn m = snd ∘ d_end <$> dirCon k;
  ds_cache : Some (m_cacheBase m) = (λ '(_, p, _, _), p) ∘ t_end <$> thCon k !! 0%nat;
  ds_base : Some (m_dsmBase m, m_lockBase m) = (λ '(_, p, l, _, _), (p, l)) ∘ d_end <$> dirCon k !! 0%nat
}.

Record talks (k : DSMKeeper) (r : nat) (m : ExchangeMeta) : Prop := {
  tk_app a d : (row ← appRcQpn2dir m !! a; row !! d) = qp_num <$> app_qp k a d r;
  tk_dir d a : (row ← dirRcQpn2app m !! d; row !! a) = qp_num <$> dir_qp k d a r
}.

Lemma for_rows_spec {C} nr n n' (rows : C → list (list ibv_qp)) (cs : list C) r :
  length cs = n → (∀ c, c ∈ cs → rows_ok nr n' (rows c)) → (r < nr)%nat →
  ∃ ll, for_i 0 (λ _ c, for_i 0 (λ _ qps, q ← idx_ qps (Z.of_nat r); Ok (qp_num q)) (rows c)) cs = Ok ll ∧
    length ll = n ∧ Forall (row_ok n') ll ∧
    ∀ i j, (l ← ll !! i; l !! j) = qp_num <$> (c ← cs !! i; row ← rows c !! j; row !! r).
Proof.
  intros Hn Hrows Hr.
  destruct (for_i_spec (λ _ c l, row_ok n' l ∧ ∀ j, l !! j = (row ← rows c !! j; q ← row !! r; Some (qp_num q)))
              (λ _ c, for_i 0 (λ _ qps, q ← idx_ qps (Z.of_nat r); Ok (qp_num q)) (rows c)) cs 0) as (ll & E & Hl & Hlk).
  { intros i c Hc. destruct (nums_spec nr n' r (rows c)) as (l & El & Hok & Hj); [by eapply Hrows, list_elem_of_lookup_2|done|].
    exists l. split; [exact El|done]. }
  exists ll. split_and!; [exact E|congruence| |].
  - apply Forall_lookup. intros i l Hi. destruct (lookup_lt_is_Some_2 cs i) as [c Hc]; [apply lookup_lt_Some in Hi; lia|].
    destruct (Hlk _ _ Hc) as (l' & Hl' & Hok & _). congruence.
  - intros i j. destruct (cs !! i) as [c|] eqn:Ec; cbn.
    + destruct (Hlk _ _ Ec) as (l & -> & _ & Hj). cbn. rewrite Hj.
      destruct (rows c !! j) as [row|]; cbn; [|done]. by destruct (row !! r).
    + rewrite (proj2 (lookup_ge_None ll i)); [done|]. apply lookup_ge_None in Ec. lia.
Qed.

Lemma setDataToRemote_ok nr k r :
  keeper_ok nr k → describes k (localMeta k) → (r < nr)%nat →
  ∃ m, setDataToRemote (Z.of_nat r) k = Ok (DK (thCon k) (dirCon k) (remoteCon k) m) ∧ meta_ok m ∧ describes k m ∧ talks k r m.
Proof.
  intros Hk Hd Hr.
  destruct (for_rows_spec nr n_dir n_app data2app (dirCon k) r) as (dir & Ed & Hld & Hrd & Hqd);
    [apply Hk|intros c Hc; apply (ko_directory _ _ Hk c Hc)|done|].
  destruct (for_rows_spec nr n_app n_dir t_data (thCon k) r) as (app & Ea & Hla & Hra & Hqa);
    [apply Hk|intros c Hc; apply (ko_thread _ _ Hk c Hc)|done|].
  eexists. split.
  - unfold setDataToRemote. rewrite Ed. cbn. rewrite Ea. done.
  - destruct (ko_meta _ _ Hk) as (H1 & H2 & H3 & H4 & H5 & _). split; [|split; [|by split]].
    + exact (conj H1 (conj H2 (conj H3 (conj H4 (conj H5 (conj (conj Hla Hra) (conj Hld Hrd))))))).
    + destruct Hd. by split.
Qed.

Lemma zip_threads {C} n (f : C → Z * list byte) (key : C → Z) (cs : list C) (o : list ExPerThread) :
  length cs = n → length o = n → Forall per_thread_ok o →
  (∀ c, c ∈ cs → uint 16 (f c).1 ∧ length (f c).2 = 16%nat ∧ uint 32 (key c)) →
  let l := zip_with (λ c o, EPT (f c).1 (f c).2 (key c) (lock_rkey o)) cs o in
  length l = n ∧ Forall per_thread_ok l ∧ th_end <$> l = (λ c, (f c, key c)) <$> cs.
Proof.
  revert n o. induction cs as [|c cs IH]; intros n [|x o]; cbn; intros Hn Ho Hx Hc; try (subst; done).
  inversion Hx as [|? ? (_ & _ & _ & Hx1) Hx2]; subst. destruct (IH _ o eq_refl) as (H1 & H2 & H3); [lia|done| |].
  { intros c' Hc'. apply Hc. by right. }
  destruct (Hc c) as (Hc1 & Hc2 & Hc3); [by left|]. split_and!; [by f_equal|by constructor|].
  rewrite H3. f_equal. unfold th_end. cbn. by destruct (f c).
Qed.

Lemma initLocalMeta_ok nr k :
  keeper_ok nr k → ∃ m, initLocalMeta k = Ok (DK (thCon k) (dirCon k) (remoteCon k) m) ∧ meta_ok m ∧ describes k m.
Proof.
  intros Hk. destruct (ko_meta _ _ Hk) as ((_ & _ & _) & [Ha1 Ha2] & [Hd1 Hd2] & _ & _ & Hra & Hrd).
  destruct (lookup_lt_is_Some_2 (dirCon k) 0) as [dc Hdc]; [rewrite (ko_dir _ _ Hk); by vm_compute; lia|].
  destruct (lookup_lt_is_Some_2 (thCon k) 0) as [tc Htc]; [rewrite (ko_app _ _ Hk); by vm_compute; lia|].
  pose proof (ko_directory _ _ Hk dc (list_elem_of_lookup_2 _ _ _ Hdc)) as (_ & Hp & Hl & _).
  pose proof (ko_thread _ _ Hk tc (list_elem_of_lookup_2 _ _ _ Htc)) as (_ & Hc & _).
  destruct (zip_threads n_app (λ c, (ctx_lid (t_ctx c), ctx_gid (t_ctx c))) t_rkey (thCon k) (appTh (localMeta k))) as (A1 & A2 & A3);
    [apply Hk|done|done|intros c Hin; destruct (ko_thread _ _ Hk c Hin) as ([? ?] & _ & ? & _); done|].
  destruct (zip_threads n_dir (λ c, (ctx_lid (d_ctx c), ctx_gid (d_ctx c))) d_rkey (dirCon k) (dirTh (localMeta k))) as (D1 & D2 & D3);
    [apply Hk|done|done|intros c Hin; destruct (ko_directory _ _ Hk c Hin) as ([? ?] & _ & _ & ? & _); done|].
  eexists. split.
  - unfold initLocalMeta. rewrite (proj2 (idx_Ok (dirCon k) 0 dc)) by done. cbn.
    rewrite (proj2 (idx_Ok (thCon k) 0 tc)) by done. done.
  - split.
    + assert (Hau : row_ok n_app (t_qpn <$> thCon k)).
      { split; [rewrite length_fmap; apply Hk|]. apply Forall_fmap, Forall_forall. intros c Hin. apply (ko_thread _ _ Hk c Hin). }
      assert (Hdu : row_ok n_dir (d_qpn <$> dirCon k)).
      { split; [rewrite length_fmap; apply Hk|]. apply Forall_fmap, Forall_forall. intros c Hin. apply (ko_directory _ _ Hk c Hin). }
      exact (conj (conj Hp (conj Hc Hl)) (conj (conj A1 A2) (conj (conj D1 D2) (conj Hau (conj Hdu (conj Hra Hrd)))))).
    + split; cbn; [exact A3|exact D3|done|done| |].
      * by rewrite Htc.
      * by rewrite Hdc.
Qed.

(** ** Connecting *)
(** What connecting for server [r] does to the queue pairs of one thread:
    [qpns] and [ths] are the tables of the other side, [i] is this thread. *)
Definition row_joined (r : nat) (qpns : list (list Z)) (ths : list ExPerThread) (i j : nat) (row row' : list ibv_qp) : Prop :=
  ∃ q q' qpn th, row' = <[r := q']> row ∧ row !! r = Some q ∧ (qrow ← qpns !! j; qrow !! i) = Some qpn ∧ ths !! j = Some th ∧
    qp_num q' = qp_num q ∧ connected q' qpn (lid th) (gid th).

Definition rows_joined (r : nat) (qpns : list (list Z)) (ths : list ExPerThread) (i : nat) (rows rows' : list (list ibv_qp)) : Prop :=
  ∀ (j : nat) row, rows !! j = Some row → ∃ row', rows' !! j = Some row' ∧ row_joined r qpns ths i j row row'.

Definition row_fine (nr : nat) (qps : list ibv_qp) : Prop :=
  length qps = nr ∧ Forall (λ q, qp_kind q = IBV_QPT_RC ∧ uint 32 (qp_num q)) qps.

Lemma connect_row_spec nr r ctx qpns ths i j qps qpn th :
  (r < nr)%nat → row_fine nr qps → (∀ q, qps !! r = Some q → qp_at q = IBV_QPS_RESET) →
  (qrow ← qpns !! j; qrow !! i) = Some qpn → ths !! j = Some th →
  ∃ row', connect_row (Z.of_nat r) ctx qpns ths i j qps = Ok row' ∧ row_fine nr row' ∧ row_joined r qpns ths i j qps row'.
Proof.
  intros Hr [Hl Hq] Hs Hqpn Hth. destruct (lookup_lt_is_Some_2 qps r) as [q Eq]; [lia|].
  destruct (proj1 (Forall_lookup _ _) Hq r q Eq) as [Hk Hn].
  destruct (connect_qp_connected q qpn (lid th) (gid th) ctx Hk (Hs q Eq)) as (Hn' & Hk' & Hc).
  destruct (qpns !! j) as [qrow|] eqn:Erow; [|done]. cbn in Hqpn.
  exists (<[r := connect_qp q qpn (lid th) (gid th) ctx]> qps). split_and!.
  - unfold connect_row. rewrite (idx_nat qps r q Eq). cbn. rewrite bool_decide_true by done. cbn.
    rewrite (idx_nat _ _ _ Erow). cbn. rewrite (idx_nat _ _ _ Hqpn). cbn. rewrite (idx_nat _ _ _ Hth). cbn.
    by rewrite Nat2Z.id.
  - split; [by rewrite length_insert|]. apply Forall_insert; [done|]. by rewrite Hn'.
  - exists q, (connect_qp q qpn (lid th) (gid th) ctx), qpn, th. by rewrite Erow.
Qed.

(** The tables have an entry for each queue pair of this end. *)
Definition table_ok (n n' : nat) (qpns : list (list Z)) (ths : list ExPerThread) : Prop :=
  length qpns = n' ∧ Forall (row_ok n) qpns ∧ length ths = n'.

Lemma table_lookup n n' qpns ths (i j : nat) :
  table_ok n n' qpns ths → (i < n)%nat → (j < n')%nat →
  ∃ qpn th, (qrow ← qpns !! j; qrow !! i) = Some qpn ∧ ths !! j = Some th.
Proof.
  intros (H1 & H2 & H3) Hi Hj. destruct (lookup_lt_is_Some_2 qpns j) as [qrow Hq]; [lia|].
  destruct (proj1 (Forall_lookup _ _) H2 _ _ Hq) as [Hl _].
  destruct (lookup_lt_is_Some_2 qrow i) as [qpn Hqpn]; [lia|]. destruct (lookup_lt_is_Some_2 ths j) as [th Hth]; [lia|].
  exists qpn, th. by rewrite Hq.
Qed.

Lemma connect_rows_spec nr n n' r ctx qpns ths (i : nat) rows :
  (r < nr)%nat → rows_ok nr n' rows → table_ok n n' qpns ths → (i < n)%nat →
  (∀ (j : nat) row q, rows !! j = Some row → row !! r = Some q → qp_at q = IBV_QPS_RESET) →
  ∃ rows', for_i 0 (connect_row (Z.of_nat r) ctx qpns ths i) rows = Ok rows' ∧ rows_ok nr n' rows' ∧ rows_joined r qpns ths i rows rows'.
Proof.
  intros Hr [Hlen Hall] Ht Hi Hs.
  destruct (for_i_spec (λ j row row', row_fine nr row' ∧ row_joined r qpns ths i j row row')
              (connect_row (Z.of_nat r) ctx qpns ths i) rows 0) as (rows' & E & Hl & Hlk).
  { intros j row Hj. destruct (table_lookup n n' qpns ths i j Ht Hi) as (qpn & th & Hq & Hth).
    { rewrite <- Hlen. by eapply lookup_lt_Some. }
    destruct (connect_row_spec nr r ctx qpns ths i j row qpn th) as (row' & Er & Hf & Hjn);
      [done|by apply (proj1 (Forall_lookup _ _) Hall j)|intros q; by apply (Hs j)|done|done|]. by exists row'. }
  exists rows'. split_and!; [done|split|].
  - congruence.
  - apply Forall_lookup. intros j row' Hj. destruct (lookup_lt_is_Some_2 rows j) as [row Hrow]; [apply lookup_lt_Some in Hj; lia|].
    destruct (Hlk j row Hrow) as (row2 & Hrow2 & Hf & _). by simplify_eq.
  - intros j row Hj. destruct (Hlk j row Hj) as (row' & Hrow' & _ & Hjn). by exists row'.
Qed.

Lemma for_connect_spec {C} nr n n' (rows : C → list (list ibv_qp)) (ctx : C → RdmaContext) (mk : C → list (list ibv_qp) → C)
    (cs : list C) r qpns ths :
  (r < nr)%nat → length cs = n → (∀ c, c ∈ cs → rows_ok nr n' (rows c)) → table_ok n n' qpns ths →
  (∀ (i j : nat) c row q, cs !! i = Some c → rows c !! j = Some row → row !! r = Some q → qp_at q = IBV_QPS_RESET) →
  ∃ cs', for_i 0 (λ i c, rows ← for_i 0 (connect_row (Z.of_nat r) (ctx c) qpns ths i) (rows c); Ok (mk c rows)) cs = Ok cs' ∧
    length cs' = n ∧
    ∀ (i : nat) c, cs !! i = Some c → ∃ rows', cs' !! i = Some (mk c rows') ∧ rows_ok nr n' rows' ∧ rows_joined r qpns ths i (rows c) rows'.
Proof.
  intros Hr Hn Hrows Ht Hs.
  destruct (for_i_spec (λ i c c', ∃ rows', c' = mk c rows' ∧ rows_ok nr n' rows' ∧ rows_joined r qpns ths i (rows c) rows')
              (λ i c, rows ← for_i 0 (connect_row (Z.of_nat r) (ctx c) qpns ths i) (rows c); Ok (mk c rows)) cs 0)
    as (cs' & E & Hl & Hlk).
  { intros i c Hc. cbn [Nat.add].
    destruct (connect_rows_spec nr n n' r (ctx c) qpns ths i (rows c)) as (rows' & Er & H1 & H2);
      [done|by eapply Hrows, list_elem_of_lookup_2|done|rewrite <- Hn; by eapply lookup_lt_Some|intros j row q; by apply (Hs i j c)|].
    exists (mk c rows'). rewrite Er. split; [done|]. by exists rows'. }
  exists cs'. split_and!; [exact E|congruence|]. intros i c Hc.
  destruct (Hlk i c Hc) as (c' & Hc' & rows' & -> & H1). by exists rows'.
Qed.

(** From one state of the connections to the next: the queue pair for [r]
    becomes connected to what the tables say. *)
Definition qp_joined (r : nat) (qpns : list (list Z)) (ths : list ExPerThread) (i j r' : nat) (q q' : ibv_qp) : Prop :=
  qp_num q' = qp_num q ∧
  if decide (r' = r) then ∃ qpn th, (qrow ← qpns !! j; qrow !! i) = Some qpn ∧ ths !! j = Some th ∧ connected q' qpn (lid th) (gid th)
  else q' = q.

Lemma rows_joined_lookup r qpns ths (i j : nat) rows rows' r' :
  rows_joined r qpns ths i rows rows' → length rows' = length rows →
  option_Forall2 (qp_joined r qpns ths i j r') (row ← rows !! j; row !! r') (row ← rows' !! j; row !! r').
Proof.
  intros Hj Hl. destruct (rows !! j) as [row|] eqn:E; cbn.
  - destruct (Hj j row E) as (row' & -> & q & q' & qpn & th & -> & Hq & Hqpn & Hth & Hn & Hc). cbn. unfold qp_joined.
    destruct (decide (r' = r)) as [->|Hne].
    + rewrite Hq, list_lookup_insert_eq by (by eapply lookup_lt_Some). constructor. split; [done|]. by exists qpn, th.
    + rewrite list_lookup_insert_ne by done. destruct (row !! r'); by constructor.
  - rewrite (proj2 (lookup_ge_None rows' j)); [constructor|]. apply lookup_ge_None in E. lia.
Qed.

Lemma ends_joined {C} nr n n' (rows : C → list (list ibv_qp)) (mk : C → list (list ibv_qp) → C) cs cs' r qpns ths :
  (∀ c l, rows (mk c l) = l) → length cs' = length cs → (∀ c, c ∈ cs → rows_ok nr n' (rows c)) → length cs = n →
  (∀ (i : nat) c, cs !! i = Some c → ∃ rows', cs' !! i = Some (mk c rows') ∧ rows_ok nr n' rows' ∧ rows_joined r qpns ths i (rows c) rows') →
  ∀ i j r', option_Forall2 (qp_joined r qpns ths i j r') (c ← cs !! i; row ← rows c !! j; row !! r') (c ← cs' !! i; row ← rows c !! j; row !! r').
Proof.
  intros Hmk Hl Hrows Hn H1 i j r'. destruct (cs !! i) as [c|] eqn:E; cbn.
  - destruct (H1 i c E) as (rows' & -> & [Hlen _] & Hjn). cbn. rewrite Hmk. apply rows_joined_lookup; [done|].
    destruct (Hrows c) as [Hlen' _]; [by eapply list_elem_of_lookup_2|]. congruence.
  - rewrite (proj2 (lookup_ge_None cs' i)); [constructor|]. apply lookup_ge_None in E. lia.
Qed.

Lemma ends_same {C B} (f : C → B) (mk : C → list (list ibv_qp) → C) (P : C → list (list ibv_qp) → nat → Prop) cs cs' :
  (∀ c l, f (mk c l) = f c) → length cs' = length cs →
  (∀ (i : nat) c, cs !! i = Some c → ∃ rows', cs' !! i = Some (mk c rows') ∧ P c rows' i) → f <$> cs' = f <$> cs.
Proof.
  intros Hf Hl H1. apply list_eq. intros i. rewrite !list_lookup_fmap. destruct (cs !! i) as [c|] eqn:E; cbn.
  - destruct (H1 i c E) as (rows' & -> & _). cbn. by rewrite Hf.
  - rewrite (proj2 (lookup_ge_None cs' i)); [done|]. apply lookup_ge_None in E. lia.
Qed.

Lemma create_ahs_ok ctxs ths :
  ∃ l, create_ahs ctxs ths = Ok l ∧ length l = length ctxs ∧
    ∀ (i j : nat) ctx th, ctxs !! i = Some ctx → ths !! j = Some th →
      ∃ row ah, l !! i = Some row ∧ row !! j = Some ah ∧ ibv_create_ah ctx (fillAhAttr (lid th) (gid th) ctx) = Some ah.
Proof.
  destruct (for_i_spec (λ _ ctx row, ∀ (j : nat) th, ths !! j = Some th → ∃ ah, row !! j = Some ah ∧ ibv_create_ah ctx (fillAhAttr (lid th) (gid th) ctx) = Some ah)
    (λ _ ctx, for_i 0 (λ _ th, match ibv_create_ah ctx (fillAhAttr (lid th) (gid th) ctx) with Some ah => Ok ah | None => Fail EAssert end) ths) ctxs 0)
    as (l & E & Hl & Hlk).
  { intros i ctx _.
    destruct (for_i_spec (λ _ th ah, ibv_create_ah ctx (fillAhAttr (lid th) (gid th) ctx) = Some ah)
      (λ _ th, match ibv_create_ah ctx (fillAhAttr (lid th) (gid th) ctx) with Some ah => Ok ah | None => Fail EAssert end) ths 0) as (row & E & _ & Hlk).
    { intros j th _. destruct (ibv_create_ah_ok ctx (fillAhAttr (lid th) (gid th) ctx) eq_refl) as [ah Hah]. exists ah. by rewrite Hah. }
    exists row. split; [exact E|]. intros j th Hth. by destruct (Hlk j th Hth) as (ah & ? & ?); exists ah. }
  exists l. split_and!; [exact E|done|]. intros i j ctx th Hi Hj. destruct (Hlk i ctx Hi) as (row & Hrow & Hr).
  destruct (Hr j th Hj) as (ah & ? & ?). by exists row, ah.
Qed.

Lemma meta_tables m : meta_ok m →
  table_ok n_dir n_app (appRcQpn2dir m) (appTh m) ∧ table_ok n_app n_dir (dirRcQpn2app m) (dirTh m).
Proof. intros (_ & [Ha _] & [Hd _] & _ & _ & [Har Har'] & [Hdr Hdr']). by split. Qed.

(** What a server keeps of another one: its regions and keys, and address
    handles to its threads. *)
Definition reaches (ctxs : list RdmaContext) (ths : list ExPerThread) (ahs : list (list ibv_ah)) : Prop :=
  ∀ (i j : nat) ctx th, ctxs !! i = Some ctx → ths !! j = Some th →
    ∃ row ah, ahs !! i = Some row ∧ row !! j = Some ah ∧ ibv_create_ah ctx (fillAhAttr (lid th) (gid th) ctx) = Some ah.

Record info_of (k : DSMKeeper) (m : ExchangeMeta) (info : RemoteConnection) : Prop := {
  io_base : dsmBase info = m_dsmBase m ∧ lockBase info = m_lockBase m ∧ cacheBase info = m_cacheBase m;
  io_keys : dsmRKey info = rKey <$> dirTh m ∧ appRKey info = rKey <$> appTh m;
  io_qpn : dirMessageQPN info = dirUdQpn m ∧ appMessageQPN info = appUdQpn m;
  io_to_dir : reaches (t_ctx <$> thCon k) (dirTh m) (appToDirAh info);
  io_to_app : reaches (d_ctx <$> dirCon k) (appTh m) (dirToAppAh info)
}.

Definition fresh_for (k : DSMKeeper) (r : nat) : Prop :=
  (∀ a d q, app_qp k a d r = Some q → qp_at q = IBV_QPS_RESET) ∧ (∀ d a q, dir_qp k d a r = Some q → qp_at q = IBV_QPS_RESET).

(** All of that for the array of the ends of one kind. *)
Lemma connect_ends {C B} nr n n' (rows : C → list (list ibv_qp)) (ctx : C → RdmaContext) (mk : C → list (list ibv_qp) → C)
    (fixed : C → B) (cs : list C) r qpns ths :
  (∀ c l, rows (mk c l) = l) → (∀ c l, fixed (mk c l) = fixed c) →
  (r < nr)%nat → length cs = n → (∀ c, c ∈ cs → rows_ok nr n' (rows c)) → table_ok n n' qpns ths →
  (∀ (i j : nat) q, (c ← cs !! i; row ← rows c !! j; row !! r) = Some q → qp_at q = IBV_QPS_RESET) →
  ∃ cs', for_i 0 (λ i c, rows ← for_i 0 (connect_row (Z.of_nat r) (ctx c) qpns ths i) (rows c); Ok (mk c rows)) cs = Ok cs' ∧
    length cs' = n ∧ fixed <$> cs' = fixed <$> cs ∧
    (∀ c', c' ∈ cs' → ∃ c rows', c ∈ cs ∧ c' = mk c rows' ∧ rows_ok nr n' rows') ∧
    ∀ i j r', option_Forall2 (qp_joined r qpns ths i j r') (c ← cs !! i; row ← rows c !! j; row !! r') (c ← cs' !! i; row ← rows c !! j; row !! r').
Proof.
  intros Hmk Hf Hr Hn Hrows Ht Hs.
  destruct (for_connect_spec nr n n' rows ctx mk cs r qpns ths Hr Hn Hrows Ht) as (cs' & E & Hl & H1).
  { intros i j c row q Hc Hrow Hq. apply (Hs i j). rewrite Hc. cbn. by rewrite Hrow. }
  exists cs'. split_and!; [done|done| | |].
  - eapply (ends_same fixed mk); [done|lia|exact H1].
  - intros c' [i Hi]%list_elem_of_lookup_1. destruct (lookup_lt_is_Some_2 cs i) as [c Hc]; [apply lookup_lt_Some in Hi; lia|].
    destruct (H1 i c Hc) as (rows' & Hc' & Hok & _). exists c, rows'. split_and!; [by eapply list_elem_of_lookup_2|congruence|done].
  - eapply ends_joined; [done|lia|done|done|exact H1].
Qed.

Lemma setDataFromRemote_ok nr k m r :
  keeper_ok nr k → meta_ok m → (r < nr)%nat → fresh_for k r →
  ∃ k' info, setDataFromRemote (Z.of_nat r) m k = Ok k' ∧ keeper_ok nr k' ∧ localMeta k' = localMeta k ∧
    t_end <$> thCon k' = t_end <$> thCon k ∧ d_end <$> dirCon k' = d_end <$> dirCon k ∧
    remoteCon k' = <[r := info]> (remoteCon k) ∧ info_of k m info ∧
    (∀ a d r', option_Forall2 (qp_joined r (dirRcQpn2app m) (dirTh m) a d r') (app_qp k a d r') (app_qp k' a d r')) ∧
    (∀ d a r', option_Forall2 (qp_joined r (appRcQpn2dir m) (appTh m) d a r') (dir_qp k d a r') (dir_qp k' d a r')).
Proof.
  intros Hk Hm Hr [Hfa Hfd]. destruct (meta_tables m Hm) as [Hta Htd].
  destruct (connect_ends nr n_dir n_app data2app d_ctx with_data2app d_end (dirCon k) r (appRcQpn2dir m) (appTh m))
    as (dir & Ed & Hld & Hde & Hdc & Hdq); [done|done|done|apply Hk|intros c Hc; apply (ko_directory _ _ Hk c Hc)|done|apply Hfd|].
  destruct (connect_ends nr n_app n_dir t_data t_ctx with_data t_end (thCon k) r (dirRcQpn2app m) (dirTh m))
    as (app & Ea & Hla & Hte & Hac & Haq); [done|done|done|apply Hk|intros c Hc; apply (ko_thread _ _ Hk c Hc)|done|apply Hfa|].
  assert (Htx : t_ctx <$> app = t_ctx <$> thCon k) by (apply (f_equal (fmap (λ '(c, _, _, _), c))) in Hte; by rewrite <- !list_fmap_compose in Hte).
  assert (Hdx : d_ctx <$> dir = d_ctx <$> dirCon k) by (apply (f_equal (fmap (λ '(c, _, _, _, _), c))) in Hde; by rewrite <- !list_fmap_compose in Hde).
  destruct (create_ahs_ok (t_ctx <$> app) (dirTh m)) as (to_dir & E1 & _ & Hto_dir).
  destruct (create_ahs_ok (d_ctx <$> dir) (appTh m)) as (to_app & E2 & _ & Hto_app).
  destruct (lookup_lt_is_Some_2 (remoteCon k) r) as [old Hold]; [rewrite (ko_remote _ _ Hk); done|].
  eexists _, _. split; [|split; [split|split_and!]].
  { unfold setDataFromRemote. rewrite Ed. cbn. rewrite Ea. cbn. rewrite (idx_nat _ _ _ Hold). cbn.
    rewrite E1. cbn. rewrite E2. cbn. by rewrite Nat2Z.id. }
  all: try done; try exact Haq; try exact Hdq.
  - cbn. rewrite length_insert. apply Hk.
  - intros c' (c & rows' & Hc & -> & Hrows)%Hac. destruct (ko_thread _ _ Hk c Hc) as (? & ? & ? & ? & _). by split_and!.
  - intros c' (c & rows' & Hc & -> & Hrows)%Hdc. destruct (ko_directory _ _ Hk c Hc) as (? & ? & ? & ? & ? & _). by split_and!.
  - apply Hk.
  - split; cbn; try done; [by rewrite <- Htx|by rewrite <- Hdx].
Qed.
End keeper.

(** ** The layout as a whole *)
Lemma length_row_bytes l : length (row_bytes l) = (length l * 4)%nat.
Proof. apply length_mjoin_const. intros z _. apply length_le_bytes. Qed.

Lemma length_meta_bytes m : meta_ok m → length (meta_bytes m) = 2524%nat.
Proof.
  intros (_ & [Ha1 Ha2] & [Hd1 Hd2] & [Hau _] & [Hdu _] & [Har1 Har2] & [Hdr1 Hdr2]). unfold meta_bytes.
  assert (Ht : ∀ l, Forall per_thread_ok l → length (mjoin (per_thread_bytes <$> l)) = (length l * 26)%nat).
  { intros l Hl. apply length_mjoin_const. intros e He. rewrite Forall_forall in Hl. destruct (Hl e He) as (_ & Hg & _).
    unfold per_thread_bytes. rewrite !length_app, !length_le_bytes, Hg. done. }
  assert (Hr : ∀ k l, Forall (row_ok k) l → length (mjoin (row_bytes <$> l)) = (length l * (k * 4))%nat).
  { intros k l Hl. apply length_mjoin_const. intros e He. rewrite Forall_forall in Hl. destruct (Hl e He) as [<- _]. apply length_row_bytes. }
  rewrite !length_app, !length_le_bytes, !Ht, !(Hr _ _ Har2), !(Hr _ _ Hdr2), !length_row_bytes by done.
  rewrite Ha1, Hd1, Hau, Hdu, Har1, Hdr1. by vm_compute.
Qed.
