(* ===== verification/Keeper.v ===== *)
(** * The rendezvous of the servers (src/Keeper.cpp, src/DSMKeeper.cpp)

    The servers meet through memcached: they draw their node ids from a counter,
    wait for each other at barriers and add up values. memcached is not code of
    the repository: it is the class [Memcached], with the documented effect of
    the three calls that are used. The operations of a server are processes; a
    call that is retried until it succeeds is an action that waits until it
    does, since an attempt that fails changes nothing. *)

From Stdlib Require Import ZArith Lia Bool Ascii String.
From stdpp Require Import base tactics decidable option numbers list list_numbers gmap relations.
From S2P Require Import Prelude.
From S2P Require Import Process.

(** ** Numbers as text *)
Definition text (s : string) : list byte := Z.of_N ∘ N_of_ascii <$> list_ascii_of_string s.

(** [std::to_string] of an unsigned integer of 64 bits: at most twenty digits. *)
Fixpoint to_digits (fuel : nat) (n : Z) (rest : list byte) : list byte :=
  match fuel with
  | O => rest
  | S fuel => let rest := (48 + n `mod` 10) :: rest in if n / 10 =? 0 then rest else to_digits fuel (n / 10) rest
  end.
Definition to_string (n : Z) : list byte := to_digits 20 n [].
#[global] Arguments to_string : simpl never.
#[global] Arguments text : simpl never.

(** [strtoull]: spaces, a sign, digits; what follows is ignored. *)
Definition is_digit (c : byte) : bool := (48 <=? c) && (c <=? 57).
Definition is_space (c : byte) : bool := (c =? 32) || ((9 <=? c) && (c <=? 13)).

Fixpoint digits (s : list byte) (acc : Z) : Z :=
  match s with
  | c :: s => if is_digit c then digits s (10 * acc + (c - 48)) else acc
  | [] => acc
  end.
Definition number (s : list byte) : option Z :=
  match s with c :: _ => if is_digit c then Some (digits s 0) else None | [] => None end.
Fixpoint strto (s : list byte) : option Z :=
  match s with
  | c :: s' => if is_space c then strto s'
               else if c =? 45 then Z.opp <$> number s' else if c =? 43 then number s' else number s
  | [] => None
  end.

(** [std::stoull] throws when there is no number, or when it is too large;
    [atoi] gives 0 when there is none. *)
Definition stoull (s : list byte) : res Z :=
  match strto s with
  | Some v => if Z.abs v <? 2 ^ 64 then Ok (wrap 64 v) else Fail ERange
  | None => Fail ERange
  end.
Definition atoi (s : list byte) : res Z :=
  match strto s with
  | Some v => defined ((- 2 ^ 31 <=? v) && (v <? 2 ^ 31)) ;; Ok v
  | None => Ok 0
  end.

Lemma to_digits_app fuel n r r' : to_digits fuel n r ++ r' = to_digits fuel n (r ++ r').
Proof.
  revert n r. induction fuel as [|fuel IH]; intros n r; cbn [to_digits]; [done|].
  destruct (n / 10 =? 0); [done|]. by rewrite IH.
Qed.

Lemma is_digit_mod n : is_digit (48 + n `mod` 10) = true.
Proof. unfold is_digit. pose proof (Z.mod_pos_bound n 10 ltac:(lia)). apply andb_true_iff. split; apply Z.leb_le; lia. Qed.

Lemma digits_to fuel n rest : 0 <= n < 10 ^ Z.of_nat fuel → digits (to_digits fuel n rest) 0 = digits rest n.
Proof.
  revert n rest. induction fuel as [|fuel IH]; intros n rest Hn; cbn [to_digits]; [f_equal; lia|].
  rewrite Nat2Z.inj_succ, Z.pow_succ_r in Hn by lia.
  pose proof (Z.div_mod n 10 ltac:(lia)) as E. pose proof (Z.mod_pos_bound n 10 ltac:(lia)) as Hm.
  assert (Hd : ∀ m, digits ((48 + n `mod` 10) :: rest) m = digits rest (10 * m + n `mod` 10)).
  { intros m. cbn [digits]. rewrite is_digit_mod. f_equal. lia. }
  destruct (Z.eqb_spec (n / 10) 0) as [E0|E0]; [rewrite Hd; f_equal; lia|].
  rewrite IH, Hd by (split; [apply Z.div_pos; lia|apply Z.div_lt_upper_bound; lia]). f_equal. lia.
Qed.

Lemma to_digits_head fuel n rest : (0 < fuel)%nat → ∃ c l, to_digits fuel n rest = c :: l ∧ is_digit c = true.
Proof.
  revert n rest. induction fuel as [|fuel IH]; intros n rest Hf; [lia|]. cbn [to_digits].
  destruct (n / 10 =? 0) eqn:E; [eexists _, _; split; [done|apply is_digit_mod]|].
  destruct fuel as [|fuel]; [cbn; eexists _, _; split; [done|apply is_digit_mod]|]. apply IH. lia.
Qed.

Lemma digit_not_sign c : is_digit c = true → is_space c = false ∧ (c =? 45) = false ∧ (c =? 43) = false.
Proof.
  unfold is_digit, is_space. rewrite andb_true_iff, !Z.leb_le. intros [H1 H2].
  rewrite !(proj2 (Z.eqb_neq _ _)), orb_false_l by lia. split; [|done]. apply andb_false_iff. right. apply Z.leb_gt. lia.
Qed.

Lemma strto_to_string n rest : 0 <= n < 2 ^ 64 → number rest = None → strto (to_string n ++ rest) = Some n.
Proof.
  intros Hn Hr. unfold to_string. rewrite to_digits_app. cbn [app].
  destruct (to_digits_head 20 n rest ltac:(lia)) as (c & l & E & Hc). pose proof (digits_to 20 n rest ltac:(lia)) as Hd.
  rewrite E in *. destruct (digit_not_sign c Hc) as (H1 & H2 & H3). cbn [strto number]. rewrite H1, H2, H3, Hc, Hd. f_equal.
  destruct rest as [|c' rest]; [done|]. cbn [number digits] in *. by destruct (is_digit c').
Qed.

Lemma stoull_to_string n : 0 <= n < 2 ^ 64 → stoull (to_string n) = Ok n.
Proof.
  intros Hn. unfold stoull. rewrite <- (app_nil_r (to_string n)), strto_to_string by done.
  rewrite (proj2 (Z.ltb_lt _ _)) by lia. f_equal. by apply wrap_small.
Qed.

Lemma to_string_inj n m : 0 <= n < 2 ^ 64 → 0 <= m < 2 ^ 64 → to_string n = to_string m → n = m.
Proof. intros Hn Hm E. apply (f_equal stoull) in E. rewrite !stoull_to_string in E by done. congruence. Qed.

(** ** memcached

    [mc_value] is what a get finds; set stores; increment adds to a value that
    is the decimal text of an unsigned integer, and fails when there is none. *)
Class Memcached := {
  memc : Type;
  mc_value : list byte → memc → option (list byte);
  mc_set : list byte → list byte → memc → memc;
  mc_increment : list byte → Z → memc → option (Z * memc);
  mc_value_set k v s k' : mc_value k' (mc_set k v s) = if decide (k' = k) then Some v else mc_value k' s;
  mc_increment_missing k d s : mc_value k s = None → mc_increment k d s = None;
  mc_increment_value k d s n :
    mc_value k s = Some (to_string n) → 0 <= n → 0 <= d → n + d < 2 ^ 64 →
    ∃ s', mc_increment k d s = Some (n + d, s') ∧
      ∀ k', mc_value k' s' = if decide (k' = k) then Some (to_string (n + d)) else mc_value k' s
}.

(** A server that obeys the laws. *)
#[refine] Instance memcached_model : Memcached := {|
  memc := gmap (list byte) (list byte);
  mc_value k s := s !! k;
  mc_set k v s := <[k := v]> s;
  mc_increment k d s :=
    match s !! k with
    | Some v => match strto v with Some n => Some (wrap 64 (n + d), <[k := to_string (wrap 64 (n + d))]> s) | None => None end
    | None => None
    end
|}.
Proof.
  - intros k v s k'. rewrite lookup_insert. by repeat case_decide; subst.
  - by intros k d s ->.
  - intros k d s n -> Hn Hd Hlt. rewrite <- (app_nil_r (to_string n)), strto_to_string by (done || lia).
    rewrite wrap_small by (done || unfold uint; lia). eexists. split; [done|]. intros k'. rewrite lookup_insert.
    by repeat case_decide; subst.
Defined.

(** ** Keeper *)
Section keeper.
Context `{Memcached}.

Definition memSet (k v : list byte) : proc memc unit := atomic (λ s, (tt, mc_set k v s)).
Definition memGet (k : list byte) : proc memc (list byte) :=
  Act (λ s, match mc_value k s with Some v => Some (s, Return v) | None => None end).
Definition memFetchAndAdd (k : list byte) : proc memc Z :=
  Act (λ s, match mc_increment k 1 s with Some (v, s') => Some (s', Return v) | None => None end).

Definition SERVER_NUM_KEY : list byte := text "serverNum".

(** [serverEnter]: the node id, without STATIC_MN_IP and with it. *)
Definition serverEnter : proc memc Z := serverNum ← memFetchAndAdd SERVER_NUM_KEY; mret (wrap 16 (serverNum - 1)).

Definition last_part (ip : list byte) : list byte :=
  match list_find (eq 46) (reverse ip) with Some (i, _) => drop (length ip - i) ip | None => ip end.
Definition serverEnter_ip (ip : list byte) : proc memc Z :=
  memFetchAndAdd SERVER_NUM_KEY ;;
  n ← pure (atoi (last_part ip));
  mret (wrap 16 (n - 1)).

(** ** DSMKeeper *)

(** The loop of [barrier] ends when the counter has the number of servers. *)
Definition barrier_wait (key : list byte) (serverNR : Z) : proc memc unit :=
  Act (λ s, match mc_value key s with
            | Some str => match stoull str with
                          | Ok v => if v =? serverNR then Some (s, Return tt) else None
                          | Fail e => Some (s, Crash e)
                          end
            | None => None
            end).

Definition barrier_key (barrierKey : list byte) : list byte := text "barrier-" ++ barrierKey.

Definition barrier (myNodeID maxServer : Z) (barrierKey : list byte) : proc memc unit :=
  let key := barrier_key barrierKey in
  (if myNodeID =? 0 then memSet key (text "0") else mret tt) ;;
  memFetchAndAdd key ;;
  barrier_wait key (wrap 16 maxServer).

(** [sum]: the loop of node 0 over the servers. *)
Fixpoint sum_loop (n : nat) (i : Z) (key_prefix : list byte) (ret : Z) : proc memc Z :=
  match n with
  | O => mret ret
  | S n =>
    v ← memGet (key_prefix ++ to_string i);
    w ← pure (defined (8 <=? Z.of_nat (length v)) ;; Ok (le_int (take 8 v)));
    sum_loop n (i + 1) key_prefix (ret +[64] w)
  end.

Definition sum_prefix (sum_key : list byte) : list byte := text "sum-" ++ sum_key.

Definition sum (myNodeID maxServer : Z) (sum_key : list byte) (value : Z) : proc memc Z :=
  let key_prefix := sum_prefix sum_key in
  memSet (key_prefix ++ to_string myNodeID) (le_bytes 8 value) ;;
  if myNodeID =? 0 then sum_loop (Z.to_nat (wrap 16 maxServer)) 0 key_prefix 0 else mret 0.

(** [DSM::sum]: the [count]-th call. *)
Definition dsm_sum_key (count : Z) : list byte := text "sum-" ++ to_string count.
Definition dsm_sum (myNodeID maxServer count value : Z) : proc memc Z := sum myNodeID maxServer (dsm_sum_key count) value.
End keeper.

(** ** serverEnter

    Servers that start together, on the counter that script/restartMemc.sh sets
    to zero: after [k] steps [k] of them have entered. *)
Section enter.
Context `{Memcached}.

Lemma enter_step (n : nat) s f s' p' :
  Z.of_nat n < 2 ^ 16 → mc_value SERVER_NUM_KEY s = Some (to_string (Z.of_nat n)) →
  serverEnter = Act f → f s = Some (s', p') →
  p' = Return (Z.of_nat n) ∧ mc_value SERVER_NUM_KEY s' = Some (to_string (Z.of_nat (S n))).
Proof.
  intros Hn Hv Ef Hf. injection Ef as Ef. subst f.
  destruct (mc_increment_value SERVER_NUM_KEY 1 s (Z.of_nat n)) as (s2 & E & Hs2); [done|lia..|].
  rewrite E in Hf. cbn - [SERVER_NUM_KEY] in Hf. injection Hf as <- <-. rewrite Hs2, decide_True by done.
  split; [|do 2 f_equal; lia]. unfold mret, proc_ret. f_equal. rewrite wrap_small; unfold uint; lia.
Qed.

Lemma enter_steps (n k : nat) s ps s' :
  Z.of_nat n < 2 ^ 16 → mc_value SERVER_NUM_KEY s = Some (text "0") →
  nsteps pool_step k (replicate n serverEnter, s) (ps, s') →
  (k <= n)%nat ∧ mc_value SERVER_NUM_KEY s' = Some (to_string (Z.of_nat k)) ∧
  ps ≡ₚ (Return ∘ Z.of_nat <$> seq 0 k) ++ replicate (n - k) serverEnter.
Proof.
  intros Hn H0. revert ps s'. induction k as [|k IH]; intros ps s' Hk.
  { inversion Hk; subst. rewrite Nat.sub_0_r. split_and!; [lia|done|done]. }
  apply nsteps_inv_r in Hk as ([ps1 s1] & Hk & Hstep). destruct (IH _ _ Hk) as (Hle & Hv & Hp).
  inversion Hstep as [? ? i f ? p' Hi Hf]; subst.
  assert (Hin : Act f ∈ (Return ∘ Z.of_nat <$> seq 0 k) ++ replicate (n - k) serverEnter).
  { rewrite <- Hp. by eapply list_elem_of_lookup_2. }
  apply elem_of_app in Hin as [Hin|Hin]; [apply list_elem_of_fmap in Hin as (? & ? & _); done|].
  pose proof (elem_of_replicate_inv _ _ _ Hin) as Ef. destruct (n - k)%nat as [|r] eqn:Er; [by apply not_elem_of_nil in Hin|].
  destruct (enter_step k s1 f s' p') as [-> Hv']; [lia|done|done|done|].
  replace (n - S k)%nat with r by lia. split_and!; [lia|done|].
  rewrite (insert_perm ps1 ((Return ∘ Z.of_nat <$> seq 0 k) ++ replicate r serverEnter) i _ _ Hi).
  - rewrite seq_S, fmap_app. cbn. by rewrite <- app_assoc, Permutation_middle.
  - rewrite Hp, Ef. cbn. by rewrite Permutation_middle.
Qed.

(** The ids are handed out in order: whichever servers step, after [k]
    steps exactly [k] servers have returned, with the ids [0] to [k - 1], each
    id once; the others have not stepped, and each of them can. *)
Theorem serverEnter_ids (n k : nat) s ps s' :
  Z.of_nat n < 2 ^ 16 → mc_value SERVER_NUM_KEY s = Some (text "0") →
  nsteps pool_step k (replicate n serverEnter, s) (ps, s') →
  ps ≡ₚ (Return ∘ Z.of_nat <$> seq 0 k) ++ replicate (n - k) serverEnter ∧
  (k <= n)%nat ∧ (k < n → ∃ c, pool_step (ps, s') c)%nat.
Proof.
  intros Hn H0 Hk. destruct (enter_steps n k s ps s' Hn H0 Hk) as (Hle & Hv & Hp).
  split_and!; [done|done|]. intros Hlt.
  assert (Hin : serverEnter ∈ ps). { rewrite Hp, elem_of_app, elem_of_replicate. right. split; [done|lia]. }
  apply list_elem_of_lookup_1 in Hin as [i Hi].
  destruct (mc_increment_value SERVER_NUM_KEY 1 s' (Z.of_nat k)) as (s2 & E & _); [done|lia..|].
  eexists. eapply pool_act; [exact Hi|]. cbn - [SERVER_NUM_KEY]. by rewrite E.
Qed.

Lemma last_part_app net l : Forall (λ c, 46 ≠ c) l → last_part (net ++ 46 :: l) = l.
Proof.
  intros Hl. unfold last_part. rewrite reverse_app, reverse_cons, <- app_assoc.
  rewrite list_find_app_r.
  2:{ apply list_find_None. by apply Forall_reverse. }
  cbn [fmap]. cbn. rewrite length_reverse, cons_middle, app_assoc.
  apply drop_app_length'. rewrite !length_app. cbn. lia.
Qed.

Lemma to_digits_all fuel n rest (P : byte → Prop) :
  (∀ c, is_digit c = true → P c) → Forall P rest → Forall P (to_digits fuel n rest).
Proof.
  intros HP. revert n rest. induction fuel as [|fuel IH]; intros n rest Hr; cbn [to_digits]; [done|].
  destruct (n / 10 =? 0); [|apply IH]; (constructor; [apply HP, is_digit_mod|done]).
Qed.

(** In the default build the address [net.(i + 1)] gives the id [i]. *)
Lemma serverEnter_ip_id net i s v :
  0 <= i < 2 ^ 16 → mc_value SERVER_NUM_KEY s = Some (to_string v) → 0 <= v < 2 ^ 32 →
  wpr (serverEnter_ip (net ++ 46 :: to_string (i + 1))) s (λ id s', id = i ∧ mc_value SERVER_NUM_KEY s' = Some (to_string (v + 1))).
Proof.
  intros Hi Hv Hv0. destruct (mc_increment_value SERVER_NUM_KEY 1 s v) as (s2 & E & Hs2); [done|lia..|].
  apply wpr_bind. unfold memFetchAndAdd. exists (v + 1), s2. cbn - [SERVER_NUM_KEY]. rewrite E. split; [done|].
  rewrite last_part_app.
  2:{ apply to_digits_all; [|done]. intros c Hc <-. done. }
  apply wpr_bind. unfold atoi. rewrite <- (app_nil_r (to_string _)), strto_to_string by (done || lia).
  eapply wpr_pure.
  - rewrite (proj2 (Z.leb_le _ _)), (proj2 (Z.ltb_lt _ _)) by lia. done.
  - apply wpr_ret. split; [rewrite wrap_small; unfold uint; lia|]. by rewrite Hs2, decide_True.
Qed.
End enter.

(** ** The barrier *)
Inductive barrier_stage : Set := BSet | BIncrement | BWait | BPassed | BCrash (e : error).
#[export] Instance barrier_stage_eq_dec : EqDecision barrier_stage.
Proof. solve_decision. Defined.

Definition barrier_rank (t : barrier_stage) : nat :=
  match t with BSet => 3 | BIncrement => 2 | BWait => 1 | BPassed | BCrash _ => 0 end.

(** The servers whose increment is done. *)
Definition arrived (t : barrier_stage) : nat := match t with BWait | BPassed => 1 | _ => 0 end.

Section barrier.
Context `{Memcached} (key : list byte) (n : Z).
Hypothesis n_range : 0 < n < 2 ^ 16.

Definition barrier_code (t : barrier_stage) : proc memc unit :=
  let key := barrier_key key in
  match t with
  | BSet => memSet key (text "0") ;; memFetchAndAdd key ;; barrier_wait key (wrap 16 n)
  | BIncrement => memFetchAndAdd key ;; barrier_wait key (wrap 16 n)
  | BWait => barrier_wait key (wrap 16 n)
  | BPassed => Return tt
  | BCrash e => Crash e
  end.

Definition barrier_trans (t : barrier_stage) (s : memc) : option (memc * barrier_stage) :=
  let key := barrier_key key in
  match t with
  | BSet => Some (mc_set key (text "0") s, BIncrement)
  | BIncrement => match mc_increment key 1 s with Some (_, s') => Some (s', BWait) | None => None end
  | BWait => match mc_value key s with
             | Some str => match stoull str with
                           | Ok v => if v =? wrap 16 n then Some (s, BPassed) else None
                           | Fail e => Some (s, BCrash e)
                           end
             | None => None
             end
  | _ => None
  end.

Lemma barrier_staged : staged barrier_code barrier_trans.
Proof.
  intros [] s; cbn; try done.
  - by destruct (mc_increment _ _ _) as [[]|].
  - destruct (mc_value _ s) as [str|]; [|done]. destruct (stoull str) as [v|]; [|done]. by destruct (v =? _).
Qed.

(** The counter has the number of servers that arrived, once node 0 has set
    it; who passed found it at [n]. *)
Record barrier_inv (ts : list barrier_stage) (s : memc) : Prop := {
  bi_length : Z.of_nat (length ts) = n;
  bi_first : ∀ i : nat, ts !! i = Some BSet → i = O;
  bi_count : mc_value (barrier_key key) s = if decide (ts !! O = Some BSet) then None else Some (to_string (Z.of_nat (ranks arrived ts)));
  bi_none : ts !! O = Some BSet → ranks arrived ts = 0%nat;
  bi_passed : ∀ i : nat, ts !! i = Some BPassed → Z.of_nat (ranks arrived ts) = n;
  bi_no_crash : ∀ (i : nat) e, ts !! i ≠ Some (BCrash e)
}.

Lemma arrived_le ts : (ranks arrived ts <= length ts)%nat.
Proof. unfold ranks. induction ts as [|[] ts IH]; cbn; lia. Qed.

Lemma arrived_all ts (i : nat) t : ranks arrived ts = length ts → ts !! i = Some t → t = BWait ∨ t = BPassed.
Proof.
  intros Hr Hi. pose proof (ranks_insert arrived ts i t BWait Hi). pose proof (arrived_le (<[i:=BWait]> ts)) as Hle.
  rewrite length_insert in Hle. destruct t; cbn in *; auto; lia.
Qed.

Lemma barrier_step ts s (i : nat) t s' t' :
  barrier_inv ts s → ts !! i = Some t → barrier_trans t s = Some (s', t') →
  barrier_inv (<[i:=t']> ts) s' ∧ (barrier_rank t' < barrier_rank t)%nat.
Proof.
  intros [Hl Hf Hc H0 Hp Hx] Hi Ht. pose proof (lookup_lt_Some _ _ _ Hi) as Hlt.
  pose proof (ranks_insert arrived ts i t t' Hi) as Hr.
  pose proof (arrived_le (<[i:=t']> ts)) as Hle. rewrite length_insert in Hle. pose proof (arrived_le ts) as Hle0.
  assert (Hlk : ∀ j u, <[i:=t']> ts !! j = Some u → (j = i ∧ u = t') ∨ (j ≠ i ∧ ts !! j = Some u)).
  { intros j u [(<- & <- & _)|[Hne Hj]]%list_lookup_insert_Some; [by left|right; done]. }
  assert (H0' : <[i:=t']> ts !! O = Some BSet ↔ i ≠ O ∧ ts !! O = Some BSet ∨ i = O ∧ t' = BSet).
  { split; [intros [[-> <-]|[]]%Hlk; auto|]. intros [[Hne HB]|[-> ->]]; [by rewrite list_lookup_insert_ne|by apply list_lookup_insert_eq]. }
  destruct t; cbn in Ht; try done.
  - injection Ht as <- <-. pose proof (Hf _ Hi). subst i. cbn in Hr. split; [|cbn; lia]. split.
    + by rewrite length_insert.
    + intros j [[-> _]|[_ Hj]]%Hlk; [done|by apply Hf].
    + rewrite mc_value_set, decide_True by done. rewrite decide_False by (rewrite H0'; naive_solver).
      rewrite Nat.add_0_r, Nat.add_0_r in Hr. rewrite Hr, H0 by done. done.
    + rewrite H0'. naive_solver.
    + intros j [[_ [=]]|[_ Hj]]%Hlk. specialize (Hp _ Hj). rewrite H0 in Hp by done. lia.
    + intros j e [[_ [=]]|[_ Hj]]%Hlk. by apply (Hx j e).
  - destruct (decide (ts !! O = Some BSet)) as [HB|HB]; [by rewrite mc_increment_missing in Ht|].
    destruct (mc_increment_value _ 1 s (Z.of_nat (ranks arrived ts)) Hc) as (s2 & E & Hs2); [lia..|].
    rewrite E in Ht. injection Ht as <- <-. cbn in Hr. split; [|cbn; lia]. split.
    + by rewrite length_insert.
    + intros j [[-> [=]]|[_ Hj]]%Hlk. by apply Hf.
    + rewrite Hs2, decide_True by done. rewrite decide_False by (rewrite H0'; naive_solver). do 2 f_equal. lia.
    + rewrite H0'. naive_solver.
    + intros j [[_ [=]]|[_ Hj]]%Hlk. specialize (Hp _ Hj). lia.
    + intros j e [[_ [=]]|[_ Hj]]%Hlk. by apply (Hx j e).
  - destruct (decide (ts !! O = Some BSet)) as [HB|HB]; [by rewrite Hc in Ht|].
    rewrite Hc, stoull_to_string in Ht by lia. rewrite wrap_small in Ht by (unfold uint; lia).
    destruct (Z.eqb_spec (Z.of_nat (ranks arrived ts)) n) as [Hn|]; [|done].
    injection Ht as <- <-. cbn in Hr. split; [|cbn; lia].
    assert (Hr' : ranks arrived (<[i:=BPassed]> ts) = ranks arrived ts) by lia. split; rewrite ?Hr'.
    + by rewrite length_insert.
    + intros j [[-> [=]]|[_ Hj]]%Hlk. by apply Hf.
    + rewrite decide_False by (rewrite H0'; naive_solver). done.
    + rewrite H0'. naive_solver.
    + done.
    + intros j e [[_ [=]]|[_ Hj]]%Hlk. by apply (Hx j e).
Qed.

(** Somebody can step until everybody has passed. *)
Lemma barrier_progress ts s :
  barrier_inv ts s → (∀ i t, ts !! i = Some t → t = BPassed) ∨ ∃ i t, ts !! i = Some t ∧ is_Some (barrier_trans t s).
Proof.
  intros [Hl Hf Hc H0 Hp Hx]. destruct (decide (ts !! O = Some BSet)) as [HB|HB]; [right; exists O, BSet; by split|].
  pose proof (arrived_le ts) as Hle.
  destruct (decide (BIncrement ∈ ts)) as [[i Hi]%list_elem_of_lookup_1|HnI].
  { right. exists i, BIncrement. split; [done|]. cbn.
    destruct (mc_increment_value _ 1 s (Z.of_nat (ranks arrived ts)) Hc) as (s2 & -> & _); [lia..|]. done. }
  assert (Hall : ranks arrived ts = length ts).
  { assert (Ht : ∀ i t, ts !! i = Some t → arrived t = 1%nat).
    { intros i [] Hi; try done; [by rewrite (Hf _ Hi) in Hi|by eapply list_elem_of_lookup_2 in Hi|by destruct (Hx _ _ Hi)]. }
    clear - Ht. unfold ranks. induction ts as [|u ts IH]; [done|]. cbn.
    rewrite (Ht O u), IH; [done| |done]. intros i. apply (Ht (S i)). }
  destruct (decide (BWait ∈ ts)) as [[i Hi]%list_elem_of_lookup_1|HnW].
  - right. exists i, BWait. split; [done|]. cbn. rewrite Hc, stoull_to_string by lia.
    rewrite Hall, Hl, wrap_small, Z.eqb_refl by (unfold uint; lia). done.
  - left. intros i [] Hi; try done; [by rewrite (Hf _ Hi) in Hi|by eapply list_elem_of_lookup_2 in Hi..|by destruct (Hx _ _ Hi)].
Qed.

Lemma barrier_start s :
  mc_value (barrier_key key) s = None →
  ∃ ts, (λ i, barrier (Z.of_nat i) n key) <$> seq 0 (Z.to_nat n) = barrier_code <$> ts ∧
    barrier_inv ts s ∧ (ranks barrier_rank ts = 2 * Z.to_nat n + 1)%nat.
Proof.
  intros Hs. exists (BSet :: replicate (Z.to_nat n - 1) BIncrement).
  destruct (Z.to_nat n) as [|m] eqn:En; [lia|]. rewrite Nat.sub_succ, Nat.sub_0_r.
  assert (Hr : ∀ f, ranks f (BSet :: replicate m BIncrement) = (f BSet + m * f BIncrement)%nat).
  { intros f. unfold ranks. cbn. f_equal. clear. induction m; cbn; lia. }
  split_and!; [| |rewrite Hr; cbn; lia].
  - cbn [seq fmap list_fmap]. f_equal. rewrite fmap_replicate. symmetry. apply replicate_as_elem_of.
    rewrite length_fmap, length_seq. split; [done|]. intros p (i & -> & Hi)%list_elem_of_fmap.
    apply elem_of_seq in Hi. by destruct i; [lia|].
  - split.
    + cbn. rewrite length_replicate. lia.
    + intros [|i]; [done|]. cbn. intros [? _]%lookup_replicate. done.
    + by rewrite decide_True.
    + intros _. rewrite Hr. cbn. lia.
    + intros [|i]; [done|]. cbn. intros [? _]%lookup_replicate. done.
    + intros [|i] e; [done|]. cbn. intros [? _]%lookup_replicate. done.
Qed.
End barrier.

(** C21. The barrier of [n] servers, on a key that is not in use: whichever
    servers step, nobody returns before every server has counted itself, the
    servers take at most [2 * n + 1] steps, and as long as somebody has not
    returned somebody can step: all of them get through. *)
Theorem barrier_meets `{Memcached} key n s k ps s' :
  0 < n < 2 ^ 16 → mc_value (barrier_key key) s = None →
  nsteps pool_step k ((λ i, barrier (Z.of_nat i) n key) <$> seq 0 (Z.to_nat n), s) (ps, s') →
  (Return tt ∈ ps → ∀ p, p ∈ ps → p = barrier_wait (barrier_key key) (wrap 16 n) ∨ p = Return tt) ∧
  (k <= 2 * Z.to_nat n + 1)%nat ∧
  ((∀ p, p ∈ ps → p = Return tt) ∨ ∃ c, pool_step (ps, s') c).
Proof.
  intros Hn Hs Hk. destruct (barrier_start key n Hn s Hs) as (ts & E & HI & Hr). rewrite E in Hk.
  destruct (staged_runs _ _ _ (barrier_inv key n) _ _ _ _ _ (barrier_staged key n) (barrier_step key n Hn) HI Hk)
    as (ts' & -> & HI' & _ & Hk'). split_and!; [|lia|].
  - intros (t & Et & Ht)%list_elem_of_fmap. destruct t; try done. apply list_elem_of_lookup_1 in Ht as [i Hi].
    intros p (u & -> & [j Hj]%list_elem_of_lookup_1)%list_elem_of_fmap.
    destruct (arrived_all ts' j u) as [->| ->]; [|done|by left|by right].
    pose proof (bi_passed _ _ _ _ HI' i Hi). pose proof (bi_length _ _ _ _ HI'). lia.
  - destruct (barrier_progress key n Hn ts' s' HI') as [Hall|(i & t & Hi & Ht)].
    + left. intros p (u & -> & [j Hj]%list_elem_of_lookup_1)%list_elem_of_fmap. by rewrite (Hall _ _ Hj).
    + right. eapply staged_can_step; [apply barrier_staged|exact Hi|exact Ht].
Qed.

(** ** The sum *)
Inductive sum_stage : Set := SPut (i : nat) | SGet (m j : nat) (ret : Z) | SCrash (e : error).
#[export] Instance sum_stage_eq_dec : EqDecision sum_stage.
Proof. solve_decision. Defined.

Section sum.
Context `{Memcached} (sum_key : list byte) (n : nat) (value : nat → Z).
Hypothesis n_range : Z.of_nat n < 2 ^ 16.
Hypothesis value_range : ∀ i, uint 64 (value i).

Definition sum_server_key (i : nat) : list byte := sum_prefix sum_key ++ to_string (Z.of_nat i).

(** The sum of the values of the first servers, as [uint64_t]. *)
Definition total (j : nat) : Z := wrap 64 (sum_of value (seq 0 j)).

Definition sum_rank (t : sum_stage) : nat := match t with SPut O => S n | SPut _ => 1 | SGet m _ _ => m | SCrash _ => 0 end.

Definition sum_code (t : sum_stage) : proc memc Z :=
  match t with
  | SPut i => sum (Z.of_nat i) (Z.of_nat n) sum_key (value i)
  | SGet m j ret => sum_loop m (Z.of_nat j) (sum_prefix sum_key) ret
  | SCrash e => Crash e
  end.

Definition sum_trans (t : sum_stage) (s : memc) : option (memc * sum_stage) :=
  match t with
  | SPut i => Some (mc_set (sum_server_key i) (le_bytes 8 (value i)) s, if decide (i = O) then SGet n 0 0 else SGet 0 0 0)
  | SGet (S m) j ret =>
    match mc_value (sum_server_key j) s with
    | Some v => Some (s, match defined (8 <=? Z.of_nat (length v)) ;; Ok (le_int (take 8 v)) with
                         | Ok w => SGet m (S j) (ret +[64] w)
                         | Fail e => SCrash e
                         end)
    | None => None
    end
  | _ => None
  end.

Lemma sum_staged : staged sum_code sum_trans.
Proof.
  intros [i|[|m] j ret|e] s; cbn; try done.
  - destruct i as [|i]; cbn; [|done]. rewrite wrap_small by (unfold uint; lia). by rewrite Nat2Z.id.
  - unfold sum_server_key. destruct (mc_value _ s) as [v|]; [|done]. cbn. destruct (defined _); cbn; [|done].
    by replace (Z.of_nat j + 1) with (Z.of_nat (S j)) by lia.
Qed.

Lemma sum_server_key_inj i j : (i < n)%nat → (j < n)%nat → sum_server_key i = sum_server_key j → i = j.
Proof. intros Hi Hj E. apply app_inv_head, to_string_inj in E; lia. Qed.

(** A server that has stored its value is done, node 0 after the loop. *)
Definition sum_at (s : memc) (i : nat) (t : sum_stage) : Prop :=
  (t = SPut i ∧ mc_value (sum_server_key i) s = None) ∨
  (mc_value (sum_server_key i) s = Some (le_bytes 8 (value i)) ∧
   ∃ m j, t = SGet m j (total j) ∧ (i = O ∧ (m + j = n)%nat ∨ i ≠ O ∧ m = O ∧ j = O)).

Definition sum_inv (ts : list sum_stage) (s : memc) : Prop :=
  length ts = n ∧ ∀ (i : nat) t, ts !! i = Some t → sum_at s i t.

Lemma sum_step ts s (i : nat) t s' t' :
  sum_inv ts s → ts !! i = Some t → sum_trans t s = Some (s', t') →
  sum_inv (<[i:=t']> ts) s' ∧ (sum_rank t' < sum_rank t)%nat.
Proof.
  intros [Hl Hat] Hi Ht. pose proof (lookup_lt_Some _ _ _ Hi) as Hlt.
  destruct (Hat i t Hi) as [[-> Hk]|(Hk & m & j & -> & Hmj)]; cbn in Ht.
  - injection Ht as <- <-. split; [|case_decide; destruct i; cbn; lia]. split; [by rewrite length_insert|].
    intros i' u [(<- & <- & _)|[Hne Hu]]%list_lookup_insert_Some.
    + right. rewrite mc_value_set, decide_True by done. split; [done|].
      case_decide; eexists _, 0%nat; (split; [by f_equal|]); [left|right]; lia.
    + pose proof (lookup_lt_Some _ _ _ Hu). unfold sum_at. rewrite mc_value_set, decide_False; [by apply Hat|].
      intros E. apply sum_server_key_inj in E; lia.
  - destruct m as [|m]; [done|]. destruct Hmj as [[-> Hmj]|[_ [? _]]]; [|done].
    destruct (mc_value (sum_server_key j) s) as [v|] eqn:Ej; [|done]. injection Ht as <- Et.
    destruct (lookup_lt_is_Some_2 ts j) as [u Hu]; [lia|].
    destruct (Hat j u Hu) as [[_ Hk']|[Hk' _]]; rewrite Ej in Hk'; [done|]. injection Hk' as ->.
    rewrite length_le_bytes, take_ge, le_int_bytes, Z.mod_small in Et by (rewrite ?length_le_bytes; first [done|lia|apply value_range]).
    change (SGet m (S j) (total j +[64] value j) = t') in Et. subst t'. split; [|cbn; lia]. split; [by rewrite length_insert|].
    intros i' u' [(<- & <- & _)|[Hne Hu']]%list_lookup_insert_Some; [|by apply Hat].
    right. split; [done|]. exists m, (S j). split; [|left; lia]. f_equal. unfold total.
    rewrite seq_S, sum_of_app, wrap_wrap_add_l, sum_of_cons. f_equal. unfold sum_of at 3. cbn [foldr Nat.add]. lia.
Qed.

Lemma sum_start s :
  (∀ i, (i < n)%nat → mc_value (sum_server_key i) s = None) →
  sum_inv (SPut <$> seq 0 n) s ∧ (ranks sum_rank (SPut <$> seq 0 n) <= 2 * n)%nat.
Proof.
  intros Hs. split; [split; [by rewrite length_fmap, length_seq|]|].
  - intros i t (j & -> & [-> Hj]%lookup_seq)%list_lookup_fmap_Some. left. split; [done|]. by apply Hs.
  - assert (Hr : ∀ k i, ranks sum_rank (SPut <$> seq (S i) k) = k).
    { unfold ranks. induction k as [|k IH]; intros i; [done|]. cbn. by rewrite IH. }
    assert (n = O ∨ seq 0 n = O :: seq 1 (pred n)) as [E|E] by (destruct n; auto); rewrite E; [cbn; lia|].
    specialize (Hr (pred n) O). unfold ranks in *. cbn in *. rewrite Hr. destruct n; [done|]. cbn. lia.
Qed.

Lemma sum_progress ts s :
  sum_inv ts s → (∀ (i : nat) t, ts !! i = Some t → ∃ j, t = SGet 0 j (total j)) ∨ ∃ i t, ts !! i = Some t ∧ is_Some (sum_trans t s).
Proof.
  intros [Hl Hat].
  assert (Hput : ∀ i : nat, ts !! i = Some (SPut i) → ∃ i t, ts !! i = Some t ∧ is_Some (sum_trans t s)).
  { intros i Hi. exists i, (SPut i). split; [done|]. cbn. by eexists. }
  destruct (ts !! O) as [t|] eqn:H0.
  2:{ left. intros i t Hi. pose proof (lookup_lt_Some _ _ _ Hi). apply lookup_ge_None in H0. lia. }
  destruct (Hat _ _ H0) as [[-> _]|(_ & m & j & -> & Hm)]; [right; by apply (Hput O)|].
  destruct m as [|m].
  - destruct (decide (Exists (λ i, ts !! i = Some (SPut i)) (seq 0 n))) as [(i & _ & Hi)%Exists_exists|Hno]; [right; by apply (Hput i)|].
    left. intros i t Hi. destruct (Hat _ _ Hi) as [[-> _]|(_ & m & j' & -> & Hm')].
    + destruct Hno. apply Exists_exists. exists i. split; [|done]. apply elem_of_seq. pose proof (lookup_lt_Some _ _ _ Hi). lia.
    + destruct Hm' as [[-> Hm']|(_ & -> & _)]; [|by exists j']. rewrite H0 in Hi. injection Hi as <- _. by exists j'.
  - right. destruct (lookup_lt_is_Some_2 ts j) as [u Hu]; [lia|].
    destruct (Hat _ _ Hu) as [[-> _]|(Hv & _)]; [by apply (Hput j)|].
    exists O, (SGet (S m) j (total j)). split; [done|]. cbn. rewrite Hv. by eexists.
Qed.
End sum.

(** C22. The sum of [n] servers, on a key that is not in use: when node 0
    returns, its result is the sum of all the values modulo 2^64; the servers
    take at most [2 * n] steps, and as long as somebody has not returned
    somebody can step. *)
Theorem sum_adds `{Memcached} sum_key n value s k ps s' :
  Z.of_nat n < 2 ^ 16 → (∀ i, uint 64 (value i)) →
  (∀ i, (i < n)%nat → mc_value (sum_server_key sum_key i) s = None) →
  nsteps pool_step k ((λ i : nat, sum (Z.of_nat i) (Z.of_nat n) sum_key (value i)) <$> seq 0 n, s) (ps, s') →
  (∀ r, ps !! O = Some (Return r) → r = wrap 64 (sum_of value (seq 0 n))) ∧
  (k <= 2 * n)%nat ∧
  ((∀ p, p ∈ ps → ∃ r, p = Return r) ∨ ∃ c, pool_step (ps, s') c).
Proof.
  intros Hn Hv Hs Hk. destruct (sum_start sum_key n value Hn s Hs) as [HI Hr].
  change (λ i : nat, _) with (sum_code sum_key n value ∘ SPut) in Hk. rewrite list_fmap_compose in Hk.
  destruct (staged_runs _ _ _ (sum_inv sum_key n value) _ _ _ _ _ (sum_staged sum_key n value Hn) (sum_step sum_key n value Hn Hv) HI Hk)
    as (ts & -> & HI' & _ & Hk'). split_and!; [|lia|].
  - intros r (t & Et & Ht)%list_lookup_fmap_Some.
    destruct (proj2 HI' _ _ Ht) as [[-> _]|(_ & m & j & -> & Hm)]; [done|]. destruct m as [|m]; [|done].
    injection Et as ->. unfold total. do 3 f_equal. lia.
  - destruct (sum_progress sum_key n value ts s' HI') as [Hall|(i & t & Hi & Ht)].
    + left. intros p (u & -> & [i Hi]%list_elem_of_lookup_1)%list_elem_of_fmap. destruct (Hall _ _ Hi) as [j ->]. by eexists.
    + right. eapply staged_can_step; [by apply sum_staged|exact Hi|exact Ht].
Qed.

(** ** DSM::sum

    The key of a value is "sum-sum-", the number of the call and the node id,
    with nothing between the two numbers. *)
Lemma sum_loop_run `{Memcached} sum_key value s m j ret :
  uint 64 ret → (∀ i, uint 64 (value i)) →
  (∀ i, (j <= i < j + m)%nat → mc_value (sum_server_key sum_key i) s = Some (le_bytes 8 (value i))) →
  run (sum_loop m (Z.of_nat j) (sum_prefix sum_key) ret) s = Ok (wrap 64 (ret + sum_of value (seq j m)), s).
Proof.
  intros Hr Hv. revert j ret Hr. induction m as [|m IH]; intros j ret Hr Hk; cbn [sum_loop].
  { cbn. by rewrite Z.add_0_r, wrap_small. }
  erewrite run_bind_Ok by (cbn; fold (sum_server_key sum_key j); rewrite (Hk j) by lia; done).
  erewrite run_bind_Ok; [|by rewrite run_pure, length_le_bytes, take_ge, le_int_bytes, Z.mod_small by (rewrite ?length_le_bytes; done || apply Hv)].
  replace (Z.of_nat j + 1) with (Z.of_nat (S j)) by lia.
  rewrite IH; [|by apply wrap_range|intros i Hi; apply Hk; lia]. do 2 f_equal.
  rewrite wrap_wrap_add_l. f_equal. cbn [seq]. rewrite sum_of_cons. lia.
Qed.

Lemma dsm_sum_key_collision `{Memcached} : sum_server_key (dsm_sum_key 1) 11 = sum_server_key (dsm_sum_key 11) 1.
Proof. by vm_compute. Qed.

(** C34. With twelve servers or more the twelfth sum can be wrong: the key of
    node 1 in it is the key of node 11 in the second sum. Node 0 does not wait
    for node 1: it returns with the old value of node 11 in its place. *)
Theorem dsm_sum_reads_old `{Memcached} (n : nat) (v : nat → Z) old s :
  (12 <= n)%nat → Z.of_nat n < 2 ^ 16 → (∀ i, uint 64 (v i)) → uint 64 old →
  mc_value (sum_server_key (dsm_sum_key 1) 11) s = Some (le_bytes 8 old) →
  (∀ i, (2 <= i < n)%nat → mc_value (sum_server_key (dsm_sum_key 11) i) s = Some (le_bytes 8 (v i))) →
  wpr (dsm_sum 0 (Z.of_nat n) 11 (v O)) s (λ r _, r = wrap 64 (v O + old + sum_of v (seq 2 (n - 2)))).
Proof.
  intros H12 Hn Hv Hold H11 Hs. set (value i := if decide (i = 1%nat) then old else v i).
  set (s1 := mc_set (sum_server_key (dsm_sum_key 11) 0) (le_bytes 8 (v O)) s).
  exists (wrap 64 (0 + sum_of value (seq 0 n))), s1. split.
  - unfold dsm_sum, sum. rewrite (run_bind_Ok _ _ s tt s1) by done. cbn [Z.eqb]. rewrite wrap_small, Nat2Z.id by (unfold uint; lia).
    apply (sum_loop_run (dsm_sum_key 11) value s1 n 0 0); [done| |].
    + intros i. unfold value. by case_decide.
    + intros i Hi. unfold s1. rewrite mc_value_set. unfold value.
      destruct i as [|[|i]]; [by rewrite decide_True| |];
        (rewrite decide_False; [|intros E; apply app_inv_head, to_string_inj in E; lia]).
      * rewrite decide_True by done. by rewrite <- dsm_sum_key_collision.
      * rewrite decide_False by done. apply Hs. lia.
  - destruct n as [|[|n]]; [lia..|]. rewrite (sum_of_ext v value (seq 2 _)).
    + replace (S (S n) - 2)%nat with n by lia. cbn [seq]. f_equal. rewrite !sum_of_cons.
      change (value O) with (v O). change (value 1%nat) with old. lia.
    + intros i Hi%elem_of_seq. unfold value. rewrite decide_False; [done|lia].
Qed.

(** ** Concrete servers *)
(** memcached after the first two sums of twelve servers and what nodes 2 to 11
    store for the twelfth. *)
Definition ex_store : memc :=
  foldr (λ i s, mc_set (sum_server_key (dsm_sum_key 11) i) (le_bytes 8 5) s)
        (mc_set (sum_server_key (dsm_sum_key 1) 11) (le_bytes 8 7) (∅ : gmap (list byte) (list byte)))
        (seq 2 10).

Lemma serverEnter_ids_witness :
  let s : memc := <[SERVER_NUM_KEY := text "0"]> (∅ : gmap (list byte) (list byte)) in
  ∃ ps s', nsteps pool_step 2 (replicate 3 serverEnter, s) (ps, s') ∧ ps !! 0%nat = Some (Return 1) ∧
    ps ≡ₚ (Return ∘ Z.of_nat <$> seq 0 2) ++ replicate 1 serverEnter.
Proof.
  intros s. destruct (returned_Some 0 [1; 0]%nat (replicate 3 serverEnter) s 1) as (ps & s' & Hk & Hi); [by vm_compute|].
  exists ps, s'. split_and!; [done|done|]. apply (serverEnter_ids 3 2 s ps s'); [lia|by vm_compute|done].
Defined.

Lemma barrier_meets_witness :
  let s : memc := (∅ : gmap (list byte) (list byte)) in
  let key := text "DSM-init" in
  ∃ ps s', nsteps pool_step 4 ((λ i, barrier (Z.of_nat i) 2 key) <$> seq 0 2, s) (ps, s') ∧
    ∀ p, p ∈ ps → p = barrier_wait (barrier_key key) (wrap 16 2) ∨ p = Return tt.
Proof.
  intros s key.
  destruct (returned_Some 0 [0; 0; 1; 0]%nat ((λ i, barrier (Z.of_nat i) 2 key) <$> seq 0 2) s tt) as (ps & s' & Hk & Hi);
    [by vm_compute|].
  exists ps, s'. split; [done|]. apply (barrier_meets key 2 s 4 ps s'); [lia|by vm_compute|done|].
  by eapply list_elem_of_lookup_2.
Defined.

Lemma sum_adds_witness :
  let s : memc := (∅ : gmap (list byte) (list byte)) in
  ∃ r, returned 0 (schedule [1; 0; 0; 0]%nat ((λ i : nat, sum (Z.of_nat i) 2 (text "a") (Z.of_nat i)) <$> seq 0 2) s) = Some r ∧
    r = wrap 64 (0 + (1 + 0)).
Proof.
  intros s. exists 1. split; [by vm_compute|].
  set (v (i : nat) := wrap 64 (Z.of_nat i)).
  destruct (returned_Some 0 [1; 0; 0; 0]%nat ((λ i : nat, sum (Z.of_nat i) 2 (text "a") (v i)) <$> seq 0 2) s 1) as (ps & s' & Hk & Hi);
    [by vm_compute|].
  apply (sum_adds (text "a") 2 v s 4 ps s'); [lia| |intros [|[|i]] Hi'; [by vm_compute..|lia]|done|done].
  intros i. apply wrap_range. lia.
Defined.

Lemma dsm_sum_reads_old_witness :
  ∃ s', run (dsm_sum 0 12 11 5) ex_store = Ok (wrap 64 (5 + 7 + sum_of (λ _, 5) (seq 2 10)), s').
Proof.
  destruct (dsm_sum_reads_old 12 (λ _, 5) 7 ex_store) as (r & s' & E & ->); [lia|lia|done|done|by vm_compute| |by exists s'].
  intros i Hi. do 12 (destruct i as [|i]; [first [lia|by vm_compute]|]). lia.
Defined.
