(* ===== verification/Connect.v ===== *)
(** * Bringing up the cluster (src/Keeper.cpp, src/DSMKeeper.cpp)

    Every server enters, and then connects to the others in the order of their
    ids: it leaves its description under a key of its own and waits for that of
    the other side. The servers run concurrently; the theorem is that none of
    them is stuck, and that the queue pairs end up connected in pairs. *)

From Stdlib Require Import ZArith Lia Bool Ascii String.
From stdpp Require Import base tactics decidable option numbers list relations.
From S2P Require Import Prelude.
From S2P Require Import Common.
From S2P Require Import Process.
From S2P Require Import QueuePair.
From S2P Require Import Exchange.
From S2P Require Import Keeper.

(** ** The code *)
Section connect.
Context `{Ibv} `{Memcached}.

Definition setKey (me remoteID : Z) : list byte := to_string me ++ text "-" ++ to_string remoteID.
Definition getKey (me remoteID : Z) : list byte := to_string remoteID ++ text "-" ++ to_string me.

(** [connectNode] after [setDataToRemote]. *)
Definition exchange (me remoteID : Z) (k : DSMKeeper) : proc memc DSMKeeper :=
  memSet (setKey me remoteID) (meta_bytes (localMeta k)) ;;
  remoteMeta ← memGet (getKey me remoteID);
  m ← pure (fst <$> read_meta remoteMeta);
  pure (setDataFromRemote remoteID m k).

Definition connectNode (me remoteID : Z) (k : DSMKeeper) : proc memc DSMKeeper :=
  k ← pure (setDataToRemote remoteID k); exchange me remoteID k.

(** The loop of [serverConnect] from server [r] on. *)
Fixpoint connect_loop (m : nat) (r me : Z) (k : DSMKeeper) : proc memc DSMKeeper :=
  match m with
  | O => mret k
  | S m => k ← (if r =? me then mret k else connectNode me (wrap 16 r) k); connect_loop m (r + 1) me k
  end.

(** The counter of the servers; a value that is the one known makes another
    round of the loop, which changes nothing. *)
Definition poll_servers (curServer : Z) : proc memc Z :=
  Act (λ s, match mc_value SERVER_NUM_KEY s with
            | Some str => match atoi str with
                          | Ok v => if wrap 32 v =? curServer then None else Some (s, Return (wrap 32 v))
                          | Fail e => Some (s, Crash e)
                          end
            | None => None
            end).

Fixpoint serverConnect (fuel : nat) (maxServer me curServer : Z) (k : DSMKeeper) : proc memc DSMKeeper :=
  if curServer <? maxServer then
    match fuel with
    | O => Crash EFuel
    | S fuel =>
      serverNum ← poll_servers curServer;
      k ← connect_loop (Z.to_nat (serverNum - curServer)) curServer me k;
      serverConnect fuel maxServer me (wrap 16 serverNum) k
    end
  else mret k.

Definition connectMySelf (me : Z) (k : DSMKeeper) : res DSMKeeper :=
  k ← setDataToRemote me k; setDataFromRemote me (localMeta k) k.

(** [myIP] is never set. *)
Definition initRouteRule (me : Z) : proc memc unit := memSet (text "SPre" ++ to_string me) [].

(** The constructor of [DSMKeeper], and what it leaves. *)
Definition startup (fuel : nat) (maxServer : Z) (ip : list byte) (k : DSMKeeper) : proc memc (Z * DSMKeeper) :=
  k ← pure (initLocalMeta k);
  me ← serverEnter_ip ip;
  k ← serverConnect fuel maxServer me 0 k;
  k ← pure (connectMySelf me k);
  initRouteRule me ;;
  mret (me, k).
End connect.

(** ** Keys *)
Lemma app_sep_inj (c : byte) (l1 l2 r1 r2 : list byte) :
  Forall (λ x, c ≠ x) l1 → Forall (λ x, c ≠ x) l2 → l1 ++ c :: r1 = l2 ++ c :: r2 → l1 = l2 ∧ r1 = r2.
Proof.
  intros H1. revert l2. induction H1 as [|x l1 Hx H1 IH]; intros l2 H2; destruct H2 as [|y l2 Hy H2]; cbn; intros E; simplify_eq; try done.
  by destruct (IH l2 H2) as [-> ->].
Qed.

Lemma to_string_no_dash n : Forall (λ x, 45 ≠ x) (to_string n).
Proof. apply to_digits_all; [|done]. by intros c Hc <-. Qed.

Lemma setKey_inj i r j q :
  0 <= i < 2 ^ 64 → 0 <= r < 2 ^ 64 → 0 <= j < 2 ^ 64 → 0 <= q < 2 ^ 64 → setKey i r = setKey j q → i = j ∧ r = q.
Proof.
  intros Hi Hr Hj Hq E. apply (app_sep_inj 45) in E as [E1 E2]; [|apply to_string_no_dash..].
  by apply to_string_inj in E1, E2.
Qed.

Lemma setKey_head i r : ∃ c l, setKey i r = c :: l ∧ is_digit c = true.
Proof.
  unfold setKey, to_string. destruct (to_digits_head 20 i [] ltac:(lia)) as (c & l & -> & Hc). by eexists _, _.
Qed.

Lemma setKey_not_server i r : setKey i r ≠ SERVER_NUM_KEY.
Proof. destruct (setKey_head i r) as (c & l & -> & Hc). by intros [= -> ->]. Qed.

Lemma setKey_not_route i r l : setKey i r ≠ text "SPre" ++ l.
Proof. destruct (setKey_head i r) as (c & l' & -> & Hc). by intros [= -> ->]. Qed.

(** ** What the servers reach *)
Section cluster.
Context `{Ibv} `{Memcached} (n : nat) (boot : nat → DSMKeeper).

(** The queue pair of a thread of [me] for server [r] talks to the one that the
    other side has for it. *)
Definition app_connected (me a d r : nat) (q : ibv_qp) : Prop :=
  ∃ qr c, dir_qp (boot r) d a me = Some qr ∧ dirCon (boot r) !! d = Some c ∧
    connected q (qp_num qr) (ctx_lid (d_ctx c)) (ctx_gid (d_ctx c)).
Definition dir_connected (me d a r : nat) (q : ibv_qp) : Prop :=
  ∃ qr c, app_qp (boot r) a d me = Some qr ∧ thCon (boot r) !! a = Some c ∧
    connected q (qp_num qr) (ctx_lid (t_ctx c)) (ctx_gid (t_ctx c)).

(** What server [me] knows of server [r]. *)
Definition knows (k : DSMKeeper) (r : nat) : Prop :=
  ∃ info, remoteCon k !! r = Some info ∧
    dsmRKey info = d_rkey <$> dirCon (boot r) ∧ appRKey info = t_rkey <$> thCon (boot r) ∧
    dirMessageQPN info = d_qpn <$> dirCon (boot r) ∧ appMessageQPN info = t_qpn <$> thCon (boot r) ∧
    ∀ c, dirCon (boot r) !! 0%nat = Some c → dsmBase info = d_dsmPool c ∧ lockBase info = d_lockPool c.

(** Server [me] is connected to the servers of [D]. *)
Record joined (me : nat) (D : nat → Prop) (k : DSMKeeper) : Prop := {
  jn_ok : keeper_ok n k;
  jn_meta : describes (boot me) (localMeta k);
  jn_threads : t_end <$> thCon k = t_end <$> thCon (boot me);
  jn_dirs : d_end <$> dirCon k = d_end <$> dirCon (boot me);
  jn_app a d r : option_Forall2 (λ q0 q, qp_num q = qp_num q0 ∧ (¬ D r → q = q0) ∧ (D r → app_connected me a d r q))
                   (app_qp (boot me) a d r) (app_qp k a d r);
  jn_dir d a r : option_Forall2 (λ q0 q, qp_num q = qp_num q0 ∧ (¬ D r → q = q0) ∧ (D r → dir_connected me d a r q))
                   (dir_qp (boot me) d a r) (dir_qp k d a r);
  jn_remote r : D r → knows k r
}.

(** What server [r] tells server [me]. *)
Definition told (r me : nat) (m : ExchangeMeta) : Prop := meta_ok m ∧ describes (boot r) m ∧ talks (boot r) me m.

Definition boot_ok : Prop := ∀ i, (i < n)%nat → keeper_ok n (boot i) ∧ ∀ r, fresh_for (boot i) r.

Lemma describes_same k k' m :
  t_end <$> thCon k = t_end <$> thCon k' → d_end <$> dirCon k = d_end <$> dirCon k' → describes k m ↔ describes k' m.
Proof.
  intros Ht Hd.
  assert (Hto : ∀ B (f : _ → B), f ∘ t_end <$> thCon k = f ∘ t_end <$> thCon k') by (intros; by rewrite !list_fmap_compose, Ht).
  assert (Hdo : ∀ B (f : _ → B), f ∘ d_end <$> dirCon k = f ∘ d_end <$> dirCon k') by (intros; by rewrite !list_fmap_compose, Hd).
  assert (Ht0 : ∀ B (f : _ → B), f ∘ t_end <$> thCon k !! 0%nat = f ∘ t_end <$> thCon k' !! 0%nat) by (intros; by rewrite <- !list_lookup_fmap, Hto).
  assert (Hd0 : ∀ B (f : _ → B), f ∘ d_end <$> dirCon k !! 0%nat = f ∘ d_end <$> dirCon k' !! 0%nat) by (intros; by rewrite <- !list_lookup_fmap, Hdo).
  split; intros []; split; by rewrite ?Hto, ?Hdo, ?Ht0, ?Hd0 || by rewrite <- ?Hto, <- ?Hdo, <- ?Ht0, <- ?Hd0.
Qed.

Lemma talks_same k k' r m :
  (∀ a d, qp_num <$> app_qp k a d r = qp_num <$> app_qp k' a d r) → (∀ d a, qp_num <$> dir_qp k d a r = qp_num <$> dir_qp k' d a r) →
  talks k r m → talks k' r m.
Proof. intros Ha Hd [H1 H2]. split; intros; [by rewrite H1, Ha|by rewrite H2, Hd]. Qed.

Lemma joined_start i : boot_ok → (i < n)%nat →
  ∃ k, initLocalMeta (boot i) = Ok k ∧ joined i (λ _, False) k.
Proof.
  intros Hb Hi. destruct (Hb i Hi) as [Hk _]. destruct (initLocalMeta_ok n (boot i) Hk) as (m & E & Hm & Hd).
  eexists. split; [exact E|]. destruct Hk. split; try done.
  - intros a d r. change (app_qp _ a d r) with (app_qp (boot i) a d r) at 2. destruct (app_qp (boot i) a d r); by constructor.
  - intros d a r. change (dir_qp _ d a r) with (dir_qp (boot i) d a r) at 2. destruct (dir_qp (boot i) d a r); by constructor.
Qed.

Lemma joined_same_numbers i D k r : joined i D k →
  (∀ a d, qp_num <$> app_qp k a d r = qp_num <$> app_qp (boot i) a d r) ∧ (∀ d a, qp_num <$> dir_qp k d a r = qp_num <$> dir_qp (boot i) d a r).
Proof.
  intros Hj. split.
  - intros a d. destruct (jn_app _ _ _ Hj a d r) as [? ? (E & _)|]; cbn; [by rewrite E|done].
  - intros d a. destruct (jn_dir _ _ _ Hj d a r) as [? ? (E & _)|]; cbn; [by rewrite E|done].
Qed.

(** Telling [r]: nothing but the description changes. *)
Lemma joined_tell i D k r : joined i D k → (r < n)%nat →
  ∃ k', setDataToRemote (Z.of_nat r) k = Ok k' ∧ joined i D k' ∧ told i r (localMeta k').
Proof.
  intros Hj Hr. pose proof (jn_ok _ _ _ Hj) as Hk.
  destruct (setDataToRemote_ok n k r Hk) as (m & E & Hm & Hd & Ht); [|done|].
  { apply (describes_same _ (boot i)); [apply Hj..|apply Hj]. }
  assert (Hdb : describes (boot i) m) by (eapply describes_same; [symmetry; apply Hj..|exact Hd]).
  eexists. split; [exact E|]. split.
  - destruct Hj, Hk. by split.
  - split_and!; [exact Hm|exact Hdb|]. destruct (joined_same_numbers i D k r Hj). by eapply talks_same.
Qed.

Lemma told_dir r i m (d a : nat) qpn th :
  told r i m → (row ← dirRcQpn2app m !! d; row !! a) = Some qpn → dirTh m !! d = Some th →
  ∃ qr c, dir_qp (boot r) d a i = Some qr ∧ qp_num qr = qpn ∧ dirCon (boot r) !! d = Some c ∧ ctx_lid (d_ctx c) = lid th ∧ ctx_gid (d_ctx c) = gid th.
Proof.
  intros (_ & Hd & Ht) Hq Hth. rewrite (tk_dir _ _ _ Ht) in Hq. destruct (dir_qp (boot r) d a i) as [qr|]; [|done].
  pose proof (f_equal (.!! d) (ds_dir _ _ Hd)) as E. rewrite !list_lookup_fmap, Hth in E.
  destruct (dirCon (boot r) !! d) as [c|]; [|done]. exists qr, c. cbn in *. unfold th_end in E. by simplify_eq.
Qed.

Lemma told_app r i m (d a : nat) qpn th :
  told r i m → (row ← appRcQpn2dir m !! a; row !! d) = Some qpn → appTh m !! a = Some th →
  ∃ qr c, app_qp (boot r) a d i = Some qr ∧ qp_num qr = qpn ∧ thCon (boot r) !! a = Some c ∧ ctx_lid (t_ctx c) = lid th ∧ ctx_gid (t_ctx c) = gid th.
Proof.
  intros (_ & Hd & Ht) Hq Hth. rewrite (tk_app _ _ _ Ht) in Hq. destruct (app_qp (boot r) a d i) as [qr|]; [|done].
  pose proof (f_equal (.!! a) (ds_app _ _ Hd)) as E. rewrite !list_lookup_fmap, Hth in E.
  destruct (thCon (boot r) !! a) as [c|]; [|done]. exists qr, c. cbn in *. unfold th_end in E. by simplify_eq.
Qed.

Lemma told_knows k k' r i m info :
  told r i m → info_of k m info → remoteCon k' !! r = Some info → knows k' r.
Proof.
  intros (_ & Hd & _) Hi Hr. exists info. split; [done|].
  destruct Hd as [Ha Hdi Hau Hdu Hc Hb], Hi as [[Ib [Il _]] [Ik1 Ik2] [Iq1 Iq2] _ _].
  assert (Hkey : ∀ l : list ExPerThread, rKey <$> l = snd <$> (th_end <$> l)) by (intros l; by rewrite <- list_fmap_compose).
  split_and!.
  - rewrite Ik1, Hkey, Hdi. by rewrite <- list_fmap_compose.
  - rewrite Ik2, Hkey, Ha. by rewrite <- list_fmap_compose.
  - by rewrite Iq1.
  - by rewrite Iq2.
  - intros c Hc0. rewrite Hc0 in Hb. cbn in Hb. injection Hb as E1 E2. by rewrite Ib, Il.
Qed.

Lemma joined_listen i D k r m : boot_ok → (i < n)%nat →
  joined i D k → told r i m → (r < n)%nat → ¬ D r →
  ∃ k', setDataFromRemote (Z.of_nat r) m k = Ok k' ∧ joined i (λ x, D x ∨ x = r) k'.
Proof.
  intros Hb Hi Hj Ht Hr HD. pose proof (jn_ok _ _ _ Hj) as Hk. destruct (Hb i Hi) as [_ Hf].
  destruct (setDataFromRemote_ok n k m r Hk) as (k' & info & E & Hk' & Hm & Hte & Hde & Hrem & Hinfo & Ha & Hd); [apply Ht|done| |].
  { split.
    - intros a d q Hq. pose proof (jn_app _ _ _ Hj a d r) as H1. rewrite Hq in H1. inversion H1 as [q0 ? (_ & Hq1 & _) E0|]; subst.
      rewrite (Hq1 HD). by apply (proj1 (Hf r) a d).
    - intros d a q Hq. pose proof (jn_dir _ _ _ Hj d a r) as H1. rewrite Hq in H1. inversion H1 as [q0 ? (_ & Hq1 & _) E0|]; subst.
      rewrite (Hq1 HD). by apply (proj2 (Hf r) d a). }
  exists k'. split; [exact E|]. split.
  - done.
  - rewrite Hm. apply Hj.
  - rewrite Hte. apply Hj.
  - rewrite Hde. apply Hj.
  - intros a d r'. specialize (Ha a d r'). pose proof (jn_app _ _ _ Hj a d r') as H1.
    destruct H1 as [q0 q (Hn & Hq1 & Hq2)|]; inversion Ha as [? q' [Hn' Hc]|]; subst; constructor.
    split; [congruence|]. destruct (decide (r' = r)) as [->|Hne].
    + split; [tauto|]. intros _. destruct Hc as (qpn & th & T1 & T2 & T3).
      destruct (told_dir r i m d a qpn th Ht T1 T2) as (qr & c & Hqr & <- & Hc' & El & Eg). exists qr, c. by rewrite El, Eg.
    + subst q'. split; [tauto|]. intros [HDr|]; [by apply Hq2|done].
  - intros d a r'. specialize (Hd d a r'). pose proof (jn_dir _ _ _ Hj d a r') as H1.
    destruct H1 as [q0 q (Hn & Hq1 & Hq2)|]; inversion Hd as [? q' [Hn' Hc]|]; subst; constructor.
    split; [congruence|]. destruct (decide (r' = r)) as [->|Hne].
    + split; [tauto|]. intros _. destruct Hc as (qpn & th & T1 & T2 & T3).
      destruct (told_app r i m d a qpn th Ht T1 T2) as (qr & c & Hqr & <- & Hc' & El & Eg). exists qr, c. by rewrite El, Eg.
    + subst q'. split; [tauto|]. intros [HDr|]; [by apply Hq2|done].
  - intros r' HDr. destruct (decide (r' = r)) as [->|Hne].
    + eapply told_knows; [exact Ht|exact Hinfo|]. rewrite Hrem. apply list_lookup_insert_eq. by rewrite (ko_remote _ _ Hk).
    + destruct HDr as [HDr| ->]; [|done]. destruct (jn_remote _ _ _ Hj r' HDr) as (info' & Hi' & Hrest).
      exists info'. split; [|done]. by rewrite Hrem, list_lookup_insert_ne.
Qed.
End cluster.
