(* ===== verification/Bringup.v ===== *)
(** * The servers of a cluster start together

    The pool of the processes [startup]: the stages of a server, the invariant
    that ties what it has connected to what it has written to memcached, and
    the theorem that all servers get through. *)

From Stdlib Require Import ZArith Lia Bool Ascii String.
From stdpp Require Import base tactics decidable option numbers list gmap relations.
From S2P Require Import Prelude.
From S2P Require Import Common.
From S2P Require Import Process.
From S2P Require Import QueuePair.
From S2P Require Import Exchange.
From S2P Require Import Keeper.
From S2P Require Import Connect.

(** ** Stages *)
Section stages.
Context `{Ibv} `{Memcached} (fuel : nat) (maxServer : Z).

(** Before the counter, before a look at it, before the two accesses of
    [connectNode], before the last one, and done. *)
Inductive stage : Type :=
  | AtEnter (ip : list byte) (k : DSMKeeper)
  | AtPoll (f : nat) (cur : Z) (k : DSMKeeper)
  | AtSend (f m : nat) (r num : Z) (k : DSMKeeper)
  | AtRecv (f m : nat) (r num : Z) (k : DSMKeeper)
  | AtRoute (k : DSMKeeper)
  | IsUp (k : DSMKeeper)
  | Failed (e : error).

(** What follows [serverConnect], and what follows [connectNode]. *)
Definition finish (me : Z) (k : DSMKeeper) : proc memc (Z * DSMKeeper) :=
  k ← pure (connectMySelf me k); initRouteRule me ;; mret (me, k).
Definition listen (me r : Z) (k : DSMKeeper) : proc memc DSMKeeper :=
  remoteMeta ← memGet (getKey me r); m ← pure (fst <$> read_meta remoteMeta); pure (setDataFromRemote r m k).

Definition stage_code (t : Z * stage) : proc memc (Z * DSMKeeper) :=
  let me := t.1 in
  match t.2 with
  | AtEnter ip k => me ← serverEnter_ip ip; k ← serverConnect fuel maxServer me 0 k; finish me k
  | AtPoll f cur k =>
    k ← (serverNum ← poll_servers cur;
         k ← connect_loop (Z.to_nat (serverNum - cur)) cur me k;
         serverConnect f maxServer me (wrap 16 serverNum) k);
    finish me k
  | AtSend f m r num k =>
    k ← (k ← (k ← exchange me (wrap 16 r) k; connect_loop m (r + 1) me k);
         serverConnect f maxServer me (wrap 16 num) k);
    finish me k
  | AtRecv f m r num k =>
    k ← (k ← (k ← listen me (wrap 16 r) k; connect_loop m (r + 1) me k);
         serverConnect f maxServer me (wrap 16 num) k);
    finish me k
  | AtRoute k => initRouteRule me ;; mret (me, k)
  | IsUp k => Return (me, k)
  | Failed e => Crash e
  end.

(** The stage that a computation leads to when the shared state is next used. *)
Definition connect_stage (f : nat) (me cur : Z) (k : DSMKeeper) : stage :=
  if cur <? maxServer then match f with O => Failed EFuel | S f => AtPoll f cur k end
  else match connectMySelf me k with Ok k => AtRoute k | Fail e => Failed e end.

Fixpoint loop_stage (f m : nat) (me r num : Z) (k : DSMKeeper) : stage :=
  match m with
  | O => connect_stage f me (wrap 16 num) k
  | S m => if r =? me then loop_stage f m me (r + 1) num k
           else match setDataToRemote (wrap 16 r) k with Ok k => AtSend f m r num k | Fail e => Failed e end
  end.

Definition stage_trans (t : Z * stage) (s : memc) : option (memc * (Z * stage)) :=
  let me := t.1 in
  match t.2 with
  | AtEnter ip k =>
    match mc_increment SERVER_NUM_KEY 1 s with
    | Some (_, s') => Some (s', match atoi (last_part ip) with
                                | Ok v => (wrap 16 (v - 1), connect_stage fuel (wrap 16 (v - 1)) 0 k)
                                | Fail e => (me, Failed e)
                                end)
    | None => None
    end
  | AtPoll f cur k =>
    match mc_value SERVER_NUM_KEY s with
    | Some str => match atoi str with
                  | Ok v => if wrap 32 v =? cur then None
                            else Some (s, (me, loop_stage f (Z.to_nat (wrap 32 v - cur)) me cur (wrap 32 v) k))
                  | Fail e => Some (s, (me, Failed e))
                  end
    | None => None
    end
  | AtSend f m r num k => Some (mc_set (setKey me (wrap 16 r)) (meta_bytes (localMeta k)) s, (me, AtRecv f m r num k))
  | AtRecv f m r num k =>
    match mc_value (getKey me (wrap 16 r)) s with
    | Some bs => Some (s, (me, match (d ← fst <$> read_meta bs; setDataFromRemote (wrap 16 r) d k) with
                               | Ok k => loop_stage f m me (r + 1) num k
                               | Fail e => Failed e
                               end))
    | None => None
    end
  | AtRoute k => Some (mc_set (text "SPre" ++ to_string me) [] s, (me, IsUp k))
  | _ => None
  end.

Lemma connect_stage_code f me cur k :
  stage_code (me, connect_stage f me cur k) = (k ← serverConnect f maxServer me cur k; finish me k).
Proof.
  unfold connect_stage. destruct f as [|f]; cbn; destruct (cur <? maxServer); try done;
    unfold finish; cbn; by destruct (connectMySelf me k).
Qed.

Lemma loop_stage_code f m me r num k :
  stage_code (me, loop_stage f m me r num k) =
  (k ← (k ← connect_loop m r me k; serverConnect f maxServer me (wrap 16 num) k); finish me k).
Proof.
  revert r k. induction m as [|m IH]; intros r k; cbn [loop_stage connect_loop].
  - rewrite connect_stage_code. done.
  - destruct (r =? me); [rewrite IH; done|]. unfold connectNode. by destruct (setDataToRemote (wrap 16 r) k).
Qed.

Lemma stage_staged : staged stage_code stage_trans.
Proof.
  intros [me [ip k|f cur k|f m r num k|f m r num k|k|k|e]] s; try done; cbn.
  - destruct (mc_increment SERVER_NUM_KEY 1 s) as [[v s']|]; [|done]. cbn. destruct (atoi (last_part ip)) as [w|]; [|done]. cbn.
    by rewrite connect_stage_code.
  - destruct (mc_value SERVER_NUM_KEY s) as [str|]; [|done]. destruct (atoi str) as [v|]; [|done].
    destruct (wrap 32 v =? cur); [done|]. cbn. by rewrite loop_stage_code.
  - destruct (mc_value (getKey me (wrap 16 r)) s) as [bs|]; [|done]. cbn. destruct (read_meta bs) as [[d rest]|]; cbn; [|done].
    destruct (setDataFromRemote (wrap 16 r) d k); [|done]. cbn. by rewrite loop_stage_code.
Qed.

Lemma startup_code me ip k k' :
  initLocalMeta k = Ok k' → startup fuel maxServer ip k = stage_code (me, AtEnter ip k').
Proof. intros E. unfold startup. by rewrite E. Qed.
End stages.

(** ** The invariant *)
Section bringup.
Context `{Ibv} `{Memcached} (n fuel : nat) (boot : nat → DSMKeeper).
Hypothesis n_range : Z.of_nat n < 2 ^ 16.
Hypothesis boots : boot_ok n boot.
Hypothesis enough : (n <= fuel)%nat.

#[local] Abbreviation joined := (joined n boot).

(** Server [i] has told the servers before [c]. *)
Definition sent (s : memc) (i c : nat) : Prop :=
  ∀ r : nat, (r < c)%nat → r ≠ i → is_Some (mc_value (setKey (Z.of_nat i) (Z.of_nat r)) s).

Definition before (i c : nat) : nat → Prop := λ r, (r < c)%nat ∧ r ≠ i.

Definition at_stage (c0 : nat) (s : memc) (i : nat) (t : Z * stage) : Prop :=
  match t.2 with
  | AtEnter ip k => atoi (last_part ip) = Ok (Z.of_nat i + 1) ∧ joined i (λ _, False) k
  | AtPoll f cur k =>
    t.1 = Z.of_nat i ∧ ∃ c : nat, cur = Z.of_nat c ∧ (c < n ∧ n <= c + S f ∧ c <= c0)%nat ∧ joined i (before i c) k ∧ sent s i c
  | AtSend f m r num k =>
    t.1 = Z.of_nat i ∧ ∃ c : nat, r = Z.of_nat c ∧ num = Z.of_nat (S c + m) ∧ (S c + m <= n ∧ n <= S c + m + f ∧ S c + m <= c0)%nat ∧ c ≠ i ∧
      joined i (before i c) k ∧ told boot i c (localMeta k) ∧ sent s i c
  | AtRecv f m r num k =>
    t.1 = Z.of_nat i ∧ ∃ c : nat, r = Z.of_nat c ∧ num = Z.of_nat (S c + m) ∧ (S c + m <= n ∧ n <= S c + m + f ∧ S c + m <= c0)%nat ∧ c ≠ i ∧
      joined i (before i c) k ∧ sent s i (S c)
  | AtRoute k | IsUp k => t.1 = Z.of_nat i ∧ joined i (λ r, (r < n)%nat) k ∧ sent s i n
  | Failed _ => False
  end.

Definition stage_rank (t : Z * stage) : nat :=
  match t.2 with
  | AtEnter _ _ => 3 * n + 3
  | AtPoll _ cur _ => 3 * (n - Z.to_nat cur) + 2
  | AtSend _ _ r _ _ => 3 * (n - Z.to_nat r) + 1
  | AtRecv _ _ r _ _ => 3 * (n - Z.to_nat r)
  | AtRoute _ => 1
  | IsUp _ | Failed _ => 0
  end.

Definition entered (t : Z * stage) : nat := match t.2 with AtEnter _ _ => 0 | _ => 1 end.

(** What lies under the key of [i] for [r] is what [i] tells [r]. *)
Definition store_ok (s : memc) : Prop :=
  ∀ (i r : nat) bs, (i < n)%nat → (r < n)%nat → mc_value (setKey (Z.of_nat i) (Z.of_nat r)) s = Some bs →
    ∃ m, bs = meta_bytes m ∧ told boot i r m.

Definition bringup_inv (ts : list (Z * stage)) (s : memc) : Prop :=
  length ts = n ∧ mc_value SERVER_NUM_KEY s = Some (to_string (Z.of_nat (ranks entered ts))) ∧ store_ok s ∧
  ∀ (i : nat) t, ts !! i = Some t → at_stage (ranks entered ts) s i t.

Lemma joined_iff i D D' k : joined i D k → (∀ r, D r ↔ D' r) → joined i D' k.
Proof.
  intros [J1 J2 J3 J4 J5 J6 J7] HD. split; [done..| | |intros r Hr; apply J7; by apply HD].
  - intros a d r. destruct (J5 a d r) as [q0 q (Hq1 & Hq2 & Hq3)|]; constructor. split_and!; [done|intros Hr; apply Hq2; by rewrite HD|intros Hr; apply Hq3; by apply HD].
  - intros d a r. destruct (J6 d a r) as [q0 q (Hq1 & Hq2 & Hq3)|]; constructor. split_and!; [done|intros Hr; apply Hq2; by rewrite HD|intros Hr; apply Hq3; by apply HD].
Qed.

Lemma connectMySelf_ok i k : (i < n)%nat → joined i (before i n) k →
  ∃ k', connectMySelf (Z.of_nat i) k = Ok k' ∧ joined i (λ r, (r < n)%nat) k'.
Proof.
  intros Hi Hj. destruct (joined_tell n boot i _ k i Hj Hi) as (k1 & E1 & Hj1 & Ht).
  destruct (joined_listen n boot i _ k1 i (localMeta k1) boots Hi Hj1 Ht Hi) as (k2 & E2 & Hj2); [by intros [_ []]|].
  exists k2. unfold connectMySelf. rewrite E1. cbn. split; [done|]. eapply joined_iff; [exact Hj2|].
  intros r. unfold before. split; [intros [[]|]; lia|]. intros. destruct (decide (r = i)); [by right|by left].
Qed.

Lemma connect_stage_ok c0 s i c f k :
  (i < n)%nat → (c <= n ∧ n <= c + f ∧ c <= c0)%nat → joined i (before i c) k → sent s i c →
  at_stage c0 s i (Z.of_nat i, connect_stage (Z.of_nat n) f (Z.of_nat i) (Z.of_nat c) k) ∧
  (stage_rank (Z.of_nat i, connect_stage (Z.of_nat n) f (Z.of_nat i) (Z.of_nat c) k) <= 3 * (n - c) + 2)%nat ∧
  entered (Z.of_nat i, connect_stage (Z.of_nat n) f (Z.of_nat i) (Z.of_nat c) k) = 1%nat.
Proof.
  intros Hi Hc Hj Hs. unfold connect_stage. destruct (Z.ltb_spec (Z.of_nat c) (Z.of_nat n)).
  - destruct f as [|f]; [lia|]. split_and!; [|cbn; lia|done]. split; [done|]. exists c. split_and!; done || lia.
  - assert (c = n) as -> by lia. destruct (connectMySelf_ok i k Hi Hj) as (k' & -> & Hj').
    split_and!; [by split_and!|cbn; lia|done].
Qed.

Lemma sent_skip s i c : sent s i c → c = i → sent s i (S c).
Proof. intros Hs -> r Hr Hne. apply Hs; [lia|done]. Qed.

Lemma loop_stage_ok c0 s i m c f k :
  (i < n)%nat → (c + m <= n ∧ n <= c + m + f ∧ c + m <= c0)%nat → joined i (before i c) k → sent s i c →
  let t := (Z.of_nat i, loop_stage (Z.of_nat n) f m (Z.of_nat i) (Z.of_nat c) (Z.of_nat (c + m)) k) in
  at_stage c0 s i t ∧ (stage_rank t <= 3 * (n - c) + (if decide (m = 0) then 2 else 1))%nat ∧ entered t = 1%nat.
Proof.
  revert c k. induction m as [|m IH]; intros c k Hi Hc Hj Hs; cbn [loop_stage].
  { rewrite Nat.add_0_r in *. rewrite wrap_small by (unfold uint; lia). by apply connect_stage_ok. }
  destruct (Z.eqb_spec (Z.of_nat c) (Z.of_nat i)) as [Ec|Ec].
  - apply Nat2Z.inj in Ec. subst c. replace (i + S m)%nat with (S i + m)%nat in * by lia.
    replace (Z.of_nat i + 1) with (Z.of_nat (S i)) by lia.
    destruct (IH (S i) k Hi) as (H1 & H2 & H3); [lia| |by apply sent_skip|].
    + eapply joined_iff; [exact Hj|]. intros r. unfold before. lia.
    + split_and!; [exact H1| |exact H3]. rewrite (decide_False (P := S m = 0%nat)) by done. destruct (decide (m = 0%nat)); lia.
  - rewrite wrap_small by (unfold uint; lia). destruct (joined_tell n boot i _ k c Hj) as (k' & -> & Hj' & Ht); [lia|].
    split_and!; [|rewrite decide_False by done; cbn; rewrite Nat2Z.id; lia|done].
    split; [done|]. exists c. split_and!; done || lia.
Qed.

(** A step of one server leaves the keys of the others alone. *)
Definition keeps (j : nat) (s s' : memc) : Prop :=
  ∀ i r : nat, (i < n)%nat → (r < n)%nat → i ≠ j →
    mc_value (setKey (Z.of_nat i) (Z.of_nat r)) s' = mc_value (setKey (Z.of_nat i) (Z.of_nat r)) s.

Lemma sent_keeps j s s' i c : keeps j s s' → (i < n)%nat → (c <= n)%nat → i ≠ j → sent s i c → sent s' i c.
Proof. intros Hk Hi Hc Hne Hs r Hr Hri. rewrite Hk; [by apply Hs|lia..]. Qed.

Lemma at_stage_keeps j c0 c1 s s' i t :
  keeps j s s' → (i < n)%nat → i ≠ j → (c0 <= c1)%nat → at_stage c0 s i t → at_stage c1 s' i t.
Proof.
  intros Hk Hi Hne Hle. destruct t as [me [ip k|f cur k|f m r num k|f m r num k|k|k|e]]; unfold at_stage; cbn; try done.
  - intros (E & c & Ec & Hc & Hj & Hs). split; [done|]. exists c. split_and!; try done; try lia. eapply sent_keeps; [done|done|lia|done|done].
  - intros (E & c & Er & Hn & Hc & Hci & Hj & Ht & Hs). split; [done|]. exists c. split_and!; try done; try lia. eapply sent_keeps; [done|done|lia|done|done].
  - intros (E & c & Er & Hn & Hc & Hci & Hj & Hs). split; [done|]. exists c. split_and!; try done; try lia. eapply sent_keeps; [done|done|lia|done|done].
  - intros (E & Hj & Hs). split_and!; [done|done|]. eapply sent_keeps; [done|done|lia|done|done].
  - intros (E & Hj & Hs). split_and!; [done|done|]. eapply sent_keeps; [done|done|lia|done|done].
Qed.

(** What the step of server [i] does; [c0] servers have entered. *)
Definition stage_step_spec (c0 : nat) (s s' : memc) (i : nat) (t t' : Z * stage) : Prop :=
  let c1 := (c0 + (entered t' - entered t))%nat in
  at_stage c1 s' i t' ∧ (stage_rank t' < stage_rank t)%nat ∧ (entered t <= entered t')%nat ∧ keeps i s s' ∧ store_ok s' ∧
  mc_value SERVER_NUM_KEY s' = Some (to_string (Z.of_nat c1)).

Lemma enter_spec c0 s i me ip k s' t' :
  (i < n)%nat → at_stage c0 s i (me, AtEnter ip k) → store_ok s → mc_value SERVER_NUM_KEY s = Some (to_string (Z.of_nat c0)) → (c0 <= n)%nat →
  stage_trans fuel (Z.of_nat n) (me, AtEnter ip k) s = Some (s', t') → stage_step_spec c0 s s' i (me, AtEnter ip k) t'.
Proof.
  intros Hi [Hip Hj] Hst Hc Hc0 E. cbn in E. cbn in Hip. rewrite Hip in E.
  destruct (mc_increment_value SERVER_NUM_KEY 1 s (Z.of_nat c0) Hc) as (s2 & E2 & Hs2); [lia..|]. rewrite E2 in E.
  rewrite Z.add_simpl_r, wrap_small in E by (unfold uint; lia). injection E as <- <-.
  assert (Hkey : ∀ i r, mc_value (setKey i r) s2 = mc_value (setKey i r) s).
  { intros i' r'. rewrite Hs2, decide_False; [done|apply setKey_not_server]. }
  destruct (connect_stage_ok (c0 + 1) s2 i 0 fuel k Hi) as (H1 & H2 & H3); [lia| |intros r Hr; lia|].
  { eapply joined_iff; [exact Hj|]. intros r. unfold before. lia. }
  unfold stage_step_spec. change 0 with (Z.of_nat 0). rewrite H3. cbn zeta.
  split_and!; [exact H1|eapply Nat.le_lt_trans; [exact H2|]; unfold stage_rank, snd; lia|cbn; lia|by intros i' r' _ _ _| |].
  - intros i' r' bs Hi' Hr'. rewrite Hkey. by apply Hst.
  - rewrite Hs2, decide_True by done. do 2 f_equal. cbn. lia.
Qed.

Lemma nat_wrap c : (c < n)%nat → wrap 16 (Z.of_nat c) = Z.of_nat c.
Proof. intros. apply wrap_small. unfold uint. lia. Qed.

Lemma atoi_counter c0 : (c0 <= n)%nat → atoi (to_string (Z.of_nat c0)) = Ok (Z.of_nat c0).
Proof.
  intros Hc. unfold atoi. rewrite <- (app_nil_r (to_string _)), strto_to_string by (done || lia).
  by rewrite (proj2 (Z.leb_le _ _)), (proj2 (Z.ltb_lt _ _)) by lia.
Qed.

Lemma poll_spec c0 s i me f cur k s' t' :
  (i < n)%nat → at_stage c0 s i (me, AtPoll f cur k) → store_ok s → mc_value SERVER_NUM_KEY s = Some (to_string (Z.of_nat c0)) → (c0 <= n)%nat →
  stage_trans fuel (Z.of_nat n) (me, AtPoll f cur k) s = Some (s', t') → stage_step_spec c0 s s' i (me, AtPoll f cur k) t'.
Proof.
  intros Hi (E & c & -> & Hcn & Hj & Hs) Hst Hc Hc0 Et. cbn in E. subst me. cbn in Et.
  rewrite Hc, atoi_counter, (wrap_small 32) in Et by (done || unfold uint; lia).
  destruct (Z.eqb_spec (Z.of_nat c0) (Z.of_nat c)) as [|Hne]; [done|]. injection Et as <- <-.
  replace (Z.to_nat (Z.of_nat c0 - Z.of_nat c)) with (c0 - c)%nat by lia.
  destruct (loop_stage_ok c0 s i (c0 - c) c f k Hi) as (H1 & H2 & H3); [lia|done|done|].
  replace (c + (c0 - c))%nat with c0 in * by lia. rewrite decide_False in H2 by lia.
  unfold stage_step_spec. rewrite H3. cbn zeta. replace (c0 + _)%nat with c0 by (cbn; lia).
  split_and!; [exact H1| |done|by intros i' r' _ _ _|done|done].
  eapply Nat.le_lt_trans; [exact H2|]. unfold stage_rank, snd. rewrite Nat2Z.id. lia.
Qed.

Lemma send_spec c0 s i me f m r num k s' t' :
  (i < n)%nat → at_stage c0 s i (me, AtSend f m r num k) → store_ok s → mc_value SERVER_NUM_KEY s = Some (to_string (Z.of_nat c0)) →
  stage_trans fuel (Z.of_nat n) (me, AtSend f m r num k) s = Some (s', t') → stage_step_spec c0 s s' i (me, AtSend f m r num k) t'.
Proof.
  intros Hi (E & c & -> & -> & Hn & Hci & Hj & Ht & Hs) Hst Hc Et. cbn in E. subst me. cbn in Et. rewrite nat_wrap in Et by lia.
  injection Et as <- <-.
  assert (Hkey : ∀ i' r' : nat, (i' < n)%nat → (r' < n)%nat → ¬ (i' = i ∧ r' = c) → setKey (Z.of_nat i') (Z.of_nat r') ≠ setKey (Z.of_nat i) (Z.of_nat c)).
  { intros i' r' Hi' Hr' Hne Ek. apply setKey_inj in Ek; lia. }
  unfold stage_step_spec. cbn zeta. replace (c0 + _)%nat with c0 by (cbn; lia). split_and!; [|unfold stage_rank, snd; lia|done| | |].
  - split; [done|]. exists c. split_and!; try done; try lia. intros r' Hr' Hne. rewrite mc_value_set.
    destruct (decide (r' = c)) as [->|]; [by rewrite decide_True|]. rewrite decide_False by (apply Hkey; lia). apply Hs; lia.
  - intros i' r' Hi' Hr' Hne. rewrite mc_value_set, decide_False by (apply Hkey; lia). done.
  - intros i' r' bs Hi' Hr'. rewrite mc_value_set. destruct (decide (i' = i ∧ r' = c)) as [[-> ->]|Hne].
    + rewrite decide_True by done. intros [= <-]. by exists (localMeta k).
    + rewrite decide_False by (apply Hkey; done). by apply Hst.
  - rewrite mc_value_set, decide_False; [done|]. intros Ek. by apply (setKey_not_server _ _ (eq_sym Ek)).
Qed.

Lemma recv_spec c0 s i me f m r num k s' t' :
  (i < n)%nat → at_stage c0 s i (me, AtRecv f m r num k) → store_ok s → mc_value SERVER_NUM_KEY s = Some (to_string (Z.of_nat c0)) →
  stage_trans fuel (Z.of_nat n) (me, AtRecv f m r num k) s = Some (s', t') → stage_step_spec c0 s s' i (me, AtRecv f m r num k) t'.
Proof.
  intros Hi (E & c & -> & -> & Hn & Hci & Hj & Hs) Hst Hc Et. cbn in E. subst me. cbn in Et. rewrite nat_wrap in Et by lia.
  change (getKey (Z.of_nat i) (Z.of_nat c)) with (setKey (Z.of_nat c) (Z.of_nat i)) in Et.
  destruct (mc_value (setKey (Z.of_nat c) (Z.of_nat i)) s) as [bs|] eqn:Eb; [|done].
  destruct (Hst c i bs) as (d & -> & Ht); [lia|done|done|].
  destruct (joined_listen n boot i _ k c d boots Hi Hj Ht) as (k' & Ek & Hj'); [lia|unfold before; lia|].
  rewrite <- (app_nil_r (meta_bytes d)), (reads_meta d (proj1 Ht)) in Et. cbn in Et. rewrite Ek in Et. injection Et as <- <-.
  replace (Z.of_nat c + 1) with (Z.of_nat (S c)) by lia.
  destruct (loop_stage_ok c0 s i m (S c) f k' Hi) as (H1 & H2 & H3); [lia| |done|].
  { eapply joined_iff; [exact Hj'|]. intros r'. unfold before. lia. }
  unfold stage_step_spec. cbn zeta. cbn [Nat.add] in H1, H2, H3. change (Z.pos (Pos.of_succ_nat (c + m))) with (Z.of_nat (S (c + m))).
  rewrite H3. replace (c0 + _)%nat with c0 by (cbn; lia).
  split_and!; [exact H1| |done|by intros i' r' _ _ _|done|done].
  eapply Nat.le_lt_trans; [exact H2|]. unfold stage_rank, snd. rewrite Nat2Z.id. destruct (decide (m = 0%nat)); lia.
Qed.

Lemma route_spec c0 s i me k s' t' :
  (i < n)%nat → at_stage c0 s i (me, AtRoute k) → store_ok s → mc_value SERVER_NUM_KEY s = Some (to_string (Z.of_nat c0)) →
  stage_trans fuel (Z.of_nat n) (me, AtRoute k) s = Some (s', t') → stage_step_spec c0 s s' i (me, AtRoute k) t'.
Proof.
  intros Hi (E & Hj & Hs) Hst Hc Et. cbn in E. subst me. cbn in Et. injection Et as <- <-.
  assert (Hkey : ∀ i' r', mc_value (setKey i' r') (mc_set (text "SPre" ++ to_string (Z.of_nat i)) [] s) = mc_value (setKey i' r') s).
  { intros i' r'. rewrite mc_value_set, decide_False; [done|apply setKey_not_route]. }
  unfold stage_step_spec. cbn zeta. replace (c0 + _)%nat with c0 by (cbn; lia).
  split_and!; [|cbn; lia|done|by intros i' r' _ _ _| |].
  - split_and!; [done|done|]. intros r Hr Hne. rewrite Hkey. by apply Hs.
  - intros i' r' bs Hi' Hr'. rewrite Hkey. by apply Hst.
  - rewrite mc_value_set, decide_False; [done|]. by intros [=].
Qed.

Lemma stage_step_ok c0 s i t s' t' :
  (i < n)%nat → at_stage c0 s i t → store_ok s → mc_value SERVER_NUM_KEY s = Some (to_string (Z.of_nat c0)) → (c0 <= n)%nat →
  stage_trans fuel (Z.of_nat n) t s = Some (s', t') → stage_step_spec c0 s s' i t t'.
Proof.
  destruct t as [me [ip k|f cur k|f m r num k|f m r num k|k|k|e]]; intros; try done.
  - by apply enter_spec.
  - by apply poll_spec.
  - by apply send_spec.
  - by apply recv_spec.
  - by apply route_spec.
Qed.

Lemma entered_le ts : (ranks entered ts <= length ts)%nat.
Proof. unfold ranks. induction ts as [|[me []] ts IH]; cbn; lia. Qed.

Lemma bringup_step ts s (i : nat) t s' t' :
  bringup_inv ts s → ts !! i = Some t → stage_trans fuel (Z.of_nat n) t s = Some (s', t') →
  bringup_inv (<[i:=t']> ts) s' ∧ (stage_rank t' < stage_rank t)%nat.
Proof.
  intros (Hl & Hc & Hst & Hat) Hi Et. pose proof (lookup_lt_Some _ _ _ Hi) as Hlt. pose proof (entered_le ts) as Hle.
  destruct (stage_step_ok (ranks entered ts) s i t s' t') as (H1 & H2 & H3 & H4 & H5 & H6); [lia|by apply Hat|done|done|lia|done|].
  pose proof (ranks_insert entered ts i t t' Hi) as Hr.
  assert (Er : (ranks entered ts + (entered t' - entered t))%nat = ranks entered (<[i:=t']> ts)) by lia.
  rewrite Er in H1, H6. split; [|done]. split_and!; [by rewrite length_insert|done|done|].
  intros j u [(<- & <- & _)|[Hne Hj]]%list_lookup_insert_Some; [done|].
  pose proof (lookup_lt_Some _ _ _ Hj). eapply at_stage_keeps; [exact H4|lia|done| |by apply Hat]. lia.
Qed.

(** ** Nobody is stuck *)
Definition can_step (ts : list (Z * stage)) (s : memc) : Prop :=
  ∃ i t, ts !! i = Some t ∧ is_Some (stage_trans fuel (Z.of_nat n) t s).

Lemma all_entered ts s : bringup_inv ts s → can_step ts s ∨ ranks entered ts = n.
Proof.
  intros (Hl & Hc & _ & _). pose proof (entered_le ts) as Hle.
  destruct (decide (Exists (λ t, entered t = 0%nat) ts)) as [(t & Hin & Ht)%Exists_exists|Hno].
  - left. apply list_elem_of_lookup_1 in Hin as [i Hi]. exists i, t. split; [done|]. destruct t as [me []]; try done. cbn.
    destruct (mc_increment_value SERVER_NUM_KEY 1 s _ Hc) as (s2 & -> & _); [lia..|]. by eexists.
  - right. rewrite <- Hl. clear - Hno. unfold ranks. induction ts as [|t ts IH]; [done|]. cbn.
    rewrite IH; [|intros He; apply Hno; by apply Exists_cons_tl]. destruct t as [me []]; try done. destruct Hno. by apply Exists_cons_hd.
Qed.

Lemma others_step ts s (i : nat) t :
  bringup_inv ts s → ranks entered ts = n → ts !! i = Some t →
  can_step ts s ∨ (∃ k, t = (Z.of_nat i, IsUp k)) ∨ ∃ f m (c : nat) num k, t = (Z.of_nat i, AtRecv f m (Z.of_nat c) num k).
Proof.
  intros (Hl & Hc & Hst & Hat) Hall Hi. specialize (Hat i t Hi). rewrite Hall in *.
  destruct t as [me [ip k|f cur k|f m r num k|f m r num k|k|k|e]].
  - left. exists i, (me, AtEnter ip k). split; [done|]. cbn. destruct (mc_increment_value SERVER_NUM_KEY 1 s _ Hc) as (s2 & -> & _); [lia..|]. by eexists.
  - destruct Hat as (E & c & -> & Hcn & _). left. exists i, (me, AtPoll f (Z.of_nat c) k). split; [done|]. cbn.
    rewrite Hc, atoi_counter, (wrap_small 32) by (done || unfold uint; lia). rewrite (proj2 (Z.eqb_neq _ _)) by lia. by eexists.
  - left. exists i, (me, AtSend f m r num k). split; [done|]. by eexists.
  - destruct Hat as (E & c & -> & _). cbn in E. subst me. right. right. by exists f, m, c, num, k.
  - left. exists i, (me, AtRoute k). split; [done|]. by eexists.
  - destruct Hat as (E & _). cbn in E. subst me. right. left. by exists k.
  - done.
Qed.

(** A server that waits for server [c] waits for one that waits for a lower
    one than itself, and so on down. *)
Lemma recv_unblocks ts s c (i : nat) f m num k :
  bringup_inv ts s → ranks entered ts = n → ts !! i = Some (Z.of_nat i, AtRecv f m (Z.of_nat c) num k) → can_step ts s.
Proof.
  intros HI Hall. revert i f m num k. induction c as [c IH] using lt_wf_ind. intros i f m num k Hi.
  pose proof HI as (Hl & Hc & Hst & Hat). pose proof (lookup_lt_Some _ _ _ Hi) as Hin.
  destruct (Hat i _ Hi) as (_ & c' & Ec & Hnum & Hcn & Hci & _). apply Nat2Z.inj in Ec. subst c'.
  destruct (mc_value (setKey (Z.of_nat c) (Z.of_nat i)) s) as [bs|] eqn:Eb.
  { exists i, (Z.of_nat i, AtRecv f m (Z.of_nat c) num k). split; [done|]. cbn. rewrite nat_wrap by lia. unfold getKey. unfold setKey in Eb. rewrite Eb. by eexists. }
  destruct (lookup_lt_is_Some_2 ts c) as [u Hu]; [lia|].
  destruct (others_step ts s c u HI Hall Hu) as [?|[(k1 & ->)|(f1 & m1 & c1 & num1 & k1 & ->)]]; [done| |].
  { destruct (Hat c _ Hu) as (_ & _ & Hs). destruct (Hs i) as [bs Hbs]; [lia|done|congruence]. }
  destruct (Hat c _ Hu) as (_ & c1' & Ec1 & _ & Hcn1 & Hci1 & _ & Hs1). apply Nat2Z.inj in Ec1. subst c1'.
  destruct (decide (i < S c1)%nat) as [Hlt|Hge]; [destruct (Hs1 i Hlt) as [bs Hbs]; [done|congruence]|].
  destruct (mc_value (setKey (Z.of_nat c1) (Z.of_nat c)) s) as [bs|] eqn:Eb1.
  { exists c, (Z.of_nat c, AtRecv f1 m1 (Z.of_nat c1) num1 k1). split; [done|]. cbn. rewrite nat_wrap by lia. unfold getKey. unfold setKey in Eb1. rewrite Eb1. by eexists. }
  destruct (lookup_lt_is_Some_2 ts c1) as [u1 Hu1]; [lia|].
  destruct (others_step ts s c1 u1 HI Hall Hu1) as [?|[(k2 & ->)|(f2 & m2 & c2 & num2 & k2 & ->)]]; [done| |].
  { destruct (Hat c1 _ Hu1) as (_ & _ & Hs). destruct (Hs c) as [bs Hbs]; [lia|done|congruence]. }
  destruct (Hat c1 _ Hu1) as (_ & c2' & Ec2 & _ & Hcn2 & Hci2 & _ & Hs2). apply Nat2Z.inj in Ec2. subst c2'.
  destruct (decide (c < S c2)%nat) as [Hlt|Hge2]; [destruct (Hs2 c Hlt) as [bs Hbs]; [done|congruence]|].
  eapply (IH c2); [lia|exact Hu1].
Qed.

Lemma bringup_progress ts s :
  bringup_inv ts s → (∀ (i : nat) t, ts !! i = Some t → ∃ k, t = (Z.of_nat i, IsUp k)) ∨ can_step ts s.
Proof.
  intros HI. destruct (all_entered ts s HI) as [?|Hall]; [by right|].
  destruct (decide (Forall (λ t, stage_rank t = 0%nat) ts)) as [Hup|Hno].
  - left. intros i t Hi. pose proof (proj1 (Forall_lookup _ _) Hup i t Hi) as Hr.
    destruct HI as (Hl & _ & _ & Hat). specialize (Hat i t Hi).
    destruct t as [me [ip k|f cur k|f m r num k|f m r num k|k|k|e]]; cbn in Hr; try lia.
    + destruct Hat as (_ & c & -> & _ & Hcn & _). rewrite Nat2Z.id in Hr. lia.
    + destruct Hat as (E & _). cbn in E. subst me. by exists k.
    + done.
  - right. apply not_Forall_Exists in Hno; [|apply _]. apply Exists_exists in Hno as (t & Hin & Hr).
    apply list_elem_of_lookup_1 in Hin as [i Hi].
    destruct (others_step ts s i t HI Hall Hi) as [?|[(k & ->)|(f & m & c & num & k & ->)]]; [done|by destruct Hr|].
    by eapply recv_unblocks.
Qed.
End bringup.

(** ** The theorems *)
Section theorems.
Context `{Ibv} `{Memcached}.

(** The servers before they start: whole connections with queue pairs that
    were just created, addresses that give the ids in order, and a memcached
    with the counter at zero and no description left. *)
Record start_ok (n fuel : nat) (boot : nat → DSMKeeper) (ip : nat → list byte) (s : memc) : Prop := {
  st_range : Z.of_nat n < 2 ^ 16;
  st_fuel : (n <= fuel)%nat;
  st_boot : boot_ok n boot;
  st_ip i : (i < n)%nat → atoi (last_part (ip i)) = Ok (Z.of_nat i + 1);
  st_counter : mc_value SERVER_NUM_KEY s = Some (text "0");
  st_clean (i r : nat) : (i < n)%nat → (r < n)%nat → mc_value (setKey (Z.of_nat i) (Z.of_nat r)) s = None
}.

Definition servers (n fuel : nat) (boot : nat → DSMKeeper) (ip : nat → list byte) : list (proc memc (Z * DSMKeeper)) :=
  (λ i : nat, startup fuel (Z.of_nat n) (ip i) (boot i)) <$> seq 0 n.

Lemma bringup_start n fuel boot ip s :
  start_ok n fuel boot ip s →
  ∃ ts, servers n fuel boot ip = stage_code fuel (Z.of_nat n) <$> ts ∧ bringup_inv n boot ts s ∧
    (ranks (stage_rank n) ts = n * (3 * n + 3))%nat.
Proof.
  intros [Hn Hf Hb Hip Hc Hs].
  set (t (i : nat) := (Z.of_nat i, match initLocalMeta (boot i) with Ok k => AtEnter (ip i) k | Fail e => Failed e end)).
  assert (Ht : ∀ i, (i < n)%nat → ∃ k, initLocalMeta (boot i) = Ok k ∧ t i = (Z.of_nat i, AtEnter (ip i) k) ∧ joined n boot i (λ _, False) k).
  { intros i Hi. destruct (joined_start n boot i Hb Hi) as (k & E & Hj). exists k. unfold t. by rewrite E. }
  assert (Hr : ∀ (f : Z * stage → nat) v k j, (∀ i, (i < n)%nat → f (t i) = v) → (j + k <= n)%nat → ranks f (t <$> seq j k) = (k * v)%nat).
  { intros f v k. unfold ranks. induction k as [|k IH]; intros j Hv Hjk; [done|]. cbn. rewrite Hv, IH by (done || lia). done. }
  exists (t <$> seq 0 n). split_and!.
  - unfold servers. rewrite <- list_fmap_compose. apply list_fmap_ext. intros i ? [-> Hi]%lookup_seq. cbn.
    destruct (Ht i Hi) as (k & E & -> & _). by apply startup_code.
  - split_and!.
    + by rewrite length_fmap, length_seq.
    + rewrite (Hr entered 0%nat) by (lia || (intros i Hi; by destruct (Ht i Hi) as (? & _ & -> & _))). by rewrite Nat.mul_0_r.
    + intros i r bs Hi Hr'. by rewrite Hs.
    + intros i u (j & -> & [-> Hi]%lookup_seq)%list_lookup_fmap_Some. destruct (Ht i Hi) as (k & _ & E & Hj). cbn. rewrite E.
      split; [by apply Hip|done].
  - apply Hr; [|lia]. intros i Hi. by destruct (Ht i Hi) as (? & _ & -> & _).
Qed.

Lemma bringup_reach n fuel boot ip s k ps s' :
  start_ok n fuel boot ip s → nsteps pool_step k (servers n fuel boot ip, s) (ps, s') →
  ∃ ts, ps = stage_code fuel (Z.of_nat n) <$> ts ∧ bringup_inv n boot ts s' ∧ (k <= n * (3 * n + 3))%nat.
Proof.
  intros Hst Hk. destruct (bringup_start n fuel boot ip s Hst) as (ts & E & HI & Hr). rewrite E in Hk. destruct Hst.
  destruct (staged_runs _ _ _ (bringup_inv n boot) _ _ _ _ _ (stage_staged fuel (Z.of_nat n))
              (bringup_step n fuel boot st_range0 st_boot0 st_fuel0) HI Hk) as (ts' & -> & HI' & _ & Hk').
  exists ts'. split_and!; [done|done|lia].
Qed.

Lemma returned_up n fuel boot ts s (i : nat) me k :
  bringup_inv n boot ts s → (stage_code fuel (Z.of_nat n) <$> ts) !! i = Some (Return (me, k)) →
  (i < n)%nat ∧ me = Z.of_nat i ∧ joined n boot i (λ r, (r < n)%nat) k.
Proof.
  intros (Hl & _ & _ & Hat) (t & Et & Hi)%list_lookup_fmap_Some. specialize (Hat i t Hi).
  pose proof (lookup_lt_Some _ _ _ Hi). destruct t as [me' [ip k'|f cur k'|f m r num k'|f m r num k'|k'|k'|e]]; try done.
  injection Et as -> ->. destruct Hat as (E & Hj & _). split_and!; [lia|exact E|exact Hj].
Qed.

(** C18. Servers that start together come up: in whatever order they step,
    there are at most [n * (3 * n + 3)] steps, and until every server has
    returned, with its own id, some server can step. The servers wait for each
    other in pairs, and never in a circle. *)
Theorem cluster_comes_up n fuel boot ip s k ps s' :
  start_ok n fuel boot ip s → nsteps pool_step k (servers n fuel boot ip, s) (ps, s') →
  (k <= n * (3 * n + 3))%nat ∧
  ((∀ i : nat, (i < n)%nat → ∃ kp, ps !! i = Some (Return (Z.of_nat i, kp))) ∨ ∃ c, pool_step (ps, s') c).
Proof.
  intros Hst Hk. destruct (bringup_reach _ _ _ _ _ _ _ _ Hst Hk) as (ts & -> & HI & Hle). split; [done|].
  destruct Hst. destruct (bringup_progress n fuel boot st_range0 st_fuel0 ts s' HI) as [Hup|(i & t & Hi & Ht)].
  - left. intros i Hi. destruct (lookup_lt_is_Some_2 ts i) as [t Et]; [destruct HI; lia|].
    destruct (Hup i t Et) as (kp & ->). exists kp. by rewrite list_lookup_fmap, Et.
  - right. eapply staged_can_step; [apply stage_staged|exact Hi|exact Ht].
Qed.

(** C17. Two servers that have come up talk to each other: the queue pair that
    a thread of the one has for a directory of the other, and the one that this
    directory has for that thread, are ready, name each other, and expect each
    other's first packet; each of them has the bases and keys of the regions of
    the other. *)
Theorem cluster_paired n fuel boot ip s k ps s' (i j : nat) me ki you kj :
  start_ok n fuel boot ip s → nsteps pool_step k (servers n fuel boot ip, s) (ps, s') →
  ps !! i = Some (Return (me, ki)) → ps !! j = Some (Return (you, kj)) →
  (me = Z.of_nat i ∧ you = Z.of_nat j) ∧ knows boot ki j ∧
  ∀ a d q q', app_qp ki a d j = Some q → dir_qp kj d a i = Some q' →
    qp_at q = IBV_QPS_RTS ∧ qp_at q' = IBV_QPS_RTS ∧
    a_dest_qp_num (qp_attr q) = qp_num q' ∧ a_dest_qp_num (qp_attr q') = qp_num q ∧
    a_rq_psn (qp_attr q) = a_sq_psn (qp_attr q') ∧ a_rq_psn (qp_attr q') = a_sq_psn (qp_attr q).
Proof.
  intros Hst Hk Hi Hj. destruct (bringup_reach _ _ _ _ _ _ _ _ Hst Hk) as (ts & -> & HI & _).
  destruct (returned_up _ _ _ _ _ _ _ _ HI Hi) as (Hin & -> & Ji), (returned_up _ _ _ _ _ _ _ _ HI Hj) as (Hjn & -> & Jj).
  split_and!; [done|done|by apply Ji|]. intros a d q q' Hq Hq'.
  pose proof (jn_app _ _ _ _ _ Ji a d j) as H1. rewrite Hq in H1. inversion H1 as [q0 ? (N1 & _ & C1) E1|]; subst.
  pose proof (jn_dir _ _ _ _ _ Jj d a i) as H2. rewrite Hq' in H2. inversion H2 as [q0' ? (N2 & _ & C2) E2|]; subst.
  destruct (C1 Hjn) as (qr & c & Eq & _ & [A1 A2 _ _ [A3 A4] _]), (C2 Hin) as (qr' & c' & Eq' & _ & [B1 B2 _ _ [B3 B4] _]).
  simplify_eq. split_and!; congruence.
Qed.
End theorems.

(** ** Two servers *)
Definition ex_qp (i kind a d r : nat) : ibv_qp :=
  Qp (100000 * Z.of_nat i + 10000 * Z.of_nat kind + 100 * Z.of_nat a + 10 * Z.of_nat d + Z.of_nat r) IBV_QPT_RC (attr_zero IBV_QPS_RESET).
Definition ex_ctx (i : nat) : RdmaContext := Ctx 1 1 (Z.of_nat i + 7) (replicate 16 (Z.of_nat i)).
Definition ex_meta : ExchangeMeta :=
  let t := EPT 0 (replicate 16 0) 0 0 in
  EM 0 0 0 (replicate n_app t) (replicate n_dir t) (replicate n_app 0) (replicate n_dir 0)
     (replicate n_app (replicate n_dir 0)) (replicate n_dir (replicate n_app 0)).

Definition ex_thread (i a : nat) : ThreadConnection :=
  TC (ex_ctx i) 4096 (Z.of_nat (200 + a)) (Z.of_nat (300 + a)) ((λ d, ex_qp i 0 a d <$> seq 0 2) <$> seq 0 n_dir).
Definition ex_directory (i d : nat) : DirectoryConnection :=
  DC (ex_ctx i) (8192 * Z.of_nat i) 0 (Z.of_nat (400 + d)) (Z.of_nat (500 + d)) ((λ a, ex_qp i 1 a d <$> seq 0 2) <$> seq 0 n_app).
Definition ex_boot `{Ibv} (i : nat) : DSMKeeper :=
  let no := RC 0 [] [] [] 0 0 [] [] [] in
  DK (ex_thread i <$> seq 0 n_app) (ex_directory i <$> seq 0 n_dir) [no; no] ex_meta.
Definition ex_ip (i : nat) : list byte := text "10.0.0." ++ to_string (Z.of_nat i + 1).
Definition ex_memc : gmap (list byte) (list byte) := <[SERVER_NUM_KEY := text "0"]> ∅.

Lemma ex_meta_ok : meta_ok ex_meta.
Proof.
  assert (Ht : per_thread_ok (EPT 0 (replicate 16 0) 0 0)) by done.
  assert (Hr : ∀ k, row_ok k (replicate k 0)) by (intros k; split; [apply length_replicate|by apply Forall_replicate]).
  unfold meta_ok. cbn [appTh dirTh appUdQpn dirUdQpn appRcQpn2dir dirRcQpn2app ex_meta].
  split_and!; rewrite ?length_replicate; try done; try apply Forall_replicate; try apply Hr; done.
Qed.

Lemma ex_rows_ok (f : nat → nat → ibv_qp) k :
  (∀ x r, (x < k)%nat → (r < 2)%nat → qp_kind (f x r) = IBV_QPT_RC ∧ uint 32 (qp_num (f x r))) →
  rows_ok 2 k ((λ x, f x <$> seq 0 2) <$> seq 0 k).
Proof.
  intros Hf. split; [by rewrite length_fmap, length_seq|]. apply Forall_fmap, Forall_seq. intros x Hx. cbn.
  split; [done|]. repeat constructor; apply Hf; lia.
Qed.

Lemma ex_boot_ok `{Ibv} : boot_ok 2 ex_boot.
Proof.
  intros i Hi. split.
  - split; try done; [| |exact ex_meta_ok].
    + intros c (a & -> & Ha%elem_of_seq)%list_elem_of_fmap. change n_app with 65%nat in Ha. unfold ctx_ok, uint. cbn [t_ctx ctx_lid ctx_gid ex_thread ex_ctx t_cachePool t_rkey t_qpn t_data].
      split_and!; try lia; [by rewrite length_replicate|]. apply ex_rows_ok. intros d r Hd Hr. change n_dir with 1%nat in Hd. split; [done|]. cbn [qp_num ex_qp]. unfold uint. lia.
    + intros c (d & -> & Hd%elem_of_seq)%list_elem_of_fmap. change n_dir with 1%nat in Hd. unfold ctx_ok, uint. cbn [d_ctx ctx_lid ctx_gid ex_directory ex_ctx d_dsmPool d_lockPool d_rkey d_qpn data2app].
      split_and!; try lia; [by rewrite length_replicate|]. apply ex_rows_ok. intros a r Ha Hr. change n_app with 65%nat in Ha. split; [done|]. cbn [qp_num ex_qp]. unfold uint. lia.
  - intros r. split.
    + intros a d q. unfold app_qp. cbn [ex_boot thCon]. rewrite list_lookup_fmap. destruct (seq 0 n_app !! a) as [a'|]; [|done]. cbn [option_fmap option_map mbind option_bind fmap ex_thread t_data].
      rewrite list_lookup_fmap. destruct (seq 0 n_dir !! d) as [d'|]; [|done]. cbn [option_fmap option_map mbind option_bind fmap]. rewrite list_lookup_fmap. destruct (seq 0 2 !! r); [|done]. by intros [= <-].
    + intros d a q. unfold dir_qp. cbn [ex_boot dirCon]. rewrite list_lookup_fmap. destruct (seq 0 n_dir !! d) as [d'|]; [|done]. cbn [option_fmap option_map mbind option_bind fmap ex_directory data2app].
      rewrite list_lookup_fmap. destruct (seq 0 n_app !! a) as [a'|]; [|done]. cbn [option_fmap option_map mbind option_bind fmap]. rewrite list_lookup_fmap. destruct (seq 0 2 !! r); [|done]. by intros [= <-].
Qed.

Lemma ex_start_ok : start_ok (H := ibv_model) (H0 := memcached_model) 2 2 ex_boot ex_ip ex_memc.
Proof.
  split; [done|done|apply ex_boot_ok|intros [|[|i]] Hi; [by vm_compute..|lia]|by vm_compute|].
  intros [|[|i]] [|[|r]] Hi Hr; first [lia|by vm_compute].
Qed.

Definition ex_servers : list (proc (memc (Memcached := memcached_model)) (Z * DSMKeeper (H := ibv_model))) :=
  servers (H := ibv_model) (H0 := memcached_model) 2 2 ex_boot ex_ip.

(** Both enter, look at the counter, and serve each other. *)
Definition ex_schedule : list nat := [0; 1; 0; 1; 0; 1; 0; 1; 0; 1]%nat.

Lemma ex_up : ∃ ps s' k0 k1, nsteps pool_step 10 (ex_servers, ex_memc) (ps, s') ∧
  ps !! 0%nat = Some (Return (0, k0)) ∧ ps !! 1%nat = Some (Return (1, k1)).
Proof.
  assert (Hup : match schedule ex_schedule ex_servers ex_memc with
                | Some (ps, _) => match ps !! 0%nat, ps !! 1%nat with
                                  | Some (Return (a, _)), Some (Return (b, _)) => (a =? 0) && (b =? 1)
                                  | _, _ => false
                                  end
                | None => false
                end = true) by (vm_compute; reflexivity).
  destruct (schedule ex_schedule ex_servers ex_memc) as [[ps s']|] eqn:E; [|done]. apply schedule_nsteps in E.
  destruct (ps !! 0%nat) as [[[a k0]| |]|] eqn:E0; try done. destruct (ps !! 1%nat) as [[[b k1]| |]|] eqn:E1; try done.
  apply andb_true_iff in Hup as [->%Z.eqb_eq ->%Z.eqb_eq]. by exists ps, s', k0, k1.
Qed.

Lemma cluster_comes_up_witness :
  ∃ c, pool_step (ex_servers, ex_memc) c.
Proof.
  destruct (cluster_comes_up (H := ibv_model) (H0 := memcached_model) 2 2 ex_boot ex_ip ex_memc 0 ex_servers ex_memc ex_start_ok (nsteps_O _ _))
    as (_ & [Hup|Hc]); [|exact Hc].
  destruct (Hup 0%nat) as [kp Hkp]; [lia|]. by unfold ex_servers, servers in Hkp.
Defined.

Lemma cluster_paired_witness :
  ∃ ps s' k0 k1, nsteps pool_step 10 (ex_servers, ex_memc) (ps, s') ∧
    ps !! 0%nat = Some (Return (0, k0)) ∧ ps !! 1%nat = Some (Return (1, k1)) ∧
    ∀ a d q q', app_qp k0 a d 1 = Some q → dir_qp k1 d a 0 = Some q' → a_dest_qp_num (qp_attr q) = qp_num q'.
Proof.
  destruct ex_up as (ps & s' & k0 & k1 & Hk & E0 & E1). exists ps, s', k0, k1. split_and!; [done..|].
  intros a d q q' Hq Hq'.
  destruct (cluster_paired (H := ibv_model) (H0 := memcached_model) 2 2 ex_boot ex_ip ex_memc 10 ps s' 0 1 0 k0 1 k1 ex_start_ok Hk E0 E1)
    as (_ & _ & Hp). by apply (Hp a d q q').
Defined.
