(* ===== verification/Tickets.v ===== *)
(** * Tickets

    Threads that draw a ticket, wait until it is served, and pass the turn on:
    the protocol of the local locks, as phases of a process ([obeys]). In every
    interleaving of at most 256 threads that obey it, one at most is served.
    Tickets have 8 bits. *)

From Stdlib Require Import ZArith Lia Bool.
From stdpp Require Import base tactics decidable option numbers list relations.
From S2P Require Import Prelude Process.

(** Where a thread is: not involved, waiting with a ticket, or served; a served
    thread is inside the section it protects or not. *)
Inductive phase : Set := Outside | Waiting (t : Z) | Served (inside : bool).

Section tickets.
Context {S : Type} (current ticket inside : S → Z).
Implicit Types (s : S) (ph : phase) (phs : list phase).

(** What a thread may do to the counters, by its phase. *)
Definition phase_step s ph s' ph' : Prop :=
  match ph, ph' with
  | Outside, Outside | Served true, Served true | Served false, Served false =>
    current s' = current s ∧ ticket s' = ticket s ∧ inside s' = inside s
  | Outside, Waiting t => t = ticket s ∧ current s' = current s ∧ ticket s' = ticket s +[8] 1 ∧ inside s' = inside s
  | Waiting t, Waiting t' => t' = t ∧ current s' = current s ∧ ticket s' = ticket s ∧ inside s' = inside s
  | Waiting t, Served false => t = current s ∧ current s' = current s ∧ ticket s' = ticket s ∧ inside s' = inside s
  | Served false, Served true => current s' = current s ∧ ticket s' = ticket s ∧ inside s' = inside s + 1
  | Served true, Served false => current s' = current s ∧ ticket s' = ticket s ∧ inside s' = inside s - 1
  | Served false, Outside => current s' = current s +[8] 1 ∧ ticket s' = ticket s ∧ inside s' = inside s
  | _, _ => False
  end.

(** The process, from the phase [ph] on, keeps to the protocol and ends with
    [Q]. *)
Fixpoint obeys {A} (p : proc S A) ph (Q : phase → A → Prop) : Prop :=
  match p with
  | Return a => Q ph a
  | Crash _ => True
  | Act f => ∀ s, match f s with
                  | Some (s', p') => ∃ ph', phase_step s ph s' ph' ∧ obeys p' ph' Q
                  | None => True
                  end
  end.

Lemma obeys_mono {A} (p : proc S A) ph (Q Q' : phase → A → Prop) :
  obeys p ph Q → (∀ ph' a, Q ph' a → Q' ph' a) → obeys p ph Q'.
Proof.
  intros H HQ. revert ph H. induction p as [a|e|f IH] using proc_ind'; intros ph; cbn; [apply HQ|done|].
  intros H s. specialize (H s). destruct (f s) as [[s' p']|] eqn:E; [|done].
  destruct H as (ph' & Hs & H). exists ph'. split; [done|]. by eapply IH.
Qed.

Lemma obeys_bind {A B} (p : proc S A) (k : A → proc S B) ph R Q :
  obeys p ph R → (∀ ph' a, R ph' a → obeys (k a) ph' Q) → obeys (p ≫= k) ph Q.
Proof.
  intros H Hk. unfold mbind, proc_bind. revert ph H. induction p as [a|e|f IH] using proc_ind'; intros ph; cbn; [apply Hk|done|].
  intros H s. specialize (H s). destruct (f s) as [[s' p']|] eqn:E; [|done].
  destruct H as (ph' & Hs & H). exists ph'. split; [done|]. by eapply IH.
Qed.

(** Processes that do not take part, and actions that do not. *)
Definition same s s' : Prop := current s' = current s ∧ ticket s' = ticket s ∧ inside s' = inside s.

Class Quiet {A} (p : proc S A) : Prop := quiet : ∀ ph, obeys p ph (λ ph' _, ph' = ph).

Lemma same_phase s s' ph : same s s' → phase_step s ph s' ph.
Proof. unfold same. intros. by destruct ph as [|t|[]]. Qed.

Lemma quiet_act {A} (f : S → option (S * proc S A)) :
  (∀ s s' p, f s = Some (s', p) → same s s' ∧ Quiet p) → Quiet (Act f).
Proof.
  intros H ph s. destruct (f s) as [[s' p]|] eqn:E; [|done]. destruct (H _ _ _ E) as [Hs Hp].
  exists ph. split; [by apply same_phase|apply Hp].
Qed.

#[export] Instance quiet_ret {A} (a : A) : Quiet (mret a : proc S A).
Proof. by intros ph. Qed.

#[export] Instance quiet_bind {A B} (p : proc S A) (k : A → proc S B) :
  Quiet p → (∀ a, Quiet (k a)) → Quiet (p ≫= k).
Proof. intros Hp Hk ph. eapply obeys_bind; [apply Hp|]. cbn. intros ph' a ->. apply Hk. Qed.

Lemma quiet_atomic {A} (f : S → A * S) : (∀ s, same s (f s).2) → Quiet (atomic f).
Proof.
  intros H. apply quiet_act. intros s s' p. specialize (H s). destruct (f s) as [a s1]. intros [= <- <-]. by split; [|apply _].
Qed.

Lemma obeys_quiet_bind {A B} (p : proc S A) (k : A → proc S B) ph Q :
  Quiet p → (∀ a, obeys (k a) ph Q) → obeys (p ≫= k) ph Q.
Proof. intros Hp Hk. eapply obeys_bind; [apply Hp|]. cbn. intros ph' a ->. apply Hk. Qed.

(** ** Exclusion *)

(** The tickets that are drawn and not passed on yet. *)
Definition drawn s ph : option Z :=
  match ph with Outside => None | Waiting t => Some t | Served _ => Some (current s) end.
Definition in_section ph : Z := match ph with Served true => 1 | _ => 0 end.
Fixpoint in_sections phs : Z := match phs with [] => 0 | ph :: phs => in_section ph + in_sections phs end.

Record queue_inv phs s : Prop := {
  qi_current : uint 8 (current s);
  qi_drawn : ∃ m : nat, omap (drawn s) phs ≡ₚ (λ i : nat, wrap 8 (current s + Z.of_nat i)) <$> seq 0 m ∧
                        ticket s = wrap 8 (current s + Z.of_nat m);
  qi_inside : inside s = in_sections phs }.

Lemma ticket_inj c (i j : nat) : (i < 256)%nat → (j < 256)%nat → wrap 8 (c + Z.of_nat i) = wrap 8 (c + Z.of_nat j) → i = j.
Proof.
  unfold wrap. change (2 ^ 8) with 256. intros Hi Hj H.
  pose proof (Z.div_mod (c + Z.of_nat i) 256). pose proof (Z.div_mod (c + Z.of_nat j) 256). nia.
Qed.

Lemma tickets_NoDup c m : (m <= 256)%nat → NoDup ((λ i : nat, wrap 8 (c + Z.of_nat i)) <$> seq 0 m).
Proof.
  intros Hm. apply NoDup_fmap_2_strong; [|apply NoDup_seq].
  intros i j Hi%elem_of_seq Hj%elem_of_seq. apply ticket_inj; lia.
Qed.

Lemma in_sections_app l1 l2 : in_sections (l1 ++ l2) = in_sections l1 + in_sections l2.
Proof. induction l1 as [|ph l1 IH]; cbn [in_sections app]; [done|]. rewrite IH. lia. Qed.

Lemma drawn_same s s' (l : list phase) : current s' = current s → omap (drawn s') l = omap (drawn s) l.
Proof. intros H. induction l as [|ph l IH]; cbn; [done|]. rewrite IH. by destruct ph; cbn; rewrite ?H. Qed.

Lemma drawn_others s s' (l : list phase) : current s ∉ omap (drawn s) l → omap (drawn s') l = omap (drawn s) l.
Proof.
  induction l as [|ph l IH]; cbn; [done|]. destruct ph; cbn; [done|..]; intros H%not_elem_of_cons; [|by destruct H].
  by rewrite IH by apply H.
Qed.

(** A served thread is the only one. *)
Lemma others_not_served l1 l2 b s :
  (length (l1 ++ Served b :: l2) <= 256)%nat → queue_inv (l1 ++ Served b :: l2) s →
  (current s ∉ omap (drawn s) l1) ∧ current s ∉ omap (drawn s) l2.
Proof.
  intros Hl [_ (m & Hd & _) _]. pose proof (omap_len (drawn s) (l1 ++ Served b :: l2)) as Hm.
  rewrite Hd, length_fmap, length_seq in Hm. pose proof (tickets_NoDup (current s) m ltac:(lia)) as Hnd.
  rewrite <- Hd, omap_snoc_middle in Hnd. cbn in Hnd. apply NoDup_app in Hnd as (_ & H1 & H2).
  apply NoDup_cons in H2 as [H2 _]. split; [|done]. intros H. apply (H1 _ H). by left.
Qed.

Lemma phase_keeps phs s s' (i : nat) ph ph' :
  (length phs <= 256)%nat → queue_inv phs s → phs !! i = Some ph → phase_step s ph s' ph' →
  queue_inv (<[i := ph']> phs) s'.
Proof.
  intros Hl Hq Hi Hs. apply list_elem_of_split_length in Hi as (l1 & l2 & -> & ->).
  rewrite insert_app_r_alt, Nat.sub_diag by done. cbn [insert list_insert].
  pose proof Hq as [Hc (m & Hd & Ht) Hin]. rewrite omap_snoc_middle in Hd. rewrite in_sections_app in Hin. cbn in Hin.
  assert (Hkeep : current s' = current s → ticket s' = ticket s → option_list (drawn s' ph') = option_list (drawn s ph) →
                  inside s' = inside s - in_section ph + in_section ph' → queue_inv (l1 ++ ph' :: l2) s').
  { intros Ec Et Ed Ei. split; [by rewrite Ec| |rewrite in_sections_app; cbn; lia].
    exists m. by rewrite omap_snoc_middle, !(drawn_same _ _ _ Ec), Ed, Ec, Et. }
  destruct ph as [|t|[]], ph' as [|t'|[]]; cbn in Hs; try done; destruct_and! Hs; try (apply Hkeep; cbn; by (congruence || lia)).
  - subst t'. split; [congruence| |rewrite in_sections_app; cbn; cbn in Hin; lia].
    exists (Datatypes.S m). rewrite omap_snoc_middle, !(drawn_same s s') by done. cbn [drawn option_list option_rect].
    replace (current s') with (current s) by done. rewrite seq_S, fmap_app, <- Hd. cbn. rewrite <- Ht.
    split; [solve_Permutation|].
    replace (ticket s') with (ticket s +[8] 1) by done. rewrite Ht. unfold wrap. rewrite Zplus_mod_idemp_l. f_equal. lia.
  - destruct (others_not_served _ _ _ _ Hl Hq) as [Hn1 Hn2].
    split; [replace (current s') with (current s +[8] 1) by done; apply Z.mod_pos_bound; lia| |rewrite in_sections_app; cbn; cbn in Hin; lia].
    rewrite omap_snoc_middle, !(drawn_others s s') by done. cbn. cbn in Hd. destruct m as [|m].
    { apply (f_equal length) in Hd || apply Permutation_length in Hd. rewrite length_app in Hd. cbn in Hd. lia. }
    exists m. split.
    + cbn in Hd. rewrite <- Permutation_middle in Hd.
      assert (Ec : wrap 8 (current s + Z.of_nat 0) = current s) by (rewrite Z.add_0_r; by apply Z.mod_small).
      rewrite Ec in Hd. apply Permutation_cons_inv in Hd. rewrite Hd, <- fmap_S_seq, <- list_fmap_compose.
      apply reflexive_eq, list_fmap_ext. intros _ i _. cbn. replace (current s') with (current s +[8] 1) by done.
      unfold wrap. rewrite Zplus_mod_idemp_l. f_equal. lia.
    + replace (current s') with (current s +[8] 1) by done. replace (ticket s') with (ticket s) by done. rewrite Ht.
      unfold wrap. rewrite Zplus_mod_idemp_l. f_equal. lia.
Qed.

(** The counter of the threads inside. *)
Lemma inv_inside phs s : (length phs <= 256)%nat → queue_inv phs s → 0 <= inside s <= 1.
Proof.
  intros Hl Hq. pose proof Hq as [_ _ ->].
  assert (Hz : ∀ l : list phase, current s ∉ omap (drawn s) l → in_sections l = 0).
  { induction l as [|[|t|b] l IH]; cbn; [done|..].
    - intros H. rewrite IH by done. done.
    - intros H%not_elem_of_cons. rewrite IH by apply H. done.
    - intros H%not_elem_of_cons. by destruct H. }
  assert (Hs : in_sections phs = 0 ∨ ∃ l1 l2, phs = l1 ++ Served true :: l2).
  { clear. induction phs as [|ph phs IH]; [by left|]. destruct IH as [IH|(l1 & l2 & ->)]; [|right; by exists (ph :: l1), l2].
    destruct ph as [|t|[]]; cbn; [by left..| |by left]. right. by exists [], phs. }
  destruct Hs as [->|(l1 & l2 & ->)]; [lia|].
  destruct (others_not_served _ _ _ _ Hl Hq) as [H1 H2].
  rewrite in_sections_app. cbn. rewrite (Hz l1), (Hz l2) by done. lia.
Qed.

(** In every interleaving of threads that keep to the protocol at most one is
    inside. *)
Lemma tickets_exclusive {A} (ps ps' : list (proc S A)) s s' :
  (length ps <= 256)%nat → Forall (λ p, obeys p Outside (λ ph _, ph = Outside)) ps →
  uint 8 (current s) → ticket s = current s → inside s = 0 →
  rtc pool_step (ps, s) (ps', s') → 0 <= inside s' <= 1.
Proof.
  intros Hl Hps Hc Ht Hin Hrun.
  assert (Hinv : ∃ phs, length phs = length ps ∧ Forall2 (λ p ph, obeys p ph (λ ph _, ph = Outside)) ps' phs ∧ queue_inv phs s').
  { remember (ps, s) as c. remember (ps', s') as c'. assert (Hinv : ∃ phs, length phs = length ps ∧
      Forall2 (λ p ph, obeys p ph (λ ph _, ph = Outside)) c.1 phs ∧ queue_inv phs c.2).
    { subst c. cbn. exists (replicate (length ps) Outside). split; [apply length_replicate|]. split.
      - clear -Hps. induction Hps; cbn; by constructor.
      - split; [done| |].
        + exists 0%nat. cbn. split; [|unfold wrap; rewrite Z.add_0_r; symmetry; rewrite Ht; by apply Z.mod_small].
          clear. by induction ps.
        + rewrite Hin. clear. by induction ps. }
    clear Heqc Hc Ht Hin Hps. induction Hrun as [c|c c1 c2 Hstep _ IH]; [by subst c|]. apply IH; [done|]. clear IH.
    destruct Hinv as (phs & Hlen & Hobs & Hq). inversion Hstep as [qs s1 i f s2 p' Hi Hf]; subst. cbn [fst snd] in *.
    destruct (Forall2_lookup_l _ _ _ _ _ Hobs Hi) as (ph & Hph & Ho). cbn in Ho. specialize (Ho s1). rewrite Hf in Ho.
    destruct Ho as (ph' & Hs & Ho). exists (<[i := ph']> phs). split; [by rewrite length_insert|].
    split; [by apply Forall2_insert|]. eapply phase_keeps; [|done..]. lia. }
  destruct Hinv as (phs & Hlen & _ & Hq). eapply inv_inside; [|done]. lia.
Qed.
End tickets.
