(* ===== verification/LockTable.v ===== *)
(** * The local lock table (include/LocalLockTable.h, include/Hash.h)

    Threads of one compute node that work on the same key share one remote
    operation: readers take over the result of the first (read delegation),
    writers leave their value for the first to write (write combining). Each
    function is a process whose actions are its accesses to the lock node;
    the spin on a ticket is a wait. *)

From Stdlib Require Import ZArith Lia Bool.
From stdpp Require Import base tactics decidable option numbers list relations.
From S2P Require Import Prelude.
From S2P Require Import Common.
From S2P Require Import Keys.
From S2P Require Import Address.
From S2P Require Import Process.

Definition MAX_HOCL_HANDOVER : Z := 8.

(** [LocalLockNode]. The mutexes are held or free; a pointer to a key is the
    key; [ret_value] and [ret_p] share one word. *)
Record LocalLockNode : Set := LN {
  read_current : Z;
  read_ticket : Z;
  read_handover : bool;
  write_current : Z;
  write_ticket : Z;
  write_handover : bool;
  window_start : bool;
  read_window : Z;
  write_window : Z;
  r_lock : bool;
  w_lock : bool;
  unique_read_key : option Key;
  unique_write_key : option Key;
  unique_addr : GlobalAddress;
  node_res : bool;
  ret_value : Z;
  wc_lock : bool;
  wc_buffer : Z;
  handover_cnt : Z
}.

Definition node_new : LocalLockNode :=
  LN 0 0 false 0 0 false false 0 0 false false None None gaddr_Null false 0 false 0 0.

Definition set_read_current (x : Z) (n : LocalLockNode) : LocalLockNode :=
  LN x (read_ticket n) (read_handover n) (write_current n) (write_ticket n) (write_handover n) (window_start n) (read_window n) (write_window n) (r_lock n) (w_lock n) (unique_read_key n) (unique_write_key n) (unique_addr n) (node_res n) (ret_value n) (wc_lock n) (wc_buffer n) (handover_cnt n).
Definition set_read_ticket (x : Z) (n : LocalLockNode) : LocalLockNode :=
  LN (read_current n) x (read_handover n) (write_current n) (write_ticket n) (write_handover n) (window_start n) (read_window n) (write_window n) (r_lock n) (w_lock n) (unique_read_key n) (unique_write_key n) (unique_addr n) (node_res n) (ret_value n) (wc_lock n) (wc_buffer n) (handover_cnt n).
Definition set_read_handover (x : bool) (n : LocalLockNode) : LocalLockNode :=
  LN (read_current n) (read_ticket n) x (write_current n) (write_ticket n) (write_handover n) (window_start n) (read_window n) (write_window n) (r_lock n) (w_lock n) (unique_read_key n) (unique_write_key n) (unique_addr n) (node_res n) (ret_value n) (wc_lock n) (wc_buffer n) (handover_cnt n).
Definition set_write_current (x : Z) (n : LocalLockNode) : LocalLockNode :=
  LN (read_current n) (read_ticket n) (read_handover n) x (write_ticket n) (write_handover n) (window_start n) (read_window n) (write_window n) (r_lock n) (w_lock n) (unique_read_key n) (unique_write_key n) (unique_addr n) (node_res n) (ret_value n) (wc_lock n) (wc_buffer n) (handover_cnt n).
Definition set_write_ticket (x : Z) (n : LocalLockNode) : LocalLockNode :=
  LN (read_current n) (read_ticket n) (read_handover n) (write_current n) x (write_handover n) (window_start n) (read_window n) (write_window n) (r_lock n) (w_lock n) (unique_read_key n) (unique_write_key n) (unique_addr n) (node_res n) (ret_value n) (wc_lock n) (wc_buffer n) (handover_cnt n).
Definition set_write_handover (x : bool) (n : LocalLockNode) : LocalLockNode :=
  LN (read_current n) (read_ticket n) (read_handover n) (write_current n) (write_ticket n) x (window_start n) (read_window n) (write_window n) (r_lock n) (w_lock n) (unique_read_key n) (unique_write_key n) (unique_addr n) (node_res n) (ret_value n) (wc_lock n) (wc_buffer n) (handover_cnt n).
Definition set_window_start (x : bool) (n : LocalLockNode) : LocalLockNode :=
  LN (read_current n) (read_ticket n) (read_handover n) (write_current n) (write_ticket n) (write_handover n) x (read_window n) (write_window n) (r_lock n) (w_lock n) (unique_read_key n) (unique_write_key n) (unique_addr n) (node_res n) (ret_value n) (wc_lock n) (wc_buffer n) (handover_cnt n).
Definition set_read_window (x : Z) (n : LocalLockNode) : LocalLockNode :=
  LN (read_current n) (read_ticket n) (read_handover n) (write_current n) (write_ticket n) (write_handover n) (window_start n) x (write_window n) (r_lock n) (w_lock n) (unique_read_key n) (unique_write_key n) (unique_addr n) (node_res n) (ret_value n) (wc_lock n) (wc_buffer n) (handover_cnt n).
Definition set_write_window (x : Z) (n : LocalLockNode) : LocalLockNode :=
  LN (read_current n) (read_ticket n) (read_handover n) (write_current n) (write_ticket n) (write_handover n) (window_start n) (read_window n) x (r_lock n) (w_lock n) (unique_read_key n) (unique_write_key n) (unique_addr n) (node_res n) (ret_value n) (wc_lock n) (wc_buffer n) (handover_cnt n).
Definition set_r_lock (x : bool) (n : LocalLockNode) : LocalLockNode :=
  LN (read_current n) (read_ticket n) (read_handover n) (write_current n) (write_ticket n) (write_handover n) (window_start n) (read_window n) (write_window n) x (w_lock n) (unique_read_key n) (unique_write_key n) (unique_addr n) (node_res n) (ret_value n) (wc_lock n) (wc_buffer n) (handover_cnt n).
Definition set_w_lock (x : bool) (n : LocalLockNode) : LocalLockNode :=
  LN (read_current n) (read_ticket n) (read_handover n) (write_current n) (write_ticket n) (write_handover n) (window_start n) (read_window n) (write_window n) (r_lock n) x (unique_read_key n) (unique_write_key n) (unique_addr n) (node_res n) (ret_value n) (wc_lock n) (wc_buffer n) (handover_cnt n).
Definition set_unique_read_key (x : option Key) (n : LocalLockNode) : LocalLockNode :=
  LN (read_current n) (read_ticket n) (read_handover n) (write_current n) (write_ticket n) (write_handover n) (window_start n) (read_window n) (write_window n) (r_lock n) (w_lock n) x (unique_write_key n) (unique_addr n) (node_res n) (ret_value n) (wc_lock n) (wc_buffer n) (handover_cnt n).
Definition set_unique_write_key (x : option Key) (n : LocalLockNode) : LocalLockNode :=
  LN (read_current n) (read_ticket n) (read_handover n) (write_current n) (write_ticket n) (write_handover n) (window_start n) (read_window n) (write_window n) (r_lock n) (w_lock n) (unique_read_key n) x (unique_addr n) (node_res n) (ret_value n) (wc_lock n) (wc_buffer n) (handover_cnt n).
Definition set_unique_addr (x : GlobalAddress) (n : LocalLockNode) : LocalLockNode :=
  LN (read_current n) (read_ticket n) (read_handover n) (write_current n) (write_ticket n) (write_handover n) (window_start n) (read_window n) (write_window n) (r_lock n) (w_lock n) (unique_read_key n) (unique_write_key n) x (node_res n) (ret_value n) (wc_lock n) (wc_buffer n) (handover_cnt n).
Definition set_node_res (x : bool) (n : LocalLockNode) : LocalLockNode :=
  LN (read_current n) (read_ticket n) (read_handover n) (write_current n) (write_ticket n) (write_handover n) (window_start n) (read_window n) (write_window n) (r_lock n) (w_lock n) (unique_read_key n) (unique_write_key n) (unique_addr n) x (ret_value n) (wc_lock n) (wc_buffer n) (handover_cnt n).
Definition set_ret_value (x : Z) (n : LocalLockNode) : LocalLockNode :=
  LN (read_current n) (read_ticket n) (read_handover n) (write_current n) (write_ticket n) (write_handover n) (window_start n) (read_window n) (write_window n) (r_lock n) (w_lock n) (unique_read_key n) (unique_write_key n) (unique_addr n) (node_res n) x (wc_lock n) (wc_buffer n) (handover_cnt n).
Definition set_wc_lock (x : bool) (n : LocalLockNode) : LocalLockNode :=
  LN (read_current n) (read_ticket n) (read_handover n) (write_current n) (write_ticket n) (write_handover n) (window_start n) (read_window n) (write_window n) (r_lock n) (w_lock n) (unique_read_key n) (unique_write_key n) (unique_addr n) (node_res n) (ret_value n) x (wc_buffer n) (handover_cnt n).
Definition set_wc_buffer (x : Z) (n : LocalLockNode) : LocalLockNode :=
  LN (read_current n) (read_ticket n) (read_handover n) (write_current n) (write_ticket n) (write_handover n) (window_start n) (read_window n) (write_window n) (r_lock n) (w_lock n) (unique_read_key n) (unique_write_key n) (unique_addr n) (node_res n) (ret_value n) (wc_lock n) x (handover_cnt n).
Definition set_handover_cnt (x : Z) (n : LocalLockNode) : LocalLockNode :=
  LN (read_current n) (read_ticket n) (read_handover n) (write_current n) (write_ticket n) (write_handover n) (window_start n) (read_window n) (write_window n) (r_lock n) (w_lock n) (unique_read_key n) (unique_write_key n) (unique_addr n) (node_res n) (ret_value n) (wc_lock n) (wc_buffer n) x.

(** ** Accesses *)
Abbreviation np := (proc LocalLockNode).

Definition ld {A} (f : LocalLockNode → A) : np A := atomic (λ n, (f n, n)).
Definition st (f : LocalLockNode → LocalLockNode) : np unit := atomic (λ n, (tt, f n)).

(** [fetch_add(1)] on an 8-bit counter. *)
Definition fetch_inc (get : LocalLockNode → Z) (set : Z → LocalLockNode → LocalLockNode) : np Z :=
  atomic (λ n, (get n, set (get n +[8] 1) n)).

(** [compare_exchange_strong(nullptr, new Key(k))]: the old pointer. *)
Definition cas_key (get : LocalLockNode → option Key) (set : option Key → LocalLockNode → LocalLockNode)
    (k : Key) : np (option Key) :=
  atomic (λ n, (get n, match get n with Some _ => n | None => set (Some k) n end)).

(** [window_start.compare_exchange_strong(false, true)] *)
Definition cas_window : np bool :=
  atomic (λ n, if window_start n then (false, n) else (true, set_window_start true n)).

(** [std::mutex] *)
Definition lock (get : LocalLockNode → bool) (set : bool → LocalLockNode → LocalLockNode) : np unit :=
  Act (λ n, if get n then None else Some (set true n, Return tt)).
Definition unlock (set : bool → LocalLockNode → LocalLockNode) : np unit := st (set false).

(** [if (window) { -- window; if (!read_window && !write_window) window_start = false; }] *)
Definition dec_window (get : LocalLockNode → Z) (set : Z → LocalLockNode → LocalLockNode) : np unit :=
  w ← ld get;
  if negb (w =? 0) then
    st (λ n, set (get n -[8] 1) n) ;;
    r ← ld read_window;
    if r =? 0 then
      w ← ld write_window;
      if w =? 0 then st (set_window_start false) else mret tt
    else mret tt
  else mret tt.

(** ** Read delegation *)

(** [acquire_local_read_lock] up to the ticket: nothing when another key is
    served. *)
Definition read_ticket_for (k : Key) : np (option Z) :=
  unique_key ← cas_key unique_read_key set_unique_read_key k;
  match unique_key with
  | Some u => if key_eqb u k then t ← fetch_inc read_ticket set_read_ticket; mret (Some t) else mret None
  | None => t ← fetch_inc read_ticket set_read_ticket; mret (Some t)
  end.

(** The check of the key when the ticket is served. *)
Definition read_served (k : Key) : np (bool * bool) :=
  unique_key ← ld unique_read_key;
  if bool_decide (unique_key = Some k) then
    w ← ld read_window;
    (if w =? 0 then st (set_read_handover false) else mret tt) ;;
    h ← ld read_handover; mret (h, false)
  else
    dec_window read_window set_read_window ;;
    fetch_inc read_current set_read_current ;;
    mret (false, true).

Definition read_wait (k : Key) (ticket : Z) : np (bool * bool) :=
  await (λ n, ticket =? read_current n) ;; read_served k.

Definition acquire_local_read_lock (k : Key) : np (bool * bool) :=
  t ← read_ticket_for k;
  match t with
  | None => mret (false, true)
  | Some ticket => read_wait k ticket
  end.

(** [release_local_read_lock]: [res] and [ret_value] after the call. *)
Definition release_local_read_lock (acquire_ret : bool * bool) (res : bool) (value : Z) : np (bool * Z) :=
  if acquire_ret.2 then mret (res, value)
  else
    h ← ld read_handover;
    '(res, value) ← (if negb h then
                       st (set_node_res res) ;; st (set_ret_value value) ;; mret (res, value)
                     else r ← ld node_res; v ← ld ret_value; mret (r, v)) : np (bool * Z);
    ticket ← ld read_ticket;
    current ← ld read_current;
    h ← ld read_handover;
    (if negb h then
       start ← cas_window;
       if (start : bool) then
         st (set_read_window (wrap 8 (256 + ticket - current))) ;;
         lock w_lock set_w_lock ;;
         w_current ← ld write_current;
         w_ticket ← ld write_ticket;
         st (set_write_window (wrap 8 (256 + w_ticket - w_current))) ;;
         unlock set_w_lock
       else mret tt
     else mret tt) ;;
    st (set_read_handover (negb (ticket =? current +[8] 1))) ;;
    h ← ld read_handover;
    (if negb h then st (set_unique_read_key None) else mret tt) ;;
    lock r_lock set_r_lock ;;
    dec_window read_window set_read_window ;;
    fetch_inc read_current set_read_current ;;
    unlock set_r_lock ;;
    mret (res, value).

(** ** Write combining *)
Definition write_ticket_for (k : Key) (v : Z) : np (option Z) :=
  unique_key ← cas_key unique_write_key set_unique_write_key k;
  match unique_key with
  | Some u => if key_eqb u k then
                lock wc_lock set_wc_lock ;; st (set_wc_buffer v) ;; unlock set_wc_lock ;;
                t ← fetch_inc write_ticket set_write_ticket; mret (Some t)
              else mret None
  | None =>
    lock wc_lock set_wc_lock ;; st (set_wc_buffer v) ;; unlock set_wc_lock ;;
    t ← fetch_inc write_ticket set_write_ticket; mret (Some t)
  end.

Definition write_served (k : Key) : np (bool * bool) :=
  unique_key ← ld unique_write_key;
  if bool_decide (unique_key = Some k) then
    w ← ld write_window;
    (if w =? 0 then st (set_write_handover false) else mret tt) ;;
    h ← ld write_handover; mret (h, false)
  else
    dec_window write_window set_write_window ;;
    fetch_inc write_current set_write_current ;;
    mret (false, true).

Definition write_wait (k : Key) (ticket : Z) : np (bool * bool) :=
  await (λ n, ticket =? write_current n) ;; write_served k.

Definition acquire_local_write_lock (k : Key) (v : Z) : np (bool * bool) :=
  t ← write_ticket_for k v;
  match t with
  | None => mret (false, true)
  | Some ticket => write_wait k ticket
  end.

(** [get_combining_value]: whether the value changed, and the value. *)
Definition get_combining_value (k : Key) (v : Z) : np (bool * Z) :=
  unique_key ← ld unique_write_key;
  if bool_decide (unique_key = Some k) then
    lock wc_lock set_wc_lock ;;
    b ← ld wc_buffer;
    b' ← ld wc_buffer;
    unlock set_wc_lock ;;
    mret (negb (b =? v), b')
  else mret (false, v).

Definition release_local_write_lock (acquire_ret : bool * bool) : np unit :=
  if acquire_ret.2 then mret tt
  else
    ticket ← ld write_ticket;
    current ← ld write_current;
    h ← ld write_handover;
    (if negb h then
       start ← cas_window;
       if (start : bool) then
         lock r_lock set_r_lock ;;
         r_current ← ld read_current;
         r_ticket ← ld read_ticket;
         st (set_read_window (wrap 8 (256 + r_ticket - r_current))) ;;
         unlock set_r_lock ;;
         st (set_write_window (wrap 8 (256 + ticket - current)))
       else mret tt
     else mret tt) ;;
    st (set_write_handover (negb (ticket =? current +[8] 1))) ;;
    h ← ld write_handover;
    (if negb h then st (set_unique_write_key None) else mret tt) ;;
    lock w_lock set_w_lock ;;
    dec_window write_window set_write_window ;;
    fetch_inc write_current set_write_current ;;
    unlock set_w_lock.

(** ** The baselines

    The remote functions are processes of the caller. *)

(** Served, the winner takes the node for its address. *)
Definition addr_served (handover : LocalLockNode → bool) (addr : GlobalAddress) : np bool :=
  h ← ld handover;
  (if negb h then st (set_unique_addr addr) else mret tt) ;;
  h ← ld handover;
  if (h : bool) then u ← ld unique_addr; mret (gaddr_eqb u addr) else mret false.

Definition acquire_local_lock (addr : GlobalAddress) : np bool :=
  ticket ← fetch_inc write_ticket set_write_ticket;
  await (λ n, ticket =? write_current n) ;; addr_served write_handover addr.

(** [node.write_handover = ...; if (handover_cnt ++ > MAX) ...; if (!write_handover) handover_cnt = 0;] *)
Definition decide_handover (ticket current : Z) : np unit :=
  st (set_write_handover (negb (ticket =? current +[8] 1))) ;;
  c ← atomic (λ n, (handover_cnt n, set_handover_cnt (handover_cnt n + 1) n));
  (if MAX_HOCL_HANDOVER <? c then st (set_write_handover false) else mret tt) ;;
  h ← ld write_handover;
  if negb h then st (set_handover_cnt 0) else mret tt.

Definition release_local_lock (addr : GlobalAddress) (unlock_func : GlobalAddress → np unit) : np unit :=
  ticket ← ld write_ticket;
  current ← ld write_current;
  decide_handover ticket current ;;
  u ← ld unique_addr;
  (if negb (gaddr_eqb u addr) then unlock_func addr else mret tt) ;;
  h ← ld write_handover;
  (if negb h then u ← ld unique_addr; unlock_func u else mret tt) ;;
  fetch_inc write_current set_write_current ;;
  mret tt.

Definition release_local_lock_embedded (addr : GlobalAddress)
    (unlock_func write_without_unlock write_and_unlock : GlobalAddress → np unit) : np unit :=
  ticket ← ld write_ticket;
  current ← ld write_current;
  decide_handover ticket current ;;
  h ← ld write_handover;
  u ← ld unique_addr;
  (if negb h then
     if negb (gaddr_eqb u addr) then u ← ld unique_addr; unlock_func u ;; write_and_unlock addr
     else write_and_unlock addr
   else
     if negb (gaddr_eqb u addr) then write_and_unlock addr else write_without_unlock addr) ;;
  fetch_inc write_current set_write_current ;;
  mret tt.

(** cas-handover *)
Definition key_served (k : Key) : np bool :=
  h ← ld write_handover;
  (if negb h then st (set_unique_write_key (Some k)) else mret tt) ;;
  u ← ld unique_write_key;
  h ← ld write_handover;
  mret (h && bool_decide (u = Some k)).

Definition acquire_local_lock_key (k : Key) : np bool :=
  ticket ← fetch_inc write_ticket set_write_ticket;
  await (λ n, ticket =? write_current n) ;; key_served k.

Definition release_local_lock_key (k : Key) (res : bool) (ret_p : Z) : np (bool * Z) :=
  u ← ld unique_write_key;
  '(res, ret_p) ← (if bool_decide (u = Some k) then
                     h ← ld write_handover;
                     if negb h then st (set_node_res res) ;; st (set_ret_value ret_p) ;; mret (res, ret_p)
                     else r ← ld node_res; p ← ld ret_value; mret (r, p)
                   else mret (res, ret_p)) : np (bool * Z);
  ticket ← ld write_ticket;
  current ← ld write_current;
  decide_handover ticket current ;;
  fetch_inc write_current set_write_current ;;
  mret (res, ret_p).

(** write-testing *)
Definition write_ticket_addr (v : Z) : np Z :=
  lock wc_lock set_wc_lock ;; st (set_wc_buffer v) ;; unlock set_wc_lock ;;
  fetch_inc write_ticket set_write_ticket.

Definition acquire_local_write_lock_addr (addr : GlobalAddress) (v : Z) : np bool :=
  ticket ← write_ticket_addr v;
  await (λ n, ticket =? write_current n) ;; addr_served write_handover addr.

Definition release_local_write_lock_addr (addr : GlobalAddress) (unlock_func : GlobalAddress → np unit)
    (v : Z) (write_func : Z → np unit) : np unit :=
  h ← ld write_handover;
  (if negb h then
     lock wc_lock set_wc_lock ;; wc_v ← ld wc_buffer; unlock set_wc_lock ;;
     write_func wc_v ;; u ← ld unique_addr; unlock_func u
   else mret tt) ;;
  u ← ld unique_addr;
  (if negb (gaddr_eqb u addr) then write_func v ;; unlock_func addr else mret tt) ;;
  ticket ← ld write_ticket;
  current ← ld write_current;
  st (set_write_handover (negb (ticket =? current +[8] 1))) ;;
  fetch_inc write_current set_write_current ;;
  mret tt.

(** read-testing *)
Definition acquire_local_read_lock_addr (addr : GlobalAddress) : np bool :=
  ticket ← fetch_inc read_ticket set_read_ticket;
  await (λ n, ticket =? read_current n) ;; addr_served read_handover addr.

Definition release_local_read_lock_addr (addr : GlobalAddress) (res : bool) (value : Z) : np (bool * Z) :=
  ticket ← ld read_ticket;
  current ← ld read_current;
  u ← ld unique_addr;
  '(res, value) ← (if gaddr_eqb u addr then
                     h ← ld read_handover;
                     if negb h then st (set_node_res res) ;; st (set_ret_value value) ;; mret (res, value)
                     else r ← ld node_res; v ← ld ret_value; mret (r, v)
                   else mret (res, value)) : np (bool * Z);
  st (set_read_handover (negb (ticket =? current +[8] 1))) ;;
  fetch_inc read_current set_read_current ;;
  mret (res, value).

(** ** The table

    [hash] is [CityHash64] on the bytes of a key or an address. *)
Section table.
Context (hash : list byte → Z).

Definition lock_table : Type := Z → LocalLockNode.

Definition get_hashed_lock_index (k : Key) : Z := hash k `mod` kLocalLockNum.
Definition get_hashed_lock_index_addr (addr : GlobalAddress) : Z :=
  hash (le_bytes 8 (gaddr_val addr)) `mod` kLocalLockNum.

(** A function on the node of a key. *)
Definition on_node {A} (i : Z) (p : np A) : proc lock_table A :=
  on (λ t, t i) (λ n t j, if j =? i then n else t j) p.

Definition table_new : lock_table := λ _, node_new.
End table.

(** ** One epoch

    The readers [rs] of a key queue up, then are served in order; each brings
    the result it would return by itself, and gets what it returns. *)
Definition serve_read (k : Key) (ticket : Z) (r : bool * Z) : np ((bool * bool) * (bool * Z)) :=
  acq ← read_wait k ticket;
  out ← release_local_read_lock acq r.1 r.2;
  mret (acq, out).

Fixpoint queue_read (k : Key) (rs : list (bool * Z)) : np (list (option Z * (bool * Z))) :=
  match rs with
  | [] => mret []
  | r :: rs => t ← read_ticket_for k; l ← queue_read k rs; mret ((t, r) :: l)
  end.

Fixpoint serve_reads (k : Key) (l : list (option Z * (bool * Z))) : np (list ((bool * bool) * (bool * Z))) :=
  match l with
  | [] => mret []
  | (Some t, r) :: l => out ← serve_read k t r; outs ← serve_reads k l; mret (out :: outs)
  | (None, r) :: l => outs ← serve_reads k l; mret (((false, true), r) :: outs)
  end.

(** The writers [vs] of a key queue up, then are served in order; the one that
    does not take over a result writes the combined value. *)
Definition serve_write (k : Key) (ticket : Z) (v : Z) : np ((bool * bool) * option Z) :=
  acq ← write_wait k ticket;
  if (acq : bool * bool).1 then release_local_write_lock acq ;; mret (acq, None)
  else
    out ← get_combining_value k v;
    release_local_write_lock acq ;;
    mret (acq, Some (out : bool * Z).2).

Fixpoint queue_write (k : Key) (vs : list Z) : np (list (option Z * Z)) :=
  match vs with
  | [] => mret []
  | v :: vs => t ← write_ticket_for k v; l ← queue_write k vs; mret ((t, v) :: l)
  end.

Fixpoint serve_writes (k : Key) (l : list (option Z * Z)) : np (list ((bool * bool) * option Z)) :=
  match l with
  | [] => mret []
  | (Some t, v) :: l => out ← serve_write k t v; outs ← serve_writes k l; mret (out :: outs)
  | (None, v) :: l => outs ← serve_writes k l; mret (((false, true), Some v) :: outs)
  end.

(** No thread holds or waits for the node. *)
Definition node_idle (n : LocalLockNode) : Prop :=
  read_current n = read_ticket n ∧ write_current n = write_ticket n ∧
  uint 8 (read_current n) ∧ uint 8 (write_current n) ∧
  unique_read_key n = None ∧ unique_write_key n = None ∧
  window_start n = false ∧ read_window n = 0 ∧ write_window n = 0 ∧
  r_lock n = false ∧ w_lock n = false ∧ wc_lock n = false.

(** A thread that writes [v] at [k]: the value it writes to remote memory, if
    it writes. *)
Definition writer (k : Key) (v : Z) : np ((bool * bool) * option Z) :=
  t ← write_ticket_for k v;
  match t with
  | Some ticket => serve_write k ticket v
  | None => mret ((false, true), Some v)
  end.

#[local] Arguments set_read_current x !n /.
#[local] Arguments set_read_ticket x !n /.
#[local] Arguments set_read_handover x !n /.
#[local] Arguments set_write_current x !n /.
#[local] Arguments set_write_ticket x !n /.
#[local] Arguments set_write_handover x !n /.
#[local] Arguments set_window_start x !n /.
#[local] Arguments set_read_window x !n /.
#[local] Arguments set_write_window x !n /.
#[local] Arguments set_r_lock x !n /.
#[local] Arguments set_w_lock x !n /.
#[local] Arguments set_unique_read_key x !n /.
#[local] Arguments set_unique_write_key x !n /.
#[local] Arguments set_unique_addr x !n /.
#[local] Arguments set_node_res x !n /.
#[local] Arguments set_ret_value x !n /.
#[local] Arguments set_wc_lock x !n /.
#[local] Arguments set_wc_buffer x !n /.
#[local] Arguments set_handover_cnt x !n /.
#[local] Arguments Z.eqb : simpl never.
#[local] Arguments serve_read : simpl never.
#[local] Arguments serve_write : simpl never.
#[local] Arguments Z.of_nat : simpl never.
#[local] Arguments Z.add : simpl never.
#[local] Arguments Z.sub : simpl never.
#[local] Arguments wrap : simpl never.
#[local] Arguments key_eqb : simpl never.
#[local] Arguments bool_decide : simpl never.

Lemma run_ld {A} (f : LocalLockNode → A) n : run (ld f) n = Ok (f n, n).
Proof. done. Qed.

Lemma run_st f n : run (st f) n = Ok (tt, f n).
Proof. done. Qed.

Lemma run_fetch_inc get set n : run (fetch_inc get set) n = Ok (get n, set (get n +[8] 1) n).
Proof. done. Qed.

Lemma run_cas_key get set k n :
  run (cas_key get set k) n = Ok (get n, match get n with Some _ => n | None => set (Some k) n end).
Proof. done. Qed.

Lemma run_cas_window n :
  run cas_window n = if window_start n then Ok (false, n) else Ok (true, set_window_start true n).
Proof. unfold cas_window. rewrite run_atomic. by destruct (window_start n). Qed.

Lemma run_lock get set n : get n = false → run (lock get set) n = Ok (tt, set true n).
Proof. intros H. unfold lock. cbn. by rewrite H. Qed.

Lemma run_unlock set n : run (unlock set) n = Ok (tt, set false n).
Proof. done. Qed.

(** The run of a process of accesses, access by access. *)
Ltac np_fields := cbn [read_current read_ticket read_handover write_current write_ticket write_handover window_start read_window write_window r_lock w_lock unique_read_key unique_write_key unique_addr node_res ret_value wc_lock wc_buffer handover_cnt
    set_read_current set_read_ticket set_read_handover set_write_current set_write_ticket set_write_handover set_window_start set_read_window set_write_window set_r_lock set_w_lock set_unique_read_key set_unique_write_key set_unique_addr set_node_res set_ret_value set_wc_lock set_wc_buffer set_handover_cnt
    negb andb orb fst snd].
Ltac np_run :=
  np_fields; repeat (first [ rewrite run_bind | rewrite run_ret | rewrite run_ld | rewrite run_st | rewrite run_fetch_inc
                | rewrite run_cas_key | rewrite run_cas_window | rewrite run_unlock
                | rewrite run_lock by done | rewrite Z.eqb_refl | rewrite bool_decide_true by done
                | rewrite run_await by (np_fields; apply Z.eqb_refl) ]; np_fields).

(** [c] is served and [m] requests from [c] on are queued. *)
Lemma ticket_last c m : 0 <= c < 256 → 1 <= m < 256 → (c +[8] m =? c +[8] 1) = (m =? 1).
Proof.
  intros Hc Hm. unfold wrap. change (2 ^ 8) with 256.
  pose proof (Z.div_mod (c + m) 256). pose proof (Z.mod_pos_bound (c + m) 256).
  pose proof (Z.div_mod (c + 1) 256). pose proof (Z.mod_pos_bound (c + 1) 256).
  destruct (Z.eqb_spec m 1); [subst; by apply Z.eqb_refl|]. apply Z.eqb_neq. nia.
Qed.

Lemma ticket_window c m : 0 <= c < 256 → 0 <= m < 256 → 256 + (c +[8] m) -[8] c = m.
Proof.
  intros Hc Hm. unfold wrap. change (2 ^ 8) with 256.
  rewrite Zminus_mod, Zplus_mod, Z.mod_mod, <- Zplus_mod, <- Zminus_mod by lia.
  replace (256 + (c + m) - c) with (m + 1 * 256) by lia. rewrite Z.mod_add by lia. by apply Z.mod_small.
Qed.

Lemma window_dec m : 1 <= m < 256 → m -[8] 1 = m - 1.
Proof. intros. unfold wrap. change (2 ^ 8) with 256. apply Z.mod_small. lia. Qed.

Lemma ticket_next c m : wrap 8 (wrap 8 (c + 1) + (m - 1)) = wrap 8 (c + m).
Proof. unfold wrap. rewrite Zplus_mod_idemp_l. f_equal. lia. Qed.

Lemma eqb_pred m : (m - 1 =? 0) = (m =? 1).
Proof. destruct (Z.eqb_spec m 1), (Z.eqb_spec (m - 1) 0); lia || done. Qed.

Lemma wrap8_bound z : 0 <= wrap 8 z < 256.
Proof. apply Z.mod_pos_bound. lia. Qed.

Lemma serve_read_first k c m h wc wt wh ww uwk ua nr rv wcl wcb hc r :
  0 <= c < 256 → 1 <= m < 256 →
  let w := wrap 8 (256 + wt - wc) in
  run (serve_read k c r) (LN c (wrap 8 (c + m)) h wc wt wh false 0 ww false false (Some k) uwk ua nr rv wcl wcb hc)
  = Ok ((false, false, r),
        LN (wrap 8 (c + 1)) (wrap 8 (c + m)) (negb (m =? 1)) wc wt wh (negb ((m =? 1) && (w =? 0))) (m - 1) w
           false false (if m =? 1 then None else Some k) uwk ua r.1 r.2 wcl wcb hc).
Proof.
  destruct r as [res v]. intros Hc Hm. unfold serve_read, read_wait, read_served, release_local_read_lock, dec_window. np_run.
  rewrite ticket_last by lia. rewrite negb_involutive.
  assert ((m =? 0) = false) as Em by (apply Z.eqb_neq; lia).
  destruct (Z.eqb_spec m 1) as [->|Hm1]; np_run; rewrite ticket_window by lia; np_run; rewrite ?Em; np_run.
  - rewrite window_dec by lia. change (1 - 1) with 0. np_run. by destruct (256 + wt -[8] wc =? 0); np_run.
  - rewrite window_dec by lia.
    replace (m - 1 =? 0) with false by (symmetry; apply Z.eqb_neq; lia). by np_run.
Qed.

Lemma serve_read_next k c m wc wt wh ww uwk ua nr rv wcl wcb hc r ws :
  0 <= c < 256 → 1 <= m < 256 →
  run (serve_read k c r) (LN c (wrap 8 (c + m)) true wc wt wh ws m ww false false (Some k) uwk ua nr rv wcl wcb hc)
  = Ok ((true, false, (nr, rv)),
        LN (wrap 8 (c + 1)) (wrap 8 (c + m)) (negb (m =? 1)) wc wt wh (ws && negb ((m =? 1) && (ww =? 0))) (m - 1) ww
           false false (if m =? 1 then None else Some k) uwk ua nr rv wcl wcb hc).
Proof.
  destruct r as [res v]. intros Hc Hm. unfold serve_read, read_wait, read_served, release_local_read_lock, dec_window. np_run.
  assert ((m =? 0) = false) as Em by (apply Z.eqb_neq; lia). rewrite Em. np_run.
  rewrite ticket_last by lia. rewrite negb_involutive.
  destruct (Z.eqb_spec m 1) as [->|Hm1]; np_run; rewrite ?Em; np_run.
  - rewrite window_dec by lia. change (1 - 1) with 0. np_run.
    destruct (ww =? 0); np_run; by rewrite ?andb_false_r, ?andb_true_r.
  - rewrite window_dec by lia.
    replace (m - 1 =? 0) with false by (symmetry; apply Z.eqb_neq; lia). np_run. by rewrite andb_true_r.
Qed.

Lemma queue_read_spec k rs c T h wc wt wh ws rw ww rl wl uk uwk ua nr rv wcl wcb hc :
  uk = None ∨ uk = Some k → uint 8 T →
  run (queue_read k rs) (LN c T h wc wt wh ws rw ww rl wl uk uwk ua nr rv wcl wcb hc)
  = Ok (imap (λ i r, (Some (wrap 8 (T + Z.of_nat i)), r)) rs,
        LN c (wrap 8 (T + Z.of_nat (length rs))) h wc wt wh ws rw ww rl wl
           (if decide (rs = []) then uk else Some k) uwk ua nr rv wcl wcb hc).
Proof.
  revert T uk. induction rs as [|r rs IH]; intros T uk Huk HT.
  - cbn. rewrite Z.add_0_r. unfold wrap, uint in *. by rewrite Z.mod_small.
  - assert (run (read_ticket_for k) (LN c T h wc wt wh ws rw ww rl wl uk uwk ua nr rv wcl wcb hc)
            = Ok (Some T, LN c (wrap 8 (T + 1)) h wc wt wh ws rw ww rl wl (Some k) uwk ua nr rv wcl wcb hc)) as Ht.
    { unfold read_ticket_for. destruct Huk as [-> | ->]; np_run; [done|].
      unfold key_eqb. rewrite bool_decide_true by done. by np_run. }
    cbn [queue_read]. rewrite (run_bind_Ok _ _ _ _ _ Ht), run_bind, IH; [|by right|apply wrap8_bound].
    cbn. f_equal. f_equal; [f_equal|f_equal].
    + do 2 f_equal. unfold wrap, uint in *. rewrite Z.add_0_r. by rewrite Z.mod_small.
    + apply imap_ext. intros i x _. cbn. do 2 f_equal. unfold wrap. rewrite Zplus_mod_idemp_l. f_equal. lia.
    + unfold wrap. rewrite Zplus_mod_idemp_l. f_equal. lia.
    + by destruct (decide _).
Qed.

(** The node while [m] readers from ticket [c] on remain to be served. *)
Definition read_epoch (k : Key) (c m : Z) (n : LocalLockNode) : LocalLockNode :=
  let go := negb (m =? 0) in
  set_read_current c (set_read_ticket (wrap 8 (c + m)) (set_read_handover go
    (set_window_start go (set_read_window m
      (set_unique_read_key (if go then Some k else None) n))))).

Lemma read_epoch_queue k rs n :
  node_idle n → rs ≠ [] →
  run (queue_read k rs) n
  = Ok (imap (λ i r, (Some (wrap 8 (read_current n + Z.of_nat i)), r)) rs,
        set_read_ticket (wrap 8 (read_current n + Z.of_nat (length rs))) (set_unique_read_key (Some k) n)).
Proof.
  destruct n. unfold node_idle. cbn. intros (-> & _ & HT & _ & -> & _) Hrs.
  rewrite queue_read_spec by (done || by left). by rewrite decide_False by done.
Qed.

Lemma read_epoch_first k r m n :
  node_idle n → 1 <= m < 256 →
  run (serve_read k (read_current n) r)
    (set_read_ticket (wrap 8 (read_current n + m)) (set_unique_read_key (Some k) n))
  = Ok ((false, false, r),
        read_epoch k (wrap 8 (read_current n + 1)) (m - 1) (set_node_res r.1 (set_ret_value r.2 n))).
Proof.
  destruct n as [c T h wc wt wh ws rw ww rl wl uk uwk ua nr rv wcl wcb hc].
  unfold node_idle, read_epoch. cbn. intros (-> & -> & Hc & Hw & -> & -> & -> & -> & -> & -> & -> & ->) Hm.
  rewrite serve_read_first by done. rewrite ticket_next.
  rewrite eqb_pred.
  replace (256 + wt - wt) with 256 by lia. change (wrap 8 256) with 0. rewrite Z.eqb_refl, andb_true_r.
  by destruct (m =? 1).
Qed.

Lemma read_epoch_next k r c m n :
  write_window n = 0 → r_lock n = false → w_lock n = false → uint 8 c → 1 <= m < 256 →
  run (serve_read k c r) (read_epoch k c m n)
  = Ok ((true, false, (node_res n, ret_value n)), read_epoch k (wrap 8 (c + 1)) (m - 1) n).
Proof.
  destruct n as [c' T h wc wt wh ws rw ww rl wl uk uwk ua nr rv wcl wcb hc].
  unfold read_epoch. cbn. intros -> -> -> Hc Hm.
  replace (m =? 0) with false by (symmetry; apply Z.eqb_neq; lia). cbn.
  rewrite serve_read_next by done. rewrite ticket_next.
  rewrite eqb_pred.
  rewrite Z.eqb_refl, andb_true_r, andb_true_l. by destruct (m =? 1).
Qed.

Lemma read_epoch_rest k rs c n :
  write_window n = 0 → r_lock n = false → w_lock n = false → uint 8 c → Z.of_nat (length rs) < 256 →
  run (serve_reads k (imap (λ i r, (Some (wrap 8 (c + Z.of_nat i)), r)) rs)) (read_epoch k c (Z.of_nat (length rs)) n)
  = Ok (map (λ _, (true, false, (node_res n, ret_value n))) rs,
        read_epoch k (wrap 8 (c + Z.of_nat (length rs))) 0 n).
Proof.
  intros Hw Hr Hl. revert c. induction rs as [|r rs IH]; intros c Hc Hlen.
  { cbn. rewrite Z.add_0_r. do 3 f_equal. symmetry. by apply Z.mod_small. }
  cbn [imap serve_reads map]. cbn [length] in *.
  replace (wrap 8 (c + Z.of_nat 0)) with c by (rewrite Z.add_0_r; symmetry; by apply Z.mod_small).
  rewrite run_bind, read_epoch_next by (done || lia). rewrite run_bind.
  replace (Z.of_nat (S (length rs)) - 1) with (Z.of_nat (length rs)) by lia.
  rewrite (imap_ext _ (λ i r, (Some (wrap 8 (wrap 8 (c + 1) + Z.of_nat i)), r))).
  2:{ intros i x _. cbn. unfold wrap. rewrite Zplus_mod_idemp_l. do 3 f_equal. lia. }
  rewrite IH by (apply wrap8_bound || lia). rewrite run_ret. do 3 f_equal.
  unfold wrap. rewrite Zplus_mod_idemp_l. f_equal. lia.
Qed.

(** C10. Read delegation: when up to 255 readers of a key queue up on an idle
    node and are then served in ticket order, the first one alone performs the
    remote read and every other one gets that reader's result; the node is
    idle again afterwards, its tickets having wrapped around at 8 bits. *)
Theorem read_delegation_epoch (k : Key) (r : bool * Z) (rs : list (bool * Z)) (n : LocalLockNode)
    (Hidle : node_idle n) (Hlen : Z.of_nat (length rs) < 255) :
  ∃ n', run (l ← queue_read k (r :: rs); serve_reads k l) n
        = Ok ((false, false, r) :: map (λ _, (true, false, r)) rs, n') ∧
        node_idle n' ∧ read_ticket n' = wrap 8 (read_ticket n + Z.of_nat (length rs) + 1).
Proof.
  pose proof Hidle as (Hcur & Hcur' & Hc & Hw & _ & Hwk & _ & _ & Hww & Hr & Hl & Hwl).
  rewrite run_bind, read_epoch_queue by done. cbn [imap serve_reads length].
  replace (wrap 8 (read_current n + Z.of_nat 0)) with (read_current n)
    by (rewrite Z.add_0_r; symmetry; by apply Z.mod_small).
  rewrite run_bind, read_epoch_first by (done || lia). rewrite run_bind.
  replace (Z.of_nat (S (length rs)) - 1) with (Z.of_nat (length rs)) by lia.
  rewrite (imap_ext _ (λ i r, (Some (wrap 8 (wrap 8 (read_current n + 1) + Z.of_nat i)), r))).
  2:{ intros i x _. cbn. unfold wrap. rewrite Zplus_mod_idemp_l. do 3 f_equal. lia. }
  rewrite read_epoch_rest by first [apply wrap8_bound | lia | destruct n; assumption]. rewrite run_ret.
  eexists. split; [destruct n, r; reflexivity|].
  destruct n. unfold node_idle, read_epoch in *. cbn in *. subst.
  split.
  - do 2 (split; [unfold wrap; rewrite ?Z.add_0_r, ?Z.mod_mod by lia; done|]).
    split; [apply wrap8_bound|]. by repeat split; try apply Hw.
  - unfold wrap. rewrite Z.add_0_r, Z.mod_mod, Zplus_mod_idemp_l by lia. f_equal. lia.
Qed.

Lemma read_delegation_epoch_witness :
  node_idle (set_read_current 250 (set_read_ticket 250 node_new)) ∧ Z.of_nat (length (replicate 9 (false, 7))) < 255 ∧
  ∃ n', run (l ← queue_read (int2key 5) ((true, 42) :: replicate 9 (false, 7)); serve_reads (int2key 5) l)
          (set_read_current 250 (set_read_ticket 250 node_new))
        = Ok ((false, false, (true, 42)) :: map (λ _, (true, false, (true, 42))) (replicate 9 (false, 7)), n') ∧
        node_idle n' ∧ read_ticket n' = 4.
Proof.
  assert (Hi : node_idle (set_read_current 250 (set_read_ticket 250 node_new))).
  { unfold node_idle, uint. cbn. repeat split; lia. }
  assert (Hl : Z.of_nat (length (replicate 9 (false, 7))) < 255) by (vm_compute; reflexivity).
  split; [exact Hi|]. split; [exact Hl|].
  exact (read_delegation_epoch (int2key 5) (true, 42) (replicate 9 (false, 7)) _ Hi Hl).
Defined.

(** ** Write combining *)
Lemma queue_write_spec k vs c T h rc rt rh ws rw ww rl wl uk urk ua nr rv wcb hc :
  uk = None ∨ uk = Some k → uint 8 T →
  run (queue_write k vs) (LN rc rt rh c T h ws rw ww rl wl urk uk ua nr rv false wcb hc)
  = Ok (imap (λ i v, (Some (wrap 8 (T + Z.of_nat i)), v)) vs,
        LN rc rt rh c (wrap 8 (T + Z.of_nat (length vs))) h ws rw ww rl wl
           urk (if decide (vs = []) then uk else Some k) ua nr rv false (default wcb (last vs)) hc).
Proof.
  revert T uk wcb. induction vs as [|v vs IH]; intros T uk wcb Huk HT.
  - cbn. rewrite Z.add_0_r. unfold wrap, uint in *. by rewrite Z.mod_small.
  - assert (run (write_ticket_for k v) (LN rc rt rh c T h ws rw ww rl wl urk uk ua nr rv false wcb hc)
            = Ok (Some T, LN rc rt rh c (wrap 8 (T + 1)) h ws rw ww rl wl urk (Some k) ua nr rv false v hc)) as Ht.
    { unfold write_ticket_for. destruct Huk as [-> | ->]; np_run; [done|].
      unfold key_eqb. rewrite bool_decide_true by done. by np_run. }
    cbn [queue_write]. rewrite (run_bind_Ok _ _ _ _ _ Ht), run_bind, IH; [|by right|apply wrap8_bound].
    cbn. f_equal. f_equal; [f_equal|f_equal].
    + do 2 f_equal. unfold wrap, uint in *. rewrite Z.add_0_r. by rewrite Z.mod_small.
    + apply imap_ext. intros i x _. cbn. do 2 f_equal. unfold wrap. rewrite Zplus_mod_idemp_l. f_equal. lia.
    + unfold wrap. rewrite Zplus_mod_idemp_l. f_equal. lia.
    + by destruct (decide _).
    + rewrite last_cons. by destruct (last vs).
Qed.

(** The node while [m] writers from ticket [c] on remain to be served. *)
Definition write_epoch (k : Key) (c m : Z) (n : LocalLockNode) : LocalLockNode :=
  let go := negb (m =? 0) in
  set_write_current c (set_write_ticket (wrap 8 (c + m)) (set_write_handover go
    (set_window_start go (set_write_window m
      (set_unique_write_key (if go then Some k else None) n))))).

Lemma write_epoch_queue k vs n :
  node_idle n → vs ≠ [] →
  run (queue_write k vs) n
  = Ok (imap (λ i v, (Some (wrap 8 (write_current n + Z.of_nat i)), v)) vs,
        set_write_ticket (wrap 8 (write_current n + Z.of_nat (length vs)))
          (set_unique_write_key (Some k) (set_wc_buffer (default (wc_buffer n) (last vs)) n))).
Proof.
  destruct n. unfold node_idle. cbn. intros (_ & -> & _ & HT & _ & -> & _ & _ & _ & _ & _ & ->) Hvs.
  rewrite queue_write_spec by (done || by left). by rewrite decide_False by done.
Qed.

Lemma write_epoch_first k v m n b :
  node_idle n → 1 <= m < 256 →
  run (serve_write k (write_current n) v)
    (set_write_ticket (wrap 8 (write_current n + m)) (set_unique_write_key (Some k) (set_wc_buffer b n)))
  = Ok ((false, false, Some b), write_epoch k (wrap 8 (write_current n + 1)) (m - 1) (set_wc_buffer b n)).
Proof.
  destruct n as [rc rt rh c T h ws rw ww rl wl urk uk ua nr rv wcl wcb hc].
  unfold node_idle, write_epoch. cbn. intros (-> & -> & Hr & Hc & -> & -> & -> & -> & -> & -> & -> & ->) Hm.
  unfold uint in *. unfold serve_write, write_wait, write_served, get_combining_value, release_local_write_lock, dec_window. np_run.
  replace (256 + rt - rt) with 256 by lia. change (wrap 8 256) with 0.
  rewrite ticket_last by done. rewrite negb_involutive, eqb_pred, ticket_next.
  assert ((m =? 0) = false) as Em by (apply Z.eqb_neq; lia).
  destruct (Z.eqb_spec m 1) as [->|Hm1]; np_run; rewrite ticket_window by lia; np_run; rewrite ?Em; np_run.
  - rewrite window_dec by lia. change (1 - 1) with 0. np_run. done.
  - rewrite window_dec, eqb_pred by lia. replace (m =? 1) with false by (symmetry; by apply Z.eqb_neq). by np_run.
Qed.

Lemma write_epoch_next k v c m n :
  read_window n = 0 → r_lock n = false → w_lock n = false → uint 8 c → 1 <= m < 256 →
  run (serve_write k c v) (write_epoch k c m n)
  = Ok ((true, false, None), write_epoch k (wrap 8 (c + 1)) (m - 1) n).
Proof.
  destruct n as [rc rt rh c' T h ws rw ww rl wl urk uk ua nr rv wcl wcb hc].
  unfold write_epoch. cbn. intros -> -> -> Hc Hm.
  assert ((m =? 0) = false) as Em by (apply Z.eqb_neq; lia). rewrite Em. cbn.
  unfold uint in *. unfold serve_write, write_wait, write_served, release_local_write_lock, dec_window. np_run. rewrite Em. np_run.
  rewrite ticket_last by done. rewrite negb_involutive, eqb_pred, ticket_next.
  destruct (Z.eqb_spec m 1) as [->|Hm1]; np_run; rewrite ?Em; np_run.
  - rewrite window_dec by lia. change (1 - 1) with 0. by np_run.
  - rewrite window_dec, eqb_pred by lia. replace (m =? 1) with false by (symmetry; by apply Z.eqb_neq). by np_run.
Qed.

Lemma write_epoch_rest k vs c n :
  read_window n = 0 → r_lock n = false → w_lock n = false → uint 8 c → Z.of_nat (length vs) < 256 →
  run (serve_writes k (imap (λ i v, (Some (wrap 8 (c + Z.of_nat i)), v)) vs)) (write_epoch k c (Z.of_nat (length vs)) n)
  = Ok (map (λ _, (true, false, None)) vs, write_epoch k (wrap 8 (c + Z.of_nat (length vs))) 0 n).
Proof.
  intros Hw Hr Hl. revert c. induction vs as [|v vs IH]; intros c Hc Hlen.
  { cbn. rewrite Z.add_0_r. do 3 f_equal. symmetry. by apply Z.mod_small. }
  cbn [imap serve_writes map]. cbn [length] in *.
  replace (wrap 8 (c + Z.of_nat 0)) with c by (rewrite Z.add_0_r; symmetry; by apply Z.mod_small).
  rewrite run_bind, write_epoch_next by (done || lia). rewrite run_bind.
  replace (Z.of_nat (S (length vs)) - 1) with (Z.of_nat (length vs)) by lia.
  rewrite (imap_ext _ (λ i v, (Some (wrap 8 (wrap 8 (c + 1) + Z.of_nat i)), v))).
  2:{ intros i x _. cbn. unfold wrap. rewrite Zplus_mod_idemp_l. do 3 f_equal. lia. }
  rewrite IH by (apply wrap8_bound || lia). rewrite run_ret. do 3 f_equal.
  unfold wrap. rewrite Zplus_mod_idemp_l. f_equal. lia.
Qed.

(** C9. Write combining: when up to 255 writers of a key queue up on an idle
    node and are then served in ticket order, the first one alone performs the
    remote write, with the value of the last writer that queued; every other
    one finds its write done. The node is idle again afterwards. *)
Theorem write_combining_epoch (k : Key) (v : Z) (vs : list Z) (n : LocalLockNode)
    (Hidle : node_idle n) (Hlen : Z.of_nat (length vs) < 255) :
  ∃ n', run (l ← queue_write k (v :: vs); serve_writes k l) n
        = Ok ((false, false, Some (default v (last vs))) :: map (λ _, (true, false, None)) vs, n') ∧
        node_idle n' ∧ write_ticket n' = wrap 8 (write_ticket n + Z.of_nat (length vs) + 1).
Proof.
  pose proof Hidle as (Hcur & Hcur' & Hc & Hw & Hrk & _ & _ & Hrw & _ & Hr & Hl & Hwl).
  rewrite run_bind, write_epoch_queue by done. cbn [imap serve_writes length].
  replace (default (wc_buffer n) (last (v :: vs))) with (default v (last vs))
    by (rewrite last_cons; by destruct (last vs)).
  replace (wrap 8 (write_current n + Z.of_nat 0)) with (write_current n)
    by (rewrite Z.add_0_r; symmetry; by apply Z.mod_small).
  rewrite run_bind, write_epoch_first by (done || lia). rewrite run_bind.
  replace (Z.of_nat (S (length vs)) - 1) with (Z.of_nat (length vs)) by lia.
  rewrite (imap_ext _ (λ i v, (Some (wrap 8 (wrap 8 (write_current n + 1) + Z.of_nat i)), v))).
  2:{ intros i x _. cbn. unfold wrap. rewrite Zplus_mod_idemp_l. do 3 f_equal. lia. }
  rewrite write_epoch_rest by first [apply wrap8_bound | lia | destruct n; assumption]. rewrite run_ret.
  eexists. split; [reflexivity|].
  destruct n. unfold node_idle, write_epoch in *. cbn in *. subst.
  split.
  - do 2 (split; [unfold wrap; rewrite ?Z.add_0_r, ?Z.mod_mod by lia; done|]).
    split; [apply Hc|]. split; [apply wrap8_bound|]. by repeat split.
  - unfold wrap. rewrite Z.add_0_r, Z.mod_mod, Zplus_mod_idemp_l by lia. f_equal. lia.
Qed.

Lemma write_combining_epoch_witness :
  node_idle node_new ∧ Z.of_nat (length [2; 3; 9]) < 255 ∧
  ∃ n', run (l ← queue_write (int2key 5) [1; 2; 3; 9]; serve_writes (int2key 5) l) node_new
        = Ok ([(false, false, Some 9); (true, false, None); (true, false, None); (true, false, None)], n') ∧
        node_idle n' ∧ write_ticket n' = 4.
Proof.
  assert (Hi : node_idle node_new) by (unfold node_idle, uint; cbn; repeat split; lia).
  assert (Hl : Z.of_nat (length [2; 3; 9]) < 255) by (vm_compute; reflexivity).
  split; [exact Hi|]. split; [exact Hl|].
  exact (write_combining_epoch (int2key 5) 1 [2; 3; 9] _ Hi Hl).
Defined.

(** ** A thread alone *)
Lemma solo_read k n :
  node_idle n →
  ∃ n1, run (acquire_local_read_lock k) n = Ok ((false, false), n1) ∧
  ∀ res v, ∃ n2, run (release_local_read_lock (false, false) res v) n1 = Ok ((res, v), n2) ∧ node_idle n2.
Proof.
  destruct n as [c T h wc wt wh ws rw ww rl wl uk uwk ua nr rv wcl wcb hc].
  intros Hidle. unfold node_idle in Hidle. cbn in Hidle. destruct Hidle as (-> & -> & Hc & Hw & -> & -> & -> & -> & -> & -> & -> & ->).
  eexists. split; [unfold acquire_local_read_lock, read_ticket_for, read_wait, read_served; np_run; reflexivity|].
  intros res v. unfold release_local_read_lock, dec_window. unfold uint in *. np_run.
  rewrite (ticket_window T 1) by lia. replace (256 + wt - wt) with 256 by lia. change (wrap 8 256) with 0.
  change (1 =? 0) with false. np_run. change (1 -[8] 1) with 0. np_run.
  eexists. split; [reflexivity|]. unfold node_idle, uint. cbn. split; [done|]. split; [done|]. split; [apply wrap8_bound|].
  by repeat split; try apply Hw.
Qed.

Lemma solo_write k v n :
  node_idle n →
  ∃ n1, run (acquire_local_write_lock k v) n = Ok ((false, false), n1) ∧
    run (get_combining_value k v) n1 = Ok ((false, v), n1) ∧
    ∃ n2, run (release_local_write_lock (false, false)) n1 = Ok (tt, n2) ∧ node_idle n2.
Proof.
  destruct n as [c T h wc wt wh ws rw ww rl wl uk uwk ua nr rv wcl wcb hc].
  intros Hidle. unfold node_idle in Hidle. cbn in Hidle. destruct Hidle as (-> & -> & Hc & Hw & -> & -> & -> & -> & -> & -> & -> & ->).
  eexists. split; [unfold acquire_local_write_lock, write_ticket_for, write_wait, write_served; np_run; reflexivity|].
  split; [unfold get_combining_value; by np_run|].
  unfold release_local_write_lock, dec_window. unfold uint in *. np_run.
  rewrite (ticket_window wt 1) by lia. replace (256 + T - T) with 256 by lia. change (wrap 8 256) with 0.
  change (1 =? 0) with false. np_run. change (1 -[8] 1) with 0. np_run.
  eexists. split; [reflexivity|]. unfold node_idle, uint. cbn. split; [done|]. split; [done|]. split; [apply Hc|]. split; [apply wrap8_bound|].
  by repeat split.
Qed.

(** ** A combining value of another key *)

(** Thread 0 takes the node for [k1]; thread 1, also writing [k1], passes the
    check of the key; thread 0 writes and releases; thread 2 takes the node for
    [k2]; thread 1 then leaves its value in the shared buffer. *)
Definition mixing_schedule : list nat :=
  [0; 1]%nat ++ replicate 35 0%nat ++ replicate 4 2%nat ++ [1; 1; 1]%nat ++ replicate 32 2%nat.

(** C32. Two keys that share a lock node can lose their identity: there is an
    interleaving of three writers in which the writer of key 2 performs its
    remote write with the value [v2] that another thread left for key 1. *)
Theorem write_combining_mixes_keys (v1 v2 v3 : Z) :
  ∃ ps n, rtc pool_step ([writer (int2key 1) v1; writer (int2key 1) v2; writer (int2key 2) v3], node_new) (ps, n) ∧
          ps !! 0%nat = Some (Return (false, false, Some v1)) ∧
          ps !! 2%nat = Some (Return (false, false, Some v2)).
Proof.
  destruct (schedule mixing_schedule [writer (int2key 1) v1; writer (int2key 1) v2; writer (int2key 2) v3] node_new)
    as [[ps n]|] eqn:E; [|by vm_compute in E].
  exists ps, n. split; [by apply (schedule_steps mixing_schedule)|].
  vm_compute in E. injection E as <- <-. by split.
Qed.
