(* ===== verification/LockExclusion.v ===== *)
(** * The local locks exclude (include/LocalLockTable.h)

    Readers and writers of any keys on one lock node, in every interleaving of
    their accesses: at most one reader and one writer at a time are between
    their acquisition and their release, as long as no more than 256 threads
    and coroutines meet at the node. From 257 on the tickets wrap around. *)

From Stdlib Require Import ZArith Lia Bool Ascii String.
From stdpp Require Import base tactics decidable option numbers list relations.
From S2P Require Import Prelude Common Keys Address Process Tickets LockTable.

(** ** Processes that leave the tickets alone *)
Section quiet.
Context {S : Type} (current ticket inside : S → Z).

#[export] Instance quiet_if {A} (b : bool) (p q : proc S A) :
  Quiet current ticket inside p → Quiet current ticket inside q → Quiet current ticket inside (if b then p else q).
Proof. by destruct b. Qed.

#[export] Instance quiet_option {A B} (o : option A) (p : A → proc S B) q :
  (∀ a, Quiet current ticket inside (p a)) → Quiet current ticket inside q →
  Quiet current ticket inside (match o with Some a => p a | None => q end).
Proof. by destruct o. Qed.

#[export] Instance quiet_pair {A B C} (x : A * B) (p : A → B → proc S C) :
  (∀ a b, Quiet current ticket inside (p a b)) → Quiet current ticket inside (let '(a, b) := x in p a b).
Proof. by destruct x. Qed.
End quiet.

(** The accesses, on a node whose fields are given. *)
Ltac quiet_access := apply quiet_atomic; intros []; cbn; repeat case_match; split_and!; reflexivity.
#[export] Hint Extern 0 (Quiet _ _ _ (ld _)) => unfold ld; quiet_access : typeclass_instances.
#[export] Hint Extern 0 (Quiet _ _ _ (st _)) => unfold st; quiet_access : typeclass_instances.
#[export] Hint Extern 0 (Quiet _ _ _ (unlock _)) => unfold unlock, st; quiet_access : typeclass_instances.
#[export] Hint Extern 0 (Quiet _ _ _ (fetch_inc _ _)) => unfold fetch_inc; quiet_access : typeclass_instances.
#[export] Hint Extern 0 (Quiet _ _ _ (cas_key _ _ _)) => unfold cas_key; quiet_access : typeclass_instances.
#[export] Hint Extern 0 (Quiet _ _ _ cas_window) => unfold cas_window; quiet_access : typeclass_instances.
#[export] Hint Extern 0 (Quiet _ _ _ (await _)) =>
  apply quiet_act; intros [] ? ?; case_match; [intros [= <- <-]; split; [split_and!; reflexivity|apply _]|discriminate] : typeclass_instances.
#[export] Hint Extern 0 (Quiet _ _ _ (lock _ _)) =>
  apply quiet_act; intros [] ? ?; cbn; case_match; [discriminate|intros [= <- <-]; split; [split_and!; reflexivity|apply _]] : typeclass_instances.
#[export] Hint Extern 1 (Quiet _ _ _ (dec_window _ _)) => unfold dec_window : typeclass_instances.

Definition none (n : LocalLockNode) : Z := 0.
Abbreviation wquiet := (Quiet write_current write_ticket none).
Abbreviation rquiet := (Quiet read_current read_ticket none).
Abbreviation wobeys := (obeys write_current write_ticket none).
Abbreviation robeys := (obeys read_current read_ticket none).

(** Readers do not touch the tickets of the writers, nor the other way round. *)
Lemma read_acquire_wquiet k : wquiet (acquire_local_read_lock k).
Proof. unfold acquire_local_read_lock, read_ticket_for, read_wait, read_served. apply _. Qed.
Lemma read_release_wquiet acq r v : wquiet (release_local_read_lock acq r v).
Proof. unfold release_local_read_lock. apply _. Qed.
Lemma write_acquire_rquiet k v : rquiet (acquire_local_write_lock k v).
Proof. unfold acquire_local_write_lock, write_ticket_for, write_wait, write_served. apply _. Qed.
Lemma write_release_rquiet acq : rquiet (release_local_write_lock acq).
Proof. unfold release_local_write_lock. apply _. Qed.
Lemma combining_quiet k v : wquiet (get_combining_value k v) ∧ rquiet (get_combining_value k v).
Proof. unfold get_combining_value. split; apply _. Qed.

(** ** The functions keep to the protocol *)
Lemma write_draws : wobeys (fetch_inc write_ticket set_write_ticket) Outside (λ ph t, ph = Waiting t).
Proof. intros []. cbn. eexists (Waiting _). by cbn. Qed.
Lemma read_draws : robeys (fetch_inc read_ticket set_read_ticket) Outside (λ ph t, ph = Waiting t).
Proof. intros []. cbn. eexists (Waiting _). by cbn. Qed.

Lemma write_turn t : wobeys (await (λ n, t =? write_current n)) (Waiting t) (λ ph _, ph = Served false).
Proof. intros n. cbn. destruct (Z.eqb_spec t (write_current n)); [|done]. exists (Served false). by split. Qed.
Lemma read_turn t : robeys (await (λ n, t =? read_current n)) (Waiting t) (λ ph _, ph = Served false).
Proof. intros n. cbn. destruct (Z.eqb_spec t (read_current n)); [|done]. exists (Served false). by split. Qed.

Lemma write_passes : wobeys (fetch_inc write_current set_write_current) (Served false) (λ ph _, ph = Outside).
Proof. intros []. cbn. exists Outside. by split. Qed.
Lemma read_passes : robeys (fetch_inc read_current set_read_current) (Served false) (λ ph _, ph = Outside).
Proof. intros []. cbn. exists Outside. by split. Qed.

(** After an acquisition: nothing is held when another key is served. *)
Definition acquired (ph : phase) (acq : bool * bool) : Prop := ph = if acq.2 then Outside else Served false.

Ltac go_quiet := match goal with |- obeys _ _ _ (_ ≫= _) _ _ => apply obeys_quiet_bind; [apply _|intros ?] end.
Ltac go_with H := eapply obeys_bind; [apply H|]; cbv beta; intros ? ? ->.
Ltac go_end := first [by cbn | eapply obeys_mono; [apply quiet; apply _|]; cbv beta; intros ? ? ->].

Lemma write_acquire_obeys k v : wobeys (acquire_local_write_lock k v) Outside acquired.
Proof.
  unfold acquire_local_write_lock.
  apply obeys_bind with (λ ph o, ph = match o with Some t => Waiting t | None => Outside end).
  - unfold write_ticket_for. go_quiet. repeat case_match; try done; do 3 go_quiet; go_with write_draws; done.
  - intros ph [t|] ->; [|done]. unfold write_wait, write_served. go_with (write_turn t). go_quiet.
    case_bool_decide; repeat go_quiet; [done|]. go_with write_passes. done.
Qed.

Lemma read_acquire_obeys k : robeys (acquire_local_read_lock k) Outside acquired.
Proof.
  unfold acquire_local_read_lock.
  apply obeys_bind with (λ ph o, ph = match o with Some t => Waiting t | None => Outside end).
  - unfold read_ticket_for. go_quiet. repeat case_match; try done; go_with read_draws; done.
  - intros ph [t|] ->; [|done]. unfold read_wait, read_served. go_with (read_turn t). go_quiet.
    case_bool_decide; repeat go_quiet; [done|]. go_with read_passes. done.
Qed.

Lemma write_release_obeys ph acq : acquired ph acq → wobeys (release_local_write_lock acq) ph (λ ph _, ph = Outside).
Proof.
  destruct acq as [h [|]]; intros ->; [done|]. unfold release_local_write_lock. cbn [snd].
  repeat go_quiet. go_with write_passes. go_end. done.
Qed.

Lemma read_release_obeys ph acq r v : acquired ph acq → robeys (release_local_read_lock acq r v) ph (λ ph _, ph = Outside).
Proof.
  destruct acq as [h [|]]; intros ->; [done|]. unfold release_local_read_lock. cbn [snd].
  repeat go_quiet. match goal with |- obeys _ _ _ (let '(_, _) := ?x in _) _ _ => destruct x end.
  repeat go_quiet. go_with read_passes. repeat go_quiet. done.
Qed.

(** ** Clients of a node, watched *)

(** The node, and how many readers and writers are between their acquisition
    and their release. *)
Definition watched : Type := LocalLockNode * (Z * Z).
Definition lock_op {A} (p : np A) : proc watched A := on fst (λ n s, (n, s.2)) p.
Definition count_readers (d : Z) : proc watched unit := atomic (λ s, (tt, (s.1, (s.2.1 + d, s.2.2)))).
Definition count_writers (d : Z) : proc watched unit := atomic (λ s, (tt, (s.1, (s.2.1, s.2.2 + d)))).

(** A client reads or writes a key; a thread that was refused since another
    key is served does not take part. *)
Inductive client : Type := Reads (k : Key) (r : bool * Z) | Writes (k : Key) (v : Z).

Definition client_code (c : client) : proc watched unit :=
  match c with
  | Reads k r =>
    lock_res ← lock_op (acquire_local_read_lock k);
    (if (lock_res : bool * bool).2 then mret tt else count_readers 1) ;;
    (if lock_res.2 then mret tt else count_readers (-1)) ;;
    lock_op (release_local_read_lock lock_res r.1 r.2) ;; mret tt
  | Writes k v =>
    lock_res ← lock_op (acquire_local_write_lock k v);
    (if (lock_res : bool * bool).2 then mret tt else count_writers 1) ;;
    (if lock_res.1 && negb lock_res.2 then mret tt else lock_op (get_combining_value k v) ;; mret tt) ;;
    (if lock_res.2 then mret tt else count_writers (-1)) ;;
    lock_op (release_local_write_lock lock_res)
  end.

(** What a process does to the node it does to the watched node. *)
Lemma obeys_lock_op {A} (cur tick : LocalLockNode → Z) (ins : watched → Z) (p : np A) ph Q :
  (∀ n n' x, ins (n, x) = ins (n', x)) → obeys cur tick none p ph Q →
  obeys (λ s : watched, cur s.1) (λ s : watched, tick s.1) ins (lock_op p) ph Q.
Proof.
  intros Hins. unfold lock_op. revert ph. induction p as [a|e|f IH] using proc_ind'; intros ph; cbn; [done|done|].
  intros H [n x]. specialize (H n). cbn [fst snd]. destruct (f n) as [[n' p']|] eqn:E; [|done]. destruct H as (ph' & Hs & H).
  exists ph'. split; [|by eapply IH].
  unfold phase_step, none in *. destruct ph as [|t|[]], ph' as [|t'|[]]; cbn in *; try done; destruct_and? Hs; split_and?; try done.
Qed.

Lemma quiet_lock_op {A} (cur tick : LocalLockNode → Z) (ins : watched → Z) (p : np A) :
  (∀ n n' x, ins (n, x) = ins (n', x)) → Quiet cur tick none p →
  Quiet (λ s : watched, cur s.1) (λ s : watched, tick s.1) ins (lock_op p).
Proof. intros Hins Hp ph. apply obeys_lock_op; [done|apply Hp]. Qed.

Abbreviation wwatch := (obeys (λ s : watched, write_current s.1) (λ s, write_ticket s.1) (λ s, s.2.2)).
Abbreviation rwatch := (obeys (λ s : watched, read_current s.1) (λ s, read_ticket s.1) (λ s, s.2.1)).

#[local] Hint Extern 0 (Quiet _ _ _ (lock_op _)) => apply quiet_lock_op; [done|] : typeclass_instances.
#[local] Hint Extern 0 (Quiet _ _ _ (count_readers _)) => apply quiet_atomic; intros [? []]; by split_and! : typeclass_instances.
#[local] Hint Extern 0 (Quiet _ _ _ (count_writers _)) => apply quiet_atomic; intros [? []]; by split_and! : typeclass_instances.
#[local] Hint Resolve read_acquire_wquiet read_release_wquiet write_acquire_rquiet write_release_rquiet : typeclass_instances.
#[local] Hint Extern 1 (Quiet _ _ _ (get_combining_value _ _)) => apply combining_quiet : typeclass_instances.

Lemma enter_writes : wwatch (count_writers 1) (Served false) (λ ph _, ph = Served true).
Proof. intros [n [a b]]. cbn. exists (Served true). by cbn. Qed.
Lemma leave_writes : wwatch (count_writers (-1)) (Served true) (λ ph _, ph = Served false).
Proof. intros [n [a b]]. cbn. exists (Served false). split; [cbn; split_and!; lia || done|done]. Qed.
Lemma enter_reads : rwatch (count_readers 1) (Served false) (λ ph _, ph = Served true).
Proof. intros [n [a b]]. cbn. exists (Served true). by cbn. Qed.
Lemma leave_reads : rwatch (count_readers (-1)) (Served true) (λ ph _, ph = Served false).
Proof. intros [n [a b]]. cbn. exists (Served false). split; [cbn; split_and!; lia || done|done]. Qed.

Lemma client_writes c : wwatch (client_code c) Outside (λ ph _, ph = Outside).
Proof.
  destruct c as [k r|k v]; unfold client_code; [apply quiet; apply _|].
  eapply obeys_bind; [apply obeys_lock_op; [done|apply write_acquire_obeys]|]. intros ph [h b] ->. cbn [fst snd].
  destruct b; cbn [negb].
  - do 3 go_quiet. apply obeys_lock_op; [done|]. by apply write_release_obeys.
  - go_with enter_writes. go_quiet. go_with leave_writes. apply obeys_lock_op; [done|]. by apply write_release_obeys.
Qed.

Lemma client_reads c : rwatch (client_code c) Outside (λ ph _, ph = Outside).
Proof.
  destruct c as [k r|k v]; unfold client_code; [|apply quiet; apply _].
  eapply obeys_bind; [apply obeys_lock_op; [done|apply read_acquire_obeys]|]. intros ph [h b] ->. cbn [fst snd].
  destruct b.
  - do 2 go_quiet. eapply obeys_bind; [apply obeys_lock_op; [done|by apply read_release_obeys]|]. by intros ? ? ->.
  - go_with enter_reads. go_with leave_reads.
    eapply obeys_bind; [apply obeys_lock_op; [done|by apply read_release_obeys]|]. by intros ? ? ->.
Qed.

(** C8. The local locks exclude. Up to 256 threads and coroutines read and write
    any keys through one idle lock node: in every interleaving of their
    accesses, with delegation, combining, time windows and refusals, at most one
    reader and at most one writer are between their acquisition and their
    release. *)
Theorem local_locks_exclude (cs : list client) (n : LocalLockNode) (ps : list (proc watched unit)) (s : watched)
    (Hidle : node_idle n) (Hlen : (length cs <= 256)%nat)
    (Hrun : rtc pool_step (client_code <$> cs, (n, (0, 0))) (ps, s)) :
  0 <= s.2.1 <= 1 ∧ 0 <= s.2.2 <= 1.
Proof.
  destruct Hidle as (Hr & Hw & Hrc & Hwc & _). rewrite <- (length_fmap client_code) in Hlen. split.
  - eapply (tickets_exclusive (λ s : watched, read_current s.1) (λ s, read_ticket s.1) (λ s, s.2.1) (client_code <$> cs) ps (n, (0, 0))); cbn; try done.
    apply Forall_fmap, Forall_true, client_reads.
  - eapply (tickets_exclusive (λ s : watched, write_current s.1) (λ s, write_ticket s.1) (λ s, s.2.2) (client_code <$> cs) ps (n, (0, 0))); cbn; try done.
    apply Forall_fmap, Forall_true, client_writes.
Qed.

(** The watched node after a schedule. *)
Definition counts (r : option (list (proc watched unit) * watched)) : option (Z * Z) :=
  match r with Some (_, s) => Some s.2 | None => None end.

Lemma counts_Some ids ps s x :
  counts (schedule ids ps s) = Some x → ∃ ps' n, rtc pool_step (ps, s) (ps', (n, x)).
Proof.
  unfold counts. destruct (schedule ids ps s) as [[ps' [n y]]|] eqn:E; [|done]. intros [= <-].
  exists ps', n. by apply (schedule_steps ids).
Qed.

(** A writer inside, while another one and a reader wait or are at work. *)
Definition ex_clients : list client :=
  [Writes (int2key 5) 1; Writes (int2key 5) 2; Reads (int2key 5) (true, 7)].

Lemma local_locks_exclude_witness :
  node_idle node_new ∧ (length ex_clients <= 256)%nat ∧
  ∃ ps n, rtc pool_step (client_code <$> ex_clients, (node_new, (0, 0))) (ps, (n, (1, 1))) ∧ 0 <= 1 <= 1 ∧ 0 <= 1 <= 1.
Proof.
  assert (Hi : node_idle node_new) by (unfold node_idle, uint; cbn; repeat split; lia).
  assert (Hl : (length ex_clients <= 256)%nat) by (cbn; lia).
  destruct (counts_Some (replicate 11 0%nat ++ replicate 5 1%nat ++ replicate 8 2%nat)
    (client_code <$> ex_clients) (node_new, (0, 0)) (1, 1)) as (ps & n & H); [vm_compute; reflexivity|].
  split_and!; [done..|]. exists ps, n. split; [done|]. apply (local_locks_exclude _ _ _ _ Hi Hl H).
Defined.

(** C31. The tickets wrap around. When 257 writers of one key meet at a lock node
    (64 threads with 8 coroutines each are allowed), the last one draws the
    ticket of the first, and both are inside at the same time. *)
Theorem local_locks_wrap :
  256 < (MAX_APP_THREAD - 1) * MAX_CORO_NUM ∧
  ∃ ps n, rtc pool_step (client_code <$> (Writes (int2key 5) ∘ Z.of_nat <$> seq 0 257), (node_new, (0, 0))) (ps, (n, (0, 2))).
Proof.
  split; [reflexivity|].
  apply (counts_Some (concat (replicate 5 <$> seq 0 257) ++ replicate 6 0%nat ++ replicate 6 256%nat)).
  vm_compute. reflexivity.
Qed.
