(* ===== verification/Coro.v ===== *)
(** * Coroutines (src/Tree.cpp, include/Common.h)

    The coroutines of a client thread and the master that schedules them
    ([Tree::run_coroutine], [Tree::coro_worker], [Tree::coro_master]).

    A coroutine runs until it yields to the master: after it has posted a
    request to the network card (the functions of DSM.cpp with a context), or
    after it has pushed a condition on [busy_waiting_queue] (the loops of
    LocalLockTable.h). The master resumes it when it polls the completion of
    the request, or finds the condition true. Other threads and the network
    card act between any two steps of the thread. *)

From Stdlib Require Import ZArith Lia Bool.
From stdpp Require Import base tactics decidable option numbers list relations gmap.
From S2P Require Import Prelude Common Process Verbs Dsm.

(** ** A coroutine *)

(** What a coroutine does next: stop, an action on the shared state (blocked
    where a mutex is taken), a request with the coroutine's id, and a condition
    on the busy-waiting queue, both with a yield to the master. A verb without
    a context posts its request with the id 0 ([CSend]) and polls the
    completion queue until it has a completion ([CPoll]). *)
Inductive coro (S A : Type) : Type :=
  | CRet (a : A)
  | CFail (e : error)
  | CAct (f : S → option (S * coro S A))
  | CPost (f : S → S) (k : coro S A)
  | CQueue (check : S → bool) (k : coro S A)
  | CSend (f : S → S) (k : coro S A)
  | CPoll (k : coro S A).
Arguments CRet {S A} _.
Arguments CFail {S A} _.
Arguments CAct {S A} _.
Arguments CPost {S A} _ _.
Arguments CQueue {S A} _ _.
Arguments CSend {S A} _ _.
Arguments CPoll {S A} _.

Lemma coro_ind' {S A} (P : coro S A → Prop) :
  (∀ a, P (CRet a)) → (∀ e, P (CFail e)) →
  (∀ f, (∀ s s' k, f s = Some (s', k) → P k) → P (CAct f)) →
  (∀ f k, P k → P (CPost f k)) → (∀ check k, P k → P (CQueue check k)) →
  (∀ f k, P k → P (CSend f k)) → (∀ k, P k → P (CPoll k)) → ∀ k, P k.
Proof.
  intros HR HF HA HP HQ HS HL. fix IH 1. intros [a|e|f|f k|c k|f k|k]; [apply HR|apply HF| |apply HP, IH|apply HQ, IH|apply HS, IH|apply HL, IH].
  apply HA. intros s. destruct (f s) as [[s1 k1]|]; [|discriminate].
  pose proof (IH k1) as H. intros s' k [= <- <-]. exact H.
Qed.

Fixpoint cbind {S A B} (c : coro S A) (k : A → coro S B) : coro S B :=
  match c with
  | CRet a => k a
  | CFail e => CFail e
  | CAct f => CAct (λ s, match f s with Some (s', c') => Some (s', cbind c' k) | None => None end)
  | CPost f c => CPost f (cbind c k)
  | CQueue check c => CQueue check (cbind c k)
  | CSend f c => CSend f (cbind c k)
  | CPoll c => CPoll (cbind c k)
  end.

#[export] Instance coro_ret {S} : MRet (coro S) := λ A a, CRet a.
#[export] Instance coro_bind {S} : MBind (coro S) := λ A B k c, cbind c k.

(** Code that neither yields nor posts. *)
Fixpoint plain {S A} (p : proc S A) : coro S A :=
  match p with
  | Return a => CRet a
  | Crash e => CFail e
  | Act f => CAct (λ s, match f s with Some (s', p') => Some (s', plain p') | None => None end)
  end.

(** A verb with a context, and one without. *)
Definition verb_ctx {S} (f : S → S) : coro S unit := CPost f (CRet tt).
Definition verb_sync {S} (f : S → S) : coro S unit := CSend f (CPoll (CRet tt)).

(** [while (ticket != current) { waiting_queue->push(...); yield; current = ...; }],
    in at most [n] rounds. *)
Fixpoint coro_wait {S} (n : nat) (check : S → bool) : coro S unit :=
  match n with
  | O => CFail EFuel
  | Datatypes.S n => CAct (λ s, Some (s, if check s then CRet tt else CQueue check (coro_wait n check)))
  end.

(** [coro_worker]: requests of its generator until [need_stop]; [reqs] are
    those that [gen->next()] gives in the run, and [work] the call
    [work_func(this, r, &ctx, coro_id)]. *)
Fixpoint coro_worker {S R} (need_stop : S → bool) (work : R → coro S unit) (reqs : list R) : coro S unit :=
  match reqs with
  | [] => CFail EFuel
  | r :: reqs => CAct (λ s, Some (s, if need_stop s then CRet tt else work r ;; coro_worker need_stop work reqs))
  end.

(** ** The master *)

(** Where the master is: before its first yield to [i], at the test of
    [need_stop], at the poll, at the busy-waiting queue, or with the coroutine
    [i] running until it yields [back]. The thread's call of the master has
    returned when the master or a coroutine returns. *)
Inductive mpc : Set :=
  | MStart (i : nat)
  | MTest
  | MPoll
  | MBusy
  | MIn (i : nat) (back : mpc)
  | MReturn
  | MError (e : error).

#[export] Instance mpc_eq_dec : EqDecision mpc.
Proof. solve_decision. Defined.

(** The master's thread: its coroutines, suspended where they last yielded, the
    requests that the network card has not executed yet, the ids of those it
    has executed, the completion queue and the busy-waiting queue. *)
Record sched (S A : Type) : Type := Sched {
  at_pc : mpc; workers : list (coro S A);
  posted : list (Z * (S → S)); landed : list Z; cq : list ibv_wc;
  busy_waiting_queue : list (Z * (S → bool)) }.
Arguments Sched {S A} _ _ _ _ _ _.
Arguments at_pc {S A} _.
Arguments workers {S A} _.
Arguments posted {S A} _.
Arguments landed {S A} _.
Arguments cq {S A} _.
Arguments busy_waiting_queue {S A} _.

(** With the other threads of the process, and what all share. *)
Record config (S A : Type) : Type := Config { here : sched S A; others : list (proc S A); shared : S }.
Arguments Config {S A} _ _ _.
Arguments here {S A} _.
Arguments others {S A} _.
Arguments shared {S A} _.

(** What [ibv_poll_cq] gives for one entry. *)
Definition poll_result (q : list ibv_wc) : Z * list ibv_wc :=
  match q with [] => (0, []) | w :: _ => (1, [w]) end.

Section master.
Context {S A : Type} (need_stop : S → bool).
Implicit Types (s : S) (m : sched S A).

Definition go (pc : mpc) m : sched S A :=
  Sched pc (workers m) (posted m) (landed m) (cq m) (busy_waiting_queue m).
Definition set_cq q m : sched S A :=
  Sched (at_pc m) (workers m) (posted m) (landed m) q (busy_waiting_queue m).
Definition set_busy b m : sched S A :=
  Sched (at_pc m) (workers m) (posted m) (landed m) (cq m) b.
Definition set_worker (i : nat) (k : coro S A) m : sched S A :=
  Sched (at_pc m) (<[i := k]> (workers m)) (posted m) (landed m) (cq m) (busy_waiting_queue m).
Definition post (id : Z) (f : S → S) m : sched S A :=
  Sched (at_pc m) (workers m) (posted m ++ [(id, f)]) (landed m) (cq m) (busy_waiting_queue m).

(** [yield(worker[id])] *)
Definition yield_to (id : Z) (back : mpc) m : sched S A := go (MIn (Z.to_nat id) back) m.

(** The running coroutine [i] at its next action. *)
Definition run_worker (i : nat) (back : mpc) s m : option (S * sched S A) :=
  match workers m !! i with
  | None => Some (s, go (MError EUndef) m)
  | Some (CRet _) => Some (s, go MReturn m)
  | Some (CFail e) => Some (s, go (MError e) m)
  | Some (CAct f) => match f s with
                     | Some (s', k) => Some (s', set_worker i k m)
                     | None => None
                     end
  | Some (CPost f k) => Some (s, go back (post (Z.of_nat i) f (set_worker i k m)))
  | Some (CQueue check k) =>
    Some (s, go back (set_busy (busy_waiting_queue m ++ [(Z.of_nat i, check)]) (set_worker i k m)))
  | Some (CSend f k) => Some (s, post 0 f (set_worker i k m))
  | Some (CPoll k) => match cq m with
                      | [] => Some (s, m)
                      | _ :: q => Some (s, set_cq q (set_worker i k m))
                      end
  end.

(** [coro_master], one statement; nothing when it has returned or its thread
    is blocked in a mutex. *)
Definition coro_master s m : option (S * sched S A) :=
  match at_pc m with
  | MStart i => if decide (i < length (workers m))%nat then Some (s, go (MIn i (MStart (Datatypes.S i))) m)
                else Some (s, go MTest m)
  | MTest => Some (s, if need_stop s then go MReturn m else go MPoll m)
  | MPoll =>
    match poll_rdma_cq_once (poll_result (cq m)) with
    | Ok (true, Some next_coro_id) => Some (s, yield_to next_coro_id MBusy (set_cq (tail (cq m)) m))
    | Ok _ => Some (s, go MBusy (set_cq (tail (cq m)) m))
    | Fail e => Some (s, go (MError e) m)
    end
  | MBusy =>
    match busy_waiting_queue m with
    | [] => Some (s, go MTest m)
    | next :: q =>
      if next.2 s then Some (s, yield_to next.1 MTest (set_busy q m))
      else Some (s, go MTest (set_busy (q ++ [next]) m))
    end
  | MIn i back => run_worker i back s m
  | MReturn | MError _ => None
  end.

(** The network card executes the [j]-th posted request, or completes the
    [j]-th executed one. *)
Definition nic_land (j : nat) s m : option (S * sched S A) :=
  match posted m !! j with
  | Some (id, f) => Some (f s, Sched (at_pc m) (workers m) (delete j (posted m)) (landed m ++ [id]) (cq m) (busy_waiting_queue m))
  | None => None
  end.
Definition nic_complete (j : nat) s m : option (S * sched S A) :=
  match landed m !! j with
  | Some id => Some (s, Sched (at_pc m) (workers m) (posted m) (delete j (landed m)) (cq m ++ [Wc true id]) (busy_waiting_queue m))
  | None => None
  end.

(** Who takes the next step. *)
Inductive label : Set := LMaster | LLand (j : nat) | LComplete (j : nat) | LOther (j : nat).

Definition step (l : label) (c : config S A) : option (config S A) :=
  let on_sched r := match r with Some (s, m) => Some (Config m (others c) s) | None => None end in
  match l with
  | LMaster => on_sched (coro_master (shared c) (here c))
  | LLand j => on_sched (nic_land j (shared c) (here c))
  | LComplete j => on_sched (nic_complete j (shared c) (here c))
  | LOther j => match schedule [j] (others c) (shared c) with
                | Some (ps, s) => Some (Config (here c) ps s)
                | None => None
                end
  end.

Fixpoint steps (ls : list label) (c : config S A) : option (config S A) :=
  match ls with
  | [] => Some c
  | l :: ls => match step l c with Some c' => steps ls c' | None => None end
  end.

(** The thread when it calls the master with the coroutines [ws]. *)
Definition master_called (ws : list (coro S A)) : sched S A := Sched (MStart 0) ws [] [] [] [].
End master.

(** [run_coroutine], up to the call of the master. [gen_func] gives the
    requests of a coroutine. *)
Definition run_coroutine {S R} (need_stop : S → bool) (gen_func : nat → list R)
    (work_func : nat → R → coro S unit) (coro_cnt : nat) : res (sched S unit) :=
  check (Z.of_nat coro_cnt <=? MAX_CORO_NUM) ;;
  Ok (master_called ((λ i, coro_worker need_stop (work_func i) (gen_func i)) <$> seq 0 coro_cnt)).
