(* ===== verification/CoroLaws.v ===== *)
(** * Coroutines behave as threads

    A thread that schedules coroutines behaves as one thread per coroutine
    would ([threads]): a posted request is the thread's own action on the
    shared state, a pushed condition is a wait for it. The invariant of the
    master ([sched_inv]) says where each coroutine is: about to start, running,
    or waiting in exactly one way. *)

From Stdlib Require Import ZArith Lia Bool.
From stdpp Require Import base tactics decidable option numbers list relations gmap.
From S2P Require Import Prelude Common Process Verbs Dsm Coro.

(** ** The thread of a coroutine *)
Section coro_laws.
Context {S A : Type}.
Implicit Types (s : S) (m : sched S A) (k : coro S A) (a : S → option S).

(** A thread that waits until [a] can act on the state. *)
Definition blocked a (p : proc S A) : proc S A :=
  Act (λ s, match a s with Some s' => Some (s', p) | None => None end).
Definition acts (f : S → S) s : option S := Some (f s).
Definition waits_for (check : S → bool) s : option S := if check s then Some s else None.

Fixpoint proc_of k : proc S A :=
  match k with
  | CRet x => Return x
  | CFail e => Crash e
  | CAct f => Act (λ s, match f s with Some (s', k) => Some (s', proc_of k) | None => None end)
  | CPost f k | CSend f k => blocked (acts f) (proc_of k)
  | CQueue check k => blocked (waits_for check) (proc_of k)
  | CPoll k => proc_of k
  end.

(** Coroutines whose verbs all have a context. *)
Inductive with_ctx : coro S A → Prop :=
  | with_ctx_ret (x : A) : with_ctx (CRet x)
  | with_ctx_fail e : with_ctx (CFail e)
  | with_ctx_act f : (∀ s s' k, f s = Some (s', k) → with_ctx k) → with_ctx (CAct f)
  | with_ctx_post f k : with_ctx k → with_ctx (CPost f k)
  | with_ctx_queue check k : with_ctx k → with_ctx (CQueue check k).

(** What the coroutines that wait for the card or in the queue wait for. *)
Definition waits m : list (Z * (S → option S)) :=
  (prod_map id acts <$> posted m) ++ (prod_map id waits_for <$> busy_waiting_queue m).
Definition wait_map m : gmap Z (S → option S) := list_to_map (waits m).
Definition thread m (i : nat) k : proc S A :=
  match wait_map m !! Z.of_nat i with Some a => blocked a (proc_of k) | None => proc_of k end.
Definition threads m : list (proc S A) := imap (thread m) (workers m).

(** ** The invariant of the master *)
Definition running (pc : mpc) : list nat := match pc with MIn i _ => [i] | _ => [] end.
Definition starting (n : nat) (pc : mpc) : list nat :=
  match pc with MStart i | MIn _ (MStart i) => seq i (n - i) | _ => [] end.
Definition pc_ok (pc : mpc) : bool :=
  match pc with MIn _ (MStart _ | MTest | MBusy) => true | MIn _ _ => false | _ => true end.
Definition stopped (pc : mpc) : bool := match pc with MReturn | MError _ => true | _ => false end.

(** Where the coroutines are. *)
Definition places m : list Z :=
  (Z.of_nat <$> running (at_pc m) ++ starting (length (workers m)) (at_pc m)) ++
  landed m ++ (wc_wr_id <$> cq m) ++ (waits m).*1.

Record sched_inv m : Prop := {
  si_pc : pc_ok (at_pc m) = true;
  si_ctx : Forall with_ctx (workers m);
  si_cq : Forall (λ w, status_ok w = true) (cq m);
  (** every coroutine is in one place, until the thread stops *)
  si_places : ∃ gone, places m ++ gone ≡ₚ Z.of_nat <$> seq 0 (length (workers m)) ∧
                      (stopped (at_pc m) = false → gone = []) }.

Lemma waits_fst m : (waits m).*1 = (posted m).*1 ++ (busy_waiting_queue m).*1.
Proof. unfold waits. rewrite fmap_app, <- !list_fmap_compose. done. Qed.

Lemma places_NoDup m : sched_inv m → NoDup (places m).
Proof.
  intros [_ _ _ (gone & Hp & _)].
  assert (NoDup (places m ++ gone)) as H.
  { rewrite Hp. apply NoDup_fmap_2; [intros ?? ?; lia|apply NoDup_seq]. }
  by apply NoDup_app in H as (? & _).
Qed.

(** A place holds the id of a coroutine. *)
Lemma places_id m id : sched_inv m → id ∈ places m → ∃ i k, id = Z.of_nat i ∧ workers m !! i = Some k.
Proof.
  intros [_ _ _ (gone & Hp & _)] Hid.
  assert (id ∈ Z.of_nat <$> seq 0 (length (workers m))) as (i & -> & Hi)%list_elem_of_fmap
    by (rewrite <- Hp; apply elem_of_app; by left).
  apply elem_of_seq in Hi. destruct (lookup_lt_is_Some_2 (workers m) i) as [k Hk]; [lia|]. by exists i, k.
Qed.

Lemma waits_NoDup m : sched_inv m → NoDup (waits m).*1.
Proof.
  intros H%places_NoDup. unfold places in H.
  by do 3 apply NoDup_app in H as (_ & _ & H).
Qed.

(** ** Lemmas on the threads *)
Lemma threads_lookup m (i : nat) : threads m !! i = thread m i <$> workers m !! i.
Proof. apply list_lookup_imap. Qed.

Lemma threads_length m : length (threads m) = length (workers m).
Proof. apply length_imap. Qed.

Lemma threads_same m m' :
  length (workers m') = length (workers m) →
  (∀ i k, workers m !! i = Some k → ∃ k', workers m' !! i = Some k' ∧ thread m' i k' = thread m i k) →
  threads m' = threads m.
Proof.
  intros Hl H. apply list_eq. intros i. rewrite !threads_lookup.
  destruct (workers m !! i) as [k|] eqn:E.
  - destruct (H _ _ E) as (k' & -> & Hk). cbn. by rewrite Hk.
  - apply lookup_ge_None in E. rewrite lookup_ge_None_2; [done|lia].
Qed.

(** One thread changes. *)
Lemma threads_change m m' (i : nat) k k' :
  workers m !! i = Some k → workers m' = <[i := k']> (workers m) →
  (∀ j : nat, j ≠ i → wait_map m' !! Z.of_nat j = wait_map m !! Z.of_nat j) →
  threads m' = <[i := thread m' i k']> (threads m).
Proof.
  intros Hi Hw Hj. assert (Hl : (i < length (workers m))%nat) by (by eapply lookup_lt_Some).
  apply list_eq. intros j. destruct (decide (j = i)) as [->|Hne].
  - rewrite list_lookup_insert_eq by (by rewrite threads_length).
    rewrite threads_lookup, Hw, list_lookup_insert_eq by done. done.
  - rewrite list_lookup_insert_ne by done. rewrite !threads_lookup, Hw, list_lookup_insert_ne by done.
    destruct (workers m !! j); [|done]. cbn. unfold thread. by rewrite Hj.
Qed.

(** A step of the thread [i] in the pool. *)
Lemma threads_step m m' (ps : list (proc S A)) s s' (i : nat) k k' :
  workers m !! i = Some k → workers m' = <[i := k']> (workers m) →
  (∀ j : nat, j ≠ i → wait_map m' !! Z.of_nat j = wait_map m !! Z.of_nat j) →
  (∃ f, thread m i k = Act f ∧ f s = Some (s', thread m' i k')) →
  rtc pool_step (threads m ++ ps, s) (threads m' ++ ps, s').
Proof.
  intros Hi Hw Hj (f & Hf & Hs). assert (Hl : (i < length (threads m))%nat)
    by (rewrite threads_length; by eapply lookup_lt_Some).
  rewrite (threads_change m m' i k k') by done. rewrite <- insert_app_l by done.
  apply rtc_once, (pool_act _ _ i f); [|done].
  rewrite lookup_app_l by done. by rewrite threads_lookup, Hi; cbn; rewrite Hf.
Qed.

(** A wait more. *)
Lemma wait_map_add m m' id a :
  waits m' ≡ₚ (id, a) :: waits m → id ∉ (waits m).*1 → NoDup (waits m).*1 →
  wait_map m' = <[id := a]> (wait_map m).
Proof.
  intros Hp Hid Hnd. unfold wait_map. rewrite <- list_to_map_cons. apply list_to_map_proper; [|done].
  rewrite Hp. cbn. by constructor.
Qed.
Lemma wait_map_perm m m' : waits m' ≡ₚ waits m → NoDup (waits m).*1 → wait_map m' = wait_map m.
Proof. intros Hp Hnd. apply list_to_map_proper; [by rewrite Hp|done]. Qed.

Lemma wait_map_None m id : id ∉ (waits m).*1 → wait_map m !! id = None.
Proof. apply not_elem_of_list_to_map_1. Qed.

(** ** The steps *)

Lemma poll_once_empty : poll_rdma_cq_once (poll_result []) = Ok (false, None).
Proof. done. Qed.
Lemma poll_once_cons w q : status_ok w = true →
  poll_rdma_cq_once (poll_result (w :: q)) = Ok (true, Some (wc_wr_id w)).
Proof. intros H. unfold poll_rdma_cq_once, pollOnce. cbn. by rewrite H. Qed.

(** Coroutines move between places, or leave them when the thread stops. *)
Lemma sched_inv_move m m' gone :
  sched_inv m → length (workers m') = length (workers m) → pc_ok (at_pc m') = true →
  Forall with_ctx (workers m') → Forall (λ w, status_ok w = true) (cq m') →
  places m' ++ gone ≡ₚ places m →
  (stopped (at_pc m') = false → gone = [] ∧ stopped (at_pc m) = false) → sched_inv m'.
Proof.
  intros [_ _ _ (g & Hp & Hg)] Hl Hpc Hw Hq Hm Hst. split; [done..|].
  exists (gone ++ g). rewrite app_assoc, Hm, Hl. split; [done|].
  intros [-> Hs]%Hst. by apply Hg.
Qed.

(** The pc alone changes. *)
Lemma threads_go pc m : threads (go pc m) = threads m.
Proof. done. Qed.

Lemma go_sim pc m gone :
  sched_inv m → pc_ok pc = true →
  (running pc ++ starting (length (workers m)) pc) ++ gone ≡ₚ running (at_pc m) ++ starting (length (workers m)) (at_pc m) →
  (stopped pc = false → gone = [] ∧ stopped (at_pc m) = false) → sched_inv (go pc m).
Proof.
  intros Hm Hpc Hp Hst. apply (sched_inv_move m _ (Z.of_nat <$> gone)); try done; [apply Hm|apply Hm| |].
  - unfold places. cbn [at_pc workers landed cq go]. change (waits (go pc m)) with (waits m). rewrite <- Hp, !fmap_app.
    generalize (landed m ++ (wc_wr_id <$> cq m) ++ (waits m).*1). intros rest.
    rewrite <- !app_assoc. do 2 f_equiv. apply Permutation_app_comm.
  - intros [-> ?]%Hst. done.
Qed.

(** The running coroutine waits for nothing. *)
Lemma running_free m i back : sched_inv m → at_pc m = MIn i back → wait_map m !! Z.of_nat i = None.
Proof.
  intros Hm Hpc. apply wait_map_None. pose proof (places_NoDup m Hm) as H. unfold places in H. rewrite Hpc in H. cbn in H.
  apply NoDup_cons in H as [H _]. intros Hi. apply H. rewrite !elem_of_app. auto.
Qed.

(** The running coroutine goes on without a yield. *)
Lemma worker_sim s s' m ps i back f k :
  sched_inv m → at_pc m = MIn i back → workers m !! i = Some (CAct f) → f s = Some (s', k) →
  sched_inv (set_worker i k m) ∧
  rtc pool_step (threads m ++ ps, s) (threads (set_worker i k m) ++ ps, s').
Proof.
  intros Hm Hpc Hi Hf. pose proof (running_free _ _ _ Hm Hpc) as Hw. split.
  - apply (sched_inv_move m _ []); try done; try apply Hm.
    + apply length_insert.
    + apply Forall_insert; [apply Hm|]. pose proof (Forall_lookup_1 _ _ _ _ (si_ctx _ Hm) Hi) as H. inversion H. eauto.
    + unfold places. cbn. by rewrite length_insert, app_nil_r.
  - apply (threads_step _ _ _ _ _ i (CAct f) k); [done..|]. unfold thread. change (wait_map (set_worker i k m)) with (wait_map m).
    rewrite Hw. cbn. eexists. split; [done|]. cbn. by rewrite Hf.
Qed.

(** It yields, and waits for [a]: its thread is as before. *)
Lemma yield_sim s m m' ps i back k k' a :
  sched_inv m → at_pc m = MIn i back → workers m !! i = Some k → proc_of k = blocked a (proc_of k') → with_ctx k' →
  at_pc m' = back → workers m' = <[i := k']> (workers m) → landed m' = landed m → cq m' = cq m →
  waits m' ≡ₚ (Z.of_nat i, a) :: waits m →
  sched_inv m' ∧ rtc pool_step (threads m ++ ps, s) (threads m' ++ ps, s).
Proof.
  intros Hm Hpc Hi Hk Hctx Epc Ew El Eq Ewt. pose proof (running_free _ _ _ Hm Hpc) as Hw.
  assert (Hback : running back = [] ∧ starting (length (workers m)) back = starting (length (workers m)) (MIn i back) ∧
                  pc_ok back = true ∧ stopped back = false).
  { pose proof (si_pc _ Hm) as H. rewrite Hpc in H. by destruct back. }
  destruct Hback as (Hr & Hs & Hok & Hst). split.
  - apply (sched_inv_move m _ []); rewrite ?Epc, ?Ew, ?Eq, ?length_insert; try done; try apply Hm.
    + apply Forall_insert; [apply Hm|done].
    + unfold places. rewrite Epc, Ew, El, Eq, length_insert, Hr, Hs, Hpc, Ewt, app_nil_r. cbn. solve_Permutation.
    + intros _. split; [done|]. by rewrite Hpc.
  - replace (threads m') with (threads m); [done|]. symmetry. apply threads_same; [by rewrite Ew, length_insert|].
    intros j kj Hj. assert (Ei : wait_map m' = <[Z.of_nat i := a]> (wait_map m)).
    { apply wait_map_add; [done| |by apply waits_NoDup].
      intros Hin. unfold wait_map in Hw. apply not_elem_of_list_to_map_2 in Hw. done. }
    rewrite Ew. unfold thread. rewrite Ei. destruct (decide (j = i)) as [->|Hne].
    + rewrite list_lookup_insert_eq by (by eapply lookup_lt_Some). exists k'. split; [done|].
      rewrite lookup_insert_eq, Hw. congruence.
    + rewrite list_lookup_insert_ne, lookup_insert_ne by lia. by exists kj.
Qed.

(** A thread that waits for [a] acts: its wait is over. *)
Lemma acts_sim m m' ps s s' id a :
  sched_inv m → workers m' = workers m → waits m ≡ₚ (id, a) :: waits m' → a s = Some s' →
  rtc pool_step (threads m ++ ps, s) (threads m' ++ ps, s').
Proof.
  intros Hm Ew Ewt Ha. pose proof (waits_NoDup m Hm) as Hnd.
  assert (Hnd' : NoDup ((id, a) :: waits m').*1) by (by rewrite <- Ewt).
  cbn in Hnd'. apply NoDup_cons in Hnd' as [Hid Hnd'].
  assert (Em : wait_map m = <[id := a]> (wait_map m')) by (by apply wait_map_add).
  destruct (places_id m id Hm) as (i & k & -> & Hi).
  { unfold places. rewrite !elem_of_app, Ewt. do 3 right. by left. }
  apply (threads_step _ _ _ _ _ i k k); [done| | |].
  - by rewrite Ew, list_insert_id.
  - intros j Hj. by rewrite Em, lookup_insert_ne by lia.
  - unfold thread. rewrite Em, lookup_insert_eq, (wait_map_None m') by done.
    eexists. split; [done|]. cbn. by rewrite Ha.
Qed.

Lemma poll_sim m :
  sched_inv m → at_pc m = MPoll → ∃ m', (∀ need_stop s, coro_master need_stop s m = Some (s, m')) ∧
  sched_inv m' ∧ threads m' = threads m.
Proof.
  intros Hm Hpc. unfold coro_master. rewrite Hpc. pose proof (si_cq _ Hm) as Hq. destruct (cq m) as [|w q] eqn:Eq.
  - rewrite poll_once_empty. eexists. split; [done|]. split; [|done].
    apply (sched_inv_move m _ []); try done; try apply Hm.
    + unfold places. rewrite Hpc, Eq. cbn. by rewrite app_nil_r.
    + intros _. by rewrite Hpc.
  - apply Forall_cons in Hq as [Hw Hq]. rewrite poll_once_cons by done. eexists. split; [done|]. split; [|done].
    destruct (places_id m (wc_wr_id w) Hm) as (i & k & Ei & _).
    { unfold places. rewrite Eq, !elem_of_app. right; right; left. by left. }
    apply (sched_inv_move m _ []); try done; try apply Hm.
    + unfold places. rewrite Hpc, Eq. cbn. rewrite Ei, Nat2Z.id, app_nil_r.
      change (waits (yield_to _ _ _)) with (waits m). solve_Permutation.
    + intros _. by rewrite Hpc.
Qed.

Lemma queue_sim s m s' m' ps need_stop :
  sched_inv m → at_pc m = MBusy → coro_master need_stop s m = Some (s', m') →
  sched_inv m' ∧ rtc pool_step (threads m ++ ps, s) (threads m' ++ ps, s').
Proof.
  intros Hm Hpc. unfold coro_master. rewrite Hpc. destruct (busy_waiting_queue m) as [|[id c] q] eqn:Eb.
  { intros [= <- <-]. split; [|done]. apply (go_sim _ _ []); rewrite ?Hpc; done. }
  assert (Ewt : waits m ≡ₚ (id, waits_for c) :: waits (set_busy q m)).
  { unfold waits. rewrite Eb. cbn. by rewrite Permutation_middle. }
  cbn [fst snd]. destruct (c s) eqn:Ec; intros [= <- <-].
  - destruct (places_id m id Hm) as (i & k & -> & Hi).
    { unfold places. rewrite !elem_of_app, Ewt. do 3 right. by left. }
    split; [|apply (acts_sim m _ ps s s (Z.of_nat i) (waits_for c)); try done; unfold waits_for; by rewrite Ec].
    apply (sched_inv_move m _ []); try done; try apply Hm.
    + unfold places. rewrite Hpc, Ewt. cbn. rewrite Nat2Z.id, app_nil_r.
      change (waits (yield_to _ _ _)) with (waits (set_busy q m)). solve_Permutation.
    + intros _. by rewrite Hpc.
  - assert (Er : waits (go MTest (set_busy (q ++ [(id, c)]) m)) ≡ₚ waits m).
    { rewrite Ewt. unfold waits. cbn. rewrite fmap_app. cbn. solve_Permutation. }
    split.
    + apply (sched_inv_move m _ []); try done; try apply Hm.
      * unfold places. rewrite Hpc, Er, app_nil_r. done.
      * intros _. by rewrite Hpc.
    + replace (threads (go MTest (set_busy (q ++ [(id, c)]) m))) with (threads m); [done|].
      unfold threads, thread. rewrite (wait_map_perm m (go MTest (set_busy (q ++ [(id, c)]) m))); [done|done|by apply waits_NoDup].
Qed.

Lemma run_worker_sim s m s' m' ps i back :
  sched_inv m → at_pc m = MIn i back → run_worker i back s m = Some (s', m') →
  sched_inv m' ∧ rtc pool_step (threads m ++ ps, s) (threads m' ++ ps, s').
Proof.
  intros Hm Hpc. unfold run_worker.
  assert (Hstop : ∀ pc, stopped pc = true → sched_inv (go pc m)).
  { intros pc Hs. apply (go_sim _ _ (i :: starting (length (workers m)) (at_pc m))); [done|by destruct pc| |by destruct pc].
    rewrite Hpc. by destruct pc. }
  destruct (workers m !! i) as [k|] eqn:Hi; [|intros [= <- <-]; split; [by apply Hstop|done]].
  pose proof (Forall_lookup_1 _ _ _ _ (si_ctx _ Hm) Hi) as Hctx.
  destruct k as [x|e|f|f k|c k|f k|k].
  - intros [= <- <-]. split; [by apply Hstop|done].
  - intros [= <- <-]. split; [by apply Hstop|done].
  - destruct (f s) as [[s1 k]|] eqn:Ef; [|done]. intros [= <- <-]. by eapply worker_sim.
  - intros [= <- <-]. inversion Hctx. apply (yield_sim s m _ ps i back (CPost f k) k (acts f)); try done.
    unfold waits. cbn. rewrite fmap_app. cbn. solve_Permutation.
  - intros [= <- <-]. inversion Hctx. apply (yield_sim s m _ ps i back (CQueue c k) k (waits_for c)); try done.
    unfold waits. cbn. rewrite fmap_app. cbn. solve_Permutation.
  - inversion Hctx.
  - inversion Hctx.
Qed.

Lemma master_sim s m s' m' ps need_stop :
  sched_inv m → coro_master need_stop s m = Some (s', m') →
  sched_inv m' ∧ rtc pool_step (threads m ++ ps, s) (threads m' ++ ps, s').
Proof.
  intros Hm. destruct (at_pc m) as [i| | | |i back| |] eqn:Hpc.
  - unfold coro_master. rewrite Hpc. destruct (decide _); intros [= <- <-]; (split; [|done]).
    + apply (go_sim _ _ []); rewrite ?Hpc; try done. cbn. rewrite app_nil_r.
      replace (length (workers m) - i)%nat with (Datatypes.S (length (workers m) - Datatypes.S i))%nat by lia. done.
    + apply (go_sim _ _ []); rewrite ?Hpc; try done. cbn.
      by replace (length (workers m) - i)%nat with 0%nat by lia.
  - unfold coro_master. rewrite Hpc. destruct (need_stop s); intros [= <- <-]; (split; [|done]);
      apply (go_sim _ _ []); rewrite ?Hpc; done.
  - destruct (poll_sim m Hm Hpc) as (m1 & H & Hinv & Ht). rewrite H. intros [= <- <-]. by rewrite Ht.
  - by apply queue_sim.
  - unfold coro_master. rewrite Hpc. by apply run_worker_sim.
  - unfold coro_master. by rewrite Hpc.
  - unfold coro_master. by rewrite Hpc.
Qed.

Lemma land_sim j s m s' m' ps :
  sched_inv m → nic_land j s m = Some (s', m') →
  sched_inv m' ∧ rtc pool_step (threads m ++ ps, s) (threads m' ++ ps, s').
Proof.
  intros Hm. unfold nic_land. destruct (posted m !! j) as [[id f]|] eqn:Hj; [|done]. intros [= <- <-].
  match goal with |- sched_inv ?m' ∧ _ => set (m1 := m') end.
  assert (Ewt : waits m ≡ₚ (id, acts f) :: waits m1).
  { unfold waits. cbn. rewrite (delete_Permutation (posted m) j (id, f)) at 1 by done. done. }
  split; [|by apply (acts_sim m _ ps s _ id (acts f))].
  apply (sched_inv_move m _ []); try done; try apply Hm.
  unfold places. rewrite Ewt. cbn. solve_Permutation.
Qed.

Lemma complete_sim j s m s' m' ps :
  sched_inv m → nic_complete j s m = Some (s', m') →
  sched_inv m' ∧ rtc pool_step (threads m ++ ps, s) (threads m' ++ ps, s').
Proof.
  intros Hm. unfold nic_complete. destruct (landed m !! j) as [id|] eqn:Hj; [|done]. intros [= <- <-].
  split; [|done]. apply (sched_inv_move m _ []); try done; try apply Hm.
  - apply Forall_app. split; [apply Hm|by repeat constructor].
  - unfold places. cbn [at_pc workers landed cq]. change (waits (Sched _ _ _ _ _ _)) with (waits m).
    pose proof (delete_Permutation (landed m) j id Hj) as Hd. generalize dependent (delete j (landed m)). intros d Hd.
    rewrite Hd, (fmap_app _ (cq m)). cbn. solve_Permutation.
Qed.

(** Every step of the thread, the network card or another thread is a step of
    the pool, or none. *)
Lemma step_sim need_stop l (c c' : config S A) :
  sched_inv (here c) → step need_stop l c = Some c' →
  sched_inv (here c') ∧
  rtc pool_step (threads (here c) ++ others c, shared c) (threads (here c') ++ others c', shared c').
Proof.
  intros Hm. destruct c as [m os s]. unfold step. cbn [here others shared] in *. destruct l as [|j|j|j].
  - destruct (coro_master _ _ _) as [[s1 m1]|] eqn:E; [|done]. intros [= <-]. by eapply master_sim.
  - destruct (nic_land _ _ _) as [[s1 m1]|] eqn:E; [|done]. intros [= <-]. by eapply land_sim.
  - destruct (nic_complete _ _ _) as [[s1 m1]|] eqn:E; [|done]. intros [= <-]. by eapply complete_sim.
  - destruct (schedule [j] os s) as [[os1 s1]|] eqn:E; [|done]. intros [= <-]. split; [done|].
    apply (pool_steps_app_r (threads m) (os, s) (os1, s1)). by apply (schedule_steps [j]).
Qed.

Lemma steps_sim need_stop ls (c c' : config S A) :
  sched_inv (here c) → steps need_stop ls c = Some c' →
  sched_inv (here c') ∧
  rtc pool_step (threads (here c) ++ others c, shared c) (threads (here c') ++ others c', shared c').
Proof.
  revert c. induction ls as [|l ls IH]; intros c Hm; cbn; [by intros [= <-]|].
  destruct (step need_stop l c) as [c1|] eqn:E; [|done]. intros H.
  apply step_sim in E as [H1 Hs]; [|done]. apply IH in H as [H2 Hs']; [|done]. split; [done|by etrans].
Qed.

(** No thread of the process appears or ends. *)
Lemma step_length need_stop l (c c' : config S A) :
  step need_stop l c = Some c' → length (others c') = length (others c).
Proof.
  destruct c as [m os s]. unfold step, schedule. cbn [here others shared].
  destruct l as [|j|j|j]; repeat case_match; intros [= <-]; simplify_eq; cbn; by rewrite ?length_insert.
Qed.

Lemma steps_length need_stop ls (c c' : config S A) :
  steps need_stop ls c = Some c' → length (others c') = length (others c).
Proof.
  revert c. induction ls as [|l ls IH]; intros c; cbn; [by intros [= <-]|].
  destruct (step need_stop l c) as [c1|] eqn:E; [|done]. intros H%IH. rewrite H. by eapply step_length.
Qed.

(** When the master is called, all coroutines are to be started. *)
Lemma master_called_inv (ws : list (coro S A)) : Forall with_ctx ws → sched_inv (master_called ws).
Proof.
  intros Hw. split; [done..|]. exists []. unfold places. cbn. by rewrite Nat.sub_0_r, !app_nil_r.
Qed.

Lemma master_called_threads (ws : list (coro S A)) : threads (master_called ws) = proc_of <$> ws.
Proof.
  apply list_eq. intros i. rewrite threads_lookup, list_lookup_fmap. cbn [workers master_called].
  by destruct (ws !! i).
Qed.


(** The running coroutine is a thread that waits for nothing. *)
Lemma running_thread m i back k :
  sched_inv m → at_pc m = MIn i back → workers m !! i = Some k → threads m !! i = Some (proc_of k).
Proof.
  intros Hm Hpc Hi. rewrite threads_lookup, Hi. cbn. unfold thread. by rewrite (running_free m i back).
Qed.
End coro_laws.

(** ** Coroutines that implement processes *)
Section implements.
Context {S : Type}.

Lemma refines_plain {A B} (p : proc S A) (k : A → coro S B) (k' : A → proc S B) :
  (∀ a, refines (proc_of (k a)) (k' a)) → refines (proc_of (plain p ≫= k)) (p ≫= k').
Proof.
  intros Hk. unfold mbind, coro_bind, proc_bind. induction p as [a|e|f IH] using proc_ind'; cbn; [done|by right|].
  intros s. destruct (f s) as [[s' p']|] eqn:E; [|done]. right. eexists _, _. split; [done|]. cbn. rewrite E.
  split; [done|]. by eapply IH.
Qed.

(** The loop that pushes its condition waits for it. *)
Lemma refines_wait {B} n (check : S → bool) (k : unit → coro S B) (k' : unit → proc S B) :
  refines (proc_of (k tt)) (k' tt) → refines (proc_of (coro_wait n check ≫= k)) (await check ≫= k').
Proof.
  intros Hk. unfold mbind, coro_bind, proc_bind. induction n as [|n IH]; cbn; [by left|]. intros s.
  destruct (check s) eqn:E; cbn.
  - right. eexists _, _. split; [done|]. cbn. rewrite E. by split.
  - left. split; [done|]. intros s'. unfold waits_for. destruct (check s'); [|done]. by left.
Qed.

Lemma refines_post {B} (f : S → S) (k : unit → coro S B) (k' : unit → proc S B) :
  refines (proc_of (k tt)) (k' tt) →
  refines (proc_of (verb_ctx f ≫= k)) (atomic (λ s, (tt, f s)) ≫= k').
Proof.
  intros Hk. cbn. intros s. right. eexists _, _. split; [done|]. by split.
Qed.

Lemma with_ctx_bind {A B} (c : coro S A) (k : A → coro S B) :
  with_ctx c → (∀ a, with_ctx (k a)) → with_ctx (c ≫= k).
Proof.
  unfold mbind, coro_bind. intros Hc Hk. induction Hc as [x|e|f Hf IH|f c Hc IH|check c Hc IH]; cbn; try constructor; auto.
  intros s s' c. destruct (f s) as [[s1 c1]|] eqn:E; [|done]. intros [= <- <-]. by eapply IH.
Qed.

Lemma with_ctx_plain {A} (p : proc S A) : with_ctx (plain p).
Proof.
  induction p as [a|e|f IH] using proc_ind'; cbn; constructor. intros s s' c.
  destruct (f s) as [[s1 p1]|] eqn:E; [|done]. intros [= <- <-]. by eapply IH.
Qed.

Lemma with_ctx_wait n (check : S → bool) : with_ctx (coro_wait n check).
Proof.
  induction n as [|n IH]; cbn; constructor. intros s s' c [= <- <-]. destruct (check s); [constructor|by constructor].
Qed.
End implements.
Create HintDb coro.
#[export] Hint Resolve with_ctx_bind with_ctx_plain with_ctx_wait : coro.
#[export] Hint Constructors with_ctx : coro.

(** C15. A thread that runs coroutines refines one thread per coroutine. When
    the coroutines only use verbs with a context and implement the processes
    [ps], every run of the master, interleaved in any way with the network card
    and with other threads, is a run of the pool of [ps] and the other threads
    on the same shared state: a posted request is an atomic action of its
    process, and a condition pushed on the busy-waiting queue a wait. The
    coroutine that runs is never one that still waits. *)
Theorem coroutines_refine_threads {S A} (need_stop : S → bool) (ws : list (coro S A)) (ps os : list (proc S A))
    (s : S) (ls : list label) (c : config S A)
    (Hctx : Forall with_ctx ws) (Himpl : Forall2 (λ k p, refines (proc_of k) p) ws ps)
    (Hrun : steps need_stop ls (Config (master_called ws) os s) = Some c) :
  ∃ ps', rtc pool_step (ps ++ os, s) (ps' ++ others c, shared c) ∧
         Forall2 refines (threads (here c)) ps' ∧
         ∀ i back k, at_pc (here c) = MIn i back → workers (here c) !! i = Some k →
           Z.of_nat i ∉ (posted (here c)).*1 ++ landed (here c) ++ (wc_wr_id <$> cq (here c)) ++
                        (busy_waiting_queue (here c)).*1 ∧
           ∀ a, k = CRet a → ps' !! i = Some (Return a).
Proof.
  pose proof (steps_length _ _ _ _ Hrun) as Hlen.
  apply steps_sim in Hrun as [Hinv Hs]; [|by apply master_called_inv].
  cbn [here others shared] in Hs. rewrite master_called_threads in Hs.
  eapply refines_steps in Hs as (rs & qs & os' & Hrs & Hs & Hr & Hl); [|by apply Forall2_fmap_l].
  apply app_inj_2 in Hrs as [<- <-]; [|cbn in Hlen; congruence].
  exists qs. split_and!; [done|done|]. intros i back k Hpc Hi. split.
  - pose proof (places_NoDup _ Hinv) as H. unfold places in H. rewrite Hpc, waits_fst in H.
    cbn in H. apply NoDup_cons in H as [H _]. intros Hin. apply H. rewrite !elem_of_app in *. naive_solver.
  - intros a ->. pose proof (running_thread _ _ _ _ Hinv Hpc Hi) as Ht.
    destruct (Forall2_lookup_l _ _ _ _ _ Hr Ht) as (q & Hq & Eq). cbn in Eq. by subst q.
Qed.
