(* ===== verification/CoroLive.v ===== *)
(** * No coroutine is forgotten

    What must happen in a thread of coroutines, whatever the network card and
    the other threads do between its steps ([inevitable]): a completion
    resumes its coroutine, and a condition in the busy-waiting queue is
    tested. And what happens when a coroutine uses a verb without its
    context. *)

From Stdlib Require Import ZArith Lia Bool.
From stdpp Require Import base tactics decidable option numbers list relations gmap.
From S2P Require Import Prelude Common Process Verbs Dsm Coro CoroLaws.

Section live.
Context {S A : Type} (need_stop : S → bool).
Implicit Types (c : config S A) (P Q : config S A → Prop) (k : coro S A).

(** A step of anyone but the thread. *)
Definition env_step c c' : Prop := ∃ l, l ≠ LMaster ∧ step need_stop l c = Some c'.

(** However the others act, the thread can go on, and comes to [P]. *)
Inductive inevitable P : config S A → Prop :=
  | inev_now c : P c → inevitable P c
  | inev_next c :
      (∀ c1, rtc env_step c c1 → is_Some (step need_stop LMaster c1)) →
      (∀ c1 c2, rtc env_step c c1 → step need_stop LMaster c1 = Some c2 → inevitable P c2) →
      inevitable P c.

(** A coroutine that takes no mutex is never blocked. *)
Inductive total : coro S A → Prop :=
  | total_ret (x : A) : total (CRet x)
  | total_fail e : total (CFail e)
  | total_act f : (∀ s, is_Some (f s)) → (∀ s s' k, f s = Some (s', k) → total k) → total (CAct f)
  | total_post f k : total k → total (CPost f k)
  | total_queue check k : total k → total (CQueue check k)
  | total_send f k : total k → total (CSend f k)
  | total_poll k : total k → total (CPoll k).

Record live c : Prop := { live_inv : sched_inv (here c); live_total : Forall total (workers (here c)) }.

Lemma inevitable_trans P Q c : inevitable P c → (∀ c', P c' → inevitable Q c') → inevitable Q c.
Proof.
  intros H HPQ. induction H as [c H|c H1 _ IH]; [by apply HPQ|]. apply inev_next; [done|]. intros. by eapply IH.
Qed.

(** ** What the others leave as it is *)

Record frame c c' : Prop := {
  fr_pc : at_pc (here c') = at_pc (here c);
  fr_workers : workers (here c') = workers (here c);
  fr_busy : busy_waiting_queue (here c') = busy_waiting_queue (here c);
  fr_cq : cq (here c) `prefix_of` cq (here c') }.

Lemma env_frame c c' : rtc env_step c c' → frame c c'.
Proof.
  induction 1 as [c|c c1 c2 (l & Hl & H) _ IH]; [done|].
  destruct IH as [? ? ? ?]. assert (frame c c1) as [? ? ? ?].
  { destruct c as [m os s]. unfold step, nic_land, nic_complete in H. cbn [here others shared] in H.
    destruct l as [|j|j|j]; [done|..]; repeat case_match; simplify_eq; split; cbn; try done. by eexists. }
  split; try congruence. by etrans.
Qed.

Lemma step_live l c c' : live c → step need_stop l c = Some c' → live c'.
Proof.
  intros [Hi Ht] H. split; [by eapply step_sim|]. clear Hi. destruct c as [m os s]. cbn [here] in Ht.
  unfold step, nic_land, nic_complete, coro_master, run_worker in H. cbn [here others shared] in H.
  destruct l as [|j|j|j]; repeat case_match; simplify_eq; cbn; try done;
    apply Forall_insert; try done;
    match goal with E : workers m !! _ = Some _ |- _ => pose proof (Forall_lookup_1 _ _ _ _ Ht E) as Hk end;
    inversion Hk; eauto.
Qed.

Lemma env_live c c' : live c → rtc env_step c c' → live c'.
Proof. intros H. induction 1 as [|c c1 c2 (l & _ & Hs) _ IH]; [done|]. apply IH. by eapply step_live. Qed.

(** A thread that has not stopped can go on. *)
Lemma master_goes c : live c → stopped (at_pc (here c)) = false → is_Some (step need_stop LMaster c).
Proof.
  intros [_ Ht] Hst. destruct c as [m os s]. unfold step, coro_master, run_worker. cbn [here others shared] in *.
  destruct (at_pc m) as [i| | | |i back| |]; try done; repeat case_match; simplify_eq; try done.
  match goal with E : workers m !! _ = Some _ |- _ => pose proof (Forall_lookup_1 _ _ _ _ Ht E) as Hk end.
  inversion Hk as [| |f' Hf _| | | |]; subst. specialize (Hf s). match goal with E : _ = None |- _ => rewrite E in Hf end.
  by destruct Hf.
Qed.

(** The next step of the thread, after the others acted. *)
Lemma inevitable_step P c :
  live c → stopped (at_pc (here c)) = false →
  (∀ c1 m' s', live c1 → frame c c1 → coro_master need_stop (shared c1) (here c1) = Some (s', m') →
     live (Config m' (others c1) s') → inevitable P (Config m' (others c1) s')) →
  inevitable P c.
Proof.
  intros Hc Hst H. apply inev_next.
  - intros c1 He. pose proof (env_frame _ _ He) as [Epc _ _ _].
    apply master_goes; [by eapply env_live|by rewrite Epc].
  - intros c1 c2 He Hs. pose proof (env_frame _ _ He) as Hf. assert (live c1) as Hl by (by eapply env_live).
    pose proof (step_live _ _ _ Hl Hs) as Hl2. unfold step in Hs.
    destruct (coro_master need_stop (shared c1) (here c1)) as [[s1 m1]|] eqn:E; [|done]. injection Hs as <-. by eapply H.
Qed.

(** ** The parts of the loop *)

(** The thread is at one of [pcs] or has stopped, and the queues have only
    grown. *)
Record comes_to (pcs : mpc → bool) c c' : Prop := {
  ct_live : live c';
  ct_pc : stopped (at_pc (here c')) = true ∨ pcs (at_pc (here c')) = true;
  ct_busy : busy_waiting_queue (here c) `prefix_of` busy_waiting_queue (here c');
  ct_cq : cq (here c) `prefix_of` cq (here c');
  ct_len : length (workers (here c')) = length (workers (here c)) }.

Lemma comes_to_trans pcs pcs' c c1 c2 : comes_to pcs c c1 → comes_to pcs' c1 c2 → comes_to pcs' c c2.
Proof. intros [] []. split; try done; solve [by etrans|congruence]. Qed.

Lemma comes_now pcs c : live c → stopped (at_pc (here c)) || pcs (at_pc (here c)) = true → inevitable (comes_to pcs c) c.
Proof. intros Hc H%orb_true_iff. apply inev_now. by split. Qed.

Lemma comes_on pcs c c1 c2 :
  frame c c1 → busy_waiting_queue (here c1) `prefix_of` busy_waiting_queue (here c2) → cq (here c1) `prefix_of` cq (here c2) →
  length (workers (here c2)) = length (workers (here c1)) →
  inevitable (comes_to pcs c2) c2 → inevitable (comes_to pcs c) c2.
Proof.
  intros [_ Hw Hb Hq] Hb' Hq' Hn H. eapply inevitable_trans; [done|]. intros c' [Hl Hpc Hb2 Hq2 Hn2]. apply inev_now.
  split; [done|done| | |congruence]; [rewrite <- Hb|]; by do 2 (etrans; [done|]).
Qed.

(** A coroutine that runs yields. *)
Lemma run_phase i back k c :
  live c → at_pc (here c) = MIn i back → workers (here c) !! i = Some k →
  inevitable (comes_to (λ pc, bool_decide (pc = back)) c) c.
Proof.
  revert c. induction k as [x|e|f IH|f k IH|check k IH|f k IH|k IH] using coro_ind'; intros c Hc Hpc Hi.
  all: pose proof (Forall_lookup_1 _ _ _ _ (si_ctx _ (live_inv _ Hc)) Hi) as Hctx.
  all: try by inversion Hctx.
  all: apply inevitable_step; [done|by rewrite Hpc|]; intros c1 m' s' Hl1 Hf Hm Hl2.
  all: unfold coro_master, run_worker in Hm; rewrite (fr_pc _ _ Hf), Hpc, (fr_workers _ _ Hf), Hi in Hm.
  3: destruct (f (shared c1)) as [[s1 k]|] eqn:Ef; [|done].
  all: injection Hm as <- <-; (apply (comes_on _ _ c1); [done|cbn..]).
  all: try done.
  all: rewrite ?length_insert; try done; try (by eexists).
  3: { apply (IH _ _ _ Ef); [done|cbn; by rewrite (fr_pc _ _ Hf)|]. cbn. apply list_lookup_insert_eq.
       rewrite (fr_workers _ _ Hf). by eapply lookup_lt_Some. }
  all: apply comes_now; [done|]; cbn; by rewrite ?bool_decide_true, ?orb_true_r by done.
Qed.

Definition at_loop (pc : mpc) : bool := match pc with MTest | MPoll | MBusy => true | _ => false end.

(** It is one of the coroutines. *)
Lemma running_worker c i back : live c → at_pc (here c) = MIn i back → ∃ k, workers (here c) !! i = Some k.
Proof.
  intros Hc Hpc. destruct (places_id (here c) (Z.of_nat i) (live_inv _ Hc)) as (j & k & Ej & Hk).
  { unfold places. rewrite Hpc. by left. }
  exists k. by replace i with j by lia.
Qed.

(** The coroutines are started, and the master comes to its loop. *)
Lemma start_phase i c : live c → at_pc (here c) = MStart i → inevitable (comes_to at_loop c) c.
Proof.
  revert i c. assert (∀ n i c, (length (workers (here c)) - i <= n)%nat → live c → at_pc (here c) = MStart i →
    inevitable (comes_to at_loop c) c); [|by eauto].
  induction n as [|n IH]; intros i c En Hc Hpc; (apply inevitable_step; [done|by rewrite Hpc|]); intros c1 m' s' Hl1 Hf Hm Hl2;
    unfold coro_master in Hm; rewrite (fr_pc _ _ Hf), Hpc, (fr_workers _ _ Hf) in Hm.
  all: destruct (decide _) as [Hlt|Hge]; injection Hm as <- <-; [try lia|apply (comes_on _ _ c1); [done..|by apply comes_now]].
  destruct (running_worker _ i (MStart (Datatypes.S i)) Hl2 eq_refl) as [k Hk]. apply (comes_on _ _ c1); [done..|].
  eapply inevitable_trans; [by eapply run_phase|]. intros c2 Ht. pose proof Ht as [Hl [Hst|Hp%bool_decide_eq_true] Hb Hq Hn].
  { apply inev_now. split; auto. }
  eapply inevitable_trans; [eapply (IH (Datatypes.S i)); [|done..]|].
  { rewrite Hn. cbn. rewrite (fr_workers _ _ Hf). lia. }
  intros c3 H3. apply inev_now. by eapply comes_to_trans.
Qed.

(** Anywhere, the master comes back to its loop. *)
Lemma loop_phase c : live c → inevitable (comes_to at_loop c) c.
Proof.
  intros Hc. destruct (at_pc (here c)) as [i| | | |i back| |] eqn:Hpc;
    try (apply comes_now; [done|by rewrite Hpc]); [by eapply start_phase|].
  destruct (running_worker _ _ _ Hc Hpc) as [k Hk].
  eapply inevitable_trans; [by eapply run_phase|]. intros c2 Ht. pose proof Ht as [Hl [Hst|Hp%bool_decide_eq_true] Hb Hq Hn].
  { apply inev_now. split; auto. }
  pose proof (si_pc _ (live_inv _ Hc)) as Hok. rewrite Hpc in Hok.
  eapply inevitable_trans with (comes_to at_loop c2); [|intros c3 H3; apply inev_now; by eapply comes_to_trans].
  destruct back; try done; [by eapply start_phase|..]; apply comes_now; try done; by rewrite Hp.
Qed.

(** From one statement of the loop to the next. *)
Lemma after_yield i back c :
  live c → at_pc (here c) = MIn i back → inevitable (comes_to (λ pc, bool_decide (pc = back)) c) c.
Proof. intros Hc Hpc. destruct (running_worker _ _ _ Hc Hpc) as [k Hk]. by eapply run_phase. Qed.

Lemma test_phase c : live c → at_pc (here c) = MTest → inevitable (comes_to (λ pc, bool_decide (pc = MPoll)) c) c.
Proof.
  intros Hc Hpc. apply inevitable_step; [done|by rewrite Hpc|]. intros c1 m' s' Hl1 Hf Hm Hl2.
  unfold coro_master in Hm. rewrite (fr_pc _ _ Hf), Hpc in Hm.
  destruct (need_stop (shared c1)); injection Hm as <- <-; (apply (comes_on _ _ c1); [done..|]); by apply comes_now.
Qed.

(** What the poll does. *)
Lemma poll_step c m' s' :
  live c → at_pc (here c) = MPoll → coro_master need_stop (shared c) (here c) = Some (s', m') →
  cq m' = tail (cq (here c)) ∧ busy_waiting_queue m' = busy_waiting_queue (here c) ∧ workers m' = workers (here c) ∧
  at_pc m' = match cq (here c) with [] => MBusy | w :: _ => MIn (Z.to_nat (wc_wr_id w)) MBusy end.
Proof.
  intros Hc Hpc Hm. unfold coro_master in Hm. rewrite Hpc in Hm. pose proof (si_cq _ (live_inv _ Hc)) as Hq.
  destruct (cq (here c)) as [|w q].
  - rewrite poll_once_empty in Hm. by injection Hm as <- <-.
  - apply Forall_cons in Hq as [Hw _]. rewrite poll_once_cons in Hm by done. by injection Hm as <- <-.
Qed.

(** What the check of the busy-waiting queue does. *)
Lemma queue_step c m' s' x q :
  at_pc (here c) = MBusy → busy_waiting_queue (here c) = x :: q →
  coro_master need_stop (shared c) (here c) = Some (s', m') →
  q `prefix_of` busy_waiting_queue m' ∧ cq m' = cq (here c).
Proof.
  intros Hpc Hb Hm. unfold coro_master in Hm. rewrite Hpc, Hb in Hm.
  destruct (x.2 (shared c)); injection Hm as <- <-; cbn; [done|split; [by eexists|done]].
Qed.

(** ** Nothing is forgotten *)

Definition tested (x : Z * (S → bool)) c : Prop :=
  stopped (at_pc (here c)) = true ∨ at_pc (here c) = MBusy ∧ head (busy_waiting_queue (here c)) = Some x.

Definition resumed (id : Z) c : Prop :=
  stopped (at_pc (here c)) = true ∨ ∃ i, Z.of_nat i = id ∧ at_pc (here c) = MIn i MBusy.

Lemma poll_phase c : live c → at_pc (here c) = MPoll →
  inevitable (λ c', live c' ∧ (stopped (at_pc (here c')) = true ∨ at_pc (here c') = MBusy) ∧
                    busy_waiting_queue (here c) `prefix_of` busy_waiting_queue (here c')) c.
Proof.
  intros Hc Hpc. apply inevitable_step; [done|by rewrite Hpc|]. intros c1 m' s' Hl1 Hf Hm Hl2.
  destruct (poll_step c1 m' s') as (_ & Hb & _ & Hpc'); [done|by rewrite (fr_pc _ _ Hf)|done|].
  rewrite (fr_busy _ _ Hf) in Hb. rewrite <- Hb. destruct (cq (here c1)) as [|w q].
  - apply inev_now. split_and!; [done|by right|done].
  - eapply inevitable_trans; [by eapply after_yield|]. intros c2 [Hl2' Hst Hb2 _ _]. apply inev_now.
    split_and!; [done| |done]. destruct Hst as [?|H%bool_decide_eq_true]; auto.
Qed.

Lemma busy_phase c : live c → at_pc (here c) = MBusy →
  inevitable (λ c', live c' ∧ (stopped (at_pc (here c')) = true ∨ at_pc (here c') = MTest) ∧
                    cq (here c) `prefix_of` cq (here c')) c.
Proof.
  intros Hc Hpc. apply inevitable_step; [done|by rewrite Hpc|]. intros c1 m' s' Hl1 Hf Hm Hl2.
  pose proof (fr_cq _ _ Hf) as Hq. unfold coro_master in Hm. rewrite (fr_pc _ _ Hf), Hpc in Hm.
  destruct (busy_waiting_queue (here c1)) as [|x q]; [|destruct (x.2 (shared c1))]; injection Hm as <- <-.
  1,3: apply inev_now; split_and!; [done|by right|done].
  eapply inevitable_trans; [by eapply after_yield|]. intros c2 [Hl2' Hst _ Hq2 _]. apply inev_now.
  split_and!; [done| |by etrans]. destruct Hst as [?|H%bool_decide_eq_true]; auto.
Qed.

Lemma queue_reached x (b : list (Z * (S → bool))) :
  (∀ c, live c → at_pc (here c) = MBusy → b `prefix_of` busy_waiting_queue (here c) → inevitable (tested x) c) →
  ∀ c, live c → b `prefix_of` busy_waiting_queue (here c) → inevitable (tested x) c.
Proof.
  intros Hbusy. assert (Hpoll : ∀ c, live c → at_pc (here c) = MPoll → b `prefix_of` busy_waiting_queue (here c) → inevitable (tested x) c).
  { intros c Hc Hpc Hb. eapply inevitable_trans; [by apply poll_phase|]. intros c' (Hl & [Hst|Hpc'] & Hb').
    - apply inev_now. by left.
    - apply Hbusy; [done..|]. by etrans. }
  intros c Hc Hb. eapply inevitable_trans; [by apply loop_phase|]. intros c1 [Hl [Hst|Hpc] Hb1 _ _]; [apply inev_now; by left|].
  assert (b `prefix_of` busy_waiting_queue (here c1)) as Hb1' by (by etrans).
  destruct (at_pc (here c1)) eqn:E; try done; [|by apply Hpoll|by apply Hbusy].
  eapply inevitable_trans; [by apply test_phase|]. intros c2 [Hl2 [Hst|Hpc2%bool_decide_eq_true] Hb2 _ _]; [apply inev_now; by left|].
  apply Hpoll; [done..|]. by etrans.
Qed.

Lemma queue_served pre x c : live c → pre ++ [x] `prefix_of` busy_waiting_queue (here c) → inevitable (tested x) c.
Proof.
  revert c. induction pre as [|y pre IH]; apply queue_reached; intros c Hc Hpc [q Eq].
  - apply inev_now. right. by rewrite Eq.
  - apply inevitable_step; [done|by rewrite Hpc|]. intros c2 m' s' Hl2 Hf Hm Hl3. apply IH; [done|].
    destruct (queue_step c2 m' s' y ((pre ++ [x]) ++ q)) as [Hq _]; [by rewrite (fr_pc _ _ Hf)| |done|].
    { by rewrite (fr_busy _ _ Hf), Eq. }
    cbn. etrans; [|done]. by eexists.
Qed.

Lemma cq_reached id (b : list ibv_wc) :
  (∀ c, live c → at_pc (here c) = MPoll → b `prefix_of` cq (here c) → inevitable (resumed id) c) →
  ∀ c, live c → b `prefix_of` cq (here c) → inevitable (resumed id) c.
Proof.
  intros Hpoll. assert (Htest : ∀ c, live c → at_pc (here c) = MTest → b `prefix_of` cq (here c) → inevitable (resumed id) c).
  { intros c Hc Hpc Hb. eapply inevitable_trans; [by apply test_phase|].
    intros c2 [Hl2 [Hst|Hpc2%bool_decide_eq_true] _ Hq2 _]; [apply inev_now; by left|]. apply Hpoll; [done..|]. by etrans. }
  intros c Hc Hb. eapply inevitable_trans; [by apply loop_phase|]. intros c1 [Hl [Hst|Hpc] _ Hq1 _]; [apply inev_now; by left|].
  assert (b `prefix_of` cq (here c1)) as Hb1 by (by etrans).
  destruct (at_pc (here c1)) eqn:E; try done; [by apply Htest|by apply Hpoll|].
  eapply inevitable_trans; [by apply busy_phase|]. intros c2 (Hl2 & [Hst|Hpc2] & Hq2); [apply inev_now; by left|].
  apply Htest; [done..|]. by etrans.
Qed.

Lemma completion_served pre w c : live c → pre ++ [w] `prefix_of` cq (here c) → inevitable (resumed (wc_wr_id w)) c.
Proof.
  revert c. induction pre as [|y pre IH]; apply cq_reached; intros c Hc Hpc [q Eq].
  all: apply inevitable_step; [done|by rewrite Hpc|]; intros c2 m' s' Hl2 Hf Hm Hl3.
  all: destruct (poll_step c2 m' s') as (Hq & _ & Hw & Hpc'); [done|by rewrite (fr_pc _ _ Hf)|done|].
  all: assert (cq (here c) `prefix_of` cq (here c2)) as [q' Eq'] by apply Hf.
  all: rewrite Eq', Eq in Hq, Hpc'; cbn in Hq, Hpc'.
  - apply inev_now. right. exists (Z.to_nat (wc_wr_id w)). split; [|done].
    destruct (running_worker _ _ _ Hl3 Hpc') as [k Hk].
    destruct (places_id (here c2) (wc_wr_id w) (live_inv _ Hl2)) as (i & ? & -> & _); [|by rewrite Nat2Z.id].
    unfold places. rewrite !elem_of_app, Eq', Eq. right; right; left. by left.
  - apply IH; [done|]. cbn. rewrite Hq, <- app_assoc. by eexists.
Qed.
End live.

(** ** A verb without its context *)
Section forgotten.
Context {S A : Type} (need_stop : S → bool).
Implicit Types (c : config S A) (m : sched S A) (k : coro S A).

(** The coroutine [i] is suspended and nobody will resume it. *)
Record forgotten (i : nat) k m : Prop := {
  fg_pc : pc_ok (at_pc m) = true;
  fg_suspended : workers m !! i = Some k;
  fg_nowhere : Z.of_nat i ∉ places m }.

(** The coroutines that the master is about to start or that run. *)
Definition active m : list nat := running (at_pc m) ++ starting (length (workers m)) (at_pc m).

Lemma nowhere_alt i m :
  (Z.of_nat i ∉ places m) ↔
  (i ∉ active m) ∧ (Z.of_nat i ∉ landed m) ∧ (Z.of_nat i ∉ wc_wr_id <$> cq m) ∧ (Z.of_nat i ∉ (posted m).*1) ∧
  (Z.of_nat i ∉ (busy_waiting_queue m).*1).
Proof.
  unfold places. rewrite waits_fst, !not_elem_of_app.
  enough (Z.of_nat i ∉ (Z.of_nat <$> active m) ↔ i ∉ active m) as -> by (unfold active; tauto).
  split; intros H Hin; apply H; [by apply list_elem_of_fmap_2|].
  apply list_elem_of_fmap in Hin as (j & Ej & Hj). by replace i with j by lia.
Qed.

Lemma forgotten_intro i k m m' :
  forgotten i k m → pc_ok (at_pc m') = true → workers m' !! i = Some k →
  i ∉ active m' → Z.of_nat i ∉ landed m' → Z.of_nat i ∉ (wc_wr_id <$> cq m') → Z.of_nat i ∉ (posted m').*1 →
  Z.of_nat i ∉ (busy_waiting_queue m').*1 → forgotten i k m'.
Proof. intros _ Hok Hk H1 H2 H3 H4 H5. split; [done..|]. by apply nowhere_alt. Qed.

Lemma not_elem_of_snoc {B} (x y : B) l : x ∉ l → x ≠ y → x ∉ l ++ [y].
Proof. rewrite not_elem_of_app, list_elem_of_singleton. auto. Qed.

Lemma forgotten_go i k m pc :
  forgotten i k m → pc_ok pc = true → (∀ j, j ∈ running pc ++ starting (length (workers m)) pc → j ≠ i) →
  forgotten i k (go pc m).
Proof.
  intros [Hok Hk Hno] Hpc Ha. apply nowhere_alt in Hno as (? & ? & ? & ? & ?).
  split; [done..|]. apply nowhere_alt. split_and!; try done. intros Hi. by apply (Ha i).
Qed.

Lemma forgotten_run i k s m s' m' j back :
  (0 < i)%nat → forgotten i k m → at_pc m = MIn j back → run_worker j back s m = Some (s', m') → forgotten i k m'.
Proof.
  intros Hi Hm Hpc H. pose proof Hm as [Hok Hk Hno]. apply nowhere_alt in Hno as (Ha & Hl & Hq & Hp & Hb).
  unfold active in Ha. rewrite Hpc in Ha, Hok. cbn in Ha. apply not_elem_of_cons in Ha as [Hij Ha].
  assert (Hstop : ∀ pc, stopped pc = true → forgotten i k (go pc m)).
  { intros pc Hst. apply forgotten_go; [done|by destruct pc|]. intros j'. destruct pc; try done; cbn; by rewrite elem_of_nil. }
  assert (Hback : pc_ok back = true ∧ ∀ n, running back ++ starting n back = starting n (MIn j back)) by (by destruct back).
  destruct Hback as [Hbok Hrb].
  unfold run_worker in H. destruct (workers m !! j) as [[x|e|f|f k'|check k'|f k'|k']|] eqn:Ej;
    [| |destruct (f s) as [[s1 k']|] eqn:Ef; [|done]| | | | |]; simplify_eq; try (by apply Hstop).
  5: destruct (cq m) as [|w q] eqn:Eq; simplify_eq; [done|].
  all: assert (Hki : <[j := k']> (workers m) !! i = Some k) by (rewrite list_lookup_insert_ne by congruence; done).
  all: apply (forgotten_intro i k m); cbn; try done; unfold active; cbn; rewrite ?length_insert, ?Hrb, ?Hpc; try done.
  all: rewrite ?fmap_app; try (apply not_elem_of_snoc; cbn; (done || lia)).
  all: try (cbn; apply not_elem_of_cons; by split).
  cbn in Hq. by apply not_elem_of_cons in Hq as [_ Hq].
Qed.

Lemma forgotten_master i k s m s' m' :
  (0 < i)%nat → forgotten i k m → coro_master need_stop s m = Some (s', m') → forgotten i k m'.
Proof.
  intros Hi Hm H. pose proof Hm as [Hok Hk Hno]. apply nowhere_alt in Hno as (Ha & Hl & Hq & Hp & Hb).
  assert (Hyield : ∀ id, id ≠ Z.of_nat i → Z.to_nat id ≠ i) by lia.
  unfold active in Ha. unfold coro_master in H. destruct (at_pc m) as [j| | | |j back| |] eqn:Hpc; [..|done|done].
  - destruct (decide _); simplify_eq; (apply forgotten_go; [done..|]); cbn; intros j' Hj' ->; apply Ha; cbn; [|by apply elem_of_nil in Hj'].
    apply elem_of_seq. apply elem_of_cons in Hj' as [->|Hj'%elem_of_seq]; lia.
  - destruct (need_stop s); simplify_eq; (apply forgotten_go; [done..|]); cbn; intros j'; by rewrite elem_of_nil.
  - assert (Hstay : forgotten i k (go MBusy (set_cq (tail (cq m)) m))).
    { apply (forgotten_intro i k m); try done; cbn. intros Hin. apply Hq.
      destruct (cq m); [done|]. by right. }
    destruct (poll_rdma_cq_once _) as [[[] [id|]]|e] eqn:E; simplify_eq; try done.
    + apply (forgotten_go _ _ _ (MIn (Z.to_nat id) MBusy)) in Hstay; [done|done|]. intros j. cbn.
      rewrite list_elem_of_singleton. intros ->. apply Hyield. intros ->. apply Hq.
      destruct (cq m) as [|w q]; [done|]. unfold poll_rdma_cq_once in E. cbn in E. destruct (status_ok w); cbn in E; simplify_eq.
      rewrite <- E. by left.
    + apply forgotten_go; [done..|]. intros j. by rewrite elem_of_nil.
  - destruct (busy_waiting_queue m) as [|[id check] q] eqn:Eb; simplify_eq.
    { apply forgotten_go; [done..|]. intros j. by rewrite elem_of_nil. }
    cbn in Hb. apply not_elem_of_cons in Hb as [Hid Hb]. cbn [fst snd] in *.
    destruct (check s); simplify_eq; (apply (forgotten_intro i k m); try done); cbn.
    + apply not_elem_of_cons. split; [|apply not_elem_of_nil]. by apply not_eq_sym, Hyield.
    + rewrite fmap_app. by apply not_elem_of_snoc.
  - by eapply forgotten_run.
Qed.

Lemma forgotten_steps i k ls c c' :
  (0 < i)%nat → forgotten i k (here c) → steps need_stop ls c = Some c' → forgotten i k (here c').
Proof.
  intros Hi. revert c. induction ls as [|l ls IH]; intros c Hc; cbn; [by intros [= <-]|].
  destruct (step need_stop l c) as [c1|] eqn:E; [|done]. apply IH. clear IH. destruct c as [m os s]. cbn [here] in *.
  unfold step in E. cbn [here others shared] in E. destruct l as [|j|j|j].
  - destruct (coro_master need_stop s m) as [[s1 m1]|] eqn:Em; simplify_eq. by eapply forgotten_master.
  - pose proof (fg_nowhere _ _ _ Hc) as (Ha & Hl & Hq & Hp & Hb)%nowhere_alt.
    unfold nic_land in E. destruct (posted m !! j) as [[id f]|] eqn:Ej; simplify_eq.
    apply (forgotten_intro i k m); try done; cbn; [apply Hc|apply Hc| |].
    + apply not_elem_of_snoc; [done|]. intros <-. apply Hp. apply list_elem_of_fmap. exists (Z.of_nat i, f). split; [done|].
      by eapply list_elem_of_lookup_2.
    + intros Hin. apply Hp. rewrite (delete_Permutation _ _ _ Ej). by right.
  - pose proof (fg_nowhere _ _ _ Hc) as (Ha & Hl & Hq & Hp & Hb)%nowhere_alt.
    unfold nic_complete in E. destruct (landed m !! j) as [id|] eqn:Ej; simplify_eq.
    apply (forgotten_intro i k m); try done; cbn; [apply Hc|apply Hc| |].
    + intros Hin. apply Hl. rewrite (delete_Permutation _ _ _ Ej). by right.
    + rewrite fmap_app. apply not_elem_of_snoc; [done|]. cbn. intros Eid. apply Hl. rewrite Eid. by eapply list_elem_of_lookup_2.
  - destruct (schedule [j] os s) as [[os1 s1]|]; [|done]. by simplify_eq.
Qed.
End forgotten.

(** ** The two theorems *)

Lemma steps_live {S A} (need_stop : S → bool) ls (c c' : config S A) :
  live c → steps need_stop ls c = Some c' → live c'.
Proof.
  revert c. induction ls as [|l ls IH]; intros c Hc; cbn; [by intros [= <-]|].
  destruct (step need_stop l c) as [c1|] eqn:E; [|done]. apply IH. by eapply step_live.
Qed.

(** C16. No coroutine is forgotten: when coroutines use verbs with a context and
    take no mutex, then at any moment, and whatever the network card and the
    other threads do from then on between the steps of the thread, the thread is
    never stuck; a completion that lies in the completion queue resumes its
    coroutine, and a condition in the busy-waiting queue is tested, after
    finitely many steps, unless the thread stops. *)
Theorem coroutines_not_forgotten {S A} (need_stop : S → bool) (ws : list (coro S A)) (os : list (proc S A))
    (s : S) (ls : list label) (c : config S A)
    (Hctx : Forall with_ctx ws) (Htotal : Forall total ws)
    (Hrun : steps need_stop ls (Config (master_called ws) os s) = Some c) :
  (∀ w, w ∈ cq (here c) → inevitable need_stop (resumed (wc_wr_id w)) c) ∧
  (∀ x, x ∈ busy_waiting_queue (here c) → inevitable need_stop (tested x) c).
Proof.
  assert (Hc : live c) by (eapply steps_live; [|done]; split; [by apply master_called_inv|done]).
  split; intros w (l1 & l2 & E)%list_elem_of_split; [apply (completion_served need_stop l1)|apply (queue_served need_stop l1)];
    try done; exists l2; by rewrite E, <- app_assoc.
Qed.

(** A worker that waits for a request, and one that waits for its effect. *)
Definition ex_workers : list (coro Z unit) := [verb_ctx (Z.add 1); CQueue (λ n, 0 <? n) (CRet tt)].
Definition ex_labels : list label := replicate 5 LMaster ++ [LLand 0; LComplete 0].
Definition ex_config : config Z unit :=
  Config (Sched MTest [CRet tt; CRet tt] [] [] [Wc true 0] [(1, λ n, 0 <? n)]) [] 1.

Lemma coroutines_not_forgotten_witness :
  Forall with_ctx ex_workers ∧ Forall total ex_workers ∧
  steps (λ _, false) ex_labels (Config (master_called ex_workers) [] 0) = Some ex_config ∧
  inevitable (λ _, false) (resumed 0) ex_config ∧ inevitable (λ _, false) (tested (1, λ n, 0 <? n)) ex_config.
Proof.
  assert (H1 : Forall with_ctx ex_workers) by (repeat constructor).
  assert (H2 : Forall total ex_workers) by (repeat constructor).
  assert (H3 : steps (λ _, false) ex_labels (Config (master_called ex_workers) [] 0) = Some ex_config) by reflexivity.
  destruct (coroutines_not_forgotten _ _ _ _ _ _ H1 H2 H3) as [Hq Hb].
  split_and!; [done..|apply (Hq (Wc true 0))|apply (Hb (1, λ n, 0 <? n))]; cbn; by left.
Defined.

(** C33. A verb without a context takes the completion of another coroutine. A
    coroutine that, after a request of its own, calls such a verb (as
    [range_query] does, which has no context) while the completion of the
    coroutine 1 is next in the queue, goes on although its request has not been
    executed; and from then on nothing that the thread, the network card or
    the other threads do ever resumes the coroutine 1. *)
Theorem completion_stolen {S A} (need_stop : S → bool) (f0 f1 g : S → S) (k0 k1 : coro S A) (os : list (proc S A)) (s : S)
    (Hgo : need_stop s = false) :
  ∃ ls c, steps need_stop ls (Config (master_called [verb_ctx f0 ;; verb_sync g ;; k0; verb_ctx f1 ;; k1]) os s) = Some c ∧
    workers (here c) = [k0; k1] ∧ at_pc (here c) = MIn 0 MBusy ∧
    posted (here c) = [(0, g)] ∧ shared c = f1 (f0 s) ∧
    ∀ ls' c', steps need_stop ls' c = Some c' → workers (here c') !! 1%nat = Some k1.
Proof.
  exists (replicate 6 LMaster ++ [LLand 0; LLand 0; LComplete 0; LComplete 0; LMaster; LMaster; LMaster]).
  exists (Config (Sched (MIn 0 MBusy) [k0; k1] [(0, g)] [] [] []) os (f1 (f0 s))).
  split_and!; try done.
  - assert (E : step need_stop LMaster (Config (Sched MTest [verb_sync g ;; k0; k1] [(0, f0); (1, f1)] [] [] []) os s)
                = Some (Config (Sched MPoll [verb_sync g ;; k0; k1] [(0, f0); (1, f1)] [] [] []) os s)).
    { unfold step, coro_master. cbn [here at_pc others shared]. by rewrite Hgo. }
    change (match step need_stop LMaster (Config (Sched MTest [verb_sync g ;; k0; k1] [(0, f0); (1, f1)] [] [] []) os s) with
            | Some c => steps need_stop [LLand 0; LLand 0; LComplete 0; LComplete 0; LMaster; LMaster; LMaster] c
            | None => None end = Some (Config (Sched (MIn 0 MBusy) [k0; k1] [(0, g)] [] [] []) os (f1 (f0 s)))).
    by rewrite E.
  - intros ls' c' H. eapply fg_suspended, (forgotten_steps need_stop 1 k1); [lia| |exact H]. split; [done..|].
    unfold places. cbn. rewrite !not_elem_of_cons. split_and!; [done|done|apply not_elem_of_nil].
Qed.

(** The coroutine 1 is a search that would return what it read. *)
Lemma completion_stolen_witness :
  (λ _ : Z, false) 0 = false ∧
  ∃ ls c, steps (λ _, false) ls (Config (master_called [verb_ctx id ;; verb_sync (Z.mul 2) ;; CRet 0; verb_ctx (Z.add 1) ;; CRet 7]) [] 3) = Some c ∧
    workers (here c) = [CRet 0; CRet 7] ∧ at_pc (here c) = MIn 0 MBusy ∧ posted (here c) = [(0, Z.mul 2)] ∧ shared c = 4 ∧
    ∀ ls' c', steps (λ _, false) ls' c = Some c' → workers (here c') !! 1%nat = Some (CRet 7).
Proof. split; [done|]. by apply (completion_stolen (λ _, false) id (Z.add 1) (Z.mul 2) (CRet 0) (CRet 7) [] 3). Defined.
