(* ===== verification/CoroLocks.v ===== *)
(** * Local locks in coroutines (include/LocalLockTable.h)

    The functions of [LockTable] as coroutines call them: where a thread spins
    for its ticket, a coroutine pushes the condition on the busy-waiting queue
    and yields. [Implements c p]: the coroutine [c] can stand for the process
    [p] in any program. *)

From Stdlib Require Import ZArith Lia Bool Ascii String.
From stdpp Require Import base tactics decidable option numbers list relations gmap.
From S2P Require Import Prelude Common Keys Address Process Verbs Dsm LockTable Coro CoroLaws CoroLive.

Class Implements {S A} (c : coro S A) (p : proc S A) : Prop :=
  implements : ∀ B (k : A → coro S B) (k' : A → proc S B),
    (∀ a, refines (proc_of (k a)) (k' a)) → refines (proc_of (c ≫= k)) (p ≫= k').

(** ** The functions *)

(** The bound of rounds is [n]. *)
Definition coro_acquire_local_read_lock (n : nat) (k : Key) : coro LocalLockNode (bool * bool) :=
  t ← plain (read_ticket_for k);
  match t with
  | None => mret (false, true)
  | Some ticket => coro_wait n (λ nd, ticket =? read_current nd) ;; plain (read_served k)
  end.

Definition coro_acquire_local_write_lock (n : nat) (k : Key) (v : Z) : coro LocalLockNode (bool * bool) :=
  t ← plain (write_ticket_for k v);
  match t with
  | None => mret (false, true)
  | Some ticket => coro_wait n (λ nd, ticket =? write_current nd) ;; plain (write_served k)
  end.

Definition coro_acquire_local_lock (n : nat) (addr : GlobalAddress) : coro LocalLockNode bool :=
  ticket ← plain (fetch_inc write_ticket set_write_ticket);
  coro_wait n (λ nd, ticket =? write_current nd) ;; plain (addr_served write_handover addr).

Definition coro_acquire_local_lock_key (n : nat) (k : Key) : coro LocalLockNode bool :=
  ticket ← plain (fetch_inc write_ticket set_write_ticket);
  coro_wait n (λ nd, ticket =? write_current nd) ;; plain (key_served k).

Definition coro_acquire_local_write_lock_addr (n : nat) (addr : GlobalAddress) (v : Z) : coro LocalLockNode bool :=
  ticket ← plain (write_ticket_addr v);
  coro_wait n (λ nd, ticket =? write_current nd) ;; plain (addr_served write_handover addr).

Definition coro_acquire_local_read_lock_addr (n : nat) (addr : GlobalAddress) : coro LocalLockNode bool :=
  ticket ← plain (fetch_inc read_ticket set_read_ticket);
  coro_wait n (λ nd, ticket =? read_current nd) ;; plain (addr_served read_handover addr).

(** ** What implements what *)

(** A step of the coroutine, by the hypothesis on what follows it. *)
Ltac next_step H IH :=
  let g := fresh "g" in let q := fresh "q" in let Hg := fresh in
  destruct H as [[? H]|(g & q & -> & Hg & H)]; [subst; left|right; exists g, q]; split_and!; try done; by eapply IH.

Section implements.
Context {S : Type}.

(** The sequence of two binds, on both sides. *)
Lemma refines_assoc_l {A B C} (c : coro S A) (k1 : A → coro S B) (k : B → coro S C) (q : proc S C) :
  refines (proc_of (c ≫= (λ a, k1 a ≫= k))) q → refines (proc_of ((c ≫= k1) ≫= k)) q.
Proof.
  unfold mbind, coro_bind. revert q. induction c as [x|e|f IH|f c IH|check c IH|f c IH|c IH] using coro_ind'; intros q; cbn; try done.
  - intros H s. specialize (H s). destruct (f s) as [[s' c]|] eqn:E; [|done]. cbn in *. next_step H IH.
  - intros H s. specialize (H s). next_step H IH.
  - intros H s. specialize (H s). destruct (waits_for check s); [|done]. next_step H IH.
  - intros H s. specialize (H s). next_step H IH.
  - apply IH.
Qed.

Lemma refines_assoc_r {A B C} (p : proc S C) (q : proc S A) (k1 : A → proc S B) (k : B → proc S C) :
  refines p (q ≫= (λ a, k1 a ≫= k)) → refines p ((q ≫= k1) ≫= k).
Proof.
  unfold mbind, proc_bind. revert q. induction p as [a|e|f IH] using proc_ind'; intros q; cbn.
  - by destruct q.
  - intros [->|H]; [by left|right]. by destruct q.
  - intros H s. specialize (H s). destruct (f s) as [[s' p']|] eqn:E; [|done].
    destruct H as [[-> H]|(g & q' & Eq & Hg & H)]; [left; split; [done|]; by eapply IH|right].
    destruct q as [a|e|g0]; cbn in *; [by exists g, q'|by exists g, q'|]. injection Eq as <-.
    destruct (g0 s) as [[s1 q1]|] eqn:E0; [|done]. injection Hg as -> <-.
    eexists _, _. split; [done|]. cbn. rewrite E0. split; [done|]. by eapply IH.
Qed.

#[export] Instance implements_ret {A} (a : A) : Implements (S := S) (mret a) (mret a).
Proof. intros B k k' H. apply H. Qed.

#[export] Instance implements_plain {A} (p : proc S A) : Implements (plain p) p.
Proof. intros B k k'. apply refines_plain. Qed.

#[export] Instance implements_wait n (check : S → bool) : Implements (coro_wait n check) (await check).
Proof. intros B k k' H. by apply refines_wait. Qed.

#[export] Instance implements_post (f : S → S) : Implements (verb_ctx f) (atomic (λ s, (tt, f s))).
Proof. intros B k k' H. by apply refines_post. Qed.

#[export] Instance implements_queue (check : S → bool) : Implements (CQueue check (CRet tt)) (await check).
Proof.
  intros B k k' H s. unfold waits_for. destruct (check s) eqn:E; [|done]. right.
  eexists _, _. split; [done|]. cbn. rewrite E. by split.
Qed.

#[export] Instance implements_bind {A B} (c : coro S A) p (k : A → coro S B) k' :
  Implements c p → (∀ a, Implements (k a) (k' a)) → Implements (c ≫= k) (p ≫= k').
Proof.
  intros Hc Hk C k2 k2' H. apply refines_assoc_l, refines_assoc_r, Hc. intros a. by apply Hk.
Qed.

#[export] Instance implements_option {A B} (x : option A) (c0 : coro S B) p0 c1 p1 :
  Implements c0 p0 → (∀ a, Implements (c1 a) (p1 a)) →
  Implements (match x with None => c0 | Some a => c1 a end) (match x with None => p0 | Some a => p1 a end).
Proof. by destruct x. Qed.

#[export] Instance implements_if {B} (b : bool) (c0 : coro S B) p0 c1 p1 :
  Implements c0 p0 → Implements c1 p1 → Implements (if b then c0 else c1) (if b then p0 else p1).
Proof. by destruct b. Qed.

Lemma refines_eta_l {A} (c : coro S A) (q : proc S A) : refines (proc_of (c ≫= CRet)) q → refines (proc_of c) q.
Proof.
  unfold mbind, coro_bind. revert q. induction c as [x|e|f IH|f c IH|check c IH|f c IH|c IH] using coro_ind'; intros q; cbn; try done.
  - intros H s. specialize (H s). destruct (f s) as [[s' c]|] eqn:E; [|done]. cbn in *. next_step H IH.
  - intros H s. specialize (H s). next_step H IH.
  - intros H s. specialize (H s). destruct (waits_for check s); [|done]. next_step H IH.
  - intros H s. specialize (H s). next_step H IH.
  - apply IH.
Qed.

Lemma refines_eta_r {A} (p q : proc S A) : refines p (q ≫= Return) → refines p q.
Proof.
  unfold mbind, proc_bind. revert q. induction p as [a|e|f IH] using proc_ind'; intros q; cbn.
  - by destruct q.
  - intros [->|H]; [by left|right]. by destruct q.
  - intros H s. specialize (H s). destruct (f s) as [[s' p']|] eqn:E; [|done].
    destruct H as [[-> H]|(g & q' & Eq & Hg & H)]; [left; split; [done|]; by eapply IH|right].
    destruct q as [a|e|g0]; [done|done|]. cbn in Eq. injection Eq as <-. exists g0.
    destruct (g0 s) as [[s1 q1]|] eqn:E0; [|done]. injection Hg as -> <-. exists q1. split_and!; [done..|]. by eapply IH.
Qed.

(** A whole coroutine. *)
Lemma implements_refines {A} (c : coro S A) p : Implements c p → refines (proc_of c) p.
Proof.
  intros H. specialize (H A CRet Return (λ a, eq_refl)).
  by apply refines_eta_l, refines_eta_r.
Qed.
End implements.

(** Every function of the lock table. *)
Lemma coro_locks_implement (n : nat) (k : Key) (v : Z) (addr : GlobalAddress) :
  Implements (coro_acquire_local_read_lock n k) (acquire_local_read_lock k) ∧
  Implements (coro_acquire_local_write_lock n k v) (acquire_local_write_lock k v) ∧
  Implements (coro_acquire_local_lock n addr) (acquire_local_lock addr) ∧
  Implements (coro_acquire_local_lock_key n k) (acquire_local_lock_key k) ∧
  Implements (coro_acquire_local_write_lock_addr n addr v) (acquire_local_write_lock_addr addr v) ∧
  Implements (coro_acquire_local_read_lock_addr n addr) (acquire_local_read_lock_addr addr).
Proof. split_and!; unfold acquire_local_read_lock, acquire_local_write_lock, read_wait, write_wait; apply _. Qed.

(** ** A search under read delegation

    [search] of a key whose own result would be [r]: the coroutine takes part
    in the delegation, and reads remote memory, unless it is handed the result
    of another reader. The read changes nothing that the threads share. *)
Definition coro_delegated_search (n : nat) (k : Key) (r : bool * Z) : coro LocalLockNode (bool * Z) :=
  lock_res ← coro_acquire_local_read_lock n k;
  (if (lock_res : bool * bool).1 && negb lock_res.2 then mret tt else verb_ctx (λ nd, nd)) ;;
  plain (release_local_read_lock lock_res r.1 r.2).

Definition delegated_search (k : Key) (r : bool * Z) : np (bool * Z) :=
  lock_res ← acquire_local_read_lock k;
  (if (lock_res : bool * bool).1 && negb lock_res.2 then mret tt else atomic (λ nd, (tt, nd))) ;;
  release_local_read_lock lock_res r.1 r.2.

Lemma delegated_search_implements n k r : refines (proc_of (coro_delegated_search n k r)) (delegated_search k r).
Proof.
  apply implements_refines. unfold coro_delegated_search, delegated_search, acquire_local_read_lock, read_wait. apply _.
Qed.

Lemma delegated_search_ctx n k r : with_ctx (coro_delegated_search n k r).
Proof.
  unfold coro_delegated_search, coro_acquire_local_read_lock, verb_ctx. apply with_ctx_bind.
  - apply with_ctx_bind; [apply with_ctx_plain|]. intros [t|]; [|constructor].
    apply with_ctx_bind; [apply with_ctx_wait|]. intros _. apply with_ctx_plain.
  - intros lock_res. apply with_ctx_bind; [|intros _; apply with_ctx_plain]. destruct (_ && _); repeat constructor.
Qed.

(** What the running coroutine [i] has returned. *)
Definition finished {S A} (i : nat) (r : option (config S A)) : option A :=
  match r with
  | Some c => match at_pc (here c), workers (here c) !! i with
              | MIn j _, Some (CRet a) => if (j =? i)%nat then Some a else None
              | _, _ => None
              end
  | None => None
  end.

Lemma finished_Some {S A} (i : nat) (r : option (config S A)) a :
  finished i r = Some a → ∃ c back, r = Some c ∧ at_pc (here c) = MIn i back ∧ workers (here c) !! i = Some (CRet a).
Proof.
  unfold finished. destruct r as [c|]; [|done]. destruct (at_pc (here c)) as [| | | |j back| |] eqn:E; try done.
  destruct (workers (here c) !! i) as [[]|] eqn:Ew; try done. destruct (Nat.eqb_spec j i) as [->|]; [|done].
  intros [= ->]. by exists c, back.
Qed.

(** Two coroutines search for a key, the first one with a turn for the others
    at its end. The second one waits for the first, and returns what that one
    has read. *)
Definition ex_key : Key := int2key 5.
Definition ex_searches : list (coro LocalLockNode (bool * Z)) :=
  [r ← coro_delegated_search 3 ex_key (true, 42); CQueue (λ _, true) (CRet tt) ;; mret r;
   coro_delegated_search 3 ex_key (false, 7)].
Definition ex_threads : list (np (bool * Z)) :=
  [r ← delegated_search ex_key (true, 42); await (λ _, true) ;; mret r; delegated_search ex_key (false, 7)].
Definition ex_search_labels : list label := replicate 16 LMaster ++ [LLand 0; LComplete 0] ++ replicate 45 LMaster.

Lemma ex_searches_ctx : Forall with_ctx ex_searches.
Proof.
  constructor; [|constructor; [apply delegated_search_ctx|constructor]]. apply with_ctx_bind; [apply delegated_search_ctx|].
  intros r. repeat constructor.
Qed.

Lemma ex_searches_implement : Forall2 (λ k p, refines (proc_of k) p) ex_searches ex_threads.
Proof.
  constructor; [|constructor; [apply delegated_search_implements|constructor]]. apply implements_refines.
  unfold coro_delegated_search, delegated_search, acquire_local_read_lock, read_wait. apply _.
Qed.

Lemma coroutines_refine_threads_witness :
  Forall with_ctx ex_searches ∧ Forall2 (λ k p, refines (proc_of k) p) ex_searches ex_threads ∧
  ∃ c ps', steps (λ _, false) ex_search_labels (Config (master_called ex_searches) [] node_new) = Some c ∧
    rtc pool_step (ex_threads ++ [], node_new) (ps' ++ others c, shared c) ∧ ps' !! 1%nat = Some (Return (true, 42)).
Proof.
  split; [apply ex_searches_ctx|]. split; [apply ex_searches_implement|].
  assert (H : finished 1 (steps (λ _, false) ex_search_labels (Config (master_called ex_searches) [] node_new)) = Some (true, 42))
    by (vm_compute; reflexivity).
  apply finished_Some in H as (c & back & Hrun & Hpc & Hw).
  destruct (coroutines_refine_threads _ _ _ _ _ _ _ ex_searches_ctx ex_searches_implement Hrun) as (ps' & Hs & _ & Hret).
  exists c, ps'. split_and!; [done..|]. destruct (Hret 1%nat back _ Hpc Hw) as [_ Hr]. by apply Hr.
Defined.
