(* ===== verification/LocalCache.v ===== *)
(** * The cache of key/value pairs (include/LocalCache.h)

    A table of small LRU buckets; a key may live in any of three buckets. Each
    operation is its effect when no other thread runs: its bucket locks are
    taken one at a time. [CityHash64WithSeed] and the clock are parameters. *)

From Stdlib Require Import ZArith Lia Bool.
From stdpp Require Import base tactics decidable option numbers list relations.
From S2P Require Import Prelude.
From S2P Require Import Common.
From S2P Require Import Keys.

(** [LocalCache::Node]: the access times, oldest first. *)
Record CNode : Set := CN {
  n_key : Key;
  n_value : Z;
  access_time_deque : list Z
}.

Record LocalCache : Set := LC {
  buckets : list (list CNode);
  bucket_elements : list Z;
  cur_size : Z;
  sum_evict_time : Z;
  sum_migrate_time : Z;
  sum_reject_time : Z;
  local_cache_hit : Z;
  local_cache_miss : Z
}.

Definition window_time_duration : Z := 10.
Definition bucket_elements_limit : Z := 2.
Definition HASH_CANDIDATE_COUNT : Z := 3.
Definition MIGRATION_THRESHOLD : Z := 2.

(** The expiry loop: the difference of times is compared as an unsigned number. *)
Fixpoint drop_expired (now : Z) (q : list Z) : list Z :=
  match q with
  | t :: q' => if window_time_duration <? wrap 64 (now - t) then drop_expired now q' else q
  | [] => []
  end.

Definition update_access_time (now : Z) (n : CNode) : CNode :=
  CN (n_key n) (n_value n) (drop_expired now (access_time_deque n) ++ [now]).

(** [get_access_count], and the node it leaves. *)
Definition get_access_count (now : Z) (n : CNode) : Z * CNode :=
  let q := drop_expired now (access_time_deque n) in
  (Z.of_nat (length q), CN (n_key n) (n_value n) q).

Definition _should_migrate (now : Z) (n : CNode) : bool := MIGRATION_THRESHOLD <? (get_access_count now n).1.

(** The first node of a bucket with the key, and the other nodes in order. *)
Fixpoint find_key (k : Key) (b : list CNode) : option (CNode * list CNode) :=
  match b with
  | [] => None
  | n :: b => if key_eqb (n_key n) k then Some (n, b)
              else match find_key k b with Some (m, b') => Some (m, n :: b') | None => None end
  end.

(** What an insertion did. *)
Inductive insert_outcome : Set :=
  | Updated
  | Rejected
  | Inserted
  | Evicted (n : CNode) (migrate : bool).

Section cache.
Context (capacity : Z) (CityHash64WithSeed : Key → Z → Z).

(** [LocalCache(cache_size_mb, tree)] *)
Definition cache_new : LocalCache :=
  LC (replicate (Z.to_nat capacity) []) (replicate (Z.to_nat capacity) 0) 0 0 0 0 0 0.

Definition _get_hashcode (k : Key) (salt : Z) : Z :=
  CityHash64WithSeed k (wrap 64 salt) `mod` capacity.

(** [i * 0x9e3779b9] is unsigned, and passed as an [int]. *)
Definition _get_candidate_buckets (k : Key) : list Z :=
  map (λ i, _get_hashcode k (sint 32 (i * 0x9e3779b9))) (seqZ 0 HASH_CANDIDATE_COUNT).

(** The least loaded candidate; [index] has no value before one is found. *)
Fixpoint least_loaded (elements : list Z) (candidates : list Z) (min_load : Z) (index : option Z) : res (option Z) :=
  match candidates with
  | [] => Ok index
  | idx :: candidates =>
    e ← idx_ elements idx;
    if e <? min_load then least_loaded elements candidates e (Some idx)
    else least_loaded elements candidates min_load index
  end.

Definition insert (now : Z) (k : Key) (v : Z) : M LocalCache insert_outcome := λ c,
  index ← least_loaded (bucket_elements c) (_get_candidate_buckets k) (bucket_elements_limit + 1) None;
  match index with
  | None => Fail EUndef
  | Some index =>
    bucket ← idx_ (buckets c) index;
    e ← idx_ (bucket_elements c) index;
    let put b e size ev mig rej :=
      LC (<[Z.to_nat index := b]> (buckets c)) (<[Z.to_nat index := e]> (bucket_elements c)) size ev mig rej
         (local_cache_hit c) (local_cache_miss c) in
    match find_key k bucket with
    | Some (n, rest) =>
      Ok (Updated, put (update_access_time now (CN (n_key n) v (access_time_deque n)) :: rest) e
                     (cur_size c) (sum_evict_time c) (sum_migrate_time c) (sum_reject_time c))
    | None =>
      if capacity <=? cur_size c then
        Ok (Rejected, put bucket e (cur_size c) (sum_evict_time c) (sum_migrate_time c) (sum_reject_time c + 1))
      else
        let bucket := CN k v [] :: bucket in
        let e := e +[64] 1 in
        let size := cur_size c +[64] 1 in
        if bucket_elements_limit <? e then
          match last bucket with
          | None => Fail EUndef
          | Some evict_node =>
            let m := _should_migrate now evict_node in
            Ok (Evicted evict_node m,
                put (take (length bucket - 1) bucket) (e -[64] 1) (size -[64] 1)
                  (sum_evict_time c + 1) (if m then sum_migrate_time c + 1 else sum_migrate_time c) (sum_reject_time c))
          end
        else Ok (Inserted, put bucket e size (sum_evict_time c) (sum_migrate_time c) (sum_reject_time c))
    end
  end.

(** [query]: the value the returned pointer points to. *)
Fixpoint query_in (now : Z) (k : Key) (candidates : list Z) : M LocalCache (option Z) := λ c,
  match candidates with
  | [] => Ok (None, LC (buckets c) (bucket_elements c) (cur_size c) (sum_evict_time c) (sum_migrate_time c)
                       (sum_reject_time c) (local_cache_hit c) (local_cache_miss c +[64] 1))
  | index :: candidates =>
    bucket ← idx_ (buckets c) index;
    match find_key k bucket with
    | Some (n, rest) =>
      Ok (Some (n_value n),
          LC (<[Z.to_nat index := update_access_time now n :: rest]> (buckets c)) (bucket_elements c) (cur_size c)
             (sum_evict_time c) (sum_migrate_time c) (sum_reject_time c)
             (local_cache_hit c +[64] 1) (local_cache_miss c))
    | None => query_in now k candidates c
    end
  end.
Definition query (now : Z) (k : Key) : M LocalCache (option Z) := query_in now k (_get_candidate_buckets k).

(** [get_local_cache_state]: the largest bucket and the number of buckets in use. *)
Definition get_local_cache_state (c : LocalCache) : Z * Z :=
  foldl (λ '(max_one, used) e, (if max_one <? e then e else max_one, if 0 <? e then used + 1 else used))
    (0, 0) (bucket_elements c).

(** ** Histories *)
(** One operation at time [now]; the second component is the history of
    the pairs given to [insert], latest first. *)
Inductive cache_step : relation (LocalCache * list (Key * Z)) :=
  | step_insert now k v c o c' h :
      insert now k v c = Ok (o, c') → cache_step (c, h) (c', (k, v) :: h)
  | step_query now k c r c' h :
      query now k c = Ok (r, c') → cache_step (c, h) (c', h).

(** ** Well-formed caches *)
Definition bucket_ok (h : list (Key * Z)) (i : Z) (b : list CNode) : Prop :=
  Z.of_nat (length b) <= bucket_elements_limit ∧
  NoDup (map n_key b) ∧
  Forall (λ n, i ∈ _get_candidate_buckets (n_key n) ∧ (n_key n, n_value n) ∈ h) b.

Definition blen (b : list CNode) : Z := Z.of_nat (length b).

Record cache_wf (c : LocalCache) (h : list (Key * Z)) : Prop := {
  wf_length : Z.of_nat (length (buckets c)) = capacity;
  wf_elements : bucket_elements c = map blen (buckets c);
  wf_size : cur_size c = sum_of blen (buckets c);
  wf_capacity : cur_size c <= capacity;
  wf_buckets : ∀ i b, buckets c !! i = Some b → bucket_ok h (Z.of_nat i) b
}.

Context (Hcap : 0 < capacity < 2 ^ 63).

Lemma find_key_Some k b n rest :
  find_key k b = Some (n, rest) → n_key n = k ∧ n :: rest ≡ₚ b.
Proof.
  revert rest. induction b as [|m b IH]; intros rest; cbn; [done|].
  unfold key_eqb. case_bool_decide as E.
  - intros [= -> ->]. done.
  - destruct (find_key k b) as [[m' b']|]; [|done]. intros [= <- <-].
    destruct (IH b' eq_refl) as [? Hp]. split; [done|]. rewrite <- Hp. apply Permutation_swap.
Qed.

Lemma find_key_None k b : find_key k b = None → k ∉ map n_key b.
Proof.
  induction b as [|m b IH]; cbn; [set_solver|]. unfold key_eqb. case_bool_decide as E; [done|].
  destruct (find_key k b) as [[]|]; [done|]. set_solver.
Qed.

Lemma find_key_is_Some k b : k ∈ map n_key b → is_Some (find_key k b).
Proof. intros H. destruct (find_key k b) eqn:E; [done|]. by apply find_key_None in E. Qed.

Lemma bucket_ok_mono h h' i b : h ⊆ h' → bucket_ok h i b → bucket_ok h' i b.
Proof.
  intros Hh (Hl & Hn & Hf). split_and!; [done|done|]. eapply Forall_impl; [apply Hf|].
  intros n [? ?]. set_solver.
Qed.

Lemma bucket_ok_perm h i b b' : b' ≡ₚ b → bucket_ok h i b → bucket_ok h i b'.
Proof.
  intros Hp (Hl & Hn & Hf). unfold bucket_ok. by rewrite Hp.
Qed.

(** Replacing the head of a bucket by a node with the same key. *)
Lemma bucket_ok_head h i n n' b :
  n_key n' = n_key n → (n_key n', n_value n') ∈ h → bucket_ok h i (n :: b) → bucket_ok h i (n' :: b).
Proof.
  intros Hk Hv (Hl & Hn & Hf). unfold bucket_ok. cbn in *. rewrite Hk in *.
  split; [done|]. split; [done|]. apply Forall_cons in Hf as [[? ?] ?]. apply Forall_cons.
  by rewrite Hk.
Qed.

Lemma candidates_range k i : i ∈ _get_candidate_buckets k → 0 <= i < capacity.
Proof.
  unfold _get_candidate_buckets. rewrite list_elem_of_fmap. intros (x & -> & _).
  apply Z.mod_pos_bound. lia.
Qed.

Lemma idx_lookup {A} (l : list A) i x : 0 <= i → l !! Z.to_nat i = Some x → idx_ l i = Ok x.
Proof. intros Hi Hx. apply idx_Ok. done. Qed.

Lemma wf_bucket c h i :
  cache_wf c h → 0 <= i < capacity →
  ∃ b, buckets c !! Z.to_nat i = Some b ∧ idx_ (buckets c) i = Ok b ∧
       idx_ (bucket_elements c) i = Ok (blen b) ∧ bucket_ok h i b.
Proof.
  intros Hw Hi. pose proof (wf_length _ _ Hw) as Hl.
  destruct (lookup_lt_is_Some_2 (buckets c) (Z.to_nat i)) as [b Hb]; [lia|].
  exists b. split; [done|]. split; [apply idx_lookup; [lia|done]|]. split.
  - apply idx_lookup; [lia|]. rewrite (wf_elements _ _ Hw), list_lookup_fmap, Hb. done.
  - pose proof (wf_buckets _ _ Hw _ _ Hb) as H. by rewrite Z2Nat.id in H by lia.
Qed.

(** The least loaded candidate exists, because no bucket is over its limit. *)
Lemma least_loaded_spec c h cs m index :
  cache_wf c h → (∀ i, i ∈ cs → 0 <= i < capacity) →
  (∃ i, index = Some i) ∨ (cs ≠ [] ∧ m = bucket_elements_limit + 1) →
  ∃ i, least_loaded (bucket_elements c) cs m index = Ok (Some i) ∧ (i ∈ cs ∨ index = Some i).
Proof.
  intros Hw. revert m index. induction cs as [|j cs IH]; intros m index Hr Hi; cbn.
  { destruct Hi as [[i ->]|[]]; [|done]. exists i. by auto. }
  destruct (wf_bucket c h j Hw) as (b & _ & _ & He & Hok); [apply Hr; set_solver|]. rewrite He. cbn.
  destruct (blen b <? m) eqn:E.
  - destruct (IH (blen b) (Some j)) as (i & Hl & Hm); [set_solver|eauto|].
    exists i. split; [done|]. left. set_solver.
  - destruct Hi as [[i ->]|[_ ->]].
    + destruct (IH m (Some i)) as (i' & Hl & Hm); [set_solver|eauto|]. exists i'. split; [done|]. set_solver.
    + destruct Hok as [Hok _]. unfold blen in E. apply Z.ltb_ge in E. lia.
Qed.

(** Replacing a bucket. *)
Lemma wf_put c h h' i b b' size ev mig rej hit miss :
  cache_wf c h → h ⊆ h' → buckets c !! Z.to_nat i = Some b → 0 <= i →
  bucket_ok h' i b' → size = cur_size c + blen b' - blen b → size <= capacity →
  cache_wf (LC (<[Z.to_nat i := b']> (buckets c)) (<[Z.to_nat i := blen b']> (bucket_elements c))
               size ev mig rej hit miss) h'.
Proof.
  intros Hw Hh Hb Hi Hok Hs Hc. split; cbn.
  - by rewrite length_insert, (wf_length _ _ Hw).
  - by rewrite (wf_elements _ _ Hw), <- list_fmap_insert.
  - rewrite Hs, (wf_size _ _ Hw). rewrite (sum_of_insert blen _ _ b) by done. lia.
  - done.
  - intros j bj Hj. destruct (decide (j = Z.to_nat i)) as [-> |Hne].
    + rewrite list_lookup_insert_eq in Hj by (by eapply lookup_lt_Some). injection Hj as <-.
      by rewrite Z2Nat.id by lia.
    + rewrite list_lookup_insert_ne in Hj by done. eapply bucket_ok_mono; [done|]. by apply (wf_buckets _ _ Hw).
Qed.

Lemma bucket_evict h i b n :
  last b = Some n → NoDup (map n_key b) →
  Forall (λ n, i ∈ _get_candidate_buckets (n_key n) ∧ (n_key n, n_value n) ∈ h) b →
  Z.of_nat (length b) = bucket_elements_limit + 1 → bucket_ok h i (take (length b - 1) b).
Proof.
  intros Hl Hn Hf Hb. split; [rewrite length_take; unfold bucket_elements_limit in *; lia|]. split.
  - rewrite <- firstn_map. eapply sublist_NoDup; [apply Hn|apply sublist_take].
  - by apply Forall_take.
Qed.

(** [insert] never fails on a well-formed cache. *)
Lemma insert_wf now k v c h :
  cache_wf c h →
  ∃ i b o c', least_loaded (bucket_elements c) (_get_candidate_buckets k) (bucket_elements_limit + 1) None = Ok (Some i) ∧
    buckets c !! Z.to_nat i = Some b ∧ 0 <= i ∧ i ∈ _get_candidate_buckets k ∧
    insert now k v c = Ok (o, c') ∧ cache_wf c' ((k, v) :: h) ∧
    (o ≠ Rejected → ∃ b', buckets c' = <[Z.to_nat i := b']> (buckets c) ∧
                          ∃ n rest, find_key k b' = Some (n, rest) ∧ n_value n = v).
Proof.
  intros Hw.
  destruct (least_loaded_spec c h (_get_candidate_buckets k) (bucket_elements_limit + 1) None Hw) as (i & Hl & Hi);
    [intros; by eapply candidates_range|by right|].
  destruct Hi as [Hi|]; [|done]. pose proof (candidates_range _ _ Hi) as Hr.
  destruct (wf_bucket c h i Hw Hr) as (b & Hb & Hib & Hie & Hok).
  exists i, b. unfold insert. rewrite Hl. cbn [mbind res_bind]. rewrite Hib. cbn [mbind res_bind].
  rewrite Hie. cbn [mbind res_bind].
  pose proof (wf_capacity _ _ Hw) as Hcs.
  assert (0 <= cur_size c) by (rewrite (wf_size _ _ Hw); apply sum_of_nonneg; unfold blen; lia).
  destruct (find_key k b) as [[n rest]|] eqn:Hf.
  { destruct (find_key_Some _ _ _ _ Hf) as [Hk Hp]. do 2 eexists. do 4 (split; [done || lia|]).
    split; [done|]. split.
    - replace (blen b) with (blen (update_access_time now (CN (n_key n) v (access_time_deque n)) :: rest))
        by (unfold blen; cbn; by rewrite <- (Permutation_length Hp)).
      eapply wf_put; [done|set_solver|done|lia| | |done].
      + eapply (bucket_ok_head _ _ n); [done|cbn; rewrite Hk; set_solver|].
        eapply bucket_ok_perm; [done|]. eapply bucket_ok_mono; [|done]. set_solver.
      + unfold blen. rewrite <- (Permutation_length Hp). cbn. lia.
    - intros _. eexists. split; [done|]. cbn. unfold key_eqb. rewrite bool_decide_true by done. by do 2 eexists. }
  destruct (capacity <=? cur_size c) eqn:Hfull.
  { do 2 eexists. do 4 (split; [done || lia|]). split; [done|]. split; [|done].
    eapply wf_put; [done|set_solver|done|lia| |lia|done]. eapply bucket_ok_mono; [|done]. set_solver. }
  apply Z.leb_gt in Hfull. pose proof (find_key_None _ _ Hf) as Hnk. destruct Hok as (Hlen & Hnd & Hall).
  assert (Forall (λ n, i ∈ _get_candidate_buckets (n_key n) ∧ (n_key n, n_value n) ∈ (k, v) :: h) (CN k v [] :: b)) as Hall'.
  { apply Forall_cons. split; [set_solver|]. eapply Forall_impl; [apply Hall|]. set_solver. }
  assert (NoDup (map n_key (CN k v [] :: b))) as Hnd' by (by constructor).
  unfold blen, bucket_elements_limit in *.
  rewrite !(wrap_small 64 (_ + 1)) by (unfold uint; lia).
  destruct (2 <? Z.of_nat (length b) + 1) eqn:Hbig.
  - apply Z.ltb_lt in Hbig.
    destruct (last (CN k v [] :: b)) as [en|] eqn:Hlast; [|by apply last_None in Hlast].
    do 2 eexists. do 4 (split; [done || lia|]). split; [done|].
    assert (take (length (CN k v [] :: b) - 1) (CN k v [] :: b) = CN k v [] :: take (length b - 1) b) as Ht.
    { cbn. destruct b as [|x b]; [cbn in *; lia|]. cbn. by rewrite Nat.sub_0_r. }
    split.
    + rewrite !wrap_small by (unfold uint; lia).
      replace (Z.of_nat (length b) + 1 - 1) with (blen (take (length (CN k v [] :: b) - 1) (CN k v [] :: b)))
        by (unfold blen; rewrite Ht; cbn; rewrite length_take; lia).
      eapply wf_put; [done|set_solver|done|lia| | |lia].
      * eapply bucket_evict; [done..|cbn; unfold bucket_elements_limit; lia].
      * unfold blen. rewrite Ht. cbn. rewrite length_take. lia.
    + intros _. eexists. split; [done|]. rewrite Ht. cbn. unfold key_eqb. rewrite bool_decide_true by done.
      by do 2 eexists.
  - apply Z.ltb_ge in Hbig. do 2 eexists. do 4 (split; [done || lia|]). split; [done|]. split.
    + replace (Z.of_nat (length b) + 1) with (blen (CN k v [] :: b)) by (unfold blen; cbn; lia).
      eapply wf_put; [done|set_solver|done|lia| |unfold blen; cbn; lia|lia].
      split; [cbn; unfold bucket_elements_limit; lia|done].
    + intros _. eexists. split; [done|]. cbn. unfold key_eqb. rewrite bool_decide_true by done. by do 2 eexists.
Qed.

Lemma query_in_wf now k cs c h :
  cache_wf c h → (∀ i, i ∈ cs → 0 <= i < capacity) →
  ∃ r c', query_in now k cs c = Ok (r, c') ∧ cache_wf c' h ∧
    match r with
    | Some v => (k, v) ∈ h ∧ ∃ i b n rest, i ∈ cs ∧ 0 <= i ∧ buckets c !! Z.to_nat i = Some b ∧
                              find_key k b = Some (n, rest) ∧ n_value n = v
    | None => ∀ i b, i ∈ cs → buckets c !! Z.to_nat i = Some b → find_key k b = None
    end.
Proof.
  intros Hw. induction cs as [|i cs IH]; intros Hr; cbn [query_in].
  { do 2 eexists. split; [done|]. split; [by destruct Hw; split|]. set_solver. }
  destruct (wf_bucket c h i Hw) as (b & Hb & Hib & _ & Hok); [apply Hr; set_solver|].
  rewrite Hib. cbn [mbind res_bind].
  assert (0 <= i < capacity) as Hi by (apply Hr; set_solver).
  destruct (find_key k b) as [[n rest]|] eqn:Hf.
  - destruct (find_key_Some _ _ _ _ Hf) as [Hk Hp]. do 2 eexists. split; [done|].
    assert (bucket_ok h i (n :: rest)) as Hok' by (by eapply bucket_ok_perm).
    assert ((n_key n, n_value n) ∈ h) as Hh by (destruct Hok' as (_ & _ & Hall); apply Forall_cons in Hall; tauto).
    split.
    + assert (bucket_elements c = <[Z.to_nat i := blen (update_access_time now n :: rest)]> (bucket_elements c)) as He.
      { rewrite list_insert_id; [done|]. rewrite (wf_elements _ _ Hw), list_lookup_fmap, Hb. cbn.
        unfold blen. by rewrite <- (Permutation_length Hp). }
      rewrite He. eapply wf_put; [done|done|done|lia| | |by apply Hw].
      * by apply (bucket_ok_head h i n).
      * unfold blen. rewrite <- (Permutation_length Hp). cbn. lia.
    + split; [by rewrite <- Hk|]. exists i, b, n, rest. set_solver by lia.
  - destruct IH as (r & c' & Hq & Hw' & Hres); [set_solver|]. exists r, c'. do 2 (split; [done|]).
    destruct r as [v|].
    + destruct Hres as [? (j & bj & nj & rj & ? & ?)]. split; [done|]. exists j, bj, nj, rj. set_solver.
    + intros j bj [-> |Hj]%elem_of_cons Hbj; [by simplify_eq|by eapply Hres].
Qed.

Lemma cache_new_wf : cache_wf cache_new [].
Proof.
  unfold cache_new. split; cbn [buckets bucket_elements cur_size].
  - rewrite length_replicate. lia.
  - symmetry. apply (fmap_replicate blen).
  - rewrite sum_of_replicate. unfold blen. cbn. lia.
  - lia.
  - intros i b [-> _]%lookup_replicate. split; [cbn; unfold bucket_elements_limit; lia|]. by split; constructor.
Qed.

Lemma cache_reachable_wf c h : rtc cache_step (cache_new, []) (c, h) → cache_wf c h.
Proof.
  intros Hr. change ((λ '(c, h), cache_wf c h) (c, h)).
  eapply (rtc_invariant cache_step); [|exact Hr|apply cache_new_wf]. intros [c1 h1] [c2 h2] Hw Hs.
  inversion Hs as [now k v ? o ? ? Hi|now k ? r ? ? Hq]; subst.
  - destruct (insert_wf now k v c1 h1 Hw) as (i & b & o' & c' & _ & _ & _ & _ & Hi' & Hw' & _).
    rewrite Hi in Hi'. by injection Hi' as -> ->.
  - destruct (query_in_wf now k (_get_candidate_buckets k) c1 h2 Hw) as (r' & c' & Hq' & Hw' & _);
      [intros; by eapply candidates_range|]. unfold query in Hq. rewrite Hq in Hq'. by injection Hq' as -> ->.
Qed.
End cache.

(** C26. In every reachable state of the key/value cache no operation can fail,
    a bucket holds at most two pairs, the bookkeeping ([bucket_elements],
    [cur_size]) agrees with the buckets, the total stays within the capacity,
    and a query that hits returns a value that was once inserted for that
    key. *)
Theorem local_cache_invariant (capacity : Z) (hash : Key → Z → Z) (c : LocalCache) (h : list (Key * Z))
    (Hcap : 0 < capacity < 2 ^ 63) (Hr : rtc (cache_step capacity hash) (cache_new capacity, []) (c, h)) :
  Forall (λ b, Z.of_nat (length b) <= bucket_elements_limit ∧ NoDup (map n_key b)) (buckets c) ∧
  bucket_elements c = map (λ b, Z.of_nat (length b)) (buckets c) ∧
  cur_size c = sum_of (λ b, Z.of_nat (length b)) (buckets c) ∧ cur_size c <= capacity ∧
  (∀ now k v, ∃ o c', insert capacity hash now k v c = Ok (o, c')) ∧
  (∀ now k, ∃ r c', query capacity hash now k c = Ok (r, c') ∧ ∀ v, r = Some v → (k, v) ∈ h).
Proof.
  pose proof (cache_reachable_wf _ _ Hcap _ _ Hr) as Hw. split.
  { apply Forall_lookup. intros i b Hb. destruct (wf_buckets _ _ _ _ Hw _ _ Hb) as (? & ? & _). done. }
  do 3 (split; [apply Hw|]). split.
  - intros now k v. edestruct insert_wf as (i & b & o & c' & H); [done|apply Hw|]. exists o, c'. apply H.
  - intros now k. edestruct (query_in_wf capacity hash) as (r & c' & Hq & _ & Hres);
      [done|apply Hw|intros; by eapply candidates_range|].
    exists r, c'. split; [apply Hq|]. intros v ->. apply Hres.
Qed.

(** An accepted insertion is what the next query for the key returns, when
    no bucket but the least loaded candidate held the key before. *)
Theorem local_cache_insert_query (capacity : Z) (hash : Key → Z → Z) (c : LocalCache) (h : list (Key * Z))
    (now now' : Z) (k : Key) (v : Z) (o : insert_outcome) (c' : LocalCache)
    (Hcap : 0 < capacity < 2 ^ 63) (Hr : rtc (cache_step capacity hash) (cache_new capacity, []) (c, h))
    (Hi : insert capacity hash now k v c = Ok (o, c')) (Ho : o ≠ Rejected)
    (Honly : ∀ i b, buckets c !! i = Some b → k ∈ map n_key b →
       least_loaded (bucket_elements c) (_get_candidate_buckets capacity hash k) (bucket_elements_limit + 1) None
       = Ok (Some (Z.of_nat i))) :
  ∃ c'', query capacity hash now' k c' = Ok (Some v, c'').
Proof.
  pose proof (cache_reachable_wf _ _ Hcap _ _ Hr) as Hw.
  destruct (insert_wf _ _ Hcap now k v c h Hw) as (i & b & o' & c1 & Hl & Hb & Hpos & Hin & Hi' & Hw' & Hput).
  rewrite Hi in Hi'. injection Hi' as <- <-. destruct (Hput Ho) as (b' & Hbs & n & rest & Hf & Hv).
  destruct (query_in_wf capacity hash Hcap now' k (_get_candidate_buckets capacity hash k) c' ((k, v) :: h) Hw')
    as (r & c'' & Hq & _ & Hres); [intros; by eapply candidates_range|].
  exists c''. unfold query. rewrite Hq. do 2 f_equal.
  pose proof (lookup_lt_Some _ _ _ Hb).
  destruct r as [v'|].
  - destruct Hres as (_ & j & bj & nj & rj & Hj & Hj0 & Hbj & Hfj & <-). rewrite Hbs in Hbj.
    destruct (decide (Z.to_nat j = Z.to_nat i)) as [Hji|Hne].
    + rewrite Hji, list_lookup_insert_eq in Hbj by done. by simplify_eq.
    + rewrite list_lookup_insert_ne in Hbj by done.
      destruct (find_key_Some _ _ _ _ Hfj) as [Hk Hp].
      assert (least_loaded (bucket_elements c) (_get_candidate_buckets capacity hash k) (bucket_elements_limit + 1) None
              = Ok (Some (Z.of_nat (Z.to_nat j)))) as Hl'.
      { eapply Honly; [done|]. rewrite <- Hk, <- Hp. cbn. left. }
      rewrite Hl in Hl'. injection Hl' as ->. lia.
  - specialize (Hres i b' Hin). rewrite Hbs, list_lookup_insert_eq in Hres by done.
    rewrite Hres in Hf; done.
Qed.

(** A hash that depends on the salt and on the low byte of the key. *)
Definition example_hash (k : Key) (salt : Z) : Z := salt `mod` 5 + default 0 (last k).

(** A run of operations. *)
Fixpoint cache_run (capacity : Z) (hash : Key → Z → Z) (ops : list (Key * option Z)) (c : LocalCache) : res (LocalCache * list (Key * Z)) :=
  match ops with
  | [] => Ok (c, [])
  | (k, Some v) :: ops => '(_, c) ← insert capacity hash 0 k v c; '(c, h) ← cache_run capacity hash ops c; Ok (c, h ++ [(k, v)])
  | (k, None) :: ops => '(_, c) ← query capacity hash 0 k c; cache_run capacity hash ops c
  end.

Lemma cache_run_steps capacity hash ops c c' h h0 :
  cache_run capacity hash ops c = Ok (c', h) → rtc (cache_step capacity hash) (c, h0) (c', h ++ h0).
Proof.
  revert c h h0. induction ops as [|[k [v|]] ops IH]; intros c h h0; cbn.
  - intros [= <- <-]. apply rtc_refl.
  - intros H. destruct (insert capacity hash 0 k v c) as [[o c1]|] eqn:E; [|done]. cbn in H.
    destruct (cache_run capacity hash ops c1) as [[c2 h2]|] eqn:E2; [|done]. injection H as <- <-.
    eapply rtc_l; [by eapply step_insert|]. rewrite <- app_assoc. by apply IH.
  - intros H. destruct (query capacity hash 0 k c) as [[r c1]|] eqn:E; [|done]. cbn in H.
    eapply rtc_l; [by eapply step_query|]. by apply IH.
Qed.

Definition example_ops : list (Key * option Z) :=
  [(int2key 1, Some 10); (int2key 2, Some 20); (int2key 3, Some 30); (int2key 1, None); (int2key 4, Some 40);
   (int2key 5, Some 50); (int2key 6, Some 60); (int2key 9, None)].

Lemma local_cache_invariant_witness :
  ∃ c h, rtc (cache_step 4 example_hash) (cache_new 4, []) (c, h) ∧
         cur_size c = 4 ∧ sum_reject_time c = 2 ∧ cur_size c <= 4 ∧
         ∃ o c', insert 4 example_hash 7 (int2key 3) 9 c = Ok (o, c').
Proof.
  destruct (cache_run 4 example_hash example_ops (cache_new 4)) as [[c h]|] eqn:E; [|by vm_compute in E].
  exists c, h.
  assert (Hr : rtc (cache_step 4 example_hash) (cache_new 4, []) (c, h)).
  { pose proof (cache_run_steps _ _ _ _ _ _ [] E) as H. by rewrite app_nil_r in H. }
  assert (Hcap : 0 < 4 < 2 ^ 63) by lia.
  destruct (local_cache_invariant 4 example_hash c h Hcap Hr) as (_ & _ & _ & Hs & Hi & _).
  split; [exact Hr|]. vm_compute in E. injection E as <- <-. do 2 (split; [reflexivity|]). split; [exact Hs|apply Hi].
Defined.

Lemma local_cache_insert_query_witness :
  ∃ c h o c' c'', rtc (cache_step 4 example_hash) (cache_new 4, []) (c, h) ∧
    insert 4 example_hash 7 (int2key 7) 9 c = Ok (o, c') ∧ o = Inserted ∧
    query 4 example_hash 8 (int2key 7) c' = Ok (Some 9, c'').
Proof.
  destruct (cache_run 4 example_hash (take 3 example_ops) (cache_new 4)) as [[c h]|] eqn:E; [|by vm_compute in E].
  assert (Hr : rtc (cache_step 4 example_hash) (cache_new 4, []) (c, h)).
  { pose proof (cache_run_steps _ _ _ _ _ _ [] E) as H. by rewrite app_nil_r in H. }
  assert (Hcap : 0 < 4 < 2 ^ 63) by lia.
  destruct (insert 4 example_hash 7 (int2key 7) 9 c) as [[o c']|] eqn:Ei; [|by vm_compute in E; injection E as <- <-; vm_compute in Ei].
  assert (Ho : o = Inserted) by (vm_compute in E; injection E as <- <-; vm_compute in Ei; by injection Ei).
  assert (Hne : o ≠ Rejected) by (by rewrite Ho).
  assert (Honly : ∀ i b, buckets c !! i = Some b → int2key 7 ∈ map n_key b →
       least_loaded (bucket_elements c) (_get_candidate_buckets 4 example_hash (int2key 7)) (bucket_elements_limit + 1) None
       = Ok (Some (Z.of_nat i))).
  { vm_compute in E. injection E as <- <-. intros i b Hb Hk. exfalso.
    do 4 (destruct i as [|i]; [injection Hb as <-; apply (bool_decide_pack _) in Hk; vm_compute in Hk; exact Hk|]).
    discriminate Hb. }
  destruct (local_cache_insert_query 4 example_hash c h 7 8 (int2key 7) 9 o c' Hcap Hr Ei Hne Honly) as [c'' Hq].
  exists c, h, o, c', c''. by split_and!.
Defined.

Lemma insert_into_empty capacity hash now k v c i :
  least_loaded (bucket_elements c) (_get_candidate_buckets capacity hash k) (bucket_elements_limit + 1) None = Ok (Some i) →
  0 <= i → buckets c !! Z.to_nat i = Some [] → bucket_elements c !! Z.to_nat i = Some 0 →
  0 <= cur_size c < capacity → capacity < 2 ^ 63 →
  insert capacity hash now k v c =
  Ok (Inserted, LC (<[Z.to_nat i := [CN k v []]]> (buckets c)) (<[Z.to_nat i := 1]> (bucket_elements c)) (cur_size c + 1)
                  (sum_evict_time c) (sum_migrate_time c) (sum_reject_time c) (local_cache_hit c) (local_cache_miss c)).
Proof.
  intros Hl Hi Hb He Hs Hc. unfold insert. rewrite Hl. cbn [mbind res_bind].
  rewrite (idx_lookup _ _ _ Hi Hb), (idx_lookup _ _ _ Hi He). cbn [mbind res_bind find_key].
  rewrite (proj2 (Z.leb_gt _ _)) by lia. change (0 +[64] 1) with 1. cbn. rewrite wrap_small by (unfold uint; lia). done.
Qed.

(** A second insertion of a key into an otherwise empty cache goes to
    another bucket, and the next query returns the first, stale, value. *)
Theorem local_cache_stale_hit (capacity : Z) (hash : Key → Z → Z) (now : Z) (k : Key) (v1 v2 : Z)
    (Hcap : 1 < capacity < 2 ^ 63)
    (Hne : _get_hashcode capacity hash k 0 ≠ _get_hashcode capacity hash k (sint 32 0x9e3779b9)) :
  ∃ c1 c2 c3, insert capacity hash now k v1 (cache_new capacity) = Ok (Inserted, c1) ∧
              insert capacity hash now k v2 c1 = Ok (Inserted, c2) ∧
              query capacity hash now k c2 = Ok (Some v1, c3).
Proof.
  unfold query. set (i0 := _get_hashcode capacity hash k 0) in *.
  set (i1 := _get_hashcode capacity hash k (sint 32 0x9e3779b9)) in *.
  set (i2 := _get_hashcode capacity hash k (sint 32 (2 * 0x9e3779b9))).
  assert (Hcs : _get_candidate_buckets capacity hash k = [i0; i1; i2]) by done.
  assert (Hr : ∀ i, i ∈ [i0; i1; i2] → 0 <= i < capacity).
  { intros i Hi. apply (candidates_range capacity hash ltac:(lia) k). by rewrite Hcs. }
  clearbody i0 i1 i2. pose proof (Hr i0 ltac:(set_solver)). pose proof (Hr i1 ltac:(set_solver)). pose proof (Hr i2 ltac:(set_solver)).
  assert (Hidx : ∀ A (x : A) i, 0 <= i < capacity → replicate (Z.to_nat capacity) x !! Z.to_nat i = Some x)
    by (intros; apply lookup_replicate; split; [done|lia]).
  assert (Hl0 : least_loaded (bucket_elements (cache_new capacity)) [i0; i1; i2] (bucket_elements_limit + 1) None = Ok (Some i0)).
  { cbn. by rewrite !(idx_lookup _ _ 0) by (lia || by apply Hidx). }
  do 3 eexists. split.
  { eapply insert_into_empty; rewrite ?Hcs; [exact Hl0|lia|by apply Hidx..|cbn; lia|lia]. }
  assert (Hne' : Z.to_nat i0 ≠ Z.to_nat i1) by lia.
  assert (He2 : idx_ (<[Z.to_nat i0 := 1]> (replicate (Z.to_nat capacity) 0)) i2 = Ok (if decide (i2 = i0) then 1 else 0)).
  { apply idx_lookup; [lia|]. destruct (decide (i2 = i0)) as [-> |].
    - rewrite list_lookup_insert_eq; [done|]. rewrite length_replicate. lia.
    - rewrite list_lookup_insert_ne by lia. by apply Hidx. }
  cbn [bucket_elements buckets cache_new cur_size].
  split.
  { eapply (insert_into_empty _ _ _ _ _ _ i1); cbn [bucket_elements buckets cur_size]; rewrite ?Hcs; [|lia| | |cbn; lia|lia].
    - cbn. rewrite (idx_lookup _ i0 1), (idx_lookup _ i1 0).
      + cbn. rewrite He2. by destruct (decide (i2 = i0)).
      + lia.
      + rewrite list_lookup_insert_ne by done. by apply Hidx.
      + lia.
      + by rewrite list_lookup_insert_eq by (rewrite length_replicate; lia).
    - rewrite list_lookup_insert_ne by done. by apply Hidx.
    - rewrite list_lookup_insert_ne by done. by apply Hidx. }
  rewrite Hcs. cbn [query_in buckets]. rewrite (idx_lookup _ i0 [CN k v1 []]).
  - cbn. unfold key_eqb. rewrite bool_decide_true by done. reflexivity.
  - lia.
  - rewrite list_lookup_insert_ne by done. by rewrite list_lookup_insert_eq by (rewrite length_replicate; lia).
Qed.

Lemma local_cache_stale_hit_witness :
  1 < 16 < 2 ^ 63 ∧ _get_hashcode 16 example_hash (int2key 1) 0 ≠ _get_hashcode 16 example_hash (int2key 1) (sint 32 0x9e3779b9) ∧
  ∃ c1 c2 c3, insert 16 example_hash 0 (int2key 1) 10 (cache_new 16) = Ok (Inserted, c1) ∧
              insert 16 example_hash 0 (int2key 1) 20 c1 = Ok (Inserted, c2) ∧
              query 16 example_hash 0 (int2key 1) c2 = Ok (Some 10, c3).
Proof.
  assert (H1 : 1 < 16 < 2 ^ 63) by lia.
  assert (H2 : _get_hashcode 16 example_hash (int2key 1) 0 ≠ _get_hashcode 16 example_hash (int2key 1) (sint 32 0x9e3779b9))
    by (vm_compute; discriminate).
  split; [exact H1|]. split; [exact H2|].
  exact (local_cache_stale_hit 16 example_hash 0 (int2key 1) 10 20 H1 H2).
Defined.
