(* ===== verification/IndexCache.v ===== *)
(** * Cached nodes, and what an index cache promises (include/NormalCache.h, include/RadixCache.h)

    A cache entry is a copy of the records of an internal page, stored under
    the bytes of the key that lead to the page. The tree uses its cache through
    [IndexCache]; [IndexCacheLaws] is what a lookup promises: the entry it finds
    was added for a page on the path of the key, whatever was evicted or
    invalidated in between. *)

From Stdlib Require Import ZArith Lia Bool.
From stdpp Require Import base tactics decidable option numbers list.
From S2P Require Import Prelude.
From S2P Require Import Common.
From S2P Require Import Keys.
From S2P Require Import Address.
From S2P Require Import Nodes.
From S2P Require Import Process.

Record CacheEntry : Set := CE {
  ce_depth : Z;  (* uint8_t *)
  ce_addr : GlobalAddress;
  ce_records : list InternalEntry;
  expire_at_ns : Z
}.

(** [CacheEntry(p_node, addr)] at time [now]: the page must hold the records
    of its type. *)
Definition entry_make (now : Z) (p_node : InternalPage) (addr : GlobalAddress) : res CacheEntry :=
  let n := Z.to_nat (node_type_to_num (h_node_type (pg_hdr p_node))) in
  defined (bool_decide (n ≤ length (pg_records p_node))%nat) ;;
  Ok (CE (wrap 8 (h_depth (pg_hdr p_node) + h_partial_len (pg_hdr p_node))) addr
         (take n (pg_records p_node)) (now +[64] kIndexCacheTtlNs)).

Definition content_size (e : CacheEntry) : Z := 1 + 8 + 8 * Z.of_nat (length (ce_records e)) + 8.

Definition is_expired (now : Z) (e : CacheEntry) : bool := expire_at_ns e <? now.

(** [CacheKey]: the bytes on the way to the page. *)
Abbreviation CacheKey := (list byte).

(** [byte_array] of [add_to_cache]: [depth] bytes of the key, then the partial
    key of the page. *)
Definition cache_key (k : Key) (p_node : InternalPage) : res CacheKey :=
  let h := pg_hdr p_node in
  let depth := h_depth h - 1 in
  defined ((0 <=? depth) && (depth <=? keyLen) && (h_partial_len h <=? hPartialLenMax)) ;;
  Ok (take (Z.to_nat depth) k ++ take (Z.to_nat (h_partial_len h)) (h_partial h)).

(** The loop over the records of an entry. *)
Fixpoint find_record (records : list InternalEntry) (next_partial : byte) (i : Z) : option Z :=
  match records with
  | [] => None
  | e :: records =>
    if negb (entry_eqb e entry_Null) && (e_partial e =? next_partial) then Some i
    else find_record records next_partial (i + 1)
  end.

(** [RangeCache]; [H] is the pair of pointers that [invalidate] takes. *)
Record RangeCache (H : Type) : Type := RC {
  rc_from : Key;
  rc_to : Key;
  rc_e_ptr : GlobalAddress;
  rc_e : InternalEntry;
  rc_depth : Z;
  rc_handle : H;
}.
Arguments RC {H}.
Arguments rc_from {H}. Arguments rc_to {H}. Arguments rc_e_ptr {H}.
Arguments rc_e {H}. Arguments rc_depth {H}. Arguments rc_handle {H}.

(** ** The interface *)
Class IndexCache := {
  cache : Type;
  handle : Type;
  add_to_cache : Key → InternalPage → GlobalAddress → proc cache unit;
  (** the entry's pointers, the entry, and the index of the record *)
  search_from_cache : Key → proc cache (option (handle * CacheEntry * Z));
  invalidate : handle → proc cache unit
}.

(** [search_range_from_cache], in both caches the same code: the keys from
    [from] to [to - 1], at most [fuel]. *)
Section range.
Context `{IndexCache}.

Fixpoint search_range_from_cache (fuel : nat) (k to : Key) : proc cache (list (RangeCache handle)) :=
  match fuel with
  | O => Crash EFuel
  | S fuel =>
    if key_ltb k to then
      r ← search_from_cache k;
      rc ← match r with
           | Some (h, entry_ptr, entry_idx) => pure
               (check (0 <=? entry_idx) ;;
                p ← idx_ (ce_records entry_ptr) entry_idx;
                let p_ptr := GADD (ce_addr entry_ptr) (8 * entry_idx) in
                let depth := ce_depth entry_ptr in
                leftmost ← (if e_is_leaf p then Ok k else get_leftmost k depth);
                rightmost ← (if e_is_leaf p then Ok k else get_rightmost k depth);
                Ok [RC leftmost rightmost p_ptr p depth h])
           | None => mret []
           end;
      l ← search_range_from_cache fuel (key_add k 1) to;
      mret (rc ++ l)
    else mret []
  end.
End range.

(** A page that [add_to_cache] can take: it is whole and on the path of the key. *)
Definition cacheable (k : Key) (p : InternalPage) : Prop :=
  key_ok k ∧ header_ok (pg_hdr p) ∧ 1 <= h_depth (pg_hdr p) ∧
  h_depth (pg_hdr p) + h_partial_len (pg_hdr p) <= keyLen ∧ h_partial_len (pg_hdr p) <= hPartialLenMax ∧
  (Z.to_nat (node_type_to_num (h_node_type (pg_hdr p))) ≤ length (pg_records p))%nat ∧
  Forall entry_ok (pg_records p).

#[export] Instance cacheable_dec k p : Decision (cacheable k p).
Proof. unfold cacheable. apply _. Defined.

(** What a found entry says: it is the copy of a page [p] at [addr] that was
    added for some key [k0], and the record [i] lies on the path of [k]. *)
Definition found_entry (F : Key → InternalPage → GlobalAddress → Prop) (k : Key) (ce : CacheEntry) (i : Z) : Prop :=
  ∃ k0 p e path, F k0 p (ce_addr ce) ∧ cacheable k0 p ∧ cache_key k0 p = Ok path ∧
    0 <= i ∧ pg_records p !! Z.to_nat i = Some e ∧ i < node_type_to_num (h_node_type (pg_hdr p)) ∧
    ce_records ce !! Z.to_nat i = Some e ∧
    e ≠ entry_Null ∧ ce_depth ce = Z.of_nat (length path) + 1 ∧ (path ++ [e_partial e]) `prefix_of` k.

(** *** Entries *)
Section entries.
Context (F : Key → InternalPage → GlobalAddress → Prop).

(** A cache entry is a copy of a page that was added under [path]. *)
Definition entry_fact (path : CacheKey) (ce : CacheEntry) : Prop :=
  ∃ k p, F k p (ce_addr ce) ∧ cacheable k p ∧ cache_key k p = Ok path ∧
    ce_records ce = take (Z.to_nat (node_type_to_num (h_node_type (pg_hdr p)))) (pg_records p) ∧
    ce_depth ce = Z.of_nat (length path) + 1.

(** The entry that [add_to_cache] makes, and where it goes. *)
Lemma cacheable_entry k p a now :
  cacheable k p → F k p a →
  ∃ path ce, cache_key k p = Ok path ∧ entry_make now p a = Ok ce ∧ entry_fact path ce ∧
    Z.of_nat (length path) = h_depth (pg_hdr p) - 1 + h_partial_len (pg_hdr p).
Proof.
  intros Hc HF. pose proof Hc as (Hk & Hh & Hd & Hend & Hpl & Hn & He).
  assert (0 <= h_partial_len (pg_hdr p) ∧ length (h_partial (pg_hdr p)) = 6%nat) as [Hp0 Hp6].
  { destruct Hh as (_ & _ & ? & -> & _). split; [unfold uint in *; lia|done]. }
  assert (∃ path, cache_key k p = Ok path ∧ Z.of_nat (length path) = h_depth (pg_hdr p) - 1 + h_partial_len (pg_hdr p))
    as (path & Hpath & Hlen).
  { unfold cache_key. cbv zeta. unfold keyLen in *.
    rewrite (proj2 (Z.leb_le 0 _)), (proj2 (Z.leb_le _ 8)), (proj2 (Z.leb_le (h_partial_len _) _)) by lia. cbn.
    eexists. split; [done|]. destruct Hk as [Hk8 _]. change klen with 8%nat in Hk8. unfold hPartialLenMax in *.
    rewrite length_app, !length_take. lia. }
  unfold entry_make. cbv zeta. rewrite bool_decide_true by done. cbn. exists path. eexists. split; [done|]. split; [done|].
  split; [|done]. exists k, p. cbn [ce_addr ce_records ce_depth]. split_and!; try done.
  rewrite wrap_small; [lia|]. unfold uint, keyLen in *. lia.
Qed.

Lemma find_record_spec records b j :
  match find_record records b j with
  | Some i => ∃ e, j <= i ∧ records !! Z.to_nat (i - j) = Some e ∧ entry_eqb e entry_Null = false ∧ e_partial e = b
  | None => True
  end.
Proof.
  revert j. induction records as [|e records IH]; intros j; cbn [find_record]; [done|].
  destruct (negb _ && _) eqn:E.
  - apply andb_true_iff in E as [En%negb_true_iff Eb%Z.eqb_eq]. exists e. rewrite Z.sub_diag. split_and!; [lia|done..].
  - specialize (IH (j + 1)). destruct (find_record records b (j + 1)) as [i|]; [|done].
    destruct IH as (e' & Hi & He & ?). exists e'. split; [lia|]. split; [|done].
    replace (Z.to_nat (i - j)) with (S (Z.to_nat (i - (j + 1)))) by lia. done.
Qed.

(** A record found in an entry under a part of the key. *)
Lemma entry_found path ce b i k :
  entry_fact path ce → find_record (ce_records ce) b 0 = Some i → (path ++ [b]) `prefix_of` k → found_entry F k ce i.
Proof.
  intros (k0 & p & HF & Hc & Hkey & Hrec & Hdep) Hi Hpre. pose proof (find_record_spec (ce_records ce) b 0) as Hfr.
  rewrite Hi in Hfr. destruct Hfr as (e & Hi0 & He & Hnn & Hpart). rewrite Z.sub_0_r in He.
  exists k0, p, e, path. pose proof He as He'. rewrite Hrec in He. apply lookup_take_Some in He as [He Hlen].
  split_and!; try done.
  - lia.
  - intros ->. by vm_compute in Hnn.
  - by rewrite Hpart.
Qed.
End entries.

Class IndexCacheLaws `{IndexCache} := {
  (** a state reached by adding pages of [F] *)
  cache_inv : (Key → InternalPage → GlobalAddress → Prop) → cache → Prop;
  (** how many more pages it can take for certain *)
  cache_room : cache → nat;
  (** the pointers may still be followed *)
  handle_ok : handle → cache → Prop;
  law_mono F F' c : (∀ k p a, F k p a → F' k p a) → cache_inv F c → cache_inv F' c;
  law_add F k p addr c :
    cache_inv F c → (0 < cache_room c)%nat → cacheable k p → F k p addr →
    ∃ c', run (add_to_cache k p addr) c = Ok (tt, c') ∧ cache_inv F c' ∧ (cache_room c ≤ S (cache_room c'))%nat ∧
      (∀ h, handle_ok h c → handle_ok h c');
  law_search F k c :
    cache_inv F c → key_ok k →
    ∃ r c', run (search_from_cache k) c = Ok (r, c') ∧ cache_inv F c' ∧ (cache_room c ≤ cache_room c')%nat ∧
      (∀ h, handle_ok h c → handle_ok h c') ∧
      match r with
      | Some (h, ce, i) => found_entry F k ce i ∧ handle_ok h c'
      | None => True
      end;
  law_invalidate F c h :
    cache_inv F c → handle_ok h c →
    ∃ c', run (invalidate h) c = Ok (tt, c') ∧ cache_inv F c' ∧ (cache_room c ≤ cache_room c')%nat ∧
      (∀ h, handle_ok h c → handle_ok h c')
}.

(** ** Sequences of operations *)
Inductive cache_op : Type :=
  | OpAdd (k : Key) (p : InternalPage) (addr : GlobalAddress)
  | OpSearch (k : Key)
  | OpDrop (k : Key)  (* the entry found for the key is invalidated *).

Definition op_ok (o : cache_op) : Prop :=
  match o with OpAdd k p _ => cacheable k p | OpSearch k | OpDrop k => key_ok k end.

(** The pages that a sequence adds. *)
Definition added (ops : list cache_op) (k : Key) (p : InternalPage) (addr : GlobalAddress) : Prop := OpAdd k p addr ∈ ops.

Definition adds (ops : list cache_op) : nat := length (omap (λ o, match o with OpAdd k _ _ => Some k | _ => None end) ops).

Section ops.
Context `{IndexCache}.

Definition cache_do (o : cache_op) : proc cache unit :=
  match o with
  | OpAdd k p addr => add_to_cache k p addr
  | OpSearch k => search_from_cache k ;; mret tt
  | OpDrop k => r ← search_from_cache k; match r with Some (h, _, _) => invalidate h | None => mret tt end
  end.

Fixpoint cache_do_all (ops : list cache_op) : proc cache unit :=
  match ops with [] => mret tt | o :: ops => cache_do o ;; cache_do_all ops end.
End ops.

Section sound.
Context `{IndexCacheLaws}.

Lemma cache_do_inv F o c :
  cache_inv F c → op_ok o → (adds [o] ≤ cache_room c)%nat → (∀ k p a, o = OpAdd k p a → F k p a) →
  ∃ c', run (cache_do o) c = Ok (tt, c') ∧ cache_inv F c' ∧ (cache_room c ≤ adds [o] + cache_room c')%nat.
Proof.
  intros Hc Ho Hroom HF. destruct o as [k p a|k|k]; cbn in *.
  - destruct (law_add F k p a c) as (c' & Hr & Hc' & Hroom' & _); [done|unfold adds in *; cbn in *; lia|done|by apply HF|].
    exists c'. by split_and!.
  - destruct (law_search F k c Hc Ho) as (r & c' & Hr & Hc' & Hroom' & _).
    exists c'. rewrite run_bind, Hr, run_ret. by split_and!.
  - destruct (law_search F k c Hc Ho) as (r & c1 & Hr & Hc1 & Hroom1 & _ & Hres). rewrite run_bind, Hr.
    destruct r as [[[h ce] i]|]; [|exists c1; by rewrite run_ret].
    destruct (law_invalidate F c1 h Hc1 (proj2 Hres)) as (c' & Hr' & Hc' & Hroom' & _). exists c'. split_and!; [done..|].
    unfold adds. cbn. lia.
Qed.

Lemma cache_do_all_inv F ops c :
  cache_inv F c → Forall op_ok ops → (adds ops ≤ cache_room c)%nat → (∀ k p a, added ops k p a → F k p a) →
  ∃ c', run (cache_do_all ops) c = Ok (tt, c') ∧ cache_inv F c'.
Proof.
  revert c. induction ops as [|o ops IH]; intros c Hc Ho Hroom HF; cbn [cache_do_all]; [by exists c|].
  apply Forall_cons in Ho as [Ho Hos].
  assert (adds (o :: ops) = adds [o] + adds ops)%nat as Ea by (unfold adds; destruct o; done).
  destruct (cache_do_inv F o c Hc Ho) as (c1 & Hr & Hc1 & Hroom1); [lia|intros k p a ->; apply HF; by left|].
  rewrite run_bind, Hr. apply IH; [done..|lia|]. intros k p a Hin. apply HF. by right.
Qed.
End sound.

(** *** An example *)

(** A page at depth 2 with a header of one byte, for keys that start 3, 7. *)
Definition example_page : InternalPage :=
  mkPage gaddr_Null (Hdr 2 NODE_4 1 [7; 0; 0; 0; 0; 0]) [Ent 5 0 true (PG 0 4); entry_Null; entry_Null; entry_Null].
Definition example_key : Key := [3; 7; 5; 0; 0; 0; 0; 1].
Definition example_ops : list cache_op :=
  [OpAdd example_key example_page (GA 0 64); OpSearch example_key; OpDrop example_key; OpAdd example_key example_page (GA 0 64)].

Lemma example_cacheable : cacheable example_key example_page.
Proof. apply (bool_decide_unpack (cacheable example_key example_page)). by vm_compute. Qed.

Lemma example_ops_ok : Forall op_ok example_ops.
Proof. repeat (apply Forall_cons; split; [exact example_cacheable || apply (bool_decide_unpack _); by vm_compute|]). constructor. Qed.
