(* ===== verification/NumaPool.v ===== *)
(** * The object pool (include/NumaObjectPool.h)

    One block of [capacity] objects, and the objects released for reuse. An
    object is named by its index in the block. *)

From Stdlib Require Import ZArith Lia Bool.
From stdpp Require Import base tactics decidable option numbers list gmap fin_maps.
From S2P Require Import Prelude.

Section pool.
Context {T : Type}.

(** The constructed objects, [cur_idx] and the free list. *)
Record NumaObjectPool : Type := Pool {
  objects : gmap nat T;
  cur_idx : nat;
  freelist : list nat
}.

Definition pool_new : NumaObjectPool := Pool ∅ 0 [].

(** [allocate]: past the capacity the program aborts. The test for a
    misaligned address cannot fail on a block of whole objects. *)
Definition allocate (capacity : nat) (p : NumaObjectPool) (x : T) : res (nat * NumaObjectPool) :=
  match freelist p with
  | reused :: l => Ok (reused, Pool (<[reused := x]> (objects p)) (cur_idx p) l)
  | [] =>
    let idx := cur_idx p in
    check (idx <? capacity)%nat ;;
    Ok (idx, Pool (<[idx := x]> (objects p)) (S idx) [])
  end.

(** [release]: the destructor, then the free list. *)
Definition release (p : NumaObjectPool) (i : nat) : res NumaObjectPool :=
  match objects p !! i with
  | Some _ => Ok (Pool (delete i (objects p)) (cur_idx p) (freelist p ++ [i]))
  | None => Fail EUndef
  end.

(** ** Correctness

    Every index handed out is either a live object or free, never both. *)
Record pool_wf (capacity : nat) (p : NumaObjectPool) : Prop := {
  pw_cap : (cur_idx p ≤ capacity)%nat;
  pw_nodup : NoDup (freelist p);
  pw_split : ∀ i, (i < cur_idx p)%nat ↔ is_Some (objects p !! i) ∨ i ∈ freelist p;
  pw_disjoint : ∀ i, i ∈ freelist p → objects p !! i = None
}.

Lemma pool_new_wf capacity : pool_wf capacity pool_new.
Proof.
  split; cbn; [lia|constructor| |set_solver].
  intros i. split; [lia|]. intros [[x Hx]|H]; [by rewrite lookup_empty in Hx|set_solver].
Qed.

Lemma pool_size capacity p : pool_wf capacity p → (size (objects p) + length (freelist p) = cur_idx p)%nat.
Proof.
  intros Hp. assert (dom (objects p) ∪ list_to_set (freelist p) = (set_seq 0 (cur_idx p) : gset nat)) as E.
  { apply set_eq. intros i. rewrite elem_of_set_seq, elem_of_union, elem_of_dom, elem_of_list_to_set.
    rewrite <- (pw_split _ _ Hp). lia. }
  assert (dom (objects p) ## list_to_set (freelist p)) as Hd.
  { intros i Hi Hf. apply elem_of_dom in Hi as [x Hx]. rewrite elem_of_list_to_set in Hf.
    by rewrite (pw_disjoint _ _ Hp i Hf) in Hx. }
  rewrite <- size_dom, <- (size_list_to_set (C := gset nat)) by apply Hp.
  rewrite <- size_union by done. rewrite E. apply size_set_seq.
Qed.

Lemma allocate_wf capacity p x :
  pool_wf capacity p → (size (objects p) < capacity)%nat →
  ∃ i p', allocate capacity p x = Ok (i, p') ∧ pool_wf capacity p' ∧ objects p !! i = None ∧
          objects p' = <[i := x]> (objects p).
Proof.
  intros Hp Hs. pose proof (pool_size _ _ Hp) as Hz. unfold allocate.
  destruct (freelist p) as [|r l] eqn:Ef.
  - cbn in Hz. destruct (Nat.ltb_spec (cur_idx p) capacity) as [Hlt|]; [|lia]. cbn.
    assert (objects p !! cur_idx p = None) as Hn.
    { apply eq_None_not_Some. intros Hi. assert (cur_idx p < cur_idx p)%nat; [|lia].
      apply (pw_split _ _ Hp). by left. }
    do 2 eexists. split; [done|]. split; [|done]. split; cbn.
    + lia.
    + constructor.
    + intros i. rewrite lookup_insert_is_Some'. pose proof (pw_split _ _ Hp i) as H. rewrite Ef in H.
      destruct (decide (i = cur_idx p)) as [-> |]; [intuition lia|].
      assert (cur_idx p ≠ i) by done. assert (i < S (cur_idx p) ↔ i < cur_idx p)%nat as -> by lia. tauto.
    + set_solver.
  - assert (r ∉ l ∧ NoDup l) as [Hr Hl] by (apply NoDup_cons; rewrite <- Ef; apply Hp).
    assert (objects p !! r = None) as Hn by (apply (pw_disjoint _ _ Hp); rewrite Ef; set_solver).
    do 2 eexists. split; [done|]. split; [|done]. split; cbn; [apply Hp|done| |].
    + intros i. rewrite lookup_insert_is_Some'. pose proof (pw_split _ _ Hp i) as H. rewrite Ef in H.
      rewrite H, elem_of_cons. destruct (decide (r = i)); naive_solver.
    + intros i Hi. rewrite lookup_insert_ne by set_solver. apply (pw_disjoint _ _ Hp). rewrite Ef. set_solver.
Qed.

Lemma release_wf capacity p i x :
  pool_wf capacity p → objects p !! i = Some x →
  ∃ p', release p i = Ok p' ∧ pool_wf capacity p' ∧ objects p' = delete i (objects p).
Proof.
  intros Hp Hi. unfold release. rewrite Hi. eexists. split; [done|]. split; [|done].
  assert (i ∉ freelist p) as Hf by (intros H; by rewrite (pw_disjoint _ _ Hp i H) in Hi).
  split; cbn; [apply Hp| | |].
  - apply NoDup_app. split; [apply Hp|]. split; [set_solver|]. apply NoDup_singleton.
  - intros j. rewrite elem_of_app, list_elem_of_singleton, lookup_delete_is_Some.
    rewrite (pw_split _ _ Hp j). destruct (decide (i = j)) as [-> |]; [|naive_solver]. rewrite Hi. naive_solver.
  - intros j. rewrite elem_of_app, list_elem_of_singleton. intros [Hj| ->]; [|by rewrite lookup_delete_eq].
    rewrite lookup_delete_ne by set_solver. by apply (pw_disjoint _ _ Hp).
Qed.

Lemma allocate_full capacity p x :
  pool_wf capacity p → (capacity ≤ size (objects p))%nat → allocate capacity p x = Fail EAssert.
Proof.
  intros Hp Hs. pose proof (pool_size _ _ Hp) as Hz. pose proof (pw_cap _ _ Hp). unfold allocate.
  destruct (freelist p) as [|r l]; cbn in Hz; [|lia].
  destruct (Nat.ltb_spec (cur_idx p) capacity); [lia|done].
Qed.

Inductive pool_step (capacity : nat) : relation NumaObjectPool :=
  | pool_allocate x p i p' : allocate capacity p x = Ok (i, p') → pool_step capacity p p'
  | pool_release p i p' : release p i = Ok p' → pool_step capacity p p'.

Lemma pool_reachable_wf capacity p : rtc (pool_step capacity) pool_new p → pool_wf capacity p.
Proof.
  intros Hr. eapply (rtc_invariant (pool_step capacity)); [|exact Hr|apply pool_new_wf].
  intros p1 p2 Hp Hs. inversion Hs as [x ? i ? Ha|? i ? Ha]; subst.
  - destruct (decide (size (objects p1) < capacity)%nat) as [Hlt|Hge].
    + destruct (allocate_wf _ _ x Hp Hlt) as (j & p' & Ha' & Hp' & _). rewrite Ha in Ha'. by injection Ha' as -> ->.
    + rewrite (allocate_full _ _ x Hp) in Ha by lia. done.
  - unfold release in Ha. destruct (objects p1 !! i) as [x|] eqn:E; [|done].
    destruct (release_wf _ _ _ _ Hp E) as (p' & Ha' & Hp' & _). unfold release in Ha'. rewrite E, Ha in Ha'.
    by injection Ha' as ->.
Qed.
End pool.
Arguments NumaObjectPool T : clear implicits.

(** In every state of the pool, an allocation gives an index that no live
    object uses and leaves the others alone; it aborts exactly when [capacity]
    objects are live; and a live object can be released, its index then being
    free for reuse. *)
Theorem numa_pool_no_alias {T : Type} (capacity : nat) (p : NumaObjectPool T)
    (Hr : rtc (pool_step capacity) pool_new p) :
  (∀ x : T, if decide (size (objects p) < capacity)%nat
            then ∃ i p', allocate capacity p x = Ok (i, p') ∧ objects p !! i = None ∧ objects p' = <[i := x]> (objects p)
            else allocate capacity p x = Fail EAssert) ∧
  (∀ i x, objects p !! i = Some x → ∃ p', release p i = Ok p' ∧ objects p' = delete i (objects p)).
Proof.
  pose proof (pool_reachable_wf _ _ Hr) as Hp. split.
  - intros x. case_decide as Hs.
    + destruct (allocate_wf _ _ x Hp Hs) as (i & p' & ? & _ & ? & ?). by exists i, p'.
    + apply allocate_full; [done|lia].
  - intros i x Hi. destruct (release_wf _ _ _ _ Hp Hi) as (p' & ? & _ & ?). by exists p'.
Qed.

Lemma numa_pool_no_alias_witness :
  let p := Pool (<[1%nat := 20]> {[0%nat := 10]}) 2 [] in
  rtc (pool_step 2) pool_new p ∧ allocate 2 p 30 = Fail EAssert.
Proof.
  set (p := Pool (<[1%nat := 20]> {[0%nat := 10]}) 2 []).
  assert (Hr : rtc (pool_step 2) pool_new p).
  { eapply rtc_l; [apply (pool_allocate 2 10 pool_new 0); reflexivity|].
    eapply rtc_l; [apply (pool_allocate 2 20 _ 1); reflexivity|]. apply rtc_refl. }
  split; [exact Hr|]. pose proof (proj1 (numa_pool_no_alias 2 p Hr) 30) as H.
  rewrite decide_False in H; [exact H|]. by vm_compute; lia.
Defined.
