(* ===== verification/RadixCache.v ===== *)
(** * The radix index cache (include/RadixCache.h, src/RadixCache.cpp)

    A trie of cache nodes with path compression; each node maps a byte to a
    cache entry and to a child. Nodes, headers and entries are heap objects with
    an identity, because the code compares their pointers. Each access to them
    is one action; what [now_ns] will return is part of the state. *)

From Stdlib Require Import ZArith Lia Bool.
From stdpp Require Import base tactics decidable option numbers list gmap.
From S2P Require Import Prelude.
From S2P Require Import Common.
From S2P Require Import Keys.
From S2P Require Import Address.
From S2P Require Import Nodes.
From S2P Require Import Process.
From S2P Require Import IndexCache.
From S2P Require Import NumaPool.

(** [CacheNodeValue]: the entry's index in the pool, the child. *)
Record CacheNodeValue : Set := CNV { cache_entry : option nat; next : option nat }.

Record CacheHeader : Set := CH { ch_depth : Z; ch_partial : list byte }.

(** The loop [partial.push_back(byte_array[depth + i])]. *)
Fixpoint push_partial (byte_array : list byte) (n : nat) (i : Z) : res (list byte) :=
  match n with
  | O => Ok []
  | S n => b ← idx_ byte_array i; l ← push_partial byte_array n (i + 1); Ok (b :: l)
  end.

Definition cache_header (byte_array : list byte) (depth partial_len : Z) : res CacheHeader :=
  partial ← push_partial byte_array (Z.to_nat partial_len) depth;
  Ok (CH (wrap 8 depth) partial).

Definition cache_split_header (old_hdr : CacheHeader) (diff_idx : Z) : CacheHeader :=
  CH (wrap 8 (ch_depth old_hdr + diff_idx + 1)) (drop (Z.to_nat (diff_idx + 1)) (ch_partial old_hdr)).

Definition cache_header_size (h : CacheHeader) : Z := 1 + Z.of_nat (length (ch_partial h)).

(** [CacheNode]: the header has an identity; [records] is the concurrent map. *)
Record CacheNode : Set := CNode { header : nat * CacheHeader; records : gmap Z CacheNodeValue }.

(** [CacheNode(byte_array, start, new_entry)] *)
Definition leaf_cache_node (hid : nat) (byte_array : list byte) (start : Z) (new_entry : nat) : res CacheNode :=
  h ← cache_header byte_array start (Z.of_nat (length byte_array) - start - 1);
  b ← idx_ byte_array (Z.of_nat (length byte_array) - 1);
  Ok (CNode (hid, h) {[ b := CNV (Some new_entry) None ]}).

(** The constructor that splits [next_node] off, and the nested node (named
    [nid]) that it creates unless the new entry fits into the new node. *)
Definition split_cache_node (hid hid' nid : nat) (byte_array : list byte) (start partial_len : Z)
    (partial_1 : byte) (next_node : nat) (partial_2 : byte) (new_entry : nat) :
    res (CacheNode * option CacheNode) :=
  h ← cache_header byte_array start partial_len;
  if partial_1 =? partial_2 then
    Ok (CNode (hid, h) {[ partial_1 := CNV (Some new_entry) (Some next_node) ]}, None)
  else
    let recs := {[ partial_1 := CNV None (Some next_node) ]} in
    if Z.of_nat (length byte_array) - 1 <=? start + partial_len then
      Ok (CNode (hid, h) (<[partial_2 := CNV (Some new_entry) None]> recs), None)
    else
      nested ← leaf_cache_node hid' byte_array (start + partial_len + 1) new_entry;
      Ok (CNode (hid, h) (<[partial_2 := CNV None (Some nid)]> recs), Some nested).

Definition node_content_size (n : CacheNode) : Z :=
  cache_header_size (header n).2 + (1 + 8 + 8) * Z.of_nat (size (records n)).

(** The cache, with the heap of its nodes ([fresh] is the next identity) and
    the fields of [FreeMemManager]. *)
Record RadixCache : Type := Radix {
  nodes : gmap nat CacheNode;
  fresh : nat;
  cache_root : nat;
  node_queue : list nat;
  pool : NumaObjectPool CacheEntry;
  free_size : Z;
  node_mem_size : gmap nat Z;
  cache_entry_gc : list nat;
  cache_hdr_gc : list nat;
  eviction_list : list ((nat * Z) * nat);
  clock : nat → Z
}.

Abbreviation rp := (proc RadixCache).

Definition pool_capacity : nat := 5 * 1000 * 1000.
Definition safely_free_epoch : nat := Z.to_nat (2 * MAX_APP_THREAD * MAX_CORO_NUM).

Definition set_nodes (x : gmap nat CacheNode) (c : RadixCache) : RadixCache :=
  Radix x (fresh c) (cache_root c) (node_queue c) (pool c) (free_size c) (node_mem_size c) (cache_entry_gc c) (cache_hdr_gc c) (eviction_list c) (clock c).
Definition set_fresh (x : nat) (c : RadixCache) : RadixCache :=
  Radix (nodes c) x (cache_root c) (node_queue c) (pool c) (free_size c) (node_mem_size c) (cache_entry_gc c) (cache_hdr_gc c) (eviction_list c) (clock c).
Definition set_cache_root (x : nat) (c : RadixCache) : RadixCache :=
  Radix (nodes c) (fresh c) x (node_queue c) (pool c) (free_size c) (node_mem_size c) (cache_entry_gc c) (cache_hdr_gc c) (eviction_list c) (clock c).
Definition set_node_queue (x : list nat) (c : RadixCache) : RadixCache :=
  Radix (nodes c) (fresh c) (cache_root c) x (pool c) (free_size c) (node_mem_size c) (cache_entry_gc c) (cache_hdr_gc c) (eviction_list c) (clock c).
Definition set_pool (x : NumaObjectPool CacheEntry) (c : RadixCache) : RadixCache :=
  Radix (nodes c) (fresh c) (cache_root c) (node_queue c) x (free_size c) (node_mem_size c) (cache_entry_gc c) (cache_hdr_gc c) (eviction_list c) (clock c).
Definition set_free_size (x : Z) (c : RadixCache) : RadixCache :=
  Radix (nodes c) (fresh c) (cache_root c) (node_queue c) (pool c) x (node_mem_size c) (cache_entry_gc c) (cache_hdr_gc c) (eviction_list c) (clock c).
Definition set_node_mem_size (x : gmap nat Z) (c : RadixCache) : RadixCache :=
  Radix (nodes c) (fresh c) (cache_root c) (node_queue c) (pool c) (free_size c) x (cache_entry_gc c) (cache_hdr_gc c) (eviction_list c) (clock c).
Definition set_entry_gc (x : list nat) (c : RadixCache) : RadixCache :=
  Radix (nodes c) (fresh c) (cache_root c) (node_queue c) (pool c) (free_size c) (node_mem_size c) x (cache_hdr_gc c) (eviction_list c) (clock c).
Definition set_hdr_gc (x : list nat) (c : RadixCache) : RadixCache :=
  Radix (nodes c) (fresh c) (cache_root c) (node_queue c) (pool c) (free_size c) (node_mem_size c) (cache_entry_gc c) x (eviction_list c) (clock c).
Definition set_eviction_list (x : list ((nat * Z) * nat)) (c : RadixCache) : RadixCache :=
  Radix (nodes c) (fresh c) (cache_root c) (node_queue c) (pool c) (free_size c) (node_mem_size c) (cache_entry_gc c) (cache_hdr_gc c) x (clock c).
Definition set_clock (x : nat → Z) (c : RadixCache) : RadixCache :=
  Radix (nodes c) (fresh c) (cache_root c) (node_queue c) (pool c) (free_size c) (node_mem_size c) (cache_entry_gc c) (cache_hdr_gc c) (eviction_list c) x.

(** ** Accesses *)
Definition rd {A} (f : RadixCache → A) : rp A := atomic (λ c, (f c, c)).
Definition wr (f : RadixCache → RadixCache) : rp unit := atomic (λ c, (tt, f c)).

Definition now_ns : rp Z := atomic (λ c, (clock c 0%nat, set_clock (λ i, clock c (S i)) c)).
Definition new_id : rp nat := atomic (λ c, (fresh c, set_fresh (S (fresh c)) c)).
Definition deref (n : nat) : rp CacheNode :=
  atomic_res (λ c, match nodes c !! n with Some x => Ok (x, c) | None => Fail EUndef end).
Definition put_node (n : nat) (x : CacheNode) : rp unit := wr (λ c, set_nodes (<[n := x]> (nodes c)) c).
Definition delete_node (n : nat) : rp unit := wr (λ c, set_nodes (delete n (nodes c)) c).
Definition deref_entry (e : nat) : rp CacheEntry :=
  atomic_res (λ c, match objects (pool c) !! e with Some x => Ok (x, c) | None => Fail EUndef end).
Definition slot_of (n : CacheNode) (b : Z) : CacheNodeValue := default (CNV None None) (records n !! b).

(** [records[b]], which creates the slot. *)
Definition record_at (n : nat) (b : Z) : rp CacheNodeValue :=
  atomic_res (λ c, match nodes c !! n with
                   | Some x => Ok (slot_of x b, set_nodes (<[n := CNode (header x) (<[b := slot_of x b]> (records x))]> (nodes c)) c)
                   | None => Fail EUndef end).

(** The compare-and-swaps: the value found. *)
Definition cas_next (n : nat) (b : Z) (old new : option nat) : rp (option nat) :=
  atomic_res (λ c, match nodes c !! n with
                   | Some x =>
                     let v := slot_of x b in
                     Ok (next v, if decide (next v = old)
                                 then set_nodes (<[n := CNode (header x) (<[b := CNV (cache_entry v) new]> (records x))]> (nodes c)) c
                                 else c)
                   | None => Fail EUndef end).
Definition cas_entry (n : nat) (b : Z) (old new : option nat) : rp bool :=
  atomic_res (λ c, match nodes c !! n with
                   | Some x =>
                     let v := slot_of x b in
                     if decide (cache_entry v = old)
                     then Ok (true, set_nodes (<[n := CNode (header x) (<[b := CNV new (next v)]> (records x))]> (nodes c)) c)
                     else Ok (false, c)
                   | None => Fail EUndef end).
Definition cas_header (n : nat) (old : nat) (new : nat * CacheHeader) : rp bool :=
  atomic_res (λ c, match nodes c !! n with
                   | Some x => if decide ((header x).1 = old)
                               then Ok (true, set_nodes (<[n := CNode new (records x)]> (nodes c)) c)
                               else Ok (false, c)
                   | None => Fail EUndef end).

(** ** [FreeMemManager] *)
Definition consume (_size : Z) : rp unit := wr (λ c, set_free_size (sint 64 (free_size c - _size)) c).
Definition mem_free (_size : Z) : rp unit := wr (λ c, set_free_size (sint 64 (free_size c + _size)) c).
Definition remain_size : rp Z := rd free_size.

(** [consume_by_node]: the size last recorded for the node is replaced. *)
Definition consume_by_node (n : nat) : rp unit :=
  x ← deref n;
  let new_size := node_content_size x in
  old ← atomic (λ c, (node_mem_size c !! n, set_node_mem_size (<[n := new_size]> (node_mem_size c)) c));
  let old_size := default 0 old in
  if new_size =? old_size then mret tt
  else wr (λ c, set_free_size (sint 64 (free_size c - new_size + old_size)) c).

(** ** Garbage collection *)

(** [_safely_delete] of an entry: entries leave the queue once it is longer
    than the epoch. *)
Fixpoint drain_entry_gc (fuel : nat) : rp unit :=
  match fuel with
  | O => Crash EFuel
  | S fuel =>
    n ← rd (λ c, length (cache_entry_gc c));
    if (safely_free_epoch <? n)%nat then
      next ← atomic (λ c, match cache_entry_gc c with
                          | e :: l => (Some e, set_entry_gc l c)
                          | [] => (None, c)
                          end);
      match next with
      | Some e => atomic_res (λ c, match release (pool c) e with Ok p => Ok (tt, set_pool p c) | Fail e => Fail e end)
      | None => mret tt
      end ;;
      drain_entry_gc fuel
    else mret tt
  end.

Fixpoint drain_hdr_gc (fuel : nat) : rp unit :=
  match fuel with
  | O => Crash EFuel
  | S fuel =>
    n ← rd (λ c, length (cache_hdr_gc c));
    if (safely_free_epoch <? n)%nat then
      wr (λ c, set_hdr_gc (tail (cache_hdr_gc c)) c) ;; drain_hdr_gc fuel
    else mret tt
  end.

Section radix.
(** [fuel] bounds each retry loop (the eviction loop also runs once for every
    element of its list); [cache_size] is in MB. *)
Context (fuel : nat) (cache_size : Z).

Definition _safely_delete_entry (e : nat) : rp unit :=
  wr (λ c, set_entry_gc (cache_entry_gc c ++ [e]) c) ;; drain_entry_gc fuel.
Definition _safely_delete_header (h : nat) : rp unit :=
  wr (λ c, set_hdr_gc (cache_hdr_gc c ++ [h]) c) ;; drain_hdr_gc fuel.

(** [RadixCache(cache_size, dsm)]; node 0 and header 0 are the root's. *)
Definition radix_new (clock : nat → Z) : RadixCache :=
  Radix {[ 0%nat := CNode (0%nat, CH 0 []) ∅ ]} 1 0 [0%nat] pool_new (sint 64 (MB * cache_size)) ∅ [] [] [] clock.

Definition push_evict (n : nat) (b : Z) (e : nat) : rp unit :=
  wr (λ c, set_eviction_list (eviction_list c ++ [((n, b), e)]) c).
Definition push_node (n : nat) : rp unit := wr (λ c, set_node_queue (node_queue c ++ [n]) c).

Definition consume_nested (nested : option nat) : rp unit :=
  match nested with Some n => consume_by_node n | None => mret tt end.
Definition delete_nested (nested : option nat) : rp unit :=
  match nested with Some n => delete_node n | None => mret tt end.
Definition consume_entry (e : nat) : rp unit := x ← deref_entry e; consume (content_size x).

(** The header of a node against the bytes from it: the first position where
    the byte array ends or differs. *)
Fixpoint header_mismatch (byte_array : CacheKey) (depth : Z) (partial : list byte) (i : Z) : res (option (Z * byte * byte)) :=
  match partial with
  | [] => Ok None
  | q :: partial =>
    cur_partial ← idx_ byte_array (depth + i);
    if (depth + i =? Z.of_nat (length byte_array) - 1) || negb (cur_partial =? q)
    then Ok (Some (i, q, cur_partial))
    else header_mismatch byte_array depth partial (i + 1)
  end.

(** The split of [node] at position [i] of its header [hdr]: [None] when it is
    done, else the node to go on with. *)
Definition insert_split (byte_array : CacheKey) (new_entry : nat) (parent : option nat) (node : nat) (idx : Z)
    (hdr : nat * CacheHeader) (i : Z) (q cur_partial : byte) : rp (option nat) :=
  let partial_len := ch_depth hdr.2 + i - idx in
  new_node ← new_id; nid ← new_id; hid ← new_id; hid' ← new_id;
  '(nn, nested) ← pure (split_cache_node hid hid' nid byte_array idx partial_len q node cur_partial new_entry)
    : rp (CacheNode * option CacheNode);
  put_node new_node nn ;;
  match nested with Some x => put_node nid x | None => mret tt end ;;
  let nested_node := match nested with Some _ => Some nid | None => None end in
  parent_node ← pure (match parent with Some n => Ok n | None => Fail EUndef end) : rp nat;
  b ← pure (idx_ byte_array (idx - 1));
  record_at parent_node b ;;
  ret_node ← cas_next parent_node b (Some node) (Some new_node);
  again ← (if decide (ret_node = Some node) then
             hid'' ← new_id;
             ok ← cas_header node hdr.1 (hid'', cache_split_header hdr.2 i);
             (if ok : bool then _safely_delete_header hdr.1 else mret tt) ;;
             consume_by_node new_node ;; consume_nested nested_node ;;
             consume_by_node node ;; consume_entry new_entry ;;
             mret None
           else
             match ret_node with
             | Some n => delete_node new_node ;; delete_nested nested_node ;; mret (Some n)
             | None =>
               ret ← cas_next parent_node b None (Some new_node);
               match ret with
               | Some n => delete_node new_node ;; delete_nested nested_node ;; mret (Some n)
               | None => consume_by_node new_node ;; consume_nested nested_node ;; consume_entry new_entry ;; mret None
               end
             end) : rp (option nat);
  match again with
  | Some n => mret (Some n)
  | None =>
    push_node new_node ;;
    match nested_node with Some n => push_node n | None => mret tt end ;;
    last_byte ← pure (idx_ byte_array (Z.of_nat (length byte_array) - 1));
    match nested_node with
    | Some n => push_evict n last_byte new_entry
    | None => push_evict new_node cur_partial new_entry
    end ;;
    mret None
  end.

(** The last level. *)
Definition insert_here (node : nat) (partial : byte) (new_entry : nat) : rp unit :=
  v ← record_at node partial;
  ok ← cas_entry node partial (cache_entry v) (Some new_entry);
  if ok : bool then
    consume_by_node node ;; consume_entry new_entry ;;
    match cache_entry v with
    | Some old => x ← deref_entry old; mem_free (content_size x) ;; _safely_delete_entry old
    | None => mret tt
    end ;;
    push_evict node partial new_entry
  else atomic_res (λ c, match release (pool c) new_entry with Ok p => Ok (tt, set_pool p c) | Fail e => Fail e end).

(** An internal level without a child: [None] when the new leaf is in place,
    else the child another thread put there. *)
Definition insert_child (byte_array : CacheKey) (node : nat) (idx : Z) (partial : byte) (new_entry : nat) : rp (option nat) :=
  next_node ← new_id; hid ← new_id;
  x ← pure (leaf_cache_node hid byte_array (idx + 1) new_entry);
  put_node next_node x ;;
  ret_node ← cas_next node partial None (Some next_node);
  match ret_node with
  | None =>
    push_node next_node ;;
    b ← pure (idx_ byte_array (Z.of_nat (length byte_array) - 1));
    push_evict next_node b new_entry ;;
    consume_by_node node ;; consume_by_node next_node ;; consume_entry new_entry ;;
    mret None
  | Some n => delete_node next_node ;; mret (Some n)
  end.

Fixpoint _insert (fuel : nat) (byte_array : CacheKey) (new_entry : nat) (parent : option nat) (node : nat) (idx : Z) : rp unit :=
  match fuel with
  | O => Crash EFuel
  | S fuel =>
    x ← deref node;
    let hdr := header x in
    m ← pure (header_mismatch byte_array (ch_depth hdr.2) (ch_partial hdr.2) 0);
    match m with
    | Some (i, q, cur_partial) =>
      again ← insert_split byte_array new_entry parent node idx hdr i q cur_partial;
      match again with Some n => _insert fuel byte_array new_entry parent n idx | None => mret tt end
    | None =>
      let idx := ch_depth hdr.2 + Z.of_nat (length (ch_partial hdr.2)) in
      partial ← pure (idx_ byte_array idx);
      if idx =? Z.of_nat (length byte_array) - 1 then insert_here node partial new_entry
      else
        v ← record_at node partial;
        match next v with
        | Some n => _insert fuel byte_array new_entry (Some node) n (idx + 1)
        | None =>
          again ← insert_child byte_array node idx partial new_entry;
          match again with Some n => _insert fuel byte_array new_entry (Some node) n (idx + 1) | None => mret tt end
        end
    end
  end.

(** [invalidate(entry_ptr_ptr, entry_ptr)] *)
Definition radix_invalidate (h : (nat * Z) * nat) : rp unit :=
  ok ← cas_entry h.1.1 h.1.2 (Some h.2) None;
  if ok : bool then
    x ← deref_entry h.2; mem_free (content_size x) ;; _safely_delete_entry h.2
  else mret tt.

(** [_evict]: whether the eviction list is empty at the end. *)
Fixpoint evict_loop (fuel : nat) : rp bool :=
  match fuel with
  | O => Crash EFuel
  | S fuel =>
    next ← atomic (λ c, match eviction_list c with
                        | e :: l => (Some e, set_eviction_list l c)
                        | [] => (None, c)
                        end);
    match next with
    | Some (s, e) =>
      x ← deref s.1;
      if decide (cache_entry (slot_of x s.2) = Some e) then radix_invalidate (s, e) else mret tt
    | None => mret tt
    end ;;
    flag ← rd (λ c, bool_decide (eviction_list c = []));
    r ← remain_size;
    if (r <? 0) && negb flag then evict_loop fuel else mret flag
  end.

Definition _evict : rp unit :=
  n ← rd (λ c, length (eviction_list c));
  flag ← evict_loop (fuel + n);
  if flag : bool then
    old ← rd cache_root;
    n ← new_id; hid ← new_id;
    put_node n (CNode (hid, CH 0 []) ∅) ;;
    ok ← atomic (λ c, if decide (cache_root c = old) then (true, set_cache_root n c) else (false, c));
    if ok : bool then
      wr (λ c, set_node_mem_size ∅ (set_free_size (sint 64 (MB * cache_size)) c)) ;;
      root ← rd cache_root;
      wr (set_node_queue [root])
    else mret tt
  else mret tt.

Definition radix_add_to_cache (k : Key) (p_node : InternalPage) (node_addr : GlobalAddress) : rp unit :=
  let depth := h_depth (pg_hdr p_node) - 1 in
  if depth =? 0 then mret tt
  else
    byte_array ← pure (cache_key k p_node);
    now ← now_ns;
    e ← pure (entry_make now p_node node_addr);
    new_entry ← atomic_res (λ c, match allocate pool_capacity (pool c) e with
                                 | Ok (i, p) => Ok (i, set_pool p c)
                                 | Fail e => Fail e
                                 end);
    root ← rd cache_root;
    _insert fuel byte_array new_entry None root 0 ;;
    r ← remain_size;
    if r <? 0 then _evict else mret tt.

(** [SearchRet] *)
Record SearchRet : Set := SR { entry_ptr_ptr : nat * Z; entry_ptr : option nat; next_idx : Z }.

(** [_search]: the stack, top first. *)
Fixpoint _search (fuel : nat) (byte_array : CacheKey) (node : nat) (idx : Z) (ret : list SearchRet) : rp (list SearchRet) :=
  match fuel with
  | O => Crash EFuel
  | S fuel =>
    if Z.of_nat (length byte_array) <=? idx then mret ret
    else
      x ← deref node;
      let hdr := (header x).2 in
      m ← pure (header_mismatch byte_array (ch_depth hdr) (ch_partial hdr) 0);
      match m with
      | Some _ => mret ret
      | None =>
        let idx := ch_depth hdr + Z.of_nat (length (ch_partial hdr)) in
        partial ← pure (idx_ byte_array idx);
        r_entry ← atomic_res (λ c, match nodes c !! node with Some x => Ok (records x !! partial, c) | None => Fail EUndef end);
        match r_entry with
        | Some v =>
          let ret := SR (node, partial) (cache_entry v) (idx + 1) :: ret in
          match next v with
          | Some n => _search fuel byte_array n (idx + 1) ret
          | None => mret ret
          end
        | None => mret ret
        end
      end
  end.

(** The loop of [search_from_cache] over the stack. *)
Fixpoint pop_search (k : Key) (ret : list SearchRet) : rp (option (((nat * Z) * nat) * CacheEntry * Z)) :=
  match ret with
  | [] => mret None
  | item :: ret =>
    next_partial ← pure (at_ k (next_idx item));
    match entry_ptr item with
    | None => pop_search k ret
    | Some e =>
      x ← deref_entry e;
      now ← now_ns;
      if is_expired now x then
        radix_invalidate (entry_ptr_ptr item, e) ;; pop_search k ret
      else
        match find_record (ce_records x) next_partial 0 with
        | Some i => mret (Some ((entry_ptr_ptr item, e), x, i))
        | None => pop_search k ret
        end
    end
  end.

Definition radix_search_from_cache (k : Key) : rp (option (((nat * Z) * nat) * CacheEntry * Z)) :=
  root ← rd cache_root;
  ret ← _search fuel (take (Z.to_nat (keyLen - 1)) k) root 0 [];
  pop_search k ret.

#[export] Instance RadixCache_index : IndexCache := {|
  cache := RadixCache;
  handle := ((nat * Z) * nat);
  add_to_cache := radix_add_to_cache;
  search_from_cache := radix_search_from_cache;
  invalidate := radix_invalidate
|}.

(** [statistics]: the number of entries of each depth, over the nodes of the
    queue, and the number of their records. *)
Definition statistics (c : RadixCache) : gmap Z Z * Z :=
  foldl (λ '(cnt, kp_cnt) e, (<[ce_depth e := default 0 (cnt !! ce_depth e) + 1]> cnt,
                              kp_cnt + Z.of_nat (length (ce_records e))))
    (∅, 0)
    (omap (λ e, objects (pool c) !! e)
       (n ← node_queue c; match nodes c !! n with
                          | Some x => omap (λ v, cache_entry v.2) (map_to_list (records x))
                          | None => []
                          end)).
End radix.
