(* ===== verification/RadixLaws.v ===== *)
(** * Correctness of the radix index cache

    The invariant of the trie, that every operation keeps it, and that a lookup
    only gives copies of pages that were added, for the part of the key they
    were added under: [RadixCache] satisfies [IndexCacheLaws]. *)

From Stdlib Require Import ZArith Lia Bool.
From stdpp Require Import base tactics decidable option numbers gmap fin_maps functions list.
From S2P Require Import Prelude.
From S2P Require Import Common.
From S2P Require Import Keys.
From S2P Require Import Address.
From S2P Require Import Nodes.
From S2P Require Import Process.
From S2P Require Import IndexCache.
From S2P Require Import NumaPool.
From S2P Require Import RadixCache.

Lemma pool_capacity_val : Z.of_nat pool_capacity = 5000000.
Proof. unfold pool_capacity. rewrite !Nat2Z.inj_mul. reflexivity. Qed.
#[local] Opaque pool_capacity.

(** ** The trie as functions

    The header of a node and the slot of a byte; a slot that no access has
    created is empty. *)
Definition hdr (ns : gmap nat CacheNode) (n : nat) : option (nat * CacheHeader) := header <$> ns !! n.
Definition slot (ns : gmap nat CacheNode) (s : nat * Z) : CacheNodeValue :=
  match ns !! s.1 with Some x => slot_of x s.2 | None => CNV None None end.

Definition put_slot (s : nat * Z) (v : CacheNodeValue) (ns : gmap nat CacheNode) : gmap nat CacheNode :=
  match ns !! s.1 with
  | Some x => <[s.1 := CNode (header x) (<[s.2 := v]> (records x))]> ns
  | None => ns
  end.

Lemma slot_of_insert h r b v b' : slot_of (CNode h (<[b := v]> r)) b' = if decide (b' = b) then v else slot_of (CNode h r) b'.
Proof.
  unfold slot_of. cbn. case_decide as E; [subst; by rewrite lookup_insert_eq|by rewrite lookup_insert_ne].
Qed.

Lemma slot_put_slot s v ns s' :
  is_Some (ns !! s.1) → slot (put_slot s v ns) s' = if decide (s' = s) then v else slot ns s'.
Proof.
  intros [x Hx]. unfold put_slot, slot. rewrite Hx. destruct s as [n b], s' as [n' b']. cbn [fst snd] in *.
  destruct (decide (n' = n)) as [-> |Hn].
  - rewrite lookup_insert_eq, slot_of_insert, Hx. destruct (decide (b' = b)) as [-> |]; [by rewrite decide_True|].
    rewrite decide_False by congruence. by destruct x.
  - rewrite lookup_insert_ne by done. rewrite decide_False by congruence. done.
Qed.

Lemma hdr_put_slot s v ns n : hdr (put_slot s v ns) n = hdr ns n.
Proof.
  unfold put_slot, hdr. destruct (ns !! s.1) as [x|] eqn:E; [|done].
  destruct (decide (n = s.1)) as [-> |]; [rewrite lookup_insert_eq, E|rewrite lookup_insert_ne]; done.
Qed.

Lemma slot_insert n x ns s : slot (<[n := x]> ns) s = if decide (s.1 = n) then slot_of x s.2 else slot ns s.
Proof. unfold slot. case_decide as E; [rewrite E, lookup_insert_eq|rewrite lookup_insert_ne]; done. Qed.

Lemma hdr_insert n x ns n' : hdr (<[n := x]> ns) n' = if decide (n' = n) then Some (header x) else hdr ns n'.
Proof. unfold hdr. case_decide as E; [rewrite E, lookup_insert_eq|rewrite lookup_insert_ne]; done. Qed.

Lemma hdr_is_Some ns n : is_Some (hdr ns n) ↔ is_Some (ns !! n).
Proof. unfold hdr. apply fmap_is_Some. Qed.

(** ** The invariant *)
Section trie.
Context (F : Key → InternalPage → GlobalAddress → Prop).

(** The header of the node at the path [π], which ends with it. *)
Definition header_at (π : CacheKey) (h : CacheHeader) : Prop :=
  0 <= ch_depth h ∧ ch_depth h + Z.of_nat (length (ch_partial h)) = Z.of_nat (length π) ∧
  ch_partial h = drop (Z.to_nat (ch_depth h)) π ∧ Z.of_nat (length π) < keyLen.

Definition unowned (sl : nat * Z → CacheNodeValue) (e : nat) : Prop := ∀ s, cache_entry (sl s) ≠ Some e.
Definition orphan (sl : nat * Z → CacheNodeValue) (n : nat) : Prop := ∀ s, next (sl s) ≠ Some n.

(** The node [m] hangs at the byte [b] of a node at [π]. *)
Definition hangs (P : nat → CacheKey) (hd : nat → option (nat * CacheHeader)) (s : nat * Z) (m : nat) : Prop :=
  ∃ h, hd m = Some h ∧ ch_depth h.2 = Z.of_nat (length (P s.1)) + 1 ∧ (P s.1 ++ [s.2]) `prefix_of` P m.

(** [P n] is the path of the node [n]. *)
Record trie (P : nat → CacheKey) (hd : nat → option (nat * CacheHeader)) (sl : nat * Z → CacheNodeValue)
    (obj : nat → option CacheEntry) : Prop := {
  t_dom s : hd s.1 = None → sl s = CNV None None;
  t_hdr n h : hd n = Some h → header_at (P n) h.2;
  t_next s m : next (sl s) = Some m → hangs P hd s m;
  t_next_inj s s' m : next (sl s) = Some m → next (sl s') = Some m → s = s';
  t_entry s e : cache_entry (sl s) = Some e → ∃ ce, obj e = Some ce ∧ entry_fact F (P s.1 ++ [s.2]) ce;
  t_entry_inj s s' e : cache_entry (sl s) = Some e → cache_entry (sl s') = Some e → s = s'
}.

Lemma trie_ext P hd hd' sl sl' obj obj' :
  (∀ n, hd' n = hd n) → (∀ s, sl' s = sl s) → (∀ e, obj' e = obj e) → trie P hd sl obj → trie P hd' sl' obj'.
Proof.
  intros Hhd Hsl Hobj [Hdom Hh Hn Hni He Hei]. split.
  - intros s. rewrite Hhd, Hsl. auto.
  - intros n h. rewrite Hhd. auto.
  - intros s m. rewrite Hsl. intros Hs. destruct (Hn s m Hs) as (h & ? & ?). exists h. by rewrite Hhd.
  - intros s s' m. rewrite !Hsl. eauto.
  - intros s e. rewrite Hsl. intros Hs. destruct (He s e Hs) as (ce & ? & ?). exists ce. by rewrite Hobj.
  - intros s s' e. rewrite !Hsl. eauto.
Qed.

#[export] Instance trie_proper P :
  Proper (pointwise_relation nat eq ==> pointwise_relation (nat * Z) eq ==> pointwise_relation nat eq ==> iff) (trie P).
Proof. intros hd hd' Hhd sl sl' Hsl obj obj' Hobj. split; apply trie_ext; intros; by symmetry || done. Qed.

(** ** The transformations that keep it *)

(** A new node, without slots. *)
Lemma trie_new P hd sl obj n π h :
  trie P hd sl obj → hd n = None → header_at π h.2 → trie (<[n := π]> P) (<[n := Some h]> hd) sl obj.
Proof.
  intros HT Hn Hh.
  assert (∀ s : nat * Z, hd s.1 ≠ None → (<[n := π]> P) s.1 = P s.1) as HP.
  { intros s Hs. rewrite fn_lookup_insert_ne; [done|]. intros E. by rewrite <- E in Hs. }
  assert (∀ s : nat * Z, sl s ≠ CNV None None → hd s.1 ≠ None) as Hs by (intros s Hs E; by apply Hs, (t_dom _ _ _ _ HT)).
  split.
  - intros s. destruct (decide (s.1 = n)) as [-> |]; [by rewrite fn_lookup_insert|].
    rewrite fn_lookup_insert_ne by done. apply HT.
  - intros m hm. destruct (decide (m = n)) as [-> |].
    + rewrite !fn_lookup_insert. by intros [= <-].
    + rewrite !fn_lookup_insert_ne by done. apply HT.
  - intros s m Hm. destruct (t_next _ _ _ _ HT s m Hm) as (hm & ? & ?). exists hm.
    assert (m ≠ n) by congruence. rewrite HP, !fn_lookup_insert_ne; [done..|].
    apply Hs. intros E. by rewrite E in Hm.
  - apply HT.
  - intros s e He. rewrite HP; [by apply HT|]. apply Hs. intros E. by rewrite E in He.
  - apply HT.
Qed.

(** Another child: an orphan at a longer path, or none. *)
Lemma trie_next P hd sl obj s v mo :
  trie P hd sl obj → v = CNV (cache_entry (sl s)) mo → hd s.1 ≠ None →
  match mo with Some m => orphan sl m ∧ hangs P hd s m | None => True end →
  trie P hd (<[s := v]> sl) obj.
Proof.
  intros HT -> Hs Hm.
  assert (∀ s', cache_entry ((<[s := CNV (cache_entry (sl s)) mo]> sl) s') = cache_entry (sl s')) as He.
  { intros s'. destruct (decide (s' = s)) as [-> |]; [by rewrite fn_lookup_insert|by rewrite fn_lookup_insert_ne]. }
  split.
  - intros s' Hs'. rewrite fn_lookup_insert_ne by (intros <-; done). by apply HT.
  - apply HT.
  - intros s' m. destruct (decide (s' = s)) as [-> |].
    + rewrite fn_lookup_insert. cbn. intros ->. apply Hm.
    + rewrite fn_lookup_insert_ne by done. apply HT.
  - intros s1 s2 m. destruct (decide (s1 = s)) as [-> |], (decide (s2 = s)) as [-> |]; [done|..].
    + rewrite fn_lookup_insert, fn_lookup_insert_ne by done. cbn. intros -> E. by apply Hm in E.
    + rewrite fn_lookup_insert, fn_lookup_insert_ne by done. cbn. intros E ->. by apply Hm in E.
    + rewrite !fn_lookup_insert_ne by done. apply HT.
  - intros s' e. rewrite He. apply HT.
  - intros s1 s2 e. rewrite !He. apply HT.
Qed.

(** Another entry: one that no slot owns, or none. *)
Lemma trie_entry P hd sl obj s v eo :
  trie P hd sl obj → v = CNV eo (next (sl s)) → hd s.1 ≠ None →
  match eo with Some e => unowned sl e ∧ ∃ ce, obj e = Some ce ∧ entry_fact F (P s.1 ++ [s.2]) ce | None => True end →
  trie P hd (<[s := v]> sl) obj.
Proof.
  intros HT -> Hs He.
  assert (∀ s', next ((<[s := CNV eo (next (sl s))]> sl) s') = next (sl s')) as Hn.
  { intros s'. destruct (decide (s' = s)) as [-> |]; [by rewrite fn_lookup_insert|by rewrite fn_lookup_insert_ne]. }
  split.
  - intros s' Hs'. rewrite fn_lookup_insert_ne by (intros <-; done). by apply HT.
  - apply HT.
  - intros s' m. rewrite Hn. apply HT.
  - intros s1 s2 m. rewrite !Hn. apply HT.
  - intros s' e. destruct (decide (s' = s)) as [-> |].
    + rewrite fn_lookup_insert. cbn. intros ->. apply He.
    + rewrite fn_lookup_insert_ne by done. apply HT.
  - intros s1 s2 e. destruct (decide (s1 = s)) as [-> |], (decide (s2 = s)) as [-> |]; [done|..].
    + rewrite fn_lookup_insert, fn_lookup_insert_ne by done. cbn. intros -> E. by apply He in E.
    + rewrite fn_lookup_insert, fn_lookup_insert_ne by done. cbn. intros E ->. by apply He in E.
    + rewrite !fn_lookup_insert_ne by done. apply HT.
Qed.

(** Another header for an orphan. *)
Lemma trie_hdr P hd sl obj n h :
  trie P hd sl obj → hd n ≠ None → orphan sl n → header_at (P n) h.2 → trie P (<[n := Some h]> hd) sl obj.
Proof.
  intros HT Hn Ho Hh. split.
  - intros s. destruct (decide (s.1 = n)) as [-> |]; [by rewrite fn_lookup_insert|].
    rewrite fn_lookup_insert_ne by done. apply HT.
  - intros m hm. destruct (decide (m = n)) as [-> |].
    + rewrite fn_lookup_insert. by intros [= <-].
    + rewrite fn_lookup_insert_ne by done. apply HT.
  - intros s m Hm. destruct (t_next _ _ _ _ HT s m Hm) as (hm & ? & ?). exists hm.
    rewrite fn_lookup_insert_ne; [done|]. intros ->. by apply Ho in Hm.
  - apply HT.
  - apply HT.
  - apply HT.
Qed.

(** Objects that no slot owns may come and go. *)
Lemma trie_obj P hd sl obj obj' :
  trie P hd sl obj → (∀ s e ce, cache_entry (sl s) = Some e → obj e = Some ce → obj' e = Some ce) → trie P hd sl obj'.
Proof.
  intros HT Ho. split; [apply HT..| |apply HT]. intros s e He.
  destruct (t_entry _ _ _ _ HT s e He) as (ce & ? & ?). exists ce. eauto.
Qed.
End trie.

(** The state of the cache, but for the accounting of memory and time. *)
Record core F P (ns : gmap nat CacheNode) (fr root : nat) (pl : NumaObjectPool CacheEntry) (egc hgc : list nat)
    (ev : list ((nat * Z) * nat)) : Prop := {
  c_trie : trie F P (hdr ns) (slot ns) (λ e, objects pl !! e);
  c_fresh n : is_Some (ns !! n) → (n < fr)%nat;
  c_root : is_Some (ns !! root) ∧ P root = [];
  c_pool : pool_wf pool_capacity pl;
  c_nodup : NoDup egc;
  c_gc e : e ∈ egc → is_Some (objects pl !! e) ∧ unowned (slot ns) e;
  c_gc_len : (length egc ≤ safely_free_epoch)%nat;
  c_hgc_len : (length hgc ≤ safely_free_epoch)%nat;
  c_evict : Forall (λ x, is_Some (ns !! x.1.1)) ev
}.

Definition radix_inv F P (c : RadixCache) : Prop :=
  core F P (nodes c) (fresh c) (cache_root c) (pool c) (cache_entry_gc c) (cache_hdr_gc c) (eviction_list c).

(** A live entry in no slot and not waiting to be freed. *)
Definition spare (c : RadixCache) (e : nat) : Prop :=
  is_Some (objects (pool c) !! e) ∧ unowned (slot (nodes c)) e ∧ e ∉ cache_entry_gc c.

(** What the operations leave: nodes are not freed, and no entry is added. *)
Definition grown (c c' : RadixCache) : Prop :=
  (∀ n, is_Some (nodes c !! n) → is_Some (nodes c' !! n)) ∧ (size (objects (pool c')) ≤ size (objects (pool c)))%nat.
#[export] Instance grown_preorder : PreOrder grown.
Proof. split; [by split|]. intros c1 c2 c3 [H1 H2] [H3 H4]. split; [auto|lia]. Qed.

(** *** Garbage collection *)
Section gc.
Context {F P ns fr root pl egc hgc ev} (HC : core F P ns fr root pl egc hgc ev).

Lemma core_gc_push e :
  is_Some (objects pl !! e) → unowned (slot ns) e → e ∉ egc → (length egc < safely_free_epoch)%nat →
  core F P ns fr root pl (egc ++ [e]) hgc ev.
Proof.
  intros He Hu Hn Hl. destruct HC. split; try done.
  - apply NoDup_app. split; [done|]. split; [set_solver|apply NoDup_singleton].
  - intros e'. rewrite elem_of_app, list_elem_of_singleton. intros [?| ->]; auto.
  - rewrite length_app. cbn. lia.
Qed.

(** The oldest entry goes when the new one comes. *)
Lemma core_gc_swap e :
  is_Some (objects pl !! e) → unowned (slot ns) e → e ∉ egc → (length egc = safely_free_epoch)%nat →
  ∃ e1 l pl', egc ++ [e] = e1 :: l ∧ release pl e1 = Ok pl' ∧ core F P ns fr root pl' l hgc ev ∧
    (size (objects pl') ≤ size (objects pl))%nat.
Proof.
  intros He Hu Hn Hl. pose proof HC as [HT Hfr Hroot Hp Hnd Hgc _ Hh Hev].
  assert (NoDup (egc ++ [e])) as Hnd' by (apply NoDup_app; split_and!; [done|set_solver|apply NoDup_singleton]).
  assert (∀ e', e' ∈ egc ++ [e] → is_Some (objects pl !! e') ∧ unowned (slot ns) e') as Hgc'.
  { intros e'. rewrite elem_of_app, list_elem_of_singleton. intros [?| ->]; auto. }
  destruct (egc ++ [e]) as [|e1 l] eqn:E; [by apply app_eq_nil in E as [_ ?]|].
  apply NoDup_cons in Hnd' as [Hn1 Hnd']. destruct (Hgc' e1) as [[ce Hce] Hu1]; [set_solver|].
  destruct (release_wf _ _ _ _ Hp Hce) as (pl' & Hr & Hp' & Ho). exists e1, l, pl'. do 2 (split; [done|]). split.
  - split; try done.
    + eapply trie_obj; [exact HT|]. intros s e' ce' Hs Hce'. rewrite Ho, lookup_delete_ne; [done|].
      intros ->. by apply Hu1 in Hs.
    + intros e' He'. destruct (Hgc' e') as [[ce' Hce'] ?]; [set_solver|]. split; [|done].
      exists ce'. rewrite Ho, lookup_delete_ne; [done|]. intros ->. done.
    + apply (f_equal length) in E. rewrite length_app in E. cbn in E. lia.
  - rewrite Ho. rewrite (map_size_delete_Some (K:=nat)) by done. lia.
Qed.
End gc.

(** Other nodes, the rest as it was. *)
Lemma core_nodes {F P ns fr root pl egc hgc ev} P' ns' fr' :
  core F P ns fr root pl egc hgc ev → trie F P' (hdr ns') (slot ns') (λ e, objects pl !! e) →
  (∀ n, is_Some (ns' !! n) → (n < fr')%nat) → (∀ n, is_Some (ns !! n) → is_Some (ns' !! n)) →
  P' root = P root → (∀ e, e ∈ egc → unowned (slot ns') e) → core F P' ns' fr' root pl egc hgc ev.
Proof.
  intros [] HT Hfr Hns HP Hu. split; try done.
  - destruct c_root0. by rewrite HP; auto.
  - intros e He. split; [by apply c_gc0|auto].
  - eapply Forall_impl; [done|]. cbn. auto.
Qed.

Lemma put_slot_is_Some s v ns n : is_Some (put_slot s v ns !! n) ↔ is_Some (ns !! n).
Proof. by rewrite <- !hdr_is_Some, hdr_put_slot. Qed.

Lemma put_slot_other s v ns n : n ≠ s.1 → put_slot s v ns !! n = ns !! n.
Proof. intros Hn. unfold put_slot. case_match; [by rewrite lookup_insert_ne|done]. Qed.

Lemma core_touch {F P ns fr root pl egc hgc ev} s :
  core F P ns fr root pl egc hgc ev → core F P (put_slot s (slot ns s) ns) fr root pl egc hgc ev.
Proof.
  intros HC. destruct (decide (is_Some (ns !! s.1))) as [Hs|Hs].
  2:{ unfold put_slot. apply eq_None_not_Some in Hs. by rewrite Hs. }
  assert (∀ s', slot (put_slot s (slot ns s) ns) s' = slot ns s') as Hsl.
  { intros s'. rewrite slot_put_slot by done. by case_decide; subst. }
  eapply core_nodes; [exact HC|..].
  - eapply trie_ext; [intros; apply hdr_put_slot|done|done|apply HC].
  - intros n. rewrite put_slot_is_Some. apply HC.
  - intros n. by rewrite put_slot_is_Some.
  - done.
  - intros e He s'. rewrite Hsl. by apply (c_gc _ _ _ _ _ _ _ _ _ HC).
Qed.

Lemma core_entry {F P ns fr root pl egc hgc ev} s eo :
  core F P ns fr root pl egc hgc ev → is_Some (ns !! s.1) →
  match eo with
  | Some e => unowned (slot ns) e ∧ e ∉ egc ∧ ∃ ce, objects pl !! e = Some ce ∧ entry_fact F (P s.1 ++ [s.2]) ce
  | None => True
  end →
  core F P (put_slot s (CNV eo (next (slot ns s))) ns) fr root pl egc hgc ev.
Proof.
  intros HC Hs He. eapply core_nodes; [exact HC|..].
  - eapply trie_ext; [intros; apply hdr_put_slot|intros s'; by apply slot_put_slot|done|].
    eapply trie_ext; [done| |done|apply (trie_entry F _ _ _ _ s (CNV eo (next (slot ns s))) eo (c_trie _ _ _ _ _ _ _ _ _ HC));
      [done|by apply not_eq_None_Some, hdr_is_Some|]].
    + intros s'. cbn. case_decide as E; [subst; by rewrite fn_lookup_insert|by rewrite fn_lookup_insert_ne].
    + destruct eo; [|done]. destruct He as (? & _ & ?). done.
  - intros n. rewrite put_slot_is_Some. apply HC.
  - intros n. by rewrite put_slot_is_Some.
  - done.
  - intros e He' s'. rewrite slot_put_slot by done. pose proof (proj2 (c_gc _ _ _ _ _ _ _ _ _ HC e He') s') as Hu.
    case_decide; [|done]. cbn. destruct eo as [e'|]; [|done]. intros [= ->]. by apply He.
Qed.

Lemma slot_put_slot_fn s v ns s' : is_Some (ns !! s.1) → slot (put_slot s v ns) s' = (<[s := v]> (slot ns)) s'.
Proof.
  intros Hs. rewrite slot_put_slot by done.
  case_decide as E; [subst; by rewrite fn_lookup_insert|by rewrite fn_lookup_insert_ne].
Qed.

Lemma hdr_insert_fn n x ns n' : hdr (<[n := x]> ns) n' = (<[n := Some (header x)]> (hdr ns)) n'.
Proof. rewrite hdr_insert. case_decide as E; [subst; by rewrite fn_lookup_insert|by rewrite fn_lookup_insert_ne]. Qed.

Lemma hdr_None ns n : hdr ns n = None ↔ ns !! n = None.
Proof. unfold hdr. apply fmap_None. Qed.

(** No slot points to a node that does not exist. *)
Lemma trie_orphan F P ns obj n : trie F P (hdr ns) (slot ns) obj → ns !! n = None → orphan (slot ns) n.
Proof. intros HT Hn s Hs. destruct (t_next _ _ _ _ _ HT s n Hs) as (h & Hh & _). apply hdr_None in Hn. congruence. Qed.

(** A new leaf with one entry. *)
Lemma core_leaf {F P ns fr root pl egc hgc ev} m π h b e fr' :
  core F P ns fr root pl egc hgc ev → ns !! m = None → (fr ≤ fr')%nat → (m < fr')%nat → header_at π h.2 →
  unowned (slot ns) e → e ∉ egc → (∃ ce, objects pl !! e = Some ce ∧ entry_fact F (π ++ [b]) ce) →
  core F (<[m := π]> P) (<[m := CNode h {[ b := CNV (Some e) None ]}]> ns) fr' root pl egc hgc ev.
Proof.
  intros HC Hm Hfr Hmf Hh Hu He Hf. pose proof (c_trie _ _ _ _ _ _ _ _ _ HC) as HT.
  assert (∀ s, slot (<[m := CNode h {[ b := CNV (Some e) None ]}]> ns) s = (<[(m, b) := CNV (Some e) None]> (slot ns)) s) as Hsl.
  { intros [n' b']. rewrite slot_insert. cbn [fst snd]. case_decide as En.
    - subst n'. unfold slot_of. cbn [records]. destruct (decide (b' = b)) as [-> |Hb].
      + by rewrite lookup_singleton_eq, fn_lookup_insert.
      + rewrite lookup_singleton_ne, fn_lookup_insert_ne by congruence. unfold slot. cbn. by rewrite Hm.
    - by rewrite fn_lookup_insert_ne by congruence. }
  eapply core_nodes; [exact HC|..].
  - eapply trie_ext; [intros; apply hdr_insert_fn|exact Hsl|done|].
    eapply trie_entry; [apply (trie_new F P (hdr ns) (slot ns) _ m π h); [done|by apply hdr_None|done]| |..].
    + rewrite (t_dom _ _ _ _ _ HT (m, b)) by by apply hdr_None. done.
    + cbn. by rewrite fn_lookup_insert.
    + cbn. by rewrite fn_lookup_insert.
  - intros n [x Hx]. apply lookup_insert_Some in Hx as [[<- _]|[_ Hx]]; [done|].
    eapply Nat.lt_le_trans; [apply (c_fresh _ _ _ _ _ _ _ _ _ HC); by exists x|done].
  - intros n Hn. apply lookup_insert_is_Some'. by right.
  - apply fn_lookup_insert_ne. intros <-. destruct (c_root _ _ _ _ _ _ _ _ _ HC) as [[x Hx] _]. congruence.
  - intros e' He' s. rewrite Hsl. destruct (decide (s = (m, b))) as [-> |].
    + rewrite fn_lookup_insert. cbn. intros [= ->]. done.
    + rewrite fn_lookup_insert_ne by done. by apply (c_gc _ _ _ _ _ _ _ _ _ HC).
Qed.

(** A new root. *)
Lemma core_new_root {F P ns fr root pl egc hgc ev} m hid fr' :
  core F P ns fr root pl egc hgc ev → ns !! m = None → (fr ≤ fr')%nat → (m < fr')%nat →
  core F (<[m := []]> P) (<[m := CNode (hid, CH 0 []) ∅]> ns) fr' m pl egc hgc ev.
Proof.
  intros HC Hm Hfr Hmf. pose proof (c_trie _ _ _ _ _ _ _ _ _ HC) as HT.
  assert (∀ s, slot (<[m := CNode (hid, CH 0 []) ∅]> ns) s = slot ns s) as Hsl.
  { intros s. rewrite slot_insert. case_decide as E; [|done]. unfold slot. rewrite E, Hm.
    unfold slot_of. cbn [records]. by rewrite lookup_empty. }
  assert (core F (<[m := []]> P) (<[m := CNode (hid, CH 0 []) ∅]> ns) fr' root pl egc hgc ev) as [].
  { eapply core_nodes; [exact HC|..].
    - eapply trie_ext; [intros; apply hdr_insert_fn|exact Hsl|done|].
      apply trie_new; [done|by apply hdr_None|]. by split_and!.
    - intros n [x Hx]. apply lookup_insert_Some in Hx as [[<- _]|[_ Hx]]; [done|].
      eapply Nat.lt_le_trans; [apply (c_fresh _ _ _ _ _ _ _ _ _ HC); by exists x|done].
    - intros n Hn. apply lookup_insert_is_Some'. by right.
    - apply fn_lookup_insert_ne. intros <-. destruct (c_root _ _ _ _ _ _ _ _ _ HC) as [[x Hx] _]. congruence.
    - intros e He s. rewrite Hsl. by apply (c_gc _ _ _ _ _ _ _ _ _ HC). }
  split; try done. split; [by rewrite lookup_insert_eq|by rewrite fn_lookup_insert].
Qed.

(** A node that nothing points to becomes a child. *)
Lemma core_link {F P ns fr root pl egc hgc ev} s m :
  core F P ns fr root pl egc hgc ev → is_Some (ns !! s.1) → orphan (slot ns) m → hangs P (hdr ns) s m →
  core F P (put_slot s (CNV (cache_entry (slot ns s)) (Some m)) ns) fr root pl egc hgc ev.
Proof.
  intros HC Hs Ho Hh. eapply core_nodes; [exact HC|..].
  - eapply trie_ext; [intros; apply hdr_put_slot|intros; by apply slot_put_slot_fn|done|].
    eapply (trie_next _ _ _ _ _ s _ (Some m)); [apply HC|done|by apply not_eq_None_Some, hdr_is_Some|done].
  - intros n. rewrite put_slot_is_Some. apply HC.
  - intros n. by rewrite put_slot_is_Some.
  - done.
  - intros e He s'. rewrite slot_put_slot by done. pose proof (proj2 (c_gc _ _ _ _ _ _ _ _ _ HC e He) s') as Hu.
    case_decide; [by subst|done].
Qed.

(** Nodes with the same headers and slots. *)
Lemma core_ext {F P ns fr root pl egc hgc ev} ns' :
  core F P ns fr root pl egc hgc ev → (∀ n, hdr ns' n = hdr ns n) → (∀ s, slot ns' s = slot ns s) →
  core F P ns' fr root pl egc hgc ev.
Proof.
  intros HC Hh Hs. assert (∀ n, is_Some (ns' !! n) ↔ is_Some (ns !! n)) as Hd by (intros n; by rewrite <- !hdr_is_Some, Hh).
  eapply core_nodes; [exact HC|..].
  - eapply trie_ext; [exact Hh|exact Hs|done|apply HC].
  - intros n. rewrite Hd. apply HC.
  - intros n. by rewrite Hd.
  - done.
  - intros e He s. rewrite Hs. by apply (c_gc _ _ _ _ _ _ _ _ _ HC).
Qed.

(** The parts of the next lemma: another header, and a new node below a slot. *)
Lemma slot_rehead n h x ns s : ns !! n = Some x → slot (<[n := CNode h (records x)]> ns) s = slot ns s.
Proof. intros E. rewrite slot_insert. case_decide as Es; [|done]. unfold slot. by rewrite Es, E. Qed.

Lemma slot_branch {F P obj} ns ps v new h q w s :
  trie F P (hdr ns) (slot ns) obj → is_Some (ns !! ps.1) → ns !! new = None →
  slot (put_slot ps v (<[new := CNode h {[ q := w ]}]> ns)) s = (<[(new, q) := w]> (<[ps := v]> (slot ns))) s.
Proof.
  intros HT Hps Hnew. assert (ps.1 ≠ new) as Hpn by (intros E; rewrite E in Hps; destruct Hps; congruence).
  rewrite slot_put_slot by (apply lookup_insert_is_Some'; by right). case_decide as Es.
  - subst s. rewrite fn_lookup_insert_ne, fn_lookup_insert; [done|]. by intros <-.
  - rewrite slot_insert. destruct s as [n b]. cbn [fst snd]. case_decide as En.
    + subst n. unfold slot_of. cbn [records]. destruct (decide (b = q)) as [-> |Hb].
      * by rewrite lookup_singleton_eq, fn_lookup_insert.
      * rewrite lookup_singleton_ne, !fn_lookup_insert_ne by congruence. cbn.
        symmetry. by apply (t_dom _ _ _ _ _ HT), hdr_None.
    + by rewrite !fn_lookup_insert_ne by congruence.
Qed.

(** A new node between the slot [ps] and its child [node], which gives up the
    first part of its header. *)
Lemma core_branch {F P ns fr root pl egc hgc ev} ps node x new π h q h' fr' :
  core F P ns fr root pl egc hgc ev → is_Some (ns !! ps.1) → next (slot ns ps) = Some node → ns !! node = Some x →
  ns !! new = None → (fr ≤ fr')%nat → (new < fr')%nat →
  header_at π h.2 → ch_depth h.2 = Z.of_nat (length (P ps.1)) + 1 → (P ps.1 ++ [ps.2]) `prefix_of` π →
  header_at (P node) h'.2 → ch_depth h'.2 = Z.of_nat (length π) + 1 → (π ++ [q]) `prefix_of` P node →
  core F (<[new := π]> P)
    (<[node := CNode h' (records x)]> (put_slot ps (CNV (cache_entry (slot ns ps)) (Some new))
       (<[new := CNode h {[ q := CNV None (Some node) ]}]> ns))) fr' root pl egc hgc ev.
Proof.
  intros HC Hps Hnx Hnode Hnew Hfr Hnf Hh Hd Hpre Hh' Hd' Hpre'. pose proof (c_trie _ _ _ _ _ _ _ _ _ HC) as HT.
  assert (ps.1 ≠ new) as Hpn by (intros E; rewrite E in Hps; destruct Hps; congruence).
  assert (node ≠ new) as Hnn by congruence.
  set (v := CNV (cache_entry (slot ns ps)) (Some new)).
  assert (orphan (<[ps := v]> (slot ns)) node) as Ho.
  { intros s. destruct (decide (s = ps)) as [-> |Hs]; [rewrite fn_lookup_insert; cbn; congruence|].
    rewrite fn_lookup_insert_ne by done. intros E. by apply Hs, (t_next_inj _ _ _ _ _ HT s ps node). }
  assert (slot ns (new, q) = CNV None None) as Hempty by by apply (t_dom _ _ _ _ _ HT), hdr_None.
  assert ((new, q) ≠ ps) as Hnq by (intros <-; done).
  assert (ps.1 ≠ node) as Hpn'.
  { intros <-. destruct (t_next _ _ _ _ _ HT ps ps.1 Hnx) as (_ & _ & _ & Hp%prefix_length).
    rewrite length_app in Hp. cbn in Hp. lia. }
  set (ns1 := put_slot ps v (<[new := CNode h {[ q := CNV None (Some node) ]}]> ns)).
  assert (ns1 !! node = Some x) as Hx1.
  { unfold ns1, put_slot. case_match; [|by rewrite lookup_insert_ne]. by rewrite !lookup_insert_ne. }
  assert (∀ n, hdr (<[node := CNode h' (records x)]> ns1) n = (<[node := Some h']> (<[new := Some h]> (hdr ns))) n) as Hhdr.
  { intros n. rewrite hdr_insert_fn. destruct (decide (n = node)) as [-> |]; [by rewrite !fn_lookup_insert|].
    rewrite !(fn_lookup_insert_ne _ node) by done. unfold ns1. by rewrite hdr_put_slot, hdr_insert_fn. }
  assert (∀ s, slot (<[node := CNode h' (records x)]> ns1) s = (<[(new, q) := CNV None (Some node)]> (<[ps := v]> (slot ns))) s) as Hsl.
  { intros s. rewrite slot_rehead by done. by apply (slot_branch ns ps v new h q _ s HT). }
  assert (∀ s, cache_entry ((<[(new, q) := CNV None (Some node)]> (<[ps := v]> (slot ns))) s) = cache_entry (slot ns s)) as Hce.
  { intros s. destruct (decide (s = (new, q))) as [-> |]; [by rewrite fn_lookup_insert, Hempty|].
    rewrite fn_lookup_insert_ne by done. destruct (decide (s = ps)) as [-> |]; [by rewrite fn_lookup_insert|].
    by rewrite fn_lookup_insert_ne. }
  eapply core_nodes; [exact HC|..].
  - eapply trie_ext; [exact Hhdr|exact Hsl|done|].
    pose proof (trie_new F P _ _ _ new π h HT ltac:(by apply hdr_None) Hh) as T1.
    eapply (trie_next F _ _ _ _ ps v (Some new)) in T1; [|done|..].
    2:{ rewrite fn_lookup_insert_ne by done. by apply not_eq_None_Some, hdr_is_Some. }
    2:{ split; [by eapply trie_orphan|]. exists h. rewrite !fn_lookup_insert, fn_lookup_insert_ne by done. by split_and!. }
    eapply (trie_hdr F _ _ _ _ node h') in T1; [|..|exact Ho|by rewrite fn_lookup_insert_ne].
    2:{ rewrite fn_lookup_insert_ne by done. apply not_eq_None_Some, hdr_is_Some. by exists x. }
    eapply (trie_next F _ _ _ _ (new, q) _ (Some node)) in T1; [exact T1|..].
    + rewrite fn_lookup_insert_ne by done. by rewrite Hempty.
    + cbn. rewrite fn_lookup_insert_ne, fn_lookup_insert by done. done.
    + split; [exact Ho|]. exists h'. cbn [fst snd]. rewrite !fn_lookup_insert, fn_lookup_insert_ne by done. by split_and!.
  - intros n Hn. apply hdr_is_Some in Hn. rewrite Hhdr in Hn. destruct (decide (n = node)) as [-> |].
    { eapply Nat.lt_le_trans; [apply (c_fresh _ _ _ _ _ _ _ _ _ HC); by exists x|done]. }
    rewrite fn_lookup_insert_ne in Hn by done. destruct (decide (n = new)) as [-> |]; [done|].
    rewrite fn_lookup_insert_ne in Hn by done. apply hdr_is_Some in Hn.
    eapply Nat.lt_le_trans; [by apply (c_fresh _ _ _ _ _ _ _ _ _ HC)|done].
  - intros n Hn. apply hdr_is_Some. rewrite Hhdr. destruct (decide (n = node)) as [-> |]; [by rewrite fn_lookup_insert|].
    rewrite fn_lookup_insert_ne by done. destruct (decide (n = new)) as [-> |]; [by rewrite fn_lookup_insert|].
    rewrite fn_lookup_insert_ne by done. by apply hdr_is_Some.
  - apply fn_lookup_insert_ne. intros <-. destruct (c_root _ _ _ _ _ _ _ _ _ HC) as [[y Hy] _]. congruence.
  - intros e He s. rewrite Hsl, Hce. by apply (c_gc _ _ _ _ _ _ _ _ _ HC).
Qed.

(** *** Headers against keys *)
Lemma push_partial_spec ba n d :
  (d + n ≤ length ba)%nat → push_partial ba n (Z.of_nat d) = Ok (take n (drop d ba)).
Proof.
  revert d. induction n as [|n IH]; intros d Hd; [done|]. cbn [push_partial].
  destruct (lookup_lt_is_Some_2 ba d) as [b Hb]; [lia|]. rewrite (idx_nat _ _ _ Hb).
  replace (Z.of_nat d + 1) with (Z.of_nat (S d)) by lia. cbn. rewrite IH by lia. cbn.
  by rewrite (drop_S _ _ _ Hb).
Qed.

Lemma cache_header_spec ba d n :
  (d + n < length ba)%nat → (length ba ≤ 8)%nat →
  ∃ h, cache_header ba (Z.of_nat d) (Z.of_nat n) = Ok h ∧ ch_depth h = Z.of_nat d ∧ header_at (take (d + n) ba) h.
Proof.
  intros Hd Hl. unfold cache_header. rewrite Nat2Z.id, push_partial_spec by lia. cbn. eexists. split; [done|].
  rewrite wrap_small by (unfold uint; lia). split; [done|]. unfold header_at, keyLen; cbn [ch_depth ch_partial].
  rewrite Nat2Z.id, !length_take, length_drop, skipn_firstn_comm.
  replace (d + n - d)%nat with n by lia. split_and!; [lia..|done|lia].
Qed.

Lemma leaf_cache_node_spec hid ba d e :
  (d < length ba)%nat → (length ba ≤ 8)%nat →
  ∃ h b, leaf_cache_node hid ba (Z.of_nat d) e = Ok (CNode (hid, h) {[ b := CNV (Some e) None ]}) ∧
    ch_depth h = Z.of_nat d ∧ header_at (take (length ba - 1) ba) h ∧ take (length ba - 1) ba ++ [b] = ba ∧
    idx_ ba (Z.of_nat (length ba) - 1) = Ok b.
Proof.
  intros Hd Hl. destruct (lookup_lt_is_Some_2 ba (length ba - 1)) as [b Hb]; [lia|].
  destruct (cache_header_spec ba d (length ba - d - 1)) as (h & Hh & Hdep & Hat); [lia|lia|].
  replace (d + (length ba - d - 1))%nat with (length ba - 1)%nat in Hat by lia.
  assert (idx_ ba (Z.of_nat (length ba) - 1) = Ok b) as Hib.
  { replace (Z.of_nat (length ba) - 1) with (Z.of_nat (length ba - 1)) by lia. by apply idx_nat. }
  exists h, b. unfold leaf_cache_node. replace (Z.of_nat (length ba) - Z.of_nat d - 1) with (Z.of_nat (length ba - d - 1)) by lia.
  rewrite Hh, Hib. split_and!; [done..| |done].
  rewrite <- take_S_r by done. apply take_ge. lia.
Qed.

Lemma split_header_spec' π h i :
  header_at π h → (i < length (ch_partial h))%nat →
  ch_depth (cache_split_header h (Z.of_nat i)) = ch_depth h + Z.of_nat i + 1 ∧
  header_at π (cache_split_header h (Z.of_nat i)).
Proof.
  intros (H0 & Hl & Hp & Hk) Hi. unfold cache_split_header, header_at, keyLen in *. cbn [ch_depth ch_partial].
  rewrite wrap_small by (unfold uint; lia). split; [done|]. rewrite length_drop, Hp, drop_drop.
  rewrite Hp in Hi, Hl. rewrite length_drop in *. split_and!; [lia..| |lia]. f_equal. lia.
Qed.

Lemma header_mismatch_spec ba partial d j :
  (d + j < length ba)%nat ∨ partial = [] →
  ∃ r, header_mismatch ba (Z.of_nat d) partial (Z.of_nat j) = Ok r ∧
    match r with
    | None => partial = take (length partial) (drop (d + j) ba) ∧ (partial = [] ∨ (d + j + length partial < length ba)%nat)
    | Some (i, q, cur) => ∃ i', i = Z.of_nat (j + i') ∧ partial !! i' = Some q ∧ ba !! (d + j + i')%nat = Some cur ∧
        take i' partial = take i' (drop (d + j) ba) ∧ (S (d + j + i') = length ba ∨ cur ≠ q)
    end.
Proof.
  revert j. induction partial as [|q partial IH]; intros j Hj; cbn [header_mismatch].
  { exists None. by split; [|split; [|left]]. }
  destruct Hj as [Hj|]; [|done]. destruct (lookup_lt_is_Some_2 ba (d + j)) as [b Hb]; [done|].
  replace (Z.of_nat d + Z.of_nat j) with (Z.of_nat (d + j)) by lia. rewrite (idx_nat _ _ _ Hb). cbn.
  destruct (Z.eqb_spec (Z.of_nat (d + j)) (Z.of_nat (length ba) - 1)) as [E|E]; cbn.
  { eexists. split; [done|]. exists 0%nat. rewrite !Nat.add_0_r. split_and!; [done..|left; lia]. }
  destruct (Z.eqb_spec b q) as [-> |Hbq]; cbn.
  2:{ eexists. split; [done|]. exists 0%nat. rewrite !Nat.add_0_r. split_and!; [done..|by right]. }
  replace (Z.of_nat j + 1) with (Z.of_nat (S j)) by lia.
  destruct (IH (S j)) as (r & Hr & Hres); [left; lia|]. exists r. split; [done|]. rewrite (drop_S _ _ _ Hb).
  replace (S (d + j)) with (d + S j)%nat by lia. destruct r as [[[i q'] cur]|].
  - destruct Hres as (i' & -> & ? & Hc & Ht & ?). exists (S i'). split; [lia|].
    replace (d + j + S i')%nat with (d + S j + i')%nat by lia. cbn. rewrite Ht. by split_and!.
  - destruct Hres as (Ht & Hl). split; [cbn; by rewrite <- Ht|]. right. cbn. destruct Hl as [-> |]; cbn; lia.
Qed.

(** *** The split of a node *)
Section split.
Context {F : Key → InternalPage → GlobalAddress → Prop} {P ns fr root pl egc hgc ev}
  (HC : core F P ns fr root pl egc hgc ev).
(** [node], below the slot [(p, pb)], differs from [ba] at position [i] of its
    header: it has [q] there, the bytes have [cur]. *)
Context {ba : CacheKey} {p : nat} {pb : Z} {node : nat} {x : CacheNode} {i : nat} {q cur : Z} {e : nat}.
Let d := S (length (P p)).
Let hh := (header x).2.
Context (Hp : is_Some (ns !! p)) (Hnx : next (slot ns (p, pb)) = Some node) (Hnode : ns !! node = Some x)
  (Hpath : take d (P node) = take d ba) (Hi : ch_partial hh !! i = Some q) (Hcur : ba !! (d + i)%nat = Some cur)
  (Hsame : take i (ch_partial hh) = take i (drop d ba)) (Hba : (length ba < 8)%nat)
  (Hend : S (d + i) = length ba ∨ cur ≠ q).

Let πn := take (d + i) ba.

Lemma split_child : ch_depth hh = Z.of_nat d ∧ header_at (P node) hh ∧ (P p ++ [pb]) `prefix_of` P node.
Proof using HC Hnx Hnode.
  clear Hba Hend Hi Hsame Hcur Hpath.
  pose proof (c_trie _ _ _ _ _ _ _ _ _ HC) as HT. destruct (t_next _ _ _ _ _ HT _ _ Hnx) as (h & Hh & Hd & Hpre).
  unfold hdr in Hh. rewrite Hnode in Hh. injection Hh as <-. split; [unfold hh; rewrite Hd; cbn; unfold d; lia|]. split; [|done].
  apply (t_hdr _ _ _ _ _ HT node (header x)). unfold hdr. by rewrite Hnode.
Qed.

Lemma split_partial : ch_partial hh = drop d (P node).
Proof using HC Hnx Hnode. destruct split_child as (Hd & (_ & _ & Hpt & _) & _). rewrite Hpt, Hd, Nat2Z.id. done. Qed.

(** The paths of the new nodes. *)
Lemma split_paths :
  (P p ++ [pb]) `prefix_of` πn ∧ πn ++ [cur] = take (S (d + i)) ba ∧ (πn ++ [q]) `prefix_of` P node ∧
  length πn = (d + i)%nat.
Proof using HC Hnx Hnode Hpath Hi Hcur Hsame.
  clear Hba Hend.
  destruct split_child as (_ & _ & Hpre). pose proof split_partial as Hpt. rewrite Hpt in Hi, Hsame.
  rewrite lookup_drop in Hi. assert (P p ++ [pb] = take d ba) as E.
  { rewrite <- Hpath. destruct Hpre as [l ->]. rewrite take_app_le by (rewrite length_app; cbn; unfold d; lia).
    rewrite take_ge; [done|]. rewrite length_app. cbn. unfold d. lia. }
  split_and!.
  - rewrite E. unfold πn. replace (take d ba) with (take d (take (d + i) ba)); [apply prefix_take|].
    rewrite take_take. f_equal. lia.
  - unfold πn. by rewrite <- take_S_r.
  - unfold πn. rewrite <- take_take_drop, <- Hpath, <- Hsame, take_take_drop, <- take_S_r by done. apply prefix_take.
  - unfold πn. rewrite length_take. apply lookup_lt_Some in Hcur. lia.
Qed.

Let h' (hid : nat) := (hid, cache_split_header hh (Z.of_nat i)).

Lemma split_branch new hid hid'' h fr' :
  ns !! new = None → (fr ≤ fr')%nat → (new < fr')%nat → ch_depth h = Z.of_nat d → header_at πn h →
  core F (<[new := πn]> P)
    (<[node := CNode (h' hid'') (records x)]> (put_slot (p, pb) (CNV (cache_entry (slot ns (p, pb))) (Some new))
       (<[new := CNode (hid, h) {[ q := CNV None (Some node) ]}]> ns))) fr' root pl egc hgc ev.
Proof.
  intros Hnew Hfr Hlt Hd Hh. destruct split_paths as (Hp1 & _ & Hp3 & Hlen). destruct split_child as (Hdh & Hhh & _).
  assert (i < length (ch_partial hh))%nat as Hil by by apply lookup_lt_Some in Hi.
  destruct (split_header_spec' _ _ _ Hhh Hil) as [Hd2 Hh2].
  eapply core_branch; try done; cbn [snd fst h'].
  - rewrite Hd. unfold d. lia.
  - rewrite Hd2, Hdh, Hlen. lia.
Qed.

(** The nodes that [split_cache_node] makes. *)
Lemma split_cache_node_spec hid hid' nid :
  ∃ h nn nested, split_cache_node hid hid' nid ba (Z.of_nat d) (Z.of_nat i) q node cur e = Ok (nn, nested) ∧
    ch_depth h = Z.of_nat d ∧ header_at πn h ∧ header nn = (hid, h) ∧
    match nested with
    | None => S (d + i) = length ba ∧
        ∀ b, slot_of nn b = if decide (b = cur) then CNV (Some e) (if decide (cur = q) then Some node else None)
                            else if decide (b = q) then CNV None (Some node) else CNV None None
    | Some y => (S (d + i) < length ba)%nat ∧ cur ≠ q ∧
        (∀ b, slot_of nn b = if decide (b = cur) then CNV None (Some nid)
                             else if decide (b = q) then CNV None (Some node) else CNV None None) ∧
        ∃ hy lb, y = CNode (hid', hy) {[ lb := CNV (Some e) None ]} ∧ ch_depth hy = Z.of_nat (S (d + i)) ∧
          header_at (take (length ba - 1) ba) hy ∧ take (length ba - 1) ba ++ [lb] = ba
    end.
Proof using Hcur Hba Hend x.
  pose proof (lookup_lt_Some _ _ _ Hcur) as Hlt.
  destruct (cache_header_spec ba d i) as (h & Hh & Hd & Hat); [lia|lia|]. exists h.
  unfold split_cache_node. rewrite Hh. cbn [mbind res_bind]. destruct (Z.eqb_spec q cur) as [<- |Hne].
  { do 2 eexists. split; [done|]. do 3 (split; [done|]). split; [naive_solver|]. intros b. unfold slot_of. cbn [records].
    rewrite (decide_True _ _ (eq_refl q)). case_decide as E; [subst; by rewrite lookup_singleton_eq|].
    by rewrite lookup_singleton_ne. }
  assert (Hslot : ∀ w b, slot_of (CNode (hid, h) (<[cur := w]> {[q := CNV None (Some node)]})) b =
            if decide (b = cur) then w else if decide (b = q) then CNV None (Some node) else CNV None None).
  { intros w b. rewrite slot_of_insert. case_decide; [done|]. unfold slot_of. cbn [records].
    case_decide; [subst; by rewrite lookup_singleton_eq|by rewrite lookup_singleton_ne]. }
  destruct (Z.leb_spec (Z.of_nat (length ba) - 1) (Z.of_nat d + Z.of_nat i)).
  { do 2 eexists. split; [done|]. do 3 (split; [done|]). split; [lia|]. intros b. rewrite Hslot.
    by rewrite (decide_False (P := cur = q)). }
  destruct (leaf_cache_node_spec hid' ba (S (d + i)) e) as (hy & lb & Hleaf & ? & ? & ? & _); [lia|lia|].
  replace (Z.of_nat d + Z.of_nat i + 1) with (Z.of_nat (S (d + i))) by lia. rewrite Hleaf. cbn [mbind res_bind].
  do 2 eexists. split; [done|]. do 3 (split; [done|]). split; [lia|]. split; [done|]. split; [apply Hslot|].
  by exists hy, lb.
Qed.
Lemma split_parent_ne : p ≠ node.
Proof.
  destruct split_child as (_ & _ & Hpre%prefix_length). intros ->. rewrite length_app in Hpre. cbn in Hpre. lia.
Qed.

(** The nodes of [insert_split], up to the change of the header. *)
Definition split_nodes (new nid : nat) (nn : CacheNode) (nested : option CacheNode) (hid'' : nat) : gmap nat CacheNode :=
  let ns1 := match nested with Some y => <[nid := y]> (<[new := nn]> ns) | None => <[new := nn]> ns end in
  let ns2 := put_slot (p, pb) (slot ns1 (p, pb)) ns1 in
  <[node := CNode (h' hid'') (records x)]> (put_slot (p, pb) (CNV (cache_entry (slot ns2 (p, pb))) (Some new)) ns2).

Context {new nid : nat} (Hnew : ns !! new = None) (Hnid : ns !! nid = None) (Hnn : new ≠ nid).

Lemma split_ne : p ≠ new ∧ p ≠ nid ∧ node ≠ new ∧ node ≠ nid.
Proof. destruct Hp. split_and!; congruence. Qed.

Lemma split_nodes_hdr nn nested hid'' n :
  hdr (split_nodes new nid nn nested hid'') n =
  if decide (n = node) then Some (h' hid'')
  else if decide (n = nid ∧ is_Some nested) then header <$> nested
  else if decide (n = new) then Some (header nn) else hdr ns n.
Proof.
  unfold split_nodes. rewrite hdr_insert. case_decide; [done|]. rewrite !hdr_put_slot. destruct nested as [y|].
  - rewrite !hdr_insert. destruct (decide (n = nid)) as [-> |]; [rewrite decide_True; [done|by split; [|eexists]]|].
    rewrite (decide_False (P := n = nid ∧ _)) by naive_solver. done.
  - rewrite hdr_insert. rewrite (decide_False (P := n = nid ∧ _)); [done|]. by intros [_ []].
Qed.

Lemma split_nodes_slot nn nested hid'' s :
  slot (split_nodes new nid nn nested hid'') s =
  if decide (s = (p, pb)) then CNV (cache_entry (slot ns (p, pb))) (Some new)
  else match nested with
       | Some y => if decide (s.1 = nid) then slot_of y s.2 else if decide (s.1 = new) then slot_of nn s.2 else slot ns s
       | None => if decide (s.1 = new) then slot_of nn s.2 else slot ns s
       end.
Proof.
  destruct split_ne as (? & ? & ? & ?).
  unfold split_nodes. set (ns1 := match nested with Some y => _ | None => _ end).
  assert (∀ n, n ≠ new → n ≠ nid → ns1 !! n = ns !! n) as Hold.
  { intros n ? ?. unfold ns1. destruct nested; rewrite ?lookup_insert_ne by done; done. }
  assert (is_Some (ns1 !! p)) as Hp1 by by rewrite Hold.
  assert (slot ns1 (p, pb) = slot ns (p, pb)) as Hps by by (unfold slot; cbn; rewrite Hold).
  pose proof split_parent_ne as Hpn.
  rewrite slot_rehead.
  2:{ unfold put_slot. cbn [fst snd]. destruct (ns1 !! p) as [y|] eqn:E; [|by rewrite E, Hold].
      rewrite lookup_insert_eq, !lookup_insert_ne, Hold by done. done. }
  rewrite slot_put_slot by (by apply put_slot_is_Some). case_decide as Es.
  { rewrite slot_put_slot by done. by rewrite decide_True, Hps. }
  rewrite slot_put_slot by done. rewrite decide_False by done. unfold ns1. destruct nested; by rewrite !slot_insert.
Qed.

Lemma split_branch_slot hid hid'' h s :
  slot (<[node := CNode (h' hid'') (records x)]> (put_slot (p, pb) (CNV (cache_entry (slot ns (p, pb))) (Some new))
       (<[new := CNode (hid, h) {[ q := CNV None (Some node) ]}]> ns))) s =
  if decide (s = (p, pb)) then CNV (cache_entry (slot ns (p, pb))) (Some new)
  else if decide (s.1 = new) then (if decide (s.2 = q) then CNV None (Some node) else CNV None None) else slot ns s.
Proof.
  pose proof split_parent_ne as Hpn. destruct split_ne as (? & ? & ? & ?). rewrite slot_rehead.
  2:{ unfold put_slot. cbn [fst snd]. case_match; rewrite !lookup_insert_ne by done; done. }
  rewrite (slot_branch _ _ _ _ _ _ _ _ (c_trie _ _ _ _ _ _ _ _ _ HC)) by done.
  destruct (decide (s = (new, q))) as [-> |Hs]; [rewrite fn_lookup_insert|rewrite fn_lookup_insert_ne by done].
  - cbn. by rewrite (decide_False (P := (new, q) = _)), !decide_True by congruence.
  - destruct (decide (s = (p, pb))) as [-> |Hs']; [by rewrite fn_lookup_insert|]. rewrite fn_lookup_insert_ne by done.
    destruct (decide (s.1 = new)) as [E|]; [|done]. rewrite decide_False by (destruct s; cbn in *; congruence).
    apply (t_dom _ _ _ _ _ (c_trie _ _ _ _ _ _ _ _ _ HC)). apply hdr_None. by rewrite E.
Qed.
Context (Hu : unowned (slot ns) e) (Hgc : e ∉ egc) (Hfact : ∃ ce, objects pl !! e = Some ce ∧ entry_fact F ba ce).
Context {fr' : nat} (Hfr : (fr ≤ fr')%nat) (Hf1 : (new < fr')%nat) (Hf2 : (nid < fr')%nat).

(** Without a nested node the entry goes into the new node. *)
Lemma split_core_flat hid hid'' h nn :
  ch_depth h = Z.of_nat d → header_at πn h → header nn = (hid, h) → S (d + i) = length ba →
  (∀ b, slot_of nn b = if decide (b = cur) then CNV (Some e) (if decide (cur = q) then Some node else None)
                       else if decide (b = q) then CNV None (Some node) else CNV None None) →
  core F (<[new := πn]> P) (split_nodes new nid nn None hid'') fr' root pl egc hgc ev.
Proof.
  intros Hd Hh Hhd Hlen Hsl. pose proof (split_branch new hid hid'' h fr' Hnew Hfr Hf1 Hd Hh) as HB.
  pose proof (split_branch_slot hid hid'' h) as HBs. set (nsB := <[node := _]> _) in *.
  destruct split_ne as (? & ? & ? & ?). destruct split_paths as (_ & Hp2 & _ & _).
  assert (is_Some (nsB !! new)) as HnewB.
  { apply hdr_is_Some. unfold nsB. rewrite hdr_insert, decide_False, hdr_put_slot, hdr_insert, decide_True by done. done. }
  assert (slot nsB (new, cur) = CNV None (if decide (cur = q) then Some node else None)) as Hs0.
  { rewrite HBs. cbn. rewrite decide_False, decide_True by congruence. by case_decide. }
  eapply core_ext; [eapply (core_entry (new, cur) (Some e) HB); [done|]|..].
  - split_and!; [|done|].
    + intros s. rewrite HBs. repeat case_decide; try done; [subst s; apply Hu|apply Hu].
    + destruct Hfact as (ce & ? & ?). exists ce. split; [done|]. cbn [fst snd]. rewrite fn_lookup_insert, Hp2, Hlen.
      by rewrite take_ge by lia.
  - intros n. rewrite split_nodes_hdr, hdr_put_slot. unfold nsB. rewrite hdr_insert, hdr_put_slot, hdr_insert, Hhd. cbn.
    rewrite (decide_False (P := n = nid ∧ _)); [done|]. by intros [_ []].
  - intros s. rewrite split_nodes_slot, slot_put_slot, Hs0, HBs by done. destruct s as [n b]. cbn [fst snd next].
    destruct (decide ((n, b) = (p, pb))) as [E|E]; [by rewrite decide_False by congruence|].
    destruct (decide (n = new)) as [-> |]; [|by rewrite decide_False by congruence]. rewrite Hsl.
    destruct (decide (b = cur)) as [-> |]; [by destruct (decide ((new, cur) = (new, cur)))|].
    by rewrite (decide_False (P := (new, b) = _)) by congruence.
Qed.

(** With one, the nested node is a leaf with the entry below the new node. *)
Lemma split_core_nested hid hid' hid'' h nn hy lb :
  ch_depth h = Z.of_nat d → header_at πn h → header nn = (hid, h) → (S (d + i) < length ba)%nat → cur ≠ q →
  (∀ b, slot_of nn b = if decide (b = cur) then CNV None (Some nid)
                       else if decide (b = q) then CNV None (Some node) else CNV None None) →
  ch_depth hy = Z.of_nat (S (d + i)) → header_at (take (length ba - 1) ba) hy → take (length ba - 1) ba ++ [lb] = ba →
  core F (<[nid := take (length ba - 1) ba]> (<[new := πn]> P))
    (split_nodes new nid nn (Some (CNode (hid', hy) {[ lb := CNV (Some e) None ]})) hid'') fr' root pl egc hgc ev.
Proof.
  intros Hd Hh Hhd Hlen Hcq Hsl Hdy Hhy Hlb. pose proof (split_branch new hid hid'' h fr' Hnew Hfr Hf1 Hd Hh) as HB.
  pose proof (split_branch_slot hid hid'' h) as HBs. set (nsB := <[node := _]> _) in *.
  destruct split_ne as (? & ? & ? & ?). destruct split_paths as (_ & Hp2 & _ & Hlen').
  assert (∀ n, hdr nsB n = if decide (n = node) then Some (h' hid'') else if decide (n = new) then Some (hid, h) else hdr ns n) as HBh.
  { intros n. unfold nsB. by rewrite hdr_insert, hdr_put_slot, hdr_insert. }
  assert (nsB !! nid = None) as HnidB.
  { apply hdr_None. rewrite HBh, !decide_False by done. by apply hdr_None. }
  set (y := CNode (hid', hy) {[ lb := CNV (Some e) None ]}).
  assert (∀ b, slot_of y b = if decide (b = lb) then CNV (Some e) None else CNV None None) as Hy.
  { intros b. unfold slot_of, y. cbn [records].
    case_decide; [subst; by rewrite lookup_singleton_eq|by rewrite lookup_singleton_ne]. }
  assert (core F (<[nid := take (length ba - 1) ba]> (<[new := πn]> P)) (<[nid := y]> nsB) fr' root pl egc hgc ev) as HL.
  { apply (core_leaf nid _ (hid', hy) lb e fr' HB); [done..| |done|by rewrite Hlb].
    intros s. rewrite HBs. repeat case_decide; try subst s; try done; apply Hu. }
  assert (slot (<[nid := y]> nsB) (new, cur) = CNV None None) as Hs0.
  { rewrite slot_insert, HBs. cbn. by rewrite decide_False, decide_False, decide_True, decide_False by congruence. }
  assert (is_Some ((<[nid := y]> nsB) !! new)) as HnewL.
  { apply hdr_is_Some. rewrite hdr_insert, HBh, decide_False, decide_False, decide_True by done. done. }
  eapply core_ext; [eapply (core_link (new, cur) nid HL); [done|..]|..].
  - intros s. rewrite slot_insert. case_decide; [rewrite Hy; by case_decide|].
    apply (trie_orphan _ _ _ _ _ (c_trie _ _ _ _ _ _ _ _ _ HB) HnidB).
  - exists (hid', hy). rewrite hdr_insert, decide_True by done. cbn [fst snd].
    rewrite fn_lookup_insert_ne, !fn_lookup_insert by done. split_and!; [done|rewrite Hdy, Hlen'; lia|].
    rewrite Hp2. replace (take (S (d + i)) ba) with (take (S (d + i)) (take (length ba - 1) ba)); [apply prefix_take|].
    rewrite take_take. f_equal. lia.
  - intros n. rewrite split_nodes_hdr, hdr_put_slot, hdr_insert, HBh, Hhd. cbn.
    destruct (decide (n = nid)) as [-> |]; [rewrite decide_False, decide_True; [done|by split; [|eexists]|done]|].
    by rewrite (decide_False (P := n = nid ∧ _)) by naive_solver.
  - intros s. rewrite split_nodes_slot, slot_put_slot, Hs0, slot_insert, HBs by done. destruct s as [n b]. cbn [fst snd cache_entry].
    destruct (decide ((n, b) = (p, pb))) as [[= -> ->]|E].
    { rewrite decide_False, decide_False by congruence. done. }
    destruct (decide (n = nid)) as [-> |]; [by rewrite decide_False by congruence|].
    destruct (decide (n = new)) as [-> |]; [|by rewrite decide_False by congruence]. rewrite Hsl.
    destruct (decide (b = cur)) as [-> |]; [by destruct (decide ((new, cur) = (new, cur)))|].
    by rewrite (decide_False (P := (new, b) = _)) by congruence.
Qed.
End split.

Section operations.
Context (F : Key → InternalPage → GlobalAddress → Prop).

Lemma wpr_safely_delete_entry fuel P c e :
  radix_inv F P c → spare c e → (2 ≤ fuel)%nat →
  wpr (_safely_delete_entry fuel e) c (λ _ c', radix_inv F P c' ∧ grown c c' ∧ nodes c' = nodes c ∧
    eviction_list c' = eviction_list c).
Proof.
  intros HI (He & Hu & Hn) Hf. destruct fuel as [|[|fuel]]; [lia..|].
  unfold _safely_delete_entry. apply wpr_bind, wpr_atomic. cbn [fst snd drain_entry_gc].
  apply wpr_bind, wpr_atomic. cbn [fst snd set_entry_gc cache_entry_gc].
  pose proof (c_gc_len _ _ _ _ _ _ _ _ _ HI) as Hl.
  destruct (Nat.ltb_spec safely_free_epoch (length (cache_entry_gc c ++ [e]))) as [Hlt|Hge]; rewrite length_app in *; cbn [length] in *.
  - destruct (core_gc_swap HI e) as (e1 & l & pl' & E & Hr & HC & Hs); [done..|lia|].
    apply wpr_bind, wpr_atomic. cbn [cache_entry_gc set_entry_gc]. rewrite E. cbn [fst snd]. apply wpr_bind.
    eapply wpr_atomic_res; [cbn [set_entry_gc pool]; by rewrite Hr|].
    apply wpr_bind, wpr_atomic. cbn [fst snd set_pool set_entry_gc cache_entry_gc].
    pose proof (c_gc_len _ _ _ _ _ _ _ _ _ HC) as Hl'.
    destruct (Nat.ltb_spec safely_free_epoch (length l)); [lia|]. apply wpr_ret. split; [exact HC|]. split; [by split|done].
  - apply wpr_ret. split; [|by split]. apply (core_gc_push HI); [done..|lia].
Qed.

Lemma wpr_safely_delete_header fuel P c h :
  radix_inv F P c → (2 ≤ fuel)%nat →
  wpr (_safely_delete_header fuel h) c (λ _ c', radix_inv F P c' ∧ grown c c' ∧ nodes c' = nodes c ∧
    pool c' = pool c ∧ fresh c' = fresh c ∧ cache_entry_gc c' = cache_entry_gc c).
Proof.
  intros HI Hf. destruct fuel as [|[|fuel]]; [lia..|]. pose proof (c_hgc_len _ _ _ _ _ _ _ _ _ HI) as Hl.
  unfold _safely_delete_header. apply wpr_bind, wpr_atomic. cbn [fst snd drain_hdr_gc].
  apply wpr_bind, wpr_atomic. cbn [fst snd set_hdr_gc cache_hdr_gc].
  assert (∀ l, (length l ≤ safely_free_epoch)%nat → radix_inv F P (set_hdr_gc l c)) as Hset.
  { intros l Hll. destruct HI. by split. }
  destruct (Nat.ltb_spec safely_free_epoch (length (cache_hdr_gc c ++ [h]))) as [Hlt|Hge]; rewrite length_app in *; cbn [length] in *.
  - apply wpr_bind, wpr_atomic. cbn [fst snd]. apply wpr_bind, wpr_atomic. cbn [fst snd set_hdr_gc cache_hdr_gc].
    assert (length (tail (cache_hdr_gc c ++ [h])) = length (cache_hdr_gc c)) as Htl.
    { rewrite length_tl, length_app. cbn. lia. }
    rewrite Htl. destruct (Nat.ltb_spec safely_free_epoch (length (cache_hdr_gc c))); [lia|].
    apply wpr_ret. split_and!; [|done..]. apply Hset. lia.
  - apply wpr_ret. split_and!; [|done..]. apply Hset. rewrite length_app. cbn. lia.
Qed.

(** The accesses, when the node exists. *)
Lemma wpr_deref n c x Q : nodes c !! n = Some x → Q x c → wpr (deref n) c Q.
Proof. intros E H. eapply wpr_atomic_res; [by rewrite E|done]. Qed.

Lemma wpr_deref_entry e c x Q : objects (pool c) !! e = Some x → Q x c → wpr (deref_entry e) c Q.
Proof. intros E H. eapply wpr_atomic_res; [by rewrite E|done]. Qed.

Lemma wpr_record_at n b c Q :
  is_Some (nodes c !! n) → Q (slot (nodes c) (n, b)) (set_nodes (put_slot (n, b) (slot (nodes c) (n, b)) (nodes c)) c) →
  wpr (record_at n b) c Q.
Proof.
  intros [x E] H. eapply wpr_atomic_res; [by rewrite E|]. unfold slot, put_slot in H. cbn [fst snd] in H. by rewrite E in H.
Qed.

Lemma wpr_cas_next n b old new c Q :
  is_Some (nodes c !! n) → next (slot (nodes c) (n, b)) = old →
  Q old (set_nodes (put_slot (n, b) (CNV (cache_entry (slot (nodes c) (n, b))) new) (nodes c)) c) →
  wpr (cas_next n b old new) c Q.
Proof.
  intros [x E] Ho H. eapply (wpr_atomic_res _ _ old); [rewrite E; cbv zeta|].
  - unfold slot in Ho. cbn [fst snd] in Ho. rewrite E in Ho. rewrite decide_True, Ho; done.
  - unfold slot, put_slot in *. cbn [fst snd] in *. by rewrite E in *.
Qed.

Lemma wpr_cas_entry n b new c Q :
  is_Some (nodes c !! n) → let v := slot (nodes c) (n, b) in
  Q true (set_nodes (put_slot (n, b) (CNV new (next v)) (nodes c)) c) →
  wpr (cas_entry n b (cache_entry v) new) c Q.
Proof.
  intros [x E] v H. eapply (wpr_atomic_res _ _ true); [rewrite E; cbv zeta|].
  - rewrite decide_True; [reflexivity|]. unfold v, slot. cbn [fst snd]. by rewrite E.
  - unfold v, slot, put_slot in *. cbn [fst snd] in *. by rewrite E in *.
Qed.

Lemma wpr_cas_entry_no n b old new c Q :
  is_Some (nodes c !! n) → cache_entry (slot (nodes c) (n, b)) ≠ old → Q false c → wpr (cas_entry n b old new) c Q.
Proof.
  intros [x E] Hne H. eapply (wpr_atomic_res _ _ false); [rewrite E; cbv zeta|done].
  rewrite decide_False; [reflexivity|]. unfold slot in Hne. cbn [fst snd] in Hne. by rewrite E in Hne.
Qed.

Lemma wpr_cas_header n x new c Q :
  nodes c !! n = Some x → Q true (set_nodes (<[n := CNode new (records x)]> (nodes c)) c) →
  wpr (cas_header n (header x).1 new) c Q.
Proof. intros E H. eapply wpr_atomic_res; [by rewrite E, decide_True|done]. Qed.

Lemma wpr_consume_by_node n c Q :
  is_Some (nodes c !! n) → (∀ fs nm, Q tt (set_free_size fs (set_node_mem_size nm c))) → wpr (consume_by_node n) c Q.
Proof.
  intros [x E] H. apply wpr_bind. eapply wpr_deref; [done|]. apply wpr_bind, wpr_atomic. cbn [fst snd].
  case_match; [apply wpr_ret, (H (free_size c))|apply wpr_atomic, H].
Qed.

Lemma wpr_consume_entry e c Q :
  is_Some (objects (pool c) !! e) → (∀ fs, Q tt (set_free_size fs c)) → wpr (consume_entry e) c Q.
Proof. intros [x E] H. apply wpr_bind. eapply wpr_deref_entry; [done|]. apply wpr_atomic, H. Qed.

Lemma wpr_push_evict P n b e c Q :
  radix_inv F P c → is_Some (nodes c !! n) →
  (let c' := set_eviction_list (eviction_list c ++ [((n, b), e)]) c in radix_inv F P c' → Q tt c') →
  wpr (push_evict n b e) c Q.
Proof.
  intros HI Hn H. apply wpr_atomic, H. destruct HI. split; try done.
  apply Forall_app. split; [done|]. by constructor.
Qed.

(** An entry that left its slot. *)
Lemma spare_old P c s e eo v :
  radix_inv F P c → cache_entry (slot (nodes c) s) = Some e → is_Some (nodes c !! s.1) → eo ≠ Some e →
  spare (set_nodes (put_slot s (CNV eo v) (nodes c)) c) e.
Proof.
  intros HI He Hs Hne. pose proof (c_trie _ _ _ _ _ _ _ _ _ HI) as HT.
  destruct (t_entry _ _ _ _ _ HT s e He) as (ce & Hce & _). split_and!; cbn.
  - by exists ce.
  - intros s'. rewrite slot_put_slot by done. case_decide as E; [done|].
    intros He'. by apply E, (t_entry_inj _ _ _ _ _ HT s' s e).
  - intros Hin. apply (c_gc _ _ _ _ _ _ _ _ _ HI) in Hin as [_ Hu]. by apply (Hu s).
Qed.

(** [spare] entries of the path [ba]. *)
Definition pending (c : RadixCache) (ba : CacheKey) (e : nat) : Prop :=
  spare c e ∧ ∃ ce, objects (pool c) !! e = Some ce ∧ entry_fact F ba ce.

Lemma radix_inv_touch P c s :
  radix_inv F P c → radix_inv F P (set_nodes (put_slot s (slot (nodes c) s) (nodes c)) c).
Proof. apply core_touch. Qed.

Lemma pending_touch c ba e s :
  pending c ba e → pending (set_nodes (put_slot s (slot (nodes c) s) (nodes c)) c) ba e.
Proof.
  intros [(He & Hu & Hn) Hf]. split; [|done]. split; [done|]. split; [|done]. cbn. intros s'.
  destruct (decide (is_Some (nodes c !! s.1))) as [Hs|Hs].
  - rewrite slot_put_slot by done. case_decide; [subst; apply Hu|apply Hu].
  - apply eq_None_not_Some in Hs. unfold put_slot. rewrite Hs. apply Hu.
Qed.

Context (fuel : nat) (Hfuel : (2 ≤ fuel)%nat).

Lemma wpr_invalidate P c s e :
  radix_inv F P c → is_Some (nodes c !! s.1) →
  wpr (radix_invalidate fuel (s, e)) c (λ _ c', radix_inv F P c' ∧ grown c c' ∧
    eviction_list c' = eviction_list c ∧ ∀ s', s' ≠ s → slot (nodes c') s' = slot (nodes c) s').
Proof.
  intros HI Hs. unfold radix_invalidate. cbn [fst snd]. apply wpr_bind.
  destruct (decide (cache_entry (slot (nodes c) s) = Some e)) as [He|He].
  2:{ apply wpr_cas_entry_no; [done|by destruct s|]. apply wpr_ret. by split_and!. }
  rewrite <- He at 1. destruct s as [n b]. apply wpr_cas_entry; [done|]. set (v := slot (nodes c) (n, b)) in *.
  assert (radix_inv F P (set_nodes (put_slot (n, b) (CNV None (next v)) (nodes c)) c)) as HI' by by apply core_entry.
  pose proof (spare_old P c (n, b) e None (next v) HI He Hs ltac:(done)) as Hsp.
  destruct Hsp as [[ce Hce] Hsp']. apply wpr_bind. eapply wpr_deref_entry; [done|].
  apply wpr_bind, wpr_atomic. cbn [fst snd]. eapply wpr_mono; [eapply wpr_safely_delete_entry; [exact HI'|..|done]|].
  { split; [by exists ce|exact Hsp']. }
  intros _ c' (HI2 & [Hg1 Hg2] & Hns & Hev). split; [done|]. split; [|split; [exact Hev|]].
  - split; [|exact Hg2]. intros m Hm. apply Hg1. cbn. by rewrite put_slot_is_Some.
  - intros s' Hne. rewrite Hns. cbn. rewrite slot_put_slot by done. by rewrite decide_False.
Qed.

Lemma wpr_insert_here P c n b e :
  radix_inv F P c → is_Some (nodes c !! n) → pending c (P n ++ [b]) e →
  wpr (insert_here fuel n b e) c (λ _ c', ∃ P', radix_inv F P' c' ∧ grown c c').
Proof.
  intros HI Hn Hpe. apply wpr_bind, wpr_record_at; [done|].
  apply (radix_inv_touch _ _ (n, b)) in HI. apply (pending_touch _ _ _ (n, b)) in Hpe.
  rewrite <- (put_slot_is_Some (n, b) (slot (nodes c) (n, b))) in Hn.
  assert (grown c (set_nodes (put_slot (n, b) (slot (nodes c) (n, b)) (nodes c)) c)) as Hg.
  { split; [|done]. intros m. cbn. by rewrite put_slot_is_Some. }
  assert (slot (nodes c) (n, b) = slot (put_slot (n, b) (slot (nodes c) (n, b)) (nodes c)) (n, b)) as Hv.
  { rewrite slot_put_slot; [by rewrite decide_True|by rewrite put_slot_is_Some in Hn]. }
  set (c1 := set_nodes (put_slot (n, b) (slot (nodes c) (n, b)) (nodes c)) c) in *.
  change (put_slot (n, b) (slot (nodes c) (n, b)) (nodes c)) with (nodes c1) in Hv, Hn. rewrite Hv. clearbody c1. clear Hv.
  set (v := slot (nodes c1) (n, b)).
  apply wpr_bind, wpr_cas_entry; [exact Hn|]. fold v.
  destruct Hpe as [(He & Hu & Hgc) Hf].
  assert (radix_inv F P (set_nodes (put_slot (n, b) (CNV (Some e) (next v)) (nodes c1)) c1)) as HI' by exact (core_entry (n, b) (Some e) HI Hn (conj Hu (conj Hgc Hf))).
  apply wpr_bind, wpr_consume_by_node; [by apply put_slot_is_Some|]. intros fs nm.
  apply wpr_bind, wpr_consume_entry; [done|]. intros fs'.
  apply wpr_bind. eapply wpr_mono with (Q := λ _ c', radix_inv F P c' ∧ grown c c' ∧ is_Some (nodes c' !! n)).
  - destruct (cache_entry v) as [old|] eqn:Eold.
    + assert (spare (set_nodes (put_slot (n, b) (CNV (Some e) (next v)) (nodes c1)) c1) old) as Hsp.
      { eapply spare_old; [exact HI|done|done|]. intros [= ->]. by apply Hu in Eold. }
      destruct Hsp as [[ce Hce] Hsp']. apply wpr_bind. eapply wpr_deref_entry; [done|].
      apply wpr_bind, wpr_atomic. cbn [fst snd].
      eapply wpr_mono; [eapply (wpr_safely_delete_entry _ P); [exact HI'|split; [by exists ce|exact Hsp']|done]|].
      intros _ c' (HI2 & [Hg1 Hg2] & Hns & _). split; [done|].
      assert (∀ m, is_Some (nodes c1 !! m) → is_Some (nodes c' !! m)) as Hg3.
      { intros m Hm. apply Hg1. cbn. by rewrite put_slot_is_Some. }
      split; [|by apply Hg3]. etrans; [exact Hg|]. split; [exact Hg3|exact Hg2].
    + apply wpr_ret. split; [exact HI'|]. split; [|by apply put_slot_is_Some]. etrans; [exact Hg|].
      split; [|done]. intros m. cbn. by rewrite put_slot_is_Some.
  - intros _ c' (HI2 & Hg2 & Hn2). eapply wpr_push_evict; [done..|]. intros c2 HI3. by exists P.
Qed.
Lemma wpr_insert_child P c n b ba e :
  radix_inv F P c → is_Some (nodes c !! n) → next (slot (nodes c) (n, b)) = None → pending c ba e →
  (S (length (P n)) < length ba)%nat → (length ba ≤ 8)%nat → P n ++ [b] = take (S (length (P n))) ba →
  wpr (insert_child ba n (Z.of_nat (length (P n))) b e) c (λ r c', r = None ∧ ∃ P', radix_inv F P' c' ∧ grown c c').
Proof.
  intros HI Hn Hnx [(He & Hu & Hgc) Hf] Hlen Hlen8 Hba. unfold insert_child.
  apply wpr_bind, wpr_atomic. cbn [fst snd set_fresh fresh]. apply wpr_bind, wpr_atomic. cbn [fst snd set_fresh fresh].
  set (m := fresh c).
  assert (nodes c !! m = None) as Hm.
  { apply eq_None_not_Some. intros H. apply (c_fresh _ _ _ _ _ _ _ _ _ HI) in H. unfold m in H. lia. }
  destruct (leaf_cache_node_spec (S m) ba (S (length (P n))) e) as (h & lb & Hleaf & Hdep & Hat & Hpath & Hlb); [lia|done|].
  replace (Z.of_nat (length (P n)) + 1) with (Z.of_nat (S (length (P n)))) by lia.
  apply wpr_bind. eapply wpr_pure; [exact Hleaf|]. set (x := CNode (S m, h) {[ lb := CNV (Some e) None ]}).
  apply wpr_bind, wpr_atomic. cbn [fst snd].
  match goal with |- wpr _ ?c0 _ => set (c1 := c0) end.
  assert (radix_inv F (<[m := take (length ba - 1) ba]> P) c1) as HI1.
  { eapply core_leaf; [exact HI|done|unfold m; cbn; lia..|done|done|done|by rewrite Hpath]. }
  assert (n ≠ m) as Hnm by (intros ->; destruct Hn; congruence).
  assert (slot (nodes c1) (n, b) = slot (nodes c) (n, b)) as Hsl by (cbn; rewrite slot_insert; by rewrite decide_False).
  assert (is_Some (nodes c1 !! n)) as Hn1 by (cbn; apply lookup_insert_is_Some'; by right).
  apply wpr_bind, wpr_cas_next; [done|by rewrite Hsl|]. cbn beta.
  match goal with |- wpr _ ?c0 _ => set (c2 := c0) end.
  assert (radix_inv F (<[m := take (length ba - 1) ba]> P) c2) as HI2.
  { apply core_link; [exact HI1|done|..].
    - intros s. cbn. rewrite slot_insert. case_decide as E.
      + unfold slot_of. cbn [records x]. destruct (decide (s.2 = lb)) as [-> |].
        * by rewrite lookup_singleton_eq.
        * by rewrite lookup_singleton_ne by done.
      + apply (trie_orphan F P (nodes c) _ m (c_trie _ _ _ _ _ _ _ _ _ HI) Hm).
    - exists (S m, h). cbn [fst snd]. rewrite fn_lookup_insert, fn_lookup_insert_ne by done. split_and!.
      + cbn. by rewrite hdr_insert, decide_True.
      + rewrite Hdep. lia.
      + rewrite Hba. replace (take (S (length (P n))) ba) with (take (S (length (P n))) (take (length ba - 1) ba)).
        * apply prefix_take.
        * rewrite take_take. f_equal. lia. }
  assert (∀ m', is_Some (nodes c1 !! m') → is_Some (nodes c2 !! m')) as H12 by (intros; by apply put_slot_is_Some).
  assert (is_Some (nodes c2 !! m)) as Hm2 by (apply H12; cbn; by rewrite lookup_insert_eq).
  assert (grown c c2) as Hg.
  { split; [|done]. intros m' Hm'. apply H12. cbn. apply lookup_insert_is_Some'. by right. }
  assert (is_Some (objects (pool c2) !! e)) as He2 by done. assert (is_Some (nodes c2 !! n)) as Hn2 by by apply H12.
  clearbody c2. apply wpr_bind, wpr_atomic. cbn [fst snd]. apply wpr_bind. eapply wpr_pure; [exact Hlb|].
  apply wpr_bind. eapply wpr_push_evict; [exact HI2|done|]. intros c3 HI3.
  apply wpr_bind, wpr_consume_by_node; [done|]. intros fs nm.
  apply wpr_bind, wpr_consume_by_node; [done|]. intros fs' nm'.
  apply wpr_bind, wpr_consume_entry; [done|]. intros fs''. apply wpr_ret. split; [done|]. eexists. split; [exact HI3|].
  destruct Hg as [Hg1 Hg2]. by split.
Qed.
(** [_insert] at [node]: where it stands, and what it was given. *)
Lemma wpr_put_nested {Q} nid nested c :
  Q tt (set_nodes (match nested with Some y => <[nid := y]> (nodes c) | None => nodes c end) c) →
  wpr (match nested with Some y => put_node nid y | None => mret tt end) c Q.
Proof. destruct nested; intros H; [by apply wpr_atomic|]. apply wpr_ret. by destruct c. Qed.

Lemma wpr_push_node {Q} (nested : option nat) c :
  (∀ nq, Q tt (set_node_queue nq c)) → wpr (match nested with Some n => push_node n | None => mret tt end) c Q.
Proof. intros H. destruct nested; [apply wpr_atomic, H|]. apply wpr_ret. specialize (H (node_queue c)). by destruct c. Qed.

Lemma wpr_consume_nested {Q} (nested : option nat) c :
  match nested with Some n => is_Some (nodes c !! n) | None => True end →
  (∀ fs nm, Q tt (set_free_size fs (set_node_mem_size nm c))) → wpr (consume_nested nested) c Q.
Proof.
  intros Hn H. destruct nested; [by apply wpr_consume_by_node|]. apply wpr_ret.
  specialize (H (free_size c) (node_mem_size c)). by destruct c.
Qed.

(** The end of a successful split: the pieces are accounted for ... *)
Lemma wpr_split_account P c c4 ba e node new nested_node hid :
  radix_inv F P c4 → pending c ba e → pool c4 = pool c → is_Some (nodes c !! node) →
  (∀ n, is_Some (nodes c !! n) ∨ n = new ∨ Some n = nested_node → is_Some (nodes c4 !! n)) →
  wpr (_safely_delete_header fuel hid ;; consume_by_node new ;; consume_nested nested_node ;;
       consume_by_node node ;; consume_entry e ;; mret None) c4
    (λ (r : option nat) c', r = None ∧ (∃ P', radix_inv F P' c') ∧ grown c c' ∧ is_Some (nodes c' !! new) ∧
       match nested_node with Some n => is_Some (nodes c' !! n) | None => True end).
Proof.
  intros HI4 Hpe Hpool4 Hnode Hdom. destruct Hpe as [(He & Hu & Hgc) Hf].
  apply wpr_bind. eapply wpr_mono; [by apply wpr_safely_delete_header|].
  intros _ c5 (HI5 & Hg5 & Hns5 & Hpool & _ & _). rewrite <- Hns5 in Hdom.
  apply wpr_bind, wpr_consume_by_node; [by apply Hdom; auto|]. intros fs nm.
  apply wpr_bind, wpr_consume_nested; [destruct nested_node; auto|]. intros fs2 nm2.
  apply wpr_bind, wpr_consume_by_node; [by apply Hdom; eauto|]. intros fs3 nm3.
  apply wpr_bind, wpr_consume_entry. { cbn. by rewrite Hpool, Hpool4. } intros fs4. apply wpr_ret.
  split; [done|]. split; [by exists P|]. split; [|split].
  - split; [intros n Hn; apply Hdom; auto|]. cbn. by rewrite Hpool, Hpool4.
  - apply Hdom. auto.
  - destruct nested_node; [apply Hdom; auto|done].
Qed.

(** ... and queued for eviction. *)
Lemma wpr_split_push P c c' ba cur e new nested_node :
  radix_inv F P c' → grown c c' → ba ≠ [] →
  is_Some (nodes c' !! new) → match nested_node with Some n => is_Some (nodes c' !! n) | None => True end →
  wpr (push_node new ;; match nested_node with Some n => push_node n | None => mret tt end ;;
       last_byte ← pure (idx_ ba (Z.of_nat (length ba) - 1));
       match nested_node with Some n => push_evict n last_byte e | None => push_evict new cur e end ;; mret None) c'
    (λ (r : option nat) c', r = None ∧ ∃ P', radix_inv F P' c' ∧ grown c c').
Proof.
  intros HI' Hg Hba Hn1 Hn2. apply wpr_bind, wpr_atomic. cbn [fst snd].
  apply wpr_bind, wpr_push_node. intros nq. assert (0 < length ba)%nat by (destruct ba; cbn; [done|lia]).
  destruct (lookup_lt_is_Some_2 ba (length ba - 1)) as [lb Hlb]; [lia|].
  apply wpr_bind. eapply wpr_pure.
  { replace (Z.of_nat (length ba) - 1) with (Z.of_nat (length ba - 1)) by lia. by apply idx_nat. }
  apply wpr_bind. eapply wpr_mono with (Q := λ _ c2, radix_inv F P c2 ∧ grown c c2).
  - destruct nested_node; (eapply wpr_push_evict; [exact HI'|done|]); intros c2 HI2; split; done.
  - intros _ c2 [HI2 Hg2]. apply wpr_ret. split; [done|]. by exists P.
Qed.

Lemma wpr_insert_split P c ba p pb node x i q cur e :
  radix_inv F P c → is_Some (nodes c !! p) → next (slot (nodes c) (p, pb)) = Some node → nodes c !! node = Some x →
  let d := S (length (P p)) in
  take d (P node) = take d ba → ba !! length (P p) = Some pb →
  ch_partial (header x).2 !! i = Some q → ba !! (d + i)%nat = Some cur →
  take i (ch_partial (header x).2) = take i (drop d ba) → (length ba < 8)%nat → S (d + i) = length ba ∨ cur ≠ q →
  pending c ba e →
  wpr (insert_split fuel ba e (Some p) node (Z.of_nat d) (header x) (Z.of_nat i) q cur) c
    (λ r c', r = None ∧ ∃ P', radix_inv F P' c' ∧ grown c c').
Proof.
  intros HI Hp Hnx Hnode d Hpath Hpb Hq Hcur Hsame Hlen Hend Hpe. unfold insert_split.
  assert (∀ m, (fresh c ≤ m)%nat → nodes c !! m = None) as Hfresh.
  { intros m Hm. apply eq_None_not_Some. intros H. apply (c_fresh _ _ _ _ _ _ _ _ _ HI) in H. lia. }
  do 4 (apply wpr_bind, wpr_atomic; cbn [fst snd set_fresh fresh]).
  set (new := fresh c). destruct (split_child HI Hnx Hnode) as (Hdep & _ & _). fold d in Hdep.
  rewrite Hdep. replace (Z.of_nat d + Z.of_nat i - Z.of_nat d) with (Z.of_nat i) by lia.
  destruct (split_cache_node_spec (x := x) (p := p) (e := e) (node := node) (q := q) Hcur Hlen Hend (S (S new)) (S (S (S new))) (S new))
    as (h & nn & nested & Hsplit & Hd & Hat & Hhd & Hcase).
  apply wpr_bind. eapply wpr_pure; [exact Hsplit|]. cbv beta iota.
  apply wpr_bind, wpr_atomic. cbn [fst snd]. apply wpr_bind, wpr_put_nested. cbn [set_nodes set_fresh nodes fresh].
  set (ns1 := match nested with Some y => <[S new := y]> (<[new := nn]> (nodes c)) | None => <[new := nn]> (nodes c) end).
  set (nid := S new) in *.
  destruct (split_ne Hp Hnode (Hfresh new ltac:(lia)) (Hfresh nid ltac:(lia))) as (Hpn & Hpi & Hnn & Hni).
  assert (∀ n, n ≠ new → n ≠ nid → ns1 !! n = nodes c !! n) as Hold.
  { intros n ? ?. unfold ns1. destruct nested; rewrite ?lookup_insert_ne by done; done. }
  assert (slot ns1 (p, pb) = slot (nodes c) (p, pb)) as Hps by by (unfold slot; cbn; rewrite Hold).
  assert (is_Some (ns1 !! p)) as Hp1 by by rewrite Hold.
  apply wpr_bind, wpr_ret. apply wpr_bind. eapply wpr_pure.
  { replace (Z.of_nat d - 1) with (Z.of_nat (length (P p))) by (unfold d; lia). by apply idx_nat. }
  apply wpr_bind, wpr_record_at; [exact Hp1|]. cbn [set_nodes nodes].
  set (ns2 := put_slot (p, pb) (slot ns1 (p, pb)) ns1).
  assert (is_Some (ns2 !! p)) as Hp2 by by apply put_slot_is_Some.
  apply wpr_bind, wpr_cas_next; [exact Hp2|by unfold ns2; cbn; rewrite slot_put_slot, decide_True, Hps by done|].
  cbn [set_nodes nodes]. rewrite decide_True by done.
  assert (put_slot (p, pb) (CNV (cache_entry (slot ns2 (p, pb))) (Some new)) ns2 !! node = Some x) as Hx3.
  { assert (p ≠ node) by (eapply (split_parent_ne HI); eauto). unfold ns2. rewrite !put_slot_other by (cbn; done). by rewrite Hold. }
  set (nested_node := match nested with Some _ => Some nid | None => None end).
  apply wpr_bind. eapply wpr_mono with (Q := λ r c', r = None ∧ (∃ P', radix_inv F P' c') ∧ grown c c' ∧
    is_Some (nodes c' !! new) ∧ match nested_node with Some n => is_Some (nodes c' !! n) | None => True end).
  - apply wpr_bind, wpr_atomic. cbn [fst snd set_nodes set_fresh fresh]. set (hid'' := S (S (S nid))).
    apply wpr_bind, wpr_cas_header; [exact Hx3|]. cbn [set_nodes set_fresh nodes].
    match goal with |- wpr _ ?c0 _ => set (c4 := c0) end.
    pose proof Hpe as [(He & Hu & Hgc) Hf].
    assert (fresh c ≤ fresh c4 ∧ new < fresh c4 ∧ nid < fresh c4)%nat as (Hfr & Hf1 & Hf2) by (unfold c4, hid'', nid, new; cbn; lia).
    assert (nodes c !! new = None ∧ nodes c !! nid = None ∧ new ≠ nid) as (Hnew & Hnid & Hne).
    { split_and!; [apply Hfresh; unfold new; lia|apply Hfresh; unfold nid, new; lia|unfold nid; lia]. }
    assert (∃ P', radix_inv F P' c4) as [P' HI4].
    { destruct nested as [y|].
      - destruct Hcase as (Hlt & Hcq & Hslot & hy & lb & -> & Hdy & Hhy & Hlb). eexists.
        eapply (split_core_nested HI) with (new := new) (nid := nid); eauto.
      - destruct Hcase as (Hlt & Hslot). eexists. eapply (split_core_flat HI) with (new := new) (nid := nid); eauto. }
    assert (Hdom : ∀ n, is_Some (nodes c !! n) ∨ n = new ∨ Some n = nested_node → is_Some (nodes c4 !! n)).
    { intros n Hn. unfold c4. cbn. destruct (decide (n = node)) as [-> |]; [by rewrite lookup_insert_eq|].
      rewrite lookup_insert_ne by done. unfold ns2. rewrite !put_slot_is_Some. unfold ns1, nested_node in *.
      destruct nested; rewrite !lookup_insert_is_Some'; naive_solver. }
    assert (pool c4 = pool c) as Hpool4 by done. clearbody c4.
    eapply wpr_split_account; try done.
  - intros _ c' (-> & [P' HI'] & Hg & Hn1 & Hn2). eapply wpr_split_push; [exact HI'|done|by destruct ba|done|done].
Qed.



(** Where [_insert] stands: [node] is at depth [d], its path agrees with the
    bytes up to there, and it is the root or the child of [parent]. *)
Definition insert_at (P : nat → CacheKey) (c : RadixCache) (ba : CacheKey) (parent : option nat) (node d : nat) : Prop :=
  ∃ x, nodes c !! node = Some x ∧ ch_depth (header x).2 = Z.of_nat d ∧ take d (P node) = take d ba ∧ (d < length ba)%nat ∧
    match parent with
    | None => P node = []
    | Some p => d = S (length (P p)) ∧ is_Some (nodes c !! p) ∧
        ∃ pb, ba !! length (P p) = Some pb ∧ next (slot (nodes c) (p, pb)) = Some node
    end.

(** The path of a node whose header agrees with the bytes. *)
Lemma header_path P c node x d ba :
  radix_inv F P c → nodes c !! node = Some x → ch_depth (header x).2 = Z.of_nat d → take d (P node) = take d ba →
  ch_partial (header x).2 = take (length (ch_partial (header x).2)) (drop d ba) →
  P node = take (d + length (ch_partial (header x).2)) ba ∧ length (P node) = (d + length (ch_partial (header x).2))%nat.
Proof.
  intros HI Hx Hd Hp Hpart.
  destruct (t_hdr _ _ _ _ _ (c_trie _ _ _ _ _ _ _ _ _ HI) node (header x)) as (_ & Hl & Hdrop & _); [unfold hdr; by rewrite Hx|].
  rewrite Hd, Nat2Z.id in *. split; [|lia]. rewrite <- (take_drop d (P node)), <- Hdrop, Hp, Hpart at 1.
  by rewrite take_take_drop.
Qed.

Lemma wpr_insert f P c ba parent node e d :
  radix_inv F P c → pending c ba e → (length ba < 8)%nat → insert_at P c ba parent node d → (length ba ≤ d + f)%nat →
  wpr (_insert fuel f ba e parent node (Z.of_nat d)) c (λ _ c', ∃ P', radix_inv F P' c' ∧ grown c c').
Proof.
  intros HI Hpe Hlen. revert P c parent node d HI Hpe.
  induction f as [|f IH]; intros P c parent node d HI Hpe (x & Hx & Hd & Hp & Hlt & Hpar) Hf; [lia|].
  cbn [_insert]. apply wpr_bind. eapply wpr_deref; [exact Hx|]. cbv zeta. rewrite Hd.
  destruct (header_mismatch_spec ba (ch_partial (header x).2) d 0) as (m & Hm & Hres); [left; lia|].
  apply wpr_bind. eapply wpr_pure; [exact Hm|]. destruct m as [[[i q] cur]|].
  - destruct Hres as (i' & -> & Hq & Hcur & Hsame & Hend). rewrite Nat.add_0_r in *. destruct parent as [p|].
    2:{ destruct (t_hdr _ _ _ _ _ (c_trie _ _ _ _ _ _ _ _ _ HI) node (header x)) as (_ & _ & Hdrop & _);
          [unfold hdr; by rewrite Hx|]. rewrite Hdrop, Hpar, drop_nil in Hq. done. }
    destruct Hpar as (-> & Hpn & pb & Hpb & Hnx). apply wpr_bind.
    eapply wpr_mono; [by eapply (wpr_insert_split P c ba p pb node x i')|].
    intros r c' (-> & P' & HI' & Hg). apply wpr_ret. by exists P'.
  - destruct Hres as (Hpart & Hin). rewrite Nat.add_0_r in *.
    destruct (header_path P c node x d ba HI Hx Hd Hp Hpart) as [Hpath Hpl].
    replace (Z.of_nat d + Z.of_nat (length (ch_partial (header x).2))) with (Z.of_nat (length (P node))) by lia.
    assert (length (P node) < length ba)%nat as Hlt' by (destruct Hin as [E|]; [rewrite E in Hpl; cbn in Hpl; lia|lia]).
    destruct (lookup_lt_is_Some_2 ba (length (P node))) as [b Hb]; [done|].
    assert (P node ++ [b] = take (S (length (P node))) ba) as Hnext.
    { rewrite (take_S_r _ _ _ Hb). by rewrite Hpl, <- Hpath at 1. }
    apply wpr_bind. eapply wpr_pure; [by apply idx_nat|].
    destruct (Z.eqb_spec (Z.of_nat (length (P node))) (Z.of_nat (length ba) - 1)) as [E|E].
    { eapply wpr_insert_here; [done|by exists x|]. rewrite Hnext, take_ge by lia. done. }
    apply wpr_bind, wpr_record_at; [by exists x|].
    pose proof (radix_inv_touch P c (node, b) HI) as HI1. pose proof (pending_touch c ba e (node, b) Hpe) as Hpe1.
    set (v := slot (nodes c) (node, b)) in *. set (c1 := set_nodes (put_slot (node, b) v (nodes c)) c) in *.
    assert (is_Some (nodes c1 !! node)) as Hn1 by (apply put_slot_is_Some; by exists x).
    assert (slot (nodes c1) (node, b) = v) as Hv by (cbn; rewrite slot_put_slot by (by exists x); by rewrite decide_True).
    assert (grown c c1) as Hg1 by (split; [intros m; cbn; by rewrite put_slot_is_Some|done]).
    destruct (next v) as [m|] eqn:Enx.
    + assert (next (slot (nodes c1) (node, b)) = Some m) as Hnx1 by by rewrite Hv.
      destruct (t_next _ _ _ _ _ (c_trie _ _ _ _ _ _ _ _ _ HI1) _ _ Hnx1) as (h & Hh & Hdh & Hpre). cbn [fst snd] in *.
      unfold hdr in Hh. destruct (nodes c1 !! m) as [y|] eqn:Ey; [|done]. injection Hh as <-.
      replace (Z.of_nat (length (P node)) + 1) with (Z.of_nat (S (length (P node)))) by lia.
      eapply wpr_mono; [eapply (IH P c1 (Some node) m (S (length (P node)))); [done|done| |lia]|].
      * exists y. split_and!; [done|lia| |lia|done|done|by exists b]. rewrite Hnext in Hpre. destruct Hpre as [l ->].
        rewrite take_app_le by (rewrite length_take; lia). rewrite take_take. f_equal. lia.
      * intros _ c' (P' & HI' & Hg). exists P'. split; [done|]. by etrans.
    + apply wpr_bind. eapply wpr_mono; [eapply (wpr_insert_child P c1 node b ba e); [done|done|by rewrite Hv|done|lia|lia|done]|].
      intros r c' (-> & P' & HI' & Hg). apply wpr_ret. exists P'. split; [done|]. by etrans.
Qed.

Lemma wpr_evict_loop f P c :
  radix_inv F P c → (length (eviction_list c) < f)%nat →
  wpr (evict_loop fuel f) c (λ _ c', radix_inv F P c' ∧ grown c c').
Proof.
  revert c. induction f as [|f IH]; intros c HI Hf; [lia|]. cbn [evict_loop]. apply wpr_bind, wpr_atomic.
  assert (∀ c1, radix_inv F P c1 → grown c c1 → (eviction_list c1 = [] ∨ length (eviction_list c1) < f)%nat →
    wpr (flag ← rd (λ c, bool_decide (eviction_list c = [])); r ← remain_size;
         if (r <? 0) && negb flag then evict_loop fuel f else mret flag) c1
      (λ _ c', radix_inv F P c' ∧ grown c c')) as Hnext.
  { intros c1 HI1 Hg1 Hl. apply wpr_bind, wpr_atomic, wpr_bind, wpr_atomic. cbn [fst snd]. case_bool_decide as Eev.
    - rewrite andb_false_r. by apply wpr_ret.
    - destruct (free_size c1 <? 0); [|by apply wpr_ret]. destruct Hl; [done|].
      eapply wpr_mono; [by apply IH|]. intros _ c' [HI' Hg']. split; [done|]. by etrans. }
  destruct (eviction_list c) as [|[s e] l] eqn:Eev; cbn [fst snd].
  - apply wpr_bind, wpr_ret. apply Hnext; [done..|by left].
  - pose proof (c_evict _ _ _ _ _ _ _ _ _ HI) as Hev. rewrite Eev in Hev. apply Forall_cons in Hev as [[x Hx] Hev].
    assert (radix_inv F P (set_eviction_list l c)) as HI1 by (destruct HI; by split).
    apply wpr_bind, wpr_bind. eapply wpr_deref; [exact Hx|]. cbn in Hf. case_decide.
    + eapply wpr_mono; [eapply (wpr_invalidate P); [exact HI1|by exists x]|].
      intros _ c1 (HI2 & Hg2 & Hev2 & _). apply Hnext; [done|exact Hg2|]. right. rewrite Hev2. cbn. lia.
    + apply wpr_ret, Hnext; [done..|]. right. cbn. lia.
Qed.

Lemma wpr_evict cache_size P c :
  radix_inv F P c → wpr (_evict fuel cache_size) c (λ _ c', (∃ P', radix_inv F P' c') ∧ grown c c').
Proof.
  intros HI. apply wpr_bind, wpr_atomic. cbn [fst snd]. apply wpr_bind. eapply wpr_mono; [apply (wpr_evict_loop _ P); [done|lia]|].
  intros flag c1 [HI1 Hg1]. destruct flag; [|apply wpr_ret; by eauto].
  do 3 (apply wpr_bind, wpr_atomic; cbn [fst snd set_fresh fresh]). apply wpr_bind, wpr_atomic.
  cbn [fst snd]. apply wpr_bind, wpr_atomic. cbn [set_nodes set_fresh cache_root]. rewrite decide_True by done. cbn [fst snd].
  apply wpr_bind, wpr_atomic, wpr_bind, wpr_atomic, wpr_atomic. cbn [fst snd]. set (m := fresh c1).
  assert (nodes c1 !! m = None) as Hm.
  { apply eq_None_not_Some. intros H. apply (c_fresh _ _ _ _ _ _ _ _ _ HI1) in H. unfold m in H. lia. }
  split.
  - exists (<[m := []]> P). apply (core_new_root m _ _ HI1 Hm); unfold m; cbn; lia.
  - etrans; [exact Hg1|]. split; [|done]. intros n Hn. apply lookup_insert_is_Some'. by right.
Qed.

Lemma wpr_add cache_size P c k p a :
  radix_inv F P c → cacheable k p → F k p a → (size (objects (pool c)) < pool_capacity)%nat → (8 ≤ fuel)%nat →
  wpr (radix_add_to_cache fuel cache_size k p a) c (λ _ c', (∃ P', radix_inv F P' c') ∧
    (∀ n, is_Some (nodes c !! n) → is_Some (nodes c' !! n)) ∧ (size (objects (pool c')) ≤ S (size (objects (pool c))))%nat).
Proof.
  intros HI Hc HF Hs Hf8. unfold radix_add_to_cache.
  destruct (Z.eqb_spec (h_depth (pg_hdr p) - 1) 0) as [E0|E0].
  { apply wpr_ret. split; [by exists P|]. split; [done|lia]. }
  destruct (cacheable_entry F k p a (clock c 0%nat) Hc HF) as (path & ce & Hpath & Hce & Hfact & Hlen).
  pose proof Hc as (_ & (_ & _ & Hu & _) & Hd & Hend & _). unfold keyLen, uint in *.
  apply wpr_bind. eapply wpr_pure; [exact Hpath|]. apply wpr_bind, wpr_atomic. cbn [fst snd].
  apply wpr_bind. eapply wpr_pure; [exact Hce|]. apply wpr_bind.
  destruct (allocate_wf pool_capacity (pool c) ce) as (e & pl & Hal & Hpl & Hnone & Hobj); [apply HI|done|].
  eapply wpr_atomic_res; [cbn [set_clock pool]; rewrite Hal; reflexivity|].
  set (c1 := set_pool pl (set_clock (λ i, clock c (S i)) c)).
  assert (unowned (slot (nodes c)) e ∧ e ∉ cache_entry_gc c) as [Hun Hgc].
  { split.
    - intros s Hse. destruct (t_entry _ _ _ _ _ (c_trie _ _ _ _ _ _ _ _ _ HI) s e Hse) as (? & ? & _). congruence.
    - intros Hin. apply (c_gc _ _ _ _ _ _ _ _ _ HI) in Hin as [[? ?] _]. congruence. }
  assert (radix_inv F P c1) as HI1.
  { destruct HI. split; try done; cbn [c1 set_pool pool].
    - eapply trie_obj; [done|]. intros s e' ce' Hs' He'. rewrite Hobj, lookup_insert_ne; [done|congruence].
    - intros e' He'. destruct (c_gc0 e' He') as [[y Hy] ?]. split; [|done]. rewrite Hobj. apply lookup_insert_is_Some'.
      right. by exists y. }
  assert (pending c1 path e) as Hpe.
  { split; [split_and!; [|done..]|]; cbn; rewrite Hobj, lookup_insert_eq; [done|by exists ce]. }
  assert (size (objects (pool c1)) = S (size (objects (pool c)))) as Hsz by (cbn; rewrite Hobj; by apply map_size_insert_None).
  apply wpr_bind, wpr_atomic. cbn [fst snd].
  destruct (c_root _ _ _ _ _ _ _ _ _ HI1) as [[x Hx] Hroot].
  apply wpr_bind. eapply wpr_mono.
  { apply (wpr_insert fuel P c1 path None (cache_root c1) e 0); [done|done|lia| |lia].
    exists x. destruct (t_hdr _ _ _ _ _ (c_trie _ _ _ _ _ _ _ _ _ HI1) (cache_root c1) (header x)) as (? & Hl & _);
      [unfold hdr; by rewrite Hx|]. rewrite Hroot in Hl. cbn in Hl. split_and!; [done|lia|done|lia|done]. }
  intros _ c2 (P2 & HI2 & [Hg1 Hg2]). apply wpr_bind, wpr_atomic. cbn [fst snd]. destruct (free_size c2 <? 0).
  - eapply wpr_mono; [by eapply wpr_evict|]. intros _ c3 (HP3 & [Hg3 Hg4]). split; [done|]. split; [auto|lia].
  - apply wpr_ret. split; [by exists P2|]. split; [auto|lia].
Qed.

(** *** Lookups

    An item of the stack: a slot on the path of [k], and its entry. *)
Definition item_ok (P : nat → CacheKey) (c : RadixCache) (k : Key) (it : SearchRet) : Prop :=
  let s := entry_ptr_ptr it in
  is_Some (nodes c !! s.1) ∧ next_idx it = Z.of_nat (length (P s.1)) + 1 ∧ next_idx it < keyLen ∧
  (P s.1 ++ [s.2]) `prefix_of` k ∧ entry_ptr it = cache_entry (slot (nodes c) s).

Fixpoint stack_ok (P : nat → CacheKey) (c : RadixCache) (k : Key) (ub : Z) (ret : list SearchRet) : Prop :=
  match ret with
  | [] => True
  | it :: ret => item_ok P c k it ∧ next_idx it <= ub ∧ stack_ok P c k (next_idx it - 1) ret
  end.

Lemma stack_ok_mono P c k ub ub' ret : stack_ok P c k ub ret → ub <= ub' → stack_ok P c k ub' ret.
Proof. destruct ret; [done|]. cbn. intros (? & ? & ?) ?. split_and!; [done|lia|done]. Qed.

Lemma stack_ok_nodes P c c' k ub ret : nodes c' = nodes c → stack_ok P c k ub ret → stack_ok P c' k ub ret.
Proof.
  intros Hn. revert ub. induction ret as [|it ret IH]; intros ub; [done|]. cbn. unfold item_ok. rewrite Hn.
  intros (? & ? & ?). auto.
Qed.

(** The stack does not see a change of a slot that is not in it. *)
Lemma stack_ok_other P c c' k ub s ret :
  stack_ok P c k ub ret → (∀ n, is_Some (nodes c !! n) → is_Some (nodes c' !! n)) →
  (∀ s', s' ≠ s → slot (nodes c') s' = slot (nodes c) s') → ub <= Z.of_nat (length (P s.1)) → stack_ok P c' k ub ret.
Proof.
  intros Hst Hn Hs. revert ub Hst. induction ret as [|it ret IH]; intros ub; [done|]. cbn.
  intros ((Hx & Hi & Hk & Hp & He) & Hub & Hr) Hl. split; [|split; [done|apply IH; [done|lia]]].
  split_and!; [by apply Hn|done..|]. rewrite Hs; [done|]. intros E. rewrite E in *. lia.
Qed.

Lemma wpr_search f P c k node d ret :
  radix_inv F P c → key_ok k → let ba := take (Z.to_nat (keyLen - 1)) k in
  (∃ x, nodes c !! node = Some x ∧ ch_depth (header x).2 = Z.of_nat d ∧ take d (P node) = take d ba) →
  stack_ok P c k (Z.of_nat d) ret → (d ≤ length ba)%nat → (length ba < d + f)%nat →
  wpr (_search f ba node (Z.of_nat d) ret) c (λ r c', c' = c ∧ stack_ok P c k (keyLen - 1) r).
Proof.
  intros HI Hk ba. assert (length ba = 7%nat) as H7.
  { unfold ba. rewrite length_take. destruct Hk as [-> _]. done. }
  assert (ba `prefix_of` k) as Hbk by apply prefix_take.
  revert node d ret. induction f as [|f IH]; intros node d ret (x & Hx & Hd & Hp) Hst Hle Hf; [lia|].
  cbn [_search]. destruct (Z.leb_spec (Z.of_nat (length ba)) (Z.of_nat d)).
  { apply wpr_ret. split; [done|]. eapply stack_ok_mono; [done|unfold keyLen; lia]. }
  apply wpr_bind. eapply wpr_deref; [exact Hx|]. cbv zeta. rewrite Hd.
  destruct (header_mismatch_spec ba (ch_partial (header x).2) d 0) as (m & Hm & Hres); [left; lia|].
  apply wpr_bind. eapply wpr_pure; [exact Hm|]. destruct m as [[[i q] cur]|].
  { apply wpr_ret. split; [done|]. eapply stack_ok_mono; [done|unfold keyLen; lia]. }
  destruct Hres as (Hpart & Hin). rewrite Nat.add_0_r in *.
  destruct (header_path P c node x d ba HI Hx Hd Hp Hpart) as [Hpath Hpl].
  replace (Z.of_nat d + Z.of_nat (length (ch_partial (header x).2))) with (Z.of_nat (length (P node))) by lia.
  assert (length (P node) < length ba)%nat as Hlt' by (destruct Hin as [E|]; [rewrite E in Hpl; cbn in Hpl; lia|lia]).
  destruct (lookup_lt_is_Some_2 ba (length (P node))) as [b Hb]; [done|].
  assert (P node ++ [b] = take (S (length (P node))) ba) as Hnext.
  { rewrite (take_S_r _ _ _ Hb). by rewrite Hpl, <- Hpath at 1. }
  apply wpr_bind. eapply wpr_pure; [by apply idx_nat|]. apply wpr_bind.
  eapply wpr_atomic_res; [by rewrite Hx|].
  destruct (records x !! b) as [v|] eqn:Ev.
  2:{ apply wpr_ret. split; [done|]. eapply stack_ok_mono; [done|unfold keyLen; lia]. }
  assert (slot (nodes c) (node, b) = v) as Hv by (unfold slot, slot_of; cbn; by rewrite Hx, Ev).
  set (it := SR (node, b) (cache_entry v) (Z.of_nat (length (P node)) + 1)).
  assert (stack_ok P c k (Z.of_nat (S (length (P node)))) (it :: ret)) as Hst'.
  { cbn. split; [|split; [lia|]].
    - split_and!; cbn; [by exists x|lia|unfold keyLen; lia| |by rewrite Hv].
      rewrite Hnext. etrans; [apply prefix_take|done].
    - eapply stack_ok_mono; [done|]. lia. }
  cbv zeta. destruct (next v) as [m|] eqn:Enx.
  - rewrite <- Hv in Enx. destruct (t_next _ _ _ _ _ (c_trie _ _ _ _ _ _ _ _ _ HI) _ _ Enx) as (h & Hh & Hdh & Hpre). cbn [fst snd] in *.
    unfold hdr in Hh. destruct (nodes c !! m) as [y|] eqn:Ey; [|done]. injection Hh as <-.
    replace (Z.of_nat (length (P node)) + 1) with (Z.of_nat (S (length (P node)))) in * by lia.
    apply IH; [|exact Hst'|lia|lia]. exists y. split_and!; [done|lia|]. rewrite Hnext in Hpre. destruct Hpre as [l ->].
    rewrite take_app_le by (rewrite length_take; lia). rewrite take_take. f_equal. lia.
  - apply wpr_ret. split; [done|]. eapply stack_ok_mono; [done|unfold keyLen; lia].
Qed.

Lemma wpr_pop_search P c k ub ret :
  radix_inv F P c → key_ok k → stack_ok P c k ub ret →
  wpr (pop_search fuel k ret) c (λ r c', radix_inv F P c' ∧ grown c c' ∧
    match r with Some (h, ce, i) => found_entry F k ce i ∧ is_Some (nodes c' !! h.1.1) | None => True end).
Proof.
  intros HI Hk. revert c ub HI. induction ret as [|it ret IH]; intros c ub HI; cbn [stack_ok pop_search].
  { intros _. by apply wpr_ret. }
  intros ((Hn & Hni & Hlt & Hpre & Hent) & Hub & Hst). set (s := entry_ptr_ptr it) in *.
  assert (∃ b, k !! length (P s.1 ++ [s.2]) = Some b) as [b Hb].
  { apply lookup_lt_is_Some_2. destruct Hk as [-> _]. change klen with 8%nat. rewrite length_app. cbn. unfold keyLen in *. lia. }
  apply wpr_bind. eapply wpr_pure.
  { rewrite Hni. replace (Z.of_nat (length (P s.1)) + 1) with (Z.of_nat (length (P s.1 ++ [s.2]))) by (rewrite length_app; cbn; lia).
    by apply at_of_nat. }
  rewrite Hent. destruct (cache_entry (slot (nodes c) s)) as [e|] eqn:Ee; [|by eapply IH].
  destruct (t_entry _ _ _ _ _ (c_trie _ _ _ _ _ _ _ _ _ HI) s e Ee) as (ce & Hce & Hfact).
  apply wpr_bind. eapply wpr_deref_entry; [exact Hce|]. apply wpr_bind, wpr_atomic. cbn [fst snd].
  set (c1 := set_clock (λ i, clock c (S i)) c). destruct (is_expired _ ce).
  - apply wpr_bind. eapply wpr_mono; [eapply (wpr_invalidate P c1 s e); [exact HI|done]|].
    intros _ c2 (HI2 & Hg2 & _ & Hsl). eapply wpr_mono; [eapply (IH c2 (next_idx it - 1) HI2)|].
    { eapply (stack_ok_other P c c2 k _ s); [done|apply Hg2|exact Hsl|lia]. }
    intros r c3 (HI3 & Hg3 & Hr). split; [done|]. split; [|done]. by etrans.
  - destruct (find_record (ce_records ce) b 0) as [i|] eqn:Efr.
    2:{ eapply (IH c1); [exact HI|]. by apply (stack_ok_nodes P c c1 k (next_idx it - 1)). }
    apply wpr_ret. split; [exact HI|]. split; [done|]. split; [|done]. eapply entry_found; [exact Hfact|exact Efr|].
    destruct Hpre as [l ->]. rewrite lookup_app_r in Hb by lia. rewrite Nat.sub_diag in Hb.
    destruct l as [|b' l]; [done|]. injection Hb as ->. exists l. by rewrite <- (app_assoc (P s.1 ++ [s.2])).
Qed.

Lemma wpr_search_from_cache P c k :
  radix_inv F P c → key_ok k → (9 ≤ fuel)%nat →
  wpr (radix_search_from_cache fuel k) c (λ r c', radix_inv F P c' ∧ grown c c' ∧
    match r with Some (h, ce, i) => found_entry F k ce i ∧ is_Some (nodes c' !! h.1.1) | None => True end).
Proof.
  intros HI Hk Hf9. destruct (c_root _ _ _ _ _ _ _ _ _ HI) as [[x Hx] Hroot].
  destruct (t_hdr _ _ _ _ _ (c_trie _ _ _ _ _ _ _ _ _ HI) (cache_root c) (header x)) as (? & Hl & _);
    [unfold hdr; by rewrite Hx|]. rewrite Hroot in Hl. cbn in Hl.
  apply wpr_bind, wpr_atomic. cbn [fst snd]. apply wpr_bind. eapply wpr_mono.
  { apply (wpr_search fuel P c k (cache_root c) 0 []); [done|done| |done|lia|].
    - exists x. split_and!; [done|lia|done].
    - rewrite length_take. unfold keyLen. lia. }
  intros r c1 (-> & Hst). eapply wpr_mono; [by eapply wpr_pop_search|]. done.
Qed.
End operations.

(** ** The promises of the cache *)
Definition radix_cache_inv F (c : RadixCache) : Prop := ∃ P, radix_inv F P c.

Lemma radix_inv_mono F F' P c : (∀ k p a, F k p a → F' k p a) → radix_inv F P c → radix_inv F' P c.
Proof.
  intros HF [[] ? ? ? ? ? ? ?]. split; try done. split; try done.
  intros s e He. destruct (t_entry0 s e He) as (ce & ? & k & p & ? & ?). exists ce. split; [done|]. exists k, p. eauto.
Qed.

Definition radix_room (c : RadixCache) : nat := pool_capacity - size (objects (pool c)).

Definition radix_handle_ok (h : (nat * Z) * nat) (c : RadixCache) : Prop := is_Some (nodes c !! h.1.1).

(** With enough fuel for the eight bytes of a key. *)
Section laws.
Context (fuel : nat) (cache_size : Z) (Hfuel : (9 ≤ fuel)%nat).

Lemma radix_law_mono F F' c : (∀ k p a, F k p a → F' k p a) → radix_cache_inv F c → radix_cache_inv F' c.
Proof. intros HF [P HI]. exists P. by eapply radix_inv_mono. Qed.

Lemma radix_law_add F k p addr c :
  radix_cache_inv F c → (0 < radix_room c)%nat → cacheable k p → F k p addr →
  ∃ c', run (radix_add_to_cache fuel cache_size k p addr) c = Ok (tt, c') ∧ radix_cache_inv F c' ∧
    (radix_room c ≤ S (radix_room c'))%nat ∧ (∀ h, radix_handle_ok h c → radix_handle_ok h c').
Proof.
  unfold radix_room. intros [P HI] Hroom Hc HF.
  destruct (wpr_add F fuel ltac:(lia) cache_size P c k p addr) as ([] & c' & Hr & HI' & Hn & Hs); [done..|lia|lia|].
  exists c'. split; [exact Hr|]. split; [exact HI'|]. split; [lia|]. intros h. apply Hn.
Qed.

Lemma radix_law_search F k c :
  radix_cache_inv F c → key_ok k →
  ∃ r c', run (radix_search_from_cache fuel k) c = Ok (r, c') ∧ radix_cache_inv F c' ∧ (radix_room c ≤ radix_room c')%nat ∧
    (∀ h, radix_handle_ok h c → radix_handle_ok h c') ∧
    match r with Some (h, ce, i) => found_entry F k ce i ∧ radix_handle_ok h c' | None => True end.
Proof.
  unfold radix_room. intros [P HI] Hk.
  destruct (wpr_search_from_cache F fuel ltac:(lia) P c k) as (r & c' & Hr & HI' & [Hn Hs] & Hres); [done..|].
  exists r, c'. split; [exact Hr|]. split; [by exists P|]. split; [lia|]. split; [intros h; apply Hn|exact Hres].
Qed.

Lemma radix_law_invalidate F c h :
  radix_cache_inv F c → radix_handle_ok h c →
  ∃ c', run (radix_invalidate fuel h) c = Ok (tt, c') ∧ radix_cache_inv F c' ∧ (radix_room c ≤ radix_room c')%nat ∧
    (∀ h, radix_handle_ok h c → radix_handle_ok h c').
Proof.
  unfold radix_room. destruct h as [s e]. intros [P HI] Hs.
  destruct (wpr_invalidate F fuel ltac:(lia) P c s e) as ([] & c' & Hr & HI' & [Hn Hs'] & _); [done..|].
  exists c'. split; [exact Hr|]. split; [by exists P|]. split; [lia|]. intros h. apply Hn.
Qed.

#[export] Instance RadixCache_laws : @IndexCacheLaws (RadixCache_index fuel cache_size) :=
  @Build_IndexCacheLaws (RadixCache_index fuel cache_size) radix_cache_inv radix_room radix_handle_ok
    radix_law_mono radix_law_add radix_law_search radix_law_invalidate.
End laws.

Lemma radix_new_room cache_size clock : radix_room (radix_new cache_size clock) = pool_capacity.
Proof. apply Nat.sub_0_r. Qed.

Lemma radix_new_inv F cache_size clock : radix_cache_inv F (radix_new cache_size clock).
Proof.
  assert (∀ s, slot (nodes (radix_new cache_size clock)) s = CNV None None) as Hsl.
  { intros [n b]. unfold slot. cbn [fst snd radix_new nodes]. destruct (decide (n = 0%nat)) as [-> |].
    - rewrite lookup_singleton_eq. unfold slot_of. cbn [records]. by rewrite lookup_empty.
    - by rewrite lookup_singleton_ne. }
  exists (λ _, []). split.
  - split; intros; rewrite ?Hsl in *; try done. unfold hdr in *. cbn [radix_new nodes] in *.
    match goal with H : _ <$> _ = Some _ |- _ => apply fmap_Some in H as (x & Hx & ->) end.
    apply lookup_singleton_Some in Hx as [<- <-]. by split_and!.
  - intros n [x Hx]. cbn in Hx. apply lookup_singleton_Some in Hx as [<- _]. cbn. lia.
  - split; [|done]. cbn. by rewrite lookup_singleton_eq.
  - apply pool_new_wf.
  - constructor.
  - intros e He. by apply not_elem_of_nil in He.
  - cbn. lia.
  - cbn. lia.
  - constructor.
Qed.

(** C6. After any sequence of lookups, invalidations and additions of at most
    as many pages as the object pool holds, starting with an empty cache and
    whatever the clock and the size limit are, every operation has ended without
    an error, and what a lookup gives is a record of a page that was added: the
    record lies on the path of the key that is looked up. *)
Theorem radix_cache_sound (fuel : nat) (cache_size : Z) (clock : nat → Z) (ops : list cache_op)
    (Hfuel : (9 ≤ fuel)%nat) (Hops : Forall op_ok ops) (Hadds : (adds ops ≤ pool_capacity)%nat) :
  ∃ c, run (@cache_do_all (RadixCache_index fuel cache_size) ops) (radix_new cache_size clock) = Ok (tt, c) ∧
    ∀ k, key_ok k → ∃ r c', run (radix_search_from_cache fuel k) c = Ok (r, c') ∧
      match r with Some (_, ce, i) => found_entry (added ops) k ce i | None => True end.
Proof.
  pose proof (radix_new_room cache_size clock) as Hroom.
  destruct (@cache_do_all_inv _ (RadixCache_laws fuel cache_size Hfuel) (added ops) ops (radix_new cache_size clock)) as (c & Hr & Hc);
    [apply radix_new_inv|done|unfold cache_room, RadixCache_laws; by rewrite Hroom|done|].
  exists c. split; [exact Hr|]. intros k Hk.
  destruct (radix_law_search fuel Hfuel (added ops) k c Hc Hk) as (r & c' & Hr' & _ & _ & _ & Hres).
  exists r, c'. split; [exact Hr'|]. destruct r as [[[h ce] i]|]; [apply Hres|done].
Qed.

Lemma radix_cache_sound_witness :
  ∃ c, run (@cache_do_all (RadixCache_index 9 60000) example_ops) (radix_new 60000 (λ i, Z.of_nat i)) = Ok (tt, c) ∧
    ∃ r c', run (radix_search_from_cache 9 example_key) c = Ok (r, c') ∧
      match r with Some (_, ce, i) => found_entry (added example_ops) example_key ce i | None => True end.
Proof.
  assert (Hk : key_ok example_key) by (apply (bool_decide_unpack _); by vm_compute).
  destruct (radix_cache_sound 9 60000 (λ i, Z.of_nat i) example_ops) as (c & Hr & Hc).
  - lia.
  - apply example_ops_ok.
  - pose proof pool_capacity_val. change (adds example_ops) with 2%nat. lia.
  - exists c. split; [exact Hr|]. exact (Hc _ Hk).
Defined.
