(* ===== verification/NormalCache.v ===== *)
(** * The hash-based index cache (include/NormalCache.h, src/NormalCache.cpp)

    A concurrent hash map from key prefixes to cache entries; the build can use
    it in place of the radix cache. Entries are heap objects with an identity,
    because the code compares their pointers; the element of a prefix is never
    erased, so that the prefix stands for the element's address. What [now_ns]
    will return is part of the state. *)

From Stdlib Require Import ZArith Lia Bool.
From stdpp Require Import base tactics decidable option numbers list gmap.
From S2P Require Import Prelude.
From S2P Require Import Common.
From S2P Require Import Keys.
From S2P Require Import Address.
From S2P Require Import Nodes.
From S2P Require Import Process.
From S2P Require Import IndexCache.

(** The cache, with the heap of its entries ([fresh] is the next identity). A
    null pointer is [None]. *)
Record NormalCache : Type := Normal {
  keys : list CacheKey;
  cache_map : gmap CacheKey (option nat);
  heap : gmap nat CacheEntry;
  fresh : nat;
  free_size : Z;
  cache_entry_gc : list nat;
  eviction_list : list (CacheKey * nat);
  clock : nat → Z
}.

Abbreviation np := (proc NormalCache).

Definition safely_free_epoch : nat := Z.to_nat (2 * MAX_APP_THREAD * MAX_CORO_NUM).

(** The sizes of an entry pointer and of a key. *)
Definition sizeof_ptr : Z := 8.
Definition sizeof_Key : Z := keyLen.

(** [cache_key_hash]: a 64-bit word, so the last eight bytes. *)
Definition cache_key_hash (key : CacheKey) : Z :=
  foldl (λ hash_key partial, wrap 64 (wrap 64 (Z.shiftl hash_key 8) + partial)) 0 key.

Definition set_keys (x : list CacheKey) (c : NormalCache) : NormalCache :=
  Normal x (cache_map c) (heap c) (fresh c) (free_size c) (cache_entry_gc c) (eviction_list c) (clock c).
Definition set_cache_map (x : gmap CacheKey (option nat)) (c : NormalCache) : NormalCache :=
  Normal (keys c) x (heap c) (fresh c) (free_size c) (cache_entry_gc c) (eviction_list c) (clock c).
Definition set_heap (x : gmap nat CacheEntry) (c : NormalCache) : NormalCache :=
  Normal (keys c) (cache_map c) x (fresh c) (free_size c) (cache_entry_gc c) (eviction_list c) (clock c).
Definition set_fresh (x : nat) (c : NormalCache) : NormalCache :=
  Normal (keys c) (cache_map c) (heap c) x (free_size c) (cache_entry_gc c) (eviction_list c) (clock c).
Definition set_free_size (x : Z) (c : NormalCache) : NormalCache :=
  Normal (keys c) (cache_map c) (heap c) (fresh c) x (cache_entry_gc c) (eviction_list c) (clock c).
Definition set_entry_gc (x : list nat) (c : NormalCache) : NormalCache :=
  Normal (keys c) (cache_map c) (heap c) (fresh c) (free_size c) x (eviction_list c) (clock c).
Definition set_eviction_list (x : list (CacheKey * nat)) (c : NormalCache) : NormalCache :=
  Normal (keys c) (cache_map c) (heap c) (fresh c) (free_size c) (cache_entry_gc c) x (clock c).
Definition set_clock (x : nat → Z) (c : NormalCache) : NormalCache :=
  Normal (keys c) (cache_map c) (heap c) (fresh c) (free_size c) (cache_entry_gc c) (eviction_list c) x.

(** ** Accesses *)
Definition rd {A} (f : NormalCache → A) : np A := atomic (λ c, (f c, c)).
Definition wr (f : NormalCache → NormalCache) : np unit := atomic (λ c, (tt, f c)).

Definition now_ns : np Z := atomic (λ c, (clock c 0%nat, set_clock (λ i, clock c (S i)) c)).
Definition deref_entry (e : nat) : np CacheEntry :=
  atomic_res (λ c, match heap c !! e with Some x => Ok (x, c) | None => Fail EUndef end).
Definition new_entry_at (x : CacheEntry) : np nat :=
  atomic (λ c, (fresh c, set_fresh (S (fresh c)) (set_heap (<[fresh c := x]> (heap c)) c))).
Definition delete_entry (e : nat) : np unit :=
  atomic_res (λ c, match heap c !! e with
                   | Some _ => Ok (tt, set_heap (delete e (heap c)) c)
                   | None => Fail EUndef end).

(** [cache_map[byte_array]], which creates the element. *)
Definition map_at (s : CacheKey) : np (option nat) :=
  atomic (λ c, match cache_map c !! s with
               | Some v => (v, c)
               | None => (None, set_cache_map (<[s := None]> (cache_map c)) c) end).

(** An element through its address. *)
Definition load_slot (s : CacheKey) : np (option nat) :=
  atomic_res (λ c, match cache_map c !! s with Some v => Ok (v, c) | None => Fail EUndef end).
Definition cas_slot (s : CacheKey) (old new : option nat) : np bool :=
  atomic_res (λ c, match cache_map c !! s with
                   | Some v => if decide (v = old) then Ok (true, set_cache_map (<[s := new]> (cache_map c)) c)
                               else Ok (false, c)
                   | None => Fail EUndef end).

(** [free_size.fetch_add(x)]; the amounts are unsigned and wrap around. *)
Definition fetch_add (x : Z) : np unit := wr (λ c, set_free_size (sint 64 (free_size c + x)) c).

(** [_safely_delete]: entries leave the queue once it is longer than the epoch. *)
Fixpoint drain_gc (fuel : nat) : np unit :=
  match fuel with
  | O => Crash EFuel
  | S fuel =>
    n ← rd (λ c, length (cache_entry_gc c));
    if (safely_free_epoch <? n)%nat then
      next ← atomic (λ c, match cache_entry_gc c with
                          | e :: l => (Some e, set_entry_gc l c)
                          | [] => (None, c)
                          end);
      match next with Some e => delete_entry e | None => mret tt end ;;
      drain_gc fuel
    else mret tt
  end.

Section normal.
(** [fuel] bounds each retry loop (the eviction loop also runs once for every
    element of its list); [cache_size] is in MB. *)
Context (fuel : nat) (cache_size : Z).

Definition _safely_delete (cache_entry : nat) : np unit :=
  wr (λ c, set_entry_gc (cache_entry_gc c ++ [cache_entry]) c) ;; drain_gc fuel.

(** [NormalCache(cache_size, dsm)] *)
Definition normal_new (clock : nat → Z) : NormalCache :=
  Normal [] ∅ ∅ 0 (sint 64 (MB * cache_size)) [] [] clock.

(** [invalidate(entry_ptr_ptr, entry_ptr)] *)
Definition normal_invalidate (h : CacheKey * nat) : np unit :=
  ok ← cas_slot h.1 (Some h.2) None;
  if ok : bool then
    x ← deref_entry h.2;
    fetch_add (sizeof_ptr + content_size x + sizeof_Key) ;;
    _safely_delete h.2
  else mret tt.

Definition _insert (byte_array : CacheKey) (new_entry : nat) : np unit :=
  found ← rd (λ c, bool_decide (is_Some (cache_map c !! byte_array)));
  (if negb found then wr (λ c, set_keys (keys c ++ [byte_array]) c) else mret tt) ;;
  old_entry ← map_at byte_array;
  map_at byte_array ;;
  ok ← cas_slot byte_array old_entry (Some new_entry);
  if ok : bool then
    x ← deref_entry new_entry;
    fetch_add (- sizeof_ptr - content_size x) ;;
    match old_entry with
    | Some old => y ← deref_entry old; fetch_add (content_size y) ;; _safely_delete old
    | None => fetch_add (- sizeof_Key)
    end ;;
    map_at byte_array ;;
    wr (λ c, set_eviction_list (eviction_list c ++ [(byte_array, new_entry)]) c)
  else delete_entry new_entry.

(** [_evict]: at least one round, and on until there is room. *)
Fixpoint evict_loop (n : nat) : np unit :=
  match n with
  | O => Crash EFuel
  | S n =>
    next ← atomic (λ c, match eviction_list c with
                        | h :: l => (Some h, set_eviction_list l c)
                        | [] => (None, c)
                        end);
    match next with
    | Some h => v ← load_slot h.1; if decide (v = Some h.2) then normal_invalidate h else mret tt
    | None => mret tt
    end ;;
    r ← rd free_size;
    if r <? 0 then evict_loop n else mret tt
  end.

Definition _evict : np unit :=
  n ← rd (λ c, length (eviction_list c)); evict_loop (fuel + n).

Definition normal_add_to_cache (k : Key) (p_node : InternalPage) (node_addr : GlobalAddress) : np unit :=
  byte_array ← pure (cache_key k p_node);
  now ← now_ns;
  e ← pure (entry_make now p_node node_addr);
  new_entry ← new_entry_at e;
  _insert byte_array new_entry ;;
  r ← rd free_size;
  if r <? 0 then _evict else mret tt.

(** One round of [_search], at one prefix. *)
Definition search_prefix (byte_prefix : CacheKey) (last_byte : byte) : np (option ((CacheKey * nat) * CacheEntry * Z)) :=
  r_entry ← rd (λ c, cache_map c !! byte_prefix);
  match r_entry with
  | None => mret None
  | Some _ =>
    entry_ptr ← load_slot byte_prefix;
    match entry_ptr with
    | None => mret None
    | Some e =>
      x ← deref_entry e;
      now ← now_ns;
      if is_expired now x then normal_invalidate (byte_prefix, e) ;; mret None
      else match find_record (ce_records x) last_byte 0 with
           | Some i => mret (Some ((byte_prefix, e), x, i))
           | None => mret None
           end
    end
  end.

(** [_search]: the bytes of the prefix, the last one first. *)
Fixpoint _search (rprefix : list byte) (last_byte : byte) : np (option ((CacheKey * nat) * CacheEntry * Z)) :=
  r ← search_prefix (reverse rprefix) last_byte;
  match r with
  | Some r => mret (Some r)
  | None => match rprefix with
            | [] => mret None
            | b :: rprefix => _search rprefix b
            end
  end.

Definition normal_search_from_cache (k : Key) : np (option ((CacheKey * nat) * CacheEntry * Z)) :=
  b ← pure (at_ k (keyLen - 1));
  _search (reverse (take (Z.to_nat (keyLen - 1)) k)) b.

#[export] Instance NormalCache_index : IndexCache := {|
  cache := NormalCache;
  handle := (CacheKey * nat);
  add_to_cache := normal_add_to_cache;
  search_from_cache := normal_search_from_cache;
  invalidate := normal_invalidate
|}.

(** The same loop as in the other cache. *)
Definition normal_search_range_from_cache (n : nat) (from to : Key) : np (list (RangeCache (CacheKey * nat))) :=
  search_range_from_cache n from to.

(** [statistics]: the number of entries of each depth and of their records. *)
Definition normal_statistics (c : NormalCache) : gmap Z Z * Z :=
  foldl (λ '(cnt, kp_cnt) e, (<[ce_depth e := default 0 (cnt !! ce_depth e) + 1]> cnt,
                              kp_cnt + Z.of_nat (length (ce_records e))))
    (∅, 0)
    (omap (λ v, e ← v.2; heap c !! e) (map_to_list (cache_map c))).
End normal.
