(* ===== verification/NormalLaws.v ===== *)
(** * What the hash-based index cache promises

    [NormalCache] obeys the laws that the tree asks of its cache, whatever is
    evicted and expires, and its eviction loop ends. The byte accounting loses
    the size of a pointer with every entry that is replaced. *)

From Stdlib Require Import ZArith Lia Bool.
From stdpp Require Import base tactics decidable option numbers list gmap fin_maps.
From S2P Require Import Prelude.
From S2P Require Import Common.
From S2P Require Import Keys.
From S2P Require Import Address.
From S2P Require Import Nodes.
From S2P Require Import Process.
From S2P Require Import IndexCache.
From S2P Require Import NormalCache.

(** ** Sums over a map *)
Section map_sum.
Context `{Countable K} {A : Type}.
Implicit Types (f : A → Z) (m : gmap K A).

Definition map_sum f m : Z := sum_of (λ kv, f kv.2) (map_to_list m).

Lemma map_sum_empty f : map_sum f ∅ = 0.
Proof. unfold map_sum. by rewrite map_to_list_empty. Qed.

Lemma map_sum_insert_new f m k v : m !! k = None → map_sum f (<[k := v]> m) = f v + map_sum f m.
Proof. intros Hk. unfold map_sum. by rewrite (sum_of_perm _ _ _ (map_to_list_insert m k v Hk)). Qed.

Lemma map_sum_insert f m k v w : m !! k = Some w → map_sum f (<[k := v]> m) = map_sum f m - f w + f v.
Proof.
  intros Hk. rewrite <- insert_delete_eq, map_sum_insert_new by apply lookup_delete_eq.
  rewrite <- (insert_id m k w Hk) at 2. rewrite <- (insert_delete_eq m k w), map_sum_insert_new by apply lookup_delete_eq. lia.
Qed.

Lemma map_sum_ext f g m : (∀ k v, m !! k = Some v → f v = g v) → map_sum f m = map_sum g m.
Proof.
  induction m as [|k v m Hk IH] using map_ind; intros Hfg; [by rewrite !map_sum_empty|].
  rewrite !map_sum_insert_new by done. rewrite (Hfg k v) by apply lookup_insert_eq. rewrite IH; [done|].
  intros k' v' Hk'. apply (Hfg k'). by rewrite lookup_insert_ne by congruence.
Qed.

Lemma map_sum_zero f m : (∀ k v, m !! k = Some v → f v = 0) → map_sum f m = 0.
Proof.
  intros Hf. rewrite (map_sum_ext f (λ _, 0)) by exact Hf. unfold map_sum.
  induction (map_to_list m) as [|kv l IH]; [done|]. unfold sum_of in *. cbn. exact IH.
Qed.

Lemma map_sum_nonneg f m : (∀ v, 0 <= f v) → 0 <= map_sum f m.
Proof. intros Hf. apply sum_of_nonneg. intros kv. apply Hf. Qed.

Lemma map_sum_elem f m k v : (∀ v, 0 <= f v) → m !! k = Some v → f v <= map_sum f m.
Proof.
  intros Hf Hk. rewrite <- (insert_id m k v Hk), <- insert_delete_eq, map_sum_insert_new by apply lookup_delete_eq.
  pose proof (map_sum_nonneg f (delete k m) Hf). lia.
Qed.
End map_sum.

Lemma sint_small x : -2 ^ 63 <= x < 2 ^ 63 → sint 64 x = x.
Proof.
  intros Hx. unfold sint. change (2 ^ 64) with (2 * 2 ^ 63) in *. set (p := 2 ^ 63) in *. assert (0 < p) by done. cbv zeta.
  destruct (Z_lt_le_dec x 0).
  - rewrite <- (Z_mod_plus_full x 1), Z.mod_small by lia. rewrite (proj2 (Z.ltb_ge _ _)) by lia. lia.
  - rewrite Z.mod_small by lia. rewrite (proj2 (Z.ltb_lt _ _)) by lia. done.
Qed.

(** ** The invariant *)

(** The entry of a prefix; no element is as good as a null pointer. *)
Definition slot (c : NormalCache) (s : CacheKey) : option nat := default None (cache_map c !! s).

(** What a pointer costs. *)
Definition cost (h : gmap nat CacheEntry) (v : option nat) : Z :=
  match v with
  | Some e => match h !! e with Some x => sizeof_ptr + content_size x + sizeof_Key | None => 0 end
  | None => 0
  end.

Definition used (c : NormalCache) : Z := map_sum (cost (heap c)) (cache_map c).

(** The bytes the cache has if all entries go. *)
Definition budget (c : NormalCache) : Z := free_size c + used c.

Lemma cost_nonneg h v : 0 <= cost h v.
Proof. destruct v as [e|]; [|done]. cbn. destruct (h !! e); [|done]. unfold content_size, sizeof_ptr, sizeof_Key, keyLen. lia. Qed.

(** The queue of entries that will be deleted. *)
Definition gc_ok (h : gmap nat CacheEntry) (gc : list nat) : Prop :=
  NoDup gc ∧ (∀ e, e ∈ gc → is_Some (h !! e)) ∧ (length gc ≤ safely_free_epoch)%nat.

Section invariant.
Context (F : Key → InternalPage → GlobalAddress → Prop).

Record normal_core (c : NormalCache) : Prop := {
  n_entry s e : slot c s = Some e → ∃ ce, heap c !! e = Some ce ∧ entry_fact F s ce ∧ (s, e) ∈ eviction_list c;
  n_inj s s' e : slot c s = Some e → slot c s' = Some e → s = s';
  n_gc : gc_ok (heap c) (cache_entry_gc c);
  n_gc_out e s : e ∈ cache_entry_gc c → slot c s ≠ Some e;
  n_fresh e : is_Some (heap c !! e) → (e < fresh c)%nat;
  n_evict s e : (s, e) ∈ eviction_list c → is_Some (cache_map c !! s);
  n_budget : 0 <= budget c <= 2 ^ 62;
  n_free : - 2 ^ 37 <= free_size c
}.

(** Between the operations nothing is overdrawn. *)
Definition normal_inv (c : NormalCache) : Prop := normal_core c ∧ 0 <= free_size c.

(** The elements stay. *)
Definition grown (c c' : NormalCache) : Prop := ∀ s, is_Some (cache_map c !! s) → is_Some (cache_map c' !! s).
#[export] Instance grown_preorder : PreOrder grown.
Proof. split; [by intros c s|]. intros c1 c2 c3 H12 H23 s Hs. auto. Qed.

Lemma nc_slot_insert c s v s' : slot (set_cache_map (<[s := v]> (cache_map c)) c) s' = if decide (s = s') then v else slot c s'.
Proof.
  unfold slot. cbn. case_decide as E; [subst; by rewrite lookup_insert_eq|by rewrite lookup_insert_ne].
Qed.

Lemma slot_new ks m h fr x gc ev cl s v : slot (Normal ks (<[s := v]> m) h fr x gc ev cl) s = v.
Proof. unfold slot. cbn. by rewrite lookup_insert_eq. Qed.

Lemma slot_elem c s e : slot c s = Some e → cache_map c !! s = Some (Some e).
Proof. unfold slot. destruct (cache_map c !! s) as [[]|]; cbn; congruence. Qed.

Lemma used_insert c s v h :
  (∀ s' e, s' ≠ s → slot c s' = Some e → h !! e = heap c !! e) →
  map_sum (cost h) (<[s := v]> (cache_map c)) = used c - cost (heap c) (slot c s) + cost h v.
Proof.
  intros Hh. assert (map_sum (cost h) (<[s := None]> (cache_map c)) = map_sum (cost (heap c)) (<[s := None]> (cache_map c))) as E.
  { apply map_sum_ext. intros s' [e|] Hs'; [|done]. cbn. destruct (decide (s = s')) as [<-|Hn].
    - by rewrite lookup_insert_eq in Hs'.
    - rewrite lookup_insert_ne in Hs' by done. rewrite (Hh s' e); [done|done|]. unfold slot. by rewrite Hs'. }
  rewrite <- (insert_insert_eq (cache_map c) s v None), (map_sum_insert _ _ _ _ None), E by apply lookup_insert_eq.
  unfold used, slot. destruct (cache_map c !! s) as [w|] eqn:Hw.
  - rewrite (map_sum_insert _ _ _ _ w Hw). cbn. lia.
  - rewrite map_sum_insert_new by done. cbn. lia.
Qed.

(** A page that is alone in the cache. *)
Definition alone (c : NormalCache) (s : CacheKey) : Prop := ∀ s', s' ≠ s → slot c s' = None.

Lemma used_alone c s : alone c s → used c = cost (heap c) (slot c s).
Proof.
  intros Ha. pose proof (used_insert c s None (heap c) ltac:(done)) as E. rewrite map_sum_zero in E; [cbn in E; lia|].
  intros s' v Hv. destruct (decide (s = s')) as [<-|Hn]; [rewrite lookup_insert_eq in Hv; by injection Hv as <-|].
  rewrite lookup_insert_ne in Hv by done. pose proof (Ha s' ltac:(done)) as Hs'. unfold slot in Hs'. rewrite Hv in Hs'. cbn in Hs'. by rewrite Hs'.
Qed.

(** A new value for one element. *)
Lemma core_put c s v ks h' fr x gc' ev' cl :
  normal_core c → gc_ok h' gc' →
  (∀ e, e ∈ gc' → e ∈ cache_entry_gc c ∨ slot c s = Some e) →
  (∀ s' e, s' ≠ s → slot c s' = Some e → h' !! e = heap c !! e) →
  (∀ e, is_Some (h' !! e) → (e < fr)%nat) →
  (∀ s' e, s' ≠ s → (s', e) ∈ eviction_list c → (s', e) ∈ ev') →
  (∀ s' e, (s', e) ∈ ev' → s' = s ∨ (s', e) ∈ eviction_list c) →
  match v with
  | Some e => e ∉ gc' ∧ (∀ s', slot c s' ≠ Some e) ∧ (s, e) ∈ ev' ∧ ∃ ce, h' !! e = Some ce ∧ entry_fact F s ce
  | None => True
  end →
  - 2 ^ 37 <= x → x + (used c - cost (heap c) (slot c s) + cost h' v) = budget c ∨
    x + (used c - cost (heap c) (slot c s) + cost h' v) = budget c - sizeof_ptr ∧ sizeof_ptr <= budget c →
  normal_core (Normal ks (<[s := v]> (cache_map c)) h' fr x gc' ev' cl).
Proof.
  intros Hc Hgc Hgc' Hh Hfr Hev Hev' Hv Hx Hb.
  set (c' := Normal _ _ _ _ _ _ _ _). assert (Hsl : ∀ s', slot c' s' = if decide (s = s') then v else slot c s').
  { intros s'. unfold slot, c'. cbn. case_decide as E; [subst; by rewrite lookup_insert_eq|by rewrite lookup_insert_ne]. }
  split.
  - intros s' e. rewrite Hsl. case_decide as E.
    + subst s'. intros ->. destruct Hv as (_ & _ & ? & ce & ? & ?). eauto.
    + intros Hs'. destruct (n_entry _ Hc s' e Hs') as (ce & Hce & Hf & Hin). exists ce. cbn.
      rewrite (Hh s' e) by done. split_and!; [done..|]. by apply Hev.
  - intros s1 s2 e. rewrite !Hsl. repeat case_decide; subst; try done.
    + intros -> He. destruct Hv as (_ & Hv & _). by destruct (Hv s2).
    + intros He ->. destruct Hv as (_ & Hv & _). by destruct (Hv s1).
    + by apply (n_inj _ Hc).
  - exact Hgc.
  - intros e s' He. rewrite Hsl. case_decide as E.
    + intros ->. by destruct Hv as [Hv _].
    + destruct (Hgc' e He) as [Hin|Hs]; [by apply (n_gc_out _ Hc)|]. intros Hs'. destruct E. by apply (n_inj _ Hc s s' e).
  - exact Hfr.
  - intros s' e He. cbn. apply lookup_insert_is_Some'. destruct (Hev' s' e He) as [->|Hin]; [by left|right].
    by eapply (n_evict _ Hc).
  - unfold budget at 1 2, used at 1 2. cbn. rewrite used_insert by done. pose proof (n_budget _ Hc).
    assert (0 <= sizeof_ptr) by done. lia.
  - exact Hx.
Qed.
End invariant.

(** ** The operations *)
Section operations.
Context (F : Key → InternalPage → GlobalAddress → Prop) (fuel : nat) (Hfuel : (2 ≤ fuel)%nat).

Lemma wpr_rd {A} (f : NormalCache → A) c Q : Q (f c) c → wpr (rd f) c Q.
Proof. intros H. by apply wpr_atomic. Qed.

Lemma nc_deref_entry e c x Q : heap c !! e = Some x → Q x c → wpr (deref_entry e) c Q.
Proof. intros E H. eapply wpr_atomic_res; [by rewrite E|done]. Qed.

Lemma wpr_safely_delete c e :
  gc_ok (heap c) (cache_entry_gc c) → is_Some (heap c !! e) → e ∉ cache_entry_gc c →
  wpr (_safely_delete fuel e) c (λ _ c', ∃ h' gc', c' = set_entry_gc gc' (set_heap h' c) ∧ gc_ok h' gc' ∧
    (∀ x, x ∈ gc' → x ∈ cache_entry_gc c ∨ x = e) ∧
    (∀ x, x ∉ cache_entry_gc c → x ≠ e → h' !! x = heap c !! x) ∧ (∀ x, is_Some (h' !! x) → is_Some (heap c !! x))).
Proof using Hfuel.
  intros (Hnd & Hin & Hlen) He Hout. destruct fuel as [|[|n]]; [lia..|]. set (gc := cache_entry_gc c) in *.
  assert (NoDup (gc ++ [e])) as Hnd'.
  { apply NoDup_app. split; [done|]. split; [set_solver|apply NoDup_singleton]. }
  unfold _safely_delete. apply wpr_bind, wpr_atomic. cbn [fst snd drain_gc]. apply wpr_bind, wpr_rd. cbn [cache_entry_gc set_entry_gc].
  fold gc. rewrite length_app. cbn [length]. destruct (Nat.ltb_spec safely_free_epoch (length gc + 1)) as [Hlt|Hge].
  - destruct (gc ++ [e]) as [|e1 l] eqn:El; [by destruct gc|]. apply (f_equal length) in El as Hl. rewrite length_app in Hl. cbn in Hl.
    assert (∀ x, x ∈ e1 :: l ↔ x ∈ gc ∨ x = e) as Hmem by (intros x; rewrite <- El; set_solver).
    assert (is_Some (heap c !! e1)) as [x1 Hx1] by (destruct (proj1 (Hmem e1) ltac:(by left)) as [?| ->]; auto).
    apply NoDup_cons in Hnd' as [Hn1 Hnd']. apply wpr_bind, wpr_atomic. cbn [fst snd set_entry_gc cache_entry_gc].
    apply wpr_bind. eapply wpr_atomic_res; [cbn [set_entry_gc heap]; rewrite Hx1; reflexivity|].
    apply wpr_bind, wpr_rd. cbn [cache_entry_gc set_entry_gc set_heap]. rewrite (proj2 (Nat.ltb_ge _ _)) by lia.
    apply wpr_ret. exists (delete e1 (heap c)), l. split; [done|]. split; [split; [done|split; [|lia]]|split; [|split]].
    + intros x Hx. rewrite lookup_delete_ne by (intros ->; done). destruct (proj1 (Hmem x) ltac:(by right)) as [?| ->]; auto.
    + intros x Hx. apply Hmem. by right.
    + intros x Hx Hxe. apply lookup_delete_ne. intros <-. destruct (proj1 (Hmem e1) ltac:(by left)); done.
    + intros x [y Hy]. apply lookup_delete_Some in Hy as [_ Hy]. by exists y.
  - apply wpr_ret. exists (heap c), (gc ++ [e]). split; [done|]. split; [split; [done|split]|split; [|split]].
    + intros x Hx. apply elem_of_app in Hx as [Hx|Hx]; [auto|]. apply list_elem_of_singleton in Hx as ->. done.
    + rewrite length_app. cbn. lia.
    + intros x Hx. apply elem_of_app in Hx as [Hx|Hx]; [auto|]. apply list_elem_of_singleton in Hx. auto.
    + done.
    + done.
Qed.

(** The bytes of one entry are part of what is used. *)
Lemma cost_used c s : cost (heap c) (slot c s) <= used c.
Proof.
  unfold slot. destruct (cache_map c !! s) as [v|] eqn:Hv; cbn.
  - by apply (map_sum_elem (cost (heap c)) (cache_map c) s v), Hv; intros; apply cost_nonneg.
  - apply map_sum_nonneg. apply cost_nonneg.
Qed.

(** The pair of pointers [(s, e)] may have left the eviction list. *)
Lemma nc_invalidate c s e l :
  normal_core F c → is_Some (cache_map c !! s) →
  (∀ s' e', (s', e') ∈ eviction_list c → (s', e') ≠ (s, e) → (s', e') ∈ l) → (∀ x, x ∈ l → x ∈ eviction_list c) →
  wpr (normal_invalidate fuel (s, e)) (set_eviction_list l c) (λ _ c', normal_core F c' ∧ grown c c' ∧
    eviction_list c' = l ∧ budget c' = budget c ∧ free_size c <= free_size c' ∧ clock c' = clock c ∧
    slot c' s = (if decide (slot c s = Some e) then None else slot c s) ∧ ∀ s', s' ≠ s → slot c' s' = slot c s').
Proof using Hfuel.
  intros Hc [v Hv] Hl Hl'. unfold normal_invalidate. cbn [fst snd]. apply wpr_bind.
  destruct (decide (v = Some e)) as [->|Hne].
  2:{ eapply wpr_atomic_res; [cbn [set_eviction_list cache_map]; rewrite Hv, decide_False by done; reflexivity|]. apply wpr_ret.
      assert (slot c s ≠ Some e) as Hse by (unfold slot; by rewrite Hv).
      split; [|split; [by intros s'|split_and!; try done; first [by rewrite decide_False|cbn; lia]]]. destruct Hc. split; try done.
      - intros s' e' Hs'. destruct (n_entry0 s' e' Hs') as (ce & ? & ? & Hin). exists ce. split_and!; [done..|]. apply Hl; [done|intros [= -> ->]; done].
      - intros s' e' Hin. eapply n_evict0. by apply Hl'. }
  assert (slot c s = Some e) as Hs by (unfold slot; by rewrite Hv).
  destruct (n_entry _ _ Hc s e Hs) as (ce & Hce & _). pose proof (n_gc_out _ _ Hc e s) as Hout.
  eapply wpr_atomic_res; [cbn [set_eviction_list cache_map]; rewrite Hv, decide_True by done; reflexivity|].
  apply wpr_bind. eapply nc_deref_entry; [exact Hce|]. unfold fetch_add, wr. apply wpr_bind, wpr_atomic. cbn [fst snd].
  cbn [free_size set_eviction_list set_cache_map]. set (x := sint 64 _).
  eapply wpr_mono; [apply wpr_safely_delete; [apply Hc|by exists ce|intros Hin; by apply Hout]|].
  intros _ c' (h' & gc' & -> & Hgc' & Hmem & Hheap & Hdom). cbn [cache_entry_gc heap set_entry_gc set_heap set_free_size set_cache_map set_eviction_list] in *.
  pose proof (n_budget _ _ Hc) as Hb. pose proof (n_free _ _ Hc) as Hfr. pose proof (cost_used c s) as Hcu. rewrite Hs in Hcu.
  cbn [cost] in Hcu. rewrite Hce in Hcu. pose proof (cost_nonneg (heap c) (Some e)) as Hc0. cbn [cost] in Hc0. rewrite Hce in Hc0.
  assert (x = free_size c + (sizeof_ptr + content_size ce + sizeof_Key)) as Ex.
  { unfold x. apply sint_small. unfold budget in Hb. lia. }
  assert (∀ s' e', s' ≠ s → slot c s' = Some e' → h' !! e' = heap c !! e') as Hkeep.
  { intros s' e' Hs' He'. apply Hheap; [intros Hin; by apply (n_gc_out _ _ Hc e' s')|]. intros ->. destruct Hs'. by apply (n_inj _ _ Hc s' s e). }
  set (c' := set_entry_gc _ _).
  assert (normal_core F c') as Hc'.
  { apply (core_put F c s None (keys c) h' (fresh c) x gc' l (clock c) Hc Hgc').
    - intros e' He'. destruct (Hmem e' He') as [?| ->]; auto.
    - exact Hkeep.
    - intros e' He'. apply (n_fresh _ _ Hc). auto.
    - intros s' e' Hs' Hin. apply Hl; [done|congruence].
    - intros s' e' Hin. right. by apply Hl'.
    - done.
    - lia.
    - left. rewrite Hs. cbn [cost]. rewrite Hce. unfold budget. lia. }
  split; [exact Hc'|]. split; [intros s' Hs'; cbn; apply lookup_insert_is_Some'; by right|]. split; [done|]. split.
  { unfold budget, used at 1. cbn. rewrite used_insert by exact Hkeep. rewrite Hs. cbn [cost]. rewrite Hce. lia. }
  split; [cbn; lia|]. split; [done|]. split.
  - rewrite decide_True by done. unfold slot. cbn. by rewrite lookup_insert_eq.
  - intros s' Hs'. unfold slot. cbn. by rewrite lookup_insert_ne.
Qed.

(** Reading an element creates it. *)
Lemma wpr_map_at s c Q : Q (slot c s) (set_cache_map (<[s := slot c s]> (cache_map c)) c) → wpr (map_at s) c Q.
Proof.
  intros H. apply wpr_atomic. unfold slot in *. destruct (cache_map c !! s) as [v|] eqn:Hv; cbn [default fst snd] in *; [|exact H].
  rewrite insert_id in H by exact Hv. by destruct c.
Qed.

Lemma wpr_cas_slot s c v new Q :
  cache_map c !! s = Some v → Q true (set_cache_map (<[s := new]> (cache_map c)) c) → wpr (cas_slot s v new) c Q.
Proof. intros E H. eapply wpr_atomic_res; [by rewrite E, decide_True|done]. Qed.

Lemma wpr_fetch_add x c Q :
  -2 ^ 63 <= free_size c + x < 2 ^ 63 → Q tt (set_free_size (free_size c + x) c) → wpr (fetch_add x) c Q.
Proof. intros Hx H. apply wpr_atomic. cbn [fst snd]. by rewrite sint_small. Qed.

(** A new entry that no element points to yet. *)
Definition pending (c : NormalCache) (s : CacheKey) (e : nat) (ce : CacheEntry) : Prop :=
  heap c !! e = Some ce ∧ entry_fact F s ce ∧ (∀ s', slot c s' ≠ Some e) ∧ e ∉ cache_entry_gc c.

(** The bytes that a replacement loses. *)
Definition lost (c : NormalCache) (s : CacheKey) : Z := match slot c s with Some _ => sizeof_ptr | None => 0 end.

Definition inserted (c : NormalCache) (s : CacheKey) (e : nat) (ce : CacheEntry) (c' : NormalCache) : Prop :=
  normal_core F c' ∧ grown c c' ∧ budget c' = budget c - lost c s ∧ slot c' s = Some e ∧ heap c' !! e = Some ce ∧
  (∀ s', s' ≠ s → slot c' s' = slot c s') ∧ clock c' = clock c.

Lemma inserted_put c s e ce ks h' x gc' :
  normal_core F c → 0 <= free_size c → pending c s e ce → gc_ok h' gc' → h' !! e = Some ce →
  (∀ y, y ∈ gc' → y ∈ cache_entry_gc c ∨ slot c s = Some y) →
  (∀ y, y ∉ cache_entry_gc c → slot c s ≠ Some y → h' !! y = heap c !! y) → (∀ y, is_Some (h' !! y) → is_Some (heap c !! y)) →
  x = free_size c - (sizeof_ptr + content_size ce + sizeof_Key) + cost (heap c) (slot c s) - lost c s → content_size ce <= 2 ^ 36 →
  inserted c s e ce (Normal ks (<[s := Some e]> (cache_map c)) h' (fresh c) x gc' (eviction_list c ++ [(s, e)]) (clock c)).
Proof.
  intros Hc Hfree (Hce & Hfact & Hno & Hout) Hgc Hce' Hmem Hheap Hdom -> Hsz.
  pose proof (cost_used c s) as Hcu. pose proof (cost_nonneg (heap c) (slot c s)) as Hc0.
  assert (Hp0 : sizeof_ptr = 8 ∧ sizeof_Key = 8) by done. destruct Hp0 as [Hp1 Hp2].
  assert (Hlost : 0 <= lost c s <= cost (heap c) (slot c s)).
  { unfold lost. destruct (slot c s) as [o|] eqn:Ho; [|lia]. destruct (n_entry _ _ Hc s o Ho) as (co & Hco & _). cbn. rewrite Hco.
    unfold content_size. lia. }
  assert (Hkeep : ∀ s' y, s' ≠ s → slot c s' = Some y → h' !! y = heap c !! y).
  { intros s' y Hs' Hy. apply Hheap; [intros Hin; by apply (n_gc_out _ _ Hc y s')|]. intros Hy'. destruct Hs'. by apply (n_inj _ _ Hc s' s y). }
  set (c' := Normal _ _ _ _ _ _ _ _).
  assert (Hbud : budget c' = budget c - lost c s).
  { unfold budget, used at 1. cbn. rewrite used_insert by exact Hkeep. cbn [cost]. rewrite Hce'. lia. }
  split; [|split; [|split; [exact Hbud|]]].
  - apply core_put with (c := c); [done|done|done|done| | | | |lia|].
    + intros y Hy. by apply (n_fresh _ _ Hc), Hdom.
    + intros s' y _ Hin. apply elem_of_app. by left.
    + intros s' y Hin. apply elem_of_app in Hin as [Hin|Hin]; [by right|]. apply list_elem_of_singleton in Hin. left. congruence.
    + split; [intros Hin; destruct (Hmem e Hin) as [?|Hs]; [done|by apply (Hno s)]|]. split; [exact Hno|]. split; [|eauto].
      apply elem_of_app. right. by apply list_elem_of_singleton.
    + cbn [cost]. rewrite Hce'. unfold budget in *. unfold lost in *. destruct (slot c s); [right|left]; lia.
  - intros s' Hs'. cbn. apply lookup_insert_is_Some'. by right.
  - unfold slot at 1. cbn. rewrite lookup_insert_eq. split; [done|]. split; [done|]. split; [|done].
    intros s' Hs'. unfold slot. cbn. by rewrite lookup_insert_ne.
Qed.

Lemma nc_insert c s e ce :
  normal_core F c → 0 <= free_size c → pending c s e ce → content_size ce <= 2 ^ 36 →
  wpr (_insert fuel s e) c (λ _ c', inserted c s e ce c').
Proof using Hfuel.
  intros Hc Hfree Hp Hsz. pose proof Hp as (Hce & _ & Hno & Hout).
  pose proof (n_budget _ _ Hc) as Hb. unfold budget in Hb. pose proof (cost_used c s) as Hcu.
  pose proof (cost_nonneg (heap c) (slot c s)) as Hcn. assert (Hp0 : sizeof_ptr = 8 ∧ sizeof_Key = 8) by done. destruct Hp0 as [Hp1 Hp2].
  assert (H17 : ∀ y, 17 <= content_size y) by (intros y; unfold content_size; lia). pose proof (H17 ce) as Hce17.
  unfold _insert. apply wpr_bind, wpr_rd, wpr_bind. set (found := bool_decide _).
  eapply (wpr_mono _ _ (λ _ c1, ∃ ks, c1 = set_keys ks c)).
  { destruct found; [apply wpr_ret; exists (keys c); by destruct c|]. apply wpr_atomic. by eexists. }
  intros _ c1 [ks ->]. apply wpr_bind, wpr_map_at, wpr_bind, wpr_map_at.
  change (slot (set_keys ks c) s) with (slot c s). unfold set_cache_map at 2. rewrite slot_new.
  cbn [cache_map set_cache_map set_keys]. rewrite insert_insert_eq.
  apply wpr_bind. eapply wpr_cas_slot; [cbn; apply lookup_insert_eq|]. cbn [cache_map set_cache_map]. rewrite insert_insert_eq.
  apply wpr_bind. eapply nc_deref_entry; [exact Hce|]. apply wpr_bind, wpr_fetch_add; [cbn [free_size set_free_size set_cache_map set_keys]; lia|].
  cbn [free_size set_free_size set_cache_map set_keys].
  assert (∀ x h' gc', Normal ks (<[s := Some e]> (cache_map c)) h' (fresh c) x gc' (eviction_list c) (clock c)
    = set_entry_gc gc' (set_heap h' (set_free_size x (set_cache_map (<[s := Some e]> (cache_map c)) (set_keys ks c))))) as Est by done.
  apply wpr_bind. eapply (wpr_mono _ _ (λ _ c1, ∃ h' x gc',
    c1 = Normal ks (<[s := Some e]> (cache_map c)) h' (fresh c) x gc' (eviction_list c) (clock c) ∧
    inserted c s e ce (Normal ks (<[s := Some e]> (cache_map c)) h' (fresh c) x gc' (eviction_list c ++ [(s, e)]) (clock c)))).
  2:{ intros _ c1 (h' & x & gc' & -> & Hins). apply wpr_bind, wpr_map_at, wpr_atomic.
      rewrite slot_new. cbn [fst snd cache_map set_cache_map]. rewrite insert_insert_eq.
      exact Hins. }
  destruct (slot c s) as [o|] eqn:Ho.
  - destruct (n_entry _ _ Hc s o Ho) as (co & Hco & _). cbn [cost] in Hcu. rewrite Hco in Hcu. pose proof (H17 co).
    apply wpr_bind. eapply nc_deref_entry; [exact Hco|]. apply wpr_bind, wpr_fetch_add; [cbn [free_size set_free_size set_cache_map set_keys]; lia|].
    eapply wpr_mono; [apply wpr_safely_delete; [apply Hc|by exists co|intros Hin; by apply (n_gc_out _ _ Hc o s)]|].
    intros _ c1 (h' & gc' & -> & Hgc & Hmem & Hheap & Hdom).
    cbn [cache_entry_gc heap set_entry_gc set_heap set_free_size set_cache_map set_keys] in *.
    do 3 eexists. split; [by rewrite Est|]. apply inserted_put; [done|done|done|done| | | |exact Hdom| |done].
    + rewrite Hheap; [done|done|intros ->; by apply (Hno s)].
    + intros y Hy. destruct (Hmem y Hy) as [?| ->]; [by left|by right].
    + intros y Hy Hyo. apply Hheap; [done|congruence].
    + unfold lost. rewrite Ho. cbn [cost free_size set_free_size]. rewrite Hco. lia.
  - cbn [cost] in Hcu. eapply wpr_fetch_add; [cbn [free_size set_free_size set_cache_map set_keys]; lia|]. do 3 eexists. split; [done|].
    apply inserted_put; [done|done|done|apply Hc|done|by left|done|done| |done].
    unfold lost. rewrite Ho. cbn [cost free_size set_free_size]. lia.
Qed.

(** Eviction ends: once the list is empty nothing is in use. *)
Lemma no_entries_room c : normal_core F c → eviction_list c = [] → 0 <= free_size c.
Proof.
  intros Hc He. pose proof (n_budget _ _ Hc) as Hb. unfold budget in Hb.
  assert (used c = 0) as E; [|lia]. apply map_sum_zero. intros s [e|] Hs; [|done].
  destruct (n_entry _ _ Hc s e) as (_ & _ & _ & Hin); [unfold slot; by rewrite Hs|]. rewrite He in Hin. by apply not_elem_of_nil in Hin.
Qed.

Lemma nc_evict_loop n c :
  normal_core F c → (length (eviction_list c) < n)%nat →
  wpr (evict_loop fuel n) c (λ _ c', normal_inv F c' ∧ grown c c' ∧ budget c' = budget c).
Proof using Hfuel.
  revert c. induction n as [|n IH]; intros c Hc Hn; [lia|]. cbn [evict_loop]. apply wpr_bind, wpr_atomic.
  assert (∀ c1, normal_core F c1 → grown c c1 → budget c1 = budget c →
    (eviction_list c1 = [] ∨ length (eviction_list c1) < n)%nat →
    wpr (r ← rd free_size; if r <? 0 then evict_loop fuel n else mret tt) c1
      (λ _ c', normal_inv F c' ∧ grown c c' ∧ budget c' = budget c)) as Hnext.
  { intros c1 Hc1 Hg1 Hb1 Hl. apply wpr_bind, wpr_rd. destruct (Z.ltb_spec (free_size c1) 0).
    - destruct Hl as [Hl|Hl]; [apply (no_entries_room _ Hc1) in Hl; lia|].
      eapply wpr_mono; [by apply IH|]. intros _ c' (Hi & Hg & Hb). split; [done|]. split; [by etrans|congruence].
    - by apply wpr_ret. }
  destruct (eviction_list c) as [|[s e] l] eqn:El; cbn [fst snd].
  - apply wpr_bind, wpr_ret. apply Hnext; [done..|by left].
  - destruct (n_evict _ _ Hc s e) as [v Hv]; [rewrite El; by left|]. apply wpr_bind, wpr_bind.
    eapply wpr_atomic_res; [cbn [set_eviction_list cache_map]; by rewrite Hv|]. cbn in Hn.
    assert (∀ s' e', (s', e') ∈ eviction_list c → (s', e') ≠ (s, e) → (s', e') ∈ l) as Hl.
    { intros s' e'. rewrite El. intros [?|?]%elem_of_cons ?; [congruence|done]. }
    assert (∀ x, x ∈ l → x ∈ eviction_list c) as Hl' by (intros x Hx; rewrite El; by right).
    case_decide as Hve.
    + eapply wpr_mono; [apply (nc_invalidate c s e l Hc); [by exists v|done|done]|].
      intros _ c1 (Hc1 & Hg1 & Hev1 & Hb1 & _). apply Hnext; [done|exact Hg1|done|]. right. rewrite Hev1. lia.
    + apply wpr_ret, Hnext; [|by intros s'|done|right; cbn; lia].
      destruct Hc. split; try done.
      * intros s' e' Hs'. destruct (n_entry0 s' e' Hs') as (ce & ? & ? & Hin). exists ce. split_and!; [done..|]. apply Hl; [done|].
        intros [= -> ->]. unfold slot in Hs'. cbn in Hs'. rewrite Hv in Hs'. cbn in Hs'. congruence.
      * intros s' e' Hin. eapply n_evict0. by apply Hl'.
Qed.

(** An entry of a page is small. *)
Lemma entry_make_size now p a ce :
  header_ok (pg_hdr p) → entry_make now p a = Ok ce → content_size ce <= 2 ^ 36.
Proof.
  intros Hh E. unfold entry_make in E. inv_res. unfold content_size. cbn. rewrite length_take.
  destruct Hh as (_ & Ht & _). unfold uint in Ht. change nodeTypeNumBit with 5 in Ht.
  assert (node_type_to_num (h_node_type (pg_hdr p)) <= 2 ^ 32); [|lia].
  unfold node_type_to_num. destruct (_ =? _); [lia|]. rewrite Z.shiftl_mul_pow2, Z.mul_1_l by lia. apply Z.pow_le_mono_r; lia.
Qed.

(** [add_to_cache]: the page is inserted under its path; then maybe entries go. *)
Lemma nc_add c k p a :
  normal_inv F c → cacheable k p → F k p a →
  wpr (normal_add_to_cache fuel k p a) c (λ _ c', normal_inv F c' ∧ grown c c' ∧
    ∃ path ce, cache_key k p = Ok path ∧ entry_make (clock c 0%nat) p a = Ok ce ∧ budget c' = budget c - lost c path ∧
      (alone c path → sizeof_ptr + content_size ce + sizeof_Key <= budget c' →
       alone c' path ∧ ∃ e, slot c' path = Some e ∧ heap c' !! e = Some ce)).
Proof using Hfuel.
  intros [Hc Hfree] Hok HF. destruct (cacheable_entry F k p a (clock c 0%nat) Hok HF) as (path & ce & Hpath & Hmk & Hfact & _).
  unfold normal_add_to_cache. apply wpr_bind. eapply wpr_pure; [exact Hpath|]. apply wpr_bind, wpr_atomic. cbn [fst snd].
  apply wpr_bind. eapply wpr_pure; [exact Hmk|]. apply wpr_bind, wpr_atomic. cbn [fst snd set_clock heap fresh]. set (e := fresh c).
  assert (Hnone : heap c !! e = None).
  { apply eq_None_not_Some. intros H. apply (n_fresh _ _ Hc) in H. unfold e in H. lia. }
  assert (Hne : ∀ s y, slot c s = Some y → y ≠ e).
  { intros s y Hy ->. destruct (n_entry _ _ Hc s e Hy) as (y & Hy' & _). congruence. }
  set (c1 := set_fresh _ _). assert (Hu : used c1 = used c).
  { apply map_sum_ext. intros s [y|] Hs; [|done]. cbn. rewrite lookup_insert_ne; [done|]. apply not_eq_sym, (Hne s). unfold slot. by rewrite Hs. }
  assert (Hc1 : normal_core F c1).
  { pose proof (n_gc _ _ Hc) as (Hnd & Hin & Hlen). destruct Hc. split; try done.
    - intros s y Hy. destruct (n_entry0 s y Hy) as (cy & Hcy & ? & ?). exists cy. cbn. rewrite lookup_insert_ne by congruence. done.
    - split; [done|]. split; [|done]. intros y Hy. apply lookup_insert_is_Some'. right. by apply Hin.
    - intros y Hy. change (is_Some (<[e := ce]> (heap c) !! y)) in Hy. apply lookup_insert_is_Some' in Hy as [<-|Hy]; cbn; [lia|]. apply n_fresh0 in Hy. unfold e in *. lia.
    - unfold budget. by rewrite Hu. }
  assert (Hp : pending c1 path e ce).
  { split; [cbn; apply lookup_insert_eq|]. split; [exact Hfact|]. split; [intros s Hs; by destruct (Hne s e Hs)|].
    intros Hin. destruct (n_gc _ _ Hc) as (_ & Hg & _). destruct (Hg e Hin). congruence. }
  apply wpr_bind. eapply wpr_mono; [apply (nc_insert c1 path e ce Hc1 Hfree Hp)|].
  { eapply entry_make_size; [apply Hok|exact Hmk]. }
  intros _ c2 (Hc2 & Hg2 & Hb2 & Hs2 & Hh2 & Ho2 & _).
  assert (Hb2' : budget c2 = budget c - lost c path) by (rewrite Hb2; unfold budget; by rewrite Hu).
  assert (Ha2 : alone c path → alone c2 path) by (intros Ha s Hs; rewrite Ho2 by done; by apply Ha).
  apply wpr_bind, wpr_rd. destruct (Z.ltb_spec (free_size c2) 0).
  - apply wpr_bind, wpr_rd. eapply wpr_mono; [apply nc_evict_loop; [done|lia]|]. intros _ c3 (Hi3 & Hg3 & Hb3).
    split; [done|]. split; [by etrans|]. exists path, ce. do 2 (split; [done|]). split; [lia|]. intros Ha Hfit.
    rewrite Hb3 in Hfit. unfold budget in Hfit. rewrite (used_alone c2 path (Ha2 Ha)), Hs2 in Hfit. cbn [cost] in Hfit. rewrite Hh2 in Hfit. lia.
  - apply wpr_ret. split; [done|]. split; [done|]. exists path, ce. do 3 (split; [done|]). eauto.
Qed.

(** One prefix of a lookup: a hit gives a record of the page at the prefix,
    otherwise the entries of the other prefixes are as before. *)
Lemma wpr_search_prefix c s b k :
  normal_inv F c → (s ++ [b]) `prefix_of` k →
  wpr (search_prefix fuel s b) c (λ r c', normal_inv F c' ∧ grown c c' ∧ budget c' = budget c ∧
    match r with Some (h, ce, i) => found_entry F k ce i ∧ is_Some (cache_map c' !! h.1) | None => True end).
Proof using Hfuel.
  intros [Hc Hfree] Hpre. apply wpr_bind, wpr_rd. destruct (cache_map c !! s) as [v|] eqn:Hv; [|by apply wpr_ret].
  apply wpr_bind. eapply wpr_atomic_res; [by rewrite Hv|]. destruct v as [e|]; [|by apply wpr_ret].
  destruct (n_entry _ _ Hc s e) as (ce & Hce & Hfact & _); [unfold slot; by rewrite Hv|].
  apply wpr_bind. eapply nc_deref_entry; [exact Hce|]. apply wpr_bind, wpr_atomic. cbn [fst snd].
  set (c1 := set_clock (λ i, clock c (S i)) c). assert (Hc1 : normal_core F c1) by (destruct Hc; by split).
  destruct (is_expired _ ce).
  - apply wpr_bind. change c1 with (set_eviction_list (eviction_list c1) c1).
    eapply wpr_mono; [apply (nc_invalidate c1 s e _ Hc1); [by eexists|done|done]|].
    intros _ c2 (Hc2 & Hg2 & _ & Hb2 & Hf2 & _). apply wpr_ret. split; [split; [done|cbn in Hf2; lia]|]. by split.
  - destruct (find_record (ce_records ce) b 0) as [i|] eqn:Ei; apply wpr_ret; (split; [done|]; split; [by intros s'|]; split; [done|]); [|done].
    split; [by eapply entry_found|]. cbn. by rewrite Hv.
Qed.

Lemma nc_search c k m b :
  normal_inv F c → k !! m = Some b →
  wpr (_search fuel (reverse (take m k)) b) c (λ r c', normal_inv F c' ∧ grown c c' ∧ budget c' = budget c ∧
    match r with Some (h, ce, i) => found_entry F k ce i ∧ is_Some (cache_map c' !! h.1) | None => True end).
Proof using Hfuel.
  revert c b. induction m as [|m IH]; intros c b Hi Hb.
  - cbn [take reverse]. change (reverse []) with (@nil Z). cbn [_search]. change (reverse []) with (@nil Z). apply wpr_bind.
    eapply wpr_mono; [apply (wpr_search_prefix c [] b k Hi)|].
    { exists (drop 1 k). destruct k; [done|]. cbn in Hb. by injection Hb as ->. }
    intros [r|] c' Hr; apply wpr_ret; exact Hr.
  - destruct (lookup_lt_is_Some_2 k m) as [b' Hb']; [apply lookup_lt_Some in Hb; lia|].
    rewrite (take_S_r _ _ _ Hb'), reverse_app, reverse_singleton. cbn [app _search]. apply wpr_bind.
    rewrite reverse_cons, reverse_involutive, <- (take_S_r _ _ _ Hb').
    eapply wpr_mono; [apply (wpr_search_prefix c (take (S m) k) b k Hi)|].
    { rewrite <- (take_S_r _ _ _ Hb). exists (drop (S (S m)) k). by rewrite take_drop. }
    intros [r|] c' Hr; [apply wpr_ret; exact Hr|]. destruct Hr as (Hi' & Hg & Hbud & _).
    eapply wpr_mono; [apply IH; done|]. intros r c2 (Hi2 & Hg2 & Hb2 & Hr). split; [done|]. split; [by etrans|]. split; [congruence|done].
Qed.
End operations.

(** ** The promises of the cache *)
Section laws.
Context (fuel : nat) (Hfuel : (2 ≤ fuel)%nat) (room : nat).

Definition normal_handle_ok (h : CacheKey * nat) (c : NormalCache) : Prop := is_Some (cache_map c !! h.1).

Lemma normal_law_mono F F' c : (∀ k p a, F k p a → F' k p a) → normal_inv F c → normal_inv F' c.
Proof.
  intros HF [[] Hfree]. split; [|done]. split; try done.
  intros s e He. destruct (n_entry0 s e He) as (ce & ? & (k & p & ? & ?) & ?). exists ce. split; [done|]. split; [|done]. exists k, p. eauto.
Qed.

Lemma normal_law_add F k p addr c :
  normal_inv F c → (0 < room)%nat → cacheable k p → F k p addr →
  ∃ c', run (normal_add_to_cache fuel k p addr) c = Ok (tt, c') ∧ normal_inv F c' ∧ (room ≤ S room)%nat ∧
    (∀ h, normal_handle_ok h c → normal_handle_ok h c').
Proof.
  intros Hi _ Hk HF. destruct (nc_add F fuel Hfuel c k p addr Hi Hk HF) as ([] & c' & Hr & Hi' & Hg & _).
  exists c'. split_and!; [done..|lia|]. intros h. apply Hg.
Qed.

Lemma normal_law_search F k c :
  normal_inv F c → key_ok k →
  ∃ r c', run (normal_search_from_cache fuel k) c = Ok (r, c') ∧ normal_inv F c' ∧ (room ≤ room)%nat ∧
    (∀ h, normal_handle_ok h c → normal_handle_ok h c') ∧
    match r with Some (h, ce, i) => found_entry F k ce i ∧ normal_handle_ok h c' | None => True end.
Proof.
  intros Hi [Hk _]. change klen with 8%nat in Hk. destruct (lookup_lt_is_Some_2 k 7) as [b Hb]; [lia|].
  destruct (nc_search F fuel Hfuel c k 7 b Hi Hb) as (r & c' & Hr & Hi' & Hg & _ & Hres).
  exists r, c'. split; [|split; [exact Hi'|split; [done|split; [intros h; apply Hg|exact Hres]]]]. unfold normal_search_from_cache. rewrite run_bind.
  change (keyLen - 1) with (Z.of_nat 7). rewrite (at_of_nat k 7 b Hb). exact Hr.
Qed.

Lemma normal_law_invalidate F c h :
  normal_inv F c → normal_handle_ok h c →
  ∃ c', run (normal_invalidate fuel h) c = Ok (tt, c') ∧ normal_inv F c' ∧ (room ≤ room)%nat ∧
    (∀ h, normal_handle_ok h c → normal_handle_ok h c').
Proof.
  destruct h as [s e]. intros [Hc Hfree] Hs.
  destruct (nc_invalidate F fuel Hfuel c s e (eviction_list c) Hc Hs) as ([] & c' & Hr & Hc' & Hg & _ & _ & Hf & _); [done|done|].
  exists c'. split; [by destruct c|]. split; [split; [done|lia]|]. split; [done|]. intros h. apply Hg.
Qed.

(** The cache takes any number of pages. *)
#[export] Instance NormalCache_laws : @IndexCacheLaws (NormalCache_index fuel) :=
  @Build_IndexCacheLaws (NormalCache_index fuel) normal_inv (λ _, room) normal_handle_ok
    normal_law_mono normal_law_add normal_law_search normal_law_invalidate.
End laws.

Lemma normal_new_inv F cache_size clock : 0 <= MB * cache_size < 2 ^ 62 → normal_inv F (normal_new cache_size clock).
Proof.
  intros Hs. assert (sint 64 (MB * cache_size) = MB * cache_size) as E by (apply sint_small; lia).
  assert (∀ s, slot (normal_new cache_size clock) s = None) as Hsl by (intros s; unfold slot; cbn; by rewrite lookup_empty).
  split; [|cbn; lia]. split; intros; rewrite ?Hsl in *; try done.
  - split; [constructor|]. split; [intros e He; by apply not_elem_of_nil in He|cbn; lia].
  - cbn in *. rewrite lookup_empty in *. by destruct (is_Some_None (A := CacheEntry)).
  - cbn in *. by apply not_elem_of_nil in H.
  - unfold budget, used. cbn. rewrite map_sum_empty. lia.
  - cbn. lia.
Qed.

(** C7. The hash-based cache keeps the promises of the radix cache, with no
    bound on the number of pages: after any sequence of lookups, invalidations
    and additions, whatever the clock and the size limit are, every operation
    has ended without an error - no deleted entry is read or deleted again, the
    eviction loop has stopped with [free_size] not negative - and what a lookup
    gives is a record of a page that was added, on the path of the key. *)
Theorem normal_cache_sound (fuel : nat) (cache_size : Z) (clock : nat → Z) (ops : list cache_op)
    (Hfuel : (2 ≤ fuel)%nat) (Hsize : 0 <= MB * cache_size < 2 ^ 62) (Hops : Forall op_ok ops) :
  ∃ c, run (@cache_do_all (NormalCache_index fuel) ops) (normal_new cache_size clock) = Ok (tt, c) ∧ 0 <= free_size c ∧
    ∀ k, key_ok k → ∃ r c', run (normal_search_from_cache fuel k) c = Ok (r, c') ∧
      match r with Some (_, ce, i) => found_entry (added ops) k ce i | None => True end.
Proof.
  destruct (@cache_do_all_inv _ (NormalCache_laws fuel Hfuel (adds ops)) (added ops) ops (normal_new cache_size clock)) as (c & Hr & Hc);
    [by apply normal_new_inv|done|done|done|].
  exists c. split; [exact Hr|]. split; [apply Hc|]. intros k Hk.
  destruct (normal_law_search fuel Hfuel 0 (added ops) k c Hc Hk) as (r & c' & Hr' & _ & _ & _ & Hres).
  exists r, c'. split; [exact Hr'|]. destruct r as [[[h ce] i]|]; [apply Hres|done].
Qed.

Lemma normal_cache_sound_witness :
  ∃ c, run (@cache_do_all (NormalCache_index 2) example_ops) (normal_new 60000 (λ i, Z.of_nat i)) = Ok (tt, c) ∧ 0 <= free_size c ∧
    ∃ r c', run (normal_search_from_cache 2 example_key) c = Ok (r, c') ∧
      match r with Some (_, ce, i) => found_entry (added example_ops) example_key ce i | None => True end.
Proof.
  destruct (normal_cache_sound 2 60000 (λ i, Z.of_nat i) example_ops) as (c & Hr & Hf & Hc); [lia|by vm_compute|apply example_ops_ok|].
  exists c. split; [exact Hr|]. split; [exact Hf|]. apply Hc. apply (bool_decide_unpack _). by vm_compute.
Defined.

(** *** The accounting *)
Section leak.
Context (k : Key) (p : InternalPage) (a : GlobalAddress) (path : CacheKey).
Context (Hk : cacheable k p) (Hpath : cache_key k p = Ok path).

(** The bytes of the page's entry. *)
Definition page_cost : Z := sizeof_ptr + (17 + 8 * node_type_to_num (h_node_type (pg_hdr p))) + sizeof_Key.

Lemma entry_cost now ce : entry_make now p a = Ok ce → sizeof_ptr + content_size ce + sizeof_Key = page_cost.
Proof using Hk.
  intros E. unfold entry_make in E. cbv zeta in E. destruct Hk as (_ & _ & _ & _ & _ & Hn & _). rewrite bool_decide_true in E by done.
  injection E as <-. unfold page_cost, content_size. cbn [ce_records]. rewrite length_take.
  assert (0 <= node_type_to_num (h_node_type (pg_hdr p))).
  { unfold node_type_to_num. destruct (_ =? _); [lia|]. apply Z.shiftl_nonneg. lia. }
  lia.
Qed.

Context (fuel : nat) (Hfuel : (2 ≤ fuel)%nat).

(** Adding the page again and again. *)
Lemma add_again n c :
  normal_inv (λ _ _ _, True) c → alone c path → (∃ e ce, slot c path = Some e ∧ heap c !! e = Some ce ∧ sizeof_ptr + content_size ce + sizeof_Key = page_cost) →
  page_cost + sizeof_ptr * Z.of_nat n <= budget c →
  ∃ c', run (@cache_do_all (NormalCache_index fuel) (replicate n (OpAdd k p a))) c = Ok (tt, c') ∧ normal_inv (λ _ _ _, True) c' ∧
    alone c' path ∧ (∃ e ce, slot c' path = Some e ∧ heap c' !! e = Some ce ∧ sizeof_ptr + content_size ce + sizeof_Key = page_cost) ∧
    budget c' = budget c - sizeof_ptr * Z.of_nat n.
Proof using Hfuel Hk Hpath.
  revert c. induction n as [|n IH]; intros c Hi Ha He Hb; cbn [replicate cache_do_all cache_do].
  { exists c. split_and!; [done..|lia]. }
  destruct (nc_add (λ _ _ _, True) fuel Hfuel c k p a Hi Hk I) as ([] & c1 & Hr & Hi1 & _ & path' & ce & Hp' & Hmk & Hb1 & Hfit).
  assert (path' = path) as -> by congruence. pose proof (entry_cost _ _ Hmk) as Hcost.
  destruct He as (e & ce0 & Hs & _). unfold lost in Hb1. rewrite Hs in Hb1. assert (sizeof_ptr = 8) as E8 by done.
  destruct (Hfit Ha) as (Ha1 & e1 & He1 & Hh1); [lia|].
  destruct (IH c1 Hi1 Ha1) as (c' & Hr' & Hi' & Ha' & He' & Hb'); [eauto|lia|].
  exists c'. rewrite run_bind. change (run (@add_to_cache (NormalCache_index fuel) k p a) c) with (run (normal_add_to_cache fuel k p a) c). rewrite Hr.
  split; [exact Hr'|]. split_and!; [done..|lia].
Qed.
End leak.

(** C35. Every entry that is replaced costs the size of a pointer for good: a
    page that is added [n + 1] times and then invalidated leaves an empty cache
    whose [free_size] is [8 * n] bytes short of the limit. *)
Theorem normal_cache_leak (fuel : nat) (cache_size : Z) (clock : nat → Z) (n : nat) (k : Key) (p : InternalPage)
    (a : GlobalAddress) (path : CacheKey) (Hfuel : (2 ≤ fuel)%nat) (Hk : cacheable k p) (Hpath : cache_key k p = Ok path)
    (Hsize : page_cost p + 8 * Z.of_nat n <= MB * cache_size < 2 ^ 62) :
  ∃ c e c', run (@cache_do_all (NormalCache_index fuel) (replicate (S n) (OpAdd k p a))) (normal_new cache_size clock) = Ok (tt, c) ∧
    slot c path = Some e ∧ run (normal_invalidate fuel (path, e)) c = Ok (tt, c') ∧
    (∀ s, slot c' s = None) ∧ free_size c' = MB * cache_size - 8 * Z.of_nat n.
Proof.
  assert (0 <= page_cost p) as Hpc.
  { unfold page_cost, sizeof_ptr, sizeof_Key, keyLen, node_type_to_num. destruct (_ =? _); [lia|].
    pose proof (proj2 (Z.shiftl_nonneg 1 (h_node_type (pg_hdr p) + 1)) ltac:(lia)). lia. }
  set (c0 := normal_new cache_size clock). assert (sizeof_ptr = 8) as E8 by done.
  assert (normal_inv (λ _ _ _, True) c0) as Hi0 by (apply normal_new_inv; lia).
  assert (alone c0 path) as Ha0 by (intros s _; unfold slot; cbn; by rewrite lookup_empty).
  assert (budget c0 = MB * cache_size) as Hb0.
  { unfold budget, used. cbn. rewrite map_sum_empty, sint_small by lia. lia. }
  destruct (nc_add (λ _ _ _, True) fuel Hfuel c0 k p a Hi0 Hk I) as ([] & c1 & Hr & Hi1 & _ & path' & ce & Hp' & Hmk & Hb1 & Hfit).
  assert (path' = path) as -> by congruence. pose proof (entry_cost k p a Hk _ _ Hmk) as Hcost.
  assert (lost c0 path = 0) as Hl by (unfold lost, slot; cbn; by rewrite lookup_empty). destruct (Hfit Ha0) as (Ha1 & e1 & He1 & Hh1); [lia|].
  destruct (add_again k p a path Hk Hpath fuel Hfuel n c1 Hi1 Ha1) as (c & Hr' & [Hc Hf] & Ha & (e & ce' & He & Hh & Hcost') & Hb); [eauto|lia|].
  destruct (nc_invalidate (λ _ _ _, True) fuel Hfuel c path e (eviction_list c) Hc) as ([] & c' & Hr2 & Hc' & _ & _ & Hb' & _ & _ & Hs' & Hs);
    [exists (Some e); by apply slot_elem|done|done|].
  assert (∀ s, slot c' s = None) as Hnone.
  { intros s. destruct (decide (s = path)) as [->|Hn]; [|rewrite Hs by done; by apply Ha].
    by rewrite Hs', decide_True. }
  exists c, e, c'. split.
  { cbn [replicate cache_do_all cache_do]. rewrite run_bind.
    change (run (@add_to_cache (NormalCache_index fuel) k p a) c0) with (run (normal_add_to_cache fuel k p a) c0). rewrite Hr. exact Hr'. }
  split; [done|]. split; [by destruct c|]. split; [exact Hnone|].
  assert (used c' = 0) as Hu by (rewrite (used_alone c' path) by (intros s _; apply Hnone); by rewrite Hnone). unfold budget in Hb'. unfold budget in *. lia.
Qed.

Lemma normal_cache_leak_witness :
  ∃ c e c', run (@cache_do_all (NormalCache_index 2) (replicate 4 (OpAdd example_key example_page (GA 0 64)))) (normal_new 1 (λ _, 0)) = Ok (tt, c) ∧
    slot c [3; 7] = Some e ∧ run (normal_invalidate 2 ([3; 7], e)) c = Ok (tt, c') ∧ (∀ s, slot c' s = None) ∧ free_size c' = MB * 1 - 8 * 3.
Proof.
  apply (normal_cache_leak 2 1 (λ _, 0) 3 example_key example_page (GA 0 64) [3; 7]);
    [lia|exact example_cacheable|reflexivity|by vm_compute].
Defined.
