(* ===== verification/Tree.v ===== *)
(** * The tree (include/Tree.h, src/Tree.cpp)

    An adaptive radix tree in remote memory. A client's operation is a process
    on the memory of the cluster, the allocators of its thread, the index cache
    and the local lock table of its node.

    The verbs have the effect that [Dsm.v] proves of them; a verb that is not
    waited for takes effect at once. A local buffer is the bytes that the verb
    put there. Counters for statistics are left out. *)

From Stdlib Require Import ZArith Lia Bool.
From stdpp Require Import base tactics decidable option numbers list gmap.
From S2P Require Import Prelude.
From S2P Require Import Common.
From S2P Require Import Keys.
From S2P Require Import Address.
From S2P Require Import Nodes.
From S2P Require Import Allocators.
From S2P Require Import Memory.
From S2P Require Import Process.
From S2P Require Import LockTable.
From S2P Require Import IndexCache.

(** [Request] *)
Record Request : Set := Req {
  is_search : bool; is_insert : bool; is_update : bool;
  r_k : Key; r_v : Z; range_size : Z
}.

(** [ScanContext]; [sc_cached] is the handle when the entry is from the cache. *)
Record ScanContext (H : Type) : Type := SC {
  sc_e : InternalEntry; sc_e_ptr : GlobalAddress; sc_depth : Z; sc_cached : option H;
  sc_from : Key; sc_to : Key; sc_l : State; sc_r : State
}.
Arguments SC {H}. Arguments sc_e {H}. Arguments sc_e_ptr {H}. Arguments sc_depth {H}.
Arguments sc_cached {H}. Arguments sc_from {H}. Arguments sc_to {H}. Arguments sc_l {H}. Arguments sc_r {H}.

(** The offset of [records] in a page. *)
Definition page_head : Z := 8 + 8.
Definition node_size (t : NodeType) : Z := page_head + node_type_to_num t * 8.
(** [sizeof(Leaf) < 128 ? sizeof(Leaf) : 0] *)
Definition leaf_kv_len : Z := if sizeof_Leaf <? 128 then sizeof_Leaf else 0.

(** [lock_cas_offset], [lock_mask] *)
Definition lock_cas_offset : Z := ROUND_DOWN lock_byte_offset 3.
Definition lock_mask : Z := Z.shiftl 1 ((lock_byte_offset - lock_cas_offset) * 8).

Section tree.
Context `{Checksum} `{IndexCache}.
(** [CityHash64]; the tree's id and the client's node; the bound on retries. *)
Context (CityHash64 : list byte → Z) (tree_id my_node : Z) (fuel : nat).

(** [w_stale] is what the bytes of [partial] hold in the page buffers that
    are handed out, one after the other. *)
Record world : Type := World {
  w_mem : shared_mem;
  w_alloc : alloc_thread;
  w_dirs : list (list Directory);
  w_locks : lock_table;
  w_cache : cache;
  w_stale : nat → list byte
}.
Abbreviation wp := (proc world).

Definition set_mem (m : shared_mem) (w : world) : world :=
  World m (w_alloc w) (w_dirs w) (w_locks w) (w_cache w) (w_stale w).
Definition set_alloc (t : alloc_thread) (d : list (list Directory)) (w : world) : world :=
  World (w_mem w) t d (w_locks w) (w_cache w) (w_stale w).
Definition set_locks (l : lock_table) (w : world) : world :=
  World (w_mem w) (w_alloc w) (w_dirs w) l (w_cache w) (w_stale w).
Definition set_cache (c : cache) (w : world) : world :=
  World (w_mem w) (w_alloc w) (w_dirs w) (w_locks w) c (w_stale w).
Definition set_stale (s : nat → list byte) (w : world) : world :=
  World (w_mem w) (w_alloc w) (w_dirs w) (w_locks w) (w_cache w) s.

Definition on_mem {A} (f : shared_mem → A * shared_mem) : wp A :=
  atomic (λ w, let '(a, m) := f (w_mem w) in (a, set_mem m w)).
Definition on_cache {A} (p : proc cache A) : wp A := on w_cache set_cache p.
Definition on_lock {A} (k : Key) (p : np A) : wp A :=
  on w_locks set_locks (on_node (get_hashed_lock_index CityHash64 k) p).

(** ** The verbs *)
Definition dsm_region (g : GlobalAddress) : region := Reg false (nodeID g).

Definition read_sync (g : GlobalAddress) (size : Z) : wp (list byte) :=
  on_mem (λ m, (load m (dsm_region g) (offset g) (Z.to_nat size), m)).
Definition write_sync (bs : list byte) (g : GlobalAddress) : wp unit :=
  on_mem (λ m, (tt, store m (dsm_region g) (offset g) bs)).
(** [cas_sync]: the flag, and the old word in the buffer. *)
Definition cas_sync (g : GlobalAddress) (equal val : Z) : wp (bool * Z) :=
  on_mem (λ m, let '(old, m) := mem_cas m (dsm_region g) (offset g) equal val in ((equal =? old, old), m)).
Definition cas_mask_sync (g : GlobalAddress) (equal val mask : Z) : wp (bool * Z) :=
  on_mem (λ m, let '(old, m) := mem_cas_mask m (dsm_region g) (offset g) equal val mask in
               ((masked_eq equal old mask, old), m)).
(** [two_cas_mask_sync]: the flags compare whole words. *)
Definition two_cas_mask_sync (g1 : GlobalAddress) (equal1 val1 mask1 : Z)
    (g2 : GlobalAddress) (equal2 val2 mask2 : Z) : wp ((bool * Z) * (bool * Z)) :=
  '(_, old1) ← cas_mask_sync g1 equal1 val1 mask1;
  '(_, old2) ← cas_mask_sync g2 equal2 val2 mask2;
  mret ((equal1 =? old1, old1), (equal2 =? old2, old2)).
(** [dsm->write(...)] and [dsm->cas(...)], [dsm->cas_mask(...)] without a signal. *)
Definition write (bs : list byte) (g : GlobalAddress) : wp unit := write_sync bs g.
Definition cas (g : GlobalAddress) (equal val : Z) : wp unit := cas_sync g equal val ;; mret tt.
Definition cas_mask (g : GlobalAddress) (equal val mask : Z) : wp unit := cas_mask_sync g equal val mask ;; mret tt.

Definition read_entry (g : GlobalAddress) : wp InternalEntry :=
  bs ← read_sync g 8; mret (entry_of_val (le_int bs)).

Definition dsm_alloc (size : Z) : wp GlobalAddress :=
  atomic_res (λ w, match alloc (w_alloc w) (w_dirs w) size true with
                   | Ok (a, t, d) => Ok (a, set_alloc t d w)
                   | Fail e => Fail e
                   end).
Definition dsm_alloc_nodes (n : nat) : wp (list GlobalAddress) :=
  atomic_res (λ w, match alloc_nodes n (w_alloc w) (w_dirs w) true with
                   | Ok (l, t, d) => Ok (l, set_alloc t d w)
                   | Fail e => Fail e
                   end).
Definition dsm_free (a : GlobalAddress) (size : Z) : wp unit :=
  atomic_res (λ w, match free (w_alloc w) a size with
                   | Ok t => Ok (tt, set_alloc t (w_dirs w) w)
                   | Fail e => Fail e
                   end).
Definition pop_stale : wp (list byte) := atomic (λ w, (w_stale w 0%nat, set_stale (λ i, w_stale w (S i)) w)).

(** A loop with [goto]. *)
Fixpoint loop {S A} (fuel : nat) (body : S → wp (step_result S A)) (s : S) : wp A :=
  match fuel with
  | O => Crash EFuel
  | S fuel => r ← body s; match r with Again s => loop fuel body s | Done a => mret a end
  end.

(** ** The root *)
Definition get_root_ptr_ptr : GlobalAddress := mk_gaddr 0 (kRootPointerStoreOffest + 8 * tree_id).
Definition get_root_ptr : wp InternalEntry := read_entry get_root_ptr_ptr.

(** [Tree(dsm, tree_id)]: the part that works on remote memory; node 0 sets
    the root entry to Null. *)
Definition Tree : wp unit :=
  root_ptr ← get_root_ptr;
  if (my_node =? 0) && negb (entry_eqb root_ptr entry_Null) then
    loop fuel (λ root_ptr,
      '(res, old) ← cas_sync get_root_ptr_ptr (entry_val root_ptr) (entry_val entry_Null);
      let root_ptr := entry_of_val old in
      if negb res && negb (entry_eqb root_ptr entry_Null) then mret (Again root_ptr) else mret (Done tt)) root_ptr
  else mret tt.

(** ** Leaves *)
Definition read_leaf (leaf_addr : GlobalAddress) (leaf_size : Z) (p_ptr : GlobalAddress) (from_cache : bool) :
    wp (bool * Leaf) :=
  loop fuel (λ _ : unit,
    bs ← read_sync leaf_addr leaf_size;
    let leaf := leaf_of_bytes bs in
    (if negb from_cache && negb (gaddr_eqb (l_rev_ptr leaf) p_ptr)
     then cas leaf_addr (gaddr_val (l_rev_ptr leaf)) (gaddr_val p_ptr) else mret tt) ;;
    if negb (leaf_is_valid leaf p_ptr from_cache) then mret (Done (false, leaf))
    else if negb (is_consistent leaf) then mret (Again tt)
    else mret (Done (true, leaf))) tt.

(** [acquire_lock]; the spin at [re_acquire] is a wait for the lock bit. *)
Definition acquire_lock (leaf_addr : GlobalAddress) : wp unit :=
  Act (λ w, let g := GADD leaf_addr lock_cas_offset in
            let '(old, m) := mem_cas_mask (w_mem w) (dsm_region g) (offset g) 0 (2 ^ 64 - 1) lock_mask in
            if masked_eq 0 old lock_mask then Some (set_mem m w, Return tt) else None).

Definition in_place_update_leaf (k : Key) (v : Z) (leaf_addr : GlobalAddress) (leaf : Leaf) : wp Z :=
  acquire_lock leaf_addr ;;
  pure (check (key_eqb (l_key leaf) k)) ;;
  '(_, v) ← on_lock k (get_combining_value k v) : wp (bool * Z);
  let leaf := leaf_unlock (set_consistent (leaf_set_value leaf v)) in
  write_sync (leaf_bytes leaf) leaf_addr ;;
  mret v.

(** [new (leaf_buffer) Leaf(k, v, e_ptr)], then the entry's compare-and-swap:
    whether it succeeded, the old entry, and the new [leaf_addr] and [v]. *)
Definition out_of_place_write_leaf (k : Key) (v : Z) (leaf_addr : GlobalAddress) (partial_key : byte)
    (e_ptr : GlobalAddress) (old_e : InternalEntry) : wp (bool * InternalEntry * GlobalAddress * Z) :=
  '(wc, v) ← on_lock k (get_combining_value k v) : wp (bool * Z);
  let unwrite := gaddr_eqb leaf_addr gaddr_Null || wc in
  leaf_addr ← (if unwrite then
                 leaf_addr ← dsm_alloc sizeof_Leaf;
                 write_sync (leaf_bytes (leaf_make k v e_ptr)) leaf_addr ;;
                 mret leaf_addr
               else
                 write (le_bytes 8 (gaddr_val e_ptr)) leaf_addr ;; mret leaf_addr) : wp GlobalAddress;
  let new_e := entry_leaf partial_key leaf_kv_len leaf_addr in
  '(res, old) ← cas_sync e_ptr (entry_val old_e) (entry_val new_e);
  mret (res, entry_of_val old, leaf_addr, v).

(** Without [TREE_TEST_HOCL_HANDOVER]. *)
Definition out_of_place_update_leaf (k : Key) (v : Z) (leaf_addr e_ptr : GlobalAddress) (old_e : InternalEntry) :
    wp (bool * InternalEntry * GlobalAddress * Z) :=
  '(res, old, leaf_addr, v) ← out_of_place_write_leaf k v leaf_addr (e_partial old_e) e_ptr old_e
    : wp (bool * InternalEntry * GlobalAddress * Z);
  if (res : bool) then write [0] (GADD (e_addr old_e) valid_byte_offset) ;; mret (res, old_e, leaf_addr, v)
  else mret (res, old, leaf_addr, v).

(** The lock address and the mask. *)
Definition get_on_chip_lock_addr (leaf_addr : GlobalAddress) : GlobalAddress * Z :=
  let lock_index := CityHash64 (le_bytes 8 (offset leaf_addr)) `mod` kOnChipLockNum in
  (mk_gaddr (nodeID leaf_addr) (lock_index / 64 * 8), Z.shiftl 1 (lock_index `mod` 64)).

(** ** Nodes *)

(** [read_node]: the entry with the type found, [type_correct], the page and
    whether it is valid. [read_node_type] has [MAX_NODE_TYPE_NUM] counters. *)
Definition read_node (p : InternalEntry) (p_ptr : GlobalAddress) (depth : Z) (from_cache : bool) :
    wp (InternalEntry * bool * InternalPage * bool) :=
  let read_size := node_size (e_node_type p) in
  bs ← read_sync (e_addr p) read_size;
  let hdr := pg_hdr (page_of_bytes bs) in
  pure (defined (h_node_type hdr <? MAX_NODE_TYPE_NUM)) ;;
  rest ← (if e_node_type p <? h_node_type hdr then
            read_sync (GADD (e_addr p) read_size)
              ((node_type_to_num (h_node_type hdr) - node_type_to_num (e_node_type p)) * 8)
          else mret []) : wp (list byte);
  let p_node := page_of_bytes (bs ++ rest) in
  let type_correct := h_node_type hdr =? e_node_type p in
  let p' := if type_correct then p
            else Ent (e_partial p) (e_empty p + kv_of_type (h_node_type hdr)) (e_is_leaf p) (e_packed_addr p) in
  (if negb from_cache && negb (gaddr_eqb (pg_rev_ptr p_node) p_ptr)
   then cas (e_addr p) (gaddr_val (pg_rev_ptr p_node)) (gaddr_val p_ptr) else mret tt) ;;
  mret (p', type_correct, p_node, page_is_valid p_node p_ptr depth from_cache).

(** The pages of the inner nodes before the last: node [i] holds one entry,
    to node [i + 1]. *)
Fixpoint chain_pages (k : Key) (addrs : list GlobalAddress) (depth partial_len : Z) (rev_ptr : GlobalAddress)
    (nodes_type : NodeType) : wp (list InternalPage * Z * Z * GlobalAddress) :=
  match addrs with
  | a :: (b :: _) as addrs' =>
    stale ← pop_stale;
    page ← pure (page_make stale k hPartialLenMax depth nodes_type rev_ptr);
    pk ← pure (get_partial k (depth + hPartialLenMax));
    let page := mkPage (pg_rev_ptr page) (pg_hdr page) (<[0%nat := entry_node pk nodes_type b]> (pg_records page)) in
    '(pages, partial_len, depth, rev_ptr) ←
      chain_pages k addrs' (depth + (hPartialLenMax + 1)) (partial_len - (hPartialLenMax + 1))
        (GADD a page_head) nodes_type : wp (list InternalPage * Z * Z * GlobalAddress);
    mret (page :: pages, partial_len, depth, rev_ptr)
  | _ => mret ([], partial_len, depth, rev_ptr)
  end.

Definition for_each {A} (f : A → wp unit) (l : list A) : wp unit :=
  foldr (λ a p, f a ;; p) (mret tt) l.

(** [out_of_place_write_node]: as [out_of_place_write_leaf]. *)
Definition out_of_place_write_node (k : Key) (v : Z) (depth : Z) (leaf_addr : GlobalAddress) (partial_len : Z)
    (diff_partial : byte) (e_ptr : GlobalAddress) (old_e : InternalEntry) :
    wp (bool * InternalEntry * GlobalAddress * Z) :=
  let new_node_num := partial_len `quot` (hPartialLenMax + 1) + 1 in
  node_addrs ← dsm_alloc_nodes (Z.to_nat new_node_num);
  last_addr ← pure (idx_ node_addrs (new_node_num - 1)) : wp GlobalAddress;
  first_addr ← pure (idx_ node_addrs 0) : wp GlobalAddress;
  let leaf_e_ptr := GADD last_addr (page_head + 8 * 1) in
  '(wc, v) ← on_lock k (get_combining_value k v) : wp (bool * Z);
  let leaf_unwrite := gaddr_eqb leaf_addr gaddr_Null || wc in
  leaf_addr ← (if leaf_unwrite then dsm_alloc sizeof_Leaf
               else write (le_bytes 8 (gaddr_val leaf_e_ptr)) leaf_addr ;; mret leaf_addr) : wp GlobalAddress;
  nodes_type ← pure (num_to_node_type 2);
  '(pages, partial_len, depth, rev_ptr) ← chain_pages k node_addrs depth partial_len e_ptr nodes_type
    : wp (list InternalPage * Z * Z * GlobalAddress);
  stale ← pop_stale;
  page ← pure (page_make stale k partial_len depth nodes_type rev_ptr);
  pk ← pure (get_partial k (depth + partial_len));
  let page := mkPage (pg_rev_ptr page) (pg_hdr page)
                (<[1%nat := entry_leaf pk leaf_kv_len leaf_addr]>
                  (<[0%nat := entry_repartial diff_partial old_e]> (pg_records page))) in
  let node_pages := pages ++ [page] in
  let new_e := entry_node (e_partial old_e) nodes_type first_addr in
  let page_size := Z.to_nat (node_size nodes_type) in
  for_each (λ '(pg, a), write_sync (take page_size (page_bytes pg)) a) (zip node_pages node_addrs) ;;
  (if leaf_unwrite then write_sync (leaf_bytes (leaf_make k v leaf_e_ptr)) leaf_addr else mret tt) ;;
  '(res, old) ← cas_sync e_ptr (entry_val old_e) (entry_val new_e);
  (if negb res then for_each (λ a, dsm_free a allocAlignPageSize) node_addrs
   else
     cas (e_addr old_e) (gaddr_val e_ptr) (gaddr_val (GADD last_addr page_head)) ;;
     for_each (λ '(pg, a), on_cache (add_to_cache k pg (GADD a page_head))) (zip node_pages node_addrs)) ;;
  mret (res, entry_of_val old, leaf_addr, v).

(** The state of [cas_node_type]: [p_ptr], [p], [hdr] and the two results. *)
Record switch_state : Set := Sw { sw_p_ptr : GlobalAddress; sw_p : InternalEntry; sw_hdr : Header; sw_1 : bool; sw_2 : bool }.

(** The loop with [read_first_entry]. *)
Definition find_target (node_addr : GlobalAddress) (p_ptr : GlobalAddress) (p : InternalEntry) :
    wp (GlobalAddress * InternalEntry) :=
  loop fuel (λ '(p_ptr, p),
    if negb (entry_eqb p entry_Null) && negb (e_is_leaf p) && negb (gaddr_eqb (e_addr p) node_addr) then
      let p_ptr := GADD (e_addr p) page_head in
      p ← read_entry p_ptr; mret (Again (p_ptr, p))
    else mret (Done (p_ptr, p))) (p_ptr, p).

Definition cas_node_type (next_type : NodeType) (p_ptr : GlobalAddress) (p : InternalEntry) (hdr : Header) : wp unit :=
  let node_addr := e_addr p in
  let header_addr := GADD node_addr 8 in
  loop fuel (λ s,
    let p := sw_p s in
    let hdr := sw_hdr s in
    let new_e := entry_val (entry_retype next_type p) in
    let new_hdr := header_val (header_type next_type) in
    '(r1, old1, r2, old2) ←
      (if negb (sw_1 s) && negb (sw_2 s) then
         '((r1, o1), (r2, o2)) ← two_cas_mask_sync (sw_p_ptr s) (entry_val p) new_e (2 ^ 64 - 1)
                                   header_addr (header_val hdr) new_hdr node_type_mask;
         mret (r1, entry_of_val o1, r2, header_of_val o2)
       else
         '(r1, p) ← (if negb (sw_1 s)
                     then '(r, o) ← cas_sync (sw_p_ptr s) (entry_val p) new_e; mret (r, entry_of_val o)
                     else mret (true, p)) : wp (bool * InternalEntry);
         '(r2, hdr) ← (if negb (sw_2 s)
                       then '(r, o) ← cas_mask_sync header_addr (header_val hdr) new_hdr node_type_mask; mret (r, header_of_val o)
                       else mret (true, hdr)) : wp (bool * Header);
         mret (r1, p, r2, hdr)) : wp (bool * InternalEntry * bool * Header);
    '(p_ptr, p, r1) ← (if negb r1 then
                         '(p_ptr, p) ← find_target node_addr (sw_p_ptr s) old1 : wp (GlobalAddress * InternalEntry);
                         mret (p_ptr, p, negb (gaddr_eqb (e_addr p) node_addr) || (next_type <=? e_node_type p))
                       else mret (sw_p_ptr s, p, true)) : wp (GlobalAddress * InternalEntry * bool);
    let '(hdr, r2) := if negb r2 then (old2, next_type <=? h_node_type old2) else (hdr, true) in
    if negb r1 || negb r2 then mret (Again (Sw p_ptr p hdr r1 r2)) else mret (Done tt))
  (Sw p_ptr p hdr false false).

(** [insert_behind]: whether the leaf went into a slot, the slot, the entry
    found there, and the new [leaf_addr] and [v]. *)
Fixpoint behind_slots (n : nat) (slot_id : Z) (k : Key) (v : Z) (leaf_addr : GlobalAddress) (partial_key : byte)
    (node_addr : GlobalAddress) : wp (bool * Z * InternalEntry * GlobalAddress * Z) :=
  match n with
  | O => Crash EAssert
  | S n =>
    '(res, e, leaf_addr, v) ← out_of_place_write_leaf k v leaf_addr partial_key (GADD node_addr (slot_id * 8)) entry_Null
      : wp (bool * InternalEntry * GlobalAddress * Z);
    if (res : bool) then mret (true, slot_id, e, leaf_addr, v)
    else if e_partial e =? partial_key then mret (false, slot_id, e, leaf_addr, v)
    else behind_slots n (slot_id + 1) k v leaf_addr partial_key node_addr
  end.

Definition insert_behind (k : Key) (v : Z) (leaf_addr : GlobalAddress) (partial_key : byte) (node_type : NodeType)
    (node_addr : GlobalAddress) : wp (bool * Z * InternalEntry * GlobalAddress * Z) :=
  pure (check (negb (node_type =? NODE_256))) ;;
  let max_num := node_type_to_num node_type in
  behind_slots (Z.to_nat (256 - max_num)) max_num k v leaf_addr partial_key node_addr.

(** ** [insert] *)

(** The variables that live across [goto next]; [i_from] is the handle when
    [from_cache] holds. *)
Record insert_state : Type := Ins {
  i_p_ptr : GlobalAddress; i_p : InternalEntry; i_node_ptr : GlobalAddress; i_depth : Z;
  i_from : option handle; i_leaf : GlobalAddress; i_v : Z
}.

Definition from_cache (h : option handle) : bool := if h then true else false.
Definition invalidate_if (h : option handle) : wp unit :=
  match h with Some h => on_cache (invalidate h) | None => mret tt end.

Definition leaf_read_size (p : InternalEntry) : Z := Z.max (e_kv_len p) sizeof_Leaf.

(** 1. A NULL node. *)
Definition insert_null (k : Key) (s : insert_state) : wp (step_result insert_state unit) :=
  pure (check (negb (from_cache (i_from s)))) ;;
  pk ← pure (get_partial k (i_depth s - 1));
  '(res, old, leaf_addr, v) ← out_of_place_write_leaf k (i_v s) (i_leaf s) pk (i_p_ptr s) (i_p s)
    : wp (bool * InternalEntry * GlobalAddress * Z);
  if (res : bool) then mret (Done tt)
  else mret (Again (Ins (i_p_ptr s) old (i_node_ptr s) (i_depth s) (i_from s) leaf_addr v)).

(** 2. A leaf. *)
Definition insert_leaf (k : Key) (is_load : bool) (s : insert_state) : wp (step_result insert_state unit) :=
  let p := i_p s in
  '(is_valid, leaf) ← read_leaf (e_addr p) (leaf_read_size p) (i_p_ptr s) (from_cache (i_from s));
  if negb is_valid then
    invalidate_if (i_from s) ;;
    p ← read_entry (i_p_ptr s);
    mret (Again (Ins (i_p_ptr s) p (i_node_ptr s) (i_depth s) None (i_leaf s) (i_v s)))
  else
    let _k := l_key leaf in
    if key_eqb _k k then
      if is_load then mret (Done tt)
      else
        '(_, v) ← on_lock k (get_combining_value k (i_v s)) : wp (bool * Z);
        if l_value leaf =? v then mret (Done tt)
        else in_place_update_leaf k v (e_addr p) leaf ;; mret (Done tt)
    else
      partial_len ← pure (longest_common_prefix _k k (i_depth s));
      diff_partial ← pure (get_partial _k (i_depth s + partial_len));
      '(res, old, leaf_addr, v) ← out_of_place_write_node k (i_v s) (i_depth s) (i_leaf s) partial_len diff_partial
                                    (i_p_ptr s) p : wp (bool * InternalEntry * GlobalAddress * Z);
      if (res : bool) then mret (Done tt)
      else mret (Again (Ins (i_p_ptr s) old (i_node_ptr s) (i_depth s) (i_from s) leaf_addr v)).

(** 3.2 The first byte of the header that differs from the key. *)
Fixpoint header_diff (h : Header) (k : Key) (n : nat) (i : Z) : res (option (Z * byte)) :=
  match n with
  | O => Ok None
  | S n =>
    p ← get_partial k (h_depth h + i);
    q ← idx_ (h_partial h) i;
    if negb (p =? q) then Ok (Some (i, q)) else header_diff h k n (i + 1)
  end.

Definition insert_split_header (k : Key) (s : insert_state) (p : InternalEntry) (hdr : Header) (i : Z) (q : byte) :
    wp (step_result insert_state unit) :=
  '(res, old, leaf_addr, v) ← out_of_place_write_node k (i_v s) (i_depth s) (i_leaf s) (h_depth hdr + i - i_depth s) q
                                (i_p_ptr s) p : wp (bool * InternalEntry * GlobalAddress * Z);
  if (res : bool) then
    invalidate_if (i_from s) ;;
    new_hdr ← pure (split_header hdr i);
    cas_mask (GADD (e_addr p) 8) (header_val hdr) (header_val new_hdr) (Z.lxor node_type_mask (2 ^ 64 - 1)) ;;
    mret (Done tt)
  else mret (Again (Ins (i_p_ptr s) old (i_node_ptr s) (i_depth s) (i_from s) leaf_addr v)).

(** 3.3 The first slot of the page with the partial key. *)
Fixpoint find_slot (records : list InternalEntry) (n : nat) (i : Z) (partial : byte) : res (option (Z * InternalEntry)) :=
  match n with
  | O => Ok None
  | S n =>
    old_e ← idx_ records i;
    if negb (entry_eqb old_e entry_Null) && (e_partial old_e =? partial) then Ok (Some (i, old_e))
    else find_slot records n (i + 1) partial
  end.

(** The empty slots, one after the other; [None] when the page is full. *)
Fixpoint empty_slots (k : Key) (s : insert_state) (p : InternalEntry) (node_ptr : GlobalAddress) (depth : Z)
    (partial : byte) (records : list InternalEntry) (n : nat) (i : Z) (leaf_addr : GlobalAddress) (v : Z) :
    wp (option (step_result insert_state unit) * GlobalAddress * Z) :=
  match n with
  | O => mret (None, leaf_addr, v)
  | S n =>
    old_e ← pure (idx_ records i);
    if entry_eqb old_e entry_Null then
      let e_ptr := GADD (e_addr p) (page_head + i * 8) in
      '(res, e, leaf_addr, v) ← out_of_place_write_leaf k v leaf_addr partial e_ptr old_e
        : wp (bool * InternalEntry * GlobalAddress * Z);
      if (res : bool) then mret (Some (Done tt), leaf_addr, v)
      else if e_partial e =? partial then mret (Some (Again (Ins e_ptr e node_ptr (depth + 1) None leaf_addr v)), leaf_addr, v)
      else empty_slots k s p node_ptr depth partial records n (i + 1) leaf_addr v
    else empty_slots k s p node_ptr depth partial records n (i + 1) leaf_addr v
  end.

(** 3.4 The node is full. *)
Definition insert_switch (k : Key) (s : insert_state) (p : InternalEntry) (node_ptr : GlobalAddress) (depth : Z)
    (partial : byte) (hdr : Header) (leaf_addr : GlobalAddress) (v : Z) : wp (step_result insert_state unit) :=
  '(done, slot_id, e, leaf_addr, v) ← insert_behind k v leaf_addr partial (e_node_type p) node_ptr
    : wp (bool * Z * InternalEntry * GlobalAddress * Z);
  if (done : bool) then
    next_type ← pure (num_to_node_type slot_id);
    cas_node_type next_type (i_p_ptr s) p hdr ;;
    invalidate_if (i_from s) ;;
    mret (Done tt)
  else mret (Again (Ins (GADD node_ptr (slot_id * 8)) e node_ptr (depth + 1) None leaf_addr v)).

(** 3. A node. *)
Definition insert_node (k : Key) (s : insert_state) : wp (step_result insert_state unit) :=
  '(p, type_correct, p_node, is_valid) ← read_node (i_p s) (i_p_ptr s) (i_depth s) (from_cache (i_from s))
    : wp (InternalEntry * bool * InternalPage * bool);
  if negb is_valid then
    invalidate_if (i_from s) ;;
    p ← read_entry (i_p_ptr s);
    mret (Again (Ins (i_p_ptr s) p (i_node_ptr s) (i_depth s) None (i_leaf s) (i_v s)))
  else
    let hdr := pg_hdr p_node in
    (if negb type_correct then invalidate_if (i_from s) else mret tt) ;;
    (if i_depth s =? h_depth hdr then on_cache (add_to_cache k p_node (GADD (e_addr p) page_head)) else mret tt) ;;
    d ← pure (header_diff hdr k (Z.to_nat (h_partial_len hdr)) 0);
    match d with
    | Some (i, q) => insert_split_header k s p hdr i q
    | None =>
      let depth := h_depth hdr + h_partial_len hdr in
      let node_ptr := GADD (e_addr p) page_head in
      let max_num := node_type_to_num (e_node_type p) in
      partial ← pure (get_partial k depth);
      m ← pure (find_slot (pg_records p_node) (Z.to_nat max_num) 0 partial);
      match m with
      | Some (i, old_e) =>
        mret (Again (Ins (GADD (e_addr p) (page_head + i * 8)) old_e node_ptr (depth + 1) None (i_leaf s) (i_v s)))
      | None =>
        '(r, leaf_addr, v) ← empty_slots k s p node_ptr depth partial (pg_records p_node) (Z.to_nat max_num) 0 (i_leaf s) (i_v s)
          : wp (option (step_result insert_state unit) * GlobalAddress * Z);
        match r with
        | Some r => mret r
        | None => insert_switch k s p node_ptr depth partial hdr leaf_addr v
        end
      end
    end.

Definition insert_next (k : Key) (is_load : bool) (s : insert_state) : wp (step_result insert_state unit) :=
  if entry_eqb (i_p s) entry_Null then insert_null k s
  else if e_is_leaf (i_p s) then insert_leaf k is_load s
  else insert_node k s.

(** Where a traversal starts: at a cached record, or at the root. *)
Definition start (k : Key) : wp (option handle * GlobalAddress * InternalEntry * GlobalAddress * Z) :=
  r ← on_cache (search_from_cache k);
  match r with
  | Some (h, entry_ptr, entry_idx) =>
    pure (check (0 <=? entry_idx)) ;;
    p ← pure (idx_ (ce_records entry_ptr) entry_idx);
    mret (Some h, GADD (ce_addr entry_ptr) (8 * entry_idx), p, ce_addr entry_ptr, ce_depth entry_ptr + 1)
  | None => p ← get_root_ptr; mret (None, get_root_ptr_ptr, p, gaddr_Null, 1)
  end.

Definition insert (k : Key) (v : Z) (is_load : bool) : wp unit :=
  lock_res ← on_lock k (acquire_local_write_lock k v);
  (if lock_res.1 && negb lock_res.2 then mret tt
   else
     '(h, p_ptr, p, node_ptr, depth) ← start k : wp (option handle * GlobalAddress * InternalEntry * GlobalAddress * Z);
     loop fuel (insert_next k is_load) (Ins p_ptr p node_ptr depth h gaddr_Null v)) ;;
  on_lock k (release_local_write_lock lock_res).

(** ** [search] *)
Record search_state : Type := Se { s_p_ptr : GlobalAddress; s_p : InternalEntry; s_depth : Z; s_from : option handle }.

Definition search_leaf (k : Key) (v : Z) (s : search_state) : wp (step_result search_state (bool * Z)) :=
  let p := s_p s in
  '(is_valid, leaf) ← read_leaf (e_addr p) (leaf_read_size p) (s_p_ptr s) (from_cache (s_from s));
  if negb is_valid then
    invalidate_if (s_from s) ;;
    p ← read_entry (s_p_ptr s);
    mret (Again (Se (s_p_ptr s) p (s_depth s) None))
  else if key_eqb (l_key leaf) k then mret (Done (true, l_value leaf)) else mret (Done (false, v)).

Definition search_node (k : Key) (v : Z) (s : search_state) : wp (step_result search_state (bool * Z)) :=
  '(p, type_correct, p_node, is_valid) ← read_node (s_p s) (s_p_ptr s) (s_depth s) (from_cache (s_from s))
    : wp (InternalEntry * bool * InternalPage * bool);
  if negb is_valid then
    invalidate_if (s_from s) ;;
    p ← read_entry (s_p_ptr s);
    mret (Again (Se (s_p_ptr s) p (s_depth s) None))
  else
    let hdr := pg_hdr p_node in
    (if negb type_correct then invalidate_if (s_from s) else mret tt) ;;
    (if s_depth s =? h_depth hdr then on_cache (add_to_cache k p_node (GADD (e_addr p) page_head)) else mret tt) ;;
    d ← pure (header_diff hdr k (Z.to_nat (h_partial_len hdr)) 0);
    match d with
    | Some _ => mret (Done (false, v))
    | None =>
      partial ← pure (get_partial k (h_depth hdr + h_partial_len hdr));
      m ← pure (find_slot (pg_records p_node) (Z.to_nat (node_type_to_num (e_node_type p))) 0 partial);
      match m with
      | Some (i, old_e) =>
        mret (Again (Se (GADD (e_addr p) (page_head + i * 8)) old_e (h_depth hdr + h_partial_len hdr + 1) None))
      | None => mret (Done (false, v))
      end
    end.

Definition search_next (k : Key) (v : Z) (s : search_state) : wp (step_result search_state (bool * Z)) :=
  if entry_eqb (s_p s) entry_Null then
    pure (check (negb (from_cache (s_from s)))) ;; mret (Done (false, v))
  else if e_is_leaf (s_p s) then search_leaf k v s
  else search_node k v s.

(** [search]: the result, and [v] after the call. *)
Definition search (k : Key) (v : Z) : wp (bool * Z) :=
  lock_res ← on_lock k (acquire_local_read_lock k);
  '(search_res, v) ← (if lock_res.1 && negb lock_res.2 then mret (false, v)
                      else
                        '(h, p_ptr, p, _, depth) ← start k
                          : wp (option handle * GlobalAddress * InternalEntry * GlobalAddress * Z);
                        pure (check (negb (entry_eqb p entry_Null))) ;;
                        loop fuel (search_next k v) (Se p_ptr p depth h)) : wp (bool * Z);
  on_lock k (release_local_read_lock lock_res search_res v).

(** ** Range queries *)

(** The loop of a [BORDER] state over the header: the first byte that differs. *)
Fixpoint header_cmp (h : Header) (k : Key) (n : nat) (i : Z) : res (option comparison) :=
  match n with
  | O => Ok None
  | S n =>
    q ← idx_ (h_partial h) i;
    p ← get_partial k (h_depth h + i);
    if negb (q =? p) then Ok (Some (q ?= p)) else header_cmp h k n (i + 1)
  end.

Definition l_border (c : option comparison) : State :=
  match c with None | Some Eq => BORDER | Some Gt => INSIDE | Some Lt => OUTSIDE end.
Definition r_border (c : option comparison) : State :=
  match c with None | Some Eq => BORDER | Some Lt => INSIDE | Some Gt => OUTSIDE end.

Definition cmp_byte (a b : byte) : option comparison := if a =? b then None else Some (a ?= b).

(** [next_from], [next_to] of an entry that lies inside. *)
Fixpoint remake_partial (h : Header) (n : nat) (i : Z) (k : Key) : res Key :=
  match n with
  | O => Ok k
  | S n => q ← idx_ (h_partial h) i; k ← remake_prefix k (h_depth h + i) q; remake_partial h n (i + 1) k
  end.
Definition remake_next (h : Header) (k : Key) (partial : byte) : res Key :=
  k ← remake_partial h (Z.to_nat (h_partial_len h)) 0 k;
  remake_prefix k (h_depth h + h_partial_len h) partial.

(** One record of the page. *)
Definition scan_record (h : Header) (p : InternalEntry) (from to : Key) (l_state r_state : State)
    (from_partial to_partial : byte) (j : Z) (e : InternalEntry) : res (list (ScanContext handle)) :=
  if entry_eqb e entry_Null then Ok []
  else
    let e_l := match l_state with BORDER => l_border (cmp_byte (e_partial e) from_partial) | st => st end in
    let e_r := match r_state with BORDER => r_border (cmp_byte (e_partial e) to_partial) | st => st end in
    match e_l, e_r with
    | OUTSIDE, _ | _, OUTSIDE => Ok []
    | _, _ =>
      next_from ← (if decide (e_l = INSIDE) then remake_next h from (e_partial e) else Ok from);
      next_to ← (if decide (e_r = INSIDE) then remake_next h to (e_partial e) else Ok to);
      Ok [SC e (GADD (e_addr p) (page_head + j * 8)) (h_depth h + h_partial_len h) None next_from next_to e_l e_r]
    end.

Fixpoint scan_records (h : Header) (p : InternalEntry) (from to : Key) (l_state r_state : State)
    (from_partial to_partial : byte) (records : list InternalEntry) (n : nat) (j : Z) : res (list (ScanContext handle)) :=
  match n with
  | O => Ok []
  | S n =>
    e ← idx_ records j;
    l ← scan_record h p from to l_state r_state from_partial to_partial j e;
    l' ← scan_records h p from to l_state r_state from_partial to_partial records n (j + 1);
    Ok (l ++ l')
  end.

(** The part of [range_query_on_page] on the page: the entries it appends. *)
Definition scan_page (page : InternalPage) (p : InternalEntry) (from to : Key) (l_state r_state : State) :
    res (list (ScanContext handle)) :=
  let h := pg_hdr page in
  let n := Z.to_nat (h_partial_len h) in
  l_state ← match l_state with BORDER => c ← header_cmp h from n 0; Ok (l_border c) | st => Ok st end;
  r_state ← match r_state with BORDER => c ← header_cmp h to n 0; Ok (r_border c) | st => Ok st end;
  match l_state, r_state with
  | OUTSIDE, _ | _, OUTSIDE => Ok []
  | _, _ =>
    from_partial ← get_partial from (h_depth h + h_partial_len h);
    to_partial ← get_partial to (h_depth h + h_partial_len h);
    scan_records h p from to l_state r_state from_partial to_partial (pg_records page)
      (Z.to_nat (node_type_to_num (h_node_type h))) 0
  end.

Definition range_query_on_page (page : InternalPage) (depth : Z) (p : InternalEntry) (from to : Key)
    (l_state r_state : State) : wp (list (ScanContext handle)) :=
  (if depth =? h_depth (pg_hdr page) - 1
   then on_cache (add_to_cache from page (GADD (e_addr p) page_head)) else mret tt) ;;
  pure (scan_page page p from to l_state r_state).

(** [search_entries]. The loop over the header also stops at the target depth. *)
Fixpoint header_until (h : Header) (k : Key) (target_depth : Z) (n : nat) (i : Z) : res (option bool) :=
  match n with
  | O => Ok None
  | S n =>
    p ← get_partial k (h_depth h + i);
    q ← idx_ (h_partial h) i;
    if negb (p =? q) then Ok (Some false)
    else if h_depth h + i + 1 =? target_depth then Ok (Some true)
    else header_until h k target_depth n (i + 1)
  end.

Definition entries_node (from to : Key) (target_depth : Z) (s : search_state) :
    wp (step_result search_state (list (ScanContext handle))) :=
  '(p, type_correct, p_node, is_valid) ← read_node (s_p s) (s_p_ptr s) (s_depth s) (from_cache (s_from s))
    : wp (InternalEntry * bool * InternalPage * bool);
  if negb is_valid then
    invalidate_if (s_from s) ;;
    p ← read_entry (s_p_ptr s);
    mret (Again (Se (s_p_ptr s) p (s_depth s) None))
  else
    let hdr := pg_hdr p_node in
    (if negb type_correct then invalidate_if (s_from s) else mret tt) ;;
    d ← pure (header_until hdr from target_depth (Z.to_nat (h_partial_len hdr)) 0);
    match d with
    | Some true => l ← range_query_on_page p_node (s_depth s - 1) p from to BORDER BORDER; mret (Done l)
    | Some false => mret (Done [])
    | None =>
      partial ← pure (get_partial from (h_depth hdr + h_partial_len hdr));
      m ← pure (find_slot (pg_records p_node) (Z.to_nat (node_type_to_num (e_node_type p))) 0 partial);
      match m with
      | Some (i, old_e) =>
        mret (Again (Se (GADD (e_addr p) (page_head + i * 8)) old_e (h_depth hdr + h_partial_len hdr + 1) None))
      | None => mret (Done [])
      end
    end.

Definition search_entries (from to : Key) (target_depth : Z) : wp (list (ScanContext handle)) :=
  '(h, p_ptr, p, _, depth) ← start from : wp (option handle * GlobalAddress * InternalEntry * GlobalAddress * Z);
  loop fuel (λ s,
    if entry_eqb (s_p s) entry_Null then mret (Done [])
    else if s_depth s =? target_depth then
      mret (Done [SC (s_p s) (s_p_ptr s) (s_depth s - 1) (s_from s) from to BORDER BORDER])
    else if e_is_leaf (s_p s) then mret (Done [])
    else entries_node from to target_depth s) (Se p_ptr p depth h).

(** The requests of one level: an address is read once in a whole query. *)
Fixpoint new_requests (survivors : list (ScanContext handle)) (tokens : list Z) : list (ScanContext handle) * list Z :=
  match survivors with
  | [] => ([], tokens)
  | s :: survivors =>
    let token := gaddr_val (e_addr (sc_e s)) in
    if existsb (Z.eqb token) tokens then new_requests survivors tokens
    else let '(si, tokens) := new_requests survivors (token :: tokens) in (s :: si, tokens)
  end.

Definition request_size (s : ScanContext handle) : Z :=
  if e_is_leaf (sc_e s) then leaf_read_size (sc_e s)
  else node_size (if from_cache (sc_cached s) then NODE_256 else e_node_type (sc_e s)).

(** [read_batches_sync(rs)]: with no request it reads an uninitialised
    completion. *)
Fixpoint read_all (si : list (ScanContext handle)) : wp (list (list byte)) :=
  match si with
  | [] => mret []
  | s :: si => bs ← read_sync (e_addr (sc_e s)) (request_size s); l ← read_all si; mret (bs :: l)
  end.
Definition read_batches_sync (si : list (ScanContext handle)) : wp (list (list byte)) :=
  match si with [] => Crash EUndef | _ => read_all si end.

Definition reread (s : ScanContext handle) : wp (list (ScanContext handle)) :=
  invalidate_if (sc_cached s) ;;
  e ← read_entry (sc_e_ptr s);
  mret [SC e (sc_e_ptr s) (sc_depth s) None (sc_from s) (sc_to s) (sc_l s) (sc_r s)].

(** 3. One read node or leaf: the survivors it leaves, the result. *)
Definition range_step (from to : Key) (s : ScanContext handle) (bs : list byte) (ret : gmap Key Z) :
    wp (list (ScanContext handle) * gmap Key Z) :=
  if e_is_leaf (sc_e s) then
    let leaf := leaf_of_bytes bs in
    let k := l_key leaf in
    if negb (leaf_is_valid leaf (sc_e_ptr s) (from_cache (sc_cached s))) then l ← reread s; mret (l, ret)
    else
      mret (if negb (is_consistent leaf) then [s] else [],
            if key_leb from k && key_ltb k to then <[k := l_value leaf]> ret else ret)
  else
    let node := page_of_bytes bs in
    if negb (page_is_valid node (sc_e_ptr s) (sc_depth s + 1) (from_cache (sc_cached s))) then l ← reread s; mret (l, ret)
    else
      l ← range_query_on_page node (sc_depth s) (sc_e s) (sc_from s) (sc_to s) (sc_l s) (sc_r s);
      mret (l, ret).

Fixpoint range_steps (from to : Key) (l : list (ScanContext handle * list byte)) (survivors : list (ScanContext handle))
    (ret : gmap Key Z) : wp (list (ScanContext handle) * gmap Key Z) :=
  match l with
  | [] => mret (survivors, ret)
  | (s, bs) :: l =>
    '(new, ret) ← range_step from to s bs ret : wp (list (ScanContext handle) * gmap Key Z);
    range_steps from to l (survivors ++ new) ret
  end.

(** [next_level]: the survivors, the tokens and the result. *)
Definition next_level (from to : Key) (st : list (ScanContext handle) * list Z * gmap Key Z) :
    wp (step_result (list (ScanContext handle) * list Z * gmap Key Z) (gmap Key Z)) :=
  let '(survivors, tokens, ret) := st in
  match survivors with
  | [] => mret (Done ret)
  | _ =>
    let '(si, tokens) := new_requests survivors tokens in
    bss ← read_batches_sync si;
    '(survivors, ret) ← range_steps from to (zip si bss) [] ret : wp (list (ScanContext handle) * gmap Key Z);
    mret (Again (survivors, tokens, ret))
  end.

Definition of_range_cache (from to1 : Key) (rc : RangeCache handle) : ScanContext handle :=
  SC (rc_e rc) (rc_e_ptr rc) (rc_depth rc) (Some (rc_handle rc))
     (key_max (rc_from rc) from) (key_min (rc_to rc) to1)
     (if key_leb (rc_from rc) from then BORDER else INSIDE)
     (if key_leb to1 (rc_to rc) then BORDER else INSIDE).

(** [range_query]: the keys in [[from, to)]; [ret] is the map it adds to. The
    loop over the keys of the range in the cache has [steps] steps, the loop over
    the levels [fuel]. *)
Definition range_query (steps : nat) (from to : Key) (ret : gmap Key Z) : wp (gmap Key Z) :=
  if key_leb to from then mret ret
  else
    range_cache ← on_cache (search_range_from_cache steps from to);
    to1 ← pure (key_sub to 1);
    survivors ← (match range_cache with
                 | [] =>
                   partial_len ← pure (longest_common_prefix from to1 0);
                   search_entries from to1 partial_len
                 | _ => mret (map (of_range_cache from to1) range_cache)
                 end) : wp (list (ScanContext handle));
    loop fuel (next_level from to) (survivors, [], ret).

(** ** [migrate_local_cache_to_radix_cache] *)

(** The search for the child compares the partial keys alone. *)
Fixpoint migrate_slot (records : list InternalEntry) (n : nat) (i : Z) (partial : byte) : res (option (Z * InternalEntry)) :=
  match n with
  | O => Ok None
  | S n =>
    e ← idx_ records i;
    if e_partial e =? partial then Ok (Some (i, e)) else migrate_slot records n (i + 1) partial
  end.

Definition migrate_local_cache_to_radix_cache (k : Key) : wp unit :=
  '(h, p_ptr, p, _, depth) ← start k : wp (option handle * GlobalAddress * InternalEntry * GlobalAddress * Z);
  loop fuel (λ s,
    if entry_eqb (s_p s) entry_Null || e_is_leaf (s_p s) then mret (Done tt)
    else
      '(p, _, p_node, is_valid) ← read_node (s_p s) (s_p_ptr s) (s_depth s) (from_cache (s_from s))
        : wp (InternalEntry * bool * InternalPage * bool);
      if negb is_valid then mret (Done tt)
      else
        let hdr := pg_hdr p_node in
        (if s_depth s =? h_depth hdr then on_cache (add_to_cache k p_node (GADD (e_addr p) page_head)) else mret tt) ;;
        partial ← (if 0 <? node_type_to_num (h_node_type hdr) then pure (get_partial k (s_depth s)) else mret 0) : wp Z;
        m ← pure (migrate_slot (pg_records p_node) (Z.to_nat (node_type_to_num (h_node_type hdr))) 0 partial);
        match m with
        | Some (i, e) => mret (Again (Se (GADD (e_addr p) (page_head + i * 8)) e (s_depth s + 1) (s_from s)))
        | None => mret (Done tt)
        end) (Se p_ptr p depth h).
End tree.
