(* ===== verification/TreeSearch.v ===== *)
(** * Searching the tree

    [repr] says that an entry of remote memory is the root of a tree that holds
    a map. On such a tree, and whatever consistent pages the index cache holds,
    [search] returns what the map says, terminates within the depth of the tree
    and leaves the shared memory as it is. *)

From Stdlib Require Import ZArith Lia Bool.
From stdpp Require Import base tactics decidable option numbers list gmap.
From S2P Require Import Prelude.
From S2P Require Import Common.
From S2P Require Import Keys.
From S2P Require Import Address.
From S2P Require Import Nodes.
From S2P Require Import Memory.
From S2P Require Import Process.
From S2P Require Import LockTable.
From S2P Require Import IndexCache.
From S2P Require Import Tree.

(** ** Pages in memory *)

(** The page at an address, with its first [c] records. *)
Definition page_at (m : shared_mem) (g : GlobalAddress) (c : nat) : InternalPage :=
  let w o := load_word m (dsm_region g) (offset g + o) in
  mkPage (gaddr_of_val (w 0)) (header_of_val (w 8))
         ((λ i : nat, entry_of_val (w (16 + 8 * Z.of_nat i))) <$> seq 0 c).

Lemma words_load {K} `{EqDecision K} (m : mem K) k o n :
  words n (load m k o (8 * n)) = (λ i : nat, load_word m k (o + 8 * Z.of_nat i)) <$> seq 0 n.
Proof.
  revert o. induction n as [|n IH]; intros o; [done|].
  replace (8 * S n)%nat with (8 + 8 * n)%nat by lia. rewrite load_split. cbn [words].
  rewrite take_app_length' by (by rewrite length_load). rewrite drop_app_length' by (by rewrite length_load). rewrite IH. cbn [seq fmap list_fmap].
  f_equal; [unfold load_word; by rewrite Z.add_0_r|].
  rewrite <- fmap_S_seq, <- list_fmap_compose. apply list_fmap_ext. intros i x _. unfold compose.
  by replace (o + Z.of_nat 8 + 8 * Z.of_nat x) with (o + 8 * Z.of_nat (S x)) by lia.
Qed.

Lemma page_of_load m g c :
  page_of_bytes (load m (dsm_region g) (offset g) (16 + 8 * c)) = page_at m g c.
Proof.
  unfold page_of_bytes, page_at. rewrite length_load. replace (16 + 8 * c - 16)%nat with (c * 8)%nat by lia.
  rewrite Nat.div_mul by done. replace (16 + 8 * c)%nat with (8 + (8 + 8 * c))%nat by lia.
  rewrite !load_split. rewrite take_app_length' by (by rewrite length_load).
  change 16%nat with (8 + 8)%nat. rewrite <- drop_drop.
  rewrite !drop_app_length' by (by rewrite length_load). rewrite take_app_length' by (by rewrite length_load).
  rewrite words_load, <- list_fmap_compose. unfold load_word. rewrite Z.add_0_r. f_equal.
  apply list_fmap_ext. intros i x _. unfold compose, load_word.
  by replace (offset g + Z.of_nat 8 + Z.of_nat 8 + 8 * Z.of_nat x) with (offset g + (16 + 8 * Z.of_nat x)) by lia.
Qed.

Lemma page_at_records m g c i :
  (i < c)%nat → pg_records (page_at m g c) !! i = Some (entry_of_val (load_word m (dsm_region g) (offset g + (16 + 8 * Z.of_nat i)))).
Proof. intros Hi. cbn. by rewrite list_lookup_fmap, lookup_seq_lt. Qed.

Lemma page_at_take m g c c' : (c ≤ c')%nat → take c (pg_records (page_at m g c')) = pg_records (page_at m g c).
Proof. intros Hc. cbn. rewrite <- fmap_take, take_seq. do 2 f_equal. lia. Qed.

Lemma page_at_ok m g c : page_ok (page_at m g c).
Proof.
  split; [apply gaddr_of_val_ok|]. split; [apply header_of_val_ok|]. cbn.
  apply Forall_fmap, Forall_true. intros i. apply entry_of_val_ok.
Qed.

(** ** Running the verbs *)
Section run.
Context `{Checksum} `{IndexCache} (CityHash64 : list byte → Z).

Lemma set_mem_id w : set_mem (w_mem w) w = w.
Proof. by destruct w. Qed.

Lemma run_read_sync g n w :
  run (read_sync g n) w = Ok (load (w_mem w) (dsm_region g) (offset g) (Z.to_nat n), w).
Proof. unfold read_sync, on_mem. rewrite run_atomic. by rewrite set_mem_id. Qed.

Lemma run_read_entry g w :
  run (read_entry g) w = Ok (entry_of_val (load_word (w_mem w) (dsm_region g) (offset g)), w).
Proof. unfold read_entry. by rewrite run_bind, run_read_sync. Qed.

Lemma run_loop {S A} n (body : S → proc world (step_result S A)) s w r w' :
  run (body s) w = Ok (r, w') →
  run (loop (Datatypes.S n) body s) w = match r with Again s => run (loop n body s) w' | Done a => Ok (a, w') end.
Proof. intros E. cbn [loop]. rewrite run_bind, E. by destruct r. Qed.

Lemma run_on_cache {A} (p : proc cache A) w a c :
  run p (w_cache w) = Ok (a, c) → run (on_cache p) w = Ok (a, set_cache c w).
Proof.
  intros E. unfold on_cache. rewrite run_on by (by intros; destruct w0). by rewrite E.
Qed.

(** A process on a lock node changes nothing but the lock table. *)
Lemma run_on_lock_set {A} k (p : np A) w a n :
  run p (w_locks w (get_hashed_lock_index CityHash64 k)) = Ok (a, n) →
  ∃ l, run (on_lock CityHash64 k p) w = Ok (a, set_locks l w) ∧
       ∀ j, l j = if j =? get_hashed_lock_index CityHash64 k then n else w_locks w j.
Proof.
  intros E. unfold on_lock, on_node. set (i := get_hashed_lock_index CityHash64 k) in *. clearbody i.
  revert w n E. induction p as [x|e|f IH] using proc_ind'; intros w n E; cbn in *.
  - injection E as -> <-. exists (w_locks w). split; [by destruct w|]. intros j. by destruct (Z.eqb_spec j i) as [->|].
  - done.
  - destruct (f (w_locks w i)) as [[n1 p1]|] eqn:Ef; [|done].
    destruct (IH _ _ _ Ef (set_locks (λ j, if j =? i then n1 else w_locks w j) w) n) as (l & Hr & Hl).
    { cbn. by rewrite Z.eqb_refl. }
    exists l. split; [exact Hr|]. intros j. rewrite Hl. cbn. by destruct (j =? i).
Qed.

Lemma run_on_lock {A} k (p : np A) w a n :
  run p (w_locks w (get_hashed_lock_index CityHash64 k)) = Ok (a, n) →
  ∃ w', run (on_lock CityHash64 k p) w = Ok (a, w') ∧ w_mem w' = w_mem w ∧ w_cache w' = w_cache w ∧
        w_locks w' (get_hashed_lock_index CityHash64 k) = n.
Proof. intros E. destruct (run_on_lock_set k p w a n E) as (l & Hr & Hl). exists (set_locks l w). cbn. by rewrite Hl, Z.eqb_refl. Qed.
End run.

(** ** Loops over a page *)
Lemma header_diff_spec h k n i :
  header_ok h → key_ok k → 1 <= h_depth h → 0 <= i → h_depth h + i + Z.of_nat n <= keyLen + 1 →
  i + Z.of_nat n <= hPartialLenMax →
  ∃ r, header_diff h k n i = Ok r ∧
    match r with
    | None => ∀ j : nat, (Z.to_nat i <= j < Z.to_nat i + n)%nat → h_partial h !! j = k !! (Z.to_nat (h_depth h - 1) + j)%nat
    | Some (d, q) => i <= d < i + Z.of_nat n ∧ h_partial h !! Z.to_nat d = Some q ∧
                     k !! (Z.to_nat (h_depth h - 1) + Z.to_nat d)%nat ≠ Some q ∧
                     ∀ j : nat, (Z.to_nat i <= j < Z.to_nat d)%nat → h_partial h !! j = k !! (Z.to_nat (h_depth h - 1) + j)%nat
    end.
Proof.
  intros Hh Hk Hd. revert i. induction n as [|n IH]; intros i Hi Hle Hmax.
  { exists None. split; [done|]. lia. }
  pose proof Hh as (_ & _ & _ & Hl & _). change (Z.to_nat hPartialLenMax) with 6%nat in Hl.
  unfold hPartialLenMax in Hmax. cbn [header_diff].
  destruct (get_partial_total k (h_depth h + i)) as (x & E & Hx); [done|lia|].
  destruct (lookup_lt_is_Some_2 (h_partial h) (Z.to_nat i)) as [q Hq]; [lia|].
  assert (idx_ (h_partial h) i = Ok q) as Eq by (by apply idx_Ok).
  rewrite E, Eq. cbn [mbind res_bind]. apply get_partial_at in E; [|lia].
  replace (Z.to_nat (h_depth h + i - 1)) with (Z.to_nat (h_depth h - 1) + Z.to_nat i)%nat in E by lia.
  destruct (Z.eqb_spec x q) as [->|Hne]; cbn [negb].
  - destruct (IH (i + 1)) as (r & Er & Hr); [lia|lia|unfold hPartialLenMax; lia|]. exists r. split; [done|]. destruct r as [[d p]|].
    + destruct Hr as (Hd1 & Hd2 & Hd3 & Hd4). split; [lia|]. split; [done|]. split; [done|].
      intros j Hj. destruct (decide (j = Z.to_nat i)) as [->|]; [congruence|apply Hd4; lia].
    + intros j Hj. destruct (decide (j = Z.to_nat i)) as [->|]; [congruence|apply Hr; lia].
  - eexists. split; [done|]. split; [lia|]. split; [done|]. split; [congruence|lia].
Qed.

Lemma find_slot_spec l n i b :
  Forall entry_ok l → 0 <= i → (Z.to_nat i + n ≤ length l)%nat →
  ∃ r, find_slot l n i b = Ok r ∧
    match r with
    | Some (j, e) => i <= j < i + Z.of_nat n ∧ l !! Z.to_nat j = Some e ∧ e ≠ entry_Null ∧ e_partial e = b
    | None => ∀ j e, (Z.to_nat i <= j < Z.to_nat i + n)%nat → l !! j = Some e → e ≠ entry_Null → e_partial e ≠ b
    end.
Proof.
  intros Hok. revert i. induction n as [|n IH]; intros i Hi Hlen.
  { exists None. split; [done|]. lia. }
  cbn [find_slot]. destruct (lookup_lt_is_Some_2 l (Z.to_nat i)) as [e He]; [lia|].
  assert (idx_ l i = Ok e) as -> by (by apply idx_Ok). cbn [mbind res_bind].
  assert (entry_ok e) as Heok by (by eapply Forall_lookup_1).
  destruct (IH (i + 1)) as (r & Er & Hr); [lia|lia|].
  destruct (entry_eqb_spec e entry_Null Heok entry_Null_ok) as [->|Hne]; cbn [negb andb].
  - exists r. split; [done|]. destruct r as [[j e]|]; [naive_solver lia|].
    intros j e Hj Hl. destruct (decide (j = Z.to_nat i)) as [->|]; [congruence|apply (Hr j e); [lia|done]].
  - destruct (Z.eqb_spec (e_partial e) b) as [Hb|Hb].
    + eexists. split; [done|]. naive_solver lia.
    + exists r. split; [done|]. destruct r as [[j e']|]; [naive_solver lia|].
      intros j e' Hj Hl. destruct (decide (j = Z.to_nat i)) as [->|]; [congruence|apply (Hr j e'); [lia|done]].
Qed.

Lemma Ok_inj {A} (x y : A) : Ok x = Ok y → x = y.
Proof. congruence. Qed.

Lemma node_num_cases t : 0 <= t <= 7 → t ∈ [0; 1; 2; 3; 4; 5; 6; 7].
Proof. intros. rewrite !elem_of_cons. lia. Qed.

Lemma node_num_range t : 0 <= t <= 7 → 0 <= node_type_to_num t <= 256.
Proof.
  intros Ht. apply node_num_cases in Ht.
  repeat (apply elem_of_cons in Ht as [->|Ht]; [by vm_compute|]). by apply elem_of_nil in Ht.
Qed.

Lemma node_num_mono t u : 0 <= t <= 7 → 0 <= u <= 7 → t <= u → node_type_to_num t <= node_type_to_num u.
Proof.
  intros Ht Hu. apply node_num_cases in Ht, Hu.
  repeat (apply elem_of_cons in Ht as [->|Ht];
    [repeat (apply elem_of_cons in Hu as [->|Hu]; [vm_compute; tauto|]); by apply elem_of_nil in Hu|]).
  by apply elem_of_nil in Ht.
Qed.

(** The bytes after a prefix. *)
Lemma prefix_extend (π k l : list byte) n :
  π `prefix_of` k → (n ≤ length l)%nat → (length π + n ≤ length k)%nat →
  ((∀ j, (j < n)%nat → l !! j = k !! (length π + j)%nat) ↔ (π ++ take n l) `prefix_of` k).
Proof.
  intros [r ->] Hn Hk. rewrite length_app in Hk.
  assert (∀ j, (π ++ r) !! (length π + j)%nat = r !! j) as Hr by (intros; rewrite lookup_app_r by lia; f_equal; lia).
  split.
  - intros Hj. apply prefix_app. exists (drop n r).
    rewrite <- (take_drop n r) at 1. f_equal. apply list_eq. intros j.
    destruct (decide (j < n)%nat) as [Hlt|Hge].
    + rewrite !lookup_take_lt by done. rewrite <- Hr. symmetry. by apply Hj.
    + rewrite !lookup_take_ge by lia. done.
  - intros Hp%prefix_app_inv j Hj. rewrite Hr.
    rewrite <- (lookup_take_lt l n j Hj).
    destruct Hp as [r' ->]. rewrite lookup_app_l; [done|]. rewrite length_take. lia.
Qed.

Lemma prefix_snoc (π k : list byte) b x :
  π `prefix_of` k → k !! length π = Some b → (π ++ [x]) `prefix_of` k ↔ x = b.
Proof.
  intros [r ->] Hb. rewrite lookup_app_r, Nat.sub_diag in Hb by done. destruct r as [|y r]; [done|].
  injection Hb as ->. split.
  - intros H%prefix_app_inv. by apply prefix_cons_inv_1 in H.
  - intros ->. apply prefix_app. by exists r.
Qed.

(** ** Trees in memory *)
Section repr.
Context `{Checksum}.

(** The tree of depth at most [n] below entry [e], which lies at [p_ptr] and
    is reached by the bytes [π], holds the map [M]. Reverse pointers are up to
    date; the type in the entry may lag behind the type of the page. *)
Fixpoint repr (n : nat) (m : shared_mem) (π : list byte) (p_ptr : GlobalAddress) (e : InternalEntry) (M : gmap Key Z) : Prop :=
  match n with
  | O => False
  | S n =>
    entry_ok e ∧ e ≠ entry_Null ∧
    if e_is_leaf e then
      let l := leaf_of_bytes (load m (dsm_region (e_addr e)) (offset (e_addr e)) (Z.to_nat (leaf_read_size e))) in
      l_rev_ptr l = p_ptr ∧ l_valid l = true ∧ is_consistent l = true ∧ π `prefix_of` l_key l ∧
      M = {[ l_key l := l_value l ]}
    else
      let pg := page_at m (e_addr e) 256 in
      let h := pg_hdr pg in
      let c := Z.to_nat (node_type_to_num (h_node_type h)) in
      let π' := π ++ take (Z.to_nat (h_partial_len h)) (h_partial h) in
      uint 48 (offset (e_addr e) + 2064) ∧ pg_rev_ptr pg = p_ptr ∧ 1 <= h_node_type h <= 7 ∧ e_node_type e <= 7 ∧
      h_depth h = Z.of_nat (length π) + 1 ∧ h_partial_len h <= hPartialLenMax ∧ h_depth h + h_partial_len h <= keyLen ∧
      (∀ i j ei ej, (i < c)%nat → (j < c)%nat → pg_records pg !! i = Some ei → pg_records pg !! j = Some ej →
         ei ≠ entry_Null → ej ≠ entry_Null → e_partial ei = e_partial ej → i = j) ∧
      ∃ Ms : nat → gmap Key Z,
        (∀ i ei, (i < c)%nat → pg_records pg !! i = Some ei → ei ≠ entry_Null →
           repr n m (π' ++ [e_partial ei]) (GADD (e_addr e) (page_head + Z.of_nat i * 8)) ei (Ms i)) ∧
        (∀ k v, M !! k = Some v ↔ ∃ i ei, (i < c)%nat ∧ pg_records pg !! i = Some ei ∧ ei ≠ entry_Null ∧ Ms i !! k = Some v)
  end.

Lemma repr_prefix n m π p_ptr e M k v : repr n m π p_ptr e M → M !! k = Some v → π `prefix_of` k.
Proof.
  revert π p_ptr e M. induction n as [|n IH]; [done|]. intros π p_ptr e M (_ & _ & Hr) Hk.
  destruct (e_is_leaf e).
  - destruct Hr as (_ & _ & _ & Hp & ->). apply lookup_singleton_Some in Hk as [<- _]. done.
  - destruct Hr as (_ & _ & _ & _ & _ & _ & _ & _ & Ms & Hc & HM).
    apply HM in Hk as (i & ei & Hi & He & Hne & Hk). pose proof (IH _ _ _ _ (Hc i ei Hi He Hne) Hk) as Hp.
    rewrite <- app_assoc in Hp. by eapply prefix_app_l.
Qed.

Lemma repr_mono n n' m π p_ptr e M : (n ≤ n')%nat → repr n m π p_ptr e M → repr n' m π p_ptr e M.
Proof.
  revert n' π p_ptr e M. induction n as [|n IH]; [done|]. intros n' π p_ptr e M Hle (He & Hne & Hr).
  destruct n' as [|n']; [lia|]. split; [done|]. split; [done|]. destruct (e_is_leaf e); [done|].
  destruct Hr as (H1 & H2 & H3 & H4 & H5 & H6 & H7 & H8 & Ms & Hc & HM). do 8 (split; [assumption|]).
  exists Ms. split; [|done]. intros i ei Hi Hei Hnei. apply IH; [lia|]. by apply Hc.
Qed.

(** The answers of a tree are the answers of [M] on the keys below it. *)
Definition agrees (M : gmap Key Z) (π : list byte) (Me : gmap Key Z) : Prop :=
  ∀ k, π `prefix_of` k → M !! k = Me !! k.

Definition max_levels : nat := 9.

(** What is known of a page in the cache. *)
Definition cached_fact (m : shared_mem) (M : gmap Key Z) (k0 : Key) (p : InternalPage) (addr : GlobalAddress) : Prop :=
  ∀ path i e, cache_key k0 p = Ok path → pg_records p !! i = Some e →
    (Z.of_nat i < node_type_to_num (h_node_type (pg_hdr p))) → e ≠ entry_Null →
    ∃ n Me, (n ≤ max_levels)%nat ∧ repr n m (path ++ [e_partial e]) (GADD addr (8 * Z.of_nat i)) e Me ∧
            agrees M (path ++ [e_partial e]) Me.

(** The node below an entry. *)
Record node_at (n : nat) (m : shared_mem) (π : list byte) (p_ptr : GlobalAddress) (e : InternalEntry)
    (M : gmap Key Z) (π' : list byte) (Ms : nat → gmap Key Z) : Prop := {
  na_entry : entry_ok e;
  na_addr : uint 48 (offset (e_addr e) + 2064);
  na_rev : pg_rev_ptr (page_at m (e_addr e) 256) = p_ptr;
  na_type : 1 <= h_node_type (pg_hdr (page_at m (e_addr e) 256)) <= 7;
  na_etype : 0 <= e_node_type e <= 7;
  na_depth : h_depth (pg_hdr (page_at m (e_addr e) 256)) = Z.of_nat (length π) + 1;
  na_plen : 0 <= h_partial_len (pg_hdr (page_at m (e_addr e) 256)) <= hPartialLenMax;
  na_end : h_depth (pg_hdr (page_at m (e_addr e) 256)) + h_partial_len (pg_hdr (page_at m (e_addr e) 256)) <= keyLen;
  na_path : π' = π ++ take (Z.to_nat (h_partial_len (pg_hdr (page_at m (e_addr e) 256)))) (h_partial (pg_hdr (page_at m (e_addr e) 256)));
  na_child i ei : (i < Z.to_nat (node_type_to_num (h_node_type (pg_hdr (page_at m (e_addr e) 256)))))%nat →
    pg_records (page_at m (e_addr e) 256) !! i = Some ei → ei ≠ entry_Null →
    repr n m (π' ++ [e_partial ei]) (GADD (e_addr e) (page_head + Z.of_nat i * 8)) ei (Ms i) ∧
    agrees M (π' ++ [e_partial ei]) (Ms i);
  na_none k : (∀ i ei, (i < Z.to_nat (node_type_to_num (h_node_type (pg_hdr (page_at m (e_addr e) 256)))))%nat →
    pg_records (page_at m (e_addr e) 256) !! i = Some ei → ei ≠ entry_Null → ¬ (π' ++ [e_partial ei]) `prefix_of` k) →
    M !! k = None
}.

Lemma repr_node n m π p_ptr e M :
  repr (S n) m π p_ptr e M → e_is_leaf e = false → ∃ π' Ms, node_at n m π p_ptr e M π' Ms.
Proof.
  intros (He & _ & Hr) Hleaf. rewrite Hleaf in Hr.
  destruct Hr as (Ha & Hrev & Ht & Het & Hd & Hp & Hend & Hdis & Ms & Hc & HM).
  do 2 eexists. split; [done|exact Ha|exact Hrev|exact Ht| |exact Hd| |exact Hend|reflexivity| |].
  - split; [|done]. apply bf_range. vm_compute. done.
  - split; [|done]. apply (page_at_ok m (e_addr e) 256).
  - intros i ei Hi Hei Hne. split; [by apply Hc|]. intros k Hk. apply option_eq. intros v. rewrite HM. split.
    + intros (j & ej & Hj & Hej & Hnej & Hv).
      pose proof (repr_prefix _ _ _ _ _ _ _ _ (Hc j ej Hj Hej Hnej) Hv) as Hpj.
      assert (e_partial ei = e_partial ej) as Hb.
      { destruct Hk as [r1 ->]. destruct Hpj as [r2 Hpj]. rewrite <- !app_assoc in Hpj.
        do 2 apply app_inv_head in Hpj. by injection Hpj. }
      by rewrite (Hdis i j ei ej Hi Hj Hei Hej Hne Hnej Hb).
    + intros Hv. by exists i, ei.
  - intros k Hk. apply eq_None_not_Some. intros [v Hv]. apply HM in Hv as (i & ei & Hi & Hei & Hne & Hv).
    apply (Hk i ei Hi Hei Hne). by eapply repr_prefix; [apply Hc|].
Qed.

(** A page of the tree is right for the cache. *)
Lemma node_cached_fact n m π p_ptr e M π' Ms k c M0 :
  node_at n m π p_ptr e M π' Ms → (n ≤ max_levels)%nat → π `prefix_of` k →
  (Z.to_nat (node_type_to_num (h_node_type (pg_hdr (page_at m (e_addr e) 256)))) ≤ c ≤ 256)%nat → agrees M0 π M →
  cached_fact m M0 k (page_at m (e_addr e) c) (GADD (e_addr e) page_head).
Proof.
  intros Hn Hlv Hk Hc Hag path i ei Hpath Hei Hi Hne.
  assert (path = π') as ->.
  { unfold cache_key in Hpath. cbv zeta in Hpath.
    change (pg_hdr (page_at m (e_addr e) c)) with (pg_hdr (page_at m (e_addr e) 256)) in Hpath.
    destruct (defined _) as [[]|]; [|done]. apply Ok_inj in Hpath. rewrite <- Hpath.
    rewrite (na_path _ _ _ _ _ _ _ _ Hn). f_equal. rewrite (na_depth _ _ _ _ _ _ _ _ Hn).
    replace (Z.to_nat (Z.of_nat (length π) + 1 - 1)) with (length π) by lia.
    destruct Hk as [r ->]. by rewrite take_app_length. }
  change (pg_hdr (page_at m (e_addr e) c)) with (pg_hdr (page_at m (e_addr e) 256)) in Hi.
  rewrite <- (page_at_take m (e_addr e) c 256) in Hei by lia. apply lookup_take_Some in Hei as [Hei Hic].
  destruct (na_child _ _ _ _ _ _ _ _ Hn i ei) as [Hr Hm]; [lia|done|done|].
  exists n, (Ms i). split; [done|]. rewrite GADD_GADD, (Z.mul_comm 8). split; [done|].
  intros k' Hk'. rewrite <- Hm by done. apply Hag.
  rewrite (na_path _ _ _ _ _ _ _ _ Hn), <- !app_assoc in Hk'. by eapply prefix_app_l.
Qed.

Lemma node_cacheable n m π p_ptr e M π' Ms k c :
  node_at n m π p_ptr e M π' Ms → key_ok k →
  (Z.to_nat (node_type_to_num (h_node_type (pg_hdr (page_at m (e_addr e) 256)))) ≤ c)%nat →
  cacheable k (page_at m (e_addr e) c).
Proof.
  intros Hn Hk Hc. pose proof (page_at_ok m (e_addr e) c) as (_ & Hh & Hes).
  pose proof (na_depth _ _ _ _ _ _ _ _ Hn). pose proof (na_plen _ _ _ _ _ _ _ _ Hn).
  pose proof (na_end _ _ _ _ _ _ _ _ Hn). unfold cacheable.
  change (pg_hdr (page_at m (e_addr e) c)) with (pg_hdr (page_at m (e_addr e) 256)) in *.
  split; [done|]. split; [done|]. split; [lia|]. split; [done|]. split; [lia|].
  split; [|done]. cbn. by rewrite length_fmap, length_seq.
Qed.
End repr.

(** ** [read_node] on a node of a tree *)
Section read_node.
Context `{Checksum} `{IndexCache}.

Lemma retype_fields e t :
  0 <= t < 32 →
  let e' := Ent (e_partial e) (e_empty e + kv_of_type t) (e_is_leaf e) (e_packed_addr e) in
  e_addr e' = e_addr e ∧ e_node_type e' = t.
Proof.
  intros Ht. cbn. split; [done|]. unfold e_node_type, kv_of_type. cbn [e_kv_len].
  unfold bf, e_empty, wrap. change nodeTypeNumBit with 5. change (kvLenBit - 5) with 2.
  rewrite (Z.mod_small t) by lia. pose proof (bf_range 0 2 (e_kv_len e) ltac:(lia)) as Hr. unfold uint, bf in Hr.
  unfold bf. rewrite Z.div_add by lia. rewrite (Z.div_small _ (2 ^ 2)) by done. apply Z.mod_small. lia.
Qed.

(** The entry with the type that was found. *)
Definition found_type (e : InternalEntry) (t : NodeType) : InternalEntry :=
  if t =? e_node_type e then e else Ent (e_partial e) (e_empty e + kv_of_type t) (e_is_leaf e) (e_packed_addr e).

Lemma found_type_fields e t : 0 <= t < 32 → e_addr (found_type e t) = e_addr e ∧ e_node_type (found_type e t) = t.
Proof.
  intros Ht. unfold found_type. destruct (Z.eqb_spec t (e_node_type e)) as [->|_]; [done|]. by apply (retype_fields e t).
Qed.

(** A page whose type the entry lags behind is read in two steps. *)
Lemma run_read_page e p_ptr depth (fc : bool) w :
  let page := page_at (w_mem w) (e_addr e) 256 in
  let t := h_node_type (pg_hdr page) in
  uint 48 (offset (e_addr e) + 2064) → 0 <= t <= 7 → 0 <= e_node_type e <= 7 →
  (fc = false → pg_rev_ptr page = p_ptr) →
  ∃ c, run (read_node e p_ptr depth fc) w
       = Ok ((found_type e t, t =? e_node_type e, page_at (w_mem w) (e_addr e) c, page_is_valid page p_ptr depth fc), w) ∧
       (Z.to_nat (node_type_to_num t) ≤ c ≤ 256)%nat.
Proof.
  cbn zeta. set (m := w_mem w). set (a := e_addr e).
  set (t := h_node_type (pg_hdr (page_at m a 256))). intros Ha Ht Het Hrev. set (u := e_node_type e) in *.
  pose proof (node_num_range t ltac:(lia)) as Hnt. pose proof (node_num_range u ltac:(lia)) as Hnu.
  assert (Z.to_nat (node_size u) = 16 + 8 * Z.to_nat (node_type_to_num u))%nat as Hsz.
  { unfold node_size, page_head. lia. }
  unfold read_node. fold a u. rewrite run_bind, run_read_sync, Hsz. fold m. rewrite !page_of_load.
  change (pg_hdr (page_at m a (Z.to_nat (node_type_to_num u)))) with (pg_hdr (page_at m a 256)). fold t.
  rewrite run_bind, run_pure. rewrite (proj2 (Z.ltb_lt t MAX_NODE_TYPE_NUM)) by (unfold MAX_NODE_TYPE_NUM; lia).
  cbn [defined]. rewrite run_bind.
  set (c := Z.to_nat (Z.max (node_type_to_num u) (node_type_to_num t))).
  assert (∃ rest, run (if u <? t then read_sync (GADD a (node_size u)) ((node_type_to_num t - node_type_to_num u) * 8)
                       else mret []) w = Ok (rest, w) ∧
          load m (dsm_region a) (offset a) (16 + 8 * Z.to_nat (node_type_to_num u)) ++ rest
          = load m (dsm_region a) (offset a) (16 + 8 * c)) as (rest & Hrest & Hload).
  { destruct (Z.ltb_spec u t) as [Hlt|Hge].
    - pose proof (node_num_mono u t ltac:(lia) ltac:(lia) ltac:(lia)) as Hmono.
      rewrite run_read_sync. eexists. split; [done|]. fold m.
      change (dsm_region (GADD a (node_size u))) with (dsm_region a).
      unfold uint in Ha. assert (gaddr_ok a) as [_ Hao] by apply mk_gaddr_ok. unfold uint in Hao.
      rewrite GADD_offset by (unfold uint, node_size, page_head; fold a in Ha; lia).
      replace (16 + 8 * c)%nat
        with ((16 + 8 * Z.to_nat (node_type_to_num u)) + Z.to_nat ((node_type_to_num t - node_type_to_num u) * 8))%nat
        by (unfold c; lia).
      rewrite (load_split m _ _ (16 + 8 * Z.to_nat (node_type_to_num u))).
      by replace (offset a + node_size u) with (offset a + Z.of_nat (16 + 8 * Z.to_nat (node_type_to_num u)))
        by (unfold node_size, page_head; lia).
    - pose proof (node_num_mono t u ltac:(lia) ltac:(lia) ltac:(lia)) as Hmono.
      exists []. split; [done|]. rewrite app_nil_r. do 2 f_equal. unfold c. lia. }
  rewrite Hrest, Hload, page_of_load, run_bind.
  change (pg_rev_ptr (page_at m a c)) with (pg_rev_ptr (page_at m a 256)).
  assert (negb fc && negb (gaddr_eqb (pg_rev_ptr (page_at m a 256)) p_ptr) = false) as ->.
  { destruct fc; [done|]. rewrite Hrev by done. by destruct (gaddr_eqb_spec p_ptr p_ptr). }
  rewrite run_ret, run_ret. exists c. split; [reflexivity|]. unfold c. lia.
Qed.

Lemma run_read_node n π p_ptr e M π' Ms (fc : bool) w :
  node_at n (w_mem w) π p_ptr e M π' Ms →
  ∃ e' tc c, run (read_node e p_ptr (Z.of_nat (length π) + 1) fc) w
             = Ok ((e', tc, page_at (w_mem w) (e_addr e) c, true), w) ∧
    e_addr e' = e_addr e ∧ e_node_type e' = h_node_type (pg_hdr (page_at (w_mem w) (e_addr e) 256)) ∧
    (Z.to_nat (node_type_to_num (h_node_type (pg_hdr (page_at (w_mem w) (e_addr e) 256)))) ≤ c ≤ 256)%nat.
Proof.
  intros Hn. pose proof (na_type _ _ _ _ _ _ _ _ Hn) as Ht. pose proof (na_rev _ _ _ _ _ _ _ _ Hn) as Hrev.
  destruct (run_read_page e p_ptr (Z.of_nat (length π) + 1) fc w) as (c & Hrun & Hc);
    [exact (na_addr _ _ _ _ _ _ _ _ Hn)|lia|exact (na_etype _ _ _ _ _ _ _ _ Hn)|done|].
  destruct (found_type_fields e (h_node_type (pg_hdr (page_at (w_mem w) (e_addr e) 256)))) as [H1 H2]; [lia|].
  do 3 eexists. split; [rewrite Hrun; do 3 f_equal|split; [exact H1|split; [exact H2|exact Hc]]].
  unfold page_is_valid. rewrite Hrev, (na_depth _ _ _ _ _ _ _ _ Hn), Z.leb_refl.
  rewrite (proj2 (Z.eqb_neq _ NODE_DELETED)) by (unfold NODE_DELETED; lia).
  destruct (gaddr_eqb_spec p_ptr p_ptr); [|done]. by destruct fc.
Qed.
End read_node.

(** ** The search loop *)
Section search.
Context `{Checksum} `{IndexCacheLaws}.

Definition answer (M : gmap Key Z) (k : Key) (v : Z) : bool * Z :=
  (bool_decide (is_Some (M !! k)), default v (M !! k)).

Lemma answer_Some M k v x : M !! k = Some x → answer M k v = (true, x).
Proof. intros E. unfold answer. rewrite E. by rewrite bool_decide_true. Qed.

Lemma answer_None M k v : M !! k = None → answer M k v = (false, v).
Proof. intros E. unfold answer. rewrite E. rewrite bool_decide_false; [done|]. by intros [? ?]. Qed.

(** A handle that a lookup gave. *)
Definition from_lookup (ho : option handle) (w : world) : Prop :=
  match ho with None => True | Some h => handle_ok h (w_cache w) end.

(** What an operation that only reads the tree leaves: the memory, the lock
    table, the facts about the cache, and room in it for [used] pages less. *)
Definition reads_only F (used : nat) (w w' : world) : Prop :=
  w_mem w' = w_mem w ∧ w_locks w' = w_locks w ∧ cache_inv F (w_cache w') ∧
  (cache_room (w_cache w) ≤ used + cache_room (w_cache w'))%nat ∧
  (∀ h, handle_ok h (w_cache w) → handle_ok h (w_cache w')).

Lemma reads_only_trans F a b w1 w2 w3 :
  reads_only F a w1 w2 → reads_only F b w2 w3 → reads_only F (a + b) w1 w3.
Proof.
  intros (E1 & E2 & _ & E4 & E5) (F1 & F2 & F3 & F4 & F5). unfold reads_only. rewrite F1, F2.
  split_and!; [done..|lia|auto].
Qed.

Lemma reads_only_from F a w w' ho : reads_only F a w w' → from_lookup ho w → from_lookup ho w'.
Proof. intros (_ & _ & _ & _ & Hh). destruct ho; [apply Hh|done]. Qed.

Lemma run_invalidate_if F ho w :
  cache_inv F (w_cache w) → from_lookup ho w →
  ∃ w', run (invalidate_if ho) w = Ok (tt, w') ∧ reads_only F 0 w w'.
Proof.
  intros Hc Hf. destruct ho as [h|]; [|by exists w].
  destruct (law_invalidate F _ h Hc Hf) as (c' & Hr & Hc' & Hroom & Hh).
  eexists. split; [by apply run_on_cache|]. by split_and!.
Qed.

Lemma run_add F k p a w :
  cache_inv F (w_cache w) → (0 < cache_room (w_cache w))%nat → cacheable k p → F k p a →
  ∃ w', run (on_cache (add_to_cache k p a)) w = Ok (tt, w') ∧ reads_only F 1 w w'.
Proof.
  intros Hc Hroom Hk HF. destruct (law_add F k p a _ Hc Hroom Hk HF) as (c' & Hr & Hc' & Hroom' & Hh).
  eexists. split; [by apply run_on_cache|]. by split_and!.
Qed.

Lemma run_read_leaf fuel n m π p_ptr e M (fc : bool) w :
  repr (S n) m π p_ptr e M → e_is_leaf e = true → w_mem w = m →
  ∃ l, run (read_leaf (S fuel) (e_addr e) (leaf_read_size e) p_ptr fc) w = Ok ((true, l), w) ∧
       M = {[ l_key l := l_value l ]} ∧ π `prefix_of` l_key l.
Proof.
  intros (_ & _ & Hr) Hleaf Hm. rewrite Hleaf in Hr. destruct Hr as (Hrev & Hval & Hcons & Hp & HM).
  rewrite <- Hm in *. eexists. split; [|split; [exact HM|exact Hp]].
  unfold read_leaf. erewrite run_loop.
  2:{ rewrite run_bind, run_read_sync, run_bind. rewrite Hrev.
      destruct (gaddr_eqb_spec p_ptr p_ptr); [|done]. rewrite andb_false_r. cbn [negb]. rewrite run_ret.
      unfold leaf_is_valid. rewrite Hval, Hrev, Hcons. destruct (gaddr_eqb_spec p_ptr p_ptr); [|done].
      rewrite orb_true_r. cbn [andb negb]. by rewrite run_ret. }
  done.
Qed.

(** Where the loop stands: an entry whose tree agrees with [M] below [π]. *)
Definition at_entry (n : nat) (m : shared_mem) (M : gmap Key Z) (k : Key) (s : search_state) (w : world) : Prop :=
  ∃ π Me, repr n m π (s_p_ptr s) (s_p s) Me ∧ agrees M π Me ∧ π `prefix_of` k ∧
          s_depth s = Z.of_nat (length π) + 1 ∧ from_lookup (s_from s) w.

Lemma search_leaf_run fuel n m M k v s w :
  at_entry (S n) m M k s w → e_is_leaf (s_p s) = true → w_mem w = m →
  run (search_leaf (S fuel) k v s) w = Ok (Done (answer M k v), w).
Proof.
  intros (π & Me & Hr & Hag & Hk & _ & _) Hleaf Hm.
  destruct (run_read_leaf fuel _ _ _ _ _ _ (from_cache (s_from s)) w Hr Hleaf Hm) as (l & Hl & HM & _).
  unfold search_leaf. rewrite run_bind, Hl. cbn [negb]. unfold key_eqb. case_bool_decide as E; rewrite run_ret; do 3 f_equal.
  - rewrite <- E. symmetry. apply answer_Some. rewrite Hag by (by rewrite E). by rewrite HM, lookup_singleton_eq.
  - symmetry. apply answer_None. rewrite Hag by done. by rewrite HM, lookup_singleton_ne.
Qed.

(** The way through a node: no key of the map goes past a mismatch of the
    header or an absent slot; else the record found leads on. *)
Lemma node_route n m π p_ptr e M π' Ms k c :
  node_at n m π p_ptr e M π' Ms → π `prefix_of` k → key_ok k →
  let h := pg_hdr (page_at m (e_addr e) 256) in
  let cnt := Z.to_nat (node_type_to_num (h_node_type h)) in
  (cnt ≤ c ≤ 256)%nat →
  ∃ d, header_diff h k (Z.to_nat (h_partial_len h)) 0 = Ok d ∧
    match d with
    | Some _ => M !! k = None
    | None =>
      ∃ b r, get_partial k (h_depth h + h_partial_len h) = Ok b ∧
        find_slot (pg_records (page_at m (e_addr e) c)) cnt 0 b = Ok r ∧
        match r with
        | Some (i, ei) =>
          repr n m (π' ++ [e_partial ei]) (GADD (e_addr e) (page_head + i * 8)) ei (Ms (Z.to_nat i)) ∧
          agrees M (π' ++ [e_partial ei]) (Ms (Z.to_nat i)) ∧ (π' ++ [e_partial ei]) `prefix_of` k ∧
          h_depth h + h_partial_len h = Z.of_nat (length (π' ++ [e_partial ei]))
        | None => M !! k = None
        end
    end.
Proof.
  intros Hn Hk Hkey h cnt Hc. pose proof (page_at_ok m (e_addr e) 256) as (_ & Hh & Hes). fold h in Hh.
  pose proof (na_depth _ _ _ _ _ _ _ _ Hn) as Hdep. fold h in Hdep.
  pose proof (na_plen _ _ _ _ _ _ _ _ Hn) as Hpl. fold h in Hpl.
  pose proof (na_end _ _ _ _ _ _ _ _ Hn) as Hend. fold h in Hend.
  pose proof (na_path _ _ _ _ _ _ _ _ Hn) as Hpath. fold h in Hpath.
  destruct (header_diff_spec h k (Z.to_nat (h_partial_len h)) 0) as (d & Hdiff & Hdres); [done|done|lia|lia|lia|lia|].
  exists d. split; [done|]. pose proof Hkey as [Hklen _]. change klen with 8%nat in Hklen. unfold keyLen in Hend.
  assert (Hplen : (Z.to_nat (h_partial_len h) ≤ length (h_partial h))%nat).
  { destruct Hh as (_ & _ & _ & -> & _). lia. }
  pose proof (prefix_extend π k (h_partial h) (Z.to_nat (h_partial_len h)) Hk Hplen ltac:(lia)) as Hext.
  replace (Z.to_nat (h_depth h - 1)) with (length π) in Hdres by lia. change (Z.to_nat 0) with 0%nat in Hdres.
  destruct d as [[i q]|].
  { apply (na_none _ _ _ _ _ _ _ _ Hn). intros j ej _ _ _ Hpre.
    apply prefix_app_l in Hpre. rewrite Hpath in Hpre. destruct Hdres as (Hx & Hq & Hne & _). apply Hne.
    rewrite <- Hq. symmetry. apply (proj2 Hext Hpre). lia. }
  assert (Hpk : π' `prefix_of` k) by (rewrite Hpath; apply Hext; intros; apply Hdres; lia).
  assert (Hlen' : Z.of_nat (length π') = h_depth h + h_partial_len h - 1).
  { rewrite Hpath, length_app, length_take. lia. }
  destruct (get_partial_total k (h_depth h + h_partial_len h)) as (b & Hb & _); [done|unfold keyLen; lia|].
  destruct (find_slot_spec (pg_records (page_at m (e_addr e) c)) cnt 0 b) as (r & Hslot & Hres);
    [apply page_at_ok|lia|cbn; rewrite length_fmap, length_seq; lia|].
  exists b, r. do 2 (split; [done|]). apply get_partial_at in Hb; [|lia].
  replace (Z.to_nat (h_depth h + h_partial_len h - 1)) with (length π') in Hb by lia.
  assert (Hchild : ∀ x, (π' ++ [x]) `prefix_of` k ↔ x = b) by (intros; by apply prefix_snoc). destruct r as [[i ei]|].
  - destruct Hres as (Hi & Hei & Hne & Heb). rewrite <- (page_at_take m (e_addr e) c 256) in Hei by lia.
    apply lookup_take_Some in Hei as [Hei _].
    destruct (na_child _ _ _ _ _ _ _ _ Hn (Z.to_nat i) ei) as [Hrc Hagc]; [fold h cnt; lia|done|done|].
    rewrite Z2Nat.id in Hrc by lia. split; [done|]. split; [done|]. split; [by apply Hchild|].
    rewrite length_app. change (length [e_partial ei]) with 1%nat. lia.
  - apply (na_none _ _ _ _ _ _ _ _ Hn). intros j ej Hj Hej Hne Hpre. fold h cnt in Hj. apply Hchild in Hpre.
    apply (Hres j ej); [lia| |done|done].
    rewrite <- (page_at_take m (e_addr e) c 256) by lia. by rewrite lookup_take_lt by lia.
Qed.

(** After [read_node] the entry may be invalidated and the page is cached. *)
Lemma run_cache_page n m M k π p_ptr e Me π' Ms w ho e' (tc : bool) c :
  node_at n m π p_ptr e Me π' Ms → agrees M π Me → π `prefix_of` k → key_ok k → (S n ≤ max_levels)%nat →
  w_mem w = m → cache_inv (cached_fact m M) (w_cache w) → (0 < cache_room (w_cache w))%nat →
  from_lookup ho w → e_addr e' = e_addr e →
  (Z.to_nat (node_type_to_num (h_node_type (pg_hdr (page_at m (e_addr e) 256)))) ≤ c ≤ 256)%nat →
  ∃ w1 w2, run (if negb tc then invalidate_if ho else mret tt) w = Ok (tt, w1) ∧
    run (on_cache (add_to_cache k (page_at m (e_addr e) c) (GADD (e_addr e') page_head))) w1 = Ok (tt, w2) ∧
    reads_only (cached_fact m M) 1 w w2.
Proof.
  intros Hn Hag Hk Hkey Hlv Hm Hc Hroom Hfrom Ha Hcc.
  assert (∃ w1, run (if negb tc then invalidate_if ho else mret tt) w = Ok (tt, w1) ∧ reads_only (cached_fact m M) 0 w w1)
    as (w1 & Hw1 & Hro1).
  { destruct tc; [by exists w|]. by apply run_invalidate_if. }
  destruct (run_add (cached_fact m M) k (page_at m (e_addr e) c) (GADD (e_addr e') page_head) w1) as (w2 & Hw2 & Hro2).
  { apply Hro1. } { destruct Hro1 as (_ & _ & _ & ? & _). lia. }
  { eapply node_cacheable; [exact Hn|done|apply Hcc]. }
  { rewrite Ha. eapply node_cached_fact; [exact Hn|lia|done|exact Hcc|done]. }
  exists w1, w2. do 2 (split; [done|]). exact (reads_only_trans _ 0 1 _ _ _ Hro1 Hro2).
Qed.

Lemma search_node_run n m M k v s w :
  at_entry (S n) m M k s w → e_is_leaf (s_p s) = false → w_mem w = m → key_ok k → (S n ≤ max_levels)%nat →
  cache_inv (cached_fact m M) (w_cache w) → (0 < cache_room (w_cache w))%nat →
  ∃ r w', run (search_node k v s) w = Ok (r, w') ∧ reads_only (cached_fact m M) 1 w w' ∧
    match r with
    | Done x => x = answer M k v
    | Again s' => at_entry n m M k s' w'
    end.
Proof.
  intros (π & Me & Hr & Hag & Hk & Hd & Hfrom) Hleaf Hm Hkey Hlv Hc Hroom.
  destruct s as [p_ptr e depth ho]. cbn [s_p_ptr s_p s_depth s_from] in *. subst depth.
  destruct (repr_node _ _ _ _ _ _ Hr Hleaf) as (π' & Ms & Hn). rewrite <- Hm in Hn.
  destruct (run_read_node n π p_ptr e Me π' Ms (from_cache ho) w Hn) as (e' & tc & c & Hrun & Ha' & Ht' & Hcc).
  unfold search_node. cbn [s_p_ptr s_p s_depth s_from]. rewrite run_bind, Hrun. cbn [negb]. rewrite Hm in *.
  destruct (run_cache_page n m M k π p_ptr e Me π' Ms w ho e' tc c) as (w1 & w2 & Hw1 & Hw2 & Hro); [done..|].
  rewrite run_bind, Hw1, run_bind.
  change (pg_hdr (page_at m (e_addr e) c)) with (pg_hdr (page_at m (e_addr e) 256)).
  destruct (node_route n m π p_ptr e Me π' Ms k c) as (d & Hdiff & Hd); [done..|].
  set (h := pg_hdr (page_at m (e_addr e) 256)) in *.
  pose proof (na_depth _ _ _ _ _ _ _ _ Hn) as Hdep. fold h in Hdep. rewrite <- Hdep, Z.eqb_refl, Hw2.
  rewrite run_bind, run_pure, Hdiff. destruct d as [[i q]|].
  { do 2 eexists. split; [rewrite run_ret; reflexivity|]. split; [exact Hro|].
    symmetry. apply answer_None. by rewrite Hag. }
  destruct Hd as (b & r & Hb & Hslot & Hres). rewrite run_bind, run_pure, Hb, Ht'. rewrite run_bind, run_pure, Hslot.
  destruct r as [[i ei]|]; do 2 eexists; (split; [rewrite run_ret; reflexivity|]); split; try exact Hro.
  - destruct Hres as (Hrc & Hagc & Hkc & Hlen). exists (π' ++ [e_partial ei]), (Ms (Z.to_nat i)).
    cbn [s_p_ptr s_p s_depth s_from]. rewrite Ha'. split; [done|]. split.
    { intros k' Hk'. rewrite <- Hagc by done. apply Hag. apply prefix_app_l in Hk'.
      rewrite (na_path _ _ _ _ _ _ _ _ Hn) in Hk'. by eapply prefix_app_l. }
    split; [done|]. split; [lia|by eapply reads_only_from].
  - symmetry. apply answer_None. by rewrite Hag.
Qed.

(** The loop ends after at most as many rounds as the tree has levels. *)
Lemma search_loop_run n fuel m M k v s w :
  at_entry n m M k s w → w_mem w = m → key_ok k → (n ≤ max_levels)%nat → (n ≤ fuel)%nat →
  cache_inv (cached_fact m M) (w_cache w) → (n ≤ cache_room (w_cache w))%nat →
  ∃ w', run (loop fuel (search_next fuel k v) s) w = Ok (answer M k v, w') ∧ reads_only (cached_fact m M) n w w'.
Proof.
  intros Hs Hm Hk Hlv. assert (∀ f, (n ≤ f)%nat → (n ≤ fuel)%nat → cache_inv (cached_fact m M) (w_cache w) →
    (n ≤ cache_room (w_cache w))%nat →
    ∃ w', run (loop f (search_next fuel k v) s) w = Ok (answer M k v, w') ∧ reads_only (cached_fact m M) n w w')
    as Hgo; [|intros; by apply Hgo].
  revert s w Hs Hm Hlv. induction n as [|n IH]; intros s w Hs Hm Hlv f Hf Hfuel Hc Hroom.
  { destruct Hs as (? & ? & [] & _). }
  destruct f as [|f]; [lia|]. destruct fuel as [|fuel]; [lia|].
  assert (entry_eqb (s_p s) entry_Null = false) as Hnull.
  { destruct Hs as (π & Me & (Hok & Hne & _) & _). destruct (entry_eqb_spec _ _ Hok entry_Null_ok); done. }
  destruct (e_is_leaf (s_p s)) eqn:Hleaf.
  - exists w. split; [|by split_and!; [done..|lia|done]].
    rewrite (run_loop _ _ _ _ (Done (answer M k v)) w); [done|].
    unfold search_next. rewrite Hnull, Hleaf. by eapply search_leaf_run.
  - destruct (search_node_run n m M k v s w) as (r & w1 & Hrun & Hro & Hres); [done..|lia|].
    assert (run (search_next (S fuel) k v s) w = Ok (r, w1)) as Hstep by (unfold search_next; by rewrite Hnull, Hleaf).
    rewrite (run_loop _ _ _ _ _ _ Hstep). pose proof Hro as (Hm1 & _ & Hc1 & Hroom1 & _). destruct r as [s'|x].
    + destruct (IH s' w1 Hres) with (f := f) as (w2 & Hrun2 & Hro2); [congruence|lia|lia|lia|done|lia|].
      exists w2. split; [done|]. exact (reads_only_trans _ 1 n _ _ _ Hro Hro2).
    + exists w1. rewrite Hres. split; [done|]. unfold reads_only in *. destruct Hro as (? & ? & ? & ? & ?); split_and!; [done..|lia|done].
Qed.
End search.

(** ** [search] *)
Section theorem.
Context `{Checksum} `{IndexCacheLaws}.
Context (CityHash64 : list byte → Z) (tree_id : Z).

Definition root_entry (m : shared_mem) : InternalEntry :=
  entry_of_val (load_word m (dsm_region (get_root_ptr_ptr tree_id)) (offset (get_root_ptr_ptr tree_id))).

(** The tree holds the map [M]. *)
Definition tree_at (m : shared_mem) (M : gmap Key Z) : Prop :=
  repr max_levels m [] (get_root_ptr_ptr tree_id) (root_entry m) M.

Definition lock_node_of (w : world) (k : Key) : LocalLockNode := w_locks w (get_hashed_lock_index CityHash64 k).

Lemma run_start m M k w :
  tree_at m M → w_mem w = m → key_ok k → cache_inv (cached_fact m M) (w_cache w) →
  ∃ h p_ptr p np d w', run (start tree_id k) w = Ok ((h, p_ptr, p, np, d), w') ∧
    reads_only (cached_fact m M) 0 w w' ∧ at_entry max_levels m M k (Se p_ptr p d h) w' ∧
    entry_eqb p entry_Null = false.
Proof.
  intros Ht Hm Hk Hc. destruct (law_search _ k _ Hc Hk) as (r & c' & Hrun & Hc' & Hroom & Hh & Hr).
  unfold start. rewrite run_bind, (run_on_cache _ _ _ _ Hrun).
  assert (Hro : reads_only (cached_fact m M) 0 w (set_cache c' w)) by by split_and!.
  destruct r as [[[h ce] i]|].
  - destruct Hr as [(k0 & p & e & path & HF & _ & Hpath & Hi & Hp & Hi' & Hce & Hne & Hd & Hpre) Hhc].
    destruct (HF path (Z.to_nat i) e Hpath Hp) as (n & Me & Hn & Hrep & Hag); [lia|done|].
    do 6 eexists. split.
    { rewrite run_bind, run_pure. rewrite (proj2 (Z.leb_le 0 i)) by done. cbn [check]. rewrite run_bind, run_pure.
      assert (idx_ (ce_records ce) i = Ok e) as -> by (by apply idx_Ok). rewrite run_ret. reflexivity. }
    split; [exact Hro|].
    assert (repr max_levels m (path ++ [e_partial e]) (GADD (ce_addr ce) (8 * i)) e Me) as Hrep'.
    { rewrite Z2Nat.id in Hrep by done. by eapply repr_mono. }
    split.
    + exists (path ++ [e_partial e]), Me. cbn [s_p_ptr s_p s_depth s_from]. do 3 (split; [done|]).
      split; [rewrite length_app; change (length [e_partial e]) with 1%nat; lia|]. exact Hhc.
    + destruct Hrep' as (Hok & Hne' & _). destruct (entry_eqb_spec _ _ Hok entry_Null_ok); done.
  - do 6 eexists. split; [unfold get_root_ptr; rewrite run_bind, run_read_entry, run_ret; reflexivity|].
    split; [exact Hro|]. cbn [w_mem set_cache]. rewrite Hm. fold (root_entry m).
    split; [|destruct Ht as (Hok & Hne & _); destruct (entry_eqb_spec _ _ Hok entry_Null_ok); done].
    exists [], M. split; [exact Ht|]. split; [done|]. split; [apply prefix_nil|]. by split.
Qed.

(** C5. On a tree that holds [M], alone on its lock node and with any cached
    pages of the tree, [search] ends within the depth of the tree and returns
    whether [k] is in [M] and its value there ([v] is left alone when it is
    not); the shared memory is unchanged, the cache still holds only facts of
    the tree, and the lock node is idle again. *)
Theorem tree_search_correct (fuel : nat) (w : world) (M : gmap Key Z) (k : Key) (v : Z)
    (Hk : key_ok k) (Ht : tree_at (w_mem w) M) (Hidle : node_idle (lock_node_of w k))
    (Hc : cache_inv (cached_fact (w_mem w) M) (w_cache w)) (Hroom : (max_levels ≤ cache_room (w_cache w))%nat)
    (Hfuel : (max_levels ≤ fuel)%nat) :
  ∃ w', run (search CityHash64 tree_id fuel k v) w = Ok (bool_decide (is_Some (M !! k)), default v (M !! k), w') ∧
        w_mem w' = w_mem w ∧ node_idle (lock_node_of w' k) ∧ cache_inv (cached_fact (w_mem w) M) (w_cache w').
Proof.
  destruct (solo_read k _ Hidle) as (n1 & Hacq & Hrel).
  destruct (run_on_lock CityHash64 k _ _ _ _ Hacq) as (w1 & Hw1 & Hm1 & Hc1 & Hl1).
  unfold search. rewrite run_bind, Hw1. cbn [fst snd andb negb].
  destruct (run_start (w_mem w) M k w1) as (h & p_ptr & p & np & d & w2 & Hw2 & Hro2 & Hat & Hnull);
    [done|done|done|by rewrite Hc1|].
  pose proof Hro2 as (Hm2 & Hl2 & Hc2 & Hroom2 & _).
  destruct (search_loop_run max_levels fuel (w_mem w) M k v _ w2 Hat) as (w3 & Hw3 & Hm3 & Hl3 & Hc3 & _);
    [congruence|done|done|done|done|rewrite Hc1 in Hroom2; lia|].
  rewrite run_bind, run_bind, Hw2, run_bind, run_pure, Hnull. cbn [negb check]. rewrite Hw3.
  destruct (Hrel (bool_decide (is_Some (M !! k))) (default v (M !! k))) as (n2 & Hn2 & Hidle2).
  assert (w_locks w3 (get_hashed_lock_index CityHash64 k) = n1) as Hln by congruence. rewrite <- Hln in Hn2.
  destruct (run_on_lock CityHash64 k _ _ _ _ Hn2) as (w4 & Hw4 & Hm4 & Hc4 & Hl4).
  exists w4. unfold answer. rewrite Hw4. split; [done|]. split; [congruence|].
  split; [unfold lock_node_of; by rewrite Hl4|by rewrite Hc4].
Qed.

(** C38. Searching a tree whose root entry is Null stops the program: the
    assertion before the loop fails, although the loop would report that the
    key is absent. *)
Theorem search_empty_tree_asserts (fuel : nat) (w : world) (k : Key) (v : Z) (c : cache)
    (Hidle : node_idle (lock_node_of w k)) (Hmiss : run (search_from_cache k) (w_cache w) = Ok (None, c))
    (Hnull : root_entry (w_mem w) = entry_Null) :
  run (search CityHash64 tree_id fuel k v) w = Fail EAssert ∧
  (∀ w1, ∃ w2, run (loop (S fuel) (search_next (S fuel) k v) (Se (get_root_ptr_ptr tree_id) (root_entry (w_mem w)) 1 None)) w1
               = Ok ((false, v), w2)).
Proof.
  destruct (solo_read k _ Hidle) as (n1 & Hacq & _).
  destruct (run_on_lock CityHash64 k _ _ _ _ Hacq) as (w1 & Hw1 & Hm1 & Hc1 & _). split.
  - unfold search. rewrite run_bind, Hw1. cbn [fst snd andb negb]. unfold start.
    rewrite run_bind, run_bind, run_bind. rewrite (run_on_cache _ w1 None c) by (by rewrite Hc1).
    unfold get_root_ptr. rewrite run_bind, run_read_entry, run_ret. cbn [w_mem set_cache]. rewrite Hm1.
    unfold root_entry in Hnull. rewrite Hnull. rewrite run_bind, run_pure. reflexivity.
  - intros w2. exists w2. rewrite Hnull. reflexivity.
Qed.
End theorem.
