(* ===== verification/TreeShape.v ===== *)
(** * The shape of the tree

    The tree as a graph of nodes and leaves, apart from the bytes that hold it.
    A slot is the root pointer or a record of a node; [ent] gives the entry of
    a slot, [ob] what lies at an address, with the slot that points to it. The
    path of a node ([P]) is the part of the key that leads to its records; it
    never changes, while the header and the parent slot do. [shape] is the
    invariant; the transitions are the steps that [insert] is made of. *)

From Stdlib Require Import ZArith Lia Bool.
From stdpp Require Import base tactics decidable option numbers functions list.
From S2P Require Import Prelude.
From S2P Require Import Common.
From S2P Require Import Keys.
From S2P Require Import Address.
From S2P Require Import Nodes.
From S2P Require Import Tree.
From S2P Require Import TreeSearch.

(** Two functions that differ from a third at given places are equal
    pointwise: compare the places. *)
Ltac fn_ext :=
  intros; unfold base.insert, fn_insert; repeat case_decide; simplify_eq; first [done | congruence | naive_solver].

Inductive slot : Set := SRoot | Slot (a : GlobalAddress) (i : nat).

#[export] Instance slot_eq_dec : EqDecision slot.
Proof. solve_decision. Defined.

(** The slots of one node. *)
Lemma slot_of_dec (a : GlobalAddress) (s : slot) : (∃ i, s = Slot a i) ∨ ∀ i, s ≠ Slot a i.
Proof.
  destruct s as [|b i]; [by right|]. destruct (decide (b = a)) as [->|Hb]; [eauto|right; congruence].
Qed.

Inductive meta : Set :=
  | MNode (s : slot) (h : Header)
  | MLeaf (s : slot) (k : Key) (v : Z).

Definition m_slot (m : meta) : slot := match m with MNode s _ | MLeaf s _ _ => s end.

(** The number of records a node uses. *)
Definition cnt (h : Header) : nat := Z.to_nat (node_type_to_num (h_node_type h)).

Section shape.
Context (P : GlobalAddress → list byte).

(** The bytes of the key that lead to the target of entry [e] at slot [s]. *)
Definition spath (s : slot) (e : InternalEntry) : list byte :=
  match s with SRoot => [] | Slot a _ => P a ++ [e_partial e] end.

(** The header of a node whose records are at the path [π]. *)
Definition head_ok (π : list byte) (h : Header) : Prop :=
  header_ok h ∧ 1 <= h_node_type h <= 7 ∧ 1 <= h_depth h ∧ h_partial_len h <= hPartialLenMax ∧
  h_depth h + h_partial_len h <= keyLen ∧ Z.of_nat (length π) = h_depth h + h_partial_len h - 1 ∧
  take (Z.to_nat (h_partial_len h)) (h_partial h) = drop (Z.to_nat (h_depth h - 1)) π.

(** Entry [e] at slot [s] and its target. *)
Definition child_ok (s : slot) (e : InternalEntry) (m : option meta) : Prop :=
  match m with
  | Some (MLeaf s' k _) => s' = s ∧ e = entry_leaf (e_partial e) leaf_kv_len (e_addr e) ∧ spath s e `prefix_of` k
  | Some (MNode s' h) =>
    s' = s ∧ e = entry_node (e_partial e) (h_node_type h) (e_addr e) ∧
    spath s e = take (Z.to_nat (h_depth h - 1)) (P (e_addr e))
  | None => False
  end.

(** A full path of the tree: the key of a leaf or the path of a node. *)
Definition full (ob : GlobalAddress → option meta) (q : list byte) : Prop :=
  (∃ a s v, ob a = Some (MLeaf s q v)) ∨ (∃ a s h, ob a = Some (MNode s h) ∧ q = P a).

(** What lies at [a] is [q], or leads on to it. *)
Definition leads (ent : slot → option InternalEntry) (ob : GlobalAddress → option meta) (a : GlobalAddress) (q : list byte) : Prop :=
  match ob a with
  | Some (MLeaf _ k _) => k = q
  | Some (MNode _ _) =>
    P a = q ∨ P a `prefix_of` q ∧
              ∃ i ei, ent (Slot a i) = Some ei ∧ ei ≠ entry_Null ∧ (P a ++ [e_partial ei]) `prefix_of` q
  | None => False
  end.

Record shape (ent : slot → option InternalEntry) (ob : GlobalAddress → option meta) : Prop := {
  sh_root : is_Some (ent SRoot);
  sh_slots a i : is_Some (ent (Slot a i)) ↔ (∃ s h, ob a = Some (MNode s h)) ∧ (i < 256)%nat;
  sh_entry s e : ent s = Some e → entry_ok e;
  sh_null a s h i e : ob a = Some (MNode s h) → ent (Slot a i) = Some e → (cnt h ≤ i)%nat → e = entry_Null;
  sh_uniq a i j ei ej : ent (Slot a i) = Some ei → ent (Slot a j) = Some ej →
    ei ≠ entry_Null → ej ≠ entry_Null → e_partial ei = e_partial ej → i = j;
  sh_node a s h : ob a = Some (MNode s h) → head_ok (P a) h;
  sh_leaf a s k v : ob a = Some (MLeaf s k v) → key_ok k ∧ uint 64 v;
  sh_child s e : ent s = Some e → e ≠ entry_Null → child_ok s e (ob (e_addr e));
  sh_parent a m : ob a = Some m → ∃ e, ent (m_slot m) = Some e ∧ e ≠ entry_Null ∧ e_addr e = a;
  sh_leads s e q : ent s = Some e → e ≠ entry_Null → spath s e `prefix_of` q → full ob q → leads ent ob (e_addr e) q;
  sh_node_inj a b s s' h h' : ob a = Some (MNode s h) → ob b = Some (MNode s' h') → P a = P b → a = b;
  sh_leaf_inj a b s s' k v v' : ob a = Some (MLeaf s k v) → ob b = Some (MLeaf s' k v') → a = b;
  sh_used a s h : ob a = Some (MNode s h) → ∃ i e, ent (Slot a i) = Some e ∧ e ≠ entry_Null
}.

(** ** Entries *)
Lemma entry_leaf_not_Null b kv a : entry_leaf b kv a ≠ entry_Null.
Proof. done. Qed.

Lemma entry_node_type b t a : uint 5 t → e_node_type (entry_node b t a) = t.
Proof.
  intros Ht. unfold e_node_type, entry_node, kv_of_type; cbn [e_kv_len].
  change nodeTypeNumBit with 5. change (kvLenBit - 5) with 2. rewrite (wrap_small 5) by done.
  rewrite <- (Z.add_0_l (t * 2 ^ 2)). rewrite (bf_next 2 5) by (done || lia). by apply bf_all.
Qed.

Lemma entry_node_not_Null b t a : uint 5 t → t ≠ 0 → entry_node b t a ≠ entry_Null.
Proof.
  intros Ht H0 E. apply H0. by rewrite <- (entry_node_type b t a Ht), E.
Qed.

Lemma pack_gaddr_ok a : packed_ok (pack_gaddr a).
Proof. split; by apply wrap_range. Qed.

Lemma entry_leaf_ok b kv a : is_byte b → entry_ok (entry_leaf b kv a).
Proof. intros. split; [done|]. split; [by apply wrap_range|apply pack_gaddr_ok]. Qed.

Lemma entry_node_ok b t a : is_byte b → entry_ok (entry_node b t a).
Proof.
  intros. split; [done|]. split; [|apply pack_gaddr_ok]. cbn. unfold kv_of_type.
  change (kvLenBit - nodeTypeNumBit) with 2. change nodeTypeNumBit with 5.
  pose proof (wrap_range 5 t ltac:(lia)). unfold uint in *. change kvLenBit with 7. lia.
Qed.

Lemma entry_repartial_ok b e : is_byte b → entry_ok e → entry_ok (entry_repartial b e).
Proof. by intros Hb (_ & ? & ?). Qed.

Lemma entry_retype_ok t e : entry_ok e → entry_ok (entry_retype t e).
Proof.
  intros (Hb & _ & Hp). split; [done|]. split; [|done]. apply (entry_node_ok (e_partial e) t (GA 0 0) Hb).
Qed.

(** ** Prefixes *)
Lemma prefix_snoc_inv (l r : list byte) x : l `prefix_of` r ++ [x] → l = r ++ [x] ∨ l `prefix_of` r.
Proof.
  intros [t E]. destruct t as [|y t _] using rev_ind; [left; by rewrite app_nil_r in E|].
  right. rewrite app_assoc in E. apply app_inj_tail in E as [-> _]. by apply prefix_app_r.
Qed.

Lemma prefix_len (l r : list byte) : l `prefix_of` r → (length l ≤ length r)%nat.
Proof. apply prefix_length. Qed.

Lemma snoc_prefix_inj (l k : list byte) x y : (l ++ [x]) `prefix_of` k → (l ++ [y]) `prefix_of` k → x = y.
Proof.
  intros [r ->] H. rewrite <- app_assoc in H. apply prefix_app_inv in H. by apply prefix_cons_inv_1 in H.
Qed.

Lemma key_not_path (k : Key) (π : list byte) h : key_ok k → head_ok π h → k ≠ π.
Proof. intros [Hl _] (_ & _ & _ & _ & Hd & Hlen & _) ->. change klen with 8%nat in Hl. unfold keyLen in Hd. lia. Qed.

Lemma spath_prefix_take (π : list byte) n : take n π `prefix_of` π.
Proof. exists (drop n π). by rewrite take_drop. Qed.

(** ** Consequences *)
Section facts.
Context (ent : slot → option InternalEntry) (ob : GlobalAddress → option meta) (Hsh : shape ent ob).

Lemma shape_slot_node a i e : ent (Slot a i) = Some e → ∃ s h, ob a = Some (MNode s h).
Proof using Hsh. intros E. apply (sh_slots _ _ Hsh a i). by exists e. Qed.

Lemma shape_node_path s e s' h :
  ent s = Some e → e ≠ entry_Null → ob (e_addr e) = Some (MNode s' h) →
  s' = s ∧ spath s e `prefix_of` P (e_addr e) ∧ Z.of_nat (length (spath s e)) = h_depth h - 1.
Proof using Hsh.
  intros E Hne Hob. pose proof (sh_child _ _ Hsh s e E Hne) as Hc. rewrite Hob in Hc. destruct Hc as (-> & _ & Hp).
  destruct (sh_node _ _ Hsh _ _ _ Hob) as (_ & _ & Hd & _ & _ & Hlen & _).
  split; [done|]. split; [rewrite Hp; apply spath_prefix_take|]. rewrite Hp, length_take.
  destruct (sh_node _ _ Hsh _ _ _ Hob) as ((_ & _ & Hpl & _) & _). unfold uint in Hpl. lia.
Qed.

(** The parent of a node. *)
Lemma shape_up a s h :
  ob a = Some (MNode s h) →
  ∃ e, ent s = Some e ∧ e ≠ entry_Null ∧ e_addr e = a ∧ spath s e `prefix_of` P a ∧
       Z.of_nat (length (spath s e)) = h_depth h - 1.
Proof using Hsh.
  intros Ha. destruct (sh_parent _ _ Hsh a _ Ha) as (e & E & Hne & Hea). cbn in E. exists e.
  rewrite <- Hea in Ha. destruct (shape_node_path s e s h E Hne Ha) as (_ & H1 & H2). by rewrite Hea in H1.
Qed.

Lemma shape_node_short a s h : ob a = Some (MNode s h) → (length (P a) ≤ 7)%nat.
Proof using Hsh. intros Ha. destruct (sh_node _ _ Hsh _ _ _ Ha) as (_ & _ & _ & _ & H1 & H2 & _). unfold keyLen in H1. lia. Qed.

Lemma shape_leaf_long a s k v : ob a = Some (MLeaf s k v) → length k = 8%nat.
Proof using Hsh. intros Ha. by destruct (sh_leaf _ _ Hsh _ _ _ _ Ha) as [[Hl _] _]. Qed.

(** With no root entry there is nothing. *)
Lemma shape_empty a : ent SRoot = Some entry_Null → ob a = None.
Proof using Hsh.
  intros Hr. assert (∀ n b s h, (length (P b) < n)%nat → ob b = Some (MNode s h) → False) as Hn.
  { induction n as [|n IH]; intros b s h Hlt Hb; [lia|].
    destruct (shape_up b s h Hb) as (e & E & Hne & _ & Hp & _). destruct s as [|c j]; [congruence|].
    destruct (shape_slot_node c j e E) as (s' & h' & Hc). apply (IH c s' h'); [|done].
    apply prefix_len in Hp. cbn in Hp. rewrite length_app in Hp. cbn in Hp. lia. }
  destruct (ob a) as [m|] eqn:Ha; [|done]. exfalso.
  destruct (sh_parent _ _ Hsh a m Ha) as (e & E & Hne & _). destruct (m_slot m) as [|c j]; [congruence|].
  destruct (shape_slot_node c j e E) as (s' & h' & Hc). by eapply (Hn (S (length (P c))) c s' h'); [lia|].
Qed.

(** A key whose next byte has no slot in a node of its path is not there. *)
Lemma shape_absent a s h k b c s' v :
  ob a = Some (MNode s h) → (P a ++ [b]) `prefix_of` k →
  (∀ j ej, ent (Slot a j) = Some ej → ej ≠ entry_Null → e_partial ej ≠ b) →
  ob c = Some (MLeaf s' k v) → False.
Proof using Hsh.
  intros Ha Hk Hnew Hc. destruct (shape_up a s h Ha) as (e & E & Hne & Hea & Hp & _).
  pose proof (sh_leads _ _ Hsh s e k E Hne) as Hl. rewrite Hea in Hl. unfold leads in Hl. rewrite Ha in Hl.
  destruct Hl as [Heq|(_ & i & ei & Ei & Hnei & Hpi)].
  - etrans; [exact Hp|]. by eapply prefix_app_l.
  - left. by exists c, s', v.
  - apply (key_not_path k (P a) h (proj1 (sh_leaf _ _ Hsh _ _ _ _ Hc)) (sh_node _ _ Hsh _ _ _ Ha)). done.
  - apply (Hnew i ei Ei Hnei). by eapply snoc_prefix_inj.
Qed.

(** Below every node there is a leaf. *)
Lemma shape_leaf_below a s h : ob a = Some (MNode s h) → ∃ b s' k v, ob b = Some (MLeaf s' k v) ∧ P a `prefix_of` k.
Proof using Hsh.
  assert (∀ n a s h, (8 ≤ length (P a) + n)%nat → ob a = Some (MNode s h) → ∃ b s' k v, ob b = Some (MLeaf s' k v) ∧ P a `prefix_of` k) as Hn.
  { clear a s h. induction n as [|n IH]; intros a s h Hlt Ha; [pose proof (shape_node_short a s h Ha); lia|].
    destruct (sh_used _ _ Hsh a s h Ha) as (i & e & He & Hne). pose proof (sh_child _ _ Hsh _ e He Hne) as Hc.
    destruct (ob (e_addr e)) as [[s' h'|s' k v]|] eqn:Ho; [| |done].
    - destruct (shape_node_path _ e s' h' He Hne Ho) as (_ & Hp & _). cbn in Hp.
      destruct (IH (e_addr e) s' h') as (b & s2 & k & v & Hb & Hk); [|done|].
      { apply prefix_len in Hp. rewrite length_app in Hp. cbn in Hp. lia. }
      exists b, s2, k, v. split; [done|]. etrans; [|exact Hk]. by eapply prefix_app_l.
    - destruct Hc as (_ & _ & Hp). exists (e_addr e), s', k, v. split; [done|]. cbn in Hp. by eapply prefix_app_l. }
  intros Ha. by apply (Hn 8%nat a s h); [lia|].
Qed.
End facts.

(** ** The steps of an insertion *)

(** Another value at a leaf. *)
Lemma shape_value ent ob a s k v v' :
  shape ent ob → ob a = Some (MLeaf s k v) → uint 64 v' → shape ent (<[a := Some (MLeaf s k v')]> ob).
Proof.
  intros Hs Ha Hv.
  assert (Hob : ∀ b m, <[a := Some (MLeaf s k v')]> ob b = Some m →
    b = a ∧ m = MLeaf s k v' ∨ b ≠ a ∧ ob b = Some m).
  { intros b m. destruct (decide (a = b)) as [->|Hne]; [rewrite fn_lookup_insert|rewrite fn_lookup_insert_ne by done]; naive_solver. }
  assert (Hfull : ∀ q, full (<[a := Some (MLeaf s k v')]> ob) q → full ob q).
  { intros q [(b & sb & w & Hb)|(b & sb & h & Hb & ->)]; apply Hob in Hb as [[-> Hb]|[_ Hb]]; simplify_eq.
    - left. eauto. - left. eauto. - right. eauto. }
  assert (Hn : ∀ b sb h, <[a := Some (MLeaf s k v')]> ob b = Some (MNode sb h) ↔ ob b = Some (MNode sb h)).
  { intros b sb h. destruct (decide (a = b)) as [->|Hne]; [rewrite fn_lookup_insert, Ha|rewrite fn_lookup_insert_ne by done]; done. }
  split.
  - apply (sh_root _ _ Hs).
  - intros b i. rewrite (sh_slots _ _ Hs). by setoid_rewrite Hn.
  - apply (sh_entry _ _ Hs).
  - intros b sb h i e Hb. apply Hn in Hb. exact (sh_null _ _ Hs b sb h i e Hb).
  - apply (sh_uniq _ _ Hs).
  - intros b sb h Hb. apply Hn in Hb. by eapply sh_node.
  - intros b sb k0 w Hb. apply Hob in Hb as [[-> Hb]|[_ Hb]]; [|by eapply sh_leaf]. simplify_eq.
    split; [by eapply sh_leaf|done].
  - intros t e He Hne. pose proof (sh_child _ _ Hs t e He Hne) as Hc. destruct (decide (a = e_addr e)) as [Hae|Hae].
    + rewrite Hae, fn_lookup_insert. by rewrite <- Hae, Ha in Hc.
    + by rewrite fn_lookup_insert_ne.
  - intros b m Hb. apply Hob in Hb as [[-> ->]|[_ Hb]]; [exact (sh_parent _ _ Hs _ _ Ha)|exact (sh_parent _ _ Hs _ _ Hb)].
  - intros t e q He Hne Hp Hq%Hfull. pose proof (sh_leads _ _ Hs t e q He Hne Hp Hq) as Hl. unfold leads in *.
    destruct (decide (a = e_addr e)) as [Hae|Hae].
    + rewrite Hae, fn_lookup_insert. by rewrite <- Hae, Ha in Hl.
    + by rewrite fn_lookup_insert_ne.
  - intros b c sb sc h h' Hb%Hn Hc%Hn. by apply (sh_node_inj _ _ Hs b c sb sc h h').
  - intros b c sb sc k0 w w' Hb Hc. apply Hob in Hb as [[-> Hb]|[_ Hb]], Hc as [[-> Hc]|[_ Hc]]; simplify_eq; [done|..];
      by eapply sh_leaf_inj.
  - intros b sb h Hb%Hn. by eapply sh_used.
Qed.

(** The first leaf, at the root. *)
Lemma shape_root_leaf ent ob b l k v :
  shape ent ob → ent SRoot = Some entry_Null → is_byte b → key_ok k → uint 64 v →
  e_addr (entry_leaf b leaf_kv_len l) = l →
  shape (<[SRoot := Some (entry_leaf b leaf_kv_len l)]> ent) (<[l := Some (MLeaf SRoot k v)]> ob).
Proof.
  intros Hs Hr Hb Hk Hv Hl. pose proof (λ a, shape_empty ent ob Hs a Hr) as Hemp.
  set (e0 := entry_leaf b leaf_kv_len l) in *.
  assert (Hent : ∀ a i, ¬ is_Some (ent (Slot a i))).
  { intros a i Hi. apply (sh_slots _ _ Hs) in Hi as [(s & h & Ha) _]. by rewrite Hemp in Ha. }
  assert (Hent' : ∀ s e, <[SRoot := Some e0]> ent s = Some e → s = SRoot ∧ e = e0).
  { intros [|a i] e; [rewrite fn_lookup_insert; by intros [= <-]|]. rewrite fn_lookup_insert_ne by done.
    intros E. by destruct (Hent a i). }
  assert (Hob' : ∀ a m, <[l := Some (MLeaf SRoot k v)]> ob a = Some m → a = l ∧ m = MLeaf SRoot k v).
  { intros a m. destruct (decide (l = a)) as [<-|]; [rewrite fn_lookup_insert; by intros [= <-]|].
    rewrite fn_lookup_insert_ne, Hemp by done. done. }
  assert (Hnoslot : ∀ a i e, <[SRoot := Some e0]> ent (Slot a i) = Some e → False) by (intros a i e E; by destruct (Hent' _ _ E)).
  split.
  - rewrite fn_lookup_insert. eauto.
  - intros a i. rewrite fn_lookup_insert_ne by done. split; [intros Hi; by destruct (Hent a i)|].
    intros [(s & h & Ha) _]. apply Hob' in Ha. naive_solver.
  - intros s e E. apply Hent' in E as [_ ->]. by apply entry_leaf_ok.
  - intros a s h i e Ha. apply Hob' in Ha. naive_solver.
  - intros a i j ei ej E. by destruct (Hnoslot _ _ _ E).
  - intros a s h Ha. apply Hob' in Ha. naive_solver.
  - intros a s k0 w Ha. apply Hob' in Ha as [_ Ha]. naive_solver.
  - intros s e E _. apply Hent' in E as [-> ->]. rewrite Hl, fn_lookup_insert. cbn. rewrite Hl.
    split; [done|]. split; [done|apply prefix_nil].
  - intros a m Ha. apply Hob' in Ha as [-> ->]. cbn. exists e0. by rewrite fn_lookup_insert.
  - intros s e q E _ _ Hq. apply Hent' in E as [-> ->]. unfold leads. rewrite Hl, fn_lookup_insert.
    destruct Hq as [(a & s & w & Ha)|(a & s & h & Ha & _)]; apply Hob' in Ha as [_ Ha]; naive_solver.
  - intros a c s s' h h' Ha. apply Hob' in Ha. naive_solver.
  - intros a c s s' k0 w w' Ha Hc. apply Hob' in Ha as [-> _], Hc as [-> _]. done.
  - intros a s h Ha. apply Hob' in Ha. naive_solver.
Qed.

(** A path that leads to a key leads on when the key gets its slot. *)
Lemma leads_to_new_key ent ob a s h k b t e :
  shape ent ob → ob a = Some (MNode s h) → (P a ++ [b]) `prefix_of` k → length k = 8%nat →
  (∀ j ej, ent (Slot a j) = Some ej → ej ≠ entry_Null → e_partial ej ≠ b) →
  ent t = Some e → e ≠ entry_Null → spath t e `prefix_of` k →
  ∃ st ht, ob (e_addr e) = Some (MNode st ht) ∧
    (e_addr e = a ∨
     ∃ i ei, ent (Slot (e_addr e) i) = Some ei ∧ ei ≠ entry_Null ∧ P (e_addr e) `prefix_of` k ∧
             (P (e_addr e) ++ [e_partial ei]) `prefix_of` k).
Proof.
  intros Hs Ha Hk Hlen Hnew He Hne Ht.
  assert (Hak : P a `prefix_of` k) by (by eapply prefix_app_l). pose proof (shape_node_short _ _ Hs _ _ _ Ha) as Hsh.
  assert (Hfa : full ob (P a)) by (right; eauto).
  assert (spath t e `prefix_of` P a ∨ ∃ c j, t = Slot c j ∧ P a `prefix_of` P c) as [Hpre|(c & j & -> & Hpre)].
  { destruct (prefix_weak_total _ _ _ Ht Hak) as [?|Hpre]; [by left|].
    destruct t as [|c j]; [left; apply prefix_nil|]. apply prefix_snoc_inv in Hpre as [Heq|Hpre]; [left; by rewrite Heq|].
    right. eauto. }
  - pose proof (sh_leads _ _ Hs t e (P a) He Hne Hpre Hfa) as Hl. unfold leads in Hl.
    destruct (ob (e_addr e)) as [[st ht|st k0 w]|] eqn:Eo; [|exfalso|done].
    + exists st, ht. split; [done|]. destruct Hl as [Hl|(Hl & i & ei & Ei & Hnei & Hpi)].
      * left. by eapply (sh_node_inj _ _ Hs).
      * right. exists i, ei. split; [done|]. split; [done|]. split; [by etrans|by etrans].
    + apply (shape_leaf_long _ _ Hs) in Eo. rewrite Hl in Eo. lia.
  - exfalso. destruct (shape_slot_node _ _ Hs c j e He) as (sc & hc & Hc). cbn in Ht.
    destruct (decide (P a = P c)) as [Hac|Hac].
    { assert (a = c) as <- by (by eapply (sh_node_inj _ _ Hs)).
      apply (Hnew j e He Hne). by eapply snoc_prefix_inj. }
    destruct (shape_up _ _ Hs a s h Ha) as (ea & Ea & Hnea & Heaa & Hpa & _).
    assert (Hfc : full ob (P c)) by (right; eauto).
    pose proof (sh_leads _ _ Hs s ea (P c) Ea Hnea ltac:(by etrans) Hfc) as Hl.
    unfold leads in Hl. rewrite Heaa, Ha in Hl. destruct Hl as [Hl|(_ & i & ei & Ei & Hnei & Hpi)]; [done|].
    apply (Hnew i ei Ei Hnei). apply prefix_app_l in Ht. eapply snoc_prefix_inj; [|exact Hk]. by etrans.
Qed.

(** Entries that stay or are replaced by entries with the same byte keep the
    ways through the nodes. *)
Lemma leads_mono ent ob ent' ob' a q :
  leads ent ob a q →
  (∀ s h, ob a = Some (MNode s h) → ∃ s' h', ob' a = Some (MNode s' h')) →
  (∀ s k v, ob a = Some (MLeaf s k v) → ∃ s' v', ob' a = Some (MLeaf s' k v')) →
  (∀ t e, ent t = Some e → e ≠ entry_Null → ∃ e', ent' t = Some e' ∧ e' ≠ entry_Null ∧ e_partial e' = e_partial e) →
  leads ent' ob' a q.
Proof.
  unfold leads. intros Hl Hn Hlf He. destruct (ob a) as [[s h|s k v]|]; [| |done].
  - destruct (Hn s h eq_refl) as (s' & h' & ->). destruct Hl as [?|(Hp & i & ei & Ei & Hne & Hpi)]; [by left|right].
    split; [done|]. destruct (He _ _ Ei Hne) as (e' & E' & Hne' & Hb). exists i, e'. by rewrite Hb.
  - by destruct (Hlf s k v eq_refl) as (s' & v' & ->).
Qed.

(** A new leaf in a free slot of the node that the key leads to. *)
Section add_leaf.
Context (ent : slot → option InternalEntry) (ob : GlobalAddress → option meta).
Context (a : GlobalAddress) (s : slot) (h : Header) (i : nat) (b : byte) (l : GlobalAddress) (k : Key) (v : Z).
Context (Hs : shape ent ob) (Ha : ob a = Some (MNode s h)) (Hnull : ent (Slot a i) = Some entry_Null) (Hi : (i < cnt h)%nat).
Context (Hpk : (P a ++ [b]) `prefix_of` k) (Hk : key_ok k) (Hv : uint 64 v).
Context (Hnew : ∀ j ej, ent (Slot a j) = Some ej → ej ≠ entry_Null → e_partial ej ≠ b).
Context (Hfresh : ob l = None) (Hl : e_addr (entry_leaf b leaf_kv_len l) = l).
Let e0 := entry_leaf b leaf_kv_len l.
Let ent' := <[Slot a i := Some e0]> ent.
Let ob' := <[l := Some (MLeaf (Slot a i) k v)]> ob.

Lemma add_ent t e : ent' t = Some e → t = Slot a i ∧ e = e0 ∨ t ≠ Slot a i ∧ ent t = Some e.
Proof.
  unfold ent'. destruct (decide (Slot a i = t)) as [<-|Hne];
    [rewrite fn_lookup_insert|rewrite fn_lookup_insert_ne by done]; naive_solver.
Qed.

Lemma add_ob c m : ob' c = Some m → c = l ∧ m = MLeaf (Slot a i) k v ∨ c ≠ l ∧ ob c = Some m.
Proof.
  unfold ob'. destruct (decide (l = c)) as [<-|Hne];
    [rewrite fn_lookup_insert|rewrite fn_lookup_insert_ne by done]; naive_solver.
Qed.

Lemma add_ob_old c m : ob c = Some m → ob' c = Some m.
Proof. intros Hc. unfold ob'. rewrite fn_lookup_insert_ne; [done|]. intros ->. congruence. Qed.

Lemma add_ob_node c sc hc : ob' c = Some (MNode sc hc) ↔ ob c = Some (MNode sc hc).
Proof. split; [|apply add_ob_old]. intros [[_ ?]|[_ ?]]%add_ob; done. Qed.

Lemma add_ent_old t e : ent t = Some e → e ≠ entry_Null → ent' t = Some e.
Proof. intros He Hne. unfold ent'. rewrite fn_lookup_insert_ne; [done|]. intros <-. congruence. Qed.

Lemma add_full q : full ob' q → q = k ∨ full ob q.
Proof.
  intros [(c & sc & w & [[_ Hc]|[_ Hc]]%add_ob)|(c & sc & hc & Hc%add_ob_node & ->)];
    [left; congruence|right; left; eauto|right; right; eauto].
Qed.

Lemma add_leads_old c q : leads ent ob c q → leads ent' ob' c q.
Proof. intros Hc. eapply leads_mono; [exact Hc|..]; eauto using add_ob_old, add_ent_old. Qed.

(** The two places that changed. *)
Lemma add_ent_at : ent' (Slot a i) = Some e0.
Proof. unfold ent'. by rewrite fn_lookup_insert. Qed.

Lemma add_ob_at : ob' (e_addr e0) = Some (MLeaf (Slot a i) k v).
Proof. unfold ob', e0. by rewrite Hl, fn_lookup_insert. Qed.

Lemma add_byte : is_byte b.
Proof.
  destruct Hk as [_ Hf]. eapply Forall_lookup_1; [exact Hf|]. destruct Hpk as [r ->].
  rewrite <- app_assoc, lookup_app_r, Nat.sub_diag by done. done.
Qed.

Lemma add_uniq c j1 j2 e1 e2 :
  ent' (Slot c j1) = Some e1 → ent' (Slot c j2) = Some e2 → e1 ≠ entry_Null → e2 ≠ entry_Null →
  e_partial e1 = e_partial e2 → j1 = j2.
Proof.
  intros H1 H2 Hn1 Hn2 Heq.
  destruct (add_ent _ _ H1) as [[E1 ->]|[E1 H1']], (add_ent _ _ H2) as [[E2 ->]|[E2 H2']].
  - congruence.
  - injection E1 as -> ->. by destruct (Hnew j2 e2 H2' Hn2).
  - injection E2 as -> ->. by destruct (Hnew j1 e1 H1' Hn1).
  - by apply (sh_uniq _ _ Hs c j1 j2 e1 e2).
Qed.

(** Where a search for the new key comes from. *)
Lemma add_leads t e q :
  ent' t = Some e → e ≠ entry_Null → spath t e `prefix_of` q → full ob' q → leads ent' ob' (e_addr e) q.
Proof.
  intros [[-> ->]|[_ He]]%add_ent Hne Hp [->|Hq]%add_full.
  - unfold leads. by rewrite add_ob_at.
  - exfalso. destruct (shape_up _ _ Hs a s h Ha) as (ea & Ea & Hnea & Heaa & Hpa & _). cbn in Hp.
    pose proof (sh_leads _ _ Hs s ea q Ea Hnea) as Hlq. rewrite Heaa in Hlq. unfold leads in Hlq. rewrite Ha in Hlq.
    destruct Hlq as [Hlq|(_ & j & ej & Ej & Hnej & Hpj)]; [etrans; [exact Hpa|by eapply prefix_app_l]|done|..].
    + apply prefix_len in Hp. rewrite Hlq, length_app in Hp. cbn in Hp. lia.
    + apply (Hnew j ej Ej Hnej). by eapply snoc_prefix_inj.
  - destruct (leads_to_new_key ent ob a s h k b t e) as (st & ht & Ht & Hway); [done|done|done|by destruct Hk|done|done|done|done|].
    unfold leads. rewrite (add_ob_old _ _ Ht). right. destruct Hway as [->|(j & ej & Ej & Hnej & Hp1 & Hp2)].
    + split; [by eapply prefix_app_l|]. exists i, e0. by rewrite add_ent_at.
    + split; [done|]. exists j, ej. auto using add_ent_old.
  - apply add_leads_old. by apply (sh_leads _ _ Hs t e q).
Qed.

Lemma add_leaf_inj c d sc sd k0 w w' :
  ob' c = Some (MLeaf sc k0 w) → ob' d = Some (MLeaf sd k0 w') → c = d.
Proof.
  assert (Habs : ∀ c sc w, ob c = Some (MLeaf sc k w) → False).
  { intros c0 sc0 w0 Hc. by apply (shape_absent _ _ Hs a s h k b c0 sc0 w0). }
  intros [[-> H1]|[_ Hc]]%add_ob [[-> H2]|[_ Hd]]%add_ob; [done|..].
  - injection H1 as -> -> ->. by destruct (Habs d sd w').
  - injection H2 as -> -> ->. by destruct (Habs c sc w).
  - by apply (sh_leaf_inj _ _ Hs c d sc sd k0 w w').
Qed.

Lemma shape_add_leaf : shape ent' ob'.
Proof.
  split.
  - destruct (sh_root _ _ Hs) as [e He]. exists e. unfold ent'. by rewrite fn_lookup_insert_ne.
  - intros c j. setoid_rewrite add_ob_node. rewrite <- (sh_slots _ _ Hs). unfold ent'.
    destruct (decide (Slot a i = Slot c j)) as [<-|Hne]; [rewrite fn_lookup_insert, Hnull|rewrite fn_lookup_insert_ne by done]; [|done].
    split; eauto.
  - intros t e [[_ ->]|[_ He]]%add_ent; [apply entry_leaf_ok, add_byte|by eapply sh_entry].
  - intros c sc hc j e Hc%add_ob_node [[[= -> ->] ->]|[_ He]]%add_ent Hj; [|exact (sh_null _ _ Hs c sc hc j e Hc He Hj)].
    rewrite Ha in Hc. injection Hc as <- <-. lia.
  - apply add_uniq.
  - intros c sc hc Hc%add_ob_node. by eapply sh_node.
  - intros c sc k0 w [[_ ?]|[_ Hc]]%add_ob; [simplify_eq; done|by eapply sh_leaf].
  - intros t e [[-> ->]|[_ He]]%add_ent Hne.
    + rewrite add_ob_at. cbn. split_and!; [done|unfold e0; by rewrite Hl|done].
    + pose proof (sh_child _ _ Hs t e He Hne) as Hc. destruct (ob (e_addr e)) as [m|] eqn:Eo; [|done]. by rewrite (add_ob_old _ _ Eo).
  - intros c m [[-> ->]|[_ Hc]]%add_ob.
    + exists e0. cbn [m_slot]. split_and!; [apply add_ent_at|done|exact Hl].
    + destruct (sh_parent _ _ Hs c m Hc) as (e & He & Hne & Hea). exists e. auto using add_ent_old.
  - apply add_leads.
  - intros c d sc sd hc hd Hc%add_ob_node Hd%add_ob_node. by apply (sh_node_inj _ _ Hs c d sc sd hc hd).
  - apply add_leaf_inj.
  - intros c sc hc Hc%add_ob_node. destruct (sh_used _ _ Hs c sc hc Hc) as (j & ej & Ej & Hnej). eauto using add_ent_old.
Qed.
End add_leaf.

(** The slots of a fresh node: the first entry, then Null. *)
Definition fresh_slots (c : GlobalAddress) (e0 : InternalEntry) (ent : slot → option InternalEntry) : slot → option InternalEntry :=
  λ t, match t with
       | Slot b i => if decide (b = c) then
                       if decide (i < 256)%nat then Some (if decide (i = 0%nat) then e0 else entry_Null) else None
                     else ent t
       | SRoot => ent t
       end.

(** The object [m] below slot 0 of a new parent. *)
Definition below_slot (c : GlobalAddress) (h' : Header) (m : meta) : meta :=
  match m with MNode _ _ => MNode (Slot c 0) h' | MLeaf _ k v => MLeaf (Slot c 0) k v end.

Definition full_path (x : GlobalAddress) (m : meta) : list byte :=
  match m with MNode _ _ => P x | MLeaf _ k _ => k end.

(** A new node [c] between slot [s] and what is below it. *)
Section above.
Context (ent : slot → option InternalEntry) (ob : GlobalAddress → option meta).
Context (s : slot) (e : InternalEntry) (mx : meta) (c : GlobalAddress) (hc hx : Header) (y : byte).
Let x := e_addr e.
Let ent' := <[s := Some (entry_node (e_partial e) NODE_4 c)]> (fresh_slots c (entry_repartial y e) ent).
Let ob' := <[x := Some (below_slot c hx mx)]> (<[c := Some (MNode s hc)]> ob).
Context (Hs : shape ent ob) (He : ent s = Some e) (Hne : e ≠ entry_Null) (Hx : ob x = Some mx) (Hc : ob c = None).
Context (Hpc : spath s e `prefix_of` P c) (Hy : is_byte y) (Hpx : (P c ++ [y]) `prefix_of` full_path x mx).
Context (Hhc : head_ok (P c) hc) (Htc : h_node_type hc = NODE_4) (Hdc : h_depth hc = Z.of_nat (length (spath s e)) + 1).
Context (Hca : e_addr (entry_node (e_partial e) NODE_4 c) = c).
Context (Hhx : match mx with
               | MNode _ h => head_ok (P x) hx ∧ h_node_type hx = h_node_type h ∧ h_depth hx = Z.of_nat (length (P c)) + 2
               | MLeaf _ _ _ => True
               end).

Lemma above_mx_slot : m_slot mx = s.
Proof.
  pose proof (sh_child _ _ Hs s e He Hne) as Hch. fold x in Hch. rewrite Hx in Hch. destruct mx; by destruct Hch as (-> & _).
Qed.

Lemma above_xc : x ≠ c.
Proof. intros E. congruence. Qed.

Lemma above_s_old i : s ≠ Slot c i.
Proof. intros ->. destruct (shape_slot_node _ _ Hs c i e He) as (? & ? & ?). congruence. Qed.

Lemma above_ent_s : ent' s = Some (entry_node (e_partial e) NODE_4 c).
Proof. unfold ent'. by rewrite fn_lookup_insert. Qed.

Lemma above_ent_c i : ent' (Slot c i) = if decide (i < 256)%nat then Some (if decide (i = 0%nat) then entry_repartial y e else entry_Null) else None.
Proof.
  unfold ent'. rewrite fn_lookup_insert_ne by apply above_s_old. cbn. by rewrite decide_True.
Qed.

Lemma above_ent_old t : t ≠ s → (∀ i, t ≠ Slot c i) → ent' t = ent t.
Proof.
  intros Ht Htc'. unfold ent'. rewrite fn_lookup_insert_ne by done. destruct t as [|b i]; [done|]. cbn.
  rewrite decide_False; [done|]. intros ->. by apply (Htc' i).
Qed.

Lemma above_no_c i : ent (Slot c i) = None.
Proof.
  apply eq_None_not_Some. intros Hi. apply (sh_slots _ _ Hs) in Hi as [(? & ? & ?) _]. congruence.
Qed.

(** The entries of the new tree. *)
Lemma above_ent_cases t et : ent' t = Some et →
  t = s ∧ et = entry_node (e_partial e) NODE_4 c ∨
  (∃ i, t = Slot c i ∧ (i < 256)%nat ∧ (i = 0%nat ∧ et = entry_repartial y e ∨ i ≠ 0%nat ∧ et = entry_Null)) ∨
  t ≠ s ∧ (∀ i, t ≠ Slot c i) ∧ ent t = Some et.
Proof.
  intros Ht. destruct (decide (t = s)) as [->|Hts]; [rewrite above_ent_s in Ht; left; naive_solver|right].
  destruct (slot_of_dec c t) as [[i ->]|Hno].
  - left. exists i. split; [done|]. rewrite above_ent_c in Ht. repeat case_decide; simplify_eq; auto.
  - right. rewrite above_ent_old in Ht by done. auto.
Qed.

Lemma above_ob_cases b m : ob' b = Some m →
  b = x ∧ m = below_slot c hx mx ∨ b = c ∧ m = MNode s hc ∨ b ≠ x ∧ b ≠ c ∧ ob b = Some m.
Proof.
  unfold ob'. destruct (decide (x = b)) as [<-|Hxb]; [rewrite fn_lookup_insert; intros [= <-]; auto|].
  rewrite fn_lookup_insert_ne by done.
  destruct (decide (c = b)) as [<-|Hcb]; [rewrite fn_lookup_insert; intros [= <-]; auto|].
  rewrite fn_lookup_insert_ne by done. auto.
Qed.

Lemma above_ob_x : ob' x = Some (below_slot c hx mx).
Proof. unfold ob'. by rewrite fn_lookup_insert. Qed.

Lemma above_ob_c : ob' c = Some (MNode s hc).
Proof. unfold ob'. rewrite fn_lookup_insert_ne by apply above_xc. by rewrite fn_lookup_insert. Qed.

Lemma above_ob_old b : b ≠ x → b ≠ c → ob' b = ob b.
Proof. intros. unfold ob'. by rewrite !fn_lookup_insert_ne by done. Qed.

Lemma above_ob_node b sb h : ob b = Some (MNode sb h) → ∃ sb' h', ob' b = Some (MNode sb' h').
Proof.
  intros Hb. destruct (decide (b = x)) as [->|Hbx].
  - rewrite above_ob_x. rewrite Hx in Hb. injection Hb as ->. cbn. eauto.
  - rewrite above_ob_old; [eauto|done|congruence].
Qed.

Lemma above_ob_leaf b sb k v : ob b = Some (MLeaf sb k v) → ∃ sb' v', ob' b = Some (MLeaf sb' k v').
Proof.
  intros Hb. destruct (decide (b = x)) as [->|Hbx].
  - rewrite above_ob_x. rewrite Hx in Hb. injection Hb as ->. cbn. eauto.
  - rewrite above_ob_old; [eauto|done|congruence].
Qed.

(** The leaves and paths of the new tree, but for the new path. *)
Lemma above_full q : full ob' q → q = P c ∨ full ob q.
Proof.
  intros [(b & sb & v & Hb)|(b & sb & h & Hb & ->)]; apply above_ob_cases in Hb as [[-> Hb]|[[-> Hb]|(_ & _ & Hb)]].
  - right. left. destruct mx as [s0 h0|s0 k0 v0] eqn:E; cbn in Hb; simplify_eq. eauto.
  - done.
  - right. left. eauto.
  - right. right. destruct mx as [s0 h0|s0 k0 v0] eqn:E; cbn in Hb; simplify_eq. eauto.
  - by left.
  - right. right. eauto.
Qed.

Lemma above_live t et : ent t = Some et → et ≠ entry_Null → ∃ et', ent' t = Some et' ∧ et' ≠ entry_Null ∧ e_partial et' = e_partial et.
Proof.
  intros Ht Hnet. destruct (decide (t = s)) as [->|Hts].
  - rewrite above_ent_s. rewrite He in Ht. injection Ht as ->. eexists. split; [done|]. split; [|done].
    by apply entry_node_not_Null.
  - exists et. rewrite above_ent_old; [done|done|]. intros i ->. by rewrite above_no_c in Ht.
Qed.

Lemma above_mono b q : leads ent ob b q → leads ent' ob' b q.
Proof.
  intros Hl. eapply leads_mono; [exact Hl|intros; by eapply above_ob_node|intros; by eapply above_ob_leaf|apply above_live].
Qed.

(** What the old target leads to. *)
Lemma above_target q : spath s e `prefix_of` q → full ob q → full_path x mx = q ∨ (P x `prefix_of` q ∧ full_path x mx = P x).
Proof.
  intros Hp Hq. pose proof (sh_leads _ _ Hs s e q He Hne Hp Hq) as Hl. unfold leads in Hl. fold x in Hl. rewrite Hx in Hl.
  destruct mx; cbn; [|by left]. destruct Hl as [|[? _]]; auto.
Qed.

Lemma above_target_full : full ob (full_path x mx).
Proof. destruct mx; [right|left]; eauto. Qed.

(** Another slot does not lead to the old target. *)
Lemma above_only t et : ent t = Some et → et ≠ entry_Null → e_addr et = x → t = s.
Proof.
  intros Ht Hnet Hea. pose proof (sh_child _ _ Hs t et Ht Hnet) as Hch. rewrite Hea, Hx in Hch.
  pose proof above_mx_slot as Hm. destruct mx; destruct Hch as (Hsl & _); cbn in Hm; congruence.
Qed.

Lemma above_same_full b : full_path x mx = P b → (∃ sb h, ob b = Some (MNode sb h)) → b = x.
Proof.
  intros Hq (sb & h & Hb). destruct mx as [s0 h0|s0 k0 v0] eqn:E; cbn in Hq.
  - by eapply (sh_node_inj _ _ Hs).
  - apply (shape_leaf_long _ _ Hs) in Hx. apply (shape_node_short _ _ Hs) in Hb. rewrite Hq in Hx. lia.
Qed.

(** No old node has the new path. *)
Lemma above_new_path b sb h : ob b = Some (MNode sb h) → P b ≠ P c.
Proof.
  intros Hb E. assert (length (P c) < length (full_path x mx))%nat as Hlen.
  { apply prefix_len in Hpx. rewrite length_app in Hpx. cbn in Hpx. lia. }
  destruct (above_target (P b)) as [Hq|[Hq Hfx]].
  - by rewrite E.
  - right. eauto.
  - rewrite Hq, E in Hlen. lia.
  - rewrite Hfx in Hlen. apply prefix_len in Hq. rewrite E in Hq. lia.
Qed.

(** A slot whose path leads past the new node leads to it. *)
Lemma above_leads_new t et :
  ent t = Some et → et ≠ entry_Null → t ≠ s → spath t et `prefix_of` P c → leads ent' ob' (e_addr et) (P c).
Proof.
  intros Ht Hnet Hts Hp. set (qx := full_path x mx) in *.
  assert (Hcq : P c `prefix_of` qx) by (by eapply prefix_app_l).
  assert (Hbx : e_addr et ≠ x) by (intros E; apply Hts; by eapply above_only).
  pose proof (sh_leads _ _ Hs t et qx Ht Hnet ltac:(by etrans) above_target_full) as Hl. unfold leads in Hl.
  destruct (ob (e_addr et)) as [[sb h|sb kb vb]|] eqn:Eb; [| |done].
  - destruct Hl as [Hl|(Hl & i & ei & Ei & Hnei & Hpi)].
    { destruct Hbx. apply above_same_full; [done|eauto]. }
    destruct (above_ob_node _ _ _ Eb) as (sb' & h' & Hb').
    destruct (prefix_weak_total _ _ _ Hl Hcq) as [Hbc|Hcb].
    + unfold leads. rewrite Hb'. right. split; [done|]. destruct (above_live _ _ Ei Hnei) as (ei' & Ei' & Hnei' & Hpe).
      exists i, ei'. rewrite Hpe. split; [done|]. split; [done|].
      destruct (prefix_weak_total _ _ _ Hpi Hcq) as [?|Hcb]; [done|].
      apply prefix_snoc_inv in Hcb as [->|Hcb]; [done|]. destruct (above_new_path _ _ _ Eb). by apply (anti_symm prefix).
    + exfalso. destruct (above_target (P (e_addr et))) as [Hq|[Hq Hfx]].
      * by etrans.
      * right. eauto.
      * by destruct Hbx; apply above_same_full; eauto.
      * apply prefix_len in Hpi, Hq. rewrite length_app in Hpi. fold qx in Hfx. rewrite Hfx in Hpi. cbn in Hpi. lia.
  - exfalso. unfold qx in Hl. destruct mx as [s0 h0|s0 k0 v0] eqn:E; cbn in Hl.
    + apply (shape_leaf_long _ _ Hs) in Eb. apply (shape_node_short _ _ Hs) in Hx. rewrite Hl in Eb. lia.
    + subst kb. destruct Hbx. by eapply (sh_leaf_inj _ _ Hs).
Qed.

(** The entry of the old target, below its new byte. *)
Lemma above_repartial_eq :
  entry_repartial y e = match mx with
                        | MNode _ h => entry_node y (h_node_type h) x
                        | MLeaf _ _ _ => entry_leaf y leaf_kv_len x
                        end.
Proof.
  pose proof (sh_child _ _ Hs s e He Hne) as Hch. fold x in Hch. rewrite Hx in Hch.
  destruct mx; destruct Hch as (_ & -> & _); done.
Qed.

Lemma above_repartial : entry_repartial y e ≠ entry_Null.
Proof.
  rewrite above_repartial_eq. destruct mx as [s0 h0|s0 k0 v0] eqn:E; [|apply entry_leaf_not_Null].
  destruct (sh_node _ _ Hs _ _ _ Hx) as (_ & Ht & _). apply entry_node_not_Null; [unfold uint|]; lia.
Qed.

Lemma above_leads t et q :
  ent' t = Some et → et ≠ entry_Null → spath t et `prefix_of` q → full ob' q → leads ent' ob' (e_addr et) q.
Proof.
  intros Ht Hnet Hp Hq. apply above_ent_cases in Ht as [[-> ->]|[(i & -> & Hi & [[-> ->]|[_ ->]])|(Hts & Htc' & Ht)]].
  - rewrite Hca. unfold leads. rewrite above_ob_c. apply above_full in Hq as [->|Hq]; [by left|right].
    assert (spath s e `prefix_of` q) as Hp' by (destruct s; done).
    assert ((P c ++ [y]) `prefix_of` q) as Hcy.
    { destruct (above_target q Hp' Hq) as [<-|[? Hfx]]; [done|]. rewrite Hfx in Hpx. by etrans. }
    split; [by eapply prefix_app_l|]. exists 0%nat, (entry_repartial y e). rewrite above_ent_c. split; [done|].
    split; [apply above_repartial|done].
  - cbn in Hp. change (e_addr (entry_repartial y e)) with x. apply above_full in Hq as [->|Hq].
    + apply prefix_len in Hp. rewrite length_app in Hp. cbn in Hp. lia.
    + apply above_mono. apply (sh_leads _ _ Hs s e q He Hne); [|done]. etrans; [exact Hpc|]. by eapply prefix_app_l.
  - done.
  - apply above_full in Hq as [->|Hq]; [by apply above_leads_new with t|]. apply above_mono. by apply (sh_leads _ _ Hs t et q).
Qed.

Lemma above_child t et : ent' t = Some et → et ≠ entry_Null → child_ok t et (ob' (e_addr et)).
Proof.
  intros Ht Hnet. apply above_ent_cases in Ht as [[-> ->]|[(i & -> & Hi & [[-> ->]|[_ ->]])|(Hts & Htc' & Ht)]].
  - rewrite Hca, above_ob_c. cbn. rewrite Hca, Htc. split; [done|]. split; [done|].
    replace (Z.to_nat (h_depth hc - 1)) with (length (spath s e)) by lia.
    destruct Hpc as [r Hr]. rewrite Hr. rewrite take_app_length. by destruct s.
  - change (e_addr (entry_repartial y e)) with x. rewrite above_ob_x. pose proof above_repartial_eq as Hre.
    destruct mx as [s0 h0|s0 k0 v0] eqn:E; cbn.
    + destruct Hhx as (Hok & Hty & Hdx). change (e_addr (entry_repartial y e)) with x. split; [done|].
      split; [by rewrite Hty, Hre|]. destruct Hpx as [r Hr]. cbn in Hr. rewrite Hr.
      replace (Z.to_nat (h_depth hx - 1)) with (length (P c ++ [y])) by (rewrite length_app; cbn; lia).
      by rewrite take_app_length.
    + change (e_addr (entry_repartial y e)) with x. split; [done|]. split; [by rewrite Hre|done].
  - done.
  - rewrite above_ob_old.
    + by apply (sh_child _ _ Hs).
    + intros E. apply Hts. by eapply above_only.
    + intros E. pose proof (sh_child _ _ Hs t et Ht Hnet) as Hch. by rewrite E, Hc in Hch.
Qed.

Lemma above_parent b m : ob' b = Some m → ∃ et, ent' (m_slot m) = Some et ∧ et ≠ entry_Null ∧ e_addr et = b.
Proof.
  intros [[-> ->]|[[-> ->]|(Hbx & Hbc & Hb)]]%above_ob_cases.
  - assert (m_slot (below_slot c hx mx) = Slot c 0) as -> by by destruct mx. exists (entry_repartial y e).
    rewrite above_ent_c. split; [done|]. split; [apply above_repartial|done].
  - cbn. rewrite above_ent_s. eexists. split; [done|]. split; [by apply entry_node_not_Null|done].
  - destruct (sh_parent _ _ Hs b m Hb) as (et & Ht & Hnet & Hea). exists et. split; [|done].
    rewrite above_ent_old; [done| |].
    + intros E. rewrite E, He in Ht. injection Ht as <-. by destruct Hbx.
    + intros i E. by rewrite E, above_no_c in Ht.
Qed.

(** A node of the new tree is the new one or one of the old tree, of the same type. *)
Lemma above_node_old b sb h :
  ob' b = Some (MNode sb h) → b ≠ c → ∃ sb0 h0, ob b = Some (MNode sb0 h0) ∧ h_node_type h0 = h_node_type h.
Proof.
  intros [[-> Hb]|[[-> Hb]|(_ & _ & Hb)]]%above_ob_cases Hbc; [|done|eauto].
  rewrite Hx. destruct mx as [s0 h0|]; cbn in Hb; [|done]. injection Hb as _ <-. exists s0, h0. split; [done|]. symmetry. apply Hhx.
Qed.

Lemma above_nodes b : (∃ sb h, ob' b = Some (MNode sb h)) ↔ b = c ∨ b ≠ c ∧ ∃ sb h, ob b = Some (MNode sb h).
Proof.
  split.
  - intros (sb & h & Hb). destruct (decide (b = c)) as [->|Hbc]; [by left|right].
    destruct (above_node_old b sb h Hb Hbc) as (? & ? & ? & _). eauto.
  - intros [->|(Hbc & sb & h & Hb)]; [rewrite above_ob_c; eauto|by eapply above_ob_node].
Qed.

Lemma above_slots b i : is_Some (ent' (Slot b i)) ↔ (∃ sb h, ob' b = Some (MNode sb h)) ∧ (i < 256)%nat.
Proof.
  rewrite above_nodes. destruct (decide (b = c)) as [->|Hbc].
  - rewrite above_ent_c. case_decide; split; [tauto|eauto|by intros []|lia].
  - assert (is_Some (ent' (Slot b i)) ↔ is_Some (ent (Slot b i))) as ->; [|rewrite (sh_slots _ _ Hs); naive_solver].
    destruct (decide (Slot b i = s)) as [E|Hn]; [rewrite E, above_ent_s, He; split; eauto|].
    rewrite above_ent_old; [done|done|]. intros j. congruence.
Qed.

Lemma above_null b sb h i et :
  ob' b = Some (MNode sb h) → ent' (Slot b i) = Some et → (cnt h ≤ i)%nat → et = entry_Null.
Proof.
  intros Hb Ht Hcnt. destruct (decide (b = c)) as [->|Hbc].
  - rewrite above_ent_c in Ht. rewrite above_ob_c in Hb. injection Hb as <- <-.
    destruct (decide (i = 0%nat)) as [->|Hi]; [|by repeat case_decide; simplify_eq].
    exfalso. unfold cnt in Hcnt. rewrite Htc in Hcnt. by vm_compute in Hcnt; lia.
  - destruct (above_node_old b sb h Hb Hbc) as (sb0 & h0 & Hb0 & Hth).
    assert (cnt h0 ≤ i)%nat as Hcnt0 by (unfold cnt in *; by rewrite Hth).
    apply above_ent_cases in Ht as [[Hbs ->]|[(j & [= -> ->] & _)|(_ & _ & Ht)]]; [|done|by apply (sh_null _ _ Hs b sb0 h0 i et)].
    destruct Hne. apply (sh_null _ _ Hs b sb0 h0 i e); [done|by rewrite Hbs|done].
Qed.

Lemma above_uniq b i j ei ej :
  ent' (Slot b i) = Some ei → ent' (Slot b j) = Some ej → ei ≠ entry_Null → ej ≠ entry_Null →
  e_partial ei = e_partial ej → i = j.
Proof.
  intros Hi Hj Hni Hnj Heq. destruct (decide (b = c)) as [->|Hbc].
  - rewrite above_ent_c in Hi, Hj. repeat case_decide; simplify_eq; done.
  - assert (∀ i ei, ent' (Slot b i) = Some ei → ei ≠ entry_Null → ∃ ei0, ent (Slot b i) = Some ei0 ∧ ei0 ≠ entry_Null ∧ e_partial ei0 = e_partial ei) as Hold.
    { intros i0 e0 [[Hbs ->]|[(j0 & [= -> ->] & _)|(_ & _ & Ht)]]%above_ent_cases Hn0; [|done|eauto]. rewrite Hbs. eauto. }
    destruct (Hold i ei Hi Hni) as (ei0 & Hi0 & Hni0 & Hpi), (Hold j ej Hj Hnj) as (ej0 & Hj0 & Hnj0 & Hpj).
    apply (sh_uniq _ _ Hs b i j ei0 ej0); congruence.
Qed.

Lemma above_leaf_old b sb k v : ob' b = Some (MLeaf sb k v) → ∃ sb v, ob b = Some (MLeaf sb k v).
Proof.
  intros [[-> Hb]|[[-> Hb]|(_ & _ & Hb)]]%above_ob_cases; [|done|eauto].
  rewrite Hx. destruct mx; cbn in Hb; [done|]. injection Hb as _ <- <-. eauto.
Qed.

Lemma above_used b sb h : ob' b = Some (MNode sb h) → ∃ i et, ent' (Slot b i) = Some et ∧ et ≠ entry_Null.
Proof.
  intros Hb. destruct (decide (b = c)) as [->|Hbc].
  { exists 0%nat, (entry_repartial y e). rewrite above_ent_c. split; [done|apply above_repartial]. }
  destruct (above_node_old b sb h Hb Hbc) as (sb' & h' & Hb' & _).
  destruct (sh_used _ _ Hs b sb' h' Hb') as (i & et & Ht & Hnet). destruct (decide (Slot b i = s)) as [E|Hn].
  - exists i. rewrite E, above_ent_s. eexists. split; [done|by apply entry_node_not_Null].
  - exists i, et. rewrite above_ent_old; [done|done|]. intros j. congruence.
Qed.

Lemma shape_above : shape ent' ob'.
Proof.
  split.
  - destruct (sh_root _ _ Hs) as [er Her]. destruct (decide (SRoot = s)) as [E|Hn]; [rewrite E, above_ent_s; eauto|].
    rewrite above_ent_old by done. eauto.
  - apply above_slots.
  - intros t et [[-> ->]|[(i & -> & Hi & [[-> ->]|[_ ->]])|(Hts & Htc' & Ht)]]%above_ent_cases.
    + apply entry_node_ok. apply (sh_entry _ _ Hs s e He).
    + apply entry_repartial_ok; [done|]. by apply (sh_entry _ _ Hs s).
    + apply entry_Null_ok.
    + by apply (sh_entry _ _ Hs t).
  - apply above_null.
  - apply above_uniq.
  - intros b sb h [[-> Hb]|[[-> Hb]|(_ & _ & Hb)]]%above_ob_cases; [|by injection Hb as _ <-|by eapply sh_node].
    destruct mx; cbn in Hb; [|done]. injection Hb as _ <-. apply Hhx.
  - intros b sb k v [[-> Hb]|[[-> Hb]|(_ & _ & Hb)]]%above_ob_cases; [|done|by eapply sh_leaf].
    destruct mx; cbn in Hb; [done|]. injection Hb as _ <- <-. by eapply sh_leaf.
  - apply above_child.
  - apply above_parent.
  - apply above_leads.
  - intros b d sb sd h h' Hb Hd E. destruct (decide (b = c)) as [->|Hbc], (decide (d = c)) as [->|Hdc']; [done|..].
    + destruct (above_node_old d sd h' Hd Hdc') as (? & ? & Hd' & _). by destruct (above_new_path _ _ _ Hd').
    + destruct (above_node_old b sb h Hb Hbc) as (? & ? & Hb' & _). by destruct (above_new_path _ _ _ Hb').
    + destruct (above_node_old b sb h Hb Hbc) as (? & ? & Hb' & _), (above_node_old d sd h' Hd Hdc') as (? & ? & Hd' & _).
      by eapply (sh_node_inj _ _ Hs).
  - intros b d sb sd k v v' (? & ? & Hb)%above_leaf_old (? & ? & Hd)%above_leaf_old. by eapply (sh_leaf_inj _ _ Hs).
  - apply above_used.
Qed.
End above.

(** The header of a node that grows. *)
Definition retype (t : NodeType) (h : Header) : Header := Hdr (h_depth h) t (h_partial_len h) (h_partial h).

(** A node of a larger type. *)
Section retype.
Context (ent : slot → option InternalEntry) (ob : GlobalAddress → option meta).
Context (s : slot) (e : InternalEntry) (h : Header) (t : Z).
Context (Hs : shape ent ob) (He : ent s = Some e) (Hne : e ≠ entry_Null).
Context (Hx : ob (e_addr e) = Some (MNode s h)) (Ht : h_node_type h <= t <= 7).
Let er := entry_retype t e.
Let ent' := <[s := Some er]> ent.
Let ob' := <[e_addr e := Some (MNode s (retype t h))]> ob.

Lemma retype_head : head_ok (P (e_addr e)) h.
Proof. exact (sh_node _ _ Hs _ _ _ Hx). Qed.

Lemma retype_er : er = entry_node (e_partial e) t (e_addr e) ∧ spath s e = take (Z.to_nat (h_depth h - 1)) (P (e_addr e)).
Proof. pose proof (sh_child _ _ Hs s e He Hne) as Hce. rewrite Hx in Hce. destruct Hce as (_ & Hee & Hpe). split; [unfold er; by rewrite Hee at 1|done]. Qed.

Lemma retype_not_Null : er ≠ entry_Null.
Proof.
  pose proof retype_head as (_ & ? & _). destruct retype_er as [-> _]. apply entry_node_not_Null; [unfold uint|]; lia.
Qed.

Lemma retype_ent_at : ent' s = Some er.
Proof. unfold ent'. by rewrite fn_lookup_insert. Qed.

Lemma retype_ent_ne u : u ≠ s → ent' u = ent u.
Proof. intros. unfold ent'. by rewrite fn_lookup_insert_ne. Qed.

Lemma retype_ent u eu : ent' u = Some eu → u = s ∧ eu = er ∨ u ≠ s ∧ ent u = Some eu.
Proof.
  destruct (decide (u = s)) as [->|Hu]; [rewrite retype_ent_at|rewrite retype_ent_ne by done]; naive_solver.
Qed.

Lemma retype_live u eu : ent u = Some eu → eu ≠ entry_Null → ∃ eu', ent' u = Some eu' ∧ eu' ≠ entry_Null ∧ e_partial eu' = e_partial eu.
Proof.
  intros Hu Hnu. destruct (decide (u = s)) as [->|Hsu]; [|rewrite retype_ent_ne by done; eauto].
  exists er. assert (eu = e) as -> by congruence. split_and!; [apply retype_ent_at|apply retype_not_Null|done].
Qed.

Lemma retype_live_old u eu : ent' u = Some eu → eu ≠ entry_Null → ∃ eu0, ent u = Some eu0 ∧ eu0 ≠ entry_Null ∧ e_partial eu0 = e_partial eu.
Proof. intros [[-> ->]|[_ Hu]]%retype_ent Hn0; eauto. Qed.

Lemma retype_ob b m : ob' b = Some m → b = e_addr e ∧ m = MNode s (retype t h) ∨ b ≠ e_addr e ∧ ob b = Some m.
Proof.
  unfold ob'. destruct (decide (e_addr e = b)) as [<-|Hxb];
    [rewrite fn_lookup_insert|rewrite fn_lookup_insert_ne by done]; naive_solver.
Qed.

Lemma retype_node b sb hb : ob b = Some (MNode sb hb) → ∃ hb', ob' b = Some (MNode sb hb').
Proof.
  intros Hb. unfold ob'. destruct (decide (e_addr e = b)) as [<-|Hxb];
    [rewrite fn_lookup_insert; rewrite Hx in Hb; naive_solver|rewrite fn_lookup_insert_ne by done; eauto].
Qed.

Lemma retype_node_old b sb hb :
  ob' b = Some (MNode sb hb) → ∃ hb', ob b = Some (MNode sb hb') ∧ h_node_type hb' <= h_node_type hb <= 7.
Proof.
  intros [[-> [= -> ->]]|[_ Hb]]%retype_ob; [eauto|]. exists hb. split; [done|].
  destruct (sh_node _ _ Hs _ _ _ Hb) as (_ & ? & _). lia.
Qed.

Lemma retype_leaf b sb k v : ob' b = Some (MLeaf sb k v) ↔ ob b = Some (MLeaf sb k v).
Proof.
  unfold ob'. destruct (decide (e_addr e = b)) as [<-|Hxb];
    [rewrite fn_lookup_insert, Hx|rewrite fn_lookup_insert_ne by done]; naive_solver.
Qed.

Lemma retype_full q : full ob' q → full ob q.
Proof. intros [(b & sb & v & Hb%retype_leaf)|(b & sb & hb & (hb' & Hb & _)%retype_node_old & ->)]; [left|right]; eauto. Qed.

Lemma retype_leads b q : leads ent ob b q → leads ent' ob' b q.
Proof.
  intros Hl. eapply leads_mono; [exact Hl| | |exact retype_live].
  - intros sb hb [hb' ?]%retype_node. eauto.
  - intros sb k v Hb%retype_leaf. eauto.
Qed.

Lemma retype_slots b i : is_Some (ent' (Slot b i)) ↔ (∃ sb hb, ob' b = Some (MNode sb hb)) ∧ (i < 256)%nat.
Proof.
  assert (is_Some (ent' (Slot b i)) ↔ is_Some (ent (Slot b i))) as ->.
  { destruct (decide (Slot b i = s)) as [->|Hn]; [rewrite retype_ent_at, He|by rewrite retype_ent_ne]. split; eauto. }
  rewrite (sh_slots _ _ Hs). split; intros [(sb & hb & Hb) Hi]; (split; [|done]).
  - apply retype_node in Hb as [hb' ?]. eauto.
  - apply retype_node_old in Hb as (hb' & ? & _). eauto.
Qed.

Lemma retype_null b sb hb i eu :
  ob' b = Some (MNode sb hb) → ent' (Slot b i) = Some eu → (cnt hb ≤ i)%nat → eu = entry_Null.
Proof.
  intros (hb' & Hb & Hty)%retype_node_old Hu Hcnt.
  assert (cnt hb' ≤ i)%nat as Hcnt'.
  { unfold cnt in *. destruct (sh_node _ _ Hs _ _ _ Hb) as (_ & Hb1 & _).
    pose proof (node_num_mono (h_node_type hb') (h_node_type hb) ltac:(lia) ltac:(lia) ltac:(lia)). lia. }
  apply retype_ent in Hu as [[Hbs ->]|[_ Hu]]; [|by apply (sh_null _ _ Hs b sb hb' i)].
  destruct Hne. apply (sh_null _ _ Hs b sb hb' i e); [done|by rewrite Hbs|done].
Qed.

Lemma retype_head_ok : head_ok (P (e_addr e)) (retype t h).
Proof.
  destruct retype_head as ((Hd & Ht5 & Hp3 & Hl & Hf) & Hht & Hh1 & Hh2 & Hh3 & Hh4 & Hh5).
  unfold head_ok, header_ok, retype. cbn [h_depth h_node_type h_partial_len h_partial]. unfold nodeTypeNumBit, uint.
  unfold uint in Hd. change (uint 3 (h_partial_len h)) in Hp3. unfold uint in Hp3. change (2 ^ (8 - 5)) with (2 ^ 3). split_and!; first [done|lia].
Qed.

Lemma retype_child u eu : ent' u = Some eu → eu ≠ entry_Null → child_ok u eu (ob' (e_addr eu)).
Proof.
  intros [[-> ->]|[Hus Hu]]%retype_ent Hnu.
  - change (e_addr er) with (e_addr e). unfold ob'. rewrite fn_lookup_insert. cbn. split; [done|]. apply retype_er.
  - pose proof (sh_child _ _ Hs u eu Hu Hnu) as Hch. destruct (decide (e_addr e = e_addr eu)) as [Hxe|Hxe].
    + rewrite <- Hxe, Hx in Hch. by destruct Hch.
    + unfold ob'. by rewrite fn_lookup_insert_ne.
Qed.

Lemma shape_retype : shape ent' ob'.
Proof.
  split.
  - destruct (sh_root _ _ Hs) as [e0 Hroot]. destruct (decide (SRoot = s)) as [E|Hn]; [rewrite E, retype_ent_at|rewrite retype_ent_ne by done]; eauto.
  - apply retype_slots.
  - intros u eu [[-> ->]|[_ Hu]]%retype_ent; [apply entry_retype_ok; by eapply (sh_entry _ _ Hs)|by eapply (sh_entry _ _ Hs)].
  - apply retype_null.
  - intros b i j ei ej Hi Hj Hni Hnj Heq.
    destruct (retype_live_old _ _ Hi Hni) as (ei0 & Hi0 & Hni0 & Hpi), (retype_live_old _ _ Hj Hnj) as (ej0 & Hj0 & Hnj0 & Hpj).
    apply (sh_uniq _ _ Hs b i j ei0 ej0); congruence.
  - intros b sb hb [[-> [= -> ->]]|[_ Hb]]%retype_ob; [apply retype_head_ok|by eapply sh_node].
  - intros b sb k v Hb%retype_leaf. by eapply sh_leaf.
  - apply retype_child.
  - intros b m [[-> ->]|[Hbx Hb]]%retype_ob.
    + exists er. split_and!; [apply retype_ent_at|apply retype_not_Null|done].
    + destruct (sh_parent _ _ Hs b m Hb) as (eu & Hu & Hnu & Hea). exists eu. split; [|done].
      rewrite retype_ent_ne; [done|]. intros E. rewrite E, He in Hu. naive_solver.
  - intros u eu q [[-> ->]|[Hus Hu]]%retype_ent Hnu Hp Hq%retype_full; apply retype_leads.
    + change (e_addr er) with (e_addr e). apply (sh_leads _ _ Hs s e q He Hne); [by destruct s|done].
    + by apply (sh_leads _ _ Hs u eu q).
  - intros b d sb sd hb hd (hb' & Hb & _)%retype_node_old (hd' & Hd & _)%retype_node_old. by eapply (sh_node_inj _ _ Hs).
  - intros b d sb sd k v v' Hb%retype_leaf Hd%retype_leaf. by eapply (sh_leaf_inj _ _ Hs).
  - intros b sb hb (hb' & Hb & _)%retype_node_old. destruct (sh_used _ _ Hs b sb hb' Hb) as (i & eu & Hu & Hnu).
    destruct (retype_live _ _ Hu Hnu) as (eu' & ? & ? & _). eauto.
Qed.
End retype.
End shape.

(** The shape depends on the paths of the nodes only, and on the entries and
    objects point by point. *)
Lemma shape_ext P P' ent ent' ob ob' :
  shape P ent ob → (∀ t, ent' t = ent t) → (∀ a, ob' a = ob a) →
  (∀ a s h, ob a = Some (MNode s h) → P' a = P a) → shape P' ent' ob'.
Proof.
  intros Hs Hent Hob HP.
  assert (Hsp : ∀ t e, ent t = Some e → spath P' t e = spath P t e).
  { intros [|a i] e He; [done|]. destruct (shape_slot_node _ _ _ Hs a i e He) as (s & h & Ha). cbn. by rewrite (HP a s h). }
  assert (Hfull : ∀ q, full P' ob' q → full P ob q).
  { intros q [(a & s & v & Ha)|(a & s & h & Ha & ->)]; rewrite Hob in Ha; [left; eauto|right].
    exists a, s, h. split; [done|]. by apply (HP a s h). }
  split.
  - rewrite Hent. apply (sh_root _ _ _ Hs).
  - intros a i. rewrite Hent, Hob. apply (sh_slots _ _ _ Hs).
  - intros s e. rewrite Hent. apply (sh_entry _ _ _ Hs).
  - intros a s h i e. rewrite Hent, Hob. apply (sh_null _ _ _ Hs).
  - intros a i j ei ej. rewrite !Hent. apply (sh_uniq _ _ _ Hs).
  - intros a s h. rewrite Hob. intros Ha. rewrite (HP a s h Ha). by eapply sh_node.
  - intros a s k v. rewrite Hob. apply (sh_leaf _ _ _ Hs).
  - intros s e. rewrite Hent, Hob. intros He Hne. pose proof (sh_child _ _ _ Hs s e He Hne) as Hc. unfold child_ok in *.
    rewrite (Hsp s e He). destruct (ob (e_addr e)) as [[s' h|s' k v]|] eqn:E; [by rewrite (HP _ _ _ E)|done..].
  - intros a m. rewrite Hob. setoid_rewrite Hent. apply (sh_parent _ _ _ Hs).
  - intros s e q. rewrite Hent. intros He Hne Hp Hq%Hfull. rewrite (Hsp s e He) in Hp.
    pose proof (sh_leads _ _ _ Hs s e q He Hne Hp Hq) as Hl. unfold leads in *. rewrite Hob.
    destruct (ob (e_addr e)) as [[s' h|s' k v]|] eqn:E; [|done..]. rewrite (HP _ _ _ E). by setoid_rewrite Hent.
  - intros a b s s' h h'. rewrite !Hob. intros Ha Hb. rewrite (HP a s h Ha), (HP b s' h' Hb). by apply (sh_node_inj _ _ _ Hs a b s s' h h').
  - intros a b s s' k v v'. rewrite !Hob. apply (sh_leaf_inj _ _ _ Hs).
  - intros a s h. rewrite Hob. setoid_rewrite Hent. apply (sh_used _ _ _ Hs).
Qed.
