(* ===== verification/TreeHeap.v ===== *)
(** * The tree in memory

    [holds] relates the entries and objects of [TreeShape] to the bytes of
    memory node 0, within the blocks that the allocator has handed out: each
    slot is a word, each node a reverse pointer, a header and its records, each
    leaf its bytes, and what was never handed out is zero. The lemmas give the
    effect of the stores that an insertion makes. *)

From Stdlib Require Import ZArith Lia Bool.
From stdpp Require Import base tactics decidable option numbers functions list.
From S2P Require Import Prelude.
From S2P Require Import Common.
From S2P Require Import Keys.
From S2P Require Import Address.
From S2P Require Import Nodes.
From S2P Require Import Allocators.
From S2P Require Import Memory.
From S2P Require Import Tree.
From S2P Require Import TreeSearch.
From S2P Require Import TreeShape.

(** ** Blocks *)
Abbreviation block_list := (list (GlobalAddress * Z)).

Definition inside (o : Z) (n : nat) (b : GlobalAddress * Z) : Prop :=
  offset b.1 <= o ∧ o + Z.of_nat n <= offset b.1 + pad b.2.

Record blocks (live : block_list) : Prop := {
  bl_place a n : (a, n) ∈ live → 0 < n ∧ gaddr_ok a ∧ nodeID a = 0 ∧ (2 ^ ALLOC_ALLIGN_BIT | offset a) ∧
    kChunkSize <= offset a ∧ offset a + pad n < 2 ^ 48;
  bl_sep i j a n b q : live !! i = Some (a, n) → live !! j = Some (b, q) → i ≠ j →
    offset a + pad n <= offset b ∨ offset b + pad q <= offset a
}.

Lemma heap_blocks_ok h : heap_inv h → Forall (λ b, 0 < b.2) (live h) → blocks (live h).
Proof.
  intros Hinv Hpos. split.
  - intros a n Hin. apply list_elem_of_lookup_1 in Hin as [i Hi]. pose proof (Forall_lookup_1 _ _ _ _ Hpos Hi) as Hn. cbn in Hn.
    destruct (heap_live_placed h i a n Hinv Hi Hn) as (H1 & H2 & H3 & H4 & H5).
    destruct Hinv as [(_ & _ & _ & Hlen & _) _ _ _ _]. do 5 (split; [done|]). lia.
  - intros i j a n b q Hi Hj Hij. pose proof (Forall_lookup_1 _ _ _ _ Hpos Hi) as Hn.
    pose proof (Forall_lookup_1 _ _ _ _ Hpos Hj) as Hq. cbn in *. by apply (heap_live_disjoint h i j).
Qed.

Section blocks.
Context (live : block_list) (Hbl : blocks live).

Lemma block_pad a n : (a, n) ∈ live → 0 < n <= pad n.
Proof using Hbl. intros Hin. destruct (bl_place _ Hbl a n Hin) as [Hn _]. destruct (pad_spec n). lia. Qed.

(** A block is known by its address. *)
Lemma block_size_inj a n q : (a, n) ∈ live → (a, q) ∈ live → n = q.
Proof using Hbl.
  intros Hn Hq. pose proof (block_pad a n Hn) as Hpn. pose proof (block_pad a q Hq) as Hpq.
  apply list_elem_of_lookup_1 in Hn as [i Hi]. apply list_elem_of_lookup_1 in Hq as [j Hj].
  destruct (decide (i = j)) as [->|Hij]; [congruence|].
  destruct (bl_sep _ Hbl i j a n a q Hi Hj Hij); lia.
Qed.

Lemma block_apart a n b q : (a, n) ∈ live → (b, q) ∈ live → a ≠ b → offset a + pad n <= offset b ∨ offset b + pad q <= offset a.
Proof using Hbl.
  intros Hn Hq Hab. apply list_elem_of_lookup_1 in Hn as [i Hi]. apply list_elem_of_lookup_1 in Hq as [j Hj].
  apply (bl_sep _ Hbl i j a n b q Hi Hj). intros ->. congruence.
Qed.
End blocks.

Lemma blocks_cons b live : blocks (b :: live) → blocks live.
Proof.
  intros [Hp Hsep]. split.
  - intros a n Hin. apply Hp. by right.
  - intros i j a n c q Hi Hj Hij. apply (Hsep (S i) (S j)); [done..|congruence].
Qed.

(** A new block is apart from the others. *)
Lemma block_new a n live b q :
  blocks ((a, n) :: live) → (b, q) ∈ live → a ≠ b ∧ (offset a + pad n <= offset b ∨ offset b + pad q <= offset a).
Proof.
  intros Hbl Hq. pose proof (block_pad _ Hbl a n ltac:(by left)) as Hpn. pose proof (block_pad _ Hbl b q ltac:(by right)) as Hpq.
  apply list_elem_of_lookup_1 in Hq as [j Hj].
  pose proof (bl_sep _ Hbl 0 (S j) a n b q eq_refl Hj ltac:(done)) as Hsep. split; [|done]. intros ->. lia.
Qed.

Lemma load_word_store_ne {K} `{EqDecision K} (m : mem K) k o v o' :
  o + 8 <= o' ∨ o' + 8 <= o → load_word (store_word m k o v) k o' = load_word m k o'.
Proof.
  intros Ho. unfold load_word, store_word. rewrite load_store_other; [done|right]. rewrite length_le_bytes. lia.
Qed.

(** ** What memory holds *)
Section heap.
Context `{Checksum} (tree_id : Z).

(** The tree's ids leave the root pointers inside the reserved chunk. *)
Definition tree_id_ok : Prop := 0 <= tree_id < kChunkSize / 16.

Definition node0 : region := Reg false 0.

Definition slot_ptr (s : slot) : GlobalAddress :=
  match s with SRoot => get_root_ptr_ptr tree_id | Slot a i => GADD a (page_head + Z.of_nat i * 8) end.

Definition block_size (m : meta) : Z := match m with MNode _ _ => allocationPageSize | MLeaf _ _ _ => sizeof_Leaf end.

Record holds (m : shared_mem) (ent : slot → option InternalEntry) (ob : GlobalAddress → option meta) (live : block_list) : Prop := {
  ho_slot s e : ent s = Some e → load_word m node0 (offset (slot_ptr s)) = entry_val e;
  ho_node a s h : ob a = Some (MNode s h) →
    load_word m node0 (offset a) = gaddr_val (slot_ptr s) ∧ load_word m node0 (offset a + 8) = header_val h;
  ho_leaf a s k v : ob a = Some (MLeaf s k v) →
    load m node0 (offset a) (Z.to_nat sizeof_Leaf) = leaf_bytes (leaf_make k v (slot_ptr s));
  ho_dom a i e : ent (Slot a i) = Some e → (∃ s h, ob a = Some (MNode s h)) ∧ (i < 256)%nat;
  ho_live a m : ob a = Some m → (a, block_size m) ∈ live;
  ho_clean o : kChunkSize <= o → (∀ b, b ∈ live → ¬ inside o 1 b) → m node0 o = 0
}.

Lemma pad_node : pad allocationPageSize = 2304.
Proof. done. Qed.

Lemma pad_leaf : pad sizeof_Leaf = 256.
Proof. done. Qed.

Lemma slot_ptr_ok s : (∀ a i, s = Slot a i → gaddr_ok a) → gaddr_ok (slot_ptr s).
Proof. intros Hs. destruct s as [|a i]; [apply mk_gaddr_ok|]. apply GADD_ok. by eapply Hs. Qed.

Section facts.
Context (Htid : tree_id_ok).
Context (m : shared_mem) (ent : slot → option InternalEntry) (ob : GlobalAddress → option meta) (live : block_list).
Context (Hbl : blocks live) (Hh : holds m ent ob live).

Lemma root_slot_offset : kChunkSize / 2 <= offset (slot_ptr SRoot) ∧ offset (slot_ptr SRoot) + 8 <= kChunkSize.
Proof using Htid.
  cbn [slot_ptr]. unfold get_root_ptr_ptr, mk_gaddr, kRootPointerStoreOffest. cbn [offset].
  unfold tree_id_ok in Htid. change (kChunkSize / 16) with 1048576 in Htid. change (kChunkSize / 2) with 8388608.
  change kChunkSize with 16777216. rewrite wrap_small by (unfold uint; lia). lia.
Qed.

Lemma slot_offset_ok a i n : (a, n) ∈ live → 2064 <= pad n → (i < 256)%nat →
  offset (slot_ptr (Slot a i)) = offset a + (16 + 8 * Z.of_nat i).
Proof using Hbl.
  intros Hin Hn Hi. destruct (bl_place _ Hbl a n Hin) as (_ & [_ Ho] & _ & _ & Hge & Hlt). unfold uint in Ho. cbn [slot_ptr].
  rewrite GADD_offset; unfold page_head; [lia|unfold uint; lia].
Qed.

(** The slots of a node lie in it. *)
Lemma slot_offset a i e : ent (Slot a i) = Some e →
  (a, allocationPageSize) ∈ live ∧ (i < 256)%nat ∧ offset (slot_ptr (Slot a i)) = offset a + (16 + 8 * Z.of_nat i).
Proof using Hbl Hh.
  intros He. destruct (ho_dom _ _ _ _ Hh a i e He) as [(s & h & Ha) Hi].
  pose proof (ho_live _ _ _ _ Hh a _ Ha) as Hin. cbn in Hin. split; [done|]. split; [done|].
  by eapply slot_offset_ok.
Qed.

Lemma slot_node_id s e : ent s = Some e → nodeID (slot_ptr s) = 0 ∧ gaddr_ok (slot_ptr s).
Proof using Hbl Hh.
  destruct s as [|a i]; [split; [done|apply mk_gaddr_ok]|]. intros He.
  destruct (slot_offset a i e He) as (Hin & _). destruct (bl_place _ Hbl a _ Hin) as (_ & Hok & Hn & _).
  split; [done|]. by apply GADD_ok.
Qed.

Lemma obj_place a mt : ob a = Some mt → gaddr_ok a ∧ nodeID a = 0 ∧ (2 ^ ALLOC_ALLIGN_BIT | offset a) ∧
  kChunkSize <= offset a ∧ offset a + pad (block_size mt) < 2 ^ 48 ∧ (a, block_size mt) ∈ live.
Proof using Hbl Hh.
  intros Ha. pose proof (ho_live _ _ _ _ Hh a mt Ha) as Hin.
  destruct (bl_place _ Hbl a _ Hin) as (_ & H1 & H2 & H3 & H4 & H5). by split_and!.
Qed.

(** Different slots lie at different addresses. *)
Lemma slot_ptr_inj s s' e e' : ent s = Some e → ent s' = Some e' → slot_ptr s = slot_ptr s' → s = s'.
Proof using Htid Hbl Hh.
  pose proof root_slot_offset as Hroot. intros He He' E.
  assert (offset (slot_ptr s) = offset (slot_ptr s')) as Eo by by rewrite E.
  destruct s as [|a i], s' as [|b j]; [done|..].
  - destruct (slot_offset b j e' He') as (Hin & _ & Ho). destruct (bl_place _ Hbl b _ Hin) as (_ & _ & _ & _ & Hge & _). lia.
  - destruct (slot_offset a i e He) as (Hin & _ & Ho). destruct (bl_place _ Hbl a _ Hin) as (_ & _ & _ & _ & Hge & _). lia.
  - destruct (slot_offset a i e He) as (Hina & Hi & Hoa), (slot_offset b j e' He') as (Hinb & Hj & Hob).
    destruct (decide (a = b)) as [->|Hab]; [f_equal; lia|].
    destruct (block_apart live Hbl a _ b _ Hina Hinb Hab) as [Hs|Hs]; rewrite pad_node in Hs; lia.
Qed.

(** *** A change inside a block *)
Section frame.
Context (x : GlobalAddress) (n : Z) (m' : shared_mem).
Context (Hx : (x, n) ∈ live) (Hout : ∀ o, ¬ inside o 1 (x, n) → m' node0 o = m node0 o).

Lemma frame_load o w : o + Z.of_nat w <= offset x ∨ offset x + pad n <= o → load m' node0 o w = load m node0 o w.
Proof using Hout. intros Ho. apply load_ext. intros i Hi. apply Hout. unfold inside. cbn. lia. Qed.

Lemma frame_slot s e : ent s = Some e → (∀ i, s ≠ Slot x i) → load_word m' node0 (offset (slot_ptr s)) = entry_val e.
Proof using Htid Hbl Hh Hx Hout.
  intros He Hsx. rewrite <- (ho_slot _ _ _ _ Hh s e He). unfold load_word. rewrite frame_load; [done|].
  destruct s as [|a i].
  - pose proof root_slot_offset. destruct (bl_place _ Hbl x n Hx) as (_ & _ & _ & _ & Hge & _). left. lia.
  - destruct (slot_offset a i e He) as (Hina & Hi & Ho). assert (a ≠ x) as Hax by (intros ->; by destruct (Hsx i)).
    destruct (block_apart live Hbl a _ x n Hina Hx Hax) as [Hs|Hs]; rewrite ?pad_node in Hs; lia.
Qed.

Lemma frame_obj a mt d w : ob a = Some mt → a ≠ x → 0 <= d → d + Z.of_nat w <= pad (block_size mt) →
  load m' node0 (offset a + d) w = load m node0 (offset a + d) w.
Proof using Hbl Hh Hx Hout.
  intros Ha Hax Hd Hw. apply frame_load.
  destruct (block_apart live Hbl a _ x n (ho_live _ _ _ _ Hh a mt Ha) Hx Hax); lia.
Qed.

Lemma frame_clean o' : kChunkSize <= o' → (∀ b, b ∈ live → ¬ inside o' 1 b) → m' node0 o' = 0.
Proof using Hh Hx Hout.
  intros Ho Hb. rewrite Hout; [by apply (ho_clean _ _ _ _ Hh)|by apply Hb].
Qed.

Lemma frame_node a s h : ob a = Some (MNode s h) → a ≠ x →
  load_word m' node0 (offset a) = gaddr_val (slot_ptr s) ∧ load_word m' node0 (offset a + 8) = header_val h.
Proof using Hbl Hh Hx Hout.
  intros Ha Hax. destruct (ho_node _ _ _ _ Hh a s h Ha) as [<- <-]. unfold load_word.
  assert (0 + Z.of_nat 8 <= pad (block_size (MNode s h)) ∧ 8 + Z.of_nat 8 <= pad (block_size (MNode s h))) as [H0 H8].
  { cbn [block_size]. rewrite pad_node. lia. }
  pose proof (frame_obj a (MNode s h) 0 8 Ha Hax ltac:(lia) H0) as E0. rewrite Z.add_0_r in E0.
  by rewrite E0, (frame_obj a (MNode s h) 8 8 Ha Hax ltac:(lia) H8).
Qed.

Lemma frame_leaf a s k v : ob a = Some (MLeaf s k v) → a ≠ x →
  load m' node0 (offset a) (Z.to_nat sizeof_Leaf) = leaf_bytes (leaf_make k v (slot_ptr s)).
Proof using Hbl Hh Hx Hout.
  intros Ha Hax. rewrite <- (ho_leaf _ _ _ _ Hh a s k v Ha). rewrite <- (Z.add_0_r (offset a)).
  apply (frame_obj a (MLeaf s k v)); [done|done|lia|]. cbn [block_size]. rewrite pad_leaf. vm_compute. by intros [=].
Qed.
End frame.

Lemma store_out x n o bs : inside o (length bs) (x, n) → ∀ o', ¬ inside o' 1 (x, n) → store m node0 o bs node0 o' = m node0 o'.
Proof. unfold inside. cbn. intros Hin o' Ho. apply store_outside. right. lia. Qed.

(** *** The stores of an insertion *)

(** A store into a block that no object uses. *)
Lemma holds_fresh_store x n o bs :
  (x, n) ∈ live → ob x = None → inside o (length bs) (x, n) → holds (store m node0 o bs) ent ob live.
Proof using Htid Hbl Hh.
  intros Hx Hnone Hin. assert (∀ a mt, ob a = Some mt → a ≠ x) as Hne by (intros a mt Ha ->; congruence). split.
  - intros s e He. eapply frame_slot; [exact Hx|exact (store_out _ _ _ _ Hin)|done|]. intros i ->.
    destruct (ho_dom _ _ _ _ Hh x i e He) as [(? & ? & ?) _]. congruence.
  - intros a s h Ha. eapply frame_node; [exact Hx|exact (store_out _ _ _ _ Hin)|eauto..].
  - intros a s k v Ha. eapply frame_leaf; [exact Hx|exact (store_out _ _ _ _ Hin)|eauto..].
  - apply (ho_dom _ _ _ _ Hh).
  - apply (ho_live _ _ _ _ Hh).
  - intros o' Ho Hb. eapply frame_clean; [exact Hx|exact (store_out _ _ _ _ Hin)|done..].
Qed.

Lemma word_inside x n d v : (x, n) ∈ live → 0 <= d → d + 8 <= pad n → inside (offset x + d) (length (le_bytes 8 v)) (x, n).
Proof. intros Hx Hd Hle. unfold inside. rewrite length_le_bytes. cbn. lia. Qed.

(** Another entry at a slot. *)
Lemma holds_slot s e0 e :
  ent s = Some e0 → entry_ok e →
  holds (store_word m node0 (offset (slot_ptr s)) (entry_val e)) (<[s := Some e]> ent) ob live.
Proof using Htid Hbl Hh.
  intros He0 Hok. pose proof (entry_val_range e Hok) as Hv.
  assert (Hdom : ∀ a i e', <[s:=Some e]> ent (Slot a i) = Some e' → (∃ s h, ob a = Some (MNode s h)) ∧ (i < 256)%nat).
  { intros a i e'. destruct (decide (s = Slot a i)) as [->|Hne]; [|rewrite fn_lookup_insert_ne by done; apply (ho_dom _ _ _ _ Hh)].
    intros _. by apply (ho_dom _ _ _ _ Hh a i e0). }
  destruct s as [|a i].
  - pose proof root_slot_offset as [Hr1 Hr2]. set (m' := store_word _ _ _ _).
    assert (Hout : ∀ o n, kChunkSize <= o → load m' node0 o n = load m node0 o n).
    { intros o n Ho. apply load_store_other. right. right. rewrite length_le_bytes. lia. }
    assert (Hobj : ∀ b mt, ob b = Some mt → kChunkSize <= offset b) by (intros b mt Hb; apply (obj_place b mt Hb)).
    split; [| | |done|apply (ho_live _ _ _ _ Hh)|].
    + intros t et. destruct (decide (SRoot = t)) as [<-|Hne]; [rewrite fn_lookup_insert; intros [= <-]; by apply load_store_word|].
      rewrite fn_lookup_insert_ne by done. intros Ht. rewrite <- (ho_slot _ _ _ _ Hh t et Ht). destruct t as [|b j]; [done|].
      destruct (slot_offset b j et Ht) as (Hb & _ & Ho). unfold load_word. rewrite Hout; [done|].
      destruct (bl_place _ Hbl b _ Hb) as (_ & _ & _ & _ & Hge & _). lia.
    + intros b sb h Hb. destruct (ho_node _ _ _ _ Hh b sb h Hb) as [<- <-]. pose proof (Hobj _ _ Hb).
      unfold load_word. by rewrite !Hout by lia.
    + intros b sb k v Hb. rewrite <- (ho_leaf _ _ _ _ Hh b sb k v Hb). apply Hout. by apply (Hobj _ _ Hb).
    + intros o Ho Hb. rewrite <- (ho_clean _ _ _ _ Hh o Ho Hb). apply store_outside. right. right. rewrite length_le_bytes. lia.
  - destruct (slot_offset a i e0 He0) as (Ha & Hi & Ho). rewrite Ho.
    assert (Hin : inside (offset a + (16 + 8 * Z.of_nat i)) (length (le_bytes 8 (entry_val e))) (a, allocationPageSize)).
    { apply word_inside; [done|lia|]. rewrite pad_node. lia. }
    destruct (ho_dom _ _ _ _ Hh a i e0 He0) as [(sa & ha & Hoa) _].
    assert (Hleaf : ∀ b sb k v, ob b = Some (MLeaf sb k v) → b ≠ a) by (intros b sb k v Hb ->; congruence).
    split; [| | |done|apply (ho_live _ _ _ _ Hh)|].
    + intros t et. destruct (decide (Slot a i = t)) as [<-|Hne].
      { rewrite fn_lookup_insert. intros [= <-]. rewrite Ho. by apply load_store_word. }
      rewrite fn_lookup_insert_ne by done. intros Ht. destruct (slot_of_dec a t) as [[j ->]|Hno].
      * destruct (slot_offset a j et Ht) as (_ & Hj & Hoj). rewrite Hoj, load_word_store_ne by (assert (i ≠ j) by congruence; lia).
        rewrite <- Hoj. by apply (ho_slot _ _ _ _ Hh).
      * eapply frame_slot; [exact Ha|exact (store_out _ _ _ _ Hin)|done|done].
    + intros b sb h Hb. destruct (decide (b = a)) as [->|Hba]; [|eapply frame_node; [exact Ha|exact (store_out _ _ _ _ Hin)|done..]].
      rewrite !load_word_store_ne by lia. by apply (ho_node _ _ _ _ Hh).
    + intros b sb k v Hb. eapply frame_leaf; [exact Ha|exact (store_out _ _ _ _ Hin)|done|by eapply Hleaf].
    + intros o Hoc Hb. eapply frame_clean; [exact Ha|exact (store_out _ _ _ _ Hin)|done..].
Qed.

(** Another slot that points to an object. *)
Definition move (s : slot) (mt : meta) : meta := match mt with MNode _ h => MNode s h | MLeaf _ k v => MLeaf s k v end.

Lemma leaf_bytes_rev k v p : leaf_bytes (leaf_make k v p) = le_bytes 8 (gaddr_val p) ++ drop 8 (leaf_bytes (leaf_make k v gaddr_Null)).
Proof. unfold leaf_bytes. rewrite drop_app_length' by (by rewrite length_le_bytes). done. Qed.

Lemma holds_rev x mt s' :
  ob x = Some mt → gaddr_ok (slot_ptr s') →
  holds (store_word m node0 (offset x) (gaddr_val (slot_ptr s'))) ent (<[x := Some (move s' mt)]> ob) live.
Proof using Htid Hbl Hh.
  intros Hx Hok. pose proof (ho_live _ _ _ _ Hh x mt Hx) as Hxl. pose proof (gaddr_val_range _ Hok) as Hv.
  assert (Hin : inside (offset x) (length (le_bytes 8 (gaddr_val (slot_ptr s')))) (x, block_size mt)).
  { rewrite <- (Z.add_0_r (offset x)). apply word_inside; [done|lia|]. destruct mt; cbn [block_size]; rewrite ?pad_node, ?pad_leaf; lia. }
  assert (Hob : ∀ a ma, <[x := Some (move s' mt)]> ob a = Some ma → a = x ∧ ma = move s' mt ∨ a ≠ x ∧ ob a = Some ma).
  { intros a ma. destruct (decide (x = a)) as [<-|Hne]; [rewrite fn_lookup_insert|rewrite fn_lookup_insert_ne by done]; naive_solver. }
  split.
  - intros t et Ht. destruct (slot_of_dec x t) as [[j ->]|Hno]; [|eapply frame_slot; [exact Hxl|exact (store_out _ _ _ _ Hin)|done|done]].
    destruct (slot_offset x j et Ht) as (_ & Hj & Hoj). rewrite Hoj, load_word_store_ne by lia.
    rewrite <- Hoj. by apply (ho_slot _ _ _ _ Hh).
  - intros a s h [[-> E]|[Hax Ha]]%Hob; [|eapply frame_node; [exact Hxl|exact (store_out _ _ _ _ Hin)|done..]]. destruct mt as [s0 h0|]; cbn in E; [|done]. injection E as -> ->.
    split; [by apply load_store_word|]. rewrite load_word_store_ne by lia. by apply (ho_node _ _ _ _ Hh x s0).
  - intros a s k v [[-> E]|[Hax Ha]]%Hob; [|eapply frame_leaf; [exact Hxl|exact (store_out _ _ _ _ Hin)|done..]]. destruct mt as [|s0 k0 v0]; cbn in E; [done|]. injection E as -> -> ->.
    pose proof (ho_leaf _ _ _ _ Hh x s0 k0 v0 Hx) as Hl. change (Z.to_nat sizeof_Leaf) with (8 + 26)%nat in *.
    rewrite load_split in *. unfold store_word.
    pose proof (load_store_same m node0 (offset x) (le_bytes 8 (gaddr_val (slot_ptr s')))) as Hs. rewrite length_le_bytes in Hs.
    rewrite Hs, load_store_other by (rewrite length_le_bytes; lia). rewrite leaf_bytes_rev in Hl |- *.
    apply app_inj_1 in Hl as [_ Hl]; [by rewrite Hl|by rewrite length_load, length_le_bytes].
  - intros a i e He. destruct (ho_dom _ _ _ _ Hh a i e He) as [(s & h & Ha) Hi]. split; [|done].
    destruct (decide (x = a)) as [<-|Hne]; [rewrite fn_lookup_insert|rewrite fn_lookup_insert_ne by done; eauto].
    rewrite Hx in Ha. injection Ha as ->. cbn. eauto.
  - intros a ma [[-> ->]|[_ Ha]]%Hob; [destruct mt; exact Hxl|by apply (ho_live _ _ _ _ Hh)].
  - intros o Ho Hb. eapply frame_clean; [exact Hxl|exact (store_out _ _ _ _ Hin)|done..].
Qed.

(** Another header of a node. *)
Lemma holds_header x s h h' :
  ob x = Some (MNode s h) → header_ok h' →
  holds (store_word m node0 (offset x + 8) (header_val h')) ent (<[x := Some (MNode s h')]> ob) live.
Proof using Htid Hbl Hh.
  intros Hx Hok. pose proof (ho_live _ _ _ _ Hh x _ Hx) as Hxl. cbn in Hxl.
  assert (Hin : inside (offset x + 8) (length (le_bytes 8 (header_val h'))) (x, allocationPageSize)).
  { apply word_inside; [done|lia|]. rewrite pad_node. lia. }
  assert (Hob : ∀ a ma, <[x := Some (MNode s h')]> ob a = Some ma → a = x ∧ ma = MNode s h' ∨ a ≠ x ∧ ob a = Some ma).
  { intros a ma. destruct (decide (x = a)) as [<-|Hne]; [rewrite fn_lookup_insert|rewrite fn_lookup_insert_ne by done]; naive_solver. }
  split.
  - intros t et Ht. destruct (slot_of_dec x t) as [[j ->]|Hno]; [|eapply frame_slot; [exact Hxl|exact (store_out _ _ _ _ Hin)|done|done]].
    destruct (slot_offset x j et Ht) as (_ & Hj & Hoj). rewrite Hoj, load_word_store_ne by lia.
    rewrite <- Hoj. by apply (ho_slot _ _ _ _ Hh).
  - intros a sa ha [[-> [= -> ->]]|[Hax Ha]]%Hob; [|eapply frame_node; [exact Hxl|exact (store_out _ _ _ _ Hin)|done..]].
    rewrite load_store_word by by apply header_val_range. rewrite load_word_store_ne by lia. split; [|done].
    by apply (ho_node _ _ _ _ Hh x s h).
  - intros a sa k v [[_ ?]|[Hax Ha]]%Hob; [done|eapply frame_leaf; [exact Hxl|exact (store_out _ _ _ _ Hin)|done..]].
  - intros a i e He. destruct (ho_dom _ _ _ _ Hh a i e He) as [(sa & ha & Ha) Hi]. split; [|done].
    destruct (decide (x = a)) as [<-|Hne]; [rewrite fn_lookup_insert; eauto|rewrite fn_lookup_insert_ne by done; eauto].
  - intros a ma [[-> ->]|[_ Ha]]%Hob; [exact Hxl|by apply (ho_live _ _ _ _ Hh)].
  - intros o Ho Hb. eapply frame_clean; [exact Hxl|exact (store_out _ _ _ _ Hin)|done..].
Qed.

(** Another value of a leaf: whatever else changes in its block. *)
Lemma holds_value x s k v v' m' :
  ob x = Some (MLeaf s k v) → (∀ o, ¬ inside o 1 (x, sizeof_Leaf) → m' node0 o = m node0 o) →
  load m' node0 (offset x) (Z.to_nat sizeof_Leaf) = leaf_bytes (leaf_make k v' (slot_ptr s)) →
  holds m' ent (<[x := Some (MLeaf s k v')]> ob) live.
Proof using Htid Hbl Hh.
  intros Hx Hout Hl. pose proof (ho_live _ _ _ _ Hh x _ Hx) as Hxl. cbn in Hxl.
  assert (Hob : ∀ a ma, <[x := Some (MLeaf s k v')]> ob a = Some ma → a = x ∧ ma = MLeaf s k v' ∨ a ≠ x ∧ ob a = Some ma).
  { intros a ma. destruct (decide (x = a)) as [<-|Hne]; [rewrite fn_lookup_insert|rewrite fn_lookup_insert_ne by done]; naive_solver. }
  split.
  - intros t et Ht. eapply frame_slot; [exact Hxl|exact Hout|done|]. intros i ->.
    destruct (ho_dom _ _ _ _ Hh x i et Ht) as [(? & ? & ?) _]. congruence.
  - intros a sa ha [[_ ?]|[Hax Ha]]%Hob; [done|]. eapply frame_node; [exact Hxl|exact Hout|done..].
  - intros a sa ka va [[-> [= -> -> ->]]|[Hax Ha]]%Hob; [done|]. eapply frame_leaf; [exact Hxl|exact Hout|done..].
  - intros a i e He. destruct (ho_dom _ _ _ _ Hh a i e He) as [(sa & ha & Ha) Hi]. split; [|done].
    rewrite fn_lookup_insert_ne by congruence. eauto.
  - intros a ma [[-> ->]|[_ Ha]]%Hob; [exact Hxl|by apply (ho_live _ _ _ _ Hh)].
  - intros o Ho Hb. eapply frame_clean; [exact Hxl|exact Hout|done..].
Qed.

(** A fresh leaf. *)
Lemma holds_new_leaf l s k v :
  (l, sizeof_Leaf) ∈ live → ob l = None →
  load m node0 (offset l) (Z.to_nat sizeof_Leaf) = leaf_bytes (leaf_make k v (slot_ptr s)) →
  holds m ent (<[l := Some (MLeaf s k v)]> ob) live.
Proof using Hh.
  intros Hl Hnone Hload.
  assert (Hob : ∀ a ma, <[l := Some (MLeaf s k v)]> ob a = Some ma → a = l ∧ ma = MLeaf s k v ∨ a ≠ l ∧ ob a = Some ma).
  { intros a ma. destruct (decide (l = a)) as [<-|Hne]; [rewrite fn_lookup_insert|rewrite fn_lookup_insert_ne by done]; naive_solver. }
  split; [apply (ho_slot _ _ _ _ Hh)| | | | |apply (ho_clean _ _ _ _ Hh)].
  - intros a sa ha [[_ ?]|[_ Ha]]%Hob; [done|]. by apply (ho_node _ _ _ _ Hh).
  - intros a sa ka va [[-> [= -> -> ->]]|[_ Ha]]%Hob; [done|]. by apply (ho_leaf _ _ _ _ Hh).
  - intros a i e He. destruct (ho_dom _ _ _ _ Hh a i e He) as [(sa & ha & Ha) Hi]. split; [|done].
    rewrite fn_lookup_insert_ne by congruence. eauto.
  - intros a ma [[-> ->]|[_ Ha]]%Hob; [done|by apply (ho_live _ _ _ _ Hh)].
Qed.

(** A fresh node. *)
Lemma holds_new_node c s h ent' :
  (c, allocationPageSize) ∈ live → ob c = None →
  load_word m node0 (offset c) = gaddr_val (slot_ptr s) → load_word m node0 (offset c + 8) = header_val h →
  (∀ t, (∀ i, t ≠ Slot c i) → ent' t = ent t) →
  (∀ i e, ent' (Slot c i) = Some e → (i < 256)%nat ∧ load_word m node0 (offset c + (16 + 8 * Z.of_nat i)) = entry_val e) →
  holds m ent' (<[c := Some (MNode s h)]> ob) live.
Proof using Hbl Hh.
  intros Hc Hnone Hrev Hhdr Hold Hnew.
  assert (Hob : ∀ a ma, <[c := Some (MNode s h)]> ob a = Some ma → a = c ∧ ma = MNode s h ∨ a ≠ c ∧ ob a = Some ma).
  { intros a ma. destruct (decide (c = a)) as [<-|Hne]; [rewrite fn_lookup_insert|rewrite fn_lookup_insert_ne by done]; naive_solver. }
  split; [| | | | |apply (ho_clean _ _ _ _ Hh)].
  - intros t et Ht. destruct (slot_of_dec c t) as [[i ->]|Hno].
    + destruct (Hnew i et Ht) as [Hi <-]. by rewrite (slot_offset_ok c i _ Hc) by (rewrite ?pad_node; done).
    + rewrite Hold in Ht by done. by apply (ho_slot _ _ _ _ Hh).
  - intros a sa ha [[-> [= -> ->]]|[_ Ha]]%Hob; [done|]. by apply (ho_node _ _ _ _ Hh).
  - intros a sa ka va [[_ ?]|[_ Ha]]%Hob; [done|]. by apply (ho_leaf _ _ _ _ Hh).
  - intros a i e He. destruct (decide (c = a)) as [<-|Hne].
    + rewrite fn_lookup_insert. split; [eauto|]. by eapply Hnew.
    + rewrite fn_lookup_insert_ne by done. rewrite Hold in He by congruence. by apply (ho_dom _ _ _ _ Hh a i e).
  - intros a ma [[-> ->]|[_ Ha]]%Hob; [done|by apply (ho_live _ _ _ _ Hh)].
Qed.

(** *** Reading *)
Lemma read_leaf_at a s k v : ob a = Some (MLeaf s k v) → key_ok k → uint 64 v → gaddr_ok (slot_ptr s) →
  leaf_of_bytes (load m (dsm_region a) (offset a) (Z.to_nat sizeof_Leaf)) = leaf_make k v (slot_ptr s).
Proof using Hbl Hh.
  intros Ha Hk Hv Hs. destruct (obj_place a _ Ha) as (_ & Hn & _). unfold dsm_region. rewrite Hn. fold node0.
  rewrite (ho_leaf _ _ _ _ Hh a s k v Ha). apply leaf_of_bytes_bytes.
  unfold leaf_ok, leaf_make, set_consistent. cbn. split; [done|]. split; [done|]. split; [apply crc64_range|]. done.
Qed.

Lemma read_page_at a s h : ob a = Some (MNode s h) → header_ok h → gaddr_ok (slot_ptr s) →
  pg_rev_ptr (page_at m a 256) = slot_ptr s ∧ pg_hdr (page_at m a 256) = h ∧
  ∀ i e, ent (Slot a i) = Some e → entry_ok e → pg_records (page_at m a 256) !! i = Some e.
Proof using Hbl Hh.
  intros Ha Hok Hs. destruct (obj_place a _ Ha) as (_ & Hn & _). destruct (ho_node _ _ _ _ Hh a s h Ha) as [Hr Hhd].
  assert (dsm_region a = node0) as Hreg by (unfold dsm_region; by rewrite Hn).
  split; [|split].
  - unfold page_at. cbn [pg_rev_ptr]. rewrite Hreg, Z.add_0_r, Hr. by apply gaddr_of_val_val.
  - unfold page_at. cbn [pg_hdr]. rewrite Hreg, Hhd. by apply header_of_val_val.
  - intros i e He Heok. destruct (slot_offset a i e He) as (_ & Hi & Ho).
    rewrite page_at_records, Hreg, <- Ho, (ho_slot _ _ _ _ Hh _ _ He) by done. by rewrite entry_of_val_val.
Qed.

Lemma read_slot_at s e : ent s = Some e → entry_ok e →
  entry_of_val (load_word m (dsm_region (slot_ptr s)) (offset (slot_ptr s))) = e.
Proof using Hbl Hh.
  intros He Hok. destruct (slot_node_id s e He) as [Hn _]. unfold dsm_region. rewrite Hn. fold node0.
  rewrite (ho_slot _ _ _ _ Hh s e He). by apply entry_of_val_val.
Qed.
End facts.

(** More blocks, all of them still zero. *)
Lemma holds_more m ent ob live b : holds m ent ob live → holds m ent ob (b :: live).
Proof.
  intros Hh. split; try apply Hh.
  - intros a mt Ha. right. by apply (ho_live _ _ _ _ Hh).
  - intros o Ho Hb. apply (ho_clean _ _ _ _ Hh); [done|]. intros c Hc. apply Hb. by right.
Qed.

Lemma new_block_zero m ent ob live a n o w :
  holds m ent ob live → blocks ((a, n) :: live) → inside o w (a, n) → load m node0 o w = replicate w 0.
Proof.
  intros Hh Hbl [H1 H2]. cbn in H1, H2. destruct (bl_place _ Hbl a n ltac:(by left)) as (_ & _ & _ & _ & Hge & _).
  apply list_eq_same_length with w; rewrite ?length_load, ?length_replicate; [done..|].
  intros i x y Hi. rewrite lookup_load, lookup_replicate_2 by done. intros [= <-] [= <-].
  apply (ho_clean _ _ _ _ Hh); [lia|]. intros [b q] Hb [H3 H4]. cbn in H3, H4.
  destruct (block_new a n live b q Hbl Hb) as [_ Hd]. lia.
Qed.

Lemma new_block_free m ent ob live a n : holds m ent ob live → blocks ((a, n) :: live) → ob a = None.
Proof.
  intros Hh Hbl. destruct (ob a) as [mt|] eqn:Ha; [|done].
  by destruct (block_new a n live a (block_size mt) Hbl (ho_live _ _ _ _ Hh a mt Ha)).
Qed.

Lemma holds_ext m m' ent ent' ob ob' live :
  holds m ent ob live → m' ≡ m → (∀ t, ent' t = ent t) → (∀ a, ob' a = ob a) → holds m' ent' ob' live.
Proof.
  intros Hh Hm He Hob. split.
  - intros s e. rewrite He, Hm. apply (ho_slot _ _ _ _ Hh).
  - intros a s h. rewrite Hob, Hm. apply (ho_node _ _ _ _ Hh).
  - intros a s k v. rewrite Hob, Hm. apply (ho_leaf _ _ _ _ Hh).
  - intros a i e. rewrite He, Hob. apply (ho_dom _ _ _ _ Hh).
  - intros a mt. rewrite Hob. apply (ho_live _ _ _ _ Hh).
  - intros o Ho Hb. rewrite (Hm node0 o). by apply (ho_clean _ _ _ _ Hh).
Qed.
End heap.
