(* ===== verification/TreeState.v ===== *)
(** * The state of a client of the tree

    [mem_inv] ties the memory, the allocators and the stale buffers of a world
    to the entries and objects of the tree; [cached] says what the index cache
    may hold of the tree: pages that were read at some time, whose records were
    entries of their slots. An insertion only makes the tree grow ([grows]), so
    that what was cached before stays true in this sense. *)

From Stdlib Require Import ZArith Lia Bool.
From stdpp Require Import base tactics decidable option numbers functions list gmap.
From S2P Require Import Prelude.
From S2P Require Import Common.
From S2P Require Import Keys.
From S2P Require Import Address.
From S2P Require Import Nodes.
From S2P Require Import Allocators.
From S2P Require Import Memory.
From S2P Require Import Process.
From S2P Require Import LockTable.
From S2P Require Import IndexCache.
From S2P Require Import Tree.
From S2P Require Import TreeSearch.
From S2P Require Import TreeShape.
From S2P Require Import TreeHeap.

(** ** What the cache knows *)
Section known.
Implicit Types ent : slot → option InternalEntry.
Implicit Types ob : GlobalAddress → option meta.
Implicit Types P : GlobalAddress → list byte.

(** [e] was the entry of slot [s] at some time. *)
Definition known ent ob (s : slot) (e : InternalEntry) : Prop :=
  (∃ e', ent s = Some e' ∧ e' ≠ entry_Null ∧ e_partial e' = e_partial e) ∧
  match ob (e_addr e) with
  | Some (MLeaf _ _ _) => e = entry_leaf (e_partial e) leaf_kv_len (e_addr e)
  | Some (MNode _ h) => ∃ t, e = entry_node (e_partial e) t (e_addr e) ∧ 1 <= t <= h_node_type h
  | None => False
  end.

(** The page [p] was read at [addr] on the way to [k0]. *)
Definition cached P ent ob (k0 : Key) (p : InternalPage) (addr : GlobalAddress) : Prop :=
  ∃ a s h, ob a = Some (MNode s h) ∧ addr = GADD a page_head ∧ cache_key k0 p = Ok (P a) ∧
    ∀ i e, pg_records p !! i = Some e → Z.of_nat i < node_type_to_num (h_node_type (pg_hdr p)) → e ≠ entry_Null →
      known ent ob (Slot a i) e.

(** Two keys go through the node at [a]. *)
Definition leaf_key ob (k : Key) : Prop := ∃ a s v, ob a = Some (MLeaf s k v).

Definition fork P ob (a : GlobalAddress) : Prop :=
  ∃ k1 k2, k1 ≠ k2 ∧ leaf_key ob k1 ∧ leaf_key ob k2 ∧ P a `prefix_of` k1 ∧ P a `prefix_of` k2.

(** No node is on the way to a single key. *)
Definition forked P ob : Prop := ∀ a s h, ob a = Some (MNode s h) → fork P ob a.

(** What was there stays, and two keys go through every new node but those of [X]. *)
Record grows_but (X : GlobalAddress → Prop) P ent ob P' ent' ob' : Prop := {
  gr_node a s h : ob a = Some (MNode s h) → ∃ s' h', ob' a = Some (MNode s' h') ∧ h_node_type h <= h_node_type h' ∧ P' a = P a;
  gr_leaf a s k v : ob a = Some (MLeaf s k v) → ∃ s' v', ob' a = Some (MLeaf s' k v');
  gr_ent s e : ent s = Some e → e ≠ entry_Null → ∃ e', ent' s = Some e' ∧ e' ≠ entry_Null ∧ e_partial e' = e_partial e;
  gr_new a s h : ob' a = Some (MNode s h) → (∃ s0 h0, ob a = Some (MNode s0 h0)) ∨ X a ∨ fork P' ob' a
}.
#[local] Abbreviation grows := (grows_but (λ _, False)).

Lemma grows_refl X P ent ob : grows_but X P ent ob P ent ob.
Proof. split; eauto. intros a s h Ha. exists s, h. split_and!; [done|lia|done]. Qed.

Lemma grows_weaken (X Y : GlobalAddress → Prop) P ent ob P' ent' ob' :
  (∀ a, X a → Y a) → grows_but X P ent ob P' ent' ob' → grows_but Y P ent ob P' ent' ob'.
Proof. intros HXY [H1 H2 H3 H4]. split; [done..|]. intros a s h Ha. destruct (H4 a s h Ha) as [?|[?|?]]; auto. Qed.

(** The nodes that were left out have two keys in the end. *)
Lemma grows_close X P ent ob P' ent' ob' :
  grows_but X P ent ob P' ent' ob' → (∀ a, X a → fork P' ob' a) → grows P ent ob P' ent' ob'.
Proof. intros [H1 H2 H3 H4] HX. split; [done..|]. intros a s h Ha. destruct (H4 a s h Ha) as [?|[?|?]]; auto. Qed.

Lemma leaf_key_grows X P ent ob P' ent' ob' k : grows_but X P ent ob P' ent' ob' → leaf_key ob k → leaf_key ob' k.
Proof. intros Hg (a & s & v & Ha). destruct (gr_leaf _ _ _ _ _ _ _ Hg a s k v Ha) as (s' & v' & Ha'). by exists a, s', v'. Qed.

Lemma fork_grows X P ent ob P' ent' ob' a s h :
  grows_but X P ent ob P' ent' ob' → ob a = Some (MNode s h) → fork P ob a → fork P' ob' a.
Proof.
  intros Hg Ha (k1 & k2 & Hne & Hk1 & Hk2 & Hp1 & Hp2). destruct (gr_node _ _ _ _ _ _ _ Hg a s h Ha) as (_ & _ & _ & _ & EP).
  exists k1, k2. rewrite EP. split_and!; try done; by eapply leaf_key_grows.
Qed.

Lemma forked_grows P ent ob P' ent' ob' : grows P ent ob P' ent' ob' → forked P ob → forked P' ob'.
Proof.
  intros Hg Hf a s h Ha. destruct (gr_new _ _ _ _ _ _ _ Hg a s h Ha) as [(s0 & h0 & Ha0)|[[]|?]]; [|done].
  by eapply fork_grows; [exact Hg|exact Ha0|eapply Hf].
Qed.

Lemma grows_trans X P1 ent1 ob1 P2 ent2 ob2 P3 ent3 ob3 :
  grows_but X P1 ent1 ob1 P2 ent2 ob2 → grows_but X P2 ent2 ob2 P3 ent3 ob3 → grows_but X P1 ent1 ob1 P3 ent3 ob3.
Proof.
  intros H12 H23. split.
  - intros a s h Ha. destruct (gr_node _ _ _ _ _ _ _ H12 a s h Ha) as (s2 & h2 & Ha2 & Ht2 & E2).
    destruct (gr_node _ _ _ _ _ _ _ H23 a s2 h2 Ha2) as (s3 & h3 & Ha3 & Ht3 & E3). exists s3, h3.
    split_and!; [done|lia|congruence].
  - intros a s k v Ha. destruct (gr_leaf _ _ _ _ _ _ _ H12 a s k v Ha) as (s2 & v2 & Ha2). by eapply (gr_leaf _ _ _ _ _ _ _ H23).
  - intros s e He Hne. destruct (gr_ent _ _ _ _ _ _ _ H12 s e He Hne) as (e2 & He2 & Hn2 & Ep2).
    destruct (gr_ent _ _ _ _ _ _ _ H23 s e2 He2 Hn2) as (e3 & He3 & Hn3 & Ep3). exists e3. split_and!; [done..|congruence].
  - intros a s h Ha. destruct (gr_new _ _ _ _ _ _ _ H23 a s h Ha) as [(s2 & h2 & Ha2)|[?|?]]; [|by auto..].
    destruct (gr_new _ _ _ _ _ _ _ H12 a s2 h2 Ha2) as [?|[?|Hf]]; [by auto..|]. right. right. by eapply fork_grows.
Qed.

Lemma known_grows X P ent ob P' ent' ob' s e : grows_but X P ent ob P' ent' ob' → known ent ob s e → known ent' ob' s e.
Proof.
  intros Hg [(e' & He' & Hne & Hp) Ht]. split.
  - destruct (gr_ent _ _ _ _ _ _ _ Hg s e' He' Hne) as (e2 & He2 & Hn2 & Ep2). exists e2. split_and!; [done..|congruence].
  - destruct (ob (e_addr e)) as [[sa h|sa k v]|] eqn:Ea; [| |done].
    + destruct (gr_node _ _ _ _ _ _ _ Hg _ _ _ Ea) as (s' & h' & -> & Hty & _). destruct Ht as (t & Et & Hle).
      exists t. split; [done|lia].
    + by destruct (gr_leaf _ _ _ _ _ _ _ Hg _ _ _ _ Ea) as (s' & v' & ->).
Qed.

Lemma cached_grows X P ent ob P' ent' ob' k0 p addr :
  grows_but X P ent ob P' ent' ob' → cached P ent ob k0 p addr → cached P' ent' ob' k0 p addr.
Proof.
  intros Hg (a & s & h & Ha & Haddr & Hkey & Hrec).
  destruct (gr_node _ _ _ _ _ _ _ Hg a s h Ha) as (s' & h' & Ha' & _ & EP). exists a, s', h'.
  split; [done|]. split; [done|]. split; [by rewrite EP|]. intros i e Hi Hlt Hne. eapply known_grows; [exact Hg|by apply Hrec].
Qed.

(** The current entry of a slot is known, and what is known of a slot that
    still points to the target is current, but for the type. *)
Lemma known_current P ent ob s e : shape P ent ob → ent s = Some e → e ≠ entry_Null → known ent ob s e.
Proof.
  intros Hs He Hne. pose proof (sh_child _ _ _ Hs s e He Hne) as Hc. split; [eauto|].
  destruct (ob (e_addr e)) as [[sa h|sa k v]|] eqn:Ea; [| |done].
  - destruct Hc as (_ & Ee & _). exists (h_node_type h). split; [done|].
    destruct (sh_node _ _ _ Hs _ _ _ Ea) as (_ & Ht & _). lia.
  - by destruct Hc as (_ & Ee & _).
Qed.

Lemma known_here P ent ob s e m :
  shape P ent ob → known ent ob s e → ob (e_addr e) = Some m → m_slot m = s →
  ∃ e', ent s = Some e' ∧ e' ≠ entry_Null ∧ e_partial e' = e_partial e ∧ e_addr e' = e_addr e ∧
        match m with
        | MNode _ h => e' = entry_node (e_partial e) (h_node_type h) (e_addr e)
        | MLeaf _ _ _ => e' = e
        end.
Proof.
  intros Hs [(e1 & He1 & Hn1 & Hp1) Ht] Hm Hsl. destruct (sh_parent _ _ _ Hs _ m Hm) as (e' & He' & Hne' & Ha').
  rewrite Hsl, He1 in He'. injection He' as ->. rewrite Hm in Ht. pose proof (sh_child _ _ _ Hs s e' He1 Hne') as Hc.
  rewrite Ha', Hm in Hc. exists e'. do 4 (split; [done|]). destruct m as [sa h|sa k v].
  - destruct Hc as (_ & Ee & _). by rewrite Ha', Hp1 in Ee.
  - destruct Hc as (_ & Ee & _). rewrite Ha', Hp1 in Ee. by rewrite Ee.
Qed.

(** A page as it is now is right for the cache. *)
Lemma cached_current P ent ob k p a s h :
  shape P ent ob → ob a = Some (MNode s h) → pg_hdr p = h → take (Z.to_nat (h_depth h - 1)) (P a) `prefix_of` k →
  (∀ i e, pg_records p !! i = Some e → (i < cnt h)%nat → e ≠ entry_Null → ent (Slot a i) = Some e) →
  cached P ent ob k p (GADD a page_head).
Proof.
  intros Hs Ha Hp Hk Hrec. destruct (sh_node _ _ _ Hs a s h Ha) as (Hok & Ht & Hd & Hpl & Hle & Hlen & Hpart).
  exists a, s, h. split; [done|]. split; [done|]. split.
  - unfold cache_key. rewrite Hp. unfold hPartialLenMax, keyLen in *.
    destruct Hok as (_ & _ & Hpl0 & _). unfold uint in Hpl0.
    rewrite !(proj2 (Z.leb_le _ _)) by lia. cbn [andb defined mbind res_bind]. f_equal. rewrite Hpart.
    destruct Hk as [r ->]. rewrite take_app_length' by (rewrite length_take; lia). by rewrite take_drop.
  - intros i e Hi Hlt Hne. apply (known_current P); [done| |done]. apply Hrec; [done| |done]. unfold cnt. rewrite Hp in Hlt. lia.
Qed.

Lemma cacheable_head k p π h :
  head_ok π h → pg_hdr p = h → key_ok k → (cnt h ≤ length (pg_records p))%nat → Forall entry_ok (pg_records p) → cacheable k p.
Proof. intros (Hok & Ht & Hd & Hpl & Hle & _) Hp Hk Hc He. unfold cacheable. rewrite Hp. by split_and!. Qed.

(** *** The map of the leaves *)
Definition leaf_map ob (M : gmap Key Z) : Prop := ∀ k v, M !! k = Some v ↔ ∃ a s, ob a = Some (MLeaf s k v).

Lemma leaf_map_same ob ob' M :
  leaf_map ob M → (∀ k v, (∃ a s, ob' a = Some (MLeaf s k v)) ↔ ∃ a s, ob a = Some (MLeaf s k v)) → leaf_map ob' M.
Proof. intros Hm Hs k v. by rewrite Hs, (Hm k v). Qed.

(** Objects that are not leaves do not matter, nor do the slots. *)
Lemma leaf_map_object ob M x m m' :
  leaf_map ob M → ob x = m →
  (∀ k v, (∃ s, m' = Some (MLeaf s k v)) ↔ ∃ s, m = Some (MLeaf s k v)) → leaf_map (<[x := m']> ob) M.
Proof.
  intros Hm Hx Hsame. eapply leaf_map_same; [exact Hm|]. intros k v. split; intros (a & s & Ha).
  - destruct (decide (x = a)) as [<-|Hn]; [rewrite fn_lookup_insert in Ha|rewrite fn_lookup_insert_ne in Ha by done; eauto].
    destruct (proj1 (Hsame k v) ltac:(eauto)) as [s' Hs']. exists x, s'. congruence.
  - destruct (decide (x = a)) as [<-|Hn]; [|exists a, s; by rewrite fn_lookup_insert_ne].
    destruct (proj2 (Hsame k v)) as [s' Hs']; [exists s; congruence|]. exists x, s'. by rewrite fn_lookup_insert.
Qed.

Lemma leaf_map_add ob M l s k v :
  leaf_map ob M → ob l = None → (∀ a s v, ob a ≠ Some (MLeaf s k v)) → leaf_map (<[l := Some (MLeaf s k v)]> ob) (<[k := v]> M).
Proof.
  intros Hm Hl Hno k' v'. rewrite lookup_insert_Some, (Hm k' v'). split.
  - intros [[<- <-]|[Hk (a & sa & Ha)]]; [exists l, s; by rewrite fn_lookup_insert|].
    exists a, sa. by rewrite fn_lookup_insert_ne by congruence.
  - intros (a & sa & Ha). destruct (decide (l = a)) as [<-|Hn].
    + rewrite fn_lookup_insert in Ha. left. by simplify_eq.
    + rewrite fn_lookup_insert_ne in Ha by done. right. split; [|eauto]. intros ->. by destruct (Hno a sa v').
Qed.

Lemma leaf_map_value P ent ob M l s k v v' :
  shape P ent ob → leaf_map ob M → ob l = Some (MLeaf s k v) → leaf_map (<[l := Some (MLeaf s k v')]> ob) (<[k := v']> M).
Proof.
  intros Hs Hm Hl k' v''. rewrite lookup_insert_Some, (Hm k' v''). split.
  - intros [[<- <-]|[Hk (a & sa & Ha)]]; [exists l, s; by rewrite fn_lookup_insert|].
    exists a, sa. by rewrite fn_lookup_insert_ne by congruence.
  - intros (a & sa & Ha). destruct (decide (l = a)) as [<-|Hn].
    + rewrite fn_lookup_insert in Ha. left. by simplify_eq.
    + rewrite fn_lookup_insert_ne in Ha by done. right. split; [|eauto]. intros ->. destruct Hn. by eapply (sh_leaf_inj _ _ _ Hs).
Qed.

(** *** The steps of an insertion make the tree grow *)

(** An entry at a slot that was Null, an object at an address that was free. *)
Lemma grows_add P ent ob s e0 l sl kl vl :
  ent s = Some entry_Null → ob l = None → grows P ent ob P (<[s := e0]> ent) (<[l := Some (MLeaf sl kl vl)]> ob).
Proof.
  intros Hs Hl. split.
  - intros a sa h Ha. exists sa, h. rewrite fn_lookup_insert_ne by congruence. split_and!; [done|lia|done].
  - intros a sa k v Ha. exists sa, v. by rewrite fn_lookup_insert_ne by congruence.
  - intros t e He Hne. exists e. by rewrite fn_lookup_insert_ne by congruence.
  - intros a sa h. destruct (decide (l = a)) as [<-|Hn]; [by rewrite fn_lookup_insert|rewrite fn_lookup_insert_ne by done; eauto].
Qed.

Lemma grows_value P ent ob a s k v v' : ob a = Some (MLeaf s k v) → grows P ent ob P ent (<[a := Some (MLeaf s k v')]> ob).
Proof.
  intros Ha. split; [| |by eauto|].
  - intros b sb h Hb. exists sb, h. rewrite fn_lookup_insert_ne by congruence. split_and!; [done|lia|done].
  - intros b sb kb vb Hb. destruct (decide (a = b)) as [<-|Hne]; [rewrite fn_lookup_insert|rewrite fn_lookup_insert_ne by done; eauto].
    rewrite Ha in Hb. injection Hb as -> -> ->. eauto.
  - intros b sb h. destruct (decide (a = b)) as [<-|Hne]; [by rewrite fn_lookup_insert|rewrite fn_lookup_insert_ne by done; eauto].
Qed.

(** The entry and the object at a slot change, but stay live and of the same
    kind. *)
Lemma grows_update P ent ob s e e' mx mx' :
  ent s = Some e → e' ≠ entry_Null → e_partial e' = e_partial e → ob (e_addr e) = Some mx →
  match mx, mx' with
  | MNode _ h, MNode _ h' => h_node_type h <= h_node_type h'
  | MLeaf _ k _, MLeaf _ k' _ => k = k'
  | _, _ => False
  end →
  grows P ent ob P (<[s := Some e']> ent) (<[e_addr e := Some mx']> ob).
Proof.
  intros He Hne Hp Hx Hm. split.
  - intros a sa h Ha. destruct (decide (e_addr e = a)) as [<-|Hn].
    + rewrite fn_lookup_insert. rewrite Hx in Ha. injection Ha as ->. destruct mx' as [s' h'|]; [|done]. eauto.
    + rewrite fn_lookup_insert_ne by done. exists sa, h. split_and!; [done|lia|done].
  - intros a sa k v Ha. destruct (decide (e_addr e = a)) as [<-|Hn].
    + rewrite fn_lookup_insert. rewrite Hx in Ha. injection Ha as ->. destruct mx' as [|s' k' v']; [done|]. subst k'. eauto.
    + rewrite fn_lookup_insert_ne by done. eauto.
  - intros t et Het Hnt. destruct (decide (s = t)) as [<-|Hn].
    + rewrite fn_lookup_insert. exists e'. split; [done|]. split; [done|]. congruence.
    + rewrite fn_lookup_insert_ne by done. eauto.
  - intros a sa h. destruct (decide (e_addr e = a)) as [<-|Hn]; [|rewrite fn_lookup_insert_ne by done; eauto].
    rewrite fn_lookup_insert. intros [= ->]. destruct mx; [eauto|done].
Qed.

(** A fresh node with its slots. *)
Lemma grows_fresh P ent ob c Q e0 m :
  (∀ i, ent (Slot c i) = None) → ob c = None →
  grows_but (λ a, a = c) P ent ob (<[c := Q]> P) (fresh_slots c e0 ent) (<[c := m]> ob).
Proof.
  intros Hs Hc. split.
  - intros a sa h Ha. assert (c ≠ a) by congruence. rewrite !fn_lookup_insert_ne by done. exists sa, h. split_and!; [done|lia|done].
  - intros a sa k v Ha. rewrite fn_lookup_insert_ne by congruence. eauto.
  - intros t e He Hne. exists e. split; [|done]. destruct t as [|b i]; [done|]. cbn.
    destruct (decide (b = c)) as [->|Hb]; [by rewrite Hs in He|done].
  - intros a sa h. destruct (decide (c = a)) as [<-|Hn]; [auto|rewrite fn_lookup_insert_ne by done; eauto].
Qed.

(** The tree after an insertion only depends on its entries and objects. *)
Lemma placed_ext X P ent ob P' ent1 ob1 ent2 ob2 M :
  shape P' ent1 ob1 ∧ grows_but X P ent ob P' ent1 ob1 ∧ leaf_map ob1 M →
  (∀ t, ent2 t = ent1 t) → (∀ a, ob2 a = ob1 a) →
  shape P' ent2 ob2 ∧ grows_but X P ent ob P' ent2 ob2 ∧ leaf_map ob2 M.
Proof.
  intros (Hs & [Hg1 Hg2 Hg3 Hg4] & Hm) HE HO. split; [by eapply shape_ext|]. split.
  - split; [intros; setoid_rewrite HO || setoid_rewrite HE; eauto..|].
    intros a s h. rewrite HO. intros Ha. destruct (Hg4 a s h Ha) as [?|[?|Hf]]; [by auto..|]. right. right.
    unfold fork, leaf_key in *. by setoid_rewrite HO.
  - intros k v. rewrite (Hm k v). by setoid_rewrite HO.
Qed.

(** A new node above the target of an entry. *)
Lemma shape_above_step P ent ob s e mx c hc hx y Q :
  shape P ent ob → ent s = Some e → e ≠ entry_Null → ob (e_addr e) = Some mx → ob c = None →
  spath P s e `prefix_of` Q → is_byte y → (Q ++ [y]) `prefix_of` full_path P (e_addr e) mx →
  head_ok Q hc → h_node_type hc = NODE_4 → h_depth hc = Z.of_nat (length (spath P s e)) + 1 →
  e_addr (entry_node (e_partial e) NODE_4 c) = c →
  match mx with
  | MNode _ h => head_ok (P (e_addr e)) hx ∧ h_node_type hx = h_node_type h ∧ h_depth hx = Z.of_nat (length Q) + 2
  | MLeaf _ _ _ => True
  end →
  let P' := <[c := Q]> P in
  let ent' := <[s := Some (entry_node (e_partial e) NODE_4 c)]> (fresh_slots c (entry_repartial y e) ent) in
  let ob' := <[e_addr e := Some (below_slot c hx mx)]> (<[c := Some (MNode s hc)]> ob) in
  shape P' ent' ob' ∧ grows_but (λ a, a = c) P ent ob P' ent' ob' ∧ ∀ M, leaf_map ob M → leaf_map ob' M.
Proof.
  intros Hs He Hne Hx Hc Hpre Hy Hpx Hhc Htc Hdc Hca Hhx P' ent' ob'.
  assert (HP : ∀ a sa h, ob a = Some (MNode sa h) → P' a = P a).
  { intros a sa h Ha. unfold P'. by rewrite fn_lookup_insert_ne by congruence. }
  assert (Hxc : c ≠ e_addr e) by congruence.
  assert (Hnoc : ∀ i, ent (Slot c i) = None) by (intros i; by apply (above_no_c P ent ob c Hs Hc)).
  assert (Hsp : spath P' s e = spath P s e).
  { destruct s as [|a i]; [done|]. destruct (shape_slot_node _ _ _ Hs a i e He) as (sa & h & Ha). cbn. by rewrite (HP a sa h). }
  assert (HPx : P' (e_addr e) = P (e_addr e)) by (unfold P'; by rewrite fn_lookup_insert_ne).
  assert (HPc : P' c = Q) by (unfold P'; by rewrite fn_lookup_insert).
  assert (Hsc : ∀ i, s ≠ Slot c i) by (intros i ->; by rewrite Hnoc in He).
  split; [|split].
  - apply (shape_above P' ent ob s e mx c hc hx y); rewrite ?HPc, ?Hsp; try done.
    + eapply shape_ext; [exact Hs|done|done|done].
    + by destruct mx; cbn; rewrite ?HPx.
    + destruct mx; [|done]. by rewrite HPx.
  - eapply grows_trans; [by apply (grows_fresh P ent ob c Q (entry_repartial y e) (Some (MNode s hc)))|].
    apply (grows_weaken (λ _, False)); [by intros a []|]. apply (grows_update _ _ _ s e _ mx).
    + destruct s as [|a i]; [done|]. cbn. rewrite decide_False; [done|]. intros ->. by destruct (Hsc i).
    + by apply entry_node_not_Null.
    + done.
    + by rewrite fn_lookup_insert_ne.
    + destruct mx; cbn; [|done]. destruct Hhx as (_ & -> & _). lia.
  - intros M Hm. eapply leaf_map_object; [eapply leaf_map_object; [exact Hm|exact Hc|naive_solver]|by rewrite fn_lookup_insert_ne|].
    intros k v. destruct mx; cbn; naive_solver.
Qed.

(** A new leaf in a free slot of a node. *)
Lemma shape_leaf_step P ent ob M a s h i b l k v :
  shape P ent ob → leaf_map ob M → ob a = Some (MNode s h) → ent (Slot a i) = Some entry_Null → (i < cnt h)%nat →
  (P a ++ [b]) `prefix_of` k → key_ok k → uint 64 v →
  (∀ j ej, ent (Slot a j) = Some ej → ej ≠ entry_Null → e_partial ej ≠ b) →
  ob l = None → e_addr (entry_leaf b leaf_kv_len l) = l →
  let ent' := <[Slot a i := Some (entry_leaf b leaf_kv_len l)]> ent in
  let ob' := <[l := Some (MLeaf (Slot a i) k v)]> ob in
  shape P ent' ob' ∧ grows P ent ob P ent' ob' ∧ leaf_map ob' (<[k := v]> M).
Proof.
  intros Hs Hm Ha Hnull Hi Hpk Hk Hv Hnew Hl Hla ent' ob'. split; [by eapply shape_add_leaf|]. split; [by apply grows_add|].
  apply leaf_map_add; [done|done|]. intros c sc w Hc. by apply (shape_absent P ent ob Hs a s h k b c sc w).
Qed.
End known.
Abbreviation grows := (grows_but (λ _, False)).

(** ** Worlds *)

(** The allocators of the other clients. *)
Class Others : Type := other_threads : list alloc_thread.

Section state.
Context `{Checksum} `{IndexCacheLaws} {others : Others} (CityHash64 : list byte → Z) (tree_id : Z).

Record mem_inv (w : world) (ent : slot → option InternalEntry) (ob : GlobalAddress → option meta)
    (live : block_list) (d : Directory) : Prop := {
  mi_holds : holds tree_id (w_mem w) ent ob live;
  mi_dirs : w_dirs w = [[d]];
  mi_heap : heap_inv (Heap d (w_alloc w :: other_threads) live);
  mi_pos : Forall (λ b, 0 < b.2) live;
  mi_stale i : length (w_stale w i) = 6%nat ∧ Forall is_byte (w_stale w i)
}.

Lemma mi_blocks w ent ob live d : mem_inv w ent ob live d → blocks live.
Proof. intros Hi. apply (heap_blocks_ok _ (mi_heap _ _ _ _ _ Hi)), Hi. Qed.

(** A change of the memory, of the locks or of the cache. *)
Lemma mem_inv_mem w ent ob live d m' ent' ob' :
  mem_inv w ent ob live d → holds tree_id m' ent' ob' live → mem_inv (set_mem m' w) ent' ob' live d.
Proof. intros Hi Hh. split; [exact Hh|apply Hi..]. Qed.

Lemma mem_inv_locks w ent ob live d l : mem_inv w ent ob live d → mem_inv (set_locks l w) ent ob live d.
Proof. intros Hi. split; apply Hi. Qed.

Lemma mem_inv_cache w ent ob live d c : mem_inv w ent ob live d → mem_inv (set_cache c w) ent ob live d.
Proof. intros Hi. split; apply Hi. Qed.

Lemma mem_inv_stale w ent ob live d : mem_inv w ent ob live d → mem_inv (set_stale (λ i, w_stale w (S i)) w) ent ob live d.
Proof. intros Hi. split; try apply Hi. intros i. apply Hi. Qed.

Definition lock_index (k : Key) : Z := get_hashed_lock_index CityHash64 k.

(** The cache and the lock nodes are as before. *)
Definition quiet (w w' : world) : Prop := w_cache w' = w_cache w ∧ ∀ j, w_locks w' j = w_locks w j.

Lemma quiet_refl w : quiet w w.
Proof. done. Qed.

Lemma quiet_trans w1 w2 w3 : quiet w1 w2 → quiet w2 w3 → quiet w1 w3.
Proof. intros [? ?] [? ?]. split; intros; etrans; eauto. Qed.

(** The writer of [k] is alone on its lock node, and its value is [v]. *)
Definition locked (k : Key) (v : Z) (n : LocalLockNode) : Prop :=
  run (get_combining_value k v) n = Ok ((false, v), n) ∧
  ∃ n', run (release_local_write_lock (false, false)) n = Ok (tt, n') ∧ node_idle n'.

Lemma run_combining k v w :
  locked k v (w_locks w (lock_index k)) →
  ∃ l, run (on_lock CityHash64 k (get_combining_value k v)) w = Ok ((false, v), set_locks l w) ∧
       ∀ j, l j = w_locks w j.
Proof.
  intros [Hg _]. destruct (run_on_lock_set _ k _ w _ _ Hg) as (l & Hr & Hl). exists l. split; [done|]. intros j. rewrite Hl.
  unfold lock_index. by destruct (Z.eqb_spec j (get_hashed_lock_index CityHash64 k)) as [->|].
Qed.

(** *** The verbs *)
Lemma run_bind_pure {A B} (m : res A) (f : A → proc world B) a w : m = Ok a → run (pure m ≫= f) w = run (f a) w.
Proof. intros ->. by rewrite run_bind. Qed.

Lemma run_write_sync bs g w :
  run (write_sync bs g) w = Ok (tt, set_mem (store (w_mem w) (dsm_region g) (offset g) bs) w).
Proof. unfold write_sync, on_mem. by rewrite run_atomic. Qed.

Lemma run_cas_sync g equal val w :
  load_word (w_mem w) (dsm_region g) (offset g) = equal →
  run (cas_sync g equal val) w = Ok ((true, equal), set_mem (store_word (w_mem w) (dsm_region g) (offset g) val) w).
Proof.
  intros E. unfold cas_sync, on_mem, mem_cas. rewrite run_atomic, E, Z.eqb_refl. done.
Qed.

Lemma run_cas g equal val w :
  load_word (w_mem w) (dsm_region g) (offset g) = equal →
  run (cas g equal val) w = Ok (tt, set_mem (store_word (w_mem w) (dsm_region g) (offset g) val) w).
Proof. intros E. unfold cas. by rewrite run_bind, run_cas_sync. Qed.

Lemma run_cas_mask_sync g equal val mask w :
  load_word (w_mem w) (dsm_region g) (offset g) = equal →
  run (cas_mask_sync g equal val mask) w
  = Ok ((true, equal), set_mem (store_word (w_mem w) (dsm_region g) (offset g) (masked_put equal val mask)) w).
Proof.
  intros E. unfold cas_mask_sync, on_mem, mem_cas_mask, masked_eq. rewrite run_atomic, E, !Z.eqb_refl. done.
Qed.

Lemma run_cas_mask g equal val mask w :
  load_word (w_mem w) (dsm_region g) (offset g) = equal →
  run (cas_mask g equal val mask) w
  = Ok (tt, set_mem (store_word (w_mem w) (dsm_region g) (offset g) (masked_put equal val mask)) w).
Proof. intros E. unfold cas_mask. by rewrite run_bind, run_cas_mask_sync. Qed.

Lemma run_pop_stale w : run pop_stale w = Ok (w_stale w 0%nat, set_stale (λ i, w_stale w (S i)) w).
Proof. unfold pop_stale. by rewrite run_atomic. Qed.

(** *** The cache *)

(** The cache after [used] additions, or other operations. *)
Definition cache_after (F : Key → InternalPage → GlobalAddress → Prop) (used : nat) (c c' : cache) : Prop :=
  cache_inv F c' ∧ (cache_room c ≤ used + cache_room c')%nat ∧ ∀ h, handle_ok h c → handle_ok h c'.

Lemma cache_after_refl F c : cache_inv F c → cache_after F 0 c c.
Proof. intros Hc. split_and!; [done|lia|done]. Qed.

Lemma cache_after_trans F a b c1 c2 c3 : cache_after F a c1 c2 → cache_after F b c2 c3 → cache_after F (a + b) c1 c3.
Proof. intros (? & ? & Ha) (? & ? & Hb). split_and!; [done|lia|auto]. Qed.

Lemma run_add_page F k p a w :
  cache_inv F (w_cache w) → (0 < cache_room (w_cache w))%nat → cacheable k p → F k p a →
  ∃ c, run (on_cache (add_to_cache k p a)) w = Ok (tt, set_cache c w) ∧ cache_after F 1 (w_cache w) c.
Proof.
  intros Hc Hroom Hk HF. destruct (law_add F k p a _ Hc Hroom Hk HF) as (c' & Hr & Hc' & Hroom' & Hh).
  exists c'. split; [by apply run_on_cache|]. by split_and!.
Qed.

Lemma run_invalidate F ho w :
  cache_inv F (w_cache w) → from_lookup ho w →
  ∃ c, run (invalidate_if ho) w = Ok (tt, set_cache c w) ∧ cache_after F 0 (w_cache w) c.
Proof.
  intros Hc Hf. destruct ho as [h|].
  - destruct (law_invalidate F _ h Hc Hf) as (c' & Hr & Hc' & Hroom & Hh). exists c'.
    split; [by apply run_on_cache|]. by split_and!.
  - exists (w_cache w). split; [by destruct w|]. by apply cache_after_refl.
Qed.

Lemma from_lookup_after F n c ho w : from_lookup ho w → cache_after F n (w_cache w) c → from_lookup ho (set_cache c w).
Proof. intros Hf (_ & _ & Hh). destruct ho; [by apply Hh|done]. Qed.

(** *** Allocation *)
Lemma alloc_ready w ent ob live d size :
  mem_inv w ent ob live d → 0 < size <= block_max → 0 < heap_blocks (w_alloc w) d →
  ∃ a t d', alloc (w_alloc w) (w_dirs w) size true = Ok (a, t, [[d']]) ∧
    mem_inv (set_alloc t [[d']] w) ent ob ((a, size) :: live) d' ∧
    heap_blocks (w_alloc w) d - 1 <= heap_blocks t d' ∧
    ob a = None ∧ load (w_mem w) node0 (offset a) (Z.to_nat size) = replicate (Z.to_nat size) 0.
Proof.
  intros Hi Hsz Hleft. assert (size <= kChunkSize) as Hck by (unfold kChunkSize, MB; change block_max with 2304 in *; lia).
  destruct (heap_inv_alloc (Heap d (w_alloc w :: other_threads) live) 0 (w_alloc w) size) as (a & t' & d' & E & Hinv' & Hbl);
    [apply Hi|done|lia|right; split; [lia|done]|].
  cbn [hdir hthreads Allocators.live] in *.
  assert (Hpos : Forall (λ b : GlobalAddress * Z, 0 < b.2) ((a, size) :: live)) by (constructor; [cbn; lia|apply Hi]).
  pose proof (heap_blocks_ok _ Hinv' Hpos) as Hblk. cbn [Allocators.live] in Hblk.
  exists a, t', d'. split_and!.
  - by rewrite (mi_dirs _ _ _ _ _ Hi).
  - split; cbn [w_mem w_dirs w_alloc w_stale set_alloc].
    + apply holds_more. apply Hi.
    + done.
    + exact Hinv'.
    + exact Hpos.
    + apply Hi.
  - apply Hbl. lia.
  - eapply new_block_free; [apply Hi|exact Hblk].
  - eapply new_block_zero; [apply Hi|exact Hblk|]. unfold inside. cbn. destruct (pad_spec size). lia.
Qed.

Lemma run_alloc w ent ob live d size :
  mem_inv w ent ob live d → 0 < size <= block_max → 0 < heap_blocks (w_alloc w) d →
  ∃ a t d', run (dsm_alloc size) w = Ok (a, set_alloc t [[d']] w) ∧
    mem_inv (set_alloc t [[d']] w) ent ob ((a, size) :: live) d' ∧
    heap_blocks (w_alloc w) d - 1 <= heap_blocks t d' ∧
    ob a = None ∧ load (w_mem w) node0 (offset a) (Z.to_nat size) = replicate (Z.to_nat size) 0.
Proof.
  intros Hi Hsz Hleft. destruct (alloc_ready w ent ob live d size Hi Hsz Hleft) as (a & t & d' & E & Hrest).
  exists a, t, d'. split; [|done]. unfold dsm_alloc. by rewrite run_atomic_res, E.
Qed.

(** One node, or two. *)
Lemma run_alloc_node w ent ob live d :
  mem_inv w ent ob live d → 0 < heap_blocks (w_alloc w) d →
  ∃ c t d', run (dsm_alloc_nodes 1) w = Ok ([c], set_alloc t [[d']] w) ∧
    mem_inv (set_alloc t [[d']] w) ent ob ((c, allocationPageSize) :: live) d' ∧
    heap_blocks (w_alloc w) d - 1 <= heap_blocks t d' ∧ ob c = None ∧
    load (w_mem w) node0 (offset c) (Z.to_nat allocationPageSize) = replicate (Z.to_nat allocationPageSize) 0.
Proof.
  intros Hi Hleft. destruct (alloc_ready w ent ob live d allocationPageSize Hi ltac:(by vm_compute) Hleft) as (c & t & d' & E & Hrest).
  exists c, t, d'. split; [|done]. unfold dsm_alloc_nodes. rewrite run_atomic_res. cbn [alloc_nodes]. by rewrite E.
Qed.

Lemma run_alloc_two_nodes w ent ob live d :
  mem_inv w ent ob live d → 1 < heap_blocks (w_alloc w) d →
  ∃ c1 c2 t d', run (dsm_alloc_nodes 2) w = Ok ([c1; c2], set_alloc t [[d']] w) ∧
    mem_inv (set_alloc t [[d']] w) ent ob ((c2, allocationPageSize) :: (c1, allocationPageSize) :: live) d' ∧
    heap_blocks (w_alloc w) d - 2 <= heap_blocks t d' ∧ ob c1 = None ∧ ob c2 = None ∧
    load (w_mem w) node0 (offset c1) (Z.to_nat allocationPageSize) = replicate (Z.to_nat allocationPageSize) 0 ∧
    load (w_mem w) node0 (offset c2) (Z.to_nat allocationPageSize) = replicate (Z.to_nat allocationPageSize) 0.
Proof.
  intros Hi Hleft.
  destruct (alloc_ready w ent ob live d allocationPageSize Hi ltac:(by vm_compute) ltac:(lia)) as (c1 & t1 & d1 & E1 & Hi1 & Hb1 & Hn1 & Hz1).
  destruct (alloc_ready _ ent ob _ d1 allocationPageSize Hi1 ltac:(by vm_compute) ltac:(cbn; lia)) as (c2 & t2 & d2 & E2 & Hi2 & Hb2 & Hn2 & Hz2).
  cbn [w_alloc w_dirs w_mem set_alloc] in *. exists c1, c2, t2, d2. split_and!; [|exact Hi2|lia|done..].
  unfold dsm_alloc_nodes. rewrite run_atomic_res. cbn [alloc_nodes]. rewrite E1. cbn [mbind res_bind]. by rewrite E2.
Qed.
End state.
