(* ===== verification/TreeWrite.v ===== *)
(** * Out-of-place writes

    The runs of [out_of_place_write_leaf] and [out_of_place_write_node] when
    nothing else touches the tree: what they leave in memory, and the shape of
    the tree afterwards. *)

From Stdlib Require Import ZArith Lia Bool.
From stdpp Require Import base tactics decidable option numbers functions list gmap.
From S2P Require Import Prelude.
From S2P Require Import Common.
From S2P Require Import Keys.
From S2P Require Import Address.
From S2P Require Import Nodes.
From S2P Require Import Allocators.
From S2P Require Import Memory.
From S2P Require Import Process.
From S2P Require Import LockTable.
From S2P Require Import IndexCache.
From S2P Require Import Tree.
From S2P Require Import TreeSearch.
From S2P Require Import TreeShape.
From S2P Require Import TreeHeap.
From S2P Require Import TreeState.

(** ** Pages as words *)
Definition page_words (p : InternalPage) : list Z :=
  gaddr_val (pg_rev_ptr p) :: header_val (pg_hdr p) :: (entry_val <$> pg_records p).

Lemma page_bytes_words p : page_bytes p = concat (le_bytes 8 <$> page_words p).
Proof. unfold page_bytes, page_words. cbn [fmap list_fmap concat]. do 2 f_equal. by rewrite list_fmap_compose. Qed.

Lemma page_words_range p : page_ok p → Forall (uint 64) (page_words p).
Proof.
  intros (Hr & Hh & He). unfold page_words. constructor; [by apply gaddr_val_range|].
  constructor; [by apply header_val_range|]. apply Forall_fmap. eapply Forall_impl; [exact He|]. intros e. apply entry_val_range.
Qed.

(** The words of a page that lies in memory. *)
Lemma page_in_memory (m : shared_mem) c p :
  page_ok p → load m node0 (offset c) (length (page_bytes p)) = page_bytes p →
  load_word m node0 (offset c) = gaddr_val (pg_rev_ptr p) ∧ load_word m node0 (offset c + 8) = header_val (pg_hdr p) ∧
  ∀ i e, pg_records p !! i = Some e → load_word m node0 (offset c + (16 + 8 * Z.of_nat i)) = entry_val e.
Proof.
  intros Hok Hl. pose proof (page_words_range p Hok) as Hw. rewrite page_bytes_words in Hl.
  assert (∀ j x, page_words p !! j = Some x → load_word m node0 (offset c + 8 * Z.of_nat j) = x) as Hj.
  { intros j x Hx. pose proof (lookup_lt_Some _ _ _ Hx). pose proof (Forall_lookup_1 _ _ _ _ Hw Hx). unfold load_word.
    replace (8 * Z.of_nat j) with (Z.of_nat (8 * j)) by lia.
    rewrite <- (load_slice m node0 (offset c) (8 * j) 8 (length (concat (le_bytes 8 <$> page_words p)))) by (rewrite length_words; lia).
    rewrite Hl, (slice_words _ _ _ Hx), le_int_bytes. by apply Z.mod_small. }
  split; [|split].
  - rewrite <- (Z.add_0_r (offset c)). by apply (Hj 0%nat).
  - by apply (Hj 1%nat).
  - intros i e He. replace (16 + 8 * Z.of_nat i) with (8 * Z.of_nat (S (S i))) by lia.
    apply Hj. change ((entry_val <$> pg_records p) !! i = Some (entry_val e)). by rewrite list_lookup_fmap, He.
Qed.

Lemma entry_Null_words n : concat (le_bytes 8 <$> (entry_val <$> replicate n entry_Null)) = replicate (8 * n) 0.
Proof.
  induction n as [|n IH]; [done|]. cbn [replicate fmap list_fmap concat]. rewrite IH.
  replace (8 * S n)%nat with (8 + 8 * n)%nat by lia. by rewrite replicate_add.
Qed.

(** Writing the part of a page that its type covers, where memory is zero. *)
Lemma page_written (m : shared_mem) o p front :
  pg_records p = front ++ replicate 252 entry_Null → length front = 4%nat →
  load m node0 o (Z.to_nat allocationPageSize) = replicate (Z.to_nat allocationPageSize) 0 →
  load (store m node0 o (take 48 (page_bytes p))) node0 o (length (page_bytes p)) = page_bytes p.
Proof.
  intros Hrec Hf Hz. set (hd := gaddr_val (pg_rev_ptr p) :: header_val (pg_hdr p) :: (entry_val <$> front)).
  assert (page_bytes p = concat (le_bytes 8 <$> hd) ++ replicate 2016 0) as E.
  { rewrite page_bytes_words. unfold page_words, hd. rewrite Hrec, fmap_app.
    change (?a :: ?b :: ?l ++ ?r) with ((a :: b :: l) ++ r). rewrite (fmap_app (le_bytes 8)), concat_app.
    by rewrite entry_Null_words. }
  assert (length (concat (le_bytes 8 <$> hd)) = 48%nat) as Hl.
  { rewrite length_words. unfold hd. cbn. by rewrite length_fmap, Hf. }
  rewrite E, take_app_length' by done. rewrite length_app, length_replicate, load_split. f_equal; [apply load_store_same|].
  rewrite Hl, load_store_other by (right; right; lia).
  change (Z.to_nat allocationPageSize) with (48 + 2016)%nat in Hz. rewrite load_split, replicate_add in Hz.
  apply app_inj_1 in Hz as [_ Hz]; [exact Hz|by rewrite length_load, length_replicate].
Qed.

(** The page of a new inner node. *)
Lemma page_make_fields old k plen depth rev :
  key_ok k → length old = 6%nat → Forall is_byte old → 0 <= plen <= hPartialLenMax → 1 <= depth → depth + plen <= keyLen →
  ∃ h, page_make old k plen depth NODE_4 rev = Ok (mkPage rev h (replicate 256 entry_Null)) ∧
    head_ok (take (Z.to_nat (depth - 1 + plen)) k) h ∧ h_depth h = depth ∧ h_partial_len h = plen ∧ h_node_type h = NODE_4.
Proof.
  intros Hk Hol Hob Hp Hd Hle.
  destruct (header_make_fields old k plen depth NODE_4 Hk Hob Hol Hp Hd ltac:(lia)) as (h & E & Hok & Hhd & Hht & Hhp & Hin).
  exists h. split; [unfold page_make; by rewrite E|]. change (wrap 5 NODE_4) with NODE_4 in Hht.
  destruct Hk as [Hkl _]. change klen with 8%nat in Hkl. unfold keyLen, hPartialLenMax in *.
  split; [|done]. unfold head_ok. rewrite Hhd, Hht, Hhp, length_take. unfold NODE_4, keyLen, hPartialLenMax.
  split; [done|]. do 5 (split; [lia|]).
  apply list_eq. intros j. rewrite lookup_drop.
  destruct (decide (j < Z.to_nat plen)%nat).
  - rewrite lookup_take_lt by done. rewrite Hin, lookup_take_lt by lia. done.
  - rewrite lookup_take_ge by lia. symmetry. apply lookup_ge_None_2. rewrite length_take. lia.
Qed.

Section write.
Context `{Checksum} `{IndexCacheLaws} {others : Others} (CityHash64 : list byte → Z) (tree_id : Z) (Htid : tree_id_ok tree_id).

(** An aligned block is what an entry can point to. *)
Lemma block_entry_addr live a n p kv b : blocks live → (a, n) ∈ live → e_addr (Ent p kv b (pack_gaddr a)) = a.
Proof.
  intros Hbl Hin. destruct (bl_place _ Hbl a n Hin) as (_ & Hok & Hn & Hal & _). apply e_addr_aligned; [done|done|lia].
Qed.

Lemma slot_region w ent ob live d s e : mem_inv tree_id w ent ob live d → ent s = Some e →
  dsm_region (slot_ptr tree_id s) = node0 ∧ gaddr_ok (slot_ptr tree_id s) ∧
  load_word (w_mem w) node0 (offset (slot_ptr tree_id s)) = entry_val e.
Proof.
  intros Hi He. destruct (slot_node_id tree_id (w_mem w) ent ob live (mi_blocks _ _ _ _ _ _ Hi) (mi_holds _ _ _ _ _ _ Hi) s e He) as [Hn Hok].
  split; [unfold dsm_region; by rewrite Hn|]. split; [done|]. by apply (ho_slot _ _ _ _ _ (mi_holds _ _ _ _ _ _ Hi)).
Qed.

(** The compare-and-swap of a current entry. *)
Lemma run_cas_slot w ent ob live d s e e' :
  mem_inv tree_id w ent ob live d → ent s = Some e → entry_ok e' →
  ∃ w', run (cas_sync (slot_ptr tree_id s) (entry_val e) (entry_val e')) w = Ok ((true, entry_val e), w') ∧
    mem_inv tree_id w' (<[s := Some e']> ent) ob live d ∧ w' = set_mem (w_mem w') w.
Proof using Htid.
  intros Hi He Hok. destruct (slot_region _ _ _ _ _ _ _ Hi He) as (Hreg & _ & Hl).
  eexists. split; [apply run_cas_sync; by rewrite Hreg|]. split; [|done]. rewrite Hreg.
  eapply mem_inv_mem; [exact Hi|]. eapply holds_slot; [exact Htid|eapply mi_blocks; exact Hi|apply Hi|exact He|exact Hok].
Qed.

(** Writing a fresh leaf. *)
Lemma run_write_fresh_leaf w ent ob live d l s k v :
  mem_inv tree_id w ent ob live d → (l, sizeof_Leaf) ∈ live → ob l = None → key_ok k →
  ∃ w', run (write_sync (leaf_bytes (leaf_make k v (slot_ptr tree_id s))) l) w = Ok (tt, w') ∧
    mem_inv tree_id w' ent (<[l := Some (MLeaf s k v)]> ob) live d ∧ w' = set_mem (w_mem w') w.
Proof using Htid.
  intros Hi Hl Hnone Hk. set (bs := leaf_bytes (leaf_make k v (slot_ptr tree_id s))).
  assert (length bs = Z.to_nat sizeof_Leaf) as Hlen by (unfold bs; by rewrite length_leaf_bytes).
  pose proof (mi_blocks _ _ _ _ _ _ Hi) as Hbl. destruct (bl_place _ Hbl l _ Hl) as (_ & _ & Hn & _).
  eexists. split; [apply run_write_sync|]. split; [|done]. unfold dsm_region. rewrite Hn. fold node0.
  eapply mem_inv_mem; [exact Hi|]. apply holds_new_leaf.
  - eapply holds_fresh_store; [exact Htid|exact Hbl|apply Hi|exact Hl|exact Hnone|]. rewrite Hlen. unfold inside. cbn [fst snd].
    rewrite pad_leaf. change (Z.of_nat (Z.to_nat sizeof_Leaf)) with 34. lia.
  - exact Hl.
  - exact Hnone.
  - rewrite <- Hlen. apply load_store_same.
Qed.

(** [out_of_place_write_leaf] of a new leaf. *)
Lemma run_write_leaf w ent ob live d k v s e pk :
  mem_inv tree_id w ent ob live d → locked k v (w_locks w (lock_index CityHash64 k)) →
  ent s = Some e → entry_ok e → is_byte pk → key_ok k → 0 < heap_blocks (w_alloc w) d →
  ∃ l w' d', run (out_of_place_write_leaf CityHash64 k v gaddr_Null pk (slot_ptr tree_id s) e) w = Ok ((true, e, l, v), w') ∧
    mem_inv tree_id w' (<[s := Some (entry_leaf pk leaf_kv_len l)]> ent) (<[l := Some (MLeaf s k v)]> ob) ((l, sizeof_Leaf) :: live) d' ∧
    quiet w w' ∧ heap_blocks (w_alloc w) d - 1 <= heap_blocks (w_alloc w') d' ∧ ob l = None ∧
    e_addr (entry_leaf pk leaf_kv_len l) = l.
Proof using Htid.
  intros Hi Hlock He Hok Hb Hk Hleft. unfold out_of_place_write_leaf.
  destruct (run_combining CityHash64 k v w Hlock) as (lk & Hrun & Hlk). rewrite run_bind, Hrun. cbn [orb].
  change (gaddr_eqb gaddr_Null gaddr_Null) with true. cbn [orb].
  destruct (run_alloc tree_id (set_locks lk w) ent ob live d sizeof_Leaf) as (l & t & d' & Hal & Hi1 & Hbl & Hnone & _);
    [by apply mem_inv_locks|by vm_compute|done|].
  rewrite run_bind, run_bind, Hal, run_bind.
  destruct (run_write_fresh_leaf _ _ _ _ _ l s k v Hi1 ltac:(by left) Hnone Hk) as (w2 & Hw & Hi2 & E2).
  rewrite Hw, run_ret.
  destruct (run_cas_slot _ _ _ _ _ s e (entry_leaf pk leaf_kv_len l) Hi2 He ltac:(by apply entry_leaf_ok)) as (w3 & Hc & Hi3 & E3).
  rewrite run_bind, Hc, run_ret, entry_of_val_val by done. exists l, w3, d'.
  split; [done|]. split; [exact Hi3|]. rewrite E3, E2. split; [by split|]. split; [exact Hbl|]. split; [done|].
  eapply block_entry_addr; [eapply mi_blocks; exact Hi3|by left].
Qed.

(** ** New nodes *)

(** The records of a new node: one entry, then maybe a leaf. *)
Lemma page_record_front (e0 : InternalEntry) :
  <[0%nat := e0]> (replicate 256 entry_Null) = [e0; entry_Null; entry_Null; entry_Null] ++ replicate 252 entry_Null.
Proof. done. Qed.

Lemma page_record_front2 (e0 e1 : InternalEntry) :
  <[1%nat := e1]> (<[0%nat := e0]> (replicate 256 entry_Null)) = [e0; e1; entry_Null; entry_Null] ++ replicate 252 entry_Null.
Proof. done. Qed.

Lemma front_lookup (e0 e1 : InternalEntry) i :
  ([e0; e1; entry_Null; entry_Null] ++ replicate 252 entry_Null) !! i
  = if decide (i < 256)%nat then Some (if decide (i = 0%nat) then e0 else if decide (i = 1%nat) then e1 else entry_Null) else None.
Proof.
  destruct i as [|[|[|[|i]]]]; [done..|]. change (S (S (S (S i)))) with (length [e0; e1; entry_Null; entry_Null] + i)%nat.
  rewrite lookup_app_r by lia. replace (length _ + i - length _)%nat with i by lia. cbn [length]. case_decide.
  - rewrite lookup_replicate_2 by lia. rewrite !decide_False by lia. done.
  - apply lookup_ge_None_2. rewrite length_replicate. lia.
Qed.

Lemma front_ok e0 e1 : entry_ok e0 → entry_ok e1 → Forall entry_ok ([e0; e1; entry_Null; entry_Null] ++ replicate 252 entry_Null).
Proof.
  intros Hok0 Hok1. apply Forall_app. split; [by repeat (apply Forall_cons; split; [by auto using entry_Null_ok|])|].
  apply Forall_replicate. apply entry_Null_ok.
Qed.

(** The slots of a node with these records. *)
Definition node_slots (c : GlobalAddress) (e0 e1 : InternalEntry) (ent : slot → option InternalEntry) : slot → option InternalEntry :=
  <[Slot c 1 := Some e1]> (fresh_slots c e0 ent).

Lemma node_slots_new c e0 e1 ent i :
  node_slots c e0 e1 ent (Slot c i) = ([e0; e1; entry_Null; entry_Null] ++ replicate 252 entry_Null) !! i.
Proof.
  rewrite front_lookup. unfold node_slots. destruct (decide (Slot c 1 = Slot c i)) as [[= <-]|Hn].
  - by rewrite fn_lookup_insert.
  - rewrite fn_lookup_insert_ne by done. cbn. rewrite decide_True by done. rewrite (decide_False (P := i = 1%nat)) by congruence. done.
Qed.

Lemma node_slots_old c e0 e1 ent t : (∀ i, t ≠ Slot c i) → node_slots c e0 e1 ent t = ent t.
Proof.
  intros Ht. unfold node_slots. rewrite fn_lookup_insert_ne by (intros <-; by destruct (Ht 1%nat)).
  destruct t as [|a i]; [done|]. cbn. rewrite decide_False; [done|]. intros ->. by destruct (Ht i).
Qed.

(** Writing the page of a fresh node: it becomes a node of the tree, and other
    fresh blocks stay as they are. *)
Lemma run_write_page w ent ob live d c s h e0 e1 :
  mem_inv tree_id w ent ob live d → (c, allocationPageSize) ∈ live → ob c = None →
  load (w_mem w) node0 (offset c) (Z.to_nat allocationPageSize) = replicate (Z.to_nat allocationPageSize) 0 →
  gaddr_ok (slot_ptr tree_id s) → header_ok h → entry_ok e0 → entry_ok e1 →
  let p := mkPage (slot_ptr tree_id s) h ([e0; e1; entry_Null; entry_Null] ++ replicate 252 entry_Null) in
  ∃ w', run (write_sync (take 48 (page_bytes p)) c) w = Ok (tt, w') ∧
    mem_inv tree_id w' (node_slots c e0 e1 ent) (<[c := Some (MNode s h)]> ob) live d ∧ w' = set_mem (w_mem w') w ∧
    ∀ b n, (b, n) ∈ live → b ≠ c → load (w_mem w') node0 (offset b) (Z.to_nat n) = load (w_mem w) node0 (offset b) (Z.to_nat n).
Proof using Htid.
  intros Hi Hc Hnone Hz Hs Hh He0 He1 p.
  assert (Hok : page_ok p) by (split; [done|]; split; [done|by apply front_ok]).
  pose proof (mi_blocks _ _ _ _ _ _ Hi) as Hbl. destruct (bl_place _ Hbl c _ Hc) as (_ & _ & Hn & _).
  assert (length (take 48 (page_bytes p)) = 48%nat) as Hlen.
  { rewrite length_take, page_bytes_words, length_words. unfold page_words, p. cbn [length pg_records]. rewrite length_fmap, length_app.
    cbn [length]. rewrite length_replicate. lia. }
  pose proof (page_written (w_mem w) (offset c) p _ eq_refl eq_refl Hz) as Hw.
  eexists. split; [apply run_write_sync|]. unfold dsm_region. rewrite Hn. fold node0. split; [|split; [done|]].
  - destruct (page_in_memory _ c p Hok Hw) as (Hw0 & Hw1 & Hw2). eapply mem_inv_mem; [exact Hi|].
    assert (Hh' : holds tree_id (store (w_mem w) node0 (offset c) (take 48 (page_bytes p))) ent ob live).
    { eapply holds_fresh_store; [exact Htid|exact Hbl|apply Hi|exact Hc|exact Hnone|]. unfold inside. rewrite Hlen. cbn [fst snd].
      rewrite pad_node. lia. }
    eapply holds_new_node; [exact Hbl|exact Hh'|exact Hc|exact Hnone|exact Hw0|exact Hw1|apply node_slots_old|].
    intros i e He. rewrite node_slots_new in He. split; [|by apply Hw2]. apply lookup_lt_Some in He.
    rewrite length_app, length_replicate in He. cbn in He. lia.
  - intros b n Hb Hbc. cbn [w_mem set_mem]. apply load_store_other. right. rewrite Hlen.
    pose proof (block_pad live Hbl b n Hb). destruct (block_apart live Hbl b n c _ Hb Hc Hbc) as [Hd|Hd]; rewrite ?pad_node in Hd; lia.
Qed.

(** Linking the new nodes: the entry's compare-and-swap, then the reverse
    pointer of what was there. *)
Lemma run_link w ent ob live d s e mx e' s' e0 :
  mem_inv tree_id w ent ob live d → ent s = Some e → ob (e_addr e) = Some mx → m_slot mx = s → entry_ok e → entry_ok e' →
  ent s' = Some e0 →
  ∃ w' w'', run (cas_sync (slot_ptr tree_id s) (entry_val e) (entry_val e')) w = Ok ((true, entry_val e), w') ∧
    run (cas (e_addr e) (gaddr_val (slot_ptr tree_id s)) (gaddr_val (slot_ptr tree_id s'))) w' = Ok (tt, w'') ∧
    mem_inv tree_id w'' (<[s := Some e']> ent) (<[e_addr e := Some (move s' mx)]> ob) live d ∧ w'' = set_mem (w_mem w'') w.
Proof using Htid.
  intros Hi He Hx Hm Hok Hok' He0. destruct (run_cas_slot _ _ _ _ _ s e e' Hi He Hok') as (w1 & Hc1 & Hi1 & E1).
  destruct (slot_region _ _ _ _ _ _ _ Hi He0) as (_ & Hs' & _).
  pose proof (mi_holds _ _ _ _ _ _ Hi1) as Hh1. pose proof (mi_blocks _ _ _ _ _ _ Hi1) as Hbl.
  destruct (obj_place tree_id _ _ _ _ Hbl Hh1 _ _ Hx) as (_ & Hn & _).
  assert (load_word (w_mem w1) node0 (offset (e_addr e)) = gaddr_val (slot_ptr tree_id s)) as Hrev.
  { destruct mx as [s0 h|s0 k v]; cbn in Hm; subst s0; [by apply (ho_node _ _ _ _ _ Hh1 _ _ _ Hx)|].
    pose proof (ho_leaf _ _ _ _ _ Hh1 _ _ _ _ Hx) as Hl. change (Z.to_nat sizeof_Leaf) with (8 + 26)%nat in Hl.
    rewrite load_split, leaf_bytes_rev in Hl. apply app_inj_1 in Hl as [Hl _]; [|by rewrite length_load, length_le_bytes].
    unfold load_word. rewrite Hl. apply le_int_le_bytes_8. apply gaddr_val_range. by destruct (slot_region _ _ _ _ _ _ _ Hi He) as (_ & ? & _). }
  exists w1. eexists. split; [exact Hc1|]. split.
  { apply run_cas. unfold dsm_region. rewrite Hn. exact Hrev. }
  unfold dsm_region. rewrite Hn. fold node0. split; [|by rewrite E1]. eapply mem_inv_mem; [exact Hi1|].
  by eapply holds_rev.
Qed.

(** ** [out_of_place_write_node] *)

(** The tree after a new leaf for [k] and the target of [e] hang below new
    nodes, the last of which is [c]; [hx] is the header that the target gets if
    it is a node. In memory the target still has its old header. *)
Definition split_post (P : GlobalAddress → list byte) ent ob d M (k : Key) (v : Z) e mx hx (w w' : world) : Prop :=
  ∃ P' ent' ob' live' d' c,
    mem_inv tree_id w' ent' ob' live' d' ∧ ob' (e_addr e) = Some (move (Slot c 0) mx) ∧
    let ob2 := <[e_addr e := Some (below_slot c hx mx)]> ob' in
    shape P' ent' ob2 ∧ grows P ent ob P' ent' ob2 ∧ leaf_map ob2 (<[k := v]> M) ∧
    cache_after (cached P' ent' ob2) 2 (w_cache w) (w_cache w') ∧
    (∀ j, w_locks w' j = w_locks w j) ∧
    heap_blocks (w_alloc w) d - 3 <= heap_blocks (w_alloc w') d'.

(** Where [k] and the target part: at depth [depth + plen], [k] goes on with
    [b] and the target with [y]. *)
Record parting (P : GlobalAddress → list byte) ent ob (s : slot) e mx (k : Key) (plen : Z) (b y : byte) (hx : Header) : Prop := {
  pa_shape : shape P ent ob;
  pa_ent : ent s = Some e;
  pa_live : e ≠ entry_Null;
  pa_ob : ob (e_addr e) = Some mx;
  pa_key : key_ok k;
  pa_way : spath P s e `prefix_of` k;
  pa_len : 0 <= plen ∧ Z.of_nat (length (spath P s e)) + 1 + plen <= keyLen;
  pa_b : get_partial k (Z.of_nat (length (spath P s e)) + 1 + plen) = Ok b;
  pa_y : is_byte y ∧ y ≠ b;
  pa_target : (take (length (spath P s e) + Z.to_nat plen) k ++ [y]) `prefix_of` full_path P (e_addr e) mx;
  pa_header : match mx with
              | MNode _ h => head_ok (P (e_addr e)) hx ∧ h_node_type hx = h_node_type h ∧
                             h_depth hx = Z.of_nat (length (spath P s e)) + plen + 2
              | MLeaf _ _ _ => True
              end
}.

Lemma parting_byte P ent ob s e mx k plen b y hx :
  parting P ent ob s e mx k plen b y hx →
  is_byte b ∧ (take (length (spath P s e) + Z.to_nat plen) k ++ [b]) `prefix_of` k ∧
  spath P s e `prefix_of` take (length (spath P s e) + Z.to_nat plen) k ∧
  length (take (length (spath P s e) + Z.to_nat plen) k) = (length (spath P s e) + Z.to_nat plen)%nat.
Proof.
  intros Hp. pose proof (pa_key _ _ _ _ _ _ _ _ _ _ _ Hp) as [Hkl Hkb]. change klen with 8%nat in Hkl.
  pose proof (pa_len _ _ _ _ _ _ _ _ _ _ _ Hp) as [Hl1 Hl2]. unfold keyLen in Hl2.
  pose proof (pa_b _ _ _ _ _ _ _ _ _ _ _ Hp) as Hb. apply get_partial_at in Hb; [|lia].
  set (n := length (spath P s e)) in *. replace (Z.to_nat (Z.of_nat n + 1 + plen - 1)) with (n + Z.to_nat plen)%nat in Hb by lia.
  split; [by eapply Forall_lookup_1|]. split; [|split].
  - rewrite <- (take_S_r _ _ _ Hb). exists (drop (S (n + Z.to_nat plen)) k). by rewrite take_drop.
  - destruct (pa_way _ _ _ _ _ _ _ _ _ _ _ Hp) as [r Hr]. fold n. rewrite Hr. rewrite take_app_ge by (unfold n; lia).
    by apply prefix_app_r.
  - rewrite length_take. lia.
Qed.

(** A key that parts from [k] there. *)
Lemma parting_other P ent ob s e mx k plen b y hx :
  parting P ent ob s e mx k plen b y hx →
  ∃ k0, k0 ≠ k ∧ leaf_key ob k0 ∧ take (length (spath P s e) + Z.to_nat plen) k `prefix_of` k0.
Proof.
  intros Hp. destruct (parting_byte _ _ _ _ _ _ _ _ _ _ _ Hp) as (_ & Hkb & _). destruct (pa_y _ _ _ _ _ _ _ _ _ _ _ Hp) as [_ Hyb].
  pose proof (pa_target _ _ _ _ _ _ _ _ _ _ _ Hp) as Ht. pose proof (pa_ob _ _ _ _ _ _ _ _ _ _ _ Hp) as Hx.
  set (Q := take _ k) in *.
  assert (∃ k0, leaf_key ob k0 ∧ (Q ++ [y]) `prefix_of` k0) as (k0 & Hk0 & Hq).
  { destruct mx as [sx h|sx kx vx]; [|exists kx; split; [by exists (e_addr e), sx, vx|done]].
    destruct (shape_leaf_below P ent ob (pa_shape _ _ _ _ _ _ _ _ _ _ _ Hp) _ _ _ Hx) as (a & sa & k0 & v0 & Ha & Hpk).
    exists k0. split; [by exists a, sa, v0|]. by etrans. }
  exists k0. split; [|split; [done|by eapply prefix_app_l]]. intros ->. apply Hyb. by eapply snoc_prefix_inj.
Qed.

(** The shape after one new node. *)
Lemma parting_shape P ent ob M s e mx k v plen b y hx hc c l :
  parting P ent ob s e mx k plen b y hx → leaf_map ob M → uint 64 v → ob c = None → ob l = None → c ≠ l →
  let Q := take (length (spath P s e) + Z.to_nat plen) k in
  head_ok Q hc → h_node_type hc = NODE_4 → h_depth hc = Z.of_nat (length (spath P s e)) + 1 →
  e_addr (entry_node (e_partial e) NODE_4 c) = c → e_addr (entry_leaf b leaf_kv_len l) = l →
  let P' := <[c := Q]> P in
  let ent' := <[Slot c 1 := Some (entry_leaf b leaf_kv_len l)]>
                (<[s := Some (entry_node (e_partial e) NODE_4 c)]> (fresh_slots c (entry_repartial y e) ent)) in
  let ob' := <[l := Some (MLeaf (Slot c 1) k v)]> (<[e_addr e := Some (below_slot c hx mx)]> (<[c := Some (MNode s hc)]> ob)) in
  shape P' ent' ob' ∧ grows P ent ob P' ent' ob' ∧ leaf_map ob' (<[k := v]> M).
Proof.
  intros Hp Hm Hv Hc Hl Hcl Q Hhc Htc Hdc Hca Hla. destruct (parting_byte _ _ _ _ _ _ _ _ _ _ _ Hp) as (Hb & Hkb & Hpre & Hlen).
  fold Q in Hkb, Hpre, Hlen. pose proof (pa_shape _ _ _ _ _ _ _ _ _ _ _ Hp) as Hs. pose proof (pa_ent _ _ _ _ _ _ _ _ _ _ _ Hp) as He.
  pose proof (pa_ob _ _ _ _ _ _ _ _ _ _ _ Hp) as Hx. destruct (pa_y _ _ _ _ _ _ _ _ _ _ _ Hp) as [Hy Hyb].
  pose proof (pa_len _ _ _ _ _ _ _ _ _ _ _ Hp) as [Hl1 Hl2].
  destruct (shape_above_step P ent ob s e mx c hc hx y Q Hs He) as (Hs1 & Hg1 & Hm1); [apply Hp|done|done|done|done|apply Hp|done|done|done|done|..].
  { pose proof (pa_header _ _ _ _ _ _ _ _ _ _ _ Hp) as Hhd. destruct mx; [|done]. destruct Hhd as (? & ? & ?). split_and!; [done..|].
    rewrite Hlen. lia. }
  assert (Hsc : ∀ i, s ≠ Slot c i).
  { intros i ->. by rewrite (above_no_c P ent ob c Hs Hc i) in He. }
  intros P' ent' ob'.
  destruct (shape_leaf_step P' _ _ M c s hc 1 b l k v Hs1 (Hm1 M Hm)) as (Hs2 & Hg2 & Hm2).
  - rewrite fn_lookup_insert_ne by congruence. by rewrite fn_lookup_insert.
  - rewrite fn_lookup_insert_ne by apply Hsc. cbn. by rewrite decide_True.
  - unfold cnt. rewrite Htc. by vm_compute; lia.
  - unfold P'. by rewrite fn_lookup_insert.
  - apply Hp.
  - done.
  - intros j ej. rewrite fn_lookup_insert_ne by apply Hsc. cbn. rewrite decide_True by done.
    repeat case_decide; intros [= <-]; [by intros _|done].
  - rewrite !fn_lookup_insert_ne by congruence. done.
  - done.
  - split; [exact Hs2|]. split; [|exact Hm2].
    assert (Hg : grows_but (λ a, a = c) P ent ob P' ent' ob').
    { eapply grows_trans; [exact Hg1|]. apply (grows_weaken (λ _, False)); [done|exact Hg2]. }
    apply (grows_close _ _ _ _ _ _ _ Hg). intros ? ->.
    destruct (parting_other _ _ _ _ _ _ _ _ _ _ _ Hp) as (k0 & Hne & Hk0 & Hp0). exists k, k0. split; [done|].
    split; [exists l, (Slot c 1), v; unfold ob'; by rewrite fn_lookup_insert|]. split; [by eapply leaf_key_grows|].
    unfold P'. rewrite fn_lookup_insert. split; [by eapply prefix_app_l|done].
Qed.

Lemma entry_live_ok P ent ob s e mx : shape P ent ob → ent s = Some e → e ≠ entry_Null → ob (e_addr e) = Some mx →
  entry_ok e ∧ m_slot mx = s.
Proof.
  intros Hs He Hne Hx. split; [by apply (sh_entry _ _ _ Hs s)|]. pose proof (sh_child _ _ _ Hs s e He Hne) as Hc. rewrite Hx in Hc.
  destruct mx; by destruct Hc as (-> & _).
Qed.

(** Adding the pages of new nodes to the cache. *)
Record page_now (P : GlobalAddress → list byte) ent ob (k : Key) (q : InternalPage * GlobalAddress) : Prop := {
  pn_object : ∃ s, ob q.2 = Some (MNode s (pg_hdr q.1));
  pn_path : take (Z.to_nat (h_depth (pg_hdr q.1) - 1)) (P q.2) `prefix_of` k;
  pn_length : length (pg_records q.1) = 256%nat;
  pn_records_ok : Forall entry_ok (pg_records q.1);
  pn_records i e : pg_records q.1 !! i = Some e → ent (Slot q.2 i) = Some e
}.

Lemma run_add_pages P ent ob k pages w :
  shape P ent ob → key_ok k → Forall (page_now P ent ob k) pages →
  cache_inv (cached P ent ob) (w_cache w) → (length pages ≤ cache_room (w_cache w))%nat →
  ∃ c, run (for_each (λ '(pg, a), on_cache (add_to_cache k pg (GADD a page_head))) pages) w = Ok (tt, set_cache c w) ∧
       cache_after (cached P ent ob) (length pages) (w_cache w) c.
Proof.
  intros Hs Hk Hp. revert w. induction Hp as [|[p a] pages [[s Ha] Hpre Hlen Hok Hrec] _ IH]; intros w Hc Hroom; cbn in *.
  { exists (w_cache w). split; [by destruct w|by apply cache_after_refl]. }
  destruct (run_add_page (cached P ent ob) k p (GADD a page_head) w Hc ltac:(lia)) as (c1 & Hr1 & Ha1).
  - eapply cacheable_head; [by eapply sh_node|done|done| |done]. cbn. rewrite Hlen.
    destruct (sh_node _ _ _ Hs a s _ Ha) as (_ & Ht & _). pose proof (node_num_range (h_node_type (pg_hdr p)) ltac:(lia)). unfold cnt. lia.
  - eapply cached_current; [done|done|done|done|]. intros i e Hi _ _. by apply Hrec.
  - pose proof Ha1 as (Hc1 & Hroom1 & _). destruct (IH (set_cache c1 w)) as (c2 & Hr2 & Ha2); [exact Hc1|cbn; lia|].
    exists c2. split; [by rewrite run_bind, Hr1|]. by apply (cache_after_trans _ 1 (length pages) _ c1).
Qed.

(** ** The pieces of [out_of_place_write_node] *)

(** The value to write and the block for the leaf. *)
Lemma run_reserve w ent ob live d k v :
  mem_inv tree_id w ent ob live d → locked k v (w_locks w (lock_index CityHash64 k)) → 0 < heap_blocks (w_alloc w) d →
  ∃ l w1 w2 d', run (on_lock CityHash64 k (get_combining_value k v)) w = Ok ((false, v), w1) ∧
    run (dsm_alloc sizeof_Leaf) w1 = Ok (l, w2) ∧ mem_inv tree_id w2 ent ob ((l, sizeof_Leaf) :: live) d' ∧
    quiet w w2 ∧ w_mem w2 = w_mem w ∧ heap_blocks (w_alloc w) d - 1 <= heap_blocks (w_alloc w2) d' ∧ ob l = None ∧
    ∀ b n, (b, n) ∈ live → b ≠ l.
Proof.
  intros Hi Hlock Hleft. destruct (run_combining CityHash64 k v w Hlock) as (lk & Hrun & Hlk).
  destruct (run_alloc tree_id (set_locks lk w) ent ob live d sizeof_Leaf) as (l & t & d' & Hal & Hi' & Hbl & Hl & _);
    [by apply mem_inv_locks|by vm_compute|done|].
  exists l. do 2 eexists. exists d'. do 3 (split; [done|]). do 4 (split; [done|]).
  intros b n Hb ->. destruct (block_new l sizeof_Leaf live l n (mi_blocks _ _ _ _ _ _ Hi') Hb) as [Hne _]. done.
Qed.

(** How the pieces make up the whole. *)
Lemma write_node_steps k v depth plen y e_ptr e w addrs last first w1 w2 l w3 pages plen' depth' rev w4 pg b w6 w7 w8 w9 w10 :
  let num := plen `quot` (hPartialLenMax + 1) + 1 in
  let page := mkPage (pg_rev_ptr pg) (pg_hdr pg)
                (<[1%nat := entry_leaf b leaf_kv_len l]> (<[0%nat := entry_repartial y e]> (pg_records pg))) in
  let nodes := zip (pages ++ [page]) addrs in
  run (dsm_alloc_nodes (Z.to_nat num)) w = Ok (addrs, w1) → idx_ addrs (num - 1) = Ok last → idx_ addrs 0 = Ok first →
  run (on_lock CityHash64 k (get_combining_value k v)) w1 = Ok ((false, v), w2) →
  run (dsm_alloc sizeof_Leaf) w2 = Ok (l, w3) →
  run (chain_pages k addrs depth plen e_ptr NODE_4) w3 = Ok ((pages, plen', depth', rev), w4) →
  page_make (w_stale w4 0%nat) k plen' depth' NODE_4 rev = Ok pg → get_partial k (depth' + plen') = Ok b →
  run (for_each (λ '(pg, a), write_sync (take 48 (page_bytes pg)) a) nodes) (set_stale (λ i, w_stale w4 (S i)) w4) = Ok (tt, w6) →
  run (write_sync (leaf_bytes (leaf_make k v (GADD last (page_head + 8 * 1)))) l) w6 = Ok (tt, w7) →
  run (cas_sync e_ptr (entry_val e) (entry_val (entry_node (e_partial e) NODE_4 first))) w7 = Ok ((true, entry_val e), w8) →
  run (cas (e_addr e) (gaddr_val e_ptr) (gaddr_val (GADD last page_head))) w8 = Ok (tt, w9) →
  run (for_each (λ '(pg, a), on_cache (add_to_cache k pg (GADD a page_head))) nodes) w9 = Ok (tt, w10) →
  entry_ok e →
  run (out_of_place_write_node CityHash64 k v depth gaddr_Null plen y e_ptr e) w = Ok ((true, e, l, v), w10).
Proof.
  intros num page nodes Hal Hlast Hfirst Hlk Hl Hch Hpg Hb Hw Hwl Hcs Hcr Hadd Hok.
  unfold out_of_place_write_node. fold num.
  rewrite run_bind, Hal, (run_bind_pure _ _ _ _ Hlast), (run_bind_pure _ _ _ _ Hfirst), run_bind, Hlk.
  change (gaddr_eqb gaddr_Null gaddr_Null) with true. cbn [orb].
  rewrite run_bind, Hl, (run_bind_pure _ _ NODE_4) by done. rewrite run_bind, Hch, run_bind, run_pop_stale.
  rewrite (run_bind_pure _ _ _ _ Hpg), (run_bind_pure _ _ _ _ Hb). fold page nodes.
  change (Z.to_nat (node_size NODE_4)) with 48%nat. rewrite run_bind, Hw, run_bind, Hwl, run_bind, Hcs. cbn [negb].
  by rewrite run_bind, run_bind, Hcr, Hadd, run_ret, entry_of_val_val.
Qed.

(** From the pages of the new nodes on: the leaf, the links, the cache. *)
Lemma run_split_link w w6 P ent ob d M k v s e mx hx c c1 P' ent1 ob1 live' d' l pages :
  mem_inv tree_id w6 ent1 ob1 live' d' → (l, sizeof_Leaf) ∈ live' → ob1 l = None → l ≠ e_addr e → key_ok k →
  ent1 s = Some e → ob1 (e_addr e) = Some mx → m_slot mx = s → entry_ok e → is_Some (ent1 (Slot c 0)) →
  let e' := entry_node (e_partial e) NODE_4 c1 in
  let entf := <[s := Some e']> ent1 in
  let obf := <[e_addr e := Some (below_slot c hx mx)]> (<[e_addr e := Some (move (Slot c 0) mx)]>
               (<[l := Some (MLeaf (Slot c 1) k v)]> ob1)) in
  shape P' entf obf ∧ grows P ent ob P' entf obf ∧ leaf_map obf (<[k := v]> M) →
  quiet w w6 → cache_inv (cached P ent ob) (w_cache w) → (2 ≤ cache_room (w_cache w))%nat →
  Forall (page_now P' entf obf k) pages → (length pages ≤ 2)%nat → heap_blocks (w_alloc w) d - 3 <= heap_blocks (w_alloc w6) d' →
  ∃ w7 w8 w9 w10,
    run (write_sync (leaf_bytes (leaf_make k v (slot_ptr tree_id (Slot c 1)))) l) w6 = Ok (tt, w7) ∧
    run (cas_sync (slot_ptr tree_id s) (entry_val e) (entry_val e')) w7 = Ok ((true, entry_val e), w8) ∧
    run (cas (e_addr e) (gaddr_val (slot_ptr tree_id s)) (gaddr_val (slot_ptr tree_id (Slot c 0)))) w8 = Ok (tt, w9) ∧
    run (for_each (λ '(pg, a), on_cache (add_to_cache k pg (GADD a page_head))) pages) w9 = Ok (tt, w10) ∧
    split_post P ent ob d M k v e mx hx w w10.
Proof using Htid.
  intros Hi Hl Hnone Hle Hk He Hx Hm Hok [e0 He0] e' entf obf Hpl [Hqc Hql] Hc Hroom Hpages Hlen Hleft.
  destruct (run_write_fresh_leaf w6 ent1 _ _ d' l (Slot c 1) k v Hi Hl Hnone Hk) as (w7 & Hw7 & Hi7 & E7).
  destruct (run_link w7 ent1 _ _ d' s e mx e' (Slot c 0) e0 Hi7) as (w8 & w9 & Hw8 & Hw9 & Hi9 & E9);
    [done|by rewrite fn_lookup_insert_ne|done|done|by apply entry_node_ok, Hok|done|].
  assert (Ew : w_cache w9 = w_cache w ∧ w_alloc w9 = w_alloc w6 ∧ ∀ j, w_locks w9 j = w_locks w j) by (by rewrite E9, E7).
  destruct Ew as (Ew1 & Ew2 & Ew3). pose proof Hpl as (Hs & Hg & Hm').
  destruct (run_add_pages P' entf obf k pages w9 Hs Hk Hpages) as (cf & Hadd & Hafter).
  { rewrite Ew1. eapply law_mono; [|exact Hc]. intros k0 p a. by eapply cached_grows. } { rewrite Ew1. lia. }
  exists w7, w8, w9, (set_cache cf w9). do 4 (split; [done|]). exists P', entf. do 3 eexists. exists c.
  split; [apply mem_inv_cache; exact Hi9|]. split; [by rewrite fn_lookup_insert|]. split; [exact Hs|]. split; [exact Hg|]. split; [exact Hm'|].
  rewrite Ew1 in Hafter. destruct Hafter as (? & ? & ?). cbn [w_cache set_cache]. split; [by split; [|split; [lia|]]|]. split; [exact Ew3|]. cbn. by rewrite Ew2.
Qed.

Lemma page_now_new P ent ob k n c s rev h e0 e1 :
  ob c = Some (MNode s h) → P c = take n k → entry_ok e0 → entry_ok e1 →
  (∀ i, ent (Slot c i) = ([e0; e1; entry_Null; entry_Null] ++ replicate 252 entry_Null) !! i) →
  page_now P ent ob k (mkPage rev h ([e0; e1; entry_Null; entry_Null] ++ replicate 252 entry_Null), c).
Proof.
  intros Hc HP Hok0 Hok1 Hent. split; cbn [fst snd pg_hdr pg_records].
  - by exists s.
  - rewrite HP. etrans; apply spath_prefix_take.
  - done.
  - by apply front_ok.
  - intros i e Hi. by rewrite Hent.
Qed.

(** The page of a new node, from whatever the buffer held. *)
Lemma new_page w ent ob live d k plen depth rev :
  mem_inv tree_id w ent ob live d → key_ok k → 0 <= plen <= hPartialLenMax → 1 <= depth → depth + plen <= keyLen →
  ∃ h, page_make (w_stale w 0%nat) k plen depth NODE_4 rev = Ok (mkPage rev h (replicate 256 entry_Null)) ∧
    head_ok (take (Z.to_nat (depth - 1 + plen)) k) h ∧ h_depth h = depth ∧ h_node_type h = NODE_4.
Proof.
  intros Hi Hk Hp Hd Hle. destruct (mi_stale _ _ _ _ _ _ Hi 0%nat) as [Hl Hb].
  destruct (page_make_fields (w_stale w 0%nat) k plen depth rev Hk Hl Hb Hp Hd Hle) as (h & ? & ? & ? & _ & ?). eauto 6.
Qed.

(** The slots and the objects after a split, in the order of the writes and in
    that of the shape. *)
Lemma split_slots_eq s c e' e0 e1 ent t :
  (∀ i, s ≠ Slot c i) →
  (<[s := e']> (node_slots c e0 e1 ent)) t = (<[Slot c 1 := Some e1]> (<[s := e']> (fresh_slots c e0 ent))) t.
Proof. intros Hs. unfold node_slots. fn_ext. Qed.

Lemma split_objects_eq {B} (ob : GlobalAddress → B) x c l m1 m2 ml mc a :
  x ≠ l →
  (<[x := m1]> (<[x := m2]> (<[l := ml]> (<[c := mc]> ob)))) a = (<[l := ml]> (<[x := m1]> (<[c := mc]> ob))) a.
Proof. fn_ext. Qed.

(** ** One new node *)
Lemma run_write_node_one w P ent ob live d M s e mx k v plen b y hx :
  parting P ent ob s e mx k plen b y hx → plen <= hPartialLenMax → leaf_map ob M → uint 64 v →
  mem_inv tree_id w ent ob live d → locked k v (w_locks w (lock_index CityHash64 k)) →
  cache_inv (cached P ent ob) (w_cache w) → (2 ≤ cache_room (w_cache w))%nat → 3 <= heap_blocks (w_alloc w) d →
  ∃ l w', run (out_of_place_write_node CityHash64 k v (Z.of_nat (length (spath P s e)) + 1) gaddr_Null plen y
                 (slot_ptr tree_id s) e) w = Ok ((true, e, l, v), w') ∧ split_post P ent ob d M k v e mx hx w w'.
Proof using Htid.
  intros Hp Hplen Hm Hv Hi Hlock Hcache Hroom Hleft. pose proof Hp as [Hs He Hne Hx Hk _ [Hl1 Hl2] Hgb [Hy _] _ _].
  destruct (entry_live_ok _ _ _ _ _ _ Hs He Hne Hx) as [Heok Hmx]. destruct (parting_byte _ _ _ _ _ _ _ _ _ _ _ Hp) as (Hb & _).
  set (n := length (spath P s e)) in *.
  destruct (run_alloc_node tree_id w ent ob live d Hi ltac:(lia)) as (c & t1 & d1 & Hal & Hi1 & Hb1 & Hc & Hz).
  destruct (run_reserve (set_alloc t1 [[d1]] w) ent ob _ d1 k v Hi1 Hlock) as (l & w2 & w3 & d2 & Hlk & Hal2 & Hi3 & Hq & Em & Hb2 & Hl & Hfr);
    [cbn; lia|].
  destruct (new_page w3 ent ob _ d2 k plen (Z.of_nat n + 1) (slot_ptr tree_id s) Hi3 Hk) as (hc & Hpg & Hhc & Hdc & Htc); [lia..|].
  replace (take _ k) with (take (n + Z.to_nat plen) k) in Hhc by (f_equal; lia).
  assert (Hcl : c ≠ l) by (apply (Hfr c allocationPageSize); by left).
  set (w4 := set_stale (λ i, w_stale w3 (S i)) w3). set (e0 := entry_repartial y e). set (e1 := entry_leaf b leaf_kv_len l).
  edestruct (run_write_page w4 ent ob) with (e0 := e0) (e1 := e1) as (w6 & Hw6 & Hi6 & E6 & _);
    [apply mem_inv_stale; exact Hi3|right; by left|done|cbn; by rewrite Em|by eapply slot_region|apply Hhc|by apply entry_repartial_ok|by apply entry_leaf_ok|].
  pose proof (mi_blocks _ _ _ _ _ _ Hi3) as Hbl.
  pose proof (parting_shape P ent ob M s e mx k v plen b y hx hc c l Hp Hm Hv Hc Hl Hcl Hhc Htc Hdc
    ltac:(eapply block_entry_addr; [exact Hbl|right; by left]) ltac:(eapply block_entry_addr; [exact Hbl|by left])) as Hpl.
  assert (Hno : ∀ i, s ≠ Slot c i) by (intros i ->; by rewrite (above_no_c P ent ob c Hs Hc) in He).
  destruct (run_split_link w w6 P ent ob d M k v s e mx hx c c (<[c := take (n + Z.to_nat plen) k]> P) _ _ _ d2 l
    [(mkPage (slot_ptr tree_id s) hc ([e0; e1; entry_Null; entry_Null] ++ replicate 252 entry_Null), c)] Hi6)
    as (w7 & w8 & w9 & w10 & Hr7 & Hr8 & Hr9 & Hr10 & Hpost);
    [by left|by rewrite fn_lookup_insert_ne|congruence|exact Hk|by rewrite node_slots_old|
     rewrite fn_lookup_insert_ne by congruence; exact Hx|exact Hmx|exact Heok| | | |exact Hcache|exact Hroom| | | |].
  - rewrite node_slots_new. by eexists.
  - eapply placed_ext; [exact Hpl|intros t; by apply split_slots_eq|intros a; apply split_objects_eq; congruence].
  - destruct Hq as [Hq1 Hq2]. rewrite E6. by split.
  - apply Forall_singleton. eapply (page_now_new _ _ _ k (n + Z.to_nat plen)); [..|intros i; rewrite fn_lookup_insert_ne by done; apply node_slots_new].
    + rewrite !fn_lookup_insert_ne by congruence. by rewrite fn_lookup_insert.
    + by rewrite fn_lookup_insert.
    + by apply entry_repartial_ok.
    + by apply entry_leaf_ok.
  - cbn. lia.
  - rewrite E6. cbn in *. lia.
  - exists l, w10. split; [|exact Hpost].
    assert (Enum : plen `quot` (hPartialLenMax + 1) = 0) by (apply Z.quot_small; unfold hPartialLenMax in *; lia).
    eapply (write_node_steps k v _ plen y _ e w [c] c c _ w2 l w3 [] plen _ _ w3 _ b w6 w7 w8 w9 w10); rewrite ?Enum; try done.
Qed.

(** Two nodes: the first one takes as many bytes as a header can hold. *)
Lemma parting_first P ent ob M s e sx kx vx k plen b y hx hc c :
  parting P ent ob s e (MLeaf sx kx vx) k plen b y hx → leaf_map ob M → plen = hPartialLenMax + 1 → ob c = None →
  let n := length (spath P s e) in
  let Q := take (n + 6) k in
  head_ok Q hc → h_node_type hc = NODE_4 → h_depth hc = Z.of_nat n + 1 → e_addr (entry_node (e_partial e) NODE_4 c) = c →
  ∃ y1, get_partial k (Z.of_nat n + 1 + hPartialLenMax) = Ok y1 ∧ is_byte y1 ∧
  let P' := <[c := Q]> P in
  let ent' := <[s := Some (entry_node (e_partial e) NODE_4 c)]> (fresh_slots c (entry_repartial y1 e) ent) in
  let ob' := <[e_addr e := Some (MLeaf (Slot c 0) kx vx)]> (<[c := Some (MNode s hc)]> ob) in
  shape P' ent' ob' ∧ grows_but (λ a, a = c) P ent ob P' ent' ob' ∧ leaf_map ob' M ∧
  parting P' ent' ob' (Slot c 0) (entry_repartial y1 e) (MLeaf (Slot c 0) kx vx) k 0 b y hx ∧
  length (spath P' (Slot c 0) (entry_repartial y1 e)) = (n + 7)%nat.
Proof.
  intros Hp Hm -> Hc n Q Hhc Htc Hdc Hca. pose proof (pa_shape _ _ _ _ _ _ _ _ _ _ _ Hp) as Hs.
  pose proof (pa_ent _ _ _ _ _ _ _ _ _ _ _ Hp) as He. pose proof (pa_ob _ _ _ _ _ _ _ _ _ _ _ Hp) as Hx.
  destruct (parting_byte _ _ _ _ _ _ _ _ _ _ _ Hp) as (Hb & Hkb & Hpre & Hlen). fold n in Hkb, Hpre, Hlen.
  pose proof (pa_key _ _ _ _ _ _ _ _ _ _ _ Hp) as Hk. pose proof (pa_len _ _ _ _ _ _ _ _ _ _ _ Hp) as [_ Hl2]. fold n in Hl2.
  pose proof (pa_target _ _ _ _ _ _ _ _ _ _ _ Hp) as Hpx. fold n in Hpx. cbn [full_path] in Hpx.
  pose proof (pa_b _ _ _ _ _ _ _ _ _ _ _ Hp) as Hgb. fold n in Hgb. pose proof Hk as [Hkl _]. change klen with 8%nat in Hkl.
  unfold hPartialLenMax, keyLen in *. change (Z.to_nat (6 + 1)) with 7%nat in *.
  destruct (get_partial_total k (Z.of_nat n + 1 + 6)) as (y1 & Hy1 & Hy1b); [done|unfold keyLen; lia|].
  pose proof Hy1 as Hat. apply get_partial_at in Hat; [|lia]. replace (Z.to_nat (Z.of_nat n + 1 + 6 - 1)) with (n + 6)%nat in Hat by lia.
  assert (HQ : take (n + 7) k = Q ++ [y1]) by (replace (n + 7)%nat with (S (n + 6)) by lia; by apply take_S_r).
  assert (HlQ : length Q = (n + 6)%nat) by (unfold Q; rewrite length_take; lia).
  exists y1. split; [done|]. split; [done|].
  destruct (shape_above_step P ent ob s e (MLeaf sx kx vx) c hc hx y1 Q Hs He) as (Hs1 & Hg1 & Hm1);
    [apply Hp|done|done| |done| |done|done|done|done|done|].
  { fold n. destruct (pa_way _ _ _ _ _ _ _ _ _ _ _ Hp) as [r Hr]. unfold Q, n. rewrite Hr, take_app_ge by lia. by apply prefix_app_r. }
  { cbn. rewrite HQ in Hpx. by eapply prefix_app_l. }
  cbn [below_slot] in *. split; [exact Hs1|]. split; [exact Hg1|]. split; [by apply Hm1|].
  assert (Hsp : spath (<[c:=Q]> P) (Slot c 0) (entry_repartial y1 e) = take (n + 7) k).
  { cbn. by rewrite fn_lookup_insert, HQ. }
  assert (Hl7 : length (take (n + 7) k) = (n + 7)%nat) by (rewrite length_take; lia).
  split; [|by rewrite Hsp]. split; rewrite ?Hsp, ?Hl7.
  - exact Hs1.
  - rewrite fn_lookup_insert_ne by (intros ->; by rewrite (above_no_c P ent ob c Hs Hc 0) in He). cbn. by rewrite decide_True.
  - pose proof (sh_child _ _ _ Hs s e He) as Hch. rewrite Hx in Hch. destruct (Hch ltac:(apply Hp)) as (_ & -> & _). done.
  - change (e_addr (entry_repartial y1 e)) with (e_addr e). by rewrite fn_lookup_insert.
  - exact Hk.
  - exists (drop (n + 7) k). by rewrite take_drop.
  - unfold keyLen. lia.
  - rewrite <- Hgb. f_equal. lia.
  - apply Hp.
  - cbn. rewrite Nat.add_0_r. exact Hpx.
  - done.
Qed.

(** After the second one, two keys go through the first one too. *)
Lemma parting_both P ent ob s e mx k plen b y hx c n P1 ent1 ob1 P2 ent2 ob2 :
  parting P ent ob s e mx k plen b y hx → (n ≤ length (spath P s e) + Z.to_nat plen)%nat → P2 c = take n k → leaf_key ob2 k →
  grows_but (λ a, a = c) P ent ob P1 ent1 ob1 → grows P1 ent1 ob1 P2 ent2 ob2 → grows P ent ob P2 ent2 ob2.
Proof.
  intros Hp Hn HP Hk Hg1 Hg2.
  assert (Hg : grows_but (λ a, a = c) P ent ob P2 ent2 ob2).
  { eapply grows_trans; [exact Hg1|]. by apply (grows_weaken (λ _, False)). }
  apply (grows_close _ _ _ _ _ _ _ Hg). intros ? ->.
  destruct (parting_other _ _ _ _ _ _ _ _ _ _ _ Hp) as (k0 & Hne & Hk0 & Hp0). exists k, k0. split; [done|]. split; [done|].
  split; [by eapply leaf_key_grows|]. rewrite HP. split; [apply spath_prefix_take|]. etrans; [|exact Hp0].
  replace n with (n `min` (length (spath P s e) + Z.to_nat plen))%nat by lia. rewrite <- take_take. apply spath_prefix_take.
Qed.

(** The slots and the objects after a split with two nodes. *)
Lemma two_slots_eq s c1 c2 e' n2 e1 e2 el ent t :
  c1 ≠ c2 → (∀ i, s ≠ Slot c1 i) → (∀ i, s ≠ Slot c2 i) → (∀ i, ent (Slot c1 i) = None) →
  (<[s := e']> (node_slots c2 e2 el (node_slots c1 n2 entry_Null ent))) t
  = (<[Slot c2 1 := Some el]> (<[Slot c1 0 := Some n2]> (fresh_slots c2 e2 (<[s := e']> (fresh_slots c1 e1 ent))))) t.
Proof.
  intros Hc Hs1 Hs2 Hnone. destruct (slot_of_dec c2 t) as [[i ->]|Ht2].
  - rewrite fn_lookup_insert_ne by done. unfold node_slots at 1.
    destruct (decide (Slot c2 1 = Slot c2 i)) as [<-|Hi]; [by rewrite !fn_lookup_insert|].
    rewrite !(fn_lookup_insert_ne _ (Slot c2 1)), (fn_lookup_insert_ne _ (Slot c1 0)) by (done || congruence).
    cbn. by rewrite !(decide_True (P := c2 = c2)).
  - rewrite (fn_lookup_insert_ne _ (Slot c2 1)) by (intros <-; by destruct (Ht2 1%nat)).
    assert (∀ f : slot → option InternalEntry, fresh_slots c2 e2 f t = f t) as Hf.
    { intros f. destruct t as [|a i]; [done|]. cbn. rewrite decide_False; [done|]. intros ->. by destruct (Ht2 i). }
    destruct (decide (s = t)) as [<-|Hst].
    + rewrite fn_lookup_insert, fn_lookup_insert_ne, Hf by (intros E; by apply (Hs1 0%nat)). by rewrite fn_lookup_insert.
    + rewrite fn_lookup_insert_ne, node_slots_old by done. destruct (slot_of_dec c1 t) as [[i ->]|Ht1].
      * rewrite node_slots_new, front_lookup. unfold base.insert, fn_insert. cbn. repeat case_decide; simplify_eq; first [done|lia].
      * rewrite node_slots_old, (fn_lookup_insert_ne _ (Slot c1 0)), Hf, fn_lookup_insert_ne by first [done|intros <-; by destruct (Ht1 0%nat)].
        destruct t as [|a i]; [done|]. cbn. rewrite decide_False; [done|]. intros ->. by destruct (Ht1 i).
Qed.

Lemma two_objects_eq {B} (ob : GlobalAddress → B) x c1 c2 l m1 m2 m3 ml mc1 mc2 a :
  x ≠ l → x ≠ c2 → x ≠ c1 →
  (<[x := m1]> (<[x := m2]> (<[l := ml]> (<[c2 := mc2]> (<[c1 := mc1]> ob))))) a
  = (<[l := ml]> (<[x := m1]> (<[c2 := mc2]> (<[x := m3]> (<[c1 := mc1]> ob))))) a.
Proof. fn_ext. Qed.

Lemma run_for_two {A} (f : A → proc world unit) x y w w1 w2 :
  run (f x) w = Ok (tt, w1) → run (f y) w1 = Ok (tt, w2) → run (for_each f [x; y]) w = Ok (tt, w2).
Proof. intros Hf1 Hf2. cbn [for_each foldr]. by rewrite run_bind, Hf1, run_bind, Hf2. Qed.

(** The first of two pages. *)
Lemma run_chain_two w k c1 c2 depth plen rev h y :
  page_make (w_stale w 0%nat) k hPartialLenMax depth NODE_4 rev = Ok (mkPage rev h (replicate 256 entry_Null)) →
  get_partial k (depth + hPartialLenMax) = Ok y →
  run (chain_pages k [c1; c2] depth plen rev NODE_4) w
  = Ok (([mkPage rev h ([entry_node y NODE_4 c2; entry_Null; entry_Null; entry_Null] ++ replicate 252 entry_Null)],
         plen - (hPartialLenMax + 1), depth + (hPartialLenMax + 1), GADD c1 page_head), set_stale (λ i, w_stale w (S i)) w).
Proof.
  intros Hpg Hy. cbn [chain_pages]. rewrite run_bind, run_pop_stale, (run_bind_pure _ _ _ _ Hpg), (run_bind_pure _ _ _ _ Hy), run_bind, run_ret.
  done.
Qed.

Lemma run_write_node_two w P ent ob live d M s e sx kx vx k v plen b y hx :
  parting P ent ob s e (MLeaf sx kx vx) k plen b y hx → plen = hPartialLenMax + 1 → leaf_map ob M → uint 64 v →
  mem_inv tree_id w ent ob live d → locked k v (w_locks w (lock_index CityHash64 k)) →
  cache_inv (cached P ent ob) (w_cache w) → (2 ≤ cache_room (w_cache w))%nat → 3 <= heap_blocks (w_alloc w) d →
  ∃ l w', run (out_of_place_write_node CityHash64 k v (Z.of_nat (length (spath P s e)) + 1) gaddr_Null plen y
                 (slot_ptr tree_id s) e) w = Ok ((true, e, l, v), w') ∧ split_post P ent ob d M k v e (MLeaf sx kx vx) hx w w'.
Proof using Htid.
  intros Hp -> Hm Hv Hi Hlock Hcache Hroom Hleft. pose proof Hp as [Hs He Hne Hx Hk _ [_ Hl2] Hgb [Hy _] _ _].
  destruct (entry_live_ok _ _ _ _ _ _ Hs He Hne Hx) as [Heok Hmx]. destruct (parting_byte _ _ _ _ _ _ _ _ _ _ _ Hp) as (Hb & _).
  set (n := length (spath P s e)) in *. change (hPartialLenMax + 1) with 7 in *. unfold keyLen in Hl2.
  destruct (run_alloc_two_nodes tree_id w ent ob live d Hi ltac:(lia)) as (c1 & c2 & t1 & d1 & Hal & Hi1 & Hb1 & Hc1 & Hc2 & Hz1 & Hz2).
  destruct (block_new c2 allocationPageSize _ c1 allocationPageSize (mi_blocks _ _ _ _ _ _ Hi1) ltac:(by left)) as [Hc21 _].
  edestruct (run_reserve (set_alloc t1 [[d1]] w)) as (l & w2 & w3 & d2 & Hlk & Hal2 & Hi3 & [Hq1 Hq2] & Em & Hb2 & Hl & Hfr);
    [exact Hi1|exact Hlock|cbn; lia|]. cbn in Hb2, Em, Hq1, Hq2.
  assert (Hl1 : c1 ≠ l) by (apply (Hfr c1 allocationPageSize); right; by left).
  assert (Hlc2 : c2 ≠ l) by (apply (Hfr c2 allocationPageSize); by left).
  pose proof (mi_blocks _ _ _ _ _ _ Hi3) as Hbl.
  (* the pages *)
  destruct (new_page w3 ent ob _ d2 k hPartialLenMax (Z.of_nat n + 1) (slot_ptr tree_id s) Hi3 Hk) as (h1 & Hpg1 & Hh1 & Hd1 & Ht1);
    [unfold hPartialLenMax, keyLen; lia..|].
  replace (Z.to_nat _) with (n + 6)%nat in Hh1 by (unfold hPartialLenMax; lia).
  destruct (parting_first P ent ob M s e sx kx vx k 7 b y hx h1 c1 Hp Hm ltac:(done) Hc1 Hh1 Ht1 Hd1)
    as (y1 & Hgy1 & Hy1 & _ & Hg1 & Hm1 & Hp1 & Hlen1).
  { eapply block_entry_addr; [exact Hbl|right; right; by left]. }
  fold n in Hgy1, Hg1, Hm1, Hp1, Hlen1. set (P1 := <[c1 := take (n + 6) k]> P) in *.
  set (w4 := set_stale (λ i, w_stale w3 (S i)) w3). set (w5 := set_stale (λ i, w_stale w4 (S i)) w4).
  destruct (new_page w4 ent ob _ d2 k 0 (Z.of_nat n + 1 + 7) (slot_ptr tree_id (Slot c1 0)) (mem_inv_stale _ _ _ _ _ _ Hi3) Hk)
    as (h2 & Hpg2 & Hh2 & Hd2 & Ht2); [unfold hPartialLenMax, keyLen; lia..|].
  replace (Z.to_nat _) with (n + 7 + Z.to_nat 0)%nat in Hh2 by lia. rewrite <- Hlen1 in Hh2.
  set (e2 := entry_repartial y e). set (el := entry_leaf b leaf_kv_len l). set (n2 := entry_node y1 NODE_4 c2).
  assert (n2_ok : entry_ok n2) by (by apply entry_node_ok). assert (e2_ok : entry_ok e2) by (by apply entry_repartial_ok).
  assert (el_ok : entry_ok el) by (by apply entry_leaf_ok).
  edestruct (run_write_page w5 ent ob) with (c := c1) (s := s) (h := h1) (e0 := n2) (e1 := entry_Null) as (w6 & Hw6 & Hi6 & E6 & Hkeep);
    [apply mem_inv_stale, mem_inv_stale; exact Hi3|right; right; by left|done|cbn; by rewrite Em|by eapply slot_region|apply Hh1|done|apply entry_Null_ok|].
  edestruct (run_write_page w6) with (c := c2) (s := Slot c1 0) (h := h2) (e0 := e2) (e1 := el) as (w7 & Hw7 & Hi7 & E7 & _);
    [exact Hi6|right; by left|by rewrite fn_lookup_insert_ne| | |apply Hh2|done|done|].
  { rewrite (Hkeep c2 allocationPageSize); [cbn; by rewrite Em|right; by left|done]. }
  { eapply (slot_region _ _ _ _ _ (Slot c1 0) n2 Hi6). by rewrite node_slots_new. }
  (* the shape *)
  assert (Hno1 : ∀ i, ent (Slot c1 i) = None) by (intros i; by apply (above_no_c P ent ob c1 Hs Hc1)).
  assert (Hs1 : ∀ i, s ≠ Slot c1 i) by (intros i ->; by rewrite Hno1 in He).
  assert (Hs2 : ∀ i, s ≠ Slot c2 i) by (intros i ->; by rewrite (above_no_c P ent ob c2 Hs Hc2) in He).
  assert (Hxl : e_addr e ≠ l) by congruence. assert (Hxc1 : e_addr e ≠ c1) by congruence. assert (Hxc2 : e_addr e ≠ c2) by congruence.
  edestruct (parting_shape P1 _ _ M (Slot c1 0) (entry_repartial y1 e) (MLeaf (Slot c1 0) kx vx) k v 0 b y hx h2 c2 l Hp1 Hm1 Hv)
    as (Hs' & Hg & Hm'); [by rewrite !fn_lookup_insert_ne by done..|done|exact Hh2|done|rewrite Hlen1; lia|
                          eapply block_entry_addr; [exact Hbl|right; by left]|eapply block_entry_addr; [exact Hbl|by left]|].
  set (P' := <[c2 := _]> P1) in *.
  assert (HP1 : P' c1 = take (n + 6) k) by (unfold P', P1; by rewrite fn_lookup_insert_ne, fn_lookup_insert).
  assert (HP2 : P' c2 = take (n + 7) k) by (unfold P'; rewrite fn_lookup_insert, Hlen1; f_equal; lia).
  assert (Hgr := parting_both _ _ _ _ _ _ _ _ _ _ _ c1 (n + 6) _ _ _ _ _ _ Hp ltac:(fold n; lia) HP1
    ltac:(exists l, (Slot c2 1), v; by rewrite fn_lookup_insert) Hg1 Hg).
  edestruct (run_split_link w w7 P ent ob d M k v s e (MLeaf sx kx vx) hx c2 c1 P') with (l := l)
    (pages := [(mkPage (slot_ptr tree_id s) h1 ([n2; entry_Null; entry_Null; entry_Null] ++ replicate 252 entry_Null), c1);
               (mkPage (slot_ptr tree_id (Slot c1 0)) h2 ([e2; el; entry_Null; entry_Null] ++ replicate 252 entry_Null), c2)])
    as (w8 & w9 & w10 & w11 & Hr8 & Hr9 & Hr10 & Hr11 & Hpost);
    [exact Hi7|by left|by rewrite !fn_lookup_insert_ne|done|exact Hk|by rewrite !node_slots_old|
     by rewrite !fn_lookup_insert_ne|exact Hmx|exact Heok|rewrite node_slots_new; by eexists| | |exact Hcache|exact Hroom| | | |].
  { eapply placed_ext; [split; [exact Hs'|split; [exact Hgr|exact Hm']]|intros t; by apply two_slots_eq|intros a; by apply two_objects_eq]. }
  { rewrite E7, E6. by split. }
  { apply Forall_cons; split; [|apply Forall_singleton].
    - eapply page_now_new; [rewrite !fn_lookup_insert_ne by done; by rewrite fn_lookup_insert|exact HP1|done|apply entry_Null_ok|].
      intros i. rewrite fn_lookup_insert_ne, node_slots_old by (done || congruence). apply node_slots_new.
    - eapply page_now_new; [rewrite !fn_lookup_insert_ne by done; by rewrite fn_lookup_insert|exact HP2|done|done|].
      intros i. rewrite fn_lookup_insert_ne by done. apply node_slots_new. }
  { done. } { rewrite E7, E6. cbn. lia. }
  exists l, w11. split; [|exact Hpost].
  eapply (write_node_steps k v _ 7 y _ e w [c1; c2] c2 c1 _ w2 l w3); [exact Hal|done|done|exact Hlk|exact Hal2|by apply run_chain_two|exact Hpg2|
    rewrite <- Hgb; f_equal; lia| |exact Hr8|exact Hr9|exact Hr10|exact Hr11|exact Heok].
  eapply run_for_two; [exact Hw6|exact Hw7].
Qed.
End write.
