(* ===== verification/TreeInsert.v ===== *)
(** * Inserting into the tree

    Each branch of [insert] on a tree of the invariant, whatever the index cache
    knows of it: one round of the loop either leads on, or the tree holds the
    new key and value. *)

From Stdlib Require Import ZArith Lia Bool.
From stdpp Require Import base tactics decidable option numbers functions list gmap.
From S2P Require Import Prelude.
From S2P Require Import Common.
From S2P Require Import Keys.
From S2P Require Import Address.
From S2P Require Import Nodes.
From S2P Require Import Allocators.
From S2P Require Import Memory.
From S2P Require Import Process.
From S2P Require Import LockTable.
From S2P Require Import IndexCache.
From S2P Require Import Tree.
From S2P Require Import TreeSearch.
From S2P Require Import TreeShape.
From S2P Require Import TreeHeap.
From S2P Require Import TreeState.
From S2P Require Import TreeWrite.

(** ** Where keys part *)
Lemma get_partial_lookup k (n : nat) b : (n < 8)%nat → key_ok k → k !! n = Some b → get_partial k (Z.of_nat n + 1) = Ok b.
Proof.
  intros Hn Hk Hb. destruct (get_partial_total k (Z.of_nat n + 1)) as (x & E & _); [done|unfold keyLen; lia|].
  rewrite E. apply get_partial_at in E; [|lia]. replace (Z.to_nat (Z.of_nat n + 1 - 1)) with n in E by lia. congruence.
Qed.

Lemma get_partial_index k d b : 1 <= d → get_partial k d = Ok b → k !! Z.to_nat (d - 1) = Some b.
Proof. intros Hd E. by apply get_partial_at in E. Qed.

(** Two different keys below the same path. *)
Lemma keys_part (k k' : Key) (π : list byte) :
  key_ok k → key_ok k' → π `prefix_of` k → π `prefix_of` k' → k' ≠ k →
  ∃ plen b y, longest_common_prefix k' k (Z.of_nat (length π) + 1) = Ok plen ∧ 0 <= plen ∧
    Z.of_nat (length π) + 1 + plen <= keyLen ∧
    get_partial k (Z.of_nat (length π) + 1 + plen) = Ok b ∧ get_partial k' (Z.of_nat (length π) + 1 + plen) = Ok y ∧
    is_byte y ∧ y ≠ b ∧ (take (length π + Z.to_nat plen) k ++ [y]) `prefix_of` k'.
Proof.
  intros Hk Hk' Hp Hp' Hne. pose proof Hk as [Hl _]. pose proof Hk' as [Hl' _]. change klen with 8%nat in *.
  assert (length π < 8)%nat as Hlt.
  { pose proof (prefix_length _ _ Hp). destruct (decide (length π = 8)%nat) as [E|]; [|lia]. destruct Hne.
    rewrite <- (prefix_length_eq _ _ Hp) by lia. symmetry. apply prefix_length_eq; [done|lia]. }
  destruct (longest_common_prefix_ok k' k (Z.of_nat (length π) + 1)) as (r & E & Hr & Heq & Hdiff); [done|done|unfold keyLen; lia|].
  unfold keyLen in *.
  assert (Hsame : ∀ j : nat, (j < length π + Z.to_nat r)%nat → (j < 8)%nat → k' !! j = k !! j).
  { intros j Hj Hj8. destruct (decide (j < length π)%nat) as [Hjp|Hjp].
    - destruct Hp as [t ->], Hp' as [t' ->]. by rewrite !lookup_app_l.
    - pose proof (Heq (Z.of_nat (j - length π)) ltac:(lia)) as Hj'.
      destruct (get_partial_total k (Z.of_nat (length π) + 1 + Z.of_nat (j - length π))) as (x & Ex & _); [done|unfold keyLen; lia|].
      rewrite Ex in Hj'. apply get_partial_index in Ex, Hj'; [|lia..].
      replace (Z.to_nat _) with j in Ex, Hj' by lia. congruence. }
  assert (Hr8 : Z.of_nat (length π) + 1 + r <= 8).
  { destruct (Z.le_gt_cases (Z.of_nat (length π) + 1 + r) 8); [done|]. destruct Hne. apply list_eq. intros j.
    destruct (decide (j < 8)%nat); [apply Hsame; lia|]. by rewrite !lookup_ge_None_2 by lia. }
  destruct (get_partial_total k (Z.of_nat (length π) + 1 + r)) as (b & Eb & Hb); [done|unfold keyLen; lia|].
  destruct (get_partial_total k' (Z.of_nat (length π) + 1 + r)) as (y & Ey & Hy); [done|unfold keyLen; lia|].
  exists r, b, y. specialize (Hdiff ltac:(lia)). split; [done|]. split; [lia|]. split; [done|]. split; [done|]. split; [done|].
  split; [done|]. split; [congruence|]. apply get_partial_index in Ey; [|lia].
  replace (Z.to_nat _) with (length π + Z.to_nat r)%nat in Ey by lia.
  assert (take (length π + Z.to_nat r) k = take (length π + Z.to_nat r) k') as ->.
  { apply list_eq. intros j. destruct (decide (j < length π + Z.to_nat r)%nat).
    - rewrite !lookup_take_lt by done. symmetry. apply Hsame; lia.
    - by rewrite !lookup_take_ge by lia. }
  rewrite <- (take_S_r _ _ _ Ey). apply spath_prefix_take.
Qed.

(** A key against the header of a node with path [ρ]. *)
Section header.
Context (k : Key) (ρ : list byte) (h : Header) (Hk : key_ok k) (Hh : head_ok ρ h).
Context (Hway : take (Z.to_nat (h_depth h - 1)) ρ `prefix_of` k).

Lemma head_bytes j : (j < Z.to_nat (h_partial_len h))%nat → h_partial h !! j = ρ !! (Z.to_nat (h_depth h - 1) + j)%nat.
Proof using Hh.
  intros Hj. destruct Hh as (_ & _ & _ & _ & _ & _ & Hpart).
  by rewrite <- (lookup_take_lt _ (Z.to_nat (h_partial_len h))), Hpart, lookup_drop by done.
Qed.

Lemma head_length : length ρ = (Z.to_nat (h_depth h - 1) + Z.to_nat (h_partial_len h))%nat ∧ (length ρ < 8)%nat ∧
  length (take (Z.to_nat (h_depth h - 1)) ρ) = Z.to_nat (h_depth h - 1).
Proof using Hh.
  destruct Hh as ((_ & _ & Hpl & _) & _ & Hd & _ & Hle & Hlen & _). unfold uint in Hpl. unfold keyLen in Hle.
  rewrite length_take. lia.
Qed.

Lemma head_agree (n : nat) : (n ≤ Z.to_nat (h_partial_len h))%nat →
  (∀ j, (j < n)%nat → h_partial h !! j = k !! (Z.to_nat (h_depth h - 1) + j)%nat) →
  take (Z.to_nat (h_depth h - 1) + n) k = take (Z.to_nat (h_depth h - 1) + n) ρ.
Proof using Hh Hway.
  intros Hn Hj. destruct head_length as (Hlen & _ & Ht). set (m := Z.to_nat (h_depth h - 1)) in *.
  apply list_eq. intros j. destruct (decide (j < m + n)%nat); [|by rewrite !lookup_take_ge by lia].
  rewrite !lookup_take_lt by done. destruct (decide (j < m)%nat).
  - destruct Hway as [r Hr]. rewrite Hr, lookup_app_l by (rewrite Ht; lia). by rewrite lookup_take_lt.
  - replace j with (m + (j - m))%nat by lia. unfold m. rewrite <- head_bytes, Hj by lia. done.
Qed.

Lemma head_part :
  ∃ d, header_diff h k (Z.to_nat (h_partial_len h)) 0 = Ok d ∧
  match d with
  | Some (i, q) => 0 <= i < h_partial_len h ∧ is_byte q ∧
      (∃ b, get_partial k (h_depth h + i) = Ok b ∧ q ≠ b) ∧
      (take (Z.to_nat (h_depth h - 1) + Z.to_nat i) k ++ [q]) `prefix_of` ρ
  | None => ρ `prefix_of` k ∧
      ∃ b, get_partial k (h_depth h + h_partial_len h) = Ok b ∧ is_byte b ∧ (ρ ++ [b]) `prefix_of` k
  end.
Proof using Hk Hh Hway.
  pose proof Hh as (Hok & _ & Hd & Hpl & Hle & Hlen & Hpart). pose proof Hok as (_ & _ & Hpl0 & _). unfold uint in Hpl0.
  destruct head_length as (Hlr & Hl8 & Ht). pose proof Hk as [Hkl _]. change klen with 8%nat in Hkl.
  destruct (header_diff_spec h k (Z.to_nat (h_partial_len h)) 0) as (d & E & Hr); [done|done|done|lia|unfold keyLen in *; lia|lia|].
  exists d. split; [done|]. change (Z.to_nat 0) with 0%nat in Hr. unfold keyLen in Hle. destruct d as [[i q]|].
  - destruct Hr as (Hi & Hq & Hne & Hj). split; [lia|].
    destruct (get_partial_total k (h_depth h + i)) as (b & Eb & Hb); [done|unfold keyLen; lia|].
    pose proof Eb as Ei. apply get_partial_index in Ei; [|lia].
    replace (Z.to_nat (h_depth h + i - 1)) with (Z.to_nat (h_depth h - 1) + Z.to_nat i)%nat in Ei by lia.
    split; [|split; [exists b; split; [done|congruence]|]].
    + destruct Hok as (_ & _ & _ & _ & Hf). by eapply Forall_lookup_1.
    + rewrite head_agree by (intros; apply Hj; lia) || lia. rewrite head_bytes in Hq by lia.
      rewrite <- (take_S_r _ _ _ Hq). apply spath_prefix_take.
  - assert (Hpre : ρ `prefix_of` k).
    { pose proof (head_agree (Z.to_nat (h_partial_len h)) ltac:(lia) ltac:(intros; apply Hr; lia)) as Ha.
      rewrite <- Hlr in Ha. rewrite (take_ge ρ) in Ha by lia. exists (drop (length ρ) k). rewrite <- Ha at 1. by rewrite take_drop. }
    split; [done|]. destruct (get_partial_total k (h_depth h + h_partial_len h)) as (b & Eb & Hb); [done|unfold keyLen; lia|].
    exists b. split; [done|]. split; [done|]. apply get_partial_index in Eb; [|lia].
    replace (Z.to_nat (h_depth h + h_partial_len h - 1)) with (length ρ) in Eb by lia.
    destruct Hpre as [r Hr']. assert (take (length ρ) k = ρ) as Htk by (rewrite Hr'; apply take_app_length).
    rewrite <- Htk at 1. rewrite <- (take_S_r _ _ _ Eb). apply spath_prefix_take.
Qed.

(** A byte that differs leads off the path. *)
Lemma head_off i q :
  0 <= i < h_partial_len h → (∃ b, get_partial k (h_depth h + i) = Ok b ∧ q ≠ b) →
  (take (Z.to_nat (h_depth h - 1) + Z.to_nat i) k ++ [q]) `prefix_of` ρ → ¬ ρ `prefix_of` k.
Proof using Hk Hh.
  intros Hir (b & Eb & Hqb) Hpq Hpk. pose proof Hh as (_ & _ & Hd1 & _ & Hle & _). pose proof Hk as [Hkl _].
  change klen with 8%nat in Hkl. unfold keyLen in Hle. apply get_partial_index in Eb; [|lia].
  assert (Hpk' : (take (Z.to_nat (h_depth h - 1) + Z.to_nat i) k ++ [q]) `prefix_of` k) by by etrans.
  destruct Hpk' as [t Et]. rewrite Et in Eb at 1. rewrite <- app_assoc, lookup_app_r in Eb by (rewrite length_take; lia).
  rewrite length_take in Eb. replace (Z.to_nat (h_depth h + i - 1) - _)%nat with 0%nat in Eb by lia. cbn in Eb. congruence.
Qed.

(** The header that is left when the node is split at byte [i]. *)
Lemma head_split i : 0 <= i < h_partial_len h →
  ∃ hs, split_header h i = Ok hs ∧
    let hx := Hdr (h_depth hs) (h_node_type h) (h_partial_len hs) (h_partial hs) in
    header_ok hs ∧ head_ok ρ hx ∧ h_depth hx = h_depth h + i + 1.
Proof using Hh.
  intros Hi. pose proof Hh as (Hok & Ht & Hd & Hpl & Hle & Hlen & Hpart). unfold keyLen in *.
  destruct (split_header_fields h i Hok Hi Hpl ltac:(unfold keyLen; lia)) as (hs & E & Hoks & _ & Hds & Hps & Hj).
  exists hs. split; [done|]. cbn zeta. cbn [h_depth]. split; [done|]. split; [|done].
  pose proof Hoks as (H1' & _ & H3' & H4' & H5'). destruct head_length as (Hlr & Hl8 & _).
  unfold head_ok. cbn [h_depth h_node_type h_partial_len h_partial]. unfold hPartialLenMax, keyLen in *.
  split; [split; [exact H1'|]; split; [apply Hok|]; split; [exact H3'|by split]|]. do 4 (split; [lia|]). split; [lia|].
  apply list_eq. intros j. rewrite lookup_drop. destruct (decide (j < Z.to_nat (h_partial_len hs))%nat).
  - rewrite lookup_take_lt, Hj, head_bytes by lia. f_equal. lia.
  - rewrite lookup_take_ge by lia. symmetry. apply lookup_ge_None_2. lia.
Qed.
End header.

(** ** One round of the loop *)
Section insert.
Context `{Checksum} `{IndexCacheLaws} {others : Others} (CityHash64 : list byte → Z) (tree_id : Z) (Htid : tree_id_ok tree_id).

Record tree_inv (w : world) (P : GlobalAddress → list byte) (ent : slot → option InternalEntry)
    (ob : GlobalAddress → option meta) (live : block_list) (d : Directory) (M : gmap Key Z) : Prop := {
  ti_shape : shape P ent ob;
  ti_mem : mem_inv tree_id w ent ob live d;
  ti_cache : cache_inv (cached P ent ob) (w_cache w);
  ti_map : leaf_map ob M;
  ti_forked : forked P ob
}.

(** The loop is at slot [sl], with an entry that is current, or one that the
    cache knows; [k] goes through the slot. *)
Definition at_slot (P : GlobalAddress → list byte) (ent : slot → option InternalEntry) (ob : GlobalAddress → option meta)
    (k : Key) (sl : slot) (p_ptr : GlobalAddress) (e : InternalEntry) (depth : Z) (ho : option handle) (w : world) : Prop :=
  p_ptr = slot_ptr tree_id sl ∧ spath P sl e `prefix_of` k ∧ depth = Z.of_nat (length (spath P sl e)) + 1 ∧
  from_lookup ho w ∧ known ent ob sl e ∧ (ho = None → ent sl = Some e).

(** How many rounds may follow: a level less for each, and one more when the
    entry is from the cache. *)
Definition rounds (P : GlobalAddress → list byte) (sl : slot) (e : InternalEntry) (ho : option handle) : nat :=
  (9 - length (spath P sl e) + if from_cache ho then 1 else 0)%nat.

Lemma spath_partial P sl e e' : e_partial e' = e_partial e → spath P sl e' = spath P sl e.
Proof. intros E. destruct sl; cbn; by rewrite ?E. Qed.

(** The current entry of the slot. *)
Lemma at_slot_current w P ent ob live d M k sl p_ptr e depth ho :
  tree_inv w P ent ob live d M → at_slot P ent ob k sl p_ptr e depth ho w →
  ∃ e', ent sl = Some e' ∧ e' ≠ entry_Null ∧ e_partial e' = e_partial e ∧ entry_ok e' ∧
        entry_of_val (load_word (w_mem w) (dsm_region p_ptr) (offset p_ptr)) = e'.
Proof.
  intros Hi (-> & _ & _ & _ & ((e' & He' & Hne & Hpe) & _) & _).
  assert (entry_ok e') as Hok by (by eapply (sh_entry _ _ _ (ti_shape _ _ _ _ _ _ _ Hi))).
  exists e'. split_and!; [done..|]. eapply read_slot_at; [eapply mi_blocks, Hi|apply Hi|done|done].
Qed.

(** After an entry of the cache turned out to be stale, it is read again. *)
Lemma reread_round w P ent ob live d M k sl p_ptr e depth h :
  tree_inv w P ent ob live d M → at_slot P ent ob k sl p_ptr e depth (Some h) w →
  ∃ e' c, run (invalidate_if (Some h)) w = Ok (tt, set_cache c w) ∧
    run (read_entry p_ptr) (set_cache c w) = Ok (e', set_cache c w) ∧
    cache_after (cached P ent ob) 0 (w_cache w) c ∧
    at_slot P ent ob k sl p_ptr e' depth None (set_cache c w) ∧ rounds P sl e (Some h) = S (rounds P sl e' None).
Proof.
  intros Hi Hat. destruct (at_slot_current _ _ _ _ _ _ _ _ _ _ _ _ _ Hi Hat) as (e' & He' & Hne & Hpe & Hok & Hread).
  pose proof Hat as (Hp & Hway & Hd & Hf & Hkn & _).
  destruct (run_invalidate _ (Some h) w (ti_cache _ _ _ _ _ _ _ Hi) Hf) as (c & Hr & Hafter).
  pose proof (spath_partial P sl e e' Hpe) as Hsp.
  exists e', c. split; [done|]. split; [rewrite run_read_entry; cbn [w_mem set_cache]; by rewrite Hread|]. split; [done|]. split.
  - unfold at_slot. rewrite Hsp. split; [done|]. split; [done|]. split; [done|]. split; [done|].
    split; [|done]. by eapply known_current; [apply Hi|..].
  - unfold rounds. rewrite Hsp. cbn [from_cache]. apply prefix_length in Hway. lia.
Qed.

(** Reading the leaf that an entry points to. *)
Lemma run_read_leaf_at w P ent ob live d M fuel sl e s' k' v' p_ptr (fc : bool) :
  tree_inv w P ent ob live d M → known ent ob sl e → ob (e_addr e) = Some (MLeaf s' k' v') →
  (fc = false → p_ptr = slot_ptr tree_id s') →
  e_is_leaf e = true ∧
  run (read_leaf (S fuel) (e_addr e) (leaf_read_size e) p_ptr fc) w
  = Ok ((negb fc || gaddr_eqb p_ptr (slot_ptr tree_id s'), leaf_make k' v' (slot_ptr tree_id s')), w).
Proof.
  intros Hi [_ Hkn] Ho Hfc. rewrite Ho in Hkn. split; [by rewrite Hkn|].
  assert (leaf_read_size e = sizeof_Leaf) as -> by (unfold leaf_read_size; by rewrite Hkn).
  pose proof (ti_shape _ _ _ _ _ _ _ Hi) as Hs. pose proof (ti_mem _ _ _ _ _ _ _ Hi) as Hm.
  destruct (sh_leaf _ _ _ Hs _ _ _ _ Ho) as [Hk Hv].
  assert (gaddr_ok (slot_ptr tree_id s')) as Hsok.
  { destruct (sh_parent _ _ _ Hs _ _ Ho) as (e' & He' & _). cbn in He'. by destruct (slot_region _ _ _ _ _ _ _ _ Hm He') as (_ & ? & _). }
  pose proof (read_leaf_at tree_id _ _ _ _ (mi_blocks _ _ _ _ _ _ Hm) (mi_holds _ _ _ _ _ _ Hm) _ _ _ _ Ho Hk Hv Hsok) as Hl.
  unfold read_leaf. rewrite (run_loop _ _ _ _ (Done (negb fc || gaddr_eqb p_ptr (slot_ptr tree_id s'), leaf_make k' v' (slot_ptr tree_id s'))) w); [done|].
  rewrite run_bind, run_read_sync, Hl, run_bind.
  change (l_rev_ptr (leaf_make k' v' (slot_ptr tree_id s'))) with (slot_ptr tree_id s').
  assert (negb fc && negb (gaddr_eqb (slot_ptr tree_id s') p_ptr) = false) as ->.
  { destruct fc; [done|]. rewrite Hfc by done. by destruct (gaddr_eqb_spec (slot_ptr tree_id s') (slot_ptr tree_id s')). }
  rewrite run_ret. unfold leaf_is_valid. change (l_valid (leaf_make k' v' (slot_ptr tree_id s'))) with true.
  change (l_rev_ptr (leaf_make k' v' (slot_ptr tree_id s'))) with (slot_ptr tree_id s').
  change (is_consistent (leaf_make k' v' (slot_ptr tree_id s'))) with (crc64 (k' ++ le_bytes 8 v') =? crc64 (k' ++ le_bytes 8 v')).
  rewrite Z.eqb_refl. cbn [andb]. by destruct (negb fc || gaddr_eqb p_ptr (slot_ptr tree_id s')).
Qed.

(** The entry with the type that was found. *)
Lemma found_type_node e t t' :
  e = entry_node (e_partial e) t (e_addr e) → 1 <= t <= 7 → found_type e t' = entry_node (e_partial e) t' (e_addr e).
Proof.
  intros Ee Ht. assert (e_node_type e = t) as Hety by (rewrite Ee; apply entry_node_type; unfold uint; lia).
  unfold found_type. rewrite Hety. destruct (Z.eqb_spec t' t) as [->|_]; [done|].
  assert (e_empty e = 0 ∧ e_is_leaf e = false ∧ e_packed_addr e = pack_gaddr (e_addr e)) as (-> & -> & ->).
  { rewrite Ee. cbn [e_is_leaf e_packed_addr entry_node]. split; [|split; [done|]].
    - unfold e_empty, bf, kv_of_type. cbn [e_kv_len entry_node]. change (kvLenBit - nodeTypeNumBit) with 2.
      change (2 ^ 0) with 1. rewrite Z.div_1_r. by apply Z.mod_mul.
    - rewrite <- Ee. done. }
  done.
Qed.

(** Reading the node that an entry points to. *)
Lemma run_read_node_at w P ent ob live d M sl e s' h p_ptr depth (fc : bool) :
  tree_inv w P ent ob live d M → known ent ob sl e → ob (e_addr e) = Some (MNode s' h) →
  (fc = false → p_ptr = slot_ptr tree_id s') →
  e_is_leaf e = false ∧
  ∃ c, run (read_node e p_ptr depth fc) w
       = Ok ((entry_node (e_partial e) (h_node_type h) (e_addr e), h_node_type h =? e_node_type e,
              page_at (w_mem w) (e_addr e) c, (h_depth h <=? depth) && (negb fc || gaddr_eqb p_ptr (slot_ptr tree_id s'))), w) ∧
    (cnt h ≤ c ≤ 256)%nat ∧ pg_hdr (page_at (w_mem w) (e_addr e) c) = h ∧
    (∀ i ei, (i < c)%nat → ent (Slot (e_addr e) i) = Some ei → pg_records (page_at (w_mem w) (e_addr e) c) !! i = Some ei).
Proof.
  intros Hi [_ Hkn] Ho Hfc. rewrite Ho in Hkn. destruct Hkn as (t & Ee & Ht). split; [by rewrite Ee|].
  pose proof (ti_shape _ _ _ _ _ _ _ Hi) as Hs. pose proof (ti_mem _ _ _ _ _ _ _ Hi) as Hm.
  destruct (sh_node _ _ _ Hs _ _ _ Ho) as (Hhok & Hht & _).
  assert (gaddr_ok (slot_ptr tree_id s')) as Hsok.
  { destruct (sh_parent _ _ _ Hs _ _ Ho) as (e' & He' & _). cbn in He'. by destruct (slot_region _ _ _ _ _ _ _ _ Hm He') as (_ & ? & _). }
  destruct (read_page_at tree_id _ _ _ _ (mi_blocks _ _ _ _ _ _ Hm) (mi_holds _ _ _ _ _ _ Hm) _ _ _ Ho Hhok Hsok) as (Hrev & Hhdr & Hrec).
  destruct (obj_place tree_id _ _ _ _ (mi_blocks _ _ _ _ _ _ Hm) (mi_holds _ _ _ _ _ _ Hm) _ _ Ho) as (_ & _ & _ & Hge & Hlt & _).
  cbn [block_size] in Hlt. rewrite pad_node in Hlt.
  assert (e_node_type e = t) as Hety by (rewrite Ee; apply entry_node_type; unfold uint; lia).
  destruct (run_read_page e p_ptr depth fc w) as (c & Hrun & Hc); rewrite ?Hhdr, ?Hety, ?Hrev in *.
  { change kChunkSize with 16777216 in Hge. unfold uint. lia. } { lia. } { lia. } { intros Hf. by rewrite Hfc. }
  exists c. split; [|split; [exact Hc|split; [exact Hhdr|]]].
  - rewrite Hrun, (found_type_node e t) by (done || lia).
    unfold page_is_valid. rewrite Hhdr, Hrev. rewrite (proj2 (Z.eqb_neq _ NODE_DELETED)) by (unfold NODE_DELETED; lia). done.
  - intros i ei Hic Hei. assert (i < 256)%nat by lia. rewrite <- (page_at_take _ _ c 256) by lia.
    rewrite lookup_take_lt by done. apply Hrec; [done|]. by eapply (sh_entry _ _ _ Hs).
Qed.
(** *** The outcome of a round *)

(** What the operation may use up: three blocks and [room] additions to the
    cache. The lock nodes are as before. *)
Definition spent (room : nat) (w : world) (d : Directory) (w' : world) (d' : Directory) : Prop :=
  (∀ j, w_locks w' j = w_locks w j) ∧
  heap_blocks (w_alloc w) d - 3 <= heap_blocks (w_alloc w') d' ∧
  (cache_room (w_cache w) ≤ room + cache_room (w_cache w'))%nat.

(** The tree has grown, and now holds [M]. *)
Definition settled (P : GlobalAddress → list byte) (ent : slot → option InternalEntry) (ob : GlobalAddress → option meta) (room : nat) 
    (w : world) (d : Directory) (M : gmap Key Z) (w' : world) : Prop :=
  ∃ P' ent' ob' live' d', tree_inv w' P' ent' ob' live' d' M ∧ grows P ent ob P' ent' ob' ∧ spent room w d w' d'.

Lemma tree_inv_settled w P ent ob live d M w' P' ent' ob' live' d' M' :
  tree_inv w P ent ob live d M →
  mem_inv tree_id w' ent' ob' live' d' → quiet w w' → heap_blocks (w_alloc w) d - 3 <= heap_blocks (w_alloc w') d' →
  shape P' ent' ob' → grows P ent ob P' ent' ob' → leaf_map ob' M' → settled P ent ob 0 w d M' w'.
Proof.
  intros Hi Hm [Hc Hl] Hb Hs Hg Hlm. exists P', ent', ob', live', d'. split.
  - split; [done|done| |done|eapply forked_grows; [exact Hg|apply Hi]]. rewrite Hc. eapply law_mono; [|apply Hi].
    intros k0 p a. by eapply cached_grows.
  - split; [done|]. split; [done|]. split; [done|]. rewrite Hc. lia.
Qed.

(** 1. The first key. *)
Lemma insert_null_run w P ent ob live d M k v np :
  tree_inv w P ent ob live d M → ent SRoot = Some entry_Null →
  locked k v (w_locks w (lock_index CityHash64 k)) → key_ok k → uint 64 v → 3 <= heap_blocks (w_alloc w) d →
  ∃ w', run (insert_null CityHash64 k (Ins (slot_ptr tree_id SRoot) entry_Null np 1 None gaddr_Null v)) w = Ok (Done tt, w') ∧
    settled P ent ob 0 w d (<[k := v]> M) w'.
Proof.
  intros Hi Hroot Hlock Hk Hv Hb. pose proof (ti_shape _ _ _ _ _ _ _ Hi) as Hs.
  destruct (run_write_leaf CityHash64 tree_id Htid w ent ob live d k v SRoot entry_Null 0) as (l & w' & d' & Hr & Hm & Hq & Hb' & Hl & Ha);
    [apply Hi|done|done|apply entry_Null_ok|by unfold is_byte|done|lia|].
  exists w'. split.
  - unfold insert_null. cbn [i_from i_depth i_v i_leaf i_p_ptr i_p from_cache negb check].
    rewrite (run_bind_pure _ _ tt) by done. rewrite (run_bind_pure _ _ 0) by done. rewrite run_bind, Hr. done.
  - eapply (tree_inv_settled w P ent ob); [exact Hi|exact Hm|exact Hq|lia| | |].
    + by apply shape_root_leaf.
    + by apply grows_add.
    + apply leaf_map_add; [apply Hi|done|]. intros c sc vc Hc. by rewrite (shape_empty P ent ob Hs c Hroot) in Hc.
Qed.
(** 2. The key is there: its leaf is locked and written in place. *)
Lemma lock_bit_clear (m : shared_mem) o b : is_byte b → m node0 o = b → m node0 (o + 1) = 0 →
  masked_eq 0 (load_word m node0 o) lock_mask = true.
Proof.
  intros Hb H0' H1'. unfold masked_eq. rewrite Z.land_0_l. apply Z.eqb_eq. symmetry. change lock_mask with (2 ^ 8).
  apply Z.bits_inj'. intros n Hn. rewrite Z.land_spec, Z.pow2_bits_eqb, Z.bits_0 by lia.
  destruct (Z.eqb_spec 8 n) as [<-|_]; [|by rewrite andb_false_r]. rewrite andb_true_r.
  unfold load_word, load, le_int. cbn [seq fmap list_fmap little_endian_to_Z].
  change (Z.of_nat 0) with 0. change (Z.of_nat 1) with 1. rewrite Z.add_0_r, H0', H1'.
  match goal with |- context [Z.lor 0 (?x ≪ 8)] => generalize x end. intros x.
  rewrite Z.lor_spec, Z.lor_0_l, !Z.shiftl_spec by lia. rewrite (testbit_small b 8) by (exact Hb || lia).
  by apply Z.testbit_neg_r.
Qed.
Lemma leaf_last_bytes (m : shared_mem) o k v p :
  load m node0 o (Z.to_nat sizeof_Leaf) = leaf_bytes (leaf_make k v p) → key_ok k →
  is_byte (m node0 (o + 32)) ∧ m node0 (o + 32 + 1) = 0.
Proof.
  intros Hl [Hk _]. change klen with 8%nat in Hk.
  assert (∀ i : nat, (i < 34)%nat → leaf_bytes (leaf_make k v p) !! i = Some (m node0 (o + Z.of_nat i))) as Hi.
  { intros i Hlt. rewrite <- Hl. by apply lookup_load. }
  set (pre := le_bytes 8 (gaddr_val p) ++ [128] ++ le_bytes 8 (leaf_crc (leaf_make k v p)) ++ k).
  assert (Hpre : length pre = 25%nat) by (unfold pre; rewrite !length_app, !length_le_bytes, Hk; done).
  assert (E : leaf_bytes (leaf_make k v p) = pre ++ le_bytes 8 v ++ [0]).
  { unfold pre. rewrite <- !app_assoc. done. }
  rewrite E in Hi. split.
  - pose proof (Hi 32%nat ltac:(lia)) as H32. rewrite lookup_app_r, Hpre, lookup_app_l in H32 by (rewrite ?length_le_bytes; lia).
    eapply Forall_lookup_1; [apply (le_bytes_byte 8 v)|exact H32].
  - pose proof (Hi 33%nat ltac:(lia)) as H33. rewrite lookup_app_r, Hpre, lookup_app_r, length_le_bytes in H33 by (rewrite ?length_le_bytes; lia).
    cbn in H33. injection H33 as H33. rewrite H33. f_equal. lia.
Qed.

Lemma run_update w ent ob live d a s k v0 v :
  mem_inv tree_id w ent ob live d → ob a = Some (MLeaf s k v0) → key_ok k → locked k v (w_locks w (lock_index CityHash64 k)) →
  ∃ w', run (in_place_update_leaf CityHash64 k v a (leaf_make k v0 (slot_ptr tree_id s))) w = Ok (v, w') ∧
    mem_inv tree_id w' ent (<[a := Some (MLeaf s k v)]> ob) live d ∧ quiet w w' ∧ w_alloc w' = w_alloc w.
Proof using Htid.
  intros Hi Ha Hk Hlock. pose proof (mi_blocks _ _ _ _ _ _ Hi) as Hbl. pose proof (mi_holds _ _ _ _ _ _ Hi) as Hh.
  destruct (obj_place tree_id _ _ _ _ Hbl Hh _ _ Ha) as (Haok & Hn & _ & Hge & Hlt & Hin). cbn [block_size] in Hlt, Hin.
  rewrite pad_leaf in Hlt. change kChunkSize with 16777216 in Hge.
  assert (Hoff : offset (GADD a lock_cas_offset) = offset a + 32).
  { change lock_cas_offset with 32. apply GADD_offset. unfold uint. lia. }
  assert (Hreg : dsm_region (GADD a lock_cas_offset) = node0) by (unfold dsm_region; cbn; by rewrite Hn).
  destruct (leaf_last_bytes _ _ _ _ _ (ho_leaf _ _ _ _ _ Hh _ _ _ _ Ha) Hk) as [H32 H33].
  pose proof (lock_bit_clear _ _ _ H32 eq_refl H33) as Hfree.
  set (w1 := set_mem (store_word (w_mem w) node0 (offset a + 32)
               (masked_put (load_word (w_mem w) node0 (offset a + 32)) (2 ^ 64 - 1) lock_mask)) w).
  assert (Hacq : run (acquire_lock a) w = Ok (tt, w1)).
  { unfold acquire_lock. cbn [run]. cbv zeta. rewrite Hreg, Hoff. unfold mem_cas_mask. rewrite Hfree.
    assert (masked_eq (load_word (w_mem w) node0 (offset a + 32)) 0 lock_mask = true) as ->; [|done].
    unfold masked_eq in *. by rewrite Z.eqb_sym. }
  destruct (run_combining CityHash64 k v w1 Hlock) as (lk & Hrl & Hlk).
  set (lf := leaf_make k v (slot_ptr tree_id s)).
  eexists. split.
  { unfold in_place_update_leaf. rewrite run_bind, Hacq. rewrite (run_bind_pure _ _ tt).
    2: { change (l_key (leaf_make k v0 (slot_ptr tree_id s))) with k. unfold key_eqb. by rewrite bool_decide_true. }
    rewrite run_bind, Hrl. change (leaf_unlock _) with lf. rewrite run_bind, run_write_sync. rewrite run_ret. done. }
  unfold dsm_region. rewrite Hn. fold node0. split; [|by split; [split; [|intros j; cbn; rewrite Hlk]|]].
  split; [|apply Hi..]. cbn [w_mem set_mem].
  assert (length (leaf_bytes lf) = 34%nat) as Hll by (by rewrite length_leaf_bytes).
  eapply holds_value; [exact Htid|exact Hbl|exact Hh|exact Ha| |].
  - intros o Ho. unfold inside in Ho. cbn [fst snd] in Ho. rewrite pad_leaf in Ho.
    rewrite store_outside by (rewrite Hll; right; lia). cbn [w_mem set_locks w1 set_mem].
    apply store_outside. rewrite length_le_bytes. right. lia.
  - change (Z.to_nat sizeof_Leaf) with 34%nat. rewrite <- Hll. apply load_store_same.
Qed.
(** The map after the insertion. *)
Definition inserted (is_load : bool) (k : Key) (v : Z) (M : gmap Key Z) : gmap Key Z :=
  if is_load && bool_decide (is_Some (M !! k)) then M else <[k := v]> M.

(** After a round at slot [sl]: the operation is done, or the loop goes on
    nearer to the leaves with the tree as it was. *)
Definition round_post P ent ob live d M (k : Key) (v : Z) (is_load : bool) (room n : nat) (w : world)
    (r : step_result insert_state unit) (w' : world) : Prop :=
  match r with
  | Done _ => settled P ent ob room w d (inserted is_load k v M) w'
  | Again s =>
    ∃ sl, tree_inv w' P ent ob live d M ∧ at_slot P ent ob k sl (i_p_ptr s) (i_p s) (i_depth s) (i_from s) w' ∧
      i_leaf s = gaddr_Null ∧ i_v s = v ∧ (rounds P sl (i_p s) (i_from s) < n)%nat ∧
      (∀ j, w_locks w' j = w_locks w j) ∧ w_alloc w' = w_alloc w ∧
      (cache_room (w_cache w) ≤ room + cache_room (w_cache w'))%nat
  end.

Lemma settled_mono P ent ob room room' w d M w' : (room ≤ room')%nat → settled P ent ob room w d M w' → settled P ent ob room' w d M w'.
Proof.
  intros Hle (P' & ent' & ob' & live' & d' & Hi & Hg & Hl & Hb & Hr). exists P', ent', ob', live', d'. split; [done|]. split; [done|].
  split_and!; [done..|lia].
Qed.

Lemma round_post_mono P ent ob live d M k v is_load room room' n w r w' :
  (room ≤ room')%nat → round_post P ent ob live d M k v is_load room n w r w' → round_post P ent ob live d M k v is_load room' n w r w'.
Proof.
  intros Hle Hpost. destruct r as [s|u]; [|by eapply settled_mono].
  destruct Hpost as (sl & ? & ? & ? & ? & ? & ? & ? & ?). exists sl. split_and!; try done. lia.
Qed.

(** Is what the entry points to still at its slot? *)
Lemma at_slot_target w P ent ob live d M k sl p_ptr e depth ho m :
  tree_inv w P ent ob live d M → at_slot P ent ob k sl p_ptr e depth ho w → ob (e_addr e) = Some m →
  (ho = None → p_ptr = slot_ptr tree_id (m_slot m)) ∧
  ((∃ h, ho = Some h ∧ gaddr_eqb p_ptr (slot_ptr tree_id (m_slot m)) = false) ∨
   (negb (from_cache ho) || gaddr_eqb p_ptr (slot_ptr tree_id (m_slot m)) = true ∧ m_slot m = sl ∧
    ∃ e', ent sl = Some e' ∧ e' ≠ entry_Null ∧ e_partial e' = e_partial e ∧ e_addr e' = e_addr e ∧
      match m with MNode _ h => e' = entry_node (e_partial e) (h_node_type h) (e_addr e) | MLeaf _ _ _ => e' = e end)).
Proof using Htid.
  intros Hi (Hp & Hway & Hd & Hf & Hkn & Hcur) Ho. pose proof (ti_shape _ _ _ _ _ _ _ Hi) as Hs.
  pose proof (ti_mem _ _ _ _ _ _ _ Hi) as Hm.
  assert (Hhere : m_slot m = sl → ∃ e', ent sl = Some e' ∧ e' ≠ entry_Null ∧ e_partial e' = e_partial e ∧ e_addr e' = e_addr e ∧
      match m with MNode _ h => e' = entry_node (e_partial e) (h_node_type h) (e_addr e) | MLeaf _ _ _ => e' = e end)
    by (intros Hsl; by apply (known_here P ent ob sl e m)).
  assert (Hnone : ho = None → m_slot m = sl).
  { intros Hn. specialize (Hcur Hn). destruct Hkn as [(e1 & He1 & Hne & _) _]. assert (e1 = e) as -> by congruence.
    by apply (entry_live_ok P ent ob sl e m). }
  split; [intros Hn; by rewrite Hp, Hnone|].
  destruct (gaddr_eqb_spec p_ptr (slot_ptr tree_id (m_slot m))) as [E|E].
  - right. split; [by rewrite orb_true_r|]. assert (m_slot m = sl) as Hsl; [|by split; [|apply Hhere]].
    destruct (sh_parent _ _ _ Hs _ _ Ho) as (e' & He' & _). destruct Hkn as [(e1 & He1 & _) _].
    eapply (slot_ptr_inj tree_id Htid); [eapply mi_blocks, Hm|apply Hm|exact He'|exact He1|congruence].
  - destruct ho as [h|]; [left; eauto|]. right. by split; [|split; [apply Hnone|apply Hhere, Hnone]].
Qed.

Lemma mem_inv_ext w ent ob live d ob' : mem_inv tree_id w ent ob live d → (∀ a, ob' a = ob a) → mem_inv tree_id w ent ob' live d.
Proof. intros Hi E. split; [|apply Hi..]. by eapply holds_ext; [apply Hi|..]. Qed.
(** A stale entry is read again. *)
Lemma stale_round w P ent ob live d M k v is_load sl p_ptr e depth h np :
  tree_inv w P ent ob live d M → at_slot P ent ob k sl p_ptr e depth (Some h) w →
  ∃ r w', run (invalidate_if (Some h) ;; p ← read_entry p_ptr; mret (Again (Ins p_ptr p np depth None gaddr_Null v))) w = Ok (r, w') ∧
    round_post P ent ob live d M k v is_load 0 (rounds P sl e (Some h)) w r w'.
Proof.
  intros Hi Hat. destruct (reread_round _ _ _ _ _ _ _ _ _ _ _ _ _ Hi Hat) as (e' & c & Hr1 & Hr2 & (Hc & Hroom & _) & Hat' & Hn).
  eexists _, _. split; [rewrite run_bind, Hr1, run_bind, Hr2, run_ret; done|].
  exists sl. cbn [i_p_ptr i_p i_depth i_from]. split; [|split; [done|]].
  - destruct Hi as [Hs Hm _ Hlm Hfk]. split; [done|by apply mem_inv_cache|done..].
  - rewrite Hn. split_and!; [done|done|lia|done|done|exact Hroom].
Qed.

(** New nodes above the target of the entry: the key is in. *)
Lemma split_settled w P ent ob live d M k v e s' k' v' hx w' :
  tree_inv w P ent ob live d M → split_post tree_id P ent ob d M k v e (MLeaf s' k' v') hx w w' →
  settled P ent ob 2 w d (<[k := v]> M) w'.
Proof.
  intros Hi (P' & ent' & ob' & live' & d' & c & Hm & Hx & Hs & Hg & Hlm & (Hc & Hroom & _) & Hl & Hb).
  exists P', ent', (<[e_addr e := Some (below_slot c hx (MLeaf s' k' v'))]> ob'), live', d'. split; [|done].
  split; [done| |done|done|eapply forked_grows; [exact Hg|apply Hi]].
  eapply mem_inv_ext; [exact Hm|]. intros a. destruct (decide (e_addr e = a)) as [<-|Hn].
  - by rewrite fn_lookup_insert, Hx.
  - by rewrite fn_lookup_insert_ne.
Qed.

(** 2. A leaf with the key. *)
Lemma insert_leaf_here w P ent ob live d M k v is_load a s v' fuel p_ptr e np depth ho :
  tree_inv w P ent ob live d M → e_addr e = a → ob a = Some (MLeaf s k v') →
  run (read_leaf (S fuel) (e_addr e) (leaf_read_size e) p_ptr (from_cache ho)) w = Ok ((true, leaf_make k v' (slot_ptr tree_id s)), w) →
  locked k v (w_locks w (lock_index CityHash64 k)) → key_ok k → uint 64 v →
  ∃ w', run (insert_leaf CityHash64 (S fuel) k is_load (Ins p_ptr e np depth ho gaddr_Null v)) w = Ok (Done tt, w') ∧
    settled P ent ob 0 w d (inserted is_load k v M) w'.
Proof.
  intros Hi <- Ho Hread Hlock Hk Hv. unfold insert_leaf. cbn [i_p i_p_ptr i_from i_v i_depth i_leaf].
  rewrite run_bind, Hread. cbn [negb]. change (l_key (leaf_make k v' (slot_ptr tree_id s))) with k.
  unfold key_eqb at 1. rewrite bool_decide_true by done.
  assert (HM : M !! k = Some v') by (apply (ti_map _ _ _ _ _ _ _ Hi k v'); eauto).
  assert (Hno : ∀ w1, w_cache w1 = w_cache w → w_alloc w1 = w_alloc w → (∀ j, w_locks w1 j = w_locks w j) →
    mem_inv tree_id w1 ent ob live d → settled P ent ob 0 w d M w1).
  { intros w1 E1 E2 E3 Hm. exists P, ent, ob, live, d. destruct Hi as [Hs _ Hc Hlm Hfk]. split; [split; [done|done|by rewrite E1|done..]|].
    split; [apply grows_refl|]. split; [done|]. rewrite E1, E2. split; lia. }
  unfold inserted. rewrite HM, (bool_decide_true _) by eauto. rewrite andb_true_r. destruct is_load.
  { exists w. split; [done|]. apply Hno; [done..|apply Hi]. }
  destruct (run_combining CityHash64 k v w Hlock) as (lk & Hrl & Hlk). rewrite run_bind, Hrl.
  change (l_value (leaf_make k v' (slot_ptr tree_id s))) with v'. destruct (Z.eqb_spec v' v) as [->|Hne].
  { eexists. split; [done|]. rewrite insert_id by done. apply Hno; [done..|]. apply mem_inv_locks, Hi. }
  destruct (run_update (set_locks lk w) ent ob live d (e_addr e) s k v' v) as (w' & Hr & Hm & Hq & Ha);
    [apply mem_inv_locks, Hi|done|done|cbn; by rewrite Hlk|].
  eexists. split; [rewrite run_bind, Hr; done|]. eapply (tree_inv_settled w P ent ob); [exact Hi|exact Hm| |rewrite Ha; cbn; lia|..].
  - destruct Hq as [Hq1 Hq2]. split; [done|]. intros j. rewrite Hq2. cbn. apply Hlk.
  - eapply shape_value; [apply Hi|done|done].
  - by eapply grows_value.
  - eapply leaf_map_value; [apply Hi|apply Hi|done].
Qed.
(** A leaf with another key: both hang below new nodes. *)
Lemma insert_leaf_part w P ent ob live d M k v is_load sl e s' k' v' fuel np ho :
  tree_inv w P ent ob live d M → ent sl = Some e → e ≠ entry_Null → ob (e_addr e) = Some (MLeaf s' k' v') → k' ≠ k →
  spath P sl e `prefix_of` k →
  run (read_leaf (S fuel) (e_addr e) (leaf_read_size e) (slot_ptr tree_id sl) (from_cache ho)) w
  = Ok ((true, leaf_make k' v' (slot_ptr tree_id s')), w) →
  locked k v (w_locks w (lock_index CityHash64 k)) → key_ok k → uint 64 v →
  (2 ≤ cache_room (w_cache w))%nat → 3 <= heap_blocks (w_alloc w) d →
  ∃ w', run (insert_leaf CityHash64 (S fuel) k is_load
               (Ins (slot_ptr tree_id sl) e np (Z.of_nat (length (spath P sl e)) + 1) ho gaddr_Null v)) w = Ok (Done tt, w') ∧
    settled P ent ob 2 w d (<[k := v]> M) w'.
Proof.
  intros Hi He Hne Ho Hkk Hway Hread Hlock Hk Hv Hroom Hb. pose proof (ti_shape _ _ _ _ _ _ _ Hi) as Hs.
  destruct (sh_leaf _ _ _ Hs _ _ _ _ Ho) as [Hk' _]. pose proof (sh_child _ _ _ Hs sl e He Hne) as Hch. rewrite Ho in Hch.
  destruct Hch as (_ & _ & Hway'). destruct (keys_part k k' (spath P sl e)) as (plen & b & y & Elcp & Hp0 & Hp8 & Eb & Ey & Hy & Hyb & Hpre); [done..|].
  assert (Hpart : parting P ent ob sl e (MLeaf s' k' v') k plen b y (Hdr 0 0 0 [])) by (split; done).
  unfold insert_leaf. cbn [i_p i_p_ptr i_from i_v i_depth i_leaf]. rewrite run_bind, Hread. cbn [negb].
  change (l_key (leaf_make k' v' (slot_ptr tree_id s'))) with k'. unfold key_eqb. rewrite bool_decide_false by done.
  rewrite (run_bind_pure _ _ _ _ Elcp), (run_bind_pure _ _ _ _ Ey).
  assert (∃ l w', run (out_of_place_write_node CityHash64 k v (Z.of_nat (length (spath P sl e)) + 1) gaddr_Null plen y
                 (slot_ptr tree_id sl) e) w = Ok ((true, e, l, v), w') ∧
            split_post tree_id P ent ob d M k v e (MLeaf s' k' v') (Hdr 0 0 0 []) w w') as (l & w' & Hr & Hpost).
  { destruct (Z.le_gt_cases plen hPartialLenMax).
    - eapply run_write_node_one; try done; apply Hi.
    - eapply run_write_node_two; try done; [|apply Hi..]. unfold hPartialLenMax, keyLen in *. lia. }
  exists w'. split; [rewrite run_bind, Hr; done|]. by eapply split_settled.
Qed.

(** A key that is on the way to the leaf of another key is not in the tree. *)
Lemma other_leaf_absent w P ent ob live d M k sl e s' k' v' :
  tree_inv w P ent ob live d M → ent sl = Some e → e ≠ entry_Null → spath P sl e `prefix_of` k →
  ob (e_addr e) = Some (MLeaf s' k' v') → k' ≠ k → M !! k = None.
Proof.
  intros Hi He Hne Hway Ho Hkk. destruct (M !! k) as [v0|] eqn:E; [exfalso|done].
  apply (ti_map _ _ _ _ _ _ _ Hi k v0) in E as (a0 & s0 & Ha0).
  pose proof (sh_leads _ _ _ (ti_shape _ _ _ _ _ _ _ Hi) sl e k He Hne Hway ltac:(left; eauto)) as Hl.
  unfold leads in Hl. by rewrite Ho in Hl.
Qed.

Lemma inserted_absent (is_load : bool) k v M : M !! k = None → inserted is_load k v M = <[k := v]> M.
Proof. intros E. unfold inserted. by rewrite E, andb_false_r. Qed.

(** 2. A leaf. *)
Lemma insert_leaf_run fuel w P ent ob live d M k v is_load sl p_ptr e depth ho np :
  tree_inv w P ent ob live d M → at_slot P ent ob k sl p_ptr e depth ho w → e_is_leaf e = true →
  locked k v (w_locks w (lock_index CityHash64 k)) → key_ok k → uint 64 v →
  (2 ≤ cache_room (w_cache w))%nat → 3 <= heap_blocks (w_alloc w) d →
  ∃ r w', run (insert_leaf CityHash64 (S fuel) k is_load (Ins p_ptr e np depth ho gaddr_Null v)) w = Ok (r, w') ∧
    round_post P ent ob live d M k v is_load 2 (rounds P sl e ho) w r w'.
Proof.
  intros Hi Hat Hleaf Hlock Hk Hv Hroom Hb. pose proof Hat as (Hp & Hway & Hd & Hf & Hkn & Hcur).
  assert (∃ s' k' v', ob (e_addr e) = Some (MLeaf s' k' v')) as (s' & k' & v' & Ho).
  { destruct Hkn as [_ Hkn]. destruct (ob (e_addr e)) as [[s' h|s' k' v']|]; [|eauto|done]. destruct Hkn as (t & Ee & _). by rewrite Ee in Hleaf. }
  destruct (at_slot_target _ _ _ _ _ _ _ _ _ _ _ _ _ _ Hi Hat Ho) as [Hfc Hcase]. cbn [m_slot] in *.
  destruct (run_read_leaf_at _ _ _ _ _ _ _ fuel _ _ _ _ _ p_ptr (from_cache ho) Hi Hkn Ho) as [_ Hread].
  { intros Hn. apply Hfc. by destruct ho. }
  destruct Hcase as [(h & -> & Hst)|(Hval & -> & e' & He & Hne & _ & _ & ->)].
  - cbn [from_cache negb orb] in Hread. rewrite Hst in Hread.
    destruct (stale_round w P ent ob live d M k v is_load sl p_ptr e depth h np Hi Hat) as (r & w' & Hr & Hpost).
    exists r, w'. split.
    + unfold insert_leaf. cbn [i_p i_p_ptr i_from i_v i_depth i_leaf]. rewrite run_bind. cbn [from_cache] in *. rewrite Hread. exact Hr.
    + eapply round_post_mono; [|exact Hpost]. lia.
  - rewrite Hval in Hread. destruct (decide (k' = k)) as [->|Hkk].
    + destruct (insert_leaf_here w P ent ob live d M k v is_load _ sl v' fuel p_ptr e np depth ho Hi eq_refl Ho Hread) as (w' & Hr & Hpost); [done..|].
      exists (Done tt), w'. split; [done|]. eapply settled_mono; [|exact Hpost]. lia.
    + rewrite Hp, Hd in *. destruct (insert_leaf_part w P ent ob live d M k v is_load sl e sl k' v' fuel np ho Hi) as (w' & Hr & Hpost); [done..|].
      exists (Done tt), w'. split; [done|]. unfold round_post. rewrite inserted_absent; [done|]. by eapply other_leaf_absent.
Qed.
(** *** 3. A node *)
Lemma masked_put_range old new mask : uint 64 old → uint 64 new → uint 64 (masked_put old new mask).
Proof.
  unfold uint. intros Ho Hn. assert (masked_put old new mask = masked_put old new mask `mod` 2 ^ 64) as ->; [|apply Z.mod_pos_bound; lia].
  apply Z.bits_inj'. intros i Hi. destruct (Z.ltb_spec i 64); [by rewrite Z.mod_pow2_bits_low|].
  rewrite Z.mod_pow2_bits_high, masked_put_testbit by lia. rewrite (testbit_small old 64), (testbit_small new 64) by lia. by destruct (Z.testbit mask i).
Qed.

(** The compare-and-swap of the header of a node, under a mask. *)
Lemma run_cas_header w ent ob live d x s h new mask h' :
  mem_inv tree_id w ent ob live d → ob x = Some (MNode s h) → header_ok h → uint 64 new →
  header_of_val (masked_put (header_val h) new mask) = h' →
  ∃ w', run (cas_mask_sync (GADD x 8) (header_val h) new mask) w = Ok ((true, header_val h), w') ∧
    mem_inv tree_id w' ent (<[x := Some (MNode s h')]> ob) live d ∧ w' = set_mem (w_mem w') w.
Proof using Htid.
  intros Hi Hx Hh Hnew <-. pose proof (mi_blocks _ _ _ _ _ _ Hi) as Hbl. pose proof (mi_holds _ _ _ _ _ _ Hi) as Hho.
  destruct (obj_place tree_id _ _ _ _ Hbl Hho _ _ Hx) as (Haok & Hn & _ & Hge & Hlt & _). cbn [block_size] in Hlt.
  rewrite pad_node in Hlt. change kChunkSize with 16777216 in Hge.
  assert (Hoff : offset (GADD x 8) = offset x + 8) by (apply GADD_offset; unfold uint; lia).
  assert (Hreg : dsm_region (GADD x 8) = node0) by (unfold dsm_region; cbn; by rewrite Hn).
  destruct (ho_node _ _ _ _ _ Hho _ _ _ Hx) as [_ Hhd].
  eexists. split; [apply run_cas_mask_sync; by rewrite Hreg, Hoff|]. split; [|done]. rewrite Hreg, Hoff.
  eapply mem_inv_mem; [exact Hi|]. set (h' := header_of_val _).
  replace (masked_put (header_val h) new mask) with (header_val h')
    by (apply header_val_of_val, masked_put_range; [by apply header_val_range|done]).
  eapply holds_header; [exact Htid|exact Hbl|exact Hho|exact Hx|apply header_of_val_ok].
Qed.

Definition split_mask : Z := Z.lxor node_type_mask (2 ^ 64 - 1).

Lemma split_mask_bit i : 0 <= i < 64 → Z.testbit split_mask i = negb (Z.testbit node_type_mask i).
Proof.
  intros Hi. unfold split_mask. rewrite Z.lxor_spec. change (2 ^ 64 - 1) with (Z.ones 64). rewrite Z.ones_spec_low by lia.
  by destruct (Z.testbit node_type_mask i).
Qed.
(** 3.2 The key leaves the header of the node at byte [i]. *)
Lemma insert_split_run w P ent ob live d M k v sl e e0 h i q ho np :
  tree_inv w P ent ob live d M → ent sl = Some e → e ≠ entry_Null → ob (e_addr e) = Some (MNode sl h) →
  spath P sl e `prefix_of` k → from_lookup ho w → 0 <= i < h_partial_len h → is_byte q →
  (∃ b, get_partial k (h_depth h + i) = Ok b ∧ q ≠ b) →
  (take (Z.to_nat (h_depth h - 1) + Z.to_nat i) k ++ [q]) `prefix_of` P (e_addr e) →
  locked k v (w_locks w (lock_index CityHash64 k)) → key_ok k → uint 64 v →
  (2 ≤ cache_room (w_cache w))%nat → 3 <= heap_blocks (w_alloc w) d →
  ∃ w', run (insert_split_header CityHash64 k (Ins (slot_ptr tree_id sl) e0 np (h_depth h) ho gaddr_Null v) e h i q) w = Ok (Done tt, w') ∧
    settled P ent ob 2 w d (<[k := v]> M) w'.
Proof.
  intros Hi He Hne Hx Hway Hf Hir Hq (b & Hb & Hqb) Hpre Hlock Hk Hv Hroom Hblk. pose proof (ti_shape _ _ _ _ _ _ _ Hi) as Hs.
  pose proof (sh_node _ _ _ Hs _ _ _ Hx) as Hh. pose proof Hh as (Hhok & Hht & Hh1 & Hpl & Hle & _).
  destruct (shape_node_path _ _ _ Hs _ _ _ _ He Hne Hx) as (_ & _ & Hlen). unfold keyLen, hPartialLenMax in *.
  destruct (head_split (P (e_addr e)) h Hh i Hir) as (hs & Esplit & Hhsok & Hhx & Hdx). cbv zeta in Hhx, Hdx.
  set (hx := Hdr (h_depth hs) (h_node_type h) (h_partial_len hs) (h_partial hs)) in *.
  assert (Hpart : parting P ent ob sl e (MNode sl h) k i b q hx).
  { split; try done; unfold keyLen.
    - lia. - rewrite <- Hb. f_equal. lia.
    - replace (length (spath P sl e)) with (Z.to_nat (h_depth h - 1)) by lia. exact Hpre.
    - split; [done|]. split; [done|]. lia. }
  destruct (run_write_node_one CityHash64 tree_id Htid w P ent ob live d M sl e (MNode sl h) k v i b q hx Hpart) as (l & w1 & Hr & Hpost);
    [unfold hPartialLenMax; lia|apply Hi|done|apply Hi|done|apply Hi|done|done|].
  destruct Hpost as (P' & ent' & ob' & live' & d' & c & Hm1 & Hx1 & Hs1 & Hg & Hlm & (Hc & Hcr & Hch) & Hl1 & Hb1).
  cbn [move below_slot] in *. set (ob2 := <[e_addr e := Some (MNode (Slot c 0) hx)]> ob') in *.
  unfold insert_split_header. cbn [i_v i_depth i_leaf i_p_ptr i_from].
  replace (h_depth h + i - h_depth h) with i by lia. replace (h_depth h) with (Z.of_nat (length (spath P sl e)) + 1) by lia.
  rewrite run_bind, Hr.
  destruct (run_invalidate (cached P' ent' ob2) ho w1 Hc) as (c2 & Hr2 & Hc2 & Hcr2 & _); [destruct ho; [by apply Hch|done]|].
  rewrite run_bind, Hr2, (run_bind_pure _ _ _ _ Esplit).
  destruct (run_cas_header (set_cache c2 w1) ent' ob' live' d' (e_addr e) (Slot c 0) h (header_val hs) split_mask hx) as (w3 & Hr3 & Hm3 & E3).
  { by apply mem_inv_cache. } { done. } { done. } { by apply header_val_range. }
  { rewrite header_put_split by apply split_mask_bit. by rewrite !header_of_val_val by done. }
  unfold cas_mask. fold split_mask. rewrite run_bind, run_bind, Hr3, run_ret. exists w3. split; [done|].
  exists P', ent', ob2, live', d'. rewrite E3. split.
  - split; [done|by rewrite <- E3|exact Hc2|done|eapply forked_grows; [exact Hg|apply Hi]].
  - split; [done|]. split; [done|]. cbn. lia.
Qed.
End insert.
