(* ===== verification/TreeRounds.v ===== *)
(** * The rounds of an insertion at a node

    A round of [insert] whose entry leads to a node: the key leaves the header,
    goes on in a slot, gets an empty slot, or the node grows. *)

From Stdlib Require Import ZArith Lia Bool.
From stdpp Require Import base tactics decidable option numbers functions list gmap.
From S2P Require Import Prelude.
From S2P Require Import Common.
From S2P Require Import Keys.
From S2P Require Import Address.
From S2P Require Import Nodes.
From S2P Require Import Allocators.
From S2P Require Import Memory.
From S2P Require Import Process.
From S2P Require Import LockTable.
From S2P Require Import IndexCache.
From S2P Require Import Tree.
From S2P Require Import TreeSearch.
From S2P Require Import TreeShape.
From S2P Require Import TreeHeap.
From S2P Require Import TreeState.
From S2P Require Import TreeWrite.
From S2P Require Import TreeInsert.

(** The number of a node type and the type of a number. *)
Lemma next_node_type t : 1 <= t <= 6 → num_to_node_type (node_type_to_num t) = Ok (t + 1).
Proof.
  intros Ht. assert (t ∈ [1; 2; 3; 4; 5; 6]) as Hin by (rewrite !elem_of_cons; lia).
  repeat (apply elem_of_cons in Hin as [->|Hin]; [by vm_compute|]). by apply elem_of_nil in Hin.
Qed.

Lemma node_num_small t : 1 <= t <= 6 → 0 < node_type_to_num t < 256.
Proof.
  intros Ht. assert (t ∈ [1; 2; 3; 4; 5; 6]) as Hin by (rewrite !elem_of_cons; lia).
  repeat (apply elem_of_cons in Hin as [->|Hin]; [by vm_compute|]). by apply elem_of_nil in Hin.
Qed.

(** Bytes that are all different and miss one are at most 255. *)
Lemma bytes_pigeonhole (l : list Z) b :
  NoDup l → Forall is_byte l → is_byte b → b ∉ l → (length l < 256)%nat.
Proof.
  intros Hnd Hl Hb Hno. assert (NoDup (b :: l)) as Hnd' by by constructor.
  assert (b :: l ⊆+ seqZ 0 256) as Hsub.
  { apply NoDup_submseteq; [done|]. intros x Hx. apply elem_of_seqZ. unfold is_byte in *.
    apply elem_of_cons in Hx as [->|Hx]; [lia|]. pose proof (proj1 (Forall_forall _ _) Hl x Hx). cbn in *. lia. }
  apply submseteq_length in Hsub. rewrite length_seqZ in Hsub. cbn in Hsub. lia.
Qed.

Section rounds.
Context `{Checksum} `{IndexCacheLaws} {others : Others} (CityHash64 : list byte → Z) (tree_id : Z) (Htid : tree_id_ok tree_id).

(** *** The slots of the page *)
Lemma empty_slots_run k s p np depth b records n i l v :
  Forall entry_ok records → 0 <= i → (Z.to_nat i + n ≤ length records)%nat →
  (∃ j : nat, (Z.to_nat i ≤ j < Z.to_nat i + n)%nat ∧ records !! j = Some entry_Null ∧
     ∀ w l' v' w', run (out_of_place_write_leaf CityHash64 k v l b (GADD (e_addr p) (page_head + Z.of_nat j * 8)) entry_Null) w
                   = Ok ((true, entry_Null, l', v'), w') →
       run (empty_slots CityHash64 k s p np depth b records n i l v) w = Ok ((Some (Done tt), l', v'), w')) ∨
  ((∀ j : nat, (Z.to_nat i ≤ j < Z.to_nat i + n)%nat → records !! j ≠ Some entry_Null) ∧
   ∀ w, run (empty_slots CityHash64 k s p np depth b records n i l v) w = Ok ((None, l, v), w)).
Proof.
  intros Hok. revert i. induction n as [|n IH]; intros i Hi Hlen; [right; split; [lia|done]|].
  destruct (lookup_lt_is_Some_2 records (Z.to_nat i) ltac:(lia)) as [e He].
  assert (Hidx : idx_ records i = Ok e) by by apply idx_Ok. cbn [empty_slots].
  pose proof (Forall_lookup_1 _ _ _ _ Hok He) as Heok. destruct (decide (e = entry_Null)) as [->|Hne].
  - left. exists (Z.to_nat i). split; [lia|]. split; [done|]. intros w l' v' w' Hr.
    rewrite Z2Nat.id in Hr by done. rewrite (run_bind_pure _ _ _ _ Hidx).
    change (entry_eqb entry_Null entry_Null) with true. cbv iota. by rewrite run_bind, Hr.
  - assert (Heqb : entry_eqb e entry_Null = false) by by destruct (entry_eqb_spec e entry_Null Heok entry_Null_ok).
    destruct (IH (i + 1) ltac:(lia) ltac:(lia)) as [(j & Hj & Hnull & Hr)|[Hall Hr]].
    + left. exists j. split; [lia|]. split; [done|]. intros w l' v' w' Hw.
      rewrite (run_bind_pure _ _ _ _ Hidx), Heqb. by apply Hr.
    + right. split.
      * intros j Hj. destruct (decide (j = Z.to_nat i)) as [->|]; [rewrite He; congruence|apply Hall; lia].
      * intros w. rewrite (run_bind_pure _ _ _ _ Hidx), Heqb. apply Hr.
Qed.
(** *** Another type of a node *)
Lemma masked_put_full old new : uint 64 old → uint 64 new → masked_put old new (2 ^ 64 - 1) = new.
Proof.
  unfold uint. intros Ho Hn. apply Z.bits_inj'. intros i Hi. rewrite masked_put_testbit by done. change (2 ^ 64 - 1) with (Z.ones 64).
  destruct (Z.ltb_spec i 64); [by rewrite Z.ones_spec_low by lia|]. rewrite Z.ones_spec_high by lia.
  by rewrite (testbit_small old 64), (testbit_small new 64) by lia.
Qed.

Lemma run_cas_mask_slot w ent ob live d s e e' :
  mem_inv tree_id w ent ob live d → ent s = Some e → entry_ok e → entry_ok e' →
  ∃ w', run (cas_mask_sync (slot_ptr tree_id s) (entry_val e) (entry_val e') (2 ^ 64 - 1)) w = Ok ((true, entry_val e), w') ∧
    mem_inv tree_id w' (<[s := Some e']> ent) ob live d ∧ w' = set_mem (w_mem w') w.
Proof using Htid.
  intros Hi He Heok Hok. destruct (slot_region _ _ _ _ _ _ _ _ Hi He) as (Hreg & _ & Hl).
  eexists. split; [apply run_cas_mask_sync; by rewrite Hreg|]. split; [|done].
  rewrite Hreg, masked_put_full by by apply entry_val_range.
  eapply mem_inv_mem; [exact Hi|]. eapply holds_slot; [exact Htid|eapply mi_blocks; exact Hi|apply Hi|exact He|exact Hok].
Qed.

Lemma run_cas_node_type fuel w ent ob live d s e h t :
  mem_inv tree_id w ent ob live d → ent s = Some e → entry_ok e → ob (e_addr e) = Some (MNode s h) → header_ok h → uint 5 t →
  ∃ w', run (cas_node_type (S fuel) t (slot_ptr tree_id s) e h) w = Ok (tt, w') ∧
    mem_inv tree_id w' (<[s := Some (entry_retype t e)]> ent) (<[e_addr e := Some (MNode s (retype t h))]> ob) live d ∧
    w' = set_mem (w_mem w') w.
Proof using Htid.
  intros Hi He Heok Hx Hh Ht.
  assert (Hht : header_ok (header_type t)) by (unfold header_type; rewrite wrap_small by done; split; [by vm_compute|]; split; [done|]; split; [by vm_compute|]; split; [done|]; by apply Forall_replicate).
  destruct (run_cas_mask_slot w ent ob live d s e (entry_retype t e) Hi He Heok ltac:(by apply entry_retype_ok)) as (w1 & Hr1 & Hi1 & E1).
  destruct (run_cas_header tree_id Htid w1 _ ob live d (e_addr e) s h (header_val (header_type t)) node_type_mask (retype t h) Hi1 Hx Hh)
    as (w2 & Hr2 & Hi2 & E2); [by apply header_val_range| |].
  { rewrite header_put_type, !header_of_val_val by done. unfold retype, header_type. cbn. by rewrite wrap_small. }
  exists w2. split; [|split; [done|by rewrite E2, E1]]. unfold cas_node_type. cbv zeta.
  erewrite run_loop; [|].
  2: { cbn [sw_1 sw_2 sw_p sw_p_ptr sw_hdr negb andb]. unfold two_cas_mask_sync. rewrite run_bind, run_bind, run_bind, Hr1, run_bind, Hr2, run_ret.
       rewrite !Z.eqb_refl, run_ret. cbn [negb]. rewrite run_bind, run_ret. cbn [negb orb]. rewrite run_ret. reflexivity. }
  done.
Qed.

(** *** A node in which the key has no slot *)
Record vacant w P ent ob live d M (k : Key) (v : Z) (sl : slot) (e : InternalEntry) (h : Header) (b : byte) : Prop := {
  va_inv : tree_inv tree_id w P ent ob live d M;
  va_ent : ent sl = Some e;
  va_live : e ≠ entry_Null;
  va_node : ob (e_addr e) = Some (MNode sl h);
  va_way : (P (e_addr e) ++ [b]) `prefix_of` k;
  va_byte : is_byte b;
  va_new j ej : ent (Slot (e_addr e) j) = Some ej → ej ≠ entry_Null → e_partial ej ≠ b;
  va_lock : locked k v (w_locks w (lock_index CityHash64 k));
  va_key : key_ok k;
  va_val : uint 64 v;
  va_blocks : 3 <= heap_blocks (w_alloc w) d
}.

Section vacant.
Context w P ent ob live d M k v sl e h b (Hva : vacant w P ent ob live d M k v sl e h b).

(** A new leaf in an empty slot. *)
Lemma vacant_leaf i :
  ent (Slot (e_addr e) i) = Some entry_Null →
  ∃ l w' d', run (out_of_place_write_leaf CityHash64 k v gaddr_Null b (GADD (e_addr e) (page_head + Z.of_nat i * 8)) entry_Null) w
             = Ok ((true, entry_Null, l, v), w') ∧
    mem_inv tree_id w' (<[Slot (e_addr e) i := Some (entry_leaf b leaf_kv_len l)]> ent)
      (<[l := Some (MLeaf (Slot (e_addr e) i) k v)]> ob) ((l, sizeof_Leaf) :: live) d' ∧
    quiet w w' ∧ heap_blocks (w_alloc w) d - 1 <= heap_blocks (w_alloc w') d' ∧ ob l = None ∧
    e_addr (entry_leaf b leaf_kv_len l) = l.
Proof using Htid Hva.
  intros Hnull. destruct Hva. change (GADD (e_addr e) (page_head + Z.of_nat i * 8)) with (slot_ptr tree_id (Slot (e_addr e) i)).
  eapply run_write_leaf; [exact Htid|apply va_inv0|done|done|apply entry_Null_ok|done|done|lia].
Qed.

Lemma vacant_fill k' s e' np depth records n l' :
  k' = k → e' = e → l' = gaddr_Null → n = cnt h → (n ≤ length records)%nat → Forall entry_ok records →
  (∀ i ei, (i < n)%nat → ent (Slot (e_addr e) i) = Some ei → records !! i = Some ei) →
  (∃ w' l'', run (empty_slots CityHash64 k' s e' np depth b records n 0 l' v) w = Ok ((Some (Done tt), l'', v), w') ∧
     settled tree_id P ent ob 0 w d (<[k := v]> M) w') ∨
  ((∀ i, (i < n)%nat → ∃ ei, ent (Slot (e_addr e) i) = Some ei ∧ ei ≠ entry_Null) ∧
   run (empty_slots CityHash64 k' s e' np depth b records n 0 l' v) w = Ok ((None, l', v), w)).
Proof using Htid Hva.
  intros -> -> -> -> Hlen Hok Hrec. pose proof (va_inv _ _ _ _ _ _ _ _ _ _ _ _ _ Hva) as Hi. pose proof (ti_shape _ _ _ _ _ _ _ _ Hi) as Hs.
  pose proof (va_node _ _ _ _ _ _ _ _ _ _ _ _ _ Hva) as Hx.
  assert (Hent : ∀ i, (i < 256)%nat → ∃ ei, ent (Slot (e_addr e) i) = Some ei).
  { intros i Hi256. destruct (proj2 (sh_slots _ _ _ Hs (e_addr e) i)) as [ei Hei]; [split; [eauto|done]|eauto]. }
  assert (Hcnt : (cnt h ≤ 256)%nat).
  { destruct (sh_node _ _ _ Hs _ _ _ Hx) as (_ & Ht & _). pose proof (node_num_range (h_node_type h) ltac:(lia)). unfold cnt. lia. }
  destruct (empty_slots_run k s e np depth b records (cnt h) 0 gaddr_Null v) as [(j & Hj & Hnull & Hr)|[Hall Hr]]; [done|lia|lia|left|right].
  - destruct (Hent j ltac:(lia)) as [ej Hej]. pose proof (Hrec j ej ltac:(lia) Hej) as Hej'. assert (ej = entry_Null) as -> by congruence.
    destruct (vacant_leaf j Hej) as (l & w' & d' & Hw & Hm & Hq & Hb & Hl & Ha). exists w', l. split; [by eapply Hr|].
    destruct (shape_leaf_step P ent ob M (e_addr e) sl h j b l k v Hs) as (Hs' & Hg & Hlm); [apply Hi|done|done|lia|apply Hva..|done|done|].
    eapply (tree_inv_settled tree_id w P ent ob); [exact Hi|exact Hm|exact Hq|lia|done..].
  - split; [|apply Hr]. intros i Hi'. destruct (Hent i ltac:(lia)) as [ei Hei]. exists ei. split; [done|]. intros ->.
    apply (Hall i ltac:(lia)). by apply Hrec.
Qed.

(** A full node is not of the largest type. *)
Lemma full_node_type :
  (∀ i, (i < cnt h)%nat → ∃ ei, ent (Slot (e_addr e) i) = Some ei ∧ ei ≠ entry_Null) → 1 <= h_node_type h <= 6.
Proof using Hva.
  intros Hfull. pose proof (va_inv _ _ _ _ _ _ _ _ _ _ _ _ _ Hva) as Hi. pose proof (ti_shape _ _ _ _ _ _ _ _ Hi) as Hs.
  destruct (sh_node _ _ _ Hs _ _ _ (va_node _ _ _ _ _ _ _ _ _ _ _ _ _ Hva)) as (_ & Ht & _).
  destruct (decide (h_node_type h = 7)) as [E|]; [exfalso|lia].
  assert (Hc : cnt h = 256%nat) by (unfold cnt; by rewrite E). rewrite Hc in Hfull.
  set (byte_at i := match ent (Slot (e_addr e) i) with Some ei => e_partial ei | None => 0 end).
  assert (Hat : ∀ i, (i < 256)%nat → ∃ ei, ent (Slot (e_addr e) i) = Some ei ∧ ei ≠ entry_Null ∧ byte_at i = e_partial ei).
  { intros i Hi256. destruct (Hfull i Hi256) as (ei & Hei & Hne). exists ei. split; [done|]. split; [done|]. unfold byte_at. by rewrite Hei. }
  pose proof (bytes_pigeonhole (byte_at <$> seq 0 256) b) as Hpig. rewrite length_fmap, length_seq in Hpig.
  assert (256 < 256)%nat; [apply Hpig|lia].
  - apply NoDup_fmap_2_strong; [|apply NoDup_seq]. intros i j Hi'%elem_of_seq Hj%elem_of_seq Hij.
    destruct (Hat i ltac:(lia)) as (ei & Hei & Hni & Ei), (Hat j ltac:(lia)) as (ej & Hej & Hnj & Ej).
    apply (sh_uniq _ _ _ Hs (e_addr e) i j ei ej); congruence.
  - apply Forall_fmap, Forall_forall. intros i Hi'%elem_of_seq. destruct (Hat i ltac:(lia)) as (ei & Hei & _ & Ei). cbn. rewrite Ei.
    by apply (sh_entry _ _ _ Hs (Slot (e_addr e) i)).
  - apply Hva.
  - intros (i & -> & Hi'%elem_of_seq)%list_elem_of_fmap. destruct (Hat i ltac:(lia)) as (ei & Hei & Hni & Ei).
    by apply (va_new _ _ _ _ _ _ _ _ _ _ _ _ _ Hva i ei).
Qed.

(** The node grows and gets the leaf. *)
Lemma grow_shape t i l :
  ent (Slot (e_addr e) i) = Some entry_Null → h_node_type h <= t <= 7 → (i < cnt (retype t h))%nat → ob l = None →
  e_addr (entry_leaf b leaf_kv_len l) = l →
  let ent' := <[sl := Some (entry_retype t e)]> (<[Slot (e_addr e) i := Some (entry_leaf b leaf_kv_len l)]> ent) in
  let ob' := <[e_addr e := Some (MNode sl (retype t h))]> (<[l := Some (MLeaf (Slot (e_addr e) i) k v)]> ob) in
  shape P ent' ob' ∧ grows P ent ob P ent' ob' ∧ leaf_map ob' (<[k := v]> M).
Proof using Hva.
  intros Hnull Ht Hic Hl Hla ent' ob'. pose proof (va_inv _ _ _ _ _ _ _ _ _ _ _ _ _ Hva) as Hi. pose proof (ti_shape _ _ _ _ _ _ _ _ Hi) as Hs.
  pose proof (va_node _ _ _ _ _ _ _ _ _ _ _ _ _ Hva) as Hx. pose proof (va_ent _ _ _ _ _ _ _ _ _ _ _ _ _ Hva) as He.
  pose proof (va_live _ _ _ _ _ _ _ _ _ _ _ _ _ Hva) as Hne.
  destruct (sh_node _ _ _ Hs _ _ _ Hx) as (_ & Ht1 & _). pose proof (sh_child _ _ _ Hs sl e He Hne) as Hch. rewrite Hx in Hch.
  destruct Hch as (_ & Ee & _).
  assert (Hren : entry_retype t e ≠ entry_Null) by (rewrite Ee; apply (entry_node_not_Null (e_partial e) t (e_addr e)); unfold uint; lia).
  assert (Hsl : sl ≠ Slot (e_addr e) i) by congruence. assert (Hal : e_addr e ≠ l) by congruence.
  set (ent1 := <[sl := Some (entry_retype t e)]> ent). set (ob1 := <[e_addr e := Some (MNode sl (retype t h))]> ob).
  assert (Hs1 : shape P ent1 ob1) by by apply shape_retype.
  assert (Hg1 : grows P ent ob P ent1 ob1) by (eapply grows_update; [done|done|done|done|cbn; lia]).
  assert (Hm1 : leaf_map ob1 M) by (eapply leaf_map_object; [apply Hi|done|naive_solver]).
  destruct (shape_leaf_step P ent1 ob1 M (e_addr e) sl (retype t h) i b l k v Hs1 Hm1) as (Hs2 & Hg2 & Hm2).
  { unfold ob1. by rewrite fn_lookup_insert. } { unfold ent1. by rewrite fn_lookup_insert_ne. } { done. }
  { apply Hva. } { apply Hva. } { apply Hva. }
  { intros j ej. unfold ent1. destruct (decide (sl = Slot (e_addr e) j)) as [E|E].
    - rewrite E, fn_lookup_insert. intros [= <-] _. change (e_partial (entry_retype t e)) with (e_partial e).
      apply (va_new _ _ _ _ _ _ _ _ _ _ _ _ _ Hva j); [by rewrite <- E|done].
    - rewrite fn_lookup_insert_ne by done. apply (va_new _ _ _ _ _ _ _ _ _ _ _ _ _ Hva). }
  { unfold ob1. by rewrite fn_lookup_insert_ne. } { done. }
  eapply placed_ext; [split; [exact Hs2|split; [by eapply grows_trans|exact Hm2]]|..].
  - unfold ent', ent1. fn_ext.
  - unfold ob', ob1. fn_ext.
Qed.

Lemma vacant_grow fuel s depth ho :
  (∀ i, (i < cnt h)%nat → ∃ ei, ent (Slot (e_addr e) i) = Some ei ∧ ei ≠ entry_Null) →
  i_p_ptr s = slot_ptr tree_id sl → i_from s = ho → from_lookup ho w →
  ∃ w', run (insert_switch CityHash64 (S fuel) k s e (GADD (e_addr e) page_head) depth b h gaddr_Null v) w = Ok (Done tt, w') ∧
    settled tree_id P ent ob 0 w d (<[k := v]> M) w'.
Proof using Htid Hva.
  intros Hfull Hp <- Hf. pose proof (va_inv _ _ _ _ _ _ _ _ _ _ _ _ _ Hva) as Hi. pose proof (ti_shape _ _ _ _ _ _ _ _ Hi) as Hs.
  pose proof (va_node _ _ _ _ _ _ _ _ _ _ _ _ _ Hva) as Hx. pose proof (va_ent _ _ _ _ _ _ _ _ _ _ _ _ _ Hva) as He.
  pose proof (va_live _ _ _ _ _ _ _ _ _ _ _ _ _ Hva) as Hne. pose proof (full_node_type Hfull) as Ht.
  pose proof (node_num_small _ Ht) as Hnum. pose proof (sh_child _ _ _ Hs sl e He Hne) as Hch. rewrite Hx in Hch. destruct Hch as (_ & Ee & _).
  assert (Hety : e_node_type e = h_node_type h) by (rewrite Ee; apply entry_node_type; unfold uint; lia).
  destruct (sh_node _ _ _ Hs _ _ _ Hx) as (Hhok & _). set (i := cnt h).
  assert (Hci : Z.of_nat i = node_type_to_num (h_node_type h)) by (unfold i, cnt; lia).
  assert (Hnull : ent (Slot (e_addr e) i) = Some entry_Null).
  { destruct (proj2 (sh_slots _ _ _ Hs (e_addr e) i)) as [ei Hei]; [split; [eauto|lia]|]. rewrite Hei. f_equal.
    by apply (sh_null _ _ _ Hs (e_addr e) sl h i). }
  destruct (vacant_leaf i Hnull) as (l & w1 & d1 & Hw1 & Hm1 & Hq1 & Hb1 & Hl & Ha).
  assert (Hsl : sl ≠ Slot (e_addr e) i) by congruence. assert (Hal : l ≠ e_addr e) by congruence.
  destruct (run_cas_node_type fuel w1 _ _ _ d1 sl e h (h_node_type h + 1) Hm1) as (w2 & Hw2 & Hm2 & E2).
  { by rewrite fn_lookup_insert_ne. } { by apply (sh_entry _ _ _ Hs sl). } { by rewrite fn_lookup_insert_ne. } { done. } { unfold uint; lia. }
  destruct (grow_shape (h_node_type h + 1) i l Hnull) as (Hs' & Hg & Hlm); [lia| |done|done|].
  { unfold i, cnt, retype. cbn [h_node_type]. pose proof (next_node_type _ Ht). unfold node_type_to_num in *.
    rewrite !(proj2 (Z.eqb_neq _ _)) in * by (unfold NODE_DELETED; lia). rewrite !Z.shiftl_mul_pow2 in * by lia.
    replace (h_node_type h + 1 + 1) with (Z.succ (h_node_type h + 1)) by lia. rewrite (Z.pow_succ_r 2 (h_node_type h + 1)) by lia. lia. }
  match type of Hs' with shape _ ?E ?O => set (ent' := E) in *; set (ob' := O) in * end.
  assert (Hc2 : cache_inv (cached P ent' ob') (w_cache w2)).
  { rewrite E2. cbn. rewrite (proj1 Hq1). eapply law_mono; [|apply Hi]. intros k0 p a. by eapply cached_grows. }
  destruct (run_invalidate _ (i_from s) w2 Hc2) as (c & Hr & Hafter); [rewrite E2; destruct (i_from s); cbn in *; [by rewrite (proj1 Hq1)|done]|].
  exists (set_cache c w2). split.
  - unfold insert_switch, insert_behind. rewrite Hety. rewrite !run_bind.
    rewrite (proj2 (Z.eqb_neq (h_node_type h) NODE_256)) by (unfold NODE_256; lia). cbn [negb check]. rewrite run_pure.
    replace (Z.to_nat (256 - node_type_to_num (h_node_type h))) with (S (Z.to_nat (255 - node_type_to_num (h_node_type h)))) by lia.
    cbn [behind_slots]. rewrite run_bind, GADD_GADD, <- Hci, Hw1, run_ret, (run_bind_pure _ _ (h_node_type h + 1)) by (rewrite Hci; by apply next_node_type).
    by rewrite run_bind, Hp, Hw2, run_bind, Hr, run_ret.
  - exists P, ent', ob', ((l, sizeof_Leaf) :: live), d1. split; [|split].
    + split; [exact Hs'|apply mem_inv_cache; exact Hm2|apply Hafter|exact Hlm|eapply forked_grows; [exact Hg|apply Hi]].
    + exact Hg.
    + destruct Hafter as (_ & Hroom & _). rewrite E2 in *. cbn in *. destruct Hq1 as [Hq1 Hq2]. rewrite Hq1 in Hroom. unfold spent. cbn.
      split; [done|]. lia.
Qed.
End vacant.

(** *** The round *)

(** Only the cache has changed, with [n] additions at most. *)
Lemma tree_inv_cache w P ent ob live d M c n :
  tree_inv tree_id w P ent ob live d M → cache_after (cached P ent ob) n (w_cache w) c →
  tree_inv tree_id (set_cache c w) P ent ob live d M.
Proof. intros [Hs Hm _ Hlm Hfk] (Hc & _). split; [done|by apply mem_inv_cache|done..]. Qed.

Lemma round_post_after P ent ob live d M k v is_load room n m w c r w' :
  cache_after (cached P ent ob) m (w_cache w) c →
  round_post tree_id P ent ob live d M k v is_load room n (set_cache c w) r w' →
  round_post tree_id P ent ob live d M k v is_load (m + room) n w r w'.
Proof.
  intros (_ & Hroom & _) Hpost. destruct r as [s|[]].
  - destruct Hpost as (sl & H1' & H2' & H3' & H4' & H5' & H6' & H7' & H8'). exists sl. cbn in H6', H7', H8'.
    split_and!; try done. lia.
  - destruct Hpost as (P' & ent' & ob' & live' & d' & Hi & Hg & Hl & Hb & Hr). cbn in Hl, Hb, Hr.
    exists P', ent', ob', live', d'. split; [done|]. split; [done|]. split; [done|]. split; [done|lia].
Qed.

(** The page that was read goes into the cache. *)
Lemma run_page_cached w P ent ob live d M k a s h c (ho : option handle) (tc : bool) p :
  tree_inv tree_id w P ent ob live d M → ob a = Some (MNode s h) → take (Z.to_nat (h_depth h - 1)) (P a) `prefix_of` k → key_ok k →
  from_lookup ho w → (0 < cache_room (w_cache w))%nat → p = page_at (w_mem w) a c →
  (cnt h ≤ c ≤ 256)%nat → pg_hdr p = h →
  (∀ i ei, (i < c)%nat → ent (Slot a i) = Some ei → pg_records p !! i = Some ei) →
  ∃ c1 c2, run (if negb tc then invalidate_if ho else mret tt) w = Ok (tt, set_cache c1 w) ∧
    run (on_cache (add_to_cache k p (GADD a page_head))) (set_cache c1 w) = Ok (tt, set_cache c2 w) ∧
    cache_after (cached P ent ob) 1 (w_cache w) c2.
Proof.
  intros Hi Ha Hk Hkey Hf Hroom Ep Hc Hh Hrec. pose proof (ti_shape _ _ _ _ _ _ _ _ Hi) as Hs.
  assert (∃ c1, run (if negb tc then invalidate_if ho else mret tt) w = Ok (tt, set_cache c1 w) ∧ cache_after (cached P ent ob) 0 (w_cache w) c1)
    as (c1 & Hr1 & Hafter1).
  { destruct tc; cbn [negb]; [|by apply run_invalidate; [apply Hi|]]. exists (w_cache w). split; [by destruct w|].
    apply cache_after_refl, Hi. }
  pose proof Hafter1 as (Hc1 & Hroom1 & _).
  destruct (run_add_page (cached P ent ob) k p (GADD a page_head) (set_cache c1 w)) as (c2 & Hr2 & Hafter2); [done|cbn; lia|..].
  - eapply cacheable_head; [by eapply (sh_node _ _ _ Hs)|done|done| |].
    + rewrite Ep. cbn. rewrite length_fmap, length_seq. lia.
    + rewrite Ep. apply page_at_ok.
  - eapply cached_current; [done|done|done|done|]. intros i e He Hic _.
    destruct (proj2 (sh_slots _ _ _ Hs a i)) as [ei Hei]; [split; [eauto|lia]|]. rewrite (Hrec i ei) in He by (done || lia). congruence.
  - exists c1, c2. split; [done|]. split; [done|]. exact (cache_after_trans _ 0 1 _ _ _ Hafter1 Hafter2).
Qed.

(** A key that leaves the path of a node is not in the tree. *)
Lemma off_path_absent w P ent ob live d M k sl e h :
  tree_inv tree_id w P ent ob live d M → ent sl = Some e → e ≠ entry_Null → ob (e_addr e) = Some (MNode sl h) →
  spath P sl e `prefix_of` k → ¬ P (e_addr e) `prefix_of` k → key_ok k → M !! k = None.
Proof.
  intros Hi He Hne Ho Hway Hoff Hk. pose proof (ti_shape _ _ _ _ _ _ _ _ Hi) as Hs. destruct (M !! k) as [v0|] eqn:E; [exfalso|done].
  apply (ti_map _ _ _ _ _ _ _ _ Hi k v0) in E as (a0 & s0 & Ha0).
  pose proof (sh_leads _ _ _ Hs sl e k He Hne Hway ltac:(left; eauto)) as Hl. unfold leads in Hl. rewrite Ho in Hl.
  destruct Hl as [Hl|[Hl _]]; [|done]. by apply (key_not_path k _ h Hk (sh_node _ _ _ Hs _ _ _ Ho)).
Qed.

Lemma vacant_absent w P ent ob live d M k v sl e h b : vacant w P ent ob live d M k v sl e h b → M !! k = None.
Proof.
  intros Hva. pose proof (va_inv _ _ _ _ _ _ _ _ _ _ _ _ _ Hva) as Hi. destruct (M !! k) as [v0|] eqn:E; [exfalso|done].
  apply (ti_map _ _ _ _ _ _ _ _ Hi k v0) in E as (a0 & s0 & Ha0).
  eapply (shape_absent P ent ob (ti_shape _ _ _ _ _ _ _ _ Hi)); [apply Hva..|exact Ha0].
Qed.

(** The round goes on in a slot of the node. *)
Lemma next_at_slot P ent ob w k sl h a i ei depth n :
  shape P ent ob → ob a = Some (MNode sl h) → ent (Slot a i) = Some ei → ei ≠ entry_Null →
  (P a ++ [e_partial ei]) `prefix_of` k → depth = Z.of_nat (length (P a)) + 2 → (8 - length (P a) < n)%nat →
  at_slot tree_id P ent ob k (Slot a i) (slot_ptr tree_id (Slot a i)) ei depth None w ∧ (rounds P (Slot a i) ei None < n)%nat.
Proof.
  intros Hs Ha Hei Hne Hway Hd Hn.
  assert (length (spath P (Slot a i) ei) = S (length (P a))) as Hl by (cbn; rewrite length_app; cbn; lia). split.
  - split; [done|]. split; [done|]. split; [lia|]. split; [done|]. split; [by eapply known_current|done].
  - unfold rounds. rewrite Hl. cbn [from_cache]. lia.
Qed.

Lemma next_slot w P ent ob live d M k v is_load room n sl h a i ei np depth :
  tree_inv tree_id w P ent ob live d M → ob a = Some (MNode sl h) → ent (Slot a i) = Some ei → ei ≠ entry_Null →
  (P a ++ [e_partial ei]) `prefix_of` k → depth = Z.of_nat (length (P a)) + 2 → (8 - length (P a) < n)%nat →
  round_post tree_id P ent ob live d M k v is_load room n w
    (Again (Ins (slot_ptr tree_id (Slot a i)) ei np depth None gaddr_Null v)) w.
Proof.
  intros Hi Ha Hei Hne Hway Hd Hn. exists (Slot a i). cbn [i_p_ptr i_p i_depth i_from i_leaf i_v].
  destruct (next_at_slot P ent ob w k sl h a i ei depth n) as [Hat Hlt]; [apply Hi|done..|]. split_and!; try done. lia.
Qed.

(** The page is read, and its header agrees with the key. *)
Lemma node_slots w P ent ob live d M k v is_load fuel sl e h s page depth b n :
  tree_inv tree_id w P ent ob live d M → ent sl = Some e → e ≠ entry_Null → ob (e_addr e) = Some (MNode sl h) →
  (P (e_addr e) ++ [b]) `prefix_of` k → is_byte b → depth = Z.of_nat (length (P (e_addr e))) + 1 →
  locked k v (w_locks w (lock_index CityHash64 k)) → key_ok k → uint 64 v → 3 <= heap_blocks (w_alloc w) d →
  i_p_ptr s = slot_ptr tree_id sl → i_leaf s = gaddr_Null → i_v s = v → from_lookup (i_from s) w →
  (cnt h ≤ length (pg_records page))%nat → Forall entry_ok (pg_records page) →
  (∀ i ei, (i < length (pg_records page))%nat → ent (Slot (e_addr e) i) = Some ei → pg_records page !! i = Some ei) →
  (8 - length (P (e_addr e)) < n)%nat →
  ∃ r w', run (m ← pure (find_slot (pg_records page) (cnt h) 0 b);
       match m with
       | Some (i, old_e) =>
         mret (Again (Ins (GADD (e_addr e) (page_head + i * 8)) old_e (GADD (e_addr e) page_head) (depth + 1) None (i_leaf s) (i_v s)))
       | None =>
         '(r, leaf_addr, v) ← empty_slots CityHash64 k s e (GADD (e_addr e) page_head) depth b (pg_records page) (cnt h) 0 (i_leaf s) (i_v s)
           : proc world (option (step_result insert_state unit) * GlobalAddress * Z);
         match r with
         | Some r => mret r
         | None => insert_switch CityHash64 (S fuel) k s e (GADD (e_addr e) page_head) depth b h leaf_addr v
         end
       end) w = Ok (r, w') ∧
    round_post tree_id P ent ob live d M k v is_load 0 n w r w'.
Proof using Htid.
  intros Hi He Hne Hx Hway Hb Hd Hlock Hk Hv Hblk Hp Hsl Hsv Hf Hlen Hrok Hrec Hn. rewrite Hsl, Hsv.
  pose proof (ti_shape _ _ _ _ _ _ _ _ Hi) as Hs. destruct (sh_node _ _ _ Hs _ _ _ Hx) as (Hhok & Ht & _).
  pose proof (node_num_range (h_node_type h) ltac:(lia)) as Hnum. assert (cnt h ≤ 256)%nat as Hc256 by (unfold cnt; lia).
  assert (Hent : ∀ i, (i < 256)%nat → ∃ ei, ent (Slot (e_addr e) i) = Some ei).
  { intros i Hi256. destruct (proj2 (sh_slots _ _ _ Hs (e_addr e) i)) as [ei Hei]; [split; [eauto|done]|eauto]. }
  destruct (find_slot_spec (pg_records page) (cnt h) 0 b Hrok) as (r & Hfind & Hr); [lia|lia|].
  destruct r as [[j ej]|].
  - destruct Hr as (Hj & Hjr & Hnej & Hbj). destruct (Hent (Z.to_nat j) ltac:(lia)) as [ej' Hej].
    pose proof (Hrec (Z.to_nat j) ej' ltac:(lia) Hej) as Hej'. assert (ej' = ej) as -> by congruence.
    eexists _, w. split; [rewrite (run_bind_pure _ _ _ _ Hfind), run_ret; done|].
    replace (GADD (e_addr e) (page_head + j * 8)) with (slot_ptr tree_id (Slot (e_addr e) (Z.to_nat j))) by (cbn; by rewrite Z2Nat.id by lia).
    eapply next_slot; [done|done|done|done|by rewrite Hbj|lia|done].
  - assert (Hva : vacant w P ent ob live d M k v sl e h b).
    { split; try done. intros j ej Hej Hnej. destruct (decide (j < cnt h)%nat) as [Hj|Hj].
      - apply (Hr j ej); [lia| |done]. apply Hrec; [lia|done].
      - destruct Hnej. apply (sh_null _ _ _ Hs (e_addr e) sl h j ej); [done|done|lia]. }
    destruct (vacant_fill w P ent ob live d M k v sl e h b Hva k s e (GADD (e_addr e) page_head) depth (pg_records page) (cnt h) gaddr_Null)
      as [(w' & l & Hrun & Hset)|[Hfull Hrun]]; [done..| |done|intros; apply Hrec; [lia|done]| |].
    + done.
    + exists (Done tt), w'. split; [rewrite (run_bind_pure _ _ _ _ Hfind), run_bind, Hrun; done|]. unfold round_post.
      by rewrite inserted_absent by (by eapply vacant_absent).
    + destruct (vacant_grow w P ent ob live d M k v sl e h b Hva fuel s depth (i_from s) Hfull Hp eq_refl Hf) as (w' & Hgrow & Hset).
      exists (Done tt), w'. split; [rewrite (run_bind_pure _ _ _ _ Hfind), run_bind, Hrun; exact Hgrow|]. unfold round_post.
      by rewrite inserted_absent by (by eapply vacant_absent).
Qed.

(** 3. A node, after [read_node]. *)
Lemma insert_node_here fuel w P ent ob live d M k v is_load sl e e0 h np ho tc p c n :
  tree_inv tree_id w P ent ob live d M → ent sl = Some e → e ≠ entry_Null → ob (e_addr e) = Some (MNode sl h) →
  spath P sl e `prefix_of` k → from_lookup ho w →
  run (read_node e0 (slot_ptr tree_id sl) (h_depth h) (from_cache ho)) w = Ok ((e, tc, p, true), w) →
  p = page_at (w_mem w) (e_addr e) c → (cnt h ≤ c ≤ 256)%nat → pg_hdr p = h →
  (∀ i ei, (i < c)%nat → ent (Slot (e_addr e) i) = Some ei → pg_records p !! i = Some ei) →
  locked k v (w_locks w (lock_index CityHash64 k)) → key_ok k → uint 64 v →
  (3 ≤ cache_room (w_cache w))%nat → 3 <= heap_blocks (w_alloc w) d → (8 - length (spath P sl e) < n)%nat →
  ∃ r w', run (insert_node CityHash64 (S fuel) k (Ins (slot_ptr tree_id sl) e0 np (h_depth h) ho gaddr_Null v)) w = Ok (r, w') ∧
    round_post tree_id P ent ob live d M k v is_load 3 n w r w'.
Proof using Htid.
  intros Hi He Hne Hx Hway Hf Hread Ep Hc Hph Hrec Hlock Hk Hv Hroom Hblk Hn.
  pose proof (ti_shape _ _ _ _ _ _ _ _ Hi) as Hs. pose proof (sh_node _ _ _ Hs _ _ _ Hx) as Hh.
  destruct (shape_node_path _ _ _ Hs _ _ _ _ He Hne Hx) as (_ & Hpre & Hlen).
  pose proof (sh_child _ _ _ Hs sl e He Hne) as Hch. rewrite Hx in Hch. destruct Hch as (_ & Ee & Hsp).
  pose proof Hh as (Hhok & Ht & Hd1 & Hpl & Hle & HlP & _). pose proof Hhok as (_ & _ & Hpl0 & _). unfold uint in Hpl0.
  assert (Hety : e_node_type e = h_node_type h) by (rewrite Ee; apply entry_node_type; unfold uint; lia).
  assert (Hwayd : take (Z.to_nat (h_depth h - 1)) (P (e_addr e)) `prefix_of` k) by by rewrite <- Hsp.
  destruct (run_page_cached w P ent ob live d M k (e_addr e) sl h c ho tc p Hi Hx Hwayd Hk Hf) as (c1 & c2 & Hr1 & Hr2 & Hafter); [lia|done..|].
  pose proof (tree_inv_cache _ _ _ _ _ _ _ _ _ Hi Hafter) as Hi2. set (w2 := set_cache c2 w) in *.
  assert (Hf2 : from_lookup ho w2) by by eapply from_lookup_after.
  destruct (head_part k (P (e_addr e)) h Hk Hh Hwayd) as (df & Ediff & Hdf).
  unfold insert_node. cbn [i_p i_p_ptr i_depth i_from i_leaf i_v]. rewrite run_bind, Hread. cbn [negb]. rewrite Hph, Hety.
  rewrite run_bind, Hr1, run_bind, Z.eqb_refl, Hr2, (run_bind_pure _ _ _ _ Ediff).
  destruct df as [[i q]|].
  - destruct Hdf as (Hir & Hq & Hb & Hpq).
    destruct (insert_split_run CityHash64 tree_id Htid w2 P ent ob live d M k v sl e e0 h i q ho np) as (w' & Hr & Hset); try done.
    { destruct Hafter as (_ & Hroom2 & _). cbn. lia. }
    exists (Done tt), w'. split; [exact Hr|]. apply (round_post_after P ent ob live d M k v is_load 2 n 1 w c2); [done|]. unfold round_post.
    rewrite inserted_absent; [done|]. eapply off_path_absent; [exact Hi|exact He|done|done|done| |done].
    by eapply head_off.
  - destruct Hdf as (_ & b & Eb & Hbb & Hpb). rewrite (run_bind_pure _ _ _ _ Eb).
    change (Z.to_nat (node_type_to_num (h_node_type h))) with (cnt h).
    assert (Hlr : length (pg_records p) = c) by (rewrite Ep; cbn; by rewrite length_fmap, length_seq).
    destruct (node_slots w2 P ent ob live d M k v is_load fuel sl e h (Ins (slot_ptr tree_id sl) e0 np (h_depth h) ho gaddr_Null v) p
                (h_depth h + h_partial_len h) b n) as (r & w' & Hr & Hpost); try done; rewrite ?Hlr; try done.
    { lia. } { lia. } { rewrite Ep. apply page_at_ok. } { apply prefix_length in Hpre. lia. }
    exists r, w'. split; [exact Hr|]. eapply round_post_mono; [|eapply (round_post_after _ _ _ _ _ _ _ _ _ 0 n 1); [exact Hafter|exact Hpost]]. lia.
Qed.

Lemma insert_node_run fuel w P ent ob live d M k v is_load sl p_ptr e depth ho np :
  tree_inv tree_id w P ent ob live d M → at_slot tree_id P ent ob k sl p_ptr e depth ho w → e_is_leaf e = false →
  locked k v (w_locks w (lock_index CityHash64 k)) → key_ok k → uint 64 v →
  (3 ≤ cache_room (w_cache w))%nat → 3 <= heap_blocks (w_alloc w) d →
  ∃ r w', run (insert_node CityHash64 (S fuel) k (Ins p_ptr e np depth ho gaddr_Null v)) w = Ok (r, w') ∧
    round_post tree_id P ent ob live d M k v is_load 3 (rounds P sl e ho) w r w'.
Proof using Htid.
  intros Hi Hat Hleaf Hlock Hk Hv Hroom Hb. pose proof Hat as (Hp & Hway & Hd & Hf & Hkn & Hcur).
  pose proof (ti_shape _ _ _ _ _ _ _ _ Hi) as Hs.
  assert (∃ s' h, ob (e_addr e) = Some (MNode s' h)) as (s' & h & Ho).
  { destruct Hkn as [_ Hkn]. destruct (ob (e_addr e)) as [[s' h|s' k' v']|]; [eauto| |done]. by rewrite Hkn in Hleaf. }
  destruct (at_slot_target tree_id Htid _ _ _ _ _ _ _ _ _ _ _ _ _ _ Hi Hat Ho) as [Hfc Hcase]. cbn [m_slot] in *.
  destruct (run_read_node_at tree_id w P ent ob live d M sl e s' h p_ptr depth (from_cache ho) Hi Hkn Ho) as (_ & c & Hread & Hc & Hph & Hrec).
  { intros Hn. apply Hfc. by destruct ho. }
  destruct Hcase as [(hd & -> & Hst)|(Hval & -> & e' & He & Hne & Hpe & Hae & Ee)].
  - cbn [from_cache negb orb] in Hread. rewrite Hst, andb_false_r in Hread.
    destruct (stale_round tree_id w P ent ob live d M k v is_load sl p_ptr e depth hd np Hi Hat) as (r & w' & Hr & Hpost).
    exists r, w'. split; [|eapply round_post_mono; [|exact Hpost]; lia].
    unfold insert_node. cbn [i_p i_p_ptr i_depth i_from i_leaf i_v from_cache]. rewrite run_bind, Hread. exact Hr.
  - assert (Hsp : spath P sl e' = spath P sl e) by by apply spath_partial.
    rewrite <- Hae in Ho. destruct (shape_node_path _ _ _ Hs _ _ _ _ He Hne Ho) as (_ & _ & Hlen). rewrite Hsp in Hlen.
    assert (depth = h_depth h) as -> by lia. rewrite Hval, Z.leb_refl, <- Ee in Hread. cbn [andb] in Hread. rewrite Hp.
    rewrite <- Hae in Hread, Hrec, Hph. rewrite Hp in Hread.
    eapply (insert_node_here fuel w P ent ob live d M k v is_load sl e' e h np ho _ _ c); try done; try by rewrite Hsp.
    rewrite Hsp. unfold rounds. apply prefix_length in Hway. destruct Hk as [Hkl _]. change klen with 8%nat in Hkl. lia.
Qed.
End rounds.
