(* ===== verification/TreeOps.v ===== *)
(** * The operations on the tree

    [insert] and [search] as a whole on a tree of the invariant: each ends
    within [max_rounds] rounds of its loop, whatever the index cache knows. *)

From Stdlib Require Import ZArith Lia Bool.
From stdpp Require Import base tactics decidable option numbers functions list gmap.
From S2P Require Import Prelude.
From S2P Require Import Common.
From S2P Require Import Keys.
From S2P Require Import Address.
From S2P Require Import Nodes.
From S2P Require Import Allocators.
From S2P Require Import Memory.
From S2P Require Import Process.
From S2P Require Import LockTable.
From S2P Require Import IndexCache.
From S2P Require Import Tree.
From S2P Require Import TreeSearch.
From S2P Require Import TreeShape.
From S2P Require Import TreeHeap.
From S2P Require Import TreeState.
From S2P Require Import TreeWrite.
From S2P Require Import TreeInsert.
From S2P Require Import TreeRounds.

Section loops.
Context `{Checksum} `{IndexCacheLaws} {others : Others} (CityHash64 : list byte → Z) (tree_id : Z) (Htid : tree_id_ok tree_id).

(** ** The start of a traversal *)
Lemma at_slot_live w P ent ob live d M k sl p_ptr e depth ho :
  tree_inv tree_id w P ent ob live d M → at_slot tree_id P ent ob k sl p_ptr e depth ho w → entry_eqb e entry_Null = false.
Proof.
  intros Hi Hat. destruct (at_slot_current _ _ _ _ _ _ _ _ _ _ _ _ _ _ Hi Hat) as (e' & _ & _ & Hpe & (Hb & _) & _).
  rewrite Hpe in Hb. destruct Hat as (_ & _ & _ & _ & [_ Hkn] & _).
  assert (entry_ok e ∧ e ≠ entry_Null) as [Hok Hne]; [|by destruct (entry_eqb_spec e entry_Null Hok entry_Null_ok)].
  destruct (ob (e_addr e)) as [[s h|s k' v']|] eqn:Ho; [| |done].
  - destruct Hkn as (t & Ee & Ht). destruct (sh_node _ _ _ (ti_shape _ _ _ _ _ _ _ _ Hi) _ _ _ Ho) as (_ & Hht & _).
    split; rewrite Ee; [by apply entry_node_ok|apply entry_node_not_Null; unfold uint; lia].
  - split; rewrite Hkn; [by apply entry_leaf_ok|apply entry_leaf_not_Null].
Qed.

Lemma run_start_at w P ent ob live d M k :
  tree_inv tree_id w P ent ob live d M → key_ok k →
  ∃ ho p_ptr e np depth c, run (start tree_id k) w = Ok ((ho, p_ptr, e, np, depth), set_cache c w) ∧
    cache_after (cached P ent ob) 0 (w_cache w) c ∧
    ((e = entry_Null ∧ ent SRoot = Some entry_Null ∧ p_ptr = slot_ptr tree_id SRoot ∧ ho = None ∧ depth = 1) ∨
     ∃ sl, at_slot tree_id P ent ob k sl p_ptr e depth ho (set_cache c w)).
Proof.
  intros Hi Hk. pose proof (ti_shape _ _ _ _ _ _ _ _ Hi) as Hs. pose proof (ti_mem _ _ _ _ _ _ _ _ Hi) as Hm.
  destruct (law_search _ k _ (ti_cache _ _ _ _ _ _ _ _ Hi) Hk) as (r & c & Hrun & Hc & Hroom & Hh & Hr).
  assert (Hafter : cache_after (cached P ent ob) 0 (w_cache w) c) by by split_and!.
  unfold start. rewrite run_bind, (run_on_cache _ _ _ _ Hrun). destruct r as [[[h ce] i]|].
  - destruct Hr as [(k0 & p & e & path & HF & _ & Hpath & Hi0 & Hp & Hin & Hce & Hne & Hd & Hpre) Hhc].
    destruct HF as (a & s & hd & Ha & Haddr & Hkey & Hrec). rewrite Hpath in Hkey. injection Hkey as ->.
    exists (Some h), (GADD (ce_addr ce) (8 * i)), e, (ce_addr ce), (ce_depth ce + 1), c. split; [|split; [done|right]].
    + rewrite run_bind, run_pure, (proj2 (Z.leb_le 0 i)) by done. cbn [check].
      rewrite (run_bind_pure _ _ e), run_ret by (by apply idx_Ok). done.
    + exists (Slot a (Z.to_nat i)). assert (spath P (Slot a (Z.to_nat i)) e = P a ++ [e_partial e]) as Hsp by done.
      split; [|split; [by rewrite Hsp|split; [rewrite Hsp, length_app; cbn; lia|]]].
      * rewrite Haddr, GADD_GADD. cbn [slot_ptr]. f_equal. lia.
      * split; [done|]. split; [|done]. apply (Hrec (Z.to_nat i)); [done|lia|done].
  - destruct (sh_root _ _ _ Hs) as [er Her]. pose proof (sh_entry _ _ _ Hs _ _ Her) as Hok.
    destruct (slot_region _ _ _ _ _ _ _ _ Hm Her) as (Hreg & _ & Hl).
    exists None, (slot_ptr tree_id SRoot), er, gaddr_Null, 1, c. split; [|split; [done|]].
    + unfold get_root_ptr. rewrite run_bind, run_read_entry. cbn [w_mem set_cache].
      change (get_root_ptr_ptr tree_id) with (slot_ptr tree_id SRoot). by rewrite Hreg, Hl, entry_of_val_val, run_ret.
    + destruct (decide (er = entry_Null)) as [->|Hne]; [by left|right]. exists SRoot. split; [done|].
      split; [apply prefix_nil|]. split; [done|]. split; [done|]. split; [|done]. by eapply known_current.
Qed.

(** ** [insert] *)
Lemma rounds_pos P k sl e ho : spath P sl e `prefix_of` k → key_ok k → (1 ≤ rounds P sl e ho ≤ 10)%nat.
Proof.
  intros Hway [Hk _]. apply prefix_length in Hway. change klen with 8%nat in Hk. unfold rounds. destruct (from_cache ho); lia.
Qed.

Lemma insert_loop_run n : ∀ f fuel w P ent ob live d M k v is_load sl p_ptr e depth ho np,
  (rounds P sl e ho ≤ n)%nat → (n ≤ f)%nat →
  tree_inv tree_id w P ent ob live d M → at_slot tree_id P ent ob k sl p_ptr e depth ho w →
  locked k v (w_locks w (lock_index CityHash64 k)) → key_ok k → uint 64 v →
  (3 * n ≤ cache_room (w_cache w))%nat → 3 <= heap_blocks (w_alloc w) d →
  ∃ w', run (loop f (insert_next CityHash64 (S fuel) k is_load) (Ins p_ptr e np depth ho gaddr_Null v)) w = Ok (tt, w') ∧
    settled tree_id P ent ob (3 * n) w d (inserted is_load k v M) w'.
Proof using Htid.
  induction n as [|n IH]; intros f fuel w P ent ob live d M k v is_load sl p_ptr e depth ho np Hn Hf Hi Hat Hlock Hk Hv Hroom Hb.
  { destruct (rounds_pos P k sl e ho); [apply Hat|done|lia]. }
  destruct f as [|f]; [lia|]. pose proof (at_slot_live _ _ _ _ _ _ _ _ _ _ _ _ _ Hi Hat) as Hnull.
  assert (∃ r w1, run (insert_next CityHash64 (S fuel) k is_load (Ins p_ptr e np depth ho gaddr_Null v)) w = Ok (r, w1) ∧
            round_post tree_id P ent ob live d M k v is_load 3 (rounds P sl e ho) w r w1) as (r & w1 & Hr & Hpost).
  { unfold insert_next. cbn [i_p]. rewrite Hnull. destruct (e_is_leaf e) eqn:Hleaf.
    - destruct (insert_leaf_run CityHash64 tree_id Htid fuel w P ent ob live d M k v is_load sl p_ptr e depth ho np) as (r & w1 & Hr & Hpost);
        [done..|lia|done|]. exists r, w1. split; [done|]. eapply round_post_mono; [|exact Hpost]. lia.
    - eapply insert_node_run; try done. lia. }
  rewrite (run_loop _ _ _ _ _ _ Hr). destruct r as [s|[]].
  - destruct Hpost as (sl' & Hi' & Hat' & Hl' & Hv' & Hn' & Hlk & Hal & Hcr). destruct s as [pp e' np' dp' ho' lf' v']. cbn in *. subst lf' v'.
    destruct (IH f fuel w1 P ent ob live d M k v is_load sl' pp e' dp' ho' np') as (w' & Hrun & Hset); try done; try lia; rewrite ?Hal, ?Hlk; try done.
    exists w'. split; [exact Hrun|]. destruct Hset as (P' & ent' & ob' & live' & d' & Hi2 & Hg2 & Hl2 & Hb2 & Hr2).
    exists P', ent', ob', live', d'. split; [done|]. split; [done|]. split; [intros j; by rewrite Hl2|]. rewrite Hal in Hb2. split; [done|lia].
  - exists w1. split; [done|]. eapply settled_mono; [|exact Hpost]. lia.
Qed.

(** ** [search] *)

(** After a round of [search]: only the cache has changed; the loop goes on
    nearer to the leaves, or has its answer. *)
Definition search_post P ent ob M (k : Key) (v : Z) (n : nat) (w : world) (r : step_result search_state (bool * Z)) (w' : world) : Prop :=
  ∃ c, w' = set_cache c w ∧ cache_after (cached P ent ob) 1 (w_cache w) c ∧
    match r with
    | Done x => x = answer M k v
    | Again s => ∃ sl, at_slot tree_id P ent ob k sl (s_p_ptr s) (s_p s) (s_depth s) (s_from s) w' ∧
                       (rounds P sl (s_p s) (s_from s) < n)%nat
    end.

Lemma cache_after_mono F a b c c' : (a ≤ b)%nat → cache_after F a c c' → cache_after F b c c'.
Proof. intros Hab (H1' & H2' & H3'). split_and!; [done|lia|done]. Qed.

Lemma search_stale w P ent ob live d M k v sl p_ptr e depth h :
  tree_inv tree_id w P ent ob live d M → at_slot tree_id P ent ob k sl p_ptr e depth (Some h) w →
  ∃ r w', run (invalidate_if (Some h) ;; p ← read_entry p_ptr; mret (Again (Se p_ptr p depth None))) w = Ok (r, w') ∧
    search_post P ent ob M k v (rounds P sl e (Some h)) w r w'.
Proof.
  intros Hi Hat. destruct (reread_round tree_id _ _ _ _ _ _ _ _ _ _ _ _ _ Hi Hat) as (e' & c & Hr1 & Hr2 & Hafter & Hat' & Hn).
  eexists _, _. split; [rewrite run_bind, Hr1, run_bind, Hr2, run_ret; done|].
  exists c. split; [done|]. split; [eapply cache_after_mono; [|done]; lia|]. exists sl. cbn. split; [done|lia].
Qed.

Lemma search_same M k v (x : bool * Z) P ent ob n w :
  cache_inv (cached P ent ob) (w_cache w) → x = answer M k v → search_post P ent ob M k v n w (Done x) w.
Proof.
  intros Hc Hx. exists (w_cache w). split; [by destruct w|]. split; [|done].
  eapply cache_after_mono; [|by apply cache_after_refl]. lia.
Qed.

Lemma search_leaf_round fuel w P ent ob live d M k v sl p_ptr e depth ho :
  tree_inv tree_id w P ent ob live d M → at_slot tree_id P ent ob k sl p_ptr e depth ho w → e_is_leaf e = true →
  ∃ r w', run (search_leaf (S fuel) k v (Se p_ptr e depth ho)) w = Ok (r, w') ∧
    search_post P ent ob M k v (rounds P sl e ho) w r w'.
Proof using Htid.
  intros Hi Hat Hleaf. pose proof Hat as (Hp & Hway & Hd & Hf & Hkn & Hcur).
  assert (∃ s' k' v', ob (e_addr e) = Some (MLeaf s' k' v')) as (s' & k' & v' & Ho).
  { destruct Hkn as [_ Hkn]. destruct (ob (e_addr e)) as [[s' h|s' k' v']|]; [|eauto|done]. destruct Hkn as (t & Ee & _). by rewrite Ee in Hleaf. }
  destruct (at_slot_target tree_id Htid _ _ _ _ _ _ _ _ _ _ _ _ _ _ Hi Hat Ho) as [Hfc Hcase]. cbn [m_slot] in *.
  destruct (run_read_leaf_at tree_id _ _ _ _ _ _ _ fuel _ _ _ _ _ p_ptr (from_cache ho) Hi Hkn Ho) as [_ Hread].
  { intros Hn. apply Hfc. by destruct ho. }
  unfold search_leaf. cbn [s_p s_p_ptr s_from s_depth]. rewrite run_bind, Hread.
  destruct Hcase as [(h & -> & Hst)|(Hval & -> & e' & He & Hne & _ & _ & ->)].
  - cbn [from_cache negb orb]. rewrite Hst. by eapply search_stale.
  - rewrite Hval. change (l_key (leaf_make k' v' (slot_ptr tree_id sl))) with k'. change (l_value (leaf_make k' v' (slot_ptr tree_id sl))) with v'.
    cbn [negb]. unfold key_eqb. destruct (decide (k' = k)) as [->|Hkk].
    + rewrite bool_decide_true by done. exists (Done (true, v')), w. split; [done|]. apply search_same; [apply Hi|].
      symmetry. apply answer_Some. apply (ti_map _ _ _ _ _ _ _ _ Hi k v'). eauto.
    + rewrite bool_decide_false by done. exists (Done (false, v)), w. split; [done|]. apply search_same; [apply Hi|]. symmetry. apply answer_None.
      by eapply other_leaf_absent.
Qed.

Lemma search_node_here w P ent ob live d M k v sl e e0 h ho tc p c n :
  tree_inv tree_id w P ent ob live d M → ent sl = Some e → e ≠ entry_Null → ob (e_addr e) = Some (MNode sl h) →
  spath P sl e `prefix_of` k → from_lookup ho w →
  run (read_node e0 (slot_ptr tree_id sl) (h_depth h) (from_cache ho)) w = Ok ((e, tc, p, true), w) →
  p = page_at (w_mem w) (e_addr e) c → (cnt h ≤ c ≤ 256)%nat → pg_hdr p = h →
  (∀ i ei, (i < c)%nat → ent (Slot (e_addr e) i) = Some ei → pg_records p !! i = Some ei) →
  key_ok k → (1 ≤ cache_room (w_cache w))%nat → (8 - length (spath P sl e) < n)%nat →
  ∃ r w', run (search_node k v (Se (slot_ptr tree_id sl) e0 (h_depth h) ho)) w = Ok (r, w') ∧ search_post P ent ob M k v n w r w'.
Proof using Htid.
  intros Hi He Hne Hx Hway Hf Hread Ep Hc Hph Hrec Hk Hroom Hn.
  pose proof (ti_shape _ _ _ _ _ _ _ _ Hi) as Hs. pose proof (sh_node _ _ _ Hs _ _ _ Hx) as Hh.
  destruct (shape_node_path _ _ _ Hs _ _ _ _ He Hne Hx) as (_ & Hpre & Hlen). apply prefix_length in Hpre.
  pose proof (sh_child _ _ _ Hs sl e He Hne) as Hch. rewrite Hx in Hch. destruct Hch as (_ & Ee & Hsp).
  pose proof Hh as (Hhok & Ht & Hd1 & Hpl & Hle & HlP & _). pose proof Hhok as (_ & _ & Hpl0 & _). unfold uint in Hpl0.
  assert (Hety : e_node_type e = h_node_type h) by (rewrite Ee; apply entry_node_type; unfold uint; lia).
  assert (Hwayd : take (Z.to_nat (h_depth h - 1)) (P (e_addr e)) `prefix_of` k) by by rewrite <- Hsp.
  destruct (run_page_cached tree_id w P ent ob live d M k (e_addr e) sl h c ho tc p Hi Hx Hwayd Hk Hf) as (c1 & c2 & Hr1 & Hr2 & Hafter); [lia|done..|].
  destruct (head_part k (P (e_addr e)) h Hk Hh Hwayd) as (df & Ediff & Hdf).
  unfold search_node. cbn [s_p s_p_ptr s_depth s_from]. rewrite run_bind, Hread. cbn [negb]. rewrite Hph, Hety.
  rewrite run_bind, Hr1, run_bind, Z.eqb_refl, Hr2, (run_bind_pure _ _ _ _ Ediff). destruct df as [[i q]|].
  - destruct Hdf as (Hir & Hq & Hb & Hpq). exists (Done (false, v)), (set_cache c2 w). split; [done|]. exists c2. do 2 (split; [done|]).
    symmetry. apply answer_None. eapply off_path_absent; [exact Hi|exact He|done|done|done| |done]. by eapply head_off.
  - destruct Hdf as (_ & b & Eb & Hbb & Hpb). rewrite (run_bind_pure _ _ _ _ Eb).
    change (Z.to_nat (node_type_to_num (h_node_type h))) with (cnt h).
    assert (Hlr : length (pg_records p) = c) by (rewrite Ep; cbn; by rewrite length_fmap, length_seq).
    assert (Hent : ∀ j, (j < c)%nat → ∃ ej, ent (Slot (e_addr e) j) = Some ej ∧ pg_records p !! j = Some ej).
    { intros j Hj. destruct (proj2 (sh_slots _ _ _ Hs (e_addr e) j)) as [ej Hej]; [split; [eauto|lia]|]. eauto. }
    destruct (find_slot_spec (pg_records p) (cnt h) 0 b) as (r & Hfind & Hr); [rewrite Ep; apply page_at_ok|lia|rewrite Hlr; lia|].
    rewrite (run_bind_pure _ _ _ _ Hfind). destruct r as [[j ej]|].
    + destruct Hr as (Hj & Hjr & Hnej & Hbj). destruct (Hent (Z.to_nat j) ltac:(lia)) as (ej' & Hej & Hej'). assert (ej' = ej) as -> by congruence.
      eexists _, (set_cache c2 w). split; [rewrite run_ret; done|]. exists c2. do 2 (split; [done|]). cbn [s_p s_p_ptr s_depth s_from].
      replace (GADD (e_addr e) (page_head + j * 8)) with (slot_ptr tree_id (Slot (e_addr e) (Z.to_nat j))) by (cbn; by rewrite Z2Nat.id by lia).
      exists (Slot (e_addr e) (Z.to_nat j)). eapply next_at_slot; [done|done|done|done|by rewrite Hbj|lia|lia].
    + exists (Done (false, v)), (set_cache c2 w). split; [done|]. exists c2. do 2 (split; [done|]). symmetry. apply answer_None.
      destruct (M !! k) as [v0|] eqn:E; [exfalso|done]. apply (ti_map _ _ _ _ _ _ _ _ Hi k v0) in E as (a0 & s0 & Ha0).
      eapply (shape_absent P ent ob Hs); [exact Hx|exact Hpb| |exact Ha0]. intros j ej Hej Hnej.
      destruct (decide (j < cnt h)%nat) as [Hj|Hj]; [|by destruct Hnej; apply (sh_null _ _ _ Hs (e_addr e) sl h j ej); [| |lia]].
      apply (Hr j ej); [lia| |done]. apply Hrec; [lia|done].
Qed.

Lemma search_node_round w P ent ob live d M k v sl p_ptr e depth ho :
  tree_inv tree_id w P ent ob live d M → at_slot tree_id P ent ob k sl p_ptr e depth ho w → e_is_leaf e = false →
  key_ok k → (1 ≤ cache_room (w_cache w))%nat →
  ∃ r w', run (search_node k v (Se p_ptr e depth ho)) w = Ok (r, w') ∧ search_post P ent ob M k v (rounds P sl e ho) w r w'.
Proof using Htid.
  intros Hi Hat Hleaf Hk Hroom. pose proof Hat as (Hp & Hway & Hd & Hf & Hkn & Hcur).
  pose proof (ti_shape _ _ _ _ _ _ _ _ Hi) as Hs.
  assert (∃ s' h, ob (e_addr e) = Some (MNode s' h)) as (s' & h & Ho).
  { destruct Hkn as [_ Hkn]. destruct (ob (e_addr e)) as [[s' h|s' k' v']|]; [eauto| |done]. by rewrite Hkn in Hleaf. }
  destruct (at_slot_target tree_id Htid _ _ _ _ _ _ _ _ _ _ _ _ _ _ Hi Hat Ho) as [Hfc Hcase]. cbn [m_slot] in *.
  destruct (run_read_node_at tree_id w P ent ob live d M sl e s' h p_ptr depth (from_cache ho) Hi Hkn Ho) as (_ & c & Hread & Hc & Hph & Hrec).
  { intros Hn. apply Hfc. by destruct ho. }
  destruct Hcase as [(hd & -> & Hst)|(Hval & -> & e' & He & Hne & Hpe & Hae & Ee)].
  - cbn [from_cache negb orb] in Hread. rewrite Hst, andb_false_r in Hread.
    unfold search_node. cbn [s_p s_p_ptr s_depth s_from from_cache]. rewrite run_bind, Hread. by eapply search_stale.
  - assert (Hsp : spath P sl e' = spath P sl e) by by apply spath_partial.
    rewrite <- Hae in Ho. destruct (shape_node_path _ _ _ Hs _ _ _ _ He Hne Ho) as (_ & _ & Hlen). rewrite Hsp in Hlen.
    assert (depth = h_depth h) as -> by lia. rewrite Hval, Z.leb_refl, <- Ee in Hread. cbn [andb] in Hread. rewrite Hp.
    rewrite <- Hae in Hread, Hrec, Hph. rewrite Hp in Hread.
    eapply (search_node_here w P ent ob live d M k v sl e' e h ho _ _ c); try done; try by rewrite Hsp.
    rewrite Hsp. unfold rounds. apply prefix_length in Hway. destruct Hk as [Hkl _]. change klen with 8%nat in Hkl. lia.
Qed.

Lemma search_loop_any n : ∀ f fuel w P ent ob live d M k v sl p_ptr e depth ho,
  (rounds P sl e ho ≤ n)%nat → (n ≤ f)%nat →
  tree_inv tree_id w P ent ob live d M → at_slot tree_id P ent ob k sl p_ptr e depth ho w → key_ok k →
  (n ≤ cache_room (w_cache w))%nat →
  ∃ c, run (loop f (search_next (S fuel) k v) (Se p_ptr e depth ho)) w = Ok (answer M k v, set_cache c w) ∧
    cache_after (cached P ent ob) n (w_cache w) c.
Proof using Htid.
  induction n as [|n IH]; intros f fuel w P ent ob live d M k v sl p_ptr e depth ho Hn Hf Hi Hat Hk Hroom.
  { destruct (rounds_pos P k sl e ho); [apply Hat|done|lia]. }
  destruct f as [|f]; [lia|]. pose proof (at_slot_live _ _ _ _ _ _ _ _ _ _ _ _ _ Hi Hat) as Hnull.
  assert (∃ r w1, run (search_next (S fuel) k v (Se p_ptr e depth ho)) w = Ok (r, w1) ∧
            search_post P ent ob M k v (rounds P sl e ho) w r w1) as (r & w1 & Hr & c1 & -> & Hafter & Hpost).
  { unfold search_next. cbn [s_p]. rewrite Hnull. destruct (e_is_leaf e) eqn:Hleaf.
    - by eapply search_leaf_round.
    - eapply search_node_round; try done. lia. }
  rewrite (run_loop _ _ _ _ _ _ Hr). destruct r as [s|x].
  - destruct Hpost as (sl' & Hat' & Hn'). destruct s as [pp e' dp' ho']. cbn in *. pose proof Hafter as (_ & Hr1 & _).
    destruct (IH f fuel (set_cache c1 w) P ent ob live d M k v sl' pp e' dp' ho') as (c & Hrun & Hafter2); try done; try lia;
      [by eapply tree_inv_cache|cbn; lia|].
    exists c. split; [exact Hrun|]. exact (cache_after_trans _ 1 n _ _ _ Hafter Hafter2).
  - subst x. exists c1. split; [done|]. eapply cache_after_mono; [|exact Hafter]. lia.
Qed.
End loops.

(** ** One operation *)
Section operation.
Context `{Checksum} `{IndexCacheLaws} {others : Others} (CityHash64 : list byte → Z) (tree_id : Z) (Htid : tree_id_ok tree_id).

(** The rounds of an operation at most. *)
Definition max_rounds : nat := 10.

Lemma tree_inv_locks w P ent ob live d M l : tree_inv tree_id w P ent ob live d M → tree_inv tree_id (set_locks l w) P ent ob live d M.
Proof. intros [Hs Hm Hc Hlm Hfk]. split; [done|by apply mem_inv_locks|done..]. Qed.

Lemma idle_after (l : lock_table) (w : world) i n :
  (∀ j, j ≠ i → node_idle (w_locks w j)) → node_idle n → (∀ j, l j = if j =? i then n else w_locks w j) → ∀ j, node_idle (l j).
Proof. intros Hw Hn Hl j. rewrite Hl. destruct (Z.eqb_spec j i); [done|by apply Hw]. Qed.

Lemma root_null_empty w P ent ob live d M : tree_inv tree_id w P ent ob live d M → ent SRoot = Some entry_Null → M = ∅.
Proof.
  intros Hi Hroot. apply map_empty. intros k0. destruct (M !! k0) as [v0|] eqn:E; [exfalso|done].
  apply (ti_map _ _ _ _ _ _ _ _ Hi k0 v0) in E as (a0 & s0 & Ha0).
  by rewrite (shape_empty P ent ob (ti_shape _ _ _ _ _ _ _ _ Hi) a0 Hroot) in Ha0.
Qed.

Lemma insert_run fuel w P ent ob live d M k v is_load :
  tree_inv tree_id w P ent ob live d M → (∀ i, node_idle (w_locks w i)) → key_ok k → uint 64 v →
  (3 * max_rounds ≤ cache_room (w_cache w))%nat → 3 <= heap_blocks (w_alloc w) d → (max_rounds ≤ fuel)%nat →
  ∃ w' P' ent' ob' live' d', run (insert CityHash64 tree_id fuel k v is_load) w = Ok (tt, w') ∧
    tree_inv tree_id w' P' ent' ob' live' d' (inserted is_load k v M) ∧ grows P ent ob P' ent' ob' ∧
    (∀ i, node_idle (w_locks w' i)) ∧
    (cache_room (w_cache w) ≤ 3 * max_rounds + cache_room (w_cache w'))%nat ∧
    heap_blocks (w_alloc w) d - 3 <= heap_blocks (w_alloc w') d'.
Proof using Htid.
  intros Hi Hidle Hk Hv Hroom Hb Hfuel.
  destruct (solo_write k v _ (Hidle (lock_index CityHash64 k))) as (n1 & Hacq & Hcomb & Hrel).
  destruct (run_on_lock_set CityHash64 k _ _ _ _ Hacq) as (l1 & Hr1 & Hl1).
  apply (tree_inv_locks _ _ _ _ _ _ _ l1) in Hi. unfold insert. rewrite run_bind, Hr1. cbn [fst snd andb].
  destruct (run_start_at tree_id _ P ent ob live d M k Hi Hk) as (ho & p_ptr & e & np & depth & c & Hst & Hafter & Hcase).
  pose proof (tree_inv_cache _ _ _ _ _ _ _ _ _ _ Hi Hafter) as Hi2. set (w2 := set_cache c (set_locks l1 w)) in *.
  assert (Hl2 : w_locks w2 (lock_index CityHash64 k) = n1) by (cbn; rewrite Hl1; unfold lock_index; by rewrite Z.eqb_refl).
  assert (Hlock : locked k v (w_locks w2 (lock_index CityHash64 k))) by (rewrite Hl2; by split).
  destruct Hafter as (_ & Hcr & _). cbn in Hcr. destruct fuel as [|fuel]; [unfold max_rounds in *; lia|].
  assert (∃ w3, run (loop (S fuel) (insert_next CityHash64 (S fuel) k is_load) (Ins p_ptr e np depth ho gaddr_Null v)) w2 = Ok (tt, w3) ∧
            settled tree_id P ent ob (3 * max_rounds) w2 d (inserted is_load k v M) w3)
    as (w3 & Hr3 & P' & ent' & ob' & live' & d' & Hi3 & Hg3 & Hl3 & Hb3 & Hcr3).
  { destruct Hcase as [(-> & Hroot & -> & -> & ->)|(sl & Hat)].
    - destruct (insert_null_run CityHash64 tree_id Htid w2 P ent ob live d M k v np Hi2 Hroot Hlock Hk Hv Hb) as (w3 & Hr3 & Hset).
      exists w3. split; [by rewrite (run_loop fuel _ _ w2 (Done tt) w3)|]. rewrite inserted_absent.
      { eapply settled_mono; [|exact Hset]. lia. }
      by rewrite (root_null_empty _ _ _ _ _ _ _ Hi2 Hroot), lookup_empty.
    - eapply insert_loop_run; try done.
      + apply (rounds_pos P k); [apply Hat|done].
      + change (w_cache w2) with c. lia. }
  destruct Hrel as (n2 & Hrel & Hidle2). assert (w_locks w3 (get_hashed_lock_index CityHash64 k) = n1) as Hn3 by by rewrite Hl3.
  rewrite <- Hn3 in Hrel. destruct (run_on_lock_set CityHash64 k _ _ _ _ Hrel) as (l4 & Hr4 & Hl4).
  exists (set_locks l4 w3), P', ent', ob', live', d'. split; [by rewrite run_bind, run_bind, Hst, Hr3|].
  split; [by apply tree_inv_locks|]. split; [done|]. split; [|split; [|done]].
  - eapply idle_after; [|exact Hidle2|exact Hl4]. intros j Hj. rewrite Hl3. cbn. rewrite Hl1.
    by rewrite (proj2 (Z.eqb_neq _ _) Hj).
  - change (w_cache w2) with c in Hcr3. change (w_cache (set_locks l4 w3)) with (w_cache w3). lia.
Qed.

Lemma search_run fuel w P ent ob live d M k v :
  tree_inv tree_id w P ent ob live d M → (∀ i, node_idle (w_locks w i)) → M ≠ ∅ → key_ok k →
  (max_rounds ≤ cache_room (w_cache w))%nat → (max_rounds ≤ fuel)%nat →
  ∃ l c, run (search CityHash64 tree_id fuel k v) w = Ok (answer M k v, set_locks l (set_cache c w)) ∧
    (∀ i, node_idle (l i)) ∧ cache_after (cached P ent ob) max_rounds (w_cache w) c.
Proof using Htid.
  intros Hi Hidle HM Hk Hroom Hfuel.
  destruct (solo_read k _ (Hidle (lock_index CityHash64 k))) as (n1 & Hacq & Hrel).
  destruct (run_on_lock_set CityHash64 k _ _ _ _ Hacq) as (l1 & Hr1 & Hl1).
  apply (tree_inv_locks _ _ _ _ _ _ _ l1) in Hi. unfold search. rewrite run_bind, Hr1. cbn [fst snd andb].
  destruct (run_start_at tree_id _ P ent ob live d M k Hi Hk) as (ho & p_ptr & e & np & depth & c & Hst & Hafter & Hcase).
  pose proof (tree_inv_cache _ _ _ _ _ _ _ _ _ _ Hi Hafter) as Hi2. set (w2 := set_cache c (set_locks l1 w)) in *.
  pose proof Hafter as (_ & Hcr & _). cbn in Hcr. destruct fuel as [|fuel]; [unfold max_rounds in *; lia|].
  destruct Hcase as [(_ & Hroot & _)|(sl & Hat)]; [by destruct HM; eapply root_null_empty|].
  destruct (search_loop_any tree_id Htid max_rounds (S fuel) fuel w2 P ent ob live d M k v sl p_ptr e depth ho) as (c3 & Hr3 & Hafter3);
    [by apply (rounds_pos P k); [apply Hat|]|done|done|done|done|change (w_cache w2) with c; lia|].
  set (w3 := set_cache c3 w2) in *.
  destruct (Hrel (bool_decide (is_Some (M !! k))) (default v (M !! k))) as (n2 & Hrel2 & Hidle2).
  assert (w_locks w3 (get_hashed_lock_index CityHash64 k) = n1) as Hn3 by (cbn; by rewrite Hl1, Z.eqb_refl).
  rewrite <- Hn3 in Hrel2. destruct (run_on_lock_set CityHash64 k _ _ _ _ Hrel2) as (l4 & Hr4 & Hl4).
  exists l4, c3. split; [|split].
  - rewrite run_bind, run_bind, Hst, (run_bind_pure _ _ tt), Hr3; [exact Hr4|].
    by rewrite (at_slot_live tree_id _ _ _ _ _ _ _ _ _ _ _ _ _ Hi2 Hat).
  - eapply idle_after; [|exact Hidle2|exact Hl4]. intros j Hj. cbn. rewrite Hl1. by rewrite (proj2 (Z.eqb_neq _ _) Hj).
  - exact (cache_after_trans _ 0 max_rounds _ _ _ Hafter Hafter3).
Qed.
End operation.
