(* ===== verification/TreeRange.v ===== *)
(** * Range queries on the tree

    [range_query] on a tree of the invariant, with an index cache that knows no
    key of the range. A query keeps a list of entries that may hold keys of the
    range; their paths lead to different parts of the tree ([antichain]), so
    that no address is read twice, and each level of the loop replaces an entry
    by entries below it. *)

From Stdlib Require Import ZArith Lia Bool List.
From stdpp Require Import base tactics decidable option numbers functions list gmap.
From S2P Require Import Prelude.
From S2P Require Import Common.
From S2P Require Import Keys.
From S2P Require Import Address.
From S2P Require Import Nodes.
From S2P Require Import Allocators.
From S2P Require Import Memory.
From S2P Require Import Process.
From S2P Require Import LockTable.
From S2P Require Import IndexCache.
From S2P Require Import Tree.
From S2P Require Import TreeSearch.
From S2P Require Import TreeShape.
From S2P Require Import TreeHeap.
From S2P Require Import TreeState.
From S2P Require Import TreeWrite.
From S2P Require Import TreeInsert.
From S2P Require Import TreeRounds.
From S2P Require Import TreeOps.

(** Lists that start alike have the same short prefixes. *)
Lemma prefix_agree n (q k x : list byte) : take n x = take n k → q `prefix_of` k → (length q ≤ n)%nat → q `prefix_of` x.
Proof.
  intros Ha [t Et] Hq. exists (drop (length q) x). rewrite <- (take_drop (length q) x) at 1. f_equal.
  pose proof (f_equal (take (length q)) Ha) as E. rewrite !take_take, Nat.min_l in E by lia. by rewrite E, Et, take_app_length.
Qed.

(** ** Paths that lead to different parts of the tree *)
Definition apart (q q' : list byte) : Prop := ¬ q `prefix_of` q' ∧ ¬ q' `prefix_of` q.

Definition antichain (qs : list (list byte)) : Prop := ForallOrdPairs apart qs.

Lemma apart_below q1 q2 r1 r2 : apart q1 q2 → q1 `prefix_of` r1 → q2 `prefix_of` r2 → apart r1 r2.
Proof.
  intros [H12 H21] H1 H2. split; intros Hp.
  - destruct (prefix_weak_total q1 q2 r2); [by etrans|done..].
  - destruct (prefix_weak_total q1 q2 r1); [done|by etrans|done..].
Qed.

Lemma antichain_app l k : antichain l → antichain k → (∀ x y, x ∈ l → y ∈ k → apart x y) → antichain (l ++ k).
Proof.
  intros Hl Hk Hlk. induction Hl as [|x l Hx Hl IH]; [done|]. cbn. constructor.
  - apply List.Forall_app. split; [done|]. apply List.Forall_forall. intros y Hy. apply Hlk; [by left|by apply list_elem_of_In].
  - apply IH. intros y z Hy. apply Hlk. by right.
Qed.

Lemma antichain_children ρ bs : NoDup bs → antichain ((λ b, ρ ++ [b]) <$> bs).
Proof.
  assert (Hp : ∀ b c : byte, (ρ ++ [b]) `prefix_of` (ρ ++ [c]) → b = c).
  { intros b c Hp%prefix_app_inv. by apply prefix_cons_inv_1 in Hp. }
  induction 1 as [|b bs Hb Hbs IH]; [constructor|]. cbn. constructor; [|done].
  apply List.Forall_forall. intros q Hq%list_elem_of_In. apply list_elem_of_fmap in Hq as (c & -> & Hc).
  split; intros <-%Hp || intros ->%Hp; done.
Qed.

Lemma antichain_eq qs q r : antichain qs → q ∈ qs → r ∈ qs → q `prefix_of` r → q = r.
Proof.
  induction 1 as [|x qs Hx Hqs IH]; intros Hq Hr Hp; [by apply elem_of_nil in Hq|].
  rewrite List.Forall_forall in Hx. setoid_rewrite <- list_elem_of_In in Hx.
  apply elem_of_cons in Hq as [->|Hq], Hr as [->|Hr]; [done|..|by apply IH].
  - by destruct (Hx r Hr) as [[] _].
  - by destruct (Hx q Hq) as [_ []].
Qed.

(** [qs'] is below [qs]. *)
Definition below (qs qs' : list (list byte)) : Prop :=
  ∀ q', q' ∈ qs' → ∃ q, q ∈ qs ∧ q `prefix_of` q' ∧ (length q < length q')%nat.

Definition covered (qs : list (list byte)) (x : Key) : Prop := ∃ q, q ∈ qs ∧ q `prefix_of` x.

Lemma antichain_below_app q qs r rs :
  antichain (q :: qs) → antichain r → antichain rs → below [q] r → below qs rs → antichain (r ++ rs).
Proof.
  intros Hq Hr Hrs Hb1 Hb2. apply antichain_app; [done|done|]. intros x y Hx Hy.
  destruct (Hb1 x Hx) as (q1 & ->%list_elem_of_singleton & Hp1 & _), (Hb2 y Hy) as (q2 & Hq2 & Hp2 & _).
  inversion Hq as [|? ? Hf _]; subst. eapply apart_below; [|done|done].
  rewrite List.Forall_forall in Hf. apply Hf. by apply list_elem_of_In.
Qed.

(** ** The ends of a range *)

(** Both ends are treated alike: [out] is how a key beyond the end compares. *)
Definition border (out : comparison) (c : option comparison) : State := match out with Lt => l_border c | _ => r_border c end.

Definition beyond (out : comparison) (k0 x : Key) : Prop :=
  match out with Lt => key_ltb x k0 = true | _ => key_ltb k0 x = true end.

Lemma key_ltb_at n (x k : Key) p q :
  take n x = take n k → x !! n = Some p → k !! n = Some q → p < q → key_ltb x k = true.
Proof.
  revert x k. induction n as [|n IH]; intros [|a x] [|b k]; cbn; intros Ht Hx Hk Hlt; simplify_eq.
  - by rewrite (proj2 (Z.ltb_lt p q) Hlt).
  - rewrite Z.ltb_irrefl. by apply IH.
Qed.

Lemma beyond_at out n (x k : Key) p q :
  out ≠ Eq → take n x = take n k → x !! n = Some p → k !! n = Some q → (p ?= q) = out → beyond out k x.
Proof.
  intros Hout Ht Hx Hk Hc. destruct out; [done|apply Z.compare_lt_iff in Hc|apply Z.compare_gt_iff in Hc]; cbn.
  - by eapply key_ltb_at.
  - eapply key_ltb_at; [by symmetry|done..].
Qed.

Lemma border_spec out p q :
  out ≠ Eq → p ≠ q → border out (Some (p ?= q)) = OUTSIDE ∧ (p ?= q) = out ∨ border out (Some (p ?= q)) = INSIDE.
Proof.
  intros Hout Hpq. unfold border. destruct (p ?= q) eqn:E; [by apply Z.compare_eq_iff in E|..]; destruct out; cbn; auto; done.
Qed.

(** The end of the range, seen at an entry with path [q]. *)
Definition edge (k0 : Key) (st : State) (k : Key) (q : list byte) : Prop :=
  st ≠ OUTSIDE ∧ key_ok k ∧ q `prefix_of` k ∧ (st = BORDER → k = k0).

(** *** The header *)
Lemma header_cmp_diff h k n i d :
  header_diff h k n i = Ok d →
  match d with
  | None => header_cmp h k n i = Ok None
  | Some (j, q) => ∃ b, get_partial k (h_depth h + j) = Ok b ∧ header_cmp h k n i = Ok (Some (q ?= b))
  end.
Proof.
  revert i. induction n as [|n IH]; intros i; cbn [header_diff header_cmp]; [by intros [= <-]|].
  destruct (get_partial k (h_depth h + i)) as [p|] eqn:Ep; [|done]. destruct (idx_ (h_partial h) i) as [q|]; [|done].
  cbn [mbind res_bind]. rewrite (Z.eqb_sym q p). destruct (Z.eqb_spec p q) as [->|Hpq]; cbn [negb]; [apply IH|].
  intros [= <-]. eauto.
Qed.

Lemma edge_header out k0 st k ρ h :
  out ≠ Eq → head_ok ρ h → edge k0 st k (take (Z.to_nat (h_depth h - 1)) ρ) →
  ∃ st', match st with
         | BORDER => c ← header_cmp h k (Z.to_nat (h_partial_len h)) 0; Ok (border out c)
         | st => Ok st
         end = Ok st' ∧
    (st' = OUTSIDE → ∀ x, ρ `prefix_of` x → beyond out k0 x) ∧ (st' = BORDER → k = k0 ∧ ρ `prefix_of` k).
Proof.
  intros Hout Hh (Hst & Hk & Hway & Hk0). destruct st; [by exists INSIDE| |done]. specialize (Hk0 eq_refl) as <-.
  destruct (head_part k ρ h Hk Hh Hway) as (d & Ed & Hd). apply header_cmp_diff in Ed. destruct d as [[i q]|].
  - destruct Hd as (Hi & Hq & (b & Eb & Hqb) & Hpre), Ed as (b' & Eb' & ->). assert (b' = b) as -> by congruence.
    eexists. split; [done|]. destruct (border_spec out q b Hout Hqb) as [[-> Hc]| ->]; [|done]. split; [|done]. intros _ x Hx.
    apply get_partial_index in Eb; [|destruct Hh as (_ & _ & ? & _); lia].
    replace (Z.to_nat (h_depth h + i - 1)) with (Z.to_nat (h_depth h - 1) + Z.to_nat i)%nat in Eb
      by (destruct Hh as (_ & _ & ? & _); lia).
    set (n := (Z.to_nat (h_depth h - 1) + Z.to_nat i)%nat) in *. pose proof (lookup_lt_Some _ _ _ Eb) as Hn.
    assert (Hqx : (take n k ++ [q]) `prefix_of` x) by (by etrans). destruct Hqx as [t ->].
    eapply (beyond_at out n); [done| | |exact Eb|exact Hc].
    + rewrite <- app_assoc, take_app_length'; [done|]. rewrite length_take. lia.
    + rewrite <- app_assoc, lookup_app_r by (rewrite length_take; lia). rewrite length_take, Nat.min_l, Nat.sub_diag by lia. done.
  - rewrite Ed. cbn [mbind res_bind]. exists BORDER. split; [by destruct out|]. split; [done|]. intros _. split; [done|apply Hd].
Qed.

(** *** The ends at a record *)
Lemma remake_prefix_ok k d b : key_ok k → is_byte b → 1 <= d <= keyLen →
  ∃ k', remake_prefix k d b = Ok k' ∧ key_ok k' ∧ (take (Z.to_nat (d - 1)) k ++ [b]) `prefix_of` k'.
Proof.
  intros [Hl Hf] Hb Hd. unfold remake_prefix. unfold keyLen in *. change klen with 8%nat in *.
  rewrite (proj2 (Z.ltb_lt 0 d)), !(proj2 (Z.leb_le _ _)) by lia. cbn [defined mbind res_bind]. eexists. split; [done|].
  rewrite app_assoc. split; [|by apply prefix_app_r]. split.
  - rewrite !length_app, length_take, length_replicate, Hl. cbn [length]. change klen with 8%nat. lia.
  - rewrite !Forall_app. split; [|by apply Forall_replicate].
    split; [by apply Forall_take|by apply Forall_singleton].
Qed.

Lemma remake_partial_ok ρ h n : ∀ i k,
  head_ok ρ h → 0 <= i → i + Z.of_nat n = h_partial_len h → key_ok k →
  take (Z.to_nat (h_depth h - 1 + i)) ρ `prefix_of` k →
  ∃ k', remake_partial h n i k = Ok k' ∧ key_ok k' ∧ ρ `prefix_of` k'.
Proof.
  induction n as [|n IH]; intros i k Hh Hi Hn Hk Hp; destruct (head_length ρ h Hh) as (Hlr & Hl8 & _);
    pose proof Hh as ((_ & _ & _ & Hl6 & Hf) & _ & Hd & Hpl & Hle & _); cbn [remake_partial].
  { exists k. split; [done|]. split; [done|]. by rewrite take_ge in Hp by lia. }
  unfold keyLen, hPartialLenMax in *. destruct (lookup_lt_is_Some_2 (h_partial h) (Z.to_nat i)) as [q Hq]; [lia|].
  rewrite (proj2 (idx_Ok (h_partial h) i q)) by done. cbn [mbind res_bind].
  assert (is_byte q) as Hqb by (by eapply Forall_lookup_1).
  destruct (remake_prefix_ok k (h_depth h + i) q Hk Hqb) as (k1 & -> & Hk1 & Hp1); [unfold keyLen; lia|]. cbn [mbind res_bind].
  apply IH; [done|lia|lia|done|]. etrans; [|exact Hp1].
  rewrite (head_bytes ρ h Hh) in Hq by lia. replace (Z.to_nat (h_depth h - 1) + Z.to_nat i)%nat with (Z.to_nat (h_depth h - 1 + i)) in Hq by lia.
  replace (Z.to_nat (h_depth h - 1 + (i + 1))) with (S (Z.to_nat (h_depth h - 1 + i))) by lia.
  rewrite (take_S_r _ _ _ Hq). replace (h_depth h + i - 1) with (h_depth h - 1 + i) by lia.
  destruct Hp as [t ->]. rewrite take_app_length'; [done|]. rewrite length_take. apply lookup_lt_Some in Hq. lia.
Qed.

Lemma remake_next_ok ρ h k b :
  head_ok ρ h → key_ok k → is_byte b → take (Z.to_nat (h_depth h - 1)) ρ `prefix_of` k →
  ∃ k', remake_next h k b = Ok k' ∧ key_ok k' ∧ (ρ ++ [b]) `prefix_of` k'.
Proof.
  intros Hh Hk Hb Hp. destruct (head_length ρ h Hh) as (Hlr & _). pose proof Hh as ((_ & _ & Hpl0 & _) & _ & Hd & _ & Hle & _).
  unfold uint in Hpl0. unfold remake_next.
  destruct (remake_partial_ok ρ h (Z.to_nat (h_partial_len h)) 0 k) as (k1 & -> & Hk1 & [t ->]);
    [done|lia|lia|done|by rewrite Z.add_0_r|]. cbn [mbind res_bind].
  destruct (remake_prefix_ok (ρ ++ t) (h_depth h + h_partial_len h) b Hk1 Hb) as (k' & -> & Hk' & Hp'); [lia|].
  exists k'. split; [done|]. split; [done|]. by rewrite take_app_length' in Hp' by lia.
Qed.

(** The header leaves the end in state [st]; the record has byte [b]. *)
Definition next_end (out : comparison) (st : State) (b : byte) (pb : byte) : State :=
  match st with BORDER => border out (cmp_byte b pb) | st => st end.

(** The end [k0] at the records of the node with path [ρ]. *)
Definition end_at (k0 : Key) (st : State) (k : Key) (ρ : list byte) (h : Header) (pb : byte) : Prop :=
  key_ok k ∧ st ≠ OUTSIDE ∧ (st = BORDER → k = k0 ∧ ρ `prefix_of` k) ∧
  take (Z.to_nat (h_depth h - 1)) ρ `prefix_of` k ∧ get_partial k (h_depth h + h_partial_len h) = Ok pb.

Lemma edge_record out k0 st k ρ h b pb :
  out ≠ Eq → head_ok ρ h → is_byte b → end_at k0 st k ρ h pb →
  (next_end out st b pb = OUTSIDE ∧ ∀ x, (ρ ++ [b]) `prefix_of` x → beyond out k0 x) ∨
  next_end out st b pb ≠ OUTSIDE ∧
    ∃ k', (if decide (next_end out st b pb = INSIDE) then remake_next h k b else Ok k) = Ok k' ∧
          edge k0 (next_end out st b pb) k' (ρ ++ [b]).
Proof.
  intros Hout Hh Hb (Hk & Hst & Hbd & Hp & Epb).
  destruct (remake_next_ok ρ h k b Hh Hk Hb Hp) as (k1 & E1 & Hk1 & Hp1).
  destruct st; cbn [next_end]; [|destruct (Hbd eq_refl) as [-> Hpre]|done].
  { right. split; [done|]. exists k1. rewrite decide_True by done. by split. }
  destruct (head_length ρ h Hh) as (Hlr & _). pose proof Hh as ((_ & _ & Hpl0 & _) & _ & Hd & _). unfold uint in Hpl0.
  apply get_partial_index in Epb; [|lia]. replace (Z.to_nat _) with (length ρ) in Epb by lia.
  assert (take (length ρ) k0 = ρ) as Htk by (destruct Hpre as [t ->]; by rewrite take_app_length).
  unfold cmp_byte. destruct (Z.eqb_spec b pb) as [->|Hne].
  - assert (border out None = BORDER) as -> by (by destruct out). right. split; [done|]. exists k0. split; [done|]. split; [done|].
    split; [done|]. split; [|done]. rewrite <- Htk at 1. rewrite <- (take_S_r _ _ _ Epb). apply spath_prefix_take.
  - destruct (border_spec out b pb Hout Hne) as [[-> Hc]| ->]; [left; split; [done|]|right; split; [done|]].
    + intros x [t ->]. eapply (beyond_at out (length ρ)); [done| | |exact Epb|exact Hc].
      * by rewrite <- app_assoc, take_app_length, Htk.
      * by rewrite <- app_assoc, lookup_app_r, Nat.sub_diag by done.
    + exists k1. by rewrite decide_True by done.
Qed.

(** ** Scanning a page *)
Section scan.
Context `{Checksum} `{IndexCacheLaws} {others : Others} (tree_id : Z) (Htid : tree_id_ok tree_id).

(** The query: its ends (both belong to the range), and
    the depth that [search_entries] starts from. *)
Context (from to to1 : Key) (L : Z).
Definition in_range (x : Key) : Prop := key_ok x ∧ key_leb from x && key_ltb x to = true.
Context (Hright : ∀ x, in_range x → ¬ beyond Gt to1 x).

Lemma in_range_left x : in_range x → ¬ beyond Lt from x.
Proof. intros [_ [Hx _]%andb_true_iff]. unfold key_leb in Hx. apply negb_true_iff in Hx. cbn. congruence. Qed.

Section tree.
Context (P : GlobalAddress → list byte) (ent : slot → option InternalEntry) (ob : GlobalAddress → option meta).

(** [s] is for the slot with path [q], whose entry it has, from memory or from
    the cache. *)
Definition surv_from (ho : option handle) (s : ScanContext handle) (q : list byte) : Prop :=
  ∃ sl e l r f t, s = SC e (slot_ptr tree_id sl) (Z.of_nat (length q)) ho f t l r ∧
    ent sl = Some e ∧ e ≠ entry_Null ∧ q = spath P sl e ∧ edge from l f q ∧ edge to1 r t q ∧ L <= Z.of_nat (length q) + 1.

Definition surv : ScanContext handle → list byte → Prop := surv_from None.
Definition current (s : ScanContext handle) (q : list byte) : Prop := ∃ ho, surv_from ho s q.

Lemma surv_current l qs : Forall2 surv l qs → Forall2 current l qs.
Proof using. intros Hl. eapply Forall2_impl; [exact Hl|]. intros s q Hs. by exists None. Qed.

Context (Hs : shape P ent ob) (a : GlobalAddress) (sa : slot) (h : Header) (Ha : ob a = Some (MNode sa h)).
Context (HL : L <= Z.of_nat (length (P a)) + 2) (p : InternalEntry) (Hp : e_addr p = a).

Lemma scan_record_ok i e f t l r fp tp :
  ent (Slot a i) = Some e → end_at from l f (P a) h fp → end_at to1 r t (P a) h tp →
  ∃ l', scan_record h p f t l r fp tp (Z.of_nat i) e = Ok l' ∧
    (l' = [] ∧ (e = entry_Null ∨ ∀ x, (P a ++ [e_partial e]) `prefix_of` x → ¬ in_range x) ∨
     ∃ s, l' = [s] ∧ e ≠ entry_Null ∧ surv s (P a ++ [e_partial e])).
Proof using Hs Ha HL Hp Hright.
  intros He Hf Ht. pose proof (sh_entry _ _ _ Hs _ _ He) as Hok. pose proof (sh_node _ _ _ Hs _ _ _ Ha) as Hh.
  pose proof Hok as (Hb & _). unfold scan_record.
  destruct (entry_eqb_spec e entry_Null Hok entry_Null_ok) as [->|Hne]; [exists []; by auto|].
  destruct (edge_record Lt from l f (P a) h (e_partial e) fp ltac:(done) Hh Hb Hf) as [[El Hout]|(Hl & f' & Ef & Hf')].
  { exists []. split; [|left; split; [done|right; intros x Hx Hi; by apply (in_range_left x Hi), Hout]].
    unfold next_end in El. cbn [border] in El. by rewrite El. }
  destruct (edge_record Gt to1 r t (P a) h (e_partial e) tp ltac:(done) Hh Hb Ht) as [[Er Hout]|(Hr & t' & Et & Ht')].
  { exists []. split; [|left; split; [done|right; intros x Hx Hi; by apply (Hright x Hi), Hout]].
    unfold next_end in Er. cbn [border] in Er. rewrite Er. by destruct (match l with BORDER => _ | _ => _ end). }
  exists [SC e (GADD (e_addr p) (page_head + Z.of_nat i * 8)) (h_depth h + h_partial_len h) None f' t'
            (next_end Lt l (e_partial e) fp) (next_end Gt r (e_partial e) tp)]. split.
  - change (match l with BORDER => l_border (cmp_byte (e_partial e) fp) | st => st end) with (next_end Lt l (e_partial e) fp).
    change (match r with BORDER => r_border (cmp_byte (e_partial e) tp) | st => st end) with (next_end Gt r (e_partial e) tp).
    rewrite Ef, Et. by destruct (next_end Lt _ _ _), (next_end Gt _ _ _).
  - right. eexists. split; [done|]. split; [done|]. exists (Slot a i), e. do 4 eexists.
    pose proof Hh as (_ & _ & _ & _ & _ & HlP & _).
    assert (Z.of_nat (length (P a ++ [e_partial e])) = h_depth h + h_partial_len h) as Hlen by (rewrite length_app; cbn [length]; lia).
    split; [rewrite Hlen, Hp; done|]. do 3 (split; [done|]). split; [done|]. split; [done|]. rewrite Hlen. lia.
Qed.

Lemma scan_records_ok f t l r fp tp records m n : ∀ j,
  end_at from l f (P a) h fp → end_at to1 r t (P a) h tp →
  (∀ i e, (i < m)%nat → ent (Slot a i) = Some e → records !! i = Some e) → (j + n ≤ m ≤ 256)%nat →
  ∃ l' bs, scan_records h p f t l r fp tp records n (Z.of_nat j) = Ok l' ∧
    Forall2 surv l' ((λ b, P a ++ [b]) <$> bs) ∧ NoDup bs ∧
    (∀ b, b ∈ bs → ∃ i e, (j ≤ i)%nat ∧ ent (Slot a i) = Some e ∧ e ≠ entry_Null ∧ e_partial e = b) ∧
    (∀ i e x, (j ≤ i < j + n)%nat → ent (Slot a i) = Some e → e ≠ entry_Null → (P a ++ [e_partial e]) `prefix_of` x → in_range x →
       e_partial e ∈ bs).
Proof using Hs Ha HL Hp Hright.
  induction n as [|n IH]; intros j Hf Ht Hrec Hj; cbn [scan_records].
  { exists [], []. split; [done|]. split; [constructor|]. split; [constructor|]. split; [by intros b Hb%elem_of_nil|]. lia. }
  destruct (proj2 (sh_slots _ _ _ Hs a j)) as [e He]; [split; [eauto|lia]|].
  rewrite (proj2 (idx_Ok records (Z.of_nat j) e)) by (rewrite Nat2Z.id; split; [lia|apply Hrec; [lia|done]]). cbn [mbind res_bind].
  destruct (scan_record_ok j e f t l r fp tp He Hf Ht) as (l1 & -> & Hl1). cbn [mbind res_bind].
  replace (Z.of_nat j + 1) with (Z.of_nat (S j)) by lia.
  destruct (IH (S j) Hf Ht Hrec ltac:(lia)) as (l2 & bs & -> & Hl2 & Hnd & Hbs & Hcov). cbn [mbind res_bind].
  assert (Hbs' : ∀ b, b ∈ bs → ∃ i e, (j ≤ i)%nat ∧ ent (Slot a i) = Some e ∧ e ≠ entry_Null ∧ e_partial e = b).
  { intros b (i & e' & Hi & ?)%Hbs. exists i, e'. split; [lia|done]. }
  destruct Hl1 as [[-> Hno]|(s1 & -> & Hne & Hs1)].
  - exists l2, bs. split; [done|]. split; [done|]. split; [done|]. split; [done|]. intros i e' x Hi He' Hne' Hx Hin.
    destruct (decide (i = j)) as [->|]; [|apply (Hcov i e' x); [lia|done..]]. assert (e' = e) as -> by congruence.
    destruct Hno as [|Hno]; [done|by destruct (Hno x)].
  - exists (s1 :: l2), (e_partial e :: bs). split; [done|]. split; [by constructor|]. split; [|split].
    + constructor; [|done]. intros (i & e' & Hi & He' & Hne' & Hb)%Hbs.
      assert (i = j) as -> by (by eapply (sh_uniq _ _ _ Hs a)). lia.
    + intros b [->|Hb]%elem_of_cons; [by exists j, e|by apply Hbs'].
    + intros i e' x Hi He' Hne' Hx Hin. destruct (decide (i = j)) as [->|]; [assert (e' = e) as -> by congruence; by left|right; apply (Hcov i e' x); [lia|done..]].
Qed.

Lemma scan_page_ok page f t l r m :
  pg_hdr page = h → (cnt h ≤ m ≤ 256)%nat → (∀ i e, (i < m)%nat → ent (Slot a i) = Some e → pg_records page !! i = Some e) →
  edge from l f (take (Z.to_nat (h_depth h - 1)) (P a)) → edge to1 r t (take (Z.to_nat (h_depth h - 1)) (P a)) →
  ∃ l' qs, scan_page page p f t l r = Ok l' ∧ Forall2 surv l' qs ∧ antichain qs ∧ below [P a] qs ∧
    ∀ i e x, ent (Slot a i) = Some e → e ≠ entry_Null → (P a ++ [e_partial e]) `prefix_of` x → in_range x → covered qs x.
Proof using Hs Ha HL Hp Hright.
  intros Hpage Hm Hrec Hf Ht. pose proof (sh_node _ _ _ Hs _ _ _ Ha) as Hh. unfold scan_page. rewrite Hpage.
  destruct (edge_header Lt from l f (P a) h ltac:(done) Hh Hf) as (l1 & El & Houtl & Hbl).
  destruct (edge_header Gt to1 r t (P a) h ltac:(done) Hh Ht) as (r1 & Er & Houtr & Hbr). cbn [border] in El, Er.
  assert (Hnil : (∀ x, P a `prefix_of` x → ¬ in_range x) → ∀ i e x, ent (Slot a i) = Some e → e ≠ entry_Null →
    (P a ++ [e_partial e]) `prefix_of` x → in_range x → covered [] x) by (intros Hno i e x _ _ Hx%prefix_app_l Hi; by destruct (Hno x)).
  assert (Hemp : (∀ x, P a `prefix_of` x → ¬ in_range x) → ∃ l' qs, Ok [] = Ok l' ∧ Forall2 surv l' qs ∧ antichain qs ∧ below [P a] qs ∧
    ∀ i e x, ent (Slot a i) = Some e → e ≠ entry_Null → (P a ++ [e_partial e]) `prefix_of` x → in_range x → covered qs x).
  { intros Hno. exists [], []. split; [done|]. split; [constructor|]. split; [constructor|]. split; [|by apply Hnil].
    by intros q Hq%elem_of_nil. }
  rewrite El, Er. cbn [mbind res_bind].
  destruct (decide (l1 = OUTSIDE)) as [->|Hl1]; [apply Hemp; intros x Hx Hi; by apply (in_range_left x Hi), Houtl|].
  destruct (decide (r1 = OUTSIDE)) as [->|Hr1].
  { destruct l1; apply Hemp; intros x Hx Hi; by apply (Hright x Hi), Houtr. }
  pose proof Hh as ((_ & _ & Hpl0 & _) & Hty & Hd & _ & Hle & _). unfold uint in Hpl0.
  destruct Hf as (_ & Hkf & Hpf & _), Ht as (_ & Hkt & Hpt & _).
  destruct (get_partial_total f (h_depth h + h_partial_len h)) as (fp & Efp & _); [done|lia|].
  destruct (get_partial_total t (h_depth h + h_partial_len h)) as (tp & Etp & _); [done|lia|].
  destruct (scan_records_ok f t l1 r1 fp tp (pg_records page) m (cnt h) 0) as (l' & bs & E & Hl' & Hnd & Hbs & Hcov);
    [by split_and!|by split_and!|done|lia|].
  exists l', ((λ b, P a ++ [b]) <$> bs). split; [|split; [done|split; [by apply antichain_children|split]]].
  - rewrite Efp, Etp. cbn [mbind res_bind]. change (Z.of_nat 0) with 0 in E. unfold cnt in E. by destruct l1, r1.
  - intros q (b & -> & Hb)%list_elem_of_fmap. exists (P a). split; [by left|]. split; [by apply prefix_app_r|].
    rewrite length_app. cbn. lia.
  - intros i e x He Hne Hx Hi. exists (P a ++ [e_partial e]). split; [|done]. apply list_elem_of_fmap. eexists. split; [done|].
    destruct (decide (i < cnt h)%nat) as [Hic|Hic]; [|by destruct Hne; apply (sh_null _ _ _ Hs a sa h i e); [| |lia]].
    apply (Hcov i e x); [lia|done..].
Qed.
End tree.

(** ** One level of the loop *)
Section level.
Context (P : GlobalAddress → list byte) (ent : slot → option InternalEntry) (ob : GlobalAddress → option meta).
Context (live : block_list) (d : Directory) (M : gmap Key Z).

(** The leaf of [x] is not above the depth the query starts from. *)
Definition deep (x : Key) : Prop :=
  ∀ a s v e, ob a = Some (MLeaf s x v) → ent s = Some e → L <= Z.of_nat (length (spath P s e)) + 1.

(** [ret'] is [ret] with some of the keys of the range. *)
Definition collects (ret ret' : gmap Key Z) : Prop :=
  ∀ x, ret' !! x = ret !! x ∨ in_range x ∧ deep x ∧ is_Some (M !! x) ∧ ret' !! x = M !! x.

(** What was asked for has been collected, or lies below [qs]. *)
Definition done_or_below (asked : Key → Prop) (qs : list (list byte)) (ret : gmap Key Z) : Prop :=
  ∀ x v, M !! x = Some v → in_range x → asked x → ret !! x = Some v ∨ covered qs x.

Lemma collects_refl ret : collects ret ret.
Proof using. intros x. by left. Qed.

Lemma collects_trans r1 r2 r3 : collects r1 r2 → collects r2 r3 → collects r1 r3.
Proof using. intros H12 H23 x. destruct (H23 x) as [->|?]; [apply H12|by right]. Qed.

Lemma collects_keep r1 r2 x v : collects r1 r2 → M !! x = Some v → r1 !! x = Some v → r2 !! x = Some v.
Proof using. intros Hc Hx H1x. destruct (Hc x) as [->|(_ & _ & _ & ->)]; done. Qed.

(** The bytes that the request of [s] reads. *)
Definition fetched (w : world) (s : ScanContext handle) : list byte :=
  load (w_mem w) (dsm_region (e_addr (sc_e s))) (offset (e_addr (sc_e s))) (Z.to_nat (request_size s)).

Definition step_post (w : world) (q : list byte) (ret : gmap Key Z) (l : list (ScanContext handle)) (ret' : gmap Key Z) (c : cache) : Prop :=
  ∃ qs, cache_after (cached P ent ob) 1 (w_cache w) c ∧ Forall2 (surv P ent) l qs ∧ antichain qs ∧ below [q] qs ∧
    collects ret ret' ∧ done_or_below (prefix q) qs ret'.

Lemma leaf_step_ok w s q ret k v sl :
  tree_inv tree_id w P ent ob live d M → current P ent s q → ob (e_addr (sc_e s)) = Some (MLeaf sl k v) →
  ∃ l ret' c, run (range_step from to s (fetched w s) ret) w = Ok ((l, ret'), set_cache c w) ∧ step_post w q ret l ret' c.
Proof using Htid.
  intros Hi (ho & sl' & e & ls & rs & f & t & -> & He & Hne & Hq & Hf & Ht & HLq) Ho. cbn [sc_e] in Ho.
  pose proof (ti_shape _ _ _ _ _ _ _ _ Hi) as Hs. pose proof (ti_mem _ _ _ _ _ _ _ _ Hi) as Hm.
  pose proof (sh_child _ _ _ Hs sl' e He Hne) as Hc. rewrite Ho in Hc. destruct Hc as (-> & Ee & Hpre).
  destruct (sh_leaf _ _ _ Hs _ _ _ _ Ho) as [Hk Hv]. destruct (slot_region _ _ _ _ _ _ _ _ Hm He) as (_ & Hsok & _).
  pose proof (read_leaf_at tree_id _ _ _ _ (mi_blocks _ _ _ _ _ _ Hm) (mi_holds _ _ _ _ _ _ Hm) _ _ _ _ Ho Hk Hv Hsok) as Hl.
  assert (Hleaf : e_is_leaf e = true) by by rewrite Ee.
  assert (Hsz : leaf_read_size e = sizeof_Leaf) by (unfold leaf_read_size; by rewrite Ee).
  assert (HM : M !! k = Some v) by (apply (ti_map _ _ _ _ _ _ _ _ Hi); eauto).
  exists [], (if key_leb from k && key_ltb k to then <[k := v]> ret else ret), (w_cache w). split.
  - unfold range_step, fetched, request_size. cbn [sc_e sc_e_ptr sc_cached]. rewrite Hleaf, Hsz, Hl.
    unfold leaf_is_valid. change (l_valid (leaf_make k v (slot_ptr tree_id sl'))) with true.
    change (l_rev_ptr (leaf_make k v (slot_ptr tree_id sl'))) with (slot_ptr tree_id sl'). rewrite gaddr_eqb_refl, orb_true_r.
    change (is_consistent (leaf_make k v (slot_ptr tree_id sl'))) with (crc64 (k ++ le_bytes 8 v) =? crc64 (k ++ le_bytes 8 v)).
    rewrite Z.eqb_refl. cbn [negb orb andb]. rewrite run_ret. by destruct w.
  - exists []. split; [|split; [constructor|split; [constructor|split; [by intros q' Hq'%elem_of_nil|]]]].
    { eapply cache_after_mono; [|apply cache_after_refl, Hi]. lia. }
    split.
    + intros x. destruct (key_leb from k && key_ltb k to) eqn:Ein; [|by left]. rewrite lookup_insert.
      destruct (decide (k = x)) as [<-|]; [right|by left]. split; [by split|]. split; [|split; [by exists v|congruence]].
      intros a' s' v' e' Ha' He'. assert (a' = e_addr e) as -> by (by eapply (sh_leaf_inj _ _ _ Hs)).
      rewrite Ho in Ha'. injection Ha' as <- <-. rewrite He in He'. injection He' as <-. by rewrite <- Hq.
    + intros x v' Hx [Hkx Hin] Hqx. left. assert (x = k) as ->; [|rewrite Hin, lookup_insert_eq; congruence].
      pose proof Hx as Hx'. apply (ti_map _ _ _ _ _ _ _ _ Hi) in Hx' as (a' & s' & Ha'). rewrite Hq in Hqx.
      pose proof (sh_leads _ _ _ Hs sl' e x He Hne Hqx ltac:(left; eauto)) as Hle. unfold leads in Hle. by rewrite Ho in Hle.
Qed.

Lemma run_scanned w k a s h c p :
  tree_inv tree_id w P ent ob live d M → ob a = Some (MNode s h) → take (Z.to_nat (h_depth h - 1)) (P a) `prefix_of` k → key_ok k →
  (0 < cache_room (w_cache w))%nat → p = page_at (w_mem w) a c → (cnt h ≤ c ≤ 256)%nat → pg_hdr p = h →
  (∀ i ei, (i < c)%nat → ent (Slot a i) = Some ei → pg_records p !! i = Some ei) →
  ∃ c', run (on_cache (add_to_cache k p (GADD a page_head))) w = Ok (tt, set_cache c' w) ∧
    cache_after (cached P ent ob) 1 (w_cache w) c'.
Proof using.
  intros Hi Ha Hp Hk Hroom Ep Hc Hh Hrec.
  destruct (run_page_cached tree_id w P ent ob live d M k a s h c None true p Hi Ha Hp Hk) as (c1 & c2 & Hr1 & Hr2 & Hafter); [done..|].
  cbn [negb] in Hr1. rewrite run_ret in Hr1. injection Hr1 as E. rewrite <- E in Hr2. by exists c2.
Qed.

(** How much of a page is read: all of it for an entry of the cache. *)
Lemma page_request s h :
  e_is_leaf (sc_e s) = false → (sc_cached s = None → e_node_type (sc_e s) = h_node_type h) → 1 <= h_node_type h <= 7 →
  ∃ c, (cnt h ≤ c ≤ 256)%nat ∧ Z.to_nat (request_size s) = (16 + 8 * c)%nat.
Proof using.
  intros Hleaf Hty Hh. pose proof (node_num_range (h_node_type h) ltac:(lia)) as Hnum.
  unfold request_size. rewrite Hleaf. destruct (sc_cached s) as [hd|]; cbn [from_cache].
  - exists 256%nat. split; [unfold cnt; lia|by vm_compute].
  - exists (cnt h). split; [unfold cnt; lia|]. rewrite Hty by done. unfold node_size, page_head, cnt. lia.
Qed.

Lemma node_step_ok w s q ret h sl :
  tree_inv tree_id w P ent ob live d M → current P ent s q → ob (e_addr (sc_e s)) = Some (MNode sl h) → (0 < cache_room (w_cache w))%nat →
  ∃ l ret' c, run (range_step from to s (fetched w s) ret) w = Ok ((l, ret'), set_cache c w) ∧ step_post w q ret l ret' c.
Proof using Htid Hright.
  intros Hi (ho & sl' & e & ls & rs & f & t & -> & He & Hne & Hq & Hf & Ht & HLq) Ho Hroom. cbn [sc_e] in Ho.
  pose proof (ti_shape _ _ _ _ _ _ _ _ Hi) as Hs. pose proof (ti_mem _ _ _ _ _ _ _ _ Hi) as Hm.
  destruct (shape_node_path P ent ob Hs _ _ _ _ He Hne Ho) as (-> & Hpre & Hlen).
  pose proof (sh_child _ _ _ Hs sl' e He Hne) as Hc. rewrite Ho in Hc. destruct Hc as (_ & Ee & Hsp).
  pose proof (sh_node _ _ _ Hs _ _ _ Ho) as Hh. pose proof Hh as (Hhok & Hty & _).
  destruct (slot_region _ _ _ _ _ _ _ _ Hm He) as (_ & Hsok & _).
  destruct (read_page_at tree_id _ _ _ _ (mi_blocks _ _ _ _ _ _ Hm) (mi_holds _ _ _ _ _ _ Hm) _ _ _ Ho Hhok Hsok) as (Hrev & Hhdr & Hrec).
  assert (Hleaf : e_is_leaf e = false) by by rewrite Ee.
  assert (Hety : e_node_type e = h_node_type h) by (rewrite Ee; apply entry_node_type; unfold uint; lia).
  destruct (page_request (SC e (slot_ptr tree_id sl') (Z.of_nat (length q)) ho f t ls rs) h Hleaf) as (m & Hm1 & Hsz); [by intros _|lia|].
  set (p := page_at (w_mem w) (e_addr e) m).
  assert (Hprec : ∀ i ei, (i < m)%nat → ent (Slot (e_addr e) i) = Some ei → pg_records p !! i = Some ei).
  { intros i ei Hic Hei. unfold p. rewrite <- (page_at_take _ _ _ 256) by lia. rewrite lookup_take_lt by done.
    apply Hrec; [done|]. by eapply (sh_entry _ _ _ Hs). }
  rewrite Hq, Hsp in Hf, Ht. pose proof Hf as (_ & Hkf & Hpf & _).
  destruct (run_scanned w f (e_addr e) sl' h m p Hi Ho Hpf Hkf Hroom) as (c & Hr & Hafter); [done|done|done|done|].
  destruct (scan_page_ok P ent ob Hs (e_addr e) sl' h Ho) with (p := e) (page := p) (f := f) (t := t) (l := ls) (r := rs) (m := m)
    as (l & qs & Escan & Hl & Hanti & Hbelow & Hcov); [|done|done|done|done|done|done|].
  { rewrite Hq in HLq. apply prefix_length in Hpre. lia. }
  exists l, ret, c. split.
  - unfold range_step, fetched. rewrite Hsz. cbn [sc_e sc_e_ptr sc_cached sc_depth sc_from sc_to sc_l sc_r].
    rewrite Hleaf, page_of_load. fold p. change (pg_hdr p) with (pg_hdr (page_at (w_mem w) (e_addr e) 256)).
    unfold page_is_valid. change (pg_hdr p) with (pg_hdr (page_at (w_mem w) (e_addr e) 256)). rewrite Hhdr.
    rewrite (proj2 (Z.eqb_neq (h_node_type h) NODE_DELETED)) by (unfold NODE_DELETED; lia).
    change (pg_rev_ptr p) with (pg_rev_ptr (page_at (w_mem w) (e_addr e) 256)). rewrite Hrev, gaddr_eqb_refl, orb_true_r.
    rewrite (proj2 (Z.leb_le (h_depth h) _)) by (rewrite Hq; lia). cbn [negb andb orb].
    unfold range_query_on_page. change (pg_hdr p) with (pg_hdr (page_at (w_mem w) (e_addr e) 256)). rewrite Hhdr.
    rewrite (proj2 (Z.eqb_eq _ _)) by (rewrite Hq; lia). rewrite run_bind, run_bind, Hr, Escan. done.
  - exists qs. split; [done|]. split; [done|]. split; [done|]. split; [|split; [apply collects_refl|]].
    + intros q' Hq'. destruct (Hbelow q' Hq') as (q1 & ->%list_elem_of_singleton & Hp1 & Hl1). exists q. split; [by left|].
      rewrite Hq. split; [by etrans|]. apply prefix_length in Hpre. lia.
    + intros x v Hx Hin Hqx. right. rewrite Hq in Hqx. pose proof Hx as Hx'. apply (ti_map _ _ _ _ _ _ _ _ Hi) in Hx' as (a' & s' & Ha').
      pose proof (sh_leads _ _ _ Hs sl' e x He Hne Hqx ltac:(left; eauto)) as Hle. unfold leads in Hle. rewrite Ho in Hle.
      destruct Hle as [Hle|(_ & i & ei & Hei & Hnei & Hpi)]; [|by eapply Hcov].
      by destruct (key_not_path x _ h (proj1 Hin) Hh).
Qed.

Lemma range_step_ok w s q ret :
  tree_inv tree_id w P ent ob live d M → current P ent s q → (0 < cache_room (w_cache w))%nat →
  ∃ l ret' c, run (range_step from to s (fetched w s) ret) w = Ok ((l, ret'), set_cache c w) ∧ step_post w q ret l ret' c.
Proof using Htid Hright.
  intros Hi Hsv Hroom. pose proof Hsv as (ho & sl' & e & ls & rs & f & t & Es & He & Hne & _).
  pose proof (sh_child _ _ _ (ti_shape _ _ _ _ _ _ _ _ Hi) sl' e He Hne) as Hc.
  destruct (ob (e_addr e)) as [[sl h|sl k v]|] eqn:Ho; [| |done].
  - eapply node_step_ok; [done|done| |done]. by rewrite Es.
  - eapply leaf_step_ok; [done|done|]. by rewrite Es.
Qed.

(** The requests of a level, one after the other. *)
Lemma range_steps_ok l : ∀ qs w acc ret,
  tree_inv tree_id w P ent ob live d M → Forall2 (current P ent) l qs → antichain qs → (length l ≤ cache_room (w_cache w))%nat →
  ∃ l' qs' ret' c, run (range_steps from to (zip l (fetched w <$> l)) acc ret) w = Ok ((acc ++ l', ret'), set_cache c w) ∧
    cache_after (cached P ent ob) (length l) (w_cache w) c ∧ Forall2 (surv P ent) l' qs' ∧ antichain qs' ∧ below qs qs' ∧
    collects ret ret' ∧ done_or_below (covered qs) qs' ret'.
Proof using Htid Hright.
  induction l as [|s l IH]; intros qs w acc ret Hi Hqs Hanti Hroom.
  { apply Forall2_nil_inv_l in Hqs as ->. exists [], [], ret, (w_cache w). split; [rewrite app_nil_r; by destruct w|].
    split; [apply cache_after_refl, Hi|]. split; [constructor|]. split; [constructor|]. split; [by intros q Hq%elem_of_nil|].
    split; [apply collects_refl|]. intros x v _ _ (q & Hq%elem_of_nil & _). done. }
  apply Forall2_cons_inv_l in Hqs as (q & qs0 & Hsv & Hqs & ->). cbn [length] in Hroom.
  destruct (range_step_ok w s q ret Hi Hsv) as (l1 & r1 & c1 & Hr1 & qs1 & Hafter1 & Hl1 & Ha1 & Hb1 & Hc1 & Hd1); [lia|].
  pose proof Hafter1 as (_ & Hroom1 & _). pose proof Hanti as Hanti0. inversion Hanti0 as [|? ? _ Hanti1]; subst.
  destruct (IH qs0 (set_cache c1 w) (acc ++ l1) r1) as (l2 & qs2 & r2 & c2 & Hr2 & Hafter2 & Hl2 & Ha2 & Hb2 & Hc2 & Hd2);
    [by eapply tree_inv_cache|done|done|cbn; lia|].
  exists (l1 ++ l2), (qs1 ++ qs2), r2, c2. split; [|split; [|split; [|split; [|split; [|split]]]]].
  - cbn [fmap list_fmap zip zip_with range_steps]. rewrite run_bind, Hr1, app_assoc. exact Hr2.
  - exact (cache_after_trans _ 1 _ _ _ _ Hafter1 Hafter2).
  - by apply Forall2_app.
  - by eapply antichain_below_app.
  - intros q' [Hq'|Hq']%elem_of_app.
    + destruct (Hb1 q' Hq') as (q1 & ->%list_elem_of_singleton & ?). exists q. split; [by left|done].
    + destruct (Hb2 q' Hq') as (q1 & Hq1 & ?). exists q1. split; [by right|done].
  - by eapply collects_trans.
  - intros x v Hx Hin (q0 & [->|Hq0]%elem_of_cons & Hp0).
    + destruct (Hd1 x v Hx Hin Hp0) as [Hret|(q' & Hq' & Hp')]; [left; by eapply collects_keep|].
      right. exists q'. split; [apply elem_of_app; by left|done].
    + destruct (Hd2 x v Hx Hin) as [Hret|(q' & Hq' & Hp')]; [by exists q0|by left|].
      right. exists q'. split; [apply elem_of_app; by right|done].
Qed.

(** *** The requests *)

(** [t] is the token of the slot with path [q]. *)
Definition token (t : Z) (q : list byte) : Prop :=
  ∃ sl e, ent sl = Some e ∧ e ≠ entry_Null ∧ q = spath P sl e ∧ t = gaddr_val (e_addr e).

Lemma token_surv s q : current P ent s q → token (gaddr_val (e_addr (sc_e s))) q.
Proof using. intros (ho & sl & e & l & r & f & t & -> & He & Hne & Hq & _). by exists sl, e. Qed.

Lemma token_inj w t q q' : tree_inv tree_id w P ent ob live d M → token t q → token t q' → q = q'.
Proof using.
  intros Hi (sl & e & He & Hne & -> & ->) (sl' & e' & He' & Hne' & -> & E).
  pose proof (ti_shape _ _ _ _ _ _ _ _ Hi) as Hs. pose proof (ti_mem _ _ _ _ _ _ _ _ Hi) as Hm.
  pose proof (sh_child _ _ _ Hs sl e He Hne) as Hc. pose proof (sh_child _ _ _ Hs sl' e' He' Hne') as Hc'.
  destruct (ob (e_addr e)) as [m|] eqn:Ho; [|done]. destruct (ob (e_addr e')) as [m'|] eqn:Ho'; [|done].
  destruct (obj_place tree_id _ _ _ _ (mi_blocks _ _ _ _ _ _ Hm) (mi_holds _ _ _ _ _ _ Hm) _ _ Ho) as (Hok & _).
  destruct (obj_place tree_id _ _ _ _ (mi_blocks _ _ _ _ _ _ Hm) (mi_holds _ _ _ _ _ _ Hm) _ _ Ho') as (Hok' & _).
  apply gaddr_val_inj in E; [|done..]. rewrite E, Ho' in Ho. injection Ho as ->.
  destruct (entry_live_ok P ent ob sl e m Hs He Hne) as [_ <-]; [by rewrite E|].
  destruct (entry_live_ok P ent ob sl' e' m Hs He' Hne' Ho') as [_ <-]. congruence.
Qed.

(** The tokens of a query: each of a path that no path still to come leads to. *)
Definition tokens_ok (tokens : list Z) (qs : list (list byte)) : Prop :=
  NoDup tokens ∧ ∀ t, t ∈ tokens → ∃ r, token t r ∧ ∀ q, q ∈ qs → ¬ q `prefix_of` r.

(** Every address is asked for once. *)
Lemma new_requests_ok w l : ∀ tokens qs,
  tree_inv tree_id w P ent ob live d M → Forall2 (current P ent) l qs → antichain qs → tokens_ok tokens qs →
  ∃ tokens', new_requests l tokens = (l, tokens') ∧ length tokens' = (length l + length tokens)%nat ∧ NoDup tokens' ∧
    ∀ t, t ∈ tokens' → t ∈ tokens ∨ ∃ q, q ∈ qs ∧ token t q.
Proof using.
  induction l as [|s l IH]; intros tokens qs Hi Hqs Hanti Htok.
  { apply Forall2_nil_inv_l in Hqs as ->. exists tokens. destruct Htok as [Hnd _]. by split_and!; [..|left]. }
  apply Forall2_cons_inv_l in Hqs as (q & qs0 & Hsv & Hqs & ->). pose proof Hanti as Hanti0.
  inversion Hanti0 as [|? ? Hap Hanti1]; subst. rewrite List.Forall_forall in Hap. setoid_rewrite <- list_elem_of_In in Hap.
  pose proof (token_surv s q Hsv) as Hts. set (t := gaddr_val (e_addr (sc_e s))) in *. destruct Htok as [Hnd Htok].
  assert (Hfresh : t ∉ tokens).
  { intros (r & Hr & Hno)%Htok. apply (Hno q); [by left|]. by rewrite (token_inj w t q r Hi Hts Hr). }
  destruct (IH (t :: tokens) qs0 Hi Hqs Hanti1) as (tokens' & Er & Hlen & Hnd' & Hin).
  { split; [by constructor|]. intros t' [->|Ht']%elem_of_cons.
    - exists q. split; [done|]. intros q' Hq'. apply (Hap q' Hq').
    - destruct (Htok t' Ht') as (r & Hr & Hno). exists r. split; [done|]. intros q' Hq'. apply Hno. by right. }
  exists tokens'. cbn [new_requests]. fold t. destruct (existsb (Z.eqb t) tokens) eqn:E.
  { apply existsb_exists in E as (t' & Ht'%list_elem_of_In & ->%Z.eqb_eq). done. }
  rewrite Er. split; [done|]. split; [rewrite Hlen; cbn [length]; lia|]. split; [done|].
  intros t' Ht'. destruct (Hin t' Ht') as [[->|Hold]%elem_of_cons|(q' & Hq' & Hr)].
  - right. exists q. split; [by left|done].
  - by left.
  - right. exists q'. split; [by right|done].
Qed.

Lemma tokens_next tokens tokens' qs qs' :
  tokens_ok tokens qs → antichain qs → below qs qs' → NoDup tokens' →
  (∀ t, t ∈ tokens' → t ∈ tokens ∨ ∃ q, q ∈ qs ∧ token t q) → tokens_ok tokens' qs'.
Proof using.
  intros [_ Hold] Hanti Hb Hnd Hin. split; [done|]. intros t [Ht|(r & Hr & Ht)]%Hin.
  - destruct (Hold t Ht) as (r & Hr & Hno). exists r. split; [done|]. intros q' (q & Hq & Hp & _)%Hb Hp'.
    apply (Hno q Hq). by etrans.
  - exists r. split; [done|]. intros q' (q & Hq & Hp & Hlt)%Hb Hp'. pose proof (prefix_length _ _ Hp').
    rewrite (antichain_eq qs q r Hanti Hq Hr) in Hlt by (by etrans). lia.
Qed.

(** The full paths of objects are parts of keys, so that there are at most
    nine tokens for each key. *)
Definition key_parts : list (list byte) := k ← (map_to_list M).*1; n ← seq 0 9; [take n k].

Lemma key_parts_length : length key_parts = (9 * size M)%nat.
Proof using.
  unfold key_parts. rewrite <- length_map_to_list, <- (length_fmap fst (map_to_list M)).
  induction ((map_to_list M).*1) as [|k l IH]; [done|]. cbn [mbind list_bind]. rewrite length_app, IH. cbn [length]. 
  change (length (seq 0 9 ≫= λ n, [take n k])) with 9%nat. lia.
Qed.

Lemma key_parts_elem k n v : M !! k = Some v → (n ≤ 8)%nat → take n k ∈ key_parts.
Proof using.
  intros Hk Hn. apply list_elem_of_bind. exists k. split.
  - apply list_elem_of_bind. exists n. split; [by left|]. apply elem_of_seq. lia.
  - apply list_elem_of_fmap. exists (k, v). split; [done|]. by apply elem_of_map_to_list.
Qed.

(** The object of a token has full path [q]. *)
Definition token_path (t : Z) (q : list byte) : Prop :=
  ∃ a m, ob a = Some m ∧ gaddr_ok a ∧ t = gaddr_val a ∧ q = full_path P a m.

Lemma token_path_inj t t' q : shape P ent ob → token_path t q → token_path t' q → t = t'.
Proof using.
  intros Hs (a & m & Ha & _ & -> & ->) (a' & m' & Ha' & _ & -> & E). f_equal.
  destruct m as [s h|s k v], m' as [s' h'|s' k' v']; cbn in E.
  - by eapply (sh_node_inj _ _ _ Hs).
  - by destruct (key_not_path k' (P a) h (proj1 (sh_leaf _ _ _ Hs _ _ _ _ Ha')) (sh_node _ _ _ Hs _ _ _ Ha)).
  - by destruct (key_not_path k (P a') h' (proj1 (sh_leaf _ _ _ Hs _ _ _ _ Ha)) (sh_node _ _ _ Hs _ _ _ Ha')).
  - subst k'. by eapply (sh_leaf_inj _ _ _ Hs).
Qed.

(** The full path of an object is the start of a key. *)
Lemma full_path_part w a m : tree_inv tree_id w P ent ob live d M → ob a = Some m → full_path P a m ∈ key_parts.
Proof using.
  intros Hi Ho. pose proof (ti_shape _ _ _ _ _ _ _ _ Hi) as Hs. destruct m as [s h|s k v]; cbn.
  - destruct (shape_leaf_below P ent ob Hs _ _ _ Ho) as (b & s' & k & v & Hb & [x Hk]).
    rewrite <- (take_app_length (P a) x), <- Hk. apply (key_parts_elem k _ v); [by apply (ti_map _ _ _ _ _ _ _ _ Hi); eauto|].
    pose proof (shape_node_short P ent ob Hs _ _ _ Ho). lia.
  - pose proof (shape_leaf_long P ent ob Hs _ _ _ _ Ho) as Hl. rewrite <- (take_ge k 8) by lia.
    apply (key_parts_elem k 8 v); [by apply (ti_map _ _ _ _ _ _ _ _ Hi); eauto|done].
Qed.

Lemma tokens_bound w tokens qs : tree_inv tree_id w P ent ob live d M → tokens_ok tokens qs → (length tokens ≤ 9 * size M)%nat.
Proof using.
  intros Hi [Hnd Ht]. pose proof (ti_shape _ _ _ _ _ _ _ _ Hi) as Hs. pose proof (ti_mem _ _ _ _ _ _ _ _ Hi) as Hm.
  rewrite <- key_parts_length. apply (length_inject token_path); [done| |intros t t' q; by apply token_path_inj].
  intros t (r & (sl & e & He & Hne & _ & ->) & _)%Ht. pose proof (sh_child _ _ _ Hs sl e He Hne) as Hc.
  destruct (ob (e_addr e)) as [m|] eqn:Ho; [|done].
  destruct (obj_place tree_id _ _ _ _ (mi_blocks _ _ _ _ _ _ Hm) (mi_holds _ _ _ _ _ _ Hm) _ _ Ho) as (Hok & _).
  exists (full_path P (e_addr e) m). split; [by eapply full_path_part|by exists (e_addr e), m].
Qed.

Lemma run_read_all w l : run (read_all l) w = Ok (fetched w <$> l, w).
Proof using.
  induction l as [|s l IH]; [done|]. cbn [read_all]. by rewrite run_bind, run_read_sync, run_bind, IH.
Qed.

Lemma run_read_batches w l : l ≠ [] → run (read_batches_sync l) w = Ok (fetched w <$> l, w).
Proof using. destruct l as [|s l]; [done|]. intros _. apply run_read_all. Qed.

(** ** The loop *)

(** What the query has so far: the entries and their paths, and enough room in
    the cache for the objects that were not asked for yet. *)
Record query (w : world) (qs : list (list byte)) (l : list (ScanContext handle)) (tokens : list Z) : Prop := {
  qu_inv : tree_inv tree_id w P ent ob live d M;
  qu_survivors : Forall2 (current P ent) l qs;
  qu_antichain : antichain qs;
  qu_tokens : tokens_ok tokens qs;
  qu_room : (9 * size M ≤ length tokens + cache_room (w_cache w))%nat
}.

Lemma next_level_ok w qs l tokens ret :
  query w qs l tokens → l ≠ [] →
  ∃ l' tokens' ret' c qs', run (next_level from to (l, tokens, ret)) w = Ok (Again (l', tokens', ret'), set_cache c w) ∧
    query (set_cache c w) qs' l' tokens' ∧ below qs qs' ∧ collects ret ret' ∧ done_or_below (covered qs) qs' ret' ∧
    (∀ h, handle_ok h (w_cache w) → handle_ok h c).
Proof using Htid Hright.
  intros [Hi Hqs Hanti Htok Hroom] Hne.
  destruct (new_requests_ok w l tokens qs Hi Hqs Hanti Htok) as (tokens' & Er & Hlen & Hnd & Hin).
  assert (Htok' : tokens_ok tokens' []).
  { eapply tokens_next; [exact Htok|done| |done|done]. by intros ? ?%elem_of_nil. }
  pose proof (tokens_bound w tokens' [] Hi Htok') as Hbound.
  destruct (range_steps_ok l qs w [] ret Hi Hqs Hanti) as (l' & qs' & ret' & c & Hr & Hafter & Hl' & Ha' & Hb & Hc & Hd); [lia|].
  exists l', tokens', ret', c, qs'. split; [|split; [split|split; [done|split; [done|split; [done|apply Hafter]]]]].
  - unfold next_level. destruct l as [|s0 l0]; [done|]. rewrite Er. rewrite run_bind, run_read_batches by done.
    by rewrite run_bind, Hr.
  - by eapply tree_inv_cache.
  - by apply surv_current.
  - done.
  - by apply (tokens_next tokens tokens' qs qs').
  - destruct Hafter as (_ & Hroom' & _). cbn. lia.
Qed.

Lemma surv_short w s q : tree_inv tree_id w P ent ob live d M → current P ent s q → (length q ≤ 8)%nat.
Proof using.
  intros _ (ho & sl & e & l & r & f & t & _ & _ & _ & _ & (_ & [Hk _] & Hp & _) & _).
  apply prefix_length in Hp. change klen with 8%nat in Hk. lia.
Qed.

(** The paths grow with every level, so that nine levels are enough. *)
Lemma range_loop_run n : ∀ f w qs l tokens ret,
  (n < f)%nat → (∀ q, q ∈ qs → (9 ≤ length q + n)%nat) → query w qs l tokens →
  ∃ ret' c, run (loop f (next_level from to) (l, tokens, ret)) w = Ok (ret', set_cache c w) ∧
    tree_inv tree_id (set_cache c w) P ent ob live d M ∧ (∀ h, handle_ok h (w_cache w) → handle_ok h c) ∧
    collects ret ret' ∧ done_or_below (covered qs) [] ret'.
Proof using Htid Hright.
  induction n as [|n IH]; intros f w qs l tokens ret Hf Hlen Hq; (destruct f as [|f]; [lia|]).
  all: destruct (decide (l = [])) as [->|Hne].
  1, 3: pose proof (qu_survivors _ _ _ _ Hq) as ->%Forall2_nil_inv_l; exists ret, (w_cache w);
    (split; [rewrite (run_loop f _ _ w (Done ret) w) by done; by destruct w|]); split; [by destruct w; apply Hq|]; split; [done|];
    split; [apply collects_refl|]; intros x v _ _ (q & ?%elem_of_nil & _); done.
  - destruct l as [|s l]; [done|]. pose proof (qu_survivors _ _ _ _ Hq) as (q & qs0 & Hsv & _ & ->)%Forall2_cons_inv_l.
    pose proof (surv_short w s q (qu_inv _ _ _ _ Hq) Hsv). pose proof (Hlen q ltac:(by left)). lia.
  - destruct (next_level_ok w qs l tokens ret Hq Hne) as (l' & tokens' & r1 & c & qs' & Hr & Hq' & Hb & Hc & Hd & Hh).
    destruct (IH f (set_cache c w) qs' l' tokens' r1) as (r2 & c2 & Hr2 & Hi2 & Hh2 & Hc2 & Hd2); [lia| |done|].
    { intros q' (q & Hqin & _ & Hlt)%Hb. pose proof (Hlen q Hqin). lia. }
    exists r2, c2. split; [by rewrite (run_loop f _ _ _ _ _ Hr)|]. split; [exact Hi2|]. split; [by auto|].
    split; [by eapply collects_trans|]. intros x v Hx Hin Hcov. destruct (Hd x v Hx Hin Hcov) as [Hret|Hcov']; [|by apply Hd2].
    left. by eapply collects_keep.
Qed.

(** ** [search_entries] *)
Lemma header_until_diff h n : ∀ i dd,
  header_diff h from n i = Ok dd → h_depth h + i < L →
  ∃ r, header_until h from L n i = Ok r ∧
    match r with
    | Some true => L <= h_depth h + i + Z.of_nat n
    | Some false => ∃ j q, dd = Some (j, q) ∧ h_depth h + j < L
    | None => dd = None ∧ h_depth h + i + Z.of_nat n < L
    end.
Proof using.
  induction n as [|n IH]; intros i dd; cbn [header_diff header_until]; intros E Hlt.
  { injection E as <-. exists None. split; [done|]. split; [done|lia]. }
  destruct (get_partial from (h_depth h + i)) as [pk|] eqn:Ep; [|done]. destruct (idx_ (h_partial h) i) as [qk|] eqn:Eq; [|done].
  cbn [mbind res_bind] in *. destruct (negb (pk =? qk)).
  { injection E as <-. exists (Some false). split; [done|]. by exists i, qk. }
  destruct (Z.eqb_spec (h_depth h + i + 1) L) as [<-|Hne]; [exists (Some true); split; [done|lia]|].
  destruct (IH (i + 1) dd E ltac:(lia)) as (r & Er & Hr). exists r. split; [done|].
  destruct r as [[]|]; [lia|done|]. split; [apply Hr|]. lia.
Qed.

Context (Hfrom : key_ok from) (Hto1 : key_ok to1) (Hfrom1 : take (Z.to_nat (L - 1)) to1 = take (Z.to_nat (L - 1)) from).
Context (Hcommon : ∀ x, in_range x → take (Z.to_nat (L - 1)) x = take (Z.to_nat (L - 1)) from).

(** The prefix of the range. *)
Lemma common_prefix q x : q `prefix_of` from → Z.of_nat (length q) <= L - 1 → in_range x → q `prefix_of` x.
Proof using Hcommon.
  intros Hp Hq Hx. eapply prefix_agree; [by apply Hcommon|done|lia].
Qed.

Lemma common_partial x m : in_range x → 1 <= m < L → get_partial x m = get_partial from m.
Proof using Hcommon.
  intros Hx Hm. unfold get_partial. rewrite (proj2 (Z.eqb_neq m 0)) by lia. unfold at_.
  rewrite (proj2 (Z.leb_le 0 (m - 1))) by lia.
  pose proof (f_equal (λ l, l !! Z.to_nat (m - 1)) (Hcommon x Hx)) as E. cbn beta in E.
  by rewrite !lookup_take_lt in E by lia; rewrite E.
Qed.

(** The range leaves the path of a node that [from] leaves. *)
Lemma range_off ρ h j q b x :
  head_ok ρ h → 0 <= j < h_partial_len h → h_depth h + j < L → get_partial from (h_depth h + j) = Ok b → q ≠ b →
  (take (Z.to_nat (h_depth h - 1) + Z.to_nat j) from ++ [q]) `prefix_of` ρ → in_range x → ¬ ρ `prefix_of` x.
Proof using Hcommon.
  intros Hh Hj HjL Eb Hqb Hp Hx. pose proof Hh as (_ & _ & Hd & _). apply (head_off x ρ h (proj1 Hx) Hh j q Hj).
  - exists b. split; [|done]. by rewrite common_partial by (done || lia).
  - pose proof (f_equal (take (Z.to_nat (h_depth h - 1) + Z.to_nat j)) (Hcommon x Hx)) as E.
    rewrite !take_take, Nat.min_l in E by lia. by rewrite E.
Qed.

(** The outcome: entries that lead to every deep key of the range. *)
Definition entries_post (w : world) (l : list (ScanContext handle)) (c : cache) : Prop :=
  ∃ qs, cache_after (cached P ent ob) 1 (w_cache w) c ∧ Forall2 (surv P ent) l qs ∧ antichain qs ∧ done_or_below deep qs ∅.

Lemma entries_none w :
  tree_inv tree_id w P ent ob live d M → (∀ x v, M !! x = Some v → in_range x → deep x → False) → entries_post w [] (w_cache w).
Proof using.
  intros Hi Hno. exists []. split; [eapply cache_after_mono; [|apply cache_after_refl, Hi]; lia|].
  split; [constructor|]. split; [constructor|]. intros x v Hx Hin Hd. by destruct (Hno x v).
Qed.

(** Where the loop may be: at a slot on the path of [from], not below the
    target depth. *)
Definition entries_at (s : search_state) (m : nat) : Prop :=
  ∃ sl e, s = Se (slot_ptr tree_id sl) e (Z.of_nat (length (spath P sl e)) + 1) None ∧ ent sl = Some e ∧ e ≠ entry_Null ∧
    spath P sl e `prefix_of` from ∧ Z.of_nat (length (spath P sl e)) + 1 <= L ∧ (9 ≤ length (spath P sl e) + m)%nat.

Definition entries_round (w : world) (m : nat) (r : step_result search_state (list (ScanContext handle))) (w' : world) : Prop :=
  match r with
  | Done l => ∃ c, w' = set_cache c w ∧ entries_post w l c
  | Again s => w' = w ∧ entries_at s m
  end.

Lemma entries_stop w n :
  tree_inv tree_id w P ent ob live d M → (∀ x v, M !! x = Some v → in_range x → deep x → False) → entries_round w n (Done []) w.
Proof using. intros Hi Hno. exists (w_cache w). split; [by destruct w|]. by apply entries_none. Qed.

(** The target lies in the header of the node. *)
Lemma entries_header w sl e h p c :
  tree_inv tree_id w P ent ob live d M → ent sl = Some e → e ≠ entry_Null → ob (e_addr e) = Some (MNode sl h) →
  spath P sl e `prefix_of` from → Z.of_nat (length (spath P sl e)) + 1 < L <= Z.of_nat (length (P (e_addr e))) + 1 →
  (0 < cache_room (w_cache w))%nat → p = page_at (w_mem w) (e_addr e) c → (cnt h ≤ c ≤ 256)%nat → pg_hdr p = h →
  (∀ i ei, (i < c)%nat → ent (Slot (e_addr e) i) = Some ei → pg_records p !! i = Some ei) →
  ∃ l c', run (range_query_on_page p (Z.of_nat (length (spath P sl e))) e from to1 BORDER BORDER) w = Ok (l, set_cache c' w) ∧
    entries_post w l c'.
Proof using Hright Hfrom Hto1 Hfrom1 Hcommon.
  intros Hi He Hne Ho Hway HL Hroom Ep Hc Hp Hrec. pose proof (ti_shape _ _ _ _ _ _ _ _ Hi) as Hs.
  destruct (shape_node_path P ent ob Hs _ _ _ _ He Hne Ho) as (_ & Hpre & Hlen).
  pose proof (sh_child _ _ _ Hs sl e He Hne) as Hch. rewrite Ho in Hch. destruct Hch as (_ & _ & Hsp).
  assert (Hway1 : spath P sl e `prefix_of` to1) by (eapply prefix_agree; [exact Hfrom1|done|lia]).
  destruct (run_scanned w from (e_addr e) sl h c p Hi Ho) as (c' & Hr & Hafter); [by rewrite <- Hsp|done..|].
  destruct (scan_page_ok P ent ob Hs (e_addr e) sl h Ho) with (p := e) (page := p) (f := from) (t := to1) (l := BORDER) (r := BORDER) (m := c)
    as (l & qs & Escan & Hl & Hanti & Hbelow & Hcov); [lia|done..|by rewrite <- Hsp|by rewrite <- Hsp|].
  exists l, c'. split; [|exists qs; split; [done|split; [done|split; [done|]]]].
  - unfold range_query_on_page. rewrite Hp, (proj2 (Z.eqb_eq _ _)) by lia. by rewrite run_bind, Hr, Escan.
  - intros x v Hx Hin _. right. pose proof Hx as Hx'. apply (ti_map _ _ _ _ _ _ _ _ Hi) in Hx' as (a' & s' & Ha').
    pose proof (sh_leads _ _ _ Hs sl e x He Hne) as Hle. unfold leads in Hle. rewrite Ho in Hle.
    destruct Hle as [Hle|(_ & i & ei & Hei & Hnei & Hpi)]; [apply common_prefix; [done|lia|done]|left; eauto| |by eapply Hcov].
    by destruct (key_not_path x _ h (proj1 Hin) (sh_node _ _ _ Hs _ _ _ Ho)).
Qed.

(** The next slot on the path, or none. *)
Lemma entries_slot w sl e h p c b n :
  tree_inv tree_id w P ent ob live d M → ent sl = Some e → e ≠ entry_Null → ob (e_addr e) = Some (MNode sl h) →
  (P (e_addr e) ++ [b]) `prefix_of` from → Z.of_nat (length (P (e_addr e))) + 2 <= L → (8 ≤ length (P (e_addr e)) + n)%nat →
  p = page_at (w_mem w) (e_addr e) c → (cnt h ≤ c ≤ 256)%nat →
  (∀ i ei, (i < c)%nat → ent (Slot (e_addr e) i) = Some ei → pg_records p !! i = Some ei) →
  ∃ r, run (m ← pure (find_slot (pg_records p) (cnt h) 0 b);
            match m with
            | Some (i, old_e) => mret (Again (Se (GADD (e_addr e) (page_head + i * 8)) old_e (h_depth h + h_partial_len h + 1) None))
            | None => mret (Done [])
            end) w = Ok (r, w) ∧ entries_round w n r w.
Proof using Hcommon.
  intros Hi He Hne Ho Hpb HL Hn Ep Hc Hrec. pose proof (ti_shape _ _ _ _ _ _ _ _ Hi) as Hs.
  pose proof (sh_node _ _ _ Hs _ _ _ Ho) as (_ & _ & Hd & _ & _ & HlP & _).
  assert (Hlr : length (pg_records p) = c) by (rewrite Ep; cbn; by rewrite length_fmap, length_seq).
  assert (Hent : ∀ j, (j < c)%nat → ∃ ej, ent (Slot (e_addr e) j) = Some ej ∧ pg_records p !! j = Some ej).
  { intros j Hj. destruct (proj2 (sh_slots _ _ _ Hs (e_addr e) j)) as [ej Hej]; [split; [eauto|lia]|]. eauto. }
  destruct (find_slot_spec (pg_records p) (cnt h) 0 b) as (r & Hfind & Hr); [rewrite Ep; apply page_at_ok|lia|rewrite Hlr; lia|].
  rewrite (run_bind_pure _ _ _ _ Hfind). destruct r as [[j ej]|].
  - destruct Hr as (Hj & Hjr & Hnej & Hbj). destruct (Hent (Z.to_nat j) ltac:(lia)) as (ej' & Hej & Hej'). assert (ej' = ej) as -> by congruence.
    assert (Hlen : length (spath P (Slot (e_addr e) (Z.to_nat j)) ej) = S (length (P (e_addr e)))) by (cbn; rewrite length_app; cbn; lia).
    eexists. split; [rewrite run_ret; done|]. split; [done|]. exists (Slot (e_addr e) (Z.to_nat j)), ej.
    split; [f_equal; [cbn; by rewrite Z2Nat.id by lia|lia]|]. do 2 (split; [done|]). split; [cbn; by rewrite Hbj|]. lia.
  - exists (Done []). split; [done|]. apply entries_stop; [done|]. intros x v Hx Hin _.
    apply (ti_map _ _ _ _ _ _ _ _ Hi x v) in Hx as (a0 & s0 & Ha0).
    eapply (shape_absent P ent ob Hs); [exact Ho| | |exact Ha0].
    + apply common_prefix; [exact Hpb|rewrite length_app; cbn; lia|done].
    + intros i ei Hei Hnei. destruct (decide (i < cnt h)%nat) as [Hic|Hic];
        [|by destruct Hnei; apply (sh_null _ _ _ Hs (e_addr e) sl h i ei); [| |lia]].
      apply (Hr i ei); [lia| |done]. apply Hrec; [lia|done].
Qed.

Lemma entries_node_run w sl e h n :
  tree_inv tree_id w P ent ob live d M → ent sl = Some e → e ≠ entry_Null → ob (e_addr e) = Some (MNode sl h) →
  spath P sl e `prefix_of` from → Z.of_nat (length (spath P sl e)) + 1 < L → (0 < cache_room (w_cache w))%nat →
  (9 ≤ length (spath P sl e) + S n)%nat →
  ∃ r w', run (entries_node from to1 L (Se (slot_ptr tree_id sl) e (Z.of_nat (length (spath P sl e)) + 1) None)) w = Ok (r, w') ∧
    entries_round w n r w'.
Proof using Htid Hright Hfrom Hto1 Hfrom1 Hcommon.
  intros Hi He Hne Ho Hway HL Hroom Hn. pose proof (ti_shape _ _ _ _ _ _ _ _ Hi) as Hs.
  pose proof (sh_node _ _ _ Hs _ _ _ Ho) as Hh. pose proof Hh as ((_ & _ & Hpl0 & _) & Hty & Hd1 & Hpl & Hle & HlP & _). unfold uint in Hpl0.
  destruct (shape_node_path P ent ob Hs _ _ _ _ He Hne Ho) as (_ & Hpre & Hlen).
  pose proof (sh_child _ _ _ Hs sl e He Hne) as Hch. rewrite Ho in Hch. destruct Hch as (_ & Ee & Hsp).
  destruct (run_read_node_at tree_id w P ent ob live d M sl e sl h (slot_ptr tree_id sl) (Z.of_nat (length (spath P sl e)) + 1) false
              Hi (known_current P ent ob sl e Hs He Hne) Ho) as (_ & c & Hread & Hc & Hph & Hrec); [done|].
  rewrite <- Ee in Hread. rewrite (proj2 (Z.leb_le (h_depth h) _)) in Hread by lia. cbn [andb orb negb] in Hread.
  set (p := page_at (w_mem w) (e_addr e) c) in *.
  assert (Hwayd : take (Z.to_nat (h_depth h - 1)) (P (e_addr e)) `prefix_of` from) by by rewrite <- Hsp.
  destruct (head_part from (P (e_addr e)) h Hfrom Hh Hwayd) as (dd & Ediff & Hdd).
  destruct (header_until_diff h (Z.to_nat (h_partial_len h)) 0 dd Ediff) as (r & Euntil & Hr); [lia|].
  assert (Hstep : ∀ g r w', (run g w = Ok (r, w') ∧ entries_round w n r w') →
            run ((if negb (h_node_type h =? e_node_type e) then invalidate_if None else mret tt) ;; g) w = Ok (r, w') ∧ entries_round w n r w').
  { intros g r0 w' [Hg ?]. split; [|done]. rewrite run_bind. by destruct (h_node_type h =? e_node_type e). }
  unfold entries_node. cbn [s_p s_p_ptr s_depth s_from from_cache]. rewrite run_bind, Hread. cbn [negb]. rewrite Hph.
  destruct r as [[]|].
  - destruct (entries_header w sl e h p c Hi He Hne Ho Hway) as (l & c' & Hrq & Hpost); [lia|done..|].
    exists (Done l), (set_cache c' w). apply Hstep. split; [|by exists c'].
    rewrite (run_bind_pure _ _ _ _ Euntil). replace (Z.of_nat (length (spath P sl e)) + 1 - 1) with (Z.of_nat (length (spath P sl e))) by lia.
    by rewrite run_bind, Hrq.
  - destruct Hr as (j & q & -> & Hj). destruct Hdd as (Hir & Hq & (b & Eb & Hqb) & Hpq).
    exists (Done []), w. apply Hstep. split; [by rewrite (run_bind_pure _ _ _ _ Euntil)|].
    apply entries_stop; [done|]. intros x v Hx Hin _.
    assert (M !! x = None); [|congruence]. eapply off_path_absent; [exact Hi|exact He|done|done| | |apply Hin].
    + apply common_prefix; [done|lia|done].
    + by eapply range_off.
  - destruct Hr as [-> HrL], Hdd as (_ & b & Eb & Hbb & Hpb).
    assert (Hety : e_node_type e = h_node_type h) by (rewrite Ee; apply entry_node_type; unfold uint; lia).
    destruct (entries_slot w sl e h p c b n Hi He Hne Ho Hpb) as (r & Hr & Hround); [lia| |done..|].
    { apply prefix_length in Hpre. lia. }
    exists r, w. apply Hstep. split; [|done]. rewrite (run_bind_pure _ _ _ _ Euntil), (run_bind_pure _ _ _ _ Eb), Hety. exact Hr.
Qed.

(** A leaf above the target depth: no other key of the tree goes through its slot. *)
Lemma entries_leaf w sl e sl' k v n :
  tree_inv tree_id w P ent ob live d M → ent sl = Some e → e ≠ entry_Null → ob (e_addr e) = Some (MLeaf sl' k v) →
  spath P sl e `prefix_of` from → Z.of_nat (length (spath P sl e)) + 1 < L → entries_round w n (Done []) w.
Proof using Hcommon.
  intros Hi He Hne Ho Hway HL. pose proof (ti_shape _ _ _ _ _ _ _ _ Hi) as Hs. apply entries_stop; [done|].
  intros x v' Hx Hin Hdeep. apply (ti_map _ _ _ _ _ _ _ _ Hi x v') in Hx as (a0 & s0 & Ha0).
  pose proof (sh_leads _ _ _ Hs sl e x He Hne) as Hle. unfold leads in Hle. rewrite Ho in Hle.
  assert (k = x) as <- by (apply Hle; [apply common_prefix; [done|lia|done]|left; eauto]).
  destruct (entry_live_ok P ent ob sl e _ Hs He Hne Ho) as [_ Hsl]. cbn in Hsl. subst sl'.
  pose proof (Hdeep (e_addr e) sl v e Ho He). lia.
Qed.

Lemma entries_loop_run m : ∀ f w s,
  tree_inv tree_id w P ent ob live d M → entries_at s m → (0 < cache_room (w_cache w))%nat → (m < f)%nat →
  ∃ l c, run (loop f (λ s,
      if entry_eqb (s_p s) entry_Null then mret (Done [])
      else if s_depth s =? L then
        mret (Done [SC (s_p s) (s_p_ptr s) (s_depth s - 1) (s_from s) from to1 BORDER BORDER])
      else if e_is_leaf (s_p s) then mret (Done [])
      else entries_node from to1 L s) s) w = Ok (l, set_cache c w) ∧ entries_post w l c.
Proof using Htid Hright Hfrom Hto1 Hfrom1 Hcommon.
  induction m as [|m IH]; intros f w s Hi (sl & e & -> & He & Hne & Hway & HL & Hm) Hroom Hf; (destruct f as [|f]; [lia|]).
  { apply prefix_length in Hway. destruct Hfrom as [Hk _]. change klen with 8%nat in Hk. lia. }
  pose proof (ti_shape _ _ _ _ _ _ _ _ Hi) as Hs. set (body := λ s : search_state, _). set (s := Se _ _ _ _).
  assert (∃ r w', run (body s) w = Ok (r, w') ∧ entries_round w m r w') as (r & w' & Hr & Hround).
  { unfold body, s. cbn [s_p s_p_ptr s_depth s_from].
    destruct (entry_eqb_spec e entry_Null (sh_entry _ _ _ Hs _ _ He) entry_Null_ok) as [->|_]; [done|].
    destruct (Z.eqb_spec (Z.of_nat (length (spath P sl e)) + 1) L) as [EL|HnL].
    - eexists _, w. split; [rewrite run_ret; done|]. exists (w_cache w). split; [by destruct w|]. exists [spath P sl e].
      split; [eapply cache_after_mono; [|apply cache_after_refl, Hi]; lia|]. split; [|split; [repeat constructor|]].
      + constructor; [|constructor]. exists sl, e, BORDER, BORDER, from, to1. split; [f_equal; lia|]. do 3 (split; [done|]).
        split; [by split_and!|]. split; [|lia]. split; [done|]. split; [done|]. split; [|done].
        eapply prefix_agree; [exact Hfrom1|done|lia].
      + intros x v Hx Hin _. right. exists (spath P sl e). split; [by left|]. apply common_prefix; [done|lia|done].
    - pose proof (sh_child _ _ _ Hs sl e He Hne) as Hch. destruct (ob (e_addr e)) as [[sl' h|sl' k v]|] eqn:Ho; [| |done].
      + destruct Hch as (-> & Ee & _). replace (e_is_leaf e) with false by (by rewrite Ee).
        eapply entries_node_run; [done..|lia|done|lia].
      + destruct Hch as (-> & Ee & _). replace (e_is_leaf e) with true by (by rewrite Ee).
        exists (Done []), w. split; [done|]. apply (entries_leaf w sl e sl k v m); [done..|lia]. }
  rewrite (run_loop _ _ _ _ _ _ Hr). destruct r as [s'|l].
  - destruct Hround as [-> Hat]. apply (IH f w s'); [done|done|done|lia].
  - destruct Hround as (c & -> & Hpost). exists l, c. by split.
Qed.
End level.
End scan.

(** ** The query *)

(** Between two keys with a common prefix. *)
Lemma between_prefix n : ∀ a b x : Key,
  length a = length x → length b = length x → key_ltb x a = false → key_ltb b x = false → take n b = take n a → take n x = take n a.
Proof.
  induction n as [|n IH]; intros [|p a] [|q b] [|c x]; cbn; intros Ha Hb Hax Hxb Hab; simplify_eq; try done.
  destruct (Z.ltb_spec c p), (Z.ltb_spec p c); try done. assert (c = p) as -> by lia. f_equal. by apply (IH a b).
Qed.

(** The index cache knows no key. *)
Definition cold `{IndexCache} (c : cache) : Prop := ∀ k, key_ok k → run (search_from_cache k) c = Ok (None, c).

Lemma search_range_cold `{IndexCache} fuel : ∀ k to c,
  cold c → key_ok k → key_ok to → (0 < fuel)%nat → key2int to - key2int k < Z.of_nat fuel →
  run (search_range_from_cache fuel k to) c = Ok ([], c).
Proof.
  induction fuel as [|fuel IH]; intros k to c Hc Hk Hto H0 Hf; [lia|]. pose proof (key2int_range _ Hk). pose proof (key2int_range _ Hto).
  cbn [search_range_from_cache]. rewrite key_ltb_int by done. destruct (Z.ltb_spec (key2int k) (key2int to)) as [Hlt|Hge]; [|done].
  destruct (key_add_ok k 1 Hk) as [Hk1 E1]; [by vm_compute|]. unfold uint in *. rewrite Z.mod_small in E1 by lia.
  rewrite run_bind, Hc by done. rewrite run_bind, run_ret, run_bind, IH by (done || lia). done.
Qed.

(** The depth that [search_entries] is called with. *)
Definition entry_depth (from to : Key) : Z :=
  match to1 ← key_sub to 1; longest_common_prefix from to1 0 with Ok L => L | Fail _ => 0 end.

(** Both ends start with [entry_depth from to - 1] common bytes, and so do all keys of the range. *)
Lemma range_ends from to :
  key_ok from → key_ok to → key_ltb from to = true →
  ∃ to1, key_sub to 1 = Ok to1 ∧ longest_common_prefix from to1 0 = Ok (entry_depth from to) ∧ key_ok to1 ∧
    1 <= entry_depth from to <= 9 ∧ (∀ x, in_range from to x → ¬ beyond Gt to1 x) ∧
    take (Z.to_nat (entry_depth from to - 1)) to1 = take (Z.to_nat (entry_depth from to - 1)) from ∧
    ∀ x, in_range from to x → take (Z.to_nat (entry_depth from to - 1)) x = take (Z.to_nat (entry_depth from to - 1)) from.
Proof.
  intros Hf Ht Hlt. destruct (key_sub_ok to 1 Ht) as (to1 & E & Ht1 & V); [by vm_compute|].
  rewrite key_ltb_int in Hlt by done. apply Z.ltb_lt in Hlt. pose proof (key2int_range _ Hf). pose proof (key2int_range _ Ht).
  unfold uint in *. rewrite Z.mod_small in V by lia.
  destruct (longest_common_prefix_ok from to1 0 Hf Ht1) as (L & EL & HL & Heq & Hdiff); [unfold keyLen; lia|].
  assert (entry_depth from to = L) as -> by (unfold entry_depth; rewrite E; cbn [mbind res_bind]; by rewrite EL).
  assert (1 <= L) as HL1 by (destruct (decide (L = 0)) as [->|]; [by destruct (Hdiff ltac:(unfold keyLen; lia))|lia]).
  exists to1. do 3 (split; [done|]). unfold keyLen in HL. split; [lia|].
  assert (Hright : ∀ x, in_range from to x → key_ltb to1 x = false).
  { intros x [Hx [_ Hxt]%andb_true_iff]. rewrite key_ltb_int in Hxt by done. apply Z.ltb_lt in Hxt.
    rewrite key_ltb_int by done. apply Z.ltb_ge. lia. }
  assert (Hfrom1 : take (Z.to_nat (L - 1)) to1 = take (Z.to_nat (L - 1)) from).
  { pose proof Hf as [Hfl _]. pose proof Ht1 as [Htl _]. change klen with 8%nat in *. apply list_eq. intros i.
    destruct (decide (i < Z.to_nat (L - 1))%nat) as [Hi|Hi]; [|by rewrite !lookup_take_ge by lia]. rewrite !lookup_take_lt by done.
    destruct (lookup_lt_is_Some_2 from i) as [b Hb]; [lia|]. rewrite Hb.
    pose proof (Heq (Z.of_nat i + 1) ltac:(lia)) as Hi1. rewrite !Z.add_0_l, (get_partial_lookup from i b) in Hi1 by (done || lia).
    symmetry in Hi1. apply get_partial_index in Hi1; [|lia]. by replace (Z.to_nat (Z.of_nat i + 1 - 1)) with i in Hi1 by lia. }
  split; [intros x Hx Hb; cbn in Hb; by rewrite Hright in Hb|]. split; [done|].
  intros x Hx. pose proof Hx as [[Hxl _] _]. apply (between_prefix _ from to1); [by rewrite Hxl; apply Hf|by rewrite Hxl; apply Ht1| |by apply Hright|done].
  destruct Hx as [_ [Hfx _]%andb_true_iff]. unfold key_leb in Hfx. by apply negb_true_iff in Hfx.
Qed.

Section query.
Context `{Checksum} `{IndexCacheLaws} {others : Others} (tree_id : Z) (Htid : tree_id_ok tree_id).

Lemma search_entries_cold fuel w P ent ob live d M from to to1 :
  tree_inv tree_id w P ent ob live d M → cold (w_cache w) → key_ok from → key_ok to1 →
  1 <= entry_depth from to → (∀ x, in_range from to x → ¬ beyond Gt to1 x) →
  take (Z.to_nat (entry_depth from to - 1)) to1 = take (Z.to_nat (entry_depth from to - 1)) from →
  (∀ x, in_range from to x → take (Z.to_nat (entry_depth from to - 1)) x = take (Z.to_nat (entry_depth from to - 1)) from) →
  (0 < cache_room (w_cache w))%nat → (10 ≤ fuel)%nat →
  ∃ l c, run (search_entries tree_id fuel from to1 (entry_depth from to)) w = Ok (l, set_cache c w) ∧
    entries_post tree_id from to to1 (entry_depth from to) P ent ob M w l c.
Proof using Htid.
  intros Hi Hcold Hf Ht1 HL Hright Hfrom1 Hcommon Hroom Hfuel. pose proof (ti_shape _ _ _ _ _ _ _ _ Hi) as Hs.
  pose proof (ti_mem _ _ _ _ _ _ _ _ Hi) as Hm. destruct (sh_root _ _ _ Hs) as [er Her].
  pose proof (sh_entry _ _ _ Hs _ _ Her) as Hok. destruct (slot_region _ _ _ _ _ _ _ _ Hm Her) as (Hreg & _ & Hld).
  assert (Hstart : run (start tree_id from) w = Ok ((None, slot_ptr tree_id SRoot, er, gaddr_Null, 1), w)).
  { unfold start. rewrite run_bind, (run_on_cache _ _ _ _ (Hcold from Hf)). unfold get_root_ptr. rewrite run_bind, run_read_entry.
    cbn [w_mem set_cache]. change (get_root_ptr_ptr tree_id) with (slot_ptr tree_id SRoot). rewrite Hreg, Hld, entry_of_val_val, run_ret by done.
    by destruct w. }
  unfold search_entries. rewrite run_bind, Hstart. destruct (decide (er = entry_Null)) as [->|Hne].
  - exists [], (w_cache w). destruct fuel as [|fuel]; [lia|]. rewrite (run_loop _ _ _ w (Done []) w) by done. split; [by destruct w|].
    eapply entries_none; [exact Hi|]. intros x v Hx _ _. by rewrite (root_null_empty tree_id _ _ _ _ _ _ _ Hi Her) in Hx.
  - destruct (entries_loop_run tree_id Htid from to to1 (entry_depth from to) Hright P ent ob live d M Hf Ht1 Hfrom1 Hcommon
                9 fuel w (Se (slot_ptr tree_id SRoot) er 1 None)) as (l & c & Hr & Hpost); [done| |done|lia|by exists l, c].
    exists SRoot, er. do 3 (split; [done|]). split; [apply prefix_nil|]. cbn. lia.
Qed.

(** With a cold cache, the query returns what it was given and every deep key
    of the range. *)
Lemma range_query_run fuel steps w P ent ob live d M from to ret :
  tree_inv tree_id w P ent ob live d M → cold (w_cache w) → key_ok from → key_ok to →
  key2int to - key2int from < Z.of_nat steps → (10 ≤ fuel)%nat → (9 * size M < cache_room (w_cache w))%nat →
  ∃ ret' c, run (range_query tree_id fuel steps from to ret) w = Ok (ret', set_cache c w) ∧
    tree_inv tree_id (set_cache c w) P ent ob live d M ∧ (∀ h, handle_ok h (w_cache w) → handle_ok h c) ∧
    collects from to (entry_depth from to) P ent ob M ret ret' ∧
    ∀ x v, M !! x = Some v → in_range from to x → deep (entry_depth from to) P ent ob x → ret' !! x = Some v.
Proof using Htid.
  intros Hi Hcold Hf Ht Hdist Hfuel Hroom. unfold range_query. unfold key_leb. destruct (key_ltb from to) eqn:Hlt; cbn [negb].
  2: { exists ret, (w_cache w). split; [by destruct w|]. split; [by destruct w|]. split; [done|]. split; [apply collects_refl|].
       intros x v _ [Hx [Hfx Hxt]%andb_true_iff]. unfold key_leb in Hfx. apply negb_true_iff in Hfx.
       rewrite !key_ltb_int in * by done. apply Z.ltb_ge in Hlt, Hfx. apply Z.ltb_lt in Hxt. lia. }
  destruct (range_ends from to Hf Ht Hlt) as (to1 & Esub & Elcp & Ht1 & HL & Hright & Hfrom1 & Hcommon).
  set (L := entry_depth from to) in *.
  assert (0 < steps)%nat as Hsteps by (rewrite key_ltb_int in Hlt by done; apply Z.ltb_lt in Hlt; lia).
  rewrite run_bind, (run_on_cache _ _ _ _ (search_range_cold steps from to (w_cache w) Hcold Hf Ht Hsteps Hdist)).
  assert (set_cache (w_cache w) w = w) as -> by by destruct w.
  rewrite (run_bind_pure _ _ _ _ Esub), run_bind, (run_bind_pure _ _ _ _ Elcp).
  destruct (search_entries_cold fuel w P ent ob live d M from to to1) as (l & c & Hr & qs & Hafter & Hl & Hanti & Hcov); [done..|lia|done|done|done|lia|lia|].
  fold L in Hr. rewrite Hr. pose proof (tree_inv_cache tree_id _ _ _ _ _ _ _ _ _ Hi Hafter) as Hi1. destruct Hafter as (_ & Hroom1 & Hh1).
  destruct (range_loop_run tree_id Htid from to to1 L Hright P ent ob live d M 9 fuel (set_cache c w) qs l [] ret) as (ret' & c' & Hr' & Hi' & Hh' & Hc' & Hd');
    [lia|lia| |].
  { split; [done|by apply surv_current|done| |cbn; lia]. split; [constructor|]. by intros t ?%elem_of_nil. }
  exists ret', c'. split; [exact Hr'|]. split; [exact Hi'|]. split; [by auto|]. split; [exact Hc'|].
  intros x v Hx Hin Hdeep. destruct (Hcov x v Hx Hin Hdeep) as [He|Hcx]; [by rewrite lookup_empty in He|].
  destruct (Hd' x v Hx Hin Hcx) as [?|(q & ?%elem_of_nil & _)]; done.
Qed.
End query.
