(* ===== verification/TreeWarm.v ===== *)
(** * Range queries with a warm cache

    When the index cache knows a key of the range, [range_query] starts from the
    records that the cache gives and does not search the tree. The records may
    be out of date: an entry whose target has moved is read again, and one may
    lie below another, or be given many times. The lemmas follow every entry
    ([held]) with the path of its slot, which lies below that of a record of the
    cache ([pending]), and with the number of levels that may still come of it.
    Records that are up to date ([up_to_date]) and not nested ([unnested]) are
    entries as those of [TreeRange], so that the query finds what is below them. *)

From Stdlib Require Import ZArith Lia Bool.
From stdpp Require Import base tactics decidable option numbers functions list gmap.
From S2P Require Import Prelude.
From S2P Require Import Common.
From S2P Require Import Keys.
From S2P Require Import Address.
From S2P Require Import Nodes.
From S2P Require Import Allocators.
From S2P Require Import Memory.
From S2P Require Import Process.
From S2P Require Import LockTable.
From S2P Require Import IndexCache.
From S2P Require Import Tree.
From S2P Require Import TreeSearch.
From S2P Require Import TreeShape.
From S2P Require Import TreeHeap.
From S2P Require Import TreeState.
From S2P Require Import TreeWrite.
From S2P Require Import TreeInsert.
From S2P Require Import TreeRounds.
From S2P Require Import TreeOps.
From S2P Require Import TreeRange.

Section warm.
Context `{Checksum} `{IndexCacheLaws} {others : Others} (tree_id : Z) (Htid : tree_id_ok tree_id).
Context (from to to1 : Key) (Hright : ∀ x, in_range from to x → ¬ beyond Gt to1 x).
Context (P : GlobalAddress → list byte) (ent : slot → option InternalEntry) (ob : GlobalAddress → option meta).
Context (live : block_list) (d : Directory) (M : gmap Key Z) (roots : list (list byte)).

(** ** The entries of a query *)

(** [s] is for the slot with path [q]; its entry is current, or one that the
    cache knows. *)
Definition held (w : world) (s : ScanContext handle) (q : list byte) : Prop :=
  ∃ sl e l r f t ho, s = SC e (slot_ptr tree_id sl) (Z.of_nat (length q)) ho f t l r ∧ q = spath P sl e ∧
    at_slot tree_id P ent ob f sl (slot_ptr tree_id sl) e (Z.of_nat (length q) + 1) ho w ∧
    edge from l f q ∧ edge to1 r t q.

(** The levels that may come of it: one less for each byte, and one more when
    the entry is from the cache. *)
Definition levels (s : ScanContext handle) (q : list byte) : nat := (9 - length q + if from_cache (sc_cached s) then 1 else 0)%nat.

Definition pending (n : nat) (w : world) (s : ScanContext handle) : Prop := ∃ q, held w s q ∧ covered roots q ∧ (levels s q ≤ n)%nat.

(** [ret'] is [ret] with some keys of the range that lie below [roots]. *)
Definition adds (ret ret' : gmap Key Z) : Prop :=
  ∀ x, ret' !! x = ret !! x ∨ in_range from to x ∧ covered roots x ∧ is_Some (M !! x) ∧ ret' !! x = M !! x.

Lemma adds_refl ret : adds ret ret.
Proof using. intros x. by left. Qed.

Lemma adds_trans r1 r2 r3 : adds r1 r2 → adds r2 r3 → adds r1 r3.
Proof using. intros H12 H23 x. destruct (H23 x) as [->|?]; [apply H12|by right]. Qed.

Lemma held_after n c w s q : held w s q → cache_after (cached P ent ob) n (w_cache w) c → held (set_cache c w) s q.
Proof using.
  intros (sl & e & l & r & f & t & ho & -> & Hq & (H1' & H2' & H3' & Hf & H4' & H5') & Hl & Hr) Hafter.
  exists sl, e, l, r, f, t, ho. split; [done|]. split; [done|]. split; [|done]. split_and!; try done. by eapply from_lookup_after.
Qed.

Lemma pending_after n m c w s : pending n w s → cache_after (cached P ent ob) m (w_cache w) c → pending n (set_cache c w) s.
Proof using. intros (q & Hs & ?) Hafter. exists q. split; [by eapply held_after|done]. Qed.

Lemma pending_pos n w s : pending n w s → (1 ≤ n)%nat.
Proof using.
  intros (q & (sl & e & l & r & f & t & ho & _ & _ & _ & (_ & [Hk _] & Hp & _) & _) & _ & Hn).
  apply prefix_length in Hp. change klen with 8%nat in Hk. unfold levels in Hn. lia.
Qed.

Lemma covered_below q q' : covered roots q → q `prefix_of` q' → covered roots q'.
Proof using. intros (q0 & Hq0 & Hp) Hp'. exists q0. split; [done|]. by etrans. Qed.

(** The entries that a page gives. *)
Lemma surv_pending n w s q q' :
  shape P ent ob → surv tree_id from to1 0 P ent s q' → covered roots q → q `prefix_of` q' → (9 - length q' ≤ n)%nat → pending n w s.
Proof using.
  intros Hs (sl & e & l & r & f & t & -> & He & Hne & Hq & Hf & Ht & _) Hcov Hp Hn. exists q'. split; [|split; [by eapply covered_below|]].
  - exists sl, e, l, r, f, t, None. split; [done|]. split; [done|]. split; [|done]. rewrite Hq.
    pose proof Hf as (_ & _ & Hpf & _). rewrite Hq in Hpf.
    split_and!; [done|done|done|done|by eapply known_current|done].
  - unfold levels. cbn [sc_cached from_cache]. lia.
Qed.

(** ** One entry *)

(** What a read node or leaf leaves behind. *)
Definition stepped (n : nat) (w : world) (ret : gmap Key Z) (l : list (ScanContext handle)) (ret' : gmap Key Z) (c : cache) : Prop :=
  cache_after (cached P ent ob) 1 (w_cache w) c ∧ Forall (pending n (set_cache c w)) l ∧ adds ret ret'.

(** The target has moved: the entry is read again. *)
Lemma reread_ok n w s q h ret :
  tree_inv tree_id w P ent ob live d M → held w s q → covered roots q → (levels s q ≤ S n)%nat → sc_cached s = Some h →
  ∃ l c, run (reread s) w = Ok (l, set_cache c w) ∧ stepped n w ret l ret c.
Proof using.
  intros Hi (sl & e & l & r & f & t & ho & -> & Hq & Hat & Hl & Hr) Hcov Hn Hh. cbn [sc_cached] in Hh. subst ho.
  destruct (reread_round tree_id w P ent ob live d M f sl _ e _ h Hi Hat) as (e' & c & Hr1 & Hr2 & Hafter & Hat' & _).
  pose proof Hat' as (_ & _ & Hd & _). assert (Hq' : q = spath P sl e').
  { destruct Hat as (_ & _ & _ & _ & ((e1 & He1 & _ & Hp1) & _) & _), Hat' as (_ & _ & _ & _ & _ & Hcur).
    rewrite (Hcur eq_refl) in He1. injection He1 as <-. by rewrite (spath_partial P sl e e' Hp1). }
  exists [SC e' (slot_ptr tree_id sl) (Z.of_nat (length q)) None f t l r], c. split; [|split; [|split]].
  - unfold reread. cbn [sc_cached sc_e_ptr sc_depth sc_from sc_to sc_l sc_r]. by rewrite run_bind, Hr1, run_bind, Hr2.
  - destruct Hafter as (? & ? & ?). split_and!; [done|lia|done].
  - apply Forall_singleton. exists q. split; [|split; [done|]].
    + exists sl, e', l, r, f, t, None. by split_and!.
    + unfold levels in *. cbn [sc_cached from_cache] in *. lia.
  - apply adds_refl.
Qed.

Lemma leaf_warm n w s q ret sl k v :
  tree_inv tree_id w P ent ob live d M → held w s q → covered roots q → (levels s q ≤ S n)%nat →
  ob (e_addr (sc_e s)) = Some (MLeaf sl k v) →
  ∃ l ret' c, run (range_step from to s (fetched w s) ret) w = Ok ((l, ret'), set_cache c w) ∧ stepped n w ret l ret' c.
Proof using Htid.
  intros Hi Hs Hcov Hn Ho. pose proof Hs as (sl' & e & ls & rs & f & t & ho & -> & Hq & Hat & Hf & Ht). cbn [sc_e] in Ho.
  pose proof (ti_shape _ _ _ _ _ _ _ _ Hi) as Hsh. pose proof (ti_mem _ _ _ _ _ _ _ _ Hi) as Hm.
  pose proof Hat as (_ & _ & _ & _ & [_ Hkn] & _). rewrite Ho in Hkn.
  destruct (sh_leaf _ _ _ Hsh _ _ _ _ Ho) as [Hk Hv]. destruct (sh_parent _ _ _ Hsh _ _ Ho) as (e1 & He1 & _). cbn in He1.
  destruct (slot_region _ _ _ _ _ _ _ _ Hm He1) as (_ & Hsok & _).
  pose proof (read_leaf_at tree_id _ _ _ _ (mi_blocks _ _ _ _ _ _ Hm) (mi_holds _ _ _ _ _ _ Hm) _ _ _ _ Ho Hk Hv Hsok) as Hl.
  assert (Hstep : range_step from to (SC e (slot_ptr tree_id sl') (Z.of_nat (length q)) ho f t ls rs)
            (fetched w (SC e (slot_ptr tree_id sl') (Z.of_nat (length q)) ho f t ls rs)) ret
          = if negb (negb (from_cache ho) || gaddr_eqb (slot_ptr tree_id sl') (slot_ptr tree_id sl))
            then l ← reread (SC e (slot_ptr tree_id sl') (Z.of_nat (length q)) ho f t ls rs); mret (l, ret)
            else mret ([], if key_leb from k && key_ltb k to then <[k := v]> ret else ret)).
  { unfold range_step, fetched, request_size. cbn [sc_e sc_e_ptr sc_cached]. assert (leaf_read_size e = sizeof_Leaf) as Hsz.
    { unfold leaf_read_size. by rewrite Hkn. }
    replace (e_is_leaf e) with true by (by rewrite Hkn). rewrite Hsz, Hl. unfold leaf_is_valid.
    change (l_valid (leaf_make k v (slot_ptr tree_id sl))) with true.
    change (l_rev_ptr (leaf_make k v (slot_ptr tree_id sl))) with (slot_ptr tree_id sl).
    change (is_consistent (leaf_make k v (slot_ptr tree_id sl))) with (crc64 (k ++ le_bytes 8 v) =? crc64 (k ++ le_bytes 8 v)).
    rewrite Z.eqb_refl. done. }
  destruct (at_slot_target tree_id Htid w P ent ob live d M f sl' _ e _ ho _ Hi Hat Ho) as [_ [(h & -> & Hne)|(Heq & Hsl & e2 & He2 & Hne2 & _ & Ha2 & _)]];
    cbn [m_slot] in *; rewrite Hstep.
  - rewrite Hne. cbn [from_cache negb orb]. destruct (reread_ok n w _ q h ret Hi Hs Hcov Hn eq_refl) as (l & c & Hr & Hst).
    exists l, ret, c. by rewrite run_bind, Hr.
  - rewrite Heq. cbn [negb]. eexists _, _, (w_cache w). split; [rewrite run_ret; by destruct w|]. split; [|split; [constructor|]].
    { eapply cache_after_mono; [|apply cache_after_refl, Hi]. lia. }
    intros x. destruct (key_leb from k && key_ltb k to) eqn:Ein; [|by left]. rewrite lookup_insert.
    destruct (decide (k = x)) as [<-|]; [right|by left]. split; [by split|]. subst sl'.
    assert (M !! k = Some v) as HM by (apply (ti_map _ _ _ _ _ _ _ _ Hi); eauto). split; [|by rewrite HM].
    eapply covered_below; [exact Hcov|]. pose proof (sh_child _ _ _ Hsh sl e2 He2 Hne2) as Hch. rewrite Ha2, Ho in Hch.
    destruct Hch as (_ & _ & Hp). rewrite Hq. destruct Hat as (_ & _ & _ & _ & ((e3 & He3 & _ & Hp3) & _) & _).
    assert (e3 = e2) as -> by congruence. by rewrite <- (spath_partial P sl e e2 Hp3).
Qed.

(** The node is where the entry says. *)
Lemma node_here n w s q ret h sl p c :
  tree_inv tree_id w P ent ob live d M → held w s q → covered roots q → (levels s q ≤ S n)%nat →
  ob (e_addr (sc_e s)) = Some (MNode sl h) → (0 < cache_room (w_cache w))%nat →
  spath P sl (sc_e s) = q → Z.of_nat (length q) = h_depth h - 1 → q = take (Z.to_nat (h_depth h - 1)) (P (e_addr (sc_e s))) →
  p = page_at (w_mem w) (e_addr (sc_e s)) c → (cnt h ≤ c ≤ 256)%nat → pg_hdr p = h →
  (∀ i ei, (i < c)%nat → ent (Slot (e_addr (sc_e s)) i) = Some ei → pg_records p !! i = Some ei) →
  ∃ l c', run (l ← range_query_on_page p (sc_depth s) (sc_e s) (sc_from s) (sc_to s) (sc_l s) (sc_r s); mret (l, ret)) w
          = Ok ((l, ret), set_cache c' w) ∧ stepped n w ret l ret c'.
Proof using Hright.
  intros Hi (sl' & e & ls & rs & f & t & ho & -> & Hq & Hat & Hf & Ht) Hcov Hn Ho Hroom Hsp Hlen Hway Ep Hc Hph Hrec.
  cbn [sc_e sc_depth sc_from sc_to sc_l sc_r] in *. pose proof (ti_shape _ _ _ _ _ _ _ _ Hi) as Hs.
  pose proof Hf as (_ & Hkf & Hpf & _). rewrite Hway in Hf, Ht, Hpf.
  destruct (run_scanned tree_id P ent ob live d M w f (e_addr e) sl h c p Hi Ho Hpf Hkf Hroom Ep Hc Hph Hrec) as (c' & Hr & Hafter).
  destruct (scan_page_ok tree_id from to to1 0 Hright P ent ob Hs (e_addr e) sl h Ho) with (p := e) (page := p) (f := f) (t := t) (l := ls)
    (r := rs) (m := c) as (l & qs & Escan & Hl & _ & Hbelow & _); [lia|done..|].
  exists l, c'. split; [|split; [done|split; [|apply adds_refl]]].
  - unfold range_query_on_page. rewrite Hph, (proj2 (Z.eqb_eq _ _)) by lia. by rewrite run_bind, run_bind, Hr, Escan.
  - apply Forall_forall. intros s' Hs'. apply list_elem_of_lookup in Hs' as [i Hs']. destruct (Forall2_lookup_l _ _ _ _ _ Hl Hs') as (q' & Hq' & Hsv).
    destruct (Hbelow q') as (q1 & ->%list_elem_of_singleton & Hp1 & Hl1); [by eapply list_elem_of_lookup_2|].
    assert (q `prefix_of` P (e_addr e)) as Hqp by (rewrite Hway; apply spath_prefix_take).
    eapply (surv_pending n _ s' q q'); [done|done|done|by etrans|]. apply prefix_length in Hqp. unfold levels in Hn. lia.
Qed.

Lemma node_warm n w s q ret h sl :
  tree_inv tree_id w P ent ob live d M → held w s q → covered roots q → (levels s q ≤ S n)%nat →
  ob (e_addr (sc_e s)) = Some (MNode sl h) → (0 < cache_room (w_cache w))%nat →
  ∃ l ret' c, run (range_step from to s (fetched w s) ret) w = Ok ((l, ret'), set_cache c w) ∧ stepped n w ret l ret' c.
Proof using Htid Hright.
  intros Hi Hs Hcov Hn Ho Hroom. pose proof Hs as (sl' & e & ls & rs & f & t & ho & Es & Hq & Hat & Hf & Ht).
  assert (Ee : sc_e s = e) by by rewrite Es. rewrite Ee in Ho.
  pose proof (ti_shape _ _ _ _ _ _ _ _ Hi) as Hsh. pose proof (ti_mem _ _ _ _ _ _ _ _ Hi) as Hm.
  pose proof (sh_node _ _ _ Hsh _ _ _ Ho) as (Hhok & Hty & _).
  destruct (sh_parent _ _ _ Hsh _ _ Ho) as (e1 & He1 & _). cbn in He1. destruct (slot_region _ _ _ _ _ _ _ _ Hm He1) as (_ & Hsok & _).
  destruct (read_page_at tree_id _ _ _ _ (mi_blocks _ _ _ _ _ _ Hm) (mi_holds _ _ _ _ _ _ Hm) _ _ _ Ho Hhok Hsok) as (Hrev & Hhdr & Hrec).
  destruct (at_slot_target tree_id Htid w P ent ob live d M f sl' _ e _ ho _ Hi Hat Ho) as [_ Hcase]. cbn [m_slot] in Hcase.
  pose proof Hat as (_ & _ & _ & _ & [(e2 & He2 & Hne2 & _) Hkn] & Hcur). rewrite Ho in Hkn. destruct Hkn as (ty & Ety & _).
  assert (Hleaf : e_is_leaf (sc_e s) = false) by by rewrite Ee, Ety.
  destruct (page_request s h Hleaf) as (c & Hc & Hsz); [|lia|].
  { rewrite Es. cbn [sc_cached sc_e]. intros ->. specialize (Hcur eq_refl). assert (e2 = e) as -> by congruence.
    pose proof (sh_child _ _ _ Hsh sl' e Hcur Hne2) as Hch. rewrite Ho in Hch. destruct Hch as (_ & Ee2 & _). rewrite Ee2.
    apply entry_node_type. unfold uint. lia. }
  set (p := page_at (w_mem w) (e_addr e) c).
  assert (Hph : pg_hdr p = h) by exact Hhdr.
  assert (Hprec : ∀ i ei, (i < c)%nat → ent (Slot (e_addr e) i) = Some ei → pg_records p !! i = Some ei).
  { intros i ei Hic Hei. unfold p. rewrite <- (page_at_take _ _ _ 256) by lia. rewrite lookup_take_lt by done.
    apply Hrec; [done|]. by eapply (sh_entry _ _ _ Hsh). }
  assert (Hstep : range_step from to s (fetched w s) ret
          = if negb ((h_depth h <=? Z.of_nat (length q) + 1) && (negb (from_cache ho) || gaddr_eqb (slot_ptr tree_id sl') (slot_ptr tree_id sl)))
            then l ← reread s; mret (l, ret)
            else l ← range_query_on_page p (sc_depth s) (sc_e s) (sc_from s) (sc_to s) (sc_l s) (sc_r s); mret (l, ret)).
  { unfold range_step, fetched. rewrite Hsz, Ee, page_of_load. fold p. unfold page_is_valid. rewrite Hph.
    change (pg_rev_ptr p) with (pg_rev_ptr (page_at (w_mem w) (e_addr e) 256)). rewrite Hrev.
    rewrite (proj2 (Z.eqb_neq (h_node_type h) NODE_DELETED)) by (unfold NODE_DELETED; lia).
    rewrite Ee in Hleaf. rewrite Hleaf. by rewrite Es. }
  rewrite Hstep. destruct Hcase as [(hd & -> & Hne)|(Heq & <- & e3 & He3 & Hne3 & Hp2 & Ha2 & _)].
  - rewrite Hne. cbn [from_cache negb orb]. rewrite andb_false_r. cbn [negb].
    destruct (reread_ok n w s q hd ret Hi Hs Hcov Hn ltac:(by rewrite Es)) as (l & c' & Hr & Hst). exists l, ret, c'. by rewrite run_bind, Hr.
  - rewrite <- Ha2 in Ho. destruct (shape_node_path P ent ob Hsh _ _ _ _ He3 Hne3 Ho) as (_ & _ & Hlen).
    pose proof (sh_child _ _ _ Hsh sl e3 He3 Hne3) as Hch. rewrite Ho in Hch. destruct Hch as (_ & _ & Hsp).
    rewrite (spath_partial P sl e e3 Hp2), <- Hq in Hlen, Hsp. rewrite Ha2 in Ho, Hsp.
    rewrite Heq, (proj2 (Z.leb_le _ _)) by lia. cbn [andb negb].
    destruct (node_here n w s q ret h sl p c Hi Hs Hcov Hn) as (l & c' & Hr & Hst); rewrite ?Ee; try done.
    rewrite Ee in Hr. exists l, ret, c'. by rewrite Hr.
Qed.

Lemma range_step_warm n w s ret :
  tree_inv tree_id w P ent ob live d M → pending (S n) w s → (0 < cache_room (w_cache w))%nat →
  ∃ l ret' c, run (range_step from to s (fetched w s) ret) w = Ok ((l, ret'), set_cache c w) ∧ stepped n w ret l ret' c.
Proof using Htid Hright.
  intros Hi (q & Hs & Hcov & Hn) Hroom. pose proof Hs as (sl & e & l & r & f & t & ho & Es & _ & Hat & _).
  assert (sc_e s = e) as Ee by by rewrite Es. destruct Hat as (_ & _ & _ & _ & [_ Hkn] & _). rewrite <- Ee in Hkn.
  destruct (ob (e_addr (sc_e s))) as [[sl' h|sl' k v]|] eqn:Ho; [by eapply node_warm|by eapply leaf_warm|done].
Qed.

(** ** One level *)
Lemma range_steps_warm n l : ∀ w acc ret,
  tree_inv tree_id w P ent ob live d M → Forall (pending (S n) w) l → Forall (pending n w) acc → (length l ≤ cache_room (w_cache w))%nat →
  ∃ l' ret' c, run (range_steps from to (zip l (fetched w <$> l)) acc ret) w = Ok ((l', ret'), set_cache c w) ∧
    cache_after (cached P ent ob) (length l) (w_cache w) c ∧ Forall (pending n (set_cache c w)) l' ∧ adds ret ret'.
Proof using Htid Hright.
  induction l as [|s l IH]; intros w acc ret Hi Hl Hacc Hroom.
  { exists acc, ret, (w_cache w). split; [by destruct w|]. split; [apply cache_after_refl, Hi|]. split; [by destruct w|apply adds_refl]. }
  apply Forall_cons in Hl as [Hs Hl]. cbn [length] in Hroom.
  destruct (range_step_warm n w s ret Hi Hs) as (l1 & r1 & c1 & Hr1 & Hafter1 & Hl1 & Ha1); [lia|]. pose proof Hafter1 as (_ & Hroom1 & _).
  destruct (IH (set_cache c1 w) (acc ++ l1) r1) as (l2 & r2 & c2 & Hr2 & Hafter2 & Hl2 & Ha2).
  { by eapply tree_inv_cache. }
  { eapply Forall_impl; [exact Hl|]. intros s' Hs'. by eapply pending_after. }
  { apply Forall_app. split; [|done]. eapply Forall_impl; [exact Hacc|]. intros s' Hs'. by eapply pending_after. }
  { cbn. lia. }
  exists l2, r2, c2. split; [|split; [exact (cache_after_trans _ 1 _ _ _ _ Hafter1 Hafter2)|split; [done|by eapply adds_trans]]].
  cbn [fmap list_fmap zip zip_with range_steps]. by rewrite run_bind, Hr1.
Qed.

(** *** The requests *)

(** The address of an object of the tree. *)
Definition object_token (t : Z) : Prop := ∃ q, token_path P ob t q.

Lemma pending_token n w s : tree_inv tree_id w P ent ob live d M → pending n w s → object_token (gaddr_val (e_addr (sc_e s))).
Proof using.
  intros Hi (q & (sl & e & l & r & f & t & ho & -> & _ & Hat & _) & _). cbn [sc_e].
  destruct Hat as (_ & _ & _ & _ & [_ Hkn] & _). destruct (ob (e_addr e)) as [m|] eqn:Ho; [|done].
  pose proof (ti_mem _ _ _ _ _ _ _ _ Hi) as Hm.
  destruct (obj_place tree_id _ _ _ _ (mi_blocks _ _ _ _ _ _ Hm) (mi_holds _ _ _ _ _ _ Hm) _ _ Ho) as (Hok & _).
  exists (full_path P (e_addr e) m), (e_addr e), m. done.
Qed.

Lemma object_tokens_bound w tokens :
  tree_inv tree_id w P ent ob live d M → NoDup tokens → Forall object_token tokens → (length tokens ≤ 9 * size M)%nat.
Proof using.
  intros Hi Hnd Hobj. pose proof (ti_shape _ _ _ _ _ _ _ _ Hi) as Hs. rewrite <- key_parts_length.
  apply (length_inject (token_path P ob)); [done| |intros t t' q; by apply (token_path_inj P ent)].
  intros t Ht. rewrite Forall_forall in Hobj. destruct (Hobj t Ht) as (q & a & m & Ha & Hok & -> & ->).
  exists (full_path P a m). split; [|by exists a, m]. by eapply full_path_part.
Qed.

(** What is asked for: every address once in a query. *)
Lemma new_requests_warm n w l : ∀ tokens,
  tree_inv tree_id w P ent ob live d M → Forall (pending n w) l → NoDup tokens → Forall object_token tokens →
  ∃ l' tokens', new_requests l tokens = (l', tokens') ∧ Forall (pending n w) l' ∧ NoDup tokens' ∧ Forall object_token tokens' ∧
    length tokens' = (length l' + length tokens)%nat.
Proof using.
  induction l as [|s l IH]; intros tokens Hi Hl Hnd Hobj; cbn [new_requests]; [by exists [], tokens|].
  apply Forall_cons in Hl as [Hs Hl]. set (t := gaddr_val (e_addr (sc_e s))). destruct (existsb (Z.eqb t) tokens) eqn:E; [by apply IH|].
  destruct (IH (t :: tokens) Hi Hl) as (l' & tokens' & -> & Hl' & Hnd' & Hobj' & Hlen).
  { constructor; [|done]. intros Ht. assert (existsb (Z.eqb t) tokens = true); [|congruence]. apply existsb_exists. exists t.
    split; [by apply list_elem_of_In|apply Z.eqb_refl]. }
  { constructor; [by eapply pending_token|done]. }
  exists (s :: l'), tokens'. split; [done|]. split; [by constructor|]. split; [done|]. split; [done|]. cbn [length] in *. lia.
Qed.

(** *** The loop *)
Record running (n : nat) (w : world) (l : list (ScanContext handle)) (tokens : list Z) : Prop := {
  rn_inv : tree_inv tree_id w P ent ob live d M;
  rn_pending : Forall (pending n w) l;
  rn_once : NoDup tokens;
  rn_objects : Forall object_token tokens;
  rn_room : (9 * size M ≤ length tokens + cache_room (w_cache w))%nat
}.

(** A level is read and leaves entries that are closer to the leaves; or its
    addresses have all been read before, and there is nothing to poll for. *)
Lemma next_level_warm n w l tokens ret :
  running (S n) w l tokens → l ≠ [] →
  run (next_level from to (l, tokens, ret)) w = Fail EUndef ∨
  ∃ l' tokens' ret' c, run (next_level from to (l, tokens, ret)) w = Ok (Again (l', tokens', ret'), set_cache c w) ∧
    running n (set_cache c w) l' tokens' ∧ adds ret ret'.
Proof using Htid Hright.
  intros [Hi Hl Hnd Hobj Hroom] Hne. destruct (new_requests_warm (S n) w l tokens Hi Hl Hnd Hobj) as (si & tokens' & Er & Hsi & Hnd' & Hobj' & Hlen).
  pose proof (object_tokens_bound w tokens' Hi Hnd' Hobj') as Hbound.
  assert (E : next_level from to (l, tokens, ret) =
            (bss ← read_batches_sync si; '(survivors, ret) ← range_steps from to (zip si bss) [] ret : proc world (list (ScanContext handle) * gmap Key Z);
             mret (Again (survivors, tokens', ret)))).
  { unfold next_level. destruct l; [done|]. by rewrite Er. }
  rewrite E. destruct (decide (si = [])) as [->|Hsne]; [by left|right].
  destruct (range_steps_warm n si w [] ret Hi Hsi) as (l' & ret' & c & Hr & Hafter & Hl' & Ha); [constructor|lia|].
  exists l', tokens', ret', c. split; [by rewrite run_bind, run_read_batches, run_bind, Hr|]. split; [|done].
  destruct Hafter as (? & ? & ?). split; [by eapply tree_inv_cache|done|done|done|cbn; lia].
Qed.

Lemma range_loop_warm n : ∀ f w l tokens ret,
  (n < f)%nat → running n w l tokens →
  run (loop f (next_level from to) (l, tokens, ret)) w = Fail EUndef ∨
  ∃ ret' c, run (loop f (next_level from to) (l, tokens, ret)) w = Ok (ret', set_cache c w) ∧
    tree_inv tree_id (set_cache c w) P ent ob live d M ∧ adds ret ret'.
Proof using Htid Hright.
  induction n as [|n IH]; intros f w l tokens ret Hf Hrn; (destruct f as [|f]; [lia|]).
  all: destruct (decide (l = [])) as [->|Hne].
  1, 3: right; exists ret, (w_cache w); split; [rewrite (run_loop f _ _ w (Done ret) w) by done; by destruct w|];
    split; [destruct w; apply Hrn|apply adds_refl].
  - destruct l as [|s l]; [done|]. pose proof (rn_pending _ _ _ _ Hrn) as Hl. apply Forall_cons in Hl as [Hs _].
    apply pending_pos in Hs. lia.
  - destruct (next_level_warm n w l tokens ret Hrn Hne) as [E|(l' & tokens' & r1 & c & Hr & Hrn' & Ha)].
    { left. cbn [loop]. by rewrite run_bind, E. }
    rewrite (run_loop f _ _ _ _ _ Hr). destruct (IH f (set_cache c w) l' tokens' r1) as [E|(r2 & c2 & Hr2 & Hi2 & Ha2)]; [lia|done|by left|right].
    exists r2, c2. split; [exact Hr2|]. split; [exact Hi2|]. by eapply adds_trans.
Qed.
End warm.

(** ** Records that are up to date *)

(** No path leads to a part of what another one leads to. *)
Definition unnested (qs : list (list byte)) : Prop := ∀ q q', q ∈ qs → q' ∈ qs → q `prefix_of` q' → q = q'.

Section up_to_date.
Context `{Checksum} `{IndexCacheLaws} {others : Others} (tree_id : Z) (Htid : tree_id_ok tree_id).
Context (from to to1 : Key) (Hright : ∀ x, in_range from to x → ¬ beyond Gt to1 x).
Context (P : GlobalAddress → list byte) (ent : slot → option InternalEntry) (ob : GlobalAddress → option meta).
Context (live : block_list) (d : Directory) (M : gmap Key Z).
#[local] Abbreviation current := (current tree_id from to1 0 P ent).

Lemma spath_inj sl sl' e e' :
  shape P ent ob → ent sl = Some e → ent sl' = Some e' → e ≠ entry_Null → e' ≠ entry_Null → spath P sl e = spath P sl' e' → sl = sl'.
Proof using.
  intros Hs He He' Hne Hne' E. destruct sl as [|a i], sl' as [|a' i']; cbn in E; [done|by destruct (P a')|by destruct (P a)|].
  apply app_inj_tail in E as [EP Ep]. destruct (shape_slot_node P ent ob Hs _ _ _ He) as (s & h & Ha).
  destruct (shape_slot_node P ent ob Hs _ _ _ He') as (s' & h' & Ha'). assert (a = a') as -> by (by eapply (sh_node_inj _ _ _ Hs)).
  f_equal. by eapply (sh_uniq _ _ _ Hs a').
Qed.

Lemma current_token s s' q : shape P ent ob → current s q → current s' q → e_addr (sc_e s) = e_addr (sc_e s').
Proof using.
  intros Hs (ho & sl & e & l & r & f & t & -> & He & Hne & Hq & _) (ho' & sl' & e' & l' & r' & f' & t' & -> & He' & Hne' & Hq' & _).
  cbn [sc_e]. assert (sl = sl') as <- by (eapply spath_inj; [done..|congruence]). congruence.
Qed.

(** Entries that are given several times are asked for once. *)
Lemma new_requests_once w l : ∀ tokens qs,
  tree_inv tree_id w P ent ob live d M → Forall2 current l qs → unnested qs →
  ∃ l' qs' tokens', new_requests l tokens = (l', tokens') ∧ new_requests l' tokens = (l', tokens') ∧
    Forall2 current l' qs' ∧ antichain qs' ∧ (∀ q, q ∈ qs' → q ∈ qs) ∧
    (∀ q, q ∈ qs → q ∈ qs' ∨ ∃ t, t ∈ tokens ∧ token P ent t q) ∧ (∀ s, s ∈ l' → gaddr_val (e_addr (sc_e s)) ∉ tokens).
Proof using.
  induction l as [|s l IH]; intros tokens qs Hi Hl Hun.
  { apply Forall2_nil_inv_l in Hl as ->. exists [], [], tokens. do 2 (split; [done|]). split; [constructor|]. split; [constructor|].
    split; [done|]. split; [intros q ?%elem_of_nil; done|]. by intros s ?%elem_of_nil. }
  apply Forall2_cons_inv_l in Hl as (q & qs0 & Hs & Hl & ->). pose proof (ti_shape _ _ _ _ _ _ _ _ Hi) as Hsh.
  assert (Hun0 : unnested qs0) by (intros q1 q2 Hq1 Hq2; apply Hun; by right).
  pose proof (token_surv tree_id from to1 0 P ent s q Hs) as Hts. set (t := gaddr_val (e_addr (sc_e s))) in *.
  destruct (existsb (Z.eqb t) tokens) eqn:E.
  - destruct (IH tokens qs0 Hi Hl Hun0) as (l' & qs' & tokens' & E1 & E2 & Hl' & Ha & Hin & Hcov & Hno).
    exists l', qs', tokens'. cbn [new_requests]. fold t. rewrite E. do 4 (split; [done|]). split; [intros q0 Hq0; right; by apply Hin|].
    split; [|done]. intros q0 [->|Hq0]%elem_of_cons; [right|by apply Hcov]. apply existsb_exists in E as (t' & Ht'%list_elem_of_In & ->%Z.eqb_eq).
    by exists t'.
  - destruct (IH (t :: tokens) qs0 Hi Hl Hun0) as (l' & qs' & tokens' & E1 & E2 & Hl' & Ha & Hin & Hcov & Hno).
    exists (s :: l'), (q :: qs'), tokens'. cbn [new_requests]. fold t. rewrite E, E1, E2. do 2 (split; [done|]). split; [by constructor|].
    assert (Hq' : q ∉ qs').
    { intros Hq. apply list_elem_of_lookup in Hq as [i Hi']. destruct (Forall2_lookup_r _ _ _ _ _ Hl' Hi') as (s' & Hs' & Hc').
      apply (Hno s'); [by eapply list_elem_of_lookup_2|]. rewrite <- (current_token s s' q Hsh Hs Hc'). by left. }
    split.
    { constructor; [|exact Ha]. apply List.Forall_forall. intros q0 Hq0%list_elem_of_In. pose proof (Hin q0 Hq0) as Hq0s.
      split; intros Hp; destruct Hq'; [rewrite (Hun q q0)|rewrite <- (Hun q0 q)]; try done; by (left || right). }
    split; [intros q0 [->|Hq0]%elem_of_cons; [by left|right; by apply Hin]|]. split.
    + intros q0 [->|Hq0]%elem_of_cons; [left; by left|]. destruct (Hcov q0 Hq0) as [?|(t0 & [->|Ht0]%elem_of_cons & Htq)].
      * left. by right.
      * assert (q0 = q) as -> by (by eapply token_inj). left. by left.
      * right. by exists t0.
    + intros s0 [->|Hs0]%elem_of_cons Hin0.
      * enough (existsb (Z.eqb t) tokens = true) by congruence. apply existsb_exists. exists t. split; [by apply list_elem_of_In|apply Z.eqb_refl].
      * apply (Hno s0 Hs0). by right.
Qed.

(** Then the query finds everything below them. *)
Lemma range_loop_current f w l qs ret :
  tree_inv tree_id w P ent ob live d M → Forall2 current l qs → unnested qs → (10 ≤ f)%nat → (9 * size M ≤ cache_room (w_cache w))%nat →
  ∃ ret' c, run (loop f (next_level from to) (l, [], ret)) w = Ok (ret', set_cache c w) ∧
    done_or_below from to M (covered qs) [] ret'.
Proof using Htid Hright.
  intros Hi Hl Hun Hf Hroom. destruct (new_requests_once w l [] qs Hi Hl Hun) as (l' & qs' & tokens' & E1 & E2 & Hl' & Ha & Hin & Hcov & _).
  assert (Hsame : ∀ q, q ∈ qs → q ∈ qs') by (intros q Hq; by destruct (Hcov q Hq) as [?|(t & ?%elem_of_nil & _)]).
  assert (E : loop f (next_level from to) (l, [], ret) = loop f (next_level from to) (l', [], ret)).
  { destruct f as [|f]; [lia|]. cbn [loop]. f_equal. unfold next_level. destruct l as [|s l]; [by injection E1 as <- _|].
    destruct l' as [|s' l']; [|by rewrite E1, E2]. apply Forall2_nil_inv_l in Hl' as ->. apply Forall2_cons_inv_l in Hl as (q & qs0 & _ & _ & ->).
    exfalso. apply (elem_of_nil q), Hsame. by left. }
  destruct (range_loop_run tree_id Htid from to to1 0 Hright P ent ob live d M 9 f w qs' l' [] ret) as (ret' & c & Hr & _ & _ & _ & Hd);
    [lia|lia| |].
  { split; [done|done|done| |cbn; lia]. split; [constructor|]. by intros t ?%elem_of_nil. }
  exists ret', c. split; [by rewrite E|]. intros x v Hx Hx' (q & Hq & Hp). apply (Hd x v Hx Hx'). exists q. split; [by apply Hsame|done].
Qed.
End up_to_date.

(** ** The records of the cache *)

(** An end of the range, cut to the keys below a record: [q] leads to the
    record, [k] is a key of the range below it, [lo] the first one below it. *)
Lemma edge_left from lo k q :
  key_ok from → key_ok lo → key_ok k → q `prefix_of` lo → q `prefix_of` k → key2int lo <= key2int k → key2int from <= key2int k →
  edge from (if key_leb lo from then BORDER else INSIDE) (key_max lo from) q.
Proof.
  intros Hf Hl Hk Hql Hqk Hlk Hfk. unfold key_max. rewrite key_leb_int, key_ltb_int by done.
  destruct (Z.leb_spec (key2int lo) (key2int from)) as [Hle|Hgt]; [|rewrite (proj2 (Z.ltb_ge _ _)) by lia; by split_and!].
  assert ((if key2int lo <? key2int from then from else lo) = from) as ->.
  { destruct (Z.ltb_spec (key2int lo) (key2int from)); [done|]. apply key2int_inj; [done..|lia]. }
  split; [done|]. split; [done|]. split; [|done].
  assert (take (length q) from = take (length q) lo) as E.
  { apply (between_prefix _ lo k); [by rewrite (proj1 Hl), (proj1 Hf)|by rewrite (proj1 Hk), (proj1 Hf)|..].
    - rewrite key_ltb_int by done. apply Z.ltb_ge. lia.
    - rewrite key_ltb_int by done. apply Z.ltb_ge. lia.
    - destruct Hql as [r ->], Hqk as [r' ->]. by rewrite !take_app_length. }
  by eapply prefix_agree.
Qed.

Lemma edge_right to1 hi k q :
  key_ok to1 → key_ok hi → key_ok k → q `prefix_of` hi → q `prefix_of` k → key2int k <= key2int hi → key2int k <= key2int to1 →
  edge to1 (if key_leb to1 hi then BORDER else INSIDE) (key_min hi to1) q.
Proof.
  intros Ht Hh Hk Hqh Hqk Hkh Hkt. unfold key_min. rewrite key_leb_int, key_ltb_int by done.
  destruct (Z.leb_spec (key2int to1) (key2int hi)) as [Hle|Hgt]; [|rewrite (proj2 (Z.ltb_ge _ _)) by lia; by split_and!].
  assert ((if key2int to1 <? key2int hi then to1 else hi) = to1) as ->.
  { destruct (Z.ltb_spec (key2int to1) (key2int hi)); [done|]. apply key2int_inj; [done..|lia]. }
  split; [done|]. split; [done|]. split; [|done].
  assert (take (length q) to1 = take (length q) k) as E.
  { apply (between_prefix _ k hi); [by rewrite (proj1 Hk), (proj1 Ht)|by rewrite (proj1 Hh), (proj1 Ht)|..].
    - rewrite key_ltb_int by done. apply Z.ltb_ge. lia.
    - rewrite key_ltb_int by done. apply Z.ltb_ge. lia.
    - destruct Hqh as [r ->], Hqk as [r' ->]. by rewrite !take_app_length. }
  by eapply prefix_agree.
Qed.

(** The keys below a record: one key for a leaf, those with its bytes for a node. *)
Lemma record_ends k q (b : bool) :
  key_ok k → q `prefix_of` k →
  ∃ lo hi, (if b then Ok k else get_leftmost k (Z.of_nat (length q))) = Ok lo ∧
    (if b then Ok k else get_rightmost k (Z.of_nat (length q))) = Ok hi ∧ key_ok lo ∧ key_ok hi ∧
    q `prefix_of` lo ∧ q `prefix_of` hi ∧ key2int lo <= key2int k <= key2int hi.
Proof.
  intros Hk Hq. destruct b; [exists k, k; by split_and!; try lia|].
  assert (Z.of_nat (length q) <= keyLen) as Hlen.
  { apply prefix_length in Hq. destruct Hk as [Hk _]. rewrite Hk in Hq. unfold keyLen. change klen with 8%nat in Hq. lia. }
  destruct (leftmost_rightmost_interval k (Z.of_nat (length q)) k Hk Hk) as (lo & hi & Elo & Ehi & Hlo & Hhi & Hin); [lia|].
  destruct (proj1 Hin eq_refl) as [H1 H2]. rewrite key_leb_int in H1, H2 by done. apply Z.leb_le in H1, H2.
  exists lo, hi. rewrite get_leftmost_ok in Elo by (done || lia). rewrite get_rightmost_ok in Ehi by (done || lia). rewrite Nat2Z.id in Elo, Ehi.
  assert (take (length q) k = q) as Htk by (destruct Hq as [r ->]; apply take_app_length). rewrite Htk in Elo, Ehi.
  rewrite get_leftmost_ok, get_rightmost_ok, Nat2Z.id, Htk by (done || lia). split; [done|]. split; [done|]. split; [done|]. split; [done|].
  injection Elo as <-. injection Ehi as <-. split_and!; [by apply prefix_app_r..|done|done].
Qed.

Section records.
Context `{Checksum} `{IndexCacheLaws} {others : Others} (tree_id : Z) (Htid : tree_id_ok tree_id).
Context (from to to1 : Key) (Hfrom : key_ok from) (Hto : key_ok to) (Hto1 : key_ok to1) (Hval : key2int to1 = key2int to - 1).
Context (P : GlobalAddress → list byte) (ent : slot → option InternalEntry) (ob : GlobalAddress → option meta).
Context (live : block_list) (d : Directory) (M : gmap Key Z).

(** The path of a record. *)
Definition record_path (rc : RangeCache handle) : list byte := take (Z.to_nat (rc_depth rc)) (rc_from rc).

(** What the query makes of a record. *)
Definition given (w : world) (rc : RangeCache handle) : Prop :=
  held tree_id from to1 P ent ob w (of_range_cache from to1 rc) (record_path rc) ∧ (1 ≤ length (record_path rc))%nat.

Lemma found_given w k h ce i :
  tree_inv tree_id w P ent ob live d M → found_entry (cached P ent ob) k ce i → handle_ok h (w_cache w) → key_ok k →
  key2int from <= key2int k < key2int to →
  ∃ rc, (check (0 <=? i) ;; p ← idx_ (ce_records ce) i;
         leftmost ← (if e_is_leaf p then Ok k else get_leftmost k (ce_depth ce));
         rightmost ← (if e_is_leaf p then Ok k else get_rightmost k (ce_depth ce));
         Ok [RC leftmost rightmost (GADD (ce_addr ce) (8 * i)) p (ce_depth ce) h]) = Ok [rc] ∧ given w rc.
Proof using Hfrom Hto1 Hval.
  intros Hi (k0 & p & e & path & HF & _ & Hpath & Hi0 & Hp & Hin & Hce & Hne & Hd & Hpre) Hh Hk Hrange.
  destruct HF as (a & s & hd & Ha & Haddr & Hkey & Hrec). rewrite Hpath in Hkey. injection Hkey as ->.
  set (q := P a ++ [e_partial e]) in *. assert (ce_depth ce = Z.of_nat (length q)) as Hq by (unfold q; rewrite length_app; cbn; lia).
  destruct (record_ends k q (e_is_leaf e) Hk Hpre) as (lo & hi & Elo & Ehi & Hlo & Hhi & Hqlo & Hqhi & Hkk).
  assert (take (length q) lo = q) as Htk by (destruct Hqlo as [r ->]; apply take_app_length).
  exists (RC lo hi (GADD (ce_addr ce) (8 * i)) e (ce_depth ce) h). split.
  { rewrite (proj2 (Z.leb_le 0 i)) by done. cbn [check mbind res_bind]. rewrite (proj2 (idx_Ok _ i e)) by done. cbn [mbind res_bind].
    by rewrite Hq, Elo, Ehi. }
  unfold given, record_path. cbn [rc_depth rc_from]. rewrite Hq, Nat2Z.id, Htk. split; [|unfold q; rewrite length_app; cbn; lia].
  pose proof (edge_left from lo k q Hfrom Hlo Hk Hqlo Hpre ltac:(lia) ltac:(lia)) as Hl.
  pose proof (edge_right to1 hi k q Hto1 Hhi Hk Hqhi Hpre ltac:(lia) ltac:(lia)) as Hr.
  exists (Slot a (Z.to_nat i)), e. do 4 eexists. exists (Some h). unfold of_range_cache. cbn [rc_e rc_e_ptr rc_depth rc_handle rc_from rc_to].
  split; [|split; [done|split; [|split; [exact Hl|exact Hr]]]].
  - rewrite Haddr, GADD_GADD. cbn [slot_ptr]. rewrite Z2Nat.id by done. f_equal. f_equal. lia.
  - split; [done|]. split; [apply Hl|]. split; [done|]. split; [done|]. split; [|done]. by apply (Hrec (Z.to_nat i)); [|lia|].
Qed.

(** The records for the keys from [k] on. *)
Lemma search_range_warm steps : ∀ k w,
  tree_inv tree_id w P ent ob live d M → key_ok k → key2int from <= key2int k → (0 < steps)%nat → key2int to - key2int k < Z.of_nat steps →
  ∃ rcs c, run (search_range_from_cache steps k to) (w_cache w) = Ok (rcs, c) ∧
    cache_after (cached P ent ob) 0 (w_cache w) c ∧ Forall (given (set_cache c w)) rcs.
Proof using Hfrom Hto Hto1 Hval.
  induction steps as [|steps IH]; intros k w Hi Hk Hfk H0' Hsteps; [lia|]. pose proof (key2int_range _ Hk). pose proof (key2int_range _ Hto).
  cbn [search_range_from_cache]. rewrite key_ltb_int by done. destruct (Z.ltb_spec (key2int k) (key2int to)) as [Hlt|Hge].
  2: { exists [], (w_cache w). split; [done|]. split; [apply cache_after_refl, Hi|constructor]. }
  destruct (key_add_ok k 1 Hk) as [Hk1 E1]; [by vm_compute|]. unfold uint in *. rewrite Z.mod_small in E1 by lia.
  destruct (law_search _ k _ (ti_cache _ _ _ _ _ _ _ _ Hi) Hk) as (r & c1 & Hrun & Hc1 & Hroom1 & Hh1 & Hr).
  assert (Hafter1 : cache_after (cached P ent ob) 0 (w_cache w) c1) by by split_and!.
  pose proof (tree_inv_cache tree_id _ _ _ _ _ _ _ _ _ Hi Hafter1) as Hi1.
  destruct (IH (key_add k 1) (set_cache c1 w) Hi1 Hk1) as (l & c2 & Hrun2 & Hafter2 & Hl); [lia..|].
  pose proof (cache_after_trans _ 0 0 _ _ _ Hafter1 Hafter2) as Hafter.
  assert (Hl1 : ∀ x, given (set_cache c1 w) x → given (set_cache c2 w) x).
  { intros x [Hx Hlen]. split; [|done]. exact (held_after tree_id from to1 P ent ob 0 c2 (set_cache c1 w) _ _ Hx Hafter2). }
  change (w_cache (set_cache c1 w)) with c1 in Hrun2. rewrite run_bind, Hrun. destruct r as [[[h ce] i]|].
  - destruct Hr as [Hfe Hhc]. destruct (found_given (set_cache c1 w) k h ce i Hi1 Hfe Hhc Hk) as (rc & E & Hg); [lia|].
    exists (rc :: l), c2. rewrite run_bind, run_pure. cbv zeta. rewrite E, run_bind, Hrun2. split; [done|]. split; [done|].
    constructor; [by apply Hl1|exact Hl].
  - exists l, c2. rewrite run_bind, run_ret, run_bind, Hrun2. by split_and!.
Qed.

(** The entry that the cache has for the record is the one in memory. *)
Definition up_to_date (m : shared_mem) (rc : RangeCache handle) : Prop :=
  entry_of_val (load_word m (dsm_region (rc_e_ptr rc)) (offset (rc_e_ptr rc))) = rc_e rc.

Lemma given_current w rc :
  tree_inv tree_id w P ent ob live d M → given w rc → up_to_date (w_mem w) rc →
  current tree_id from to1 0 P ent (of_range_cache from to1 rc) (record_path rc).
Proof using.
  unfold up_to_date. intros Hi [(sl & e & l & r & f & t & ho & E & Hq & Hat & Hl & Hr) _]. pose proof E as E'.
  unfold of_range_cache in E'. injection E' as -> -> _ _ _ _ _ _. pose proof Hat as (_ & _ & _ & _ & [(e1 & He1 & Hne & _) _] & _).
  destruct (slot_region _ _ _ _ _ _ _ _ (ti_mem _ _ _ _ _ _ _ _ Hi) He1) as (Hreg & _ & Hw).
  rewrite Hreg, Hw, entry_of_val_val by (eapply (sh_entry _ _ _ (ti_shape _ _ _ _ _ _ _ _ Hi)); exact He1). intros <-.
  exists ho, sl, e1, l, r, f, t. rewrite E. split_and!; try done. lia.
Qed.

(** With records from the cache, the query starts from these. *)
Lemma range_query_cached fuel steps w ret rcs c1 :
  key_sub to 1 = Ok to1 → key2int from < key2int to →
  run (search_range_from_cache steps from to) (w_cache w) = Ok (rcs, c1) → rcs ≠ [] →
  run (range_query tree_id fuel steps from to ret) w
  = run (loop fuel (next_level from to) (of_range_cache from to1 <$> rcs, [], ret)) (set_cache c1 w).
Proof using Hfrom Hto.
  intros Hsub Hlt Hrun Hne. unfold range_query. rewrite key_leb_int by done. rewrite (proj2 (Z.leb_gt _ _)) by lia.
  rewrite run_bind, (run_on_cache _ _ _ _ Hrun), (run_bind_pure _ _ _ _ Hsub). destruct rcs; [done|]. by rewrite run_bind, run_ret.
Qed.

(** It finds all that lies below records that are up to date. *)
Lemma range_query_current_run fuel steps w ret rcs c1 :
  tree_inv tree_id w P ent ob live d M → (∀ x, in_range from to x → ¬ beyond Gt to1 x) → key_sub to 1 = Ok to1 →
  key2int from < key2int to → key2int to - key2int from < Z.of_nat steps → (10 ≤ fuel)%nat → (9 * size M ≤ cache_room (w_cache w))%nat →
  run (search_range_from_cache steps from to) (w_cache w) = Ok (rcs, c1) → rcs ≠ [] →
  Forall (up_to_date (w_mem w)) rcs → unnested (record_path <$> rcs) →
  ∃ ret' c, run (range_query tree_id fuel steps from to ret) w = Ok (ret', set_cache c w) ∧
    done_or_below from to M (covered (record_path <$> rcs)) [] ret'.
Proof using Hfrom Hto Hto1 Hval Htid.
  intros Hi Hright Hsub Hlt Hsteps Hfuel Hroom Hrun Hne Hup Hun.
  destruct (search_range_warm steps from w Hi Hfrom) as (rcs' & c' & Hrun' & Hafter & Hg); [lia..|].
  rewrite Hrun in Hrun'. injection Hrun' as <- <-. pose proof (tree_inv_cache tree_id _ _ _ _ _ _ _ _ _ Hi Hafter) as Hi1.
  rewrite (range_query_cached _ _ _ _ _ _ Hsub Hlt Hrun Hne). destruct Hafter as (_ & Hroom1 & _).
  apply (range_loop_current tree_id Htid from to to1 Hright P ent ob live d M fuel (set_cache c1 w) _ (record_path <$> rcs)); [done| |done|done|cbn; lia].
  apply Forall2_fmap, Forall_Forall2_diag, Forall_forall. intros rc Hrc. rewrite Forall_forall in Hg, Hup.
  by eapply given_current; [|apply Hg|apply Hup].
Qed.

(** In any case it follows these records alone. *)
Lemma range_query_warm_run fuel steps w ret rcs c1 :
  tree_inv tree_id w P ent ob live d M → (∀ x, in_range from to x → ¬ beyond Gt to1 x) → key_sub to 1 = Ok to1 →
  key2int from < key2int to → key2int to - key2int from < Z.of_nat steps → (10 ≤ fuel)%nat → (9 * size M ≤ cache_room (w_cache w))%nat →
  run (search_range_from_cache steps from to) (w_cache w) = Ok (rcs, c1) → rcs ≠ [] →
  run (range_query tree_id fuel steps from to ret) w = Fail EUndef ∨
  ∃ ret' c, run (range_query tree_id fuel steps from to ret) w = Ok (ret', set_cache c w) ∧
    tree_inv tree_id (set_cache c w) P ent ob live d M ∧ adds from to M (record_path <$> rcs) ret ret'.
Proof using Hfrom Hto Hto1 Hval Htid.
  intros Hi Hright Hsub Hlt Hsteps Hfuel Hroom Hrun Hne.
  destruct (search_range_warm steps from w Hi Hfrom) as (rcs' & c' & Hrun' & Hafter & Hg); [lia..|].
  rewrite Hrun in Hrun'. injection Hrun' as <- <-. pose proof (tree_inv_cache tree_id _ _ _ _ _ _ _ _ _ Hi Hafter) as Hi1.
  rewrite (range_query_cached _ _ _ _ _ _ Hsub Hlt Hrun Hne).
  destruct (range_loop_warm tree_id Htid from to to1 Hright P ent ob live d M (record_path <$> rcs) 9 fuel (set_cache c1 w)
              (of_range_cache from to1 <$> rcs) [] ret) as [?|(ret' & c & Hr & Hi' & Ha)]; [lia| |by left|right; by exists ret', c].
  destruct Hafter as (_ & Hroom1 & _). split; [done| |constructor|constructor|cbn; lia].
  apply Forall_fmap, Forall_forall. intros rc Hrc. rewrite Forall_forall in Hg. destruct (Hg rc Hrc) as [Hheld Hlen].
  exists (record_path rc). split; [done|]. split; [exists (record_path rc); split; [by apply list_elem_of_fmap_2|done]|].
  unfold levels. cbn [sc_cached of_range_cache from_cache]. lia.
Qed.
End records.
