(* ===== verification/TreeCluster.v ===== *)
(** * The tree as a finite map

    Several clients, each with its allocator, its lock table and its index
    cache, share the memory that holds the tree. Whatever sequence of operations
    they perform, one after the other, the tree behaves as a finite map, although
    no client learns of the changes that the others make to what it has cached. *)

From Stdlib Require Import ZArith Lia Bool.
From stdpp Require Import base tactics decidable option numbers functions list gmap.
From S2P Require Import Prelude.
From S2P Require Import Common.
From S2P Require Import Keys.
From S2P Require Import Address.
From S2P Require Import Nodes.
From S2P Require Import Allocators.
From S2P Require Import Memory.
From S2P Require Import Process.
From S2P Require Import LockTable.
From S2P Require Import IndexCache.
From S2P Require Import Tree.
From S2P Require Import TreeSearch.
From S2P Require Import TreeShape.
From S2P Require Import TreeHeap.
From S2P Require Import TreeState.
From S2P Require Import TreeWrite.
From S2P Require Import TreeInsert.
From S2P Require Import TreeRounds.
From S2P Require Import TreeOps.
From S2P Require Import TreeRange.
From S2P Require Import TreeWarm.

Lemma heap_inv_perm d ts ts' live : ts ≡ₚ ts' → heap_inv (Heap d ts live) → heap_inv (Heap d ts' live).
Proof.
  intros Hp [H1 H2 H3 H4 H5]. cbn in *. split; cbn; [done|done|by rewrite <- Hp|done|].
  intros x. specialize (H5 x). unfold owned in *. cbn in *. by rewrite <- (sum_of_perm _ _ _ Hp).
Qed.

Lemma delete_insert_same {A} (l : list A) i x : delete i (<[i := x]> l) = delete i l.
Proof. revert i. induction l as [|y l IH]; intros [|i]; cbn; [done..|]. f_equal. apply IH. Qed.

(** No thread has a chunk at first. *)
Lemma heap_inv_new size d ids :
  kChunkSize <= size < 2 ^ 48 → directory_new size 0 0 = Ok d → Forall (λ '(n, t), 0 <= n ∧ 0 <= t) ids →
  heap_inv (Heap d ((λ '(n, t), thread_new n t) <$> ids) []).
Proof.
  intros Hs Hd Hids. pose proof (heap_inv_init size 0 0 d Hs ltac:(lia) Hd) as [H1 H2 _ H4 H5]. cbn in *.
  split; cbn; [done|done| |done|].
  - apply Forall_fmap. eapply Forall_impl; [exact Hids|]. intros [n t] [Hn Ht]. by apply thread_new_ok.
  - intros x. specialize (H5 x). unfold owned in *. cbn in *. clear Hids.
    assert (sum_of (thread_cover x) ((λ '(n, t), thread_new n t) <$> ids) = 0) as ->; [|done].
    induction ids as [|[n t] ids IH]; [done|]. unfold sum_of in *. cbn. by rewrite IH.
Qed.

(** ** Clients *)
Section cluster.
Context `{Checksum} `{IndexCacheLaws} (CityHash64 : list byte → Z) (tree_id : Z).

Record client : Type := Client { c_alloc : alloc_thread; c_locks : lock_table; c_cache : cache; c_stale : nat → list byte }.

Record cluster : Type := Cluster { g_mem : shared_mem; g_dirs : list (list Directory); g_clients : list client }.

Definition world_of (g : cluster) (c : client) : world :=
  World (g_mem g) (c_alloc c) (g_dirs g) (c_locks c) (c_cache c) (c_stale c).

Definition client_of (w : world) : client := Client (w_alloc w) (w_locks w) (w_cache w) (w_stale w).

(** An operation of client [i]. *)
Definition on_client {A} (i : nat) (p : proc world A) (g : cluster) : res (A * cluster) :=
  match g_clients g !! i with
  | Some c => '(a, w) ← run p (world_of g c); Ok (a, Cluster (w_mem w) (w_dirs w) (<[i := client_of w]> (g_clients g)))
  | None => Fail EAssert
  end.

Lemma on_client_other {A} i j (p : proc world A) g x g' :
  on_client i p g = Ok (x, g') → i ≠ j → g_clients g' !! j = g_clients g !! j.
Proof.
  unfold on_client. destruct (g_clients g !! i) as [c|]; [|done]. destruct (run p (world_of g c)) as [[a w]|]; [|done].
  intros [= _ <-] Hij. cbn. by rewrite list_lookup_insert_ne.
Qed.

Inductive tree_op : Set :=
  | TInsert (k : Key) (v : Z) (is_load : bool)
  | TSearch (k : Key) (v : Z).

(** A history: the answers of the searches. *)
Fixpoint history (fuel : nat) (ops : list (nat * tree_op)) (g : cluster) : res (list (bool * Z) * cluster) :=
  match ops with
  | [] => Ok ([], g)
  | (i, TInsert k v is_load) :: ops =>
    '(_, g) ← on_client i (insert CityHash64 tree_id fuel k v is_load) g; history fuel ops g
  | (i, TSearch k v) :: ops =>
    '(r, g) ← on_client i (search CityHash64 tree_id fuel k v) g; '(rs, g) ← history fuel ops g; Ok (r :: rs, g)
  end.

(** The history on a finite map. *)
Fixpoint history_map (M : gmap Key Z) (ops : list (nat * tree_op)) : list (bool * Z) * gmap Key Z :=
  match ops with
  | [] => ([], M)
  | (_, TInsert k v is_load) :: ops => history_map (inserted is_load k v M) ops
  | (_, TSearch k v) :: ops => let '(rs, M') := history_map M ops in (answer M k v :: rs, M')
  end.

(** The clients exist, keys and values are in range, and the first operation
    on an empty tree is an insertion. *)
Fixpoint history_ok (n : nat) (empty : bool) (ops : list (nat * tree_op)) : Prop :=
  match ops with
  | [] => True
  | (i, TInsert k v _) :: ops => (i < n)%nat ∧ key_ok k ∧ uint 64 v ∧ history_ok n false ops
  | (i, TSearch k v) :: ops => (i < n)%nat ∧ empty = false ∧ key_ok k ∧ history_ok n false ops
  end.

(** ** The invariant *)
Record client_ok (P : GlobalAddress → list byte) (ent : slot → option InternalEntry) (ob : GlobalAddress → option meta) (c : client) : Prop := {
  co_idle i : node_idle (c_locks c i);
  co_cache : cache_inv (cached P ent ob) (c_cache c);
  co_stale i : length (c_stale c i) = 6%nat ∧ Forall is_byte (c_stale c i)
}.

Record cluster_at (g : cluster) (P : GlobalAddress → list byte) (ent : slot → option InternalEntry)
    (ob : GlobalAddress → option meta) (live : block_list) (d : Directory) (M : gmap Key Z) : Prop := {
  ca_shape : shape P ent ob;
  ca_map : leaf_map ob M;
  ca_forked : forked P ob;
  ca_holds : holds tree_id (g_mem g) ent ob live;
  ca_dirs : g_dirs g = [[d]];
  ca_heap : heap_inv (Heap d (c_alloc <$> g_clients g) live);
  ca_pos : Forall (λ b : GlobalAddress * Z, 0 < b.2) live;
  ca_clients : Forall (client_ok P ent ob) (g_clients g)
}.

(** The tree holds [M], and the clients are between operations. *)
Definition cluster_inv (g : cluster) (M : gmap Key Z) : Prop := ∃ P ent ob live d, cluster_at g P ent ob live d M.

(** Chunks of memory that no client has taken, and pages that the cache of a
    client takes for certain. *)
Definition chunks_left (g : cluster) : Z :=
  match g_dirs g with [[d]] => bitmap_len (chunckAlloc d) - bitmap_tail (chunckAlloc d) | _ => 0 end.

Definition roomy (n : nat) (g : cluster) : Prop := Forall (λ c, n ≤ cache_room (c_cache c))%nat (g_clients g).

Lemma client_ok_grows P ent ob P' ent' ob' c : grows P ent ob P' ent' ob' → client_ok P ent ob c → client_ok P' ent' ob' c.
Proof. intros Hg [Hi Hc Hs]. split; [done| |done]. eapply law_mono; [|exact Hc]. intros k p a. by eapply cached_grows. Qed.

(** From the cluster to the world of one client, and back. *)
Lemma cluster_world g P ent ob live d M i c :
  cluster_at g P ent ob live d M → g_clients g !! i = Some c →
  let _ : Others := delete i (c_alloc <$> g_clients g) in
  tree_inv tree_id (world_of g c) P ent ob live d M ∧ ∀ j, node_idle (w_locks (world_of g c) j).
Proof.
  intros [Hs Hm Hfk Hh Hd Hheap Hpos Hc] Hi oth. pose proof (Forall_lookup_1 _ _ _ _ Hc Hi) as [Hidle Hcache Hstale].
  split; [|done]. split; [done| |done|done|done]. split; [done|done| |done|done]. cbn [world_of w_alloc].
  eapply heap_inv_perm; [|exact Hheap]. apply delete_Permutation. by rewrite list_lookup_fmap, Hi.
Qed.

Lemma world_cluster g P ent ob live d M i c w P' ent' ob' live' d' M' :
  cluster_at g P ent ob live d M → g_clients g !! i = Some c →
  let _ : Others := delete i (c_alloc <$> g_clients g) in
  tree_inv tree_id w P' ent' ob' live' d' M' → (∀ j, node_idle (w_locks w j)) → grows P ent ob P' ent' ob' →
  cluster_at (Cluster (w_mem w) (w_dirs w) (<[i := client_of w]> (g_clients g))) P' ent' ob' live' d' M'.
Proof.
  intros [Hs Hm Hfk Hh Hd Hheap Hpos Hc] Hi oth [Hs' [Hh' Hd' Hheap' Hpos' Hst'] Hc' Hm' Hfk'] Hidle Hg.
  assert (i < length (g_clients g))%nat as Hlt by by eapply lookup_lt_Some.
  split; cbn [g_mem g_dirs g_clients]; [done|done|done|done|done| |done|].
  - eapply heap_inv_perm; [|exact Hheap']. symmetry. rewrite (delete_Permutation _ i (w_alloc w)).
    + rewrite list_fmap_insert, delete_insert_same. done.
    + rewrite list_lookup_fmap, list_lookup_insert_eq by done. done.
  - apply Forall_insert; [|by split]. eapply Forall_impl; [exact Hc|]. intros c0. by apply client_ok_grows.
Qed.

(** *** What an operation uses up *)
Lemma heap_blocks_chunks d t :
  thread_ok t → (bitmap_len (chunckAlloc d) - bitmap_tail (chunckAlloc d)) * 7281 <= heap_blocks t d <=
                (bitmap_len (chunckAlloc d) - bitmap_tail (chunckAlloc d) + 1) * 7281.
Proof.
  intros Ht. pose proof (thread_blocks_range t Ht) as Hb. unfold heap_blocks. change (kChunkSize / block_max) with 7281 in *. lia.
Qed.

Lemma chunks_after g P ent ob live d M i c t d' ts live' :
  cluster_at g P ent ob live d M → g_clients g !! i = Some c → heap_inv (Heap d' (t :: ts) live') →
  heap_blocks (c_alloc c) d - 3 <= heap_blocks t d' →
  bitmap_len (chunckAlloc d) - bitmap_tail (chunckAlloc d) - 1 <= bitmap_len (chunckAlloc d') - bitmap_tail (chunckAlloc d').
Proof.
  intros Hg Hi Hheap' Hb. pose proof (heap_threads _ (ca_heap _ _ _ _ _ _ _ Hg)) as Hth. cbn in Hth.
  assert (thread_ok (c_alloc c)) as Hc by (eapply (Forall_lookup_1 _ _ i); [exact Hth|by rewrite list_lookup_fmap, Hi]).
  pose proof (heap_threads _ Hheap') as Hth'. cbn in Hth'. apply Forall_cons in Hth' as [Ht _].
  pose proof (heap_blocks_chunks d _ Hc). pose proof (heap_blocks_chunks d' _ Ht). lia.
Qed.

Lemma roomy_after n m g w i c :
  roomy n g → g_clients g !! i = Some c → (cache_room (c_cache c) ≤ m + cache_room (w_cache w))%nat →
  roomy (n - m) (Cluster (w_mem w) (w_dirs w) (<[i := client_of w]> (g_clients g))).
Proof.
  intros Hr Hi Hm. pose proof (Forall_lookup_1 _ _ _ _ Hr Hi). unfold roomy in *. cbn.
  apply Forall_insert; [|cbn in *; lia]. eapply Forall_impl; [exact Hr|]. cbn. lia.
Qed.

(** *** The operations of the cluster *)
Lemma cluster_insert fuel g M i k v is_load n :
  tree_id_ok tree_id → cluster_inv g M → (i < length (g_clients g))%nat → key_ok k → uint 64 v → (max_rounds ≤ fuel)%nat →
  roomy (3 * max_rounds + n) g → 0 < chunks_left g →
  ∃ g', on_client i (insert CityHash64 tree_id fuel k v is_load) g = Ok (tt, g') ∧ cluster_inv g' (inserted is_load k v M) ∧
    length (g_clients g') = length (g_clients g) ∧ roomy n g' ∧ chunks_left g - 1 <= chunks_left g'.
Proof.
  intros Htid (P & ent & ob & live & d & Hg) Hlt Hk Hv Hfuel Hroom Hchunk.
  destruct (lookup_lt_is_Some_2 _ _ Hlt) as [c Hi]. pose proof (cluster_world _ _ _ _ _ _ _ _ _ Hg Hi) as [Hw Hidle]. cbv zeta in *.
  pose proof (Forall_lookup_1 _ _ _ _ Hroom Hi) as Hrc. cbn beta in Hrc. unfold chunks_left in Hchunk. rewrite (ca_dirs _ _ _ _ _ _ _ Hg) in Hchunk.
  pose proof (heap_threads _ (ca_heap _ _ _ _ _ _ _ Hg)) as Hth. cbn in Hth.
  assert (thread_ok (c_alloc c)) as Hc by (eapply (Forall_lookup_1 _ _ i); [exact Hth|by rewrite list_lookup_fmap, Hi]).
  pose proof (heap_blocks_chunks d _ Hc) as Hblk.
  destruct (insert_run CityHash64 tree_id Htid fuel _ _ _ _ _ _ _ k v is_load Hw Hidle Hk Hv)
    as (w' & P' & ent' & ob' & live' & d' & Hrun & Hw' & Hgr & Hidle' & Hroom' & Hb'); 
    [change (w_cache (world_of g c)) with (c_cache c); lia|change (w_alloc (world_of g c)) with (c_alloc c); lia|done|].
  eexists. split; [unfold on_client; rewrite Hi, Hrun; done|]. split.
  { exists P', ent', ob', live', d'. by eapply world_cluster. }
  split; [cbn; by rewrite length_insert|]. split.
  - eapply Forall_impl; [eapply (roomy_after _ (3 * max_rounds)); [exact Hroom|exact Hi|exact Hroom']|]. cbn beta. lia.
  - unfold chunks_left. cbn [g_dirs]. rewrite (ca_dirs _ _ _ _ _ _ _ Hg), (mi_dirs _ _ _ _ _ _ (ti_mem _ _ _ _ _ _ _ _ Hw')).
    eapply chunks_after; [exact Hg|exact Hi|apply (mi_heap _ _ _ _ _ _ (ti_mem _ _ _ _ _ _ _ _ Hw'))|exact Hb'].
Qed.

Lemma cluster_search fuel g M i k v n :
  tree_id_ok tree_id → cluster_inv g M → (i < length (g_clients g))%nat → M ≠ ∅ → key_ok k → (max_rounds ≤ fuel)%nat →
  roomy (3 * max_rounds + n) g →
  ∃ g', on_client i (search CityHash64 tree_id fuel k v) g = Ok (answer M k v, g') ∧ cluster_inv g' M ∧
    length (g_clients g') = length (g_clients g) ∧ roomy n g' ∧ chunks_left g' = chunks_left g ∧ g_mem g' = g_mem g.
Proof.
  intros Htid (P & ent & ob & live & d & Hg) Hlt HM Hk Hfuel Hroom.
  destruct (lookup_lt_is_Some_2 _ _ Hlt) as [c Hi]. pose proof (cluster_world _ _ _ _ _ _ _ _ _ Hg Hi) as [Hw Hidle]. cbv zeta in *.
  pose proof (Forall_lookup_1 _ _ _ _ Hroom Hi) as Hrc. cbn beta in Hrc.
  destruct (search_run CityHash64 tree_id Htid fuel _ _ _ _ _ _ _ k v Hw Hidle HM Hk) as (l & c' & Hrun & Hidle' & Hafter);
    [change (w_cache (world_of g c)) with (c_cache c); lia|done|].
  eexists. split; [unfold on_client; rewrite Hi, Hrun; done|]. split.
  { exists P, ent, ob, live, d. eapply world_cluster; [exact Hg|exact Hi| |exact Hidle'|apply grows_refl].
    apply tree_inv_locks. eapply tree_inv_cache; [exact Hw|exact Hafter]. }
  split; [cbn; by rewrite length_insert|]. split; [|done]. destruct Hafter as (_ & Hroom' & _).
  eapply Forall_impl; [eapply (roomy_after _ max_rounds); [exact Hroom|exact Hi|exact Hroom']|]. cbn beta. lia.
Qed.

Lemma inserted_nonempty is_load k v M : inserted is_load k v M ≠ ∅.
Proof.
  unfold inserted. destruct is_load, (decide (is_Some (M !! k))) as [Hs|Hs]; cbn [andb];
    rewrite ?(bool_decide_true _ Hs), ?(bool_decide_false _ Hs); try apply insert_non_empty.
  intros ->. rewrite lookup_empty in Hs. by destruct Hs.
Qed.

Lemma history_run fuel ops : ∀ g M (empty : bool),
  tree_id_ok tree_id → cluster_inv g M → (empty = false → M ≠ ∅) → history_ok (length (g_clients g)) empty ops →
  roomy (3 * max_rounds * length ops) g → Z.of_nat (length ops) <= chunks_left g → (max_rounds ≤ fuel)%nat →
  ∃ g', history fuel ops g = Ok ((history_map M ops).1, g') ∧ cluster_inv g' (history_map M ops).2.
Proof.
  induction ops as [|[i [k v is_load|k v]] ops IH]; intros g M empty Htid Hg HM Hok Hroom Hch Hfuel; [by exists g|..];
    cbn [length] in Hroom, Hch; replace (3 * max_rounds * S (length ops))%nat with (3 * max_rounds + 3 * max_rounds * length ops)%nat in Hroom by lia.
  - destruct Hok as (Hi & Hk & Hv & Hok).
    destruct (cluster_insert fuel g M i k v is_load _ Htid Hg Hi Hk Hv Hfuel Hroom) as (g1 & Hr1 & Hg1 & Hlen & Hroom1 & Hch1); [lia|].
    destruct (IH g1 (inserted is_load k v M) false) as (g' & Hr & Hg'); [done|done|intros _; apply inserted_nonempty|by rewrite Hlen|done|lia|done|].
    exists g'. cbn [history history_map]. by rewrite Hr1.
  - destruct Hok as (Hi & -> & Hk & Hok).
    destruct (cluster_search fuel g M i k v _ Htid Hg Hi (HM eq_refl) Hk Hfuel Hroom) as (g1 & Hr1 & Hg1 & Hlen & Hroom1 & Hch1 & _).
    destruct (IH g1 M false) as (g' & Hr & Hg'); [done|done|done|by rewrite Hlen|done|lia|done|].
    exists g'. cbn [history history_map]. destruct (history_map M ops) as [rs M']. rewrite Hr1. cbn [mbind res_bind]. by rewrite Hr.
Qed.

(** Another key of the tree starts with the same [n] bytes as [k]. *)
Definition companion (M : gmap Key Z) (n : nat) (k : Key) : Prop :=
  ∃ k', k' ≠ k ∧ is_Some (M !! k') ∧ take n k' = take n k.

Lemma take_prefix n (q k : list byte) : q `prefix_of` k → (n ≤ length q)%nat → take n k = take n q.
Proof. intros [r ->] Hn. by rewrite take_app_le. Qed.

(** Where the leaf of a key hangs: its slot is one byte below a node that
    another key goes through, and below all that it shares with other keys. *)
Lemma deep_companion w P ent ob live d M others L k v :
  @tree_inv _ _ _ others tree_id w P ent ob live d M → M !! k = Some v →
  deep L P ent ob k ↔ L <= 1 ∨ companion M (Z.to_nat (L - 2)) k.
Proof.
  intros Hi Hk. pose proof (ti_shape _ _ _ _ _ _ _ _ Hi) as Hs. split.
  - intros Hd. apply (ti_map _ _ _ _ _ _ _ _ Hi) in Hk as (a & s & Ha). destruct (sh_parent _ _ _ Hs a _ Ha) as (e & He & Hne & Hea).
    cbn in He. pose proof (sh_child _ _ _ Hs s e He Hne) as Hch. rewrite Hea, Ha in Hch. destruct Hch as (_ & _ & Hp).
    pose proof (Hd a s v e Ha He) as HL. destruct s as [|b i]; [left; cbn in HL; lia|]. destruct (decide (L <= 1)) as [|HL1]; [by left|right].
    cbn [spath] in *. rewrite length_app in HL. cbn [length] in HL. apply prefix_app_l in Hp.
    destruct (shape_slot_node P ent ob Hs b i e He) as (sb & h & Hb).
    destruct (ti_forked _ _ _ _ _ _ _ _ Hi b sb h Hb) as (k1 & k2 & H12 & Hk1 & Hk2 & Hp1 & Hp2).
    assert (Hin : ∀ k', leaf_key ob k' → is_Some (M !! k')).
    { intros k' (a' & s' & v' & Ha'). exists v'. apply (ti_map _ _ _ _ _ _ _ _ Hi). eauto. }
    assert (Hsame : ∀ k', P b `prefix_of` k' → take (Z.to_nat (L - 2)) k' = take (Z.to_nat (L - 2)) k).
    { intros k' Hp'. rewrite (take_prefix _ _ _ Hp), (take_prefix _ _ _ Hp') by lia. done. }
    destruct (decide (k1 = k)) as [->|Hk1k]; [exists k2|exists k1]; auto.
  - intros Hc a s v' e Ha He. destruct Hc as [|(k' & Hkk & [w' Hk'] & Htake)]; [lia|].
    destruct (sh_parent _ _ _ Hs a _ Ha) as (e0 & He0 & Hne & Hea). cbn in He0.
    assert (e0 = e) as -> by congruence. pose proof (sh_child _ _ _ Hs s e He Hne) as Hch. rewrite Hea, Ha in Hch.
    destruct Hch as (_ & _ & Hp). destruct (decide (L <= Z.of_nat (length (spath P s e)) + 1)) as [|HL]; [done|]. destruct Hkk.
    apply (ti_map _ _ _ _ _ _ _ _ Hi) in Hk' as (a' & s' & Ha').
    assert (spath P s e `prefix_of` k') as Hp' by (eapply prefix_agree; [exact Htake|done|lia]).
    pose proof (sh_leads _ _ _ Hs s e k' He Hne Hp' ltac:(left; eauto)) as Hl. unfold leads in Hl. by rewrite Hea, Ha in Hl.
Qed.

(** The keys that a query with a cold cache finds: all keys of the range when
    its ends part in their first byte, or else those that share all but one of
    the common bytes of the ends with another key of the tree. *)
Definition found_cold (M : gmap Key Z) (from to k : Key) : Prop :=
  entry_depth from to <= 1 ∨ companion M (Z.to_nat (entry_depth from to - 2)) k.

Lemma cluster_range fuel steps g M i c from to ret :
  tree_id_ok tree_id → cluster_inv g M → g_clients g !! i = Some c → cold (c_cache c) → key_ok from → key_ok to →
  key2int to - key2int from < Z.of_nat steps → (max_rounds ≤ fuel)%nat → (9 * size M < cache_room (c_cache c))%nat →
  ∃ m g', on_client i (range_query tree_id fuel steps from to ret) g = Ok (m, g') ∧ cluster_inv g' M ∧ g_mem g' = g_mem g ∧
    (∀ k, m !! k = ret !! k ∨ in_range from to k ∧ is_Some (M !! k) ∧ m !! k = M !! k) ∧
    ∀ k v, M !! k = Some v → in_range from to k →
      (found_cold M from to k → m !! k = Some v) ∧ (¬ found_cold M from to k → m !! k = ret !! k).
Proof.
  intros Htid (P & ent & ob & live & d & Hg) Hi Hcold Hf Ht Hdist Hfuel Hroom.
  pose proof (cluster_world _ _ _ _ _ _ _ _ _ Hg Hi) as [Hw Hidle]. cbv zeta in *.
  destruct (range_query_run tree_id Htid fuel steps _ _ _ _ _ _ _ from to ret Hw Hcold Hf Ht Hdist Hfuel Hroom)
    as (m & c' & Hrun & Hw' & _ & Hsound & Hall).
  eexists m, _. split; [unfold on_client; rewrite Hi, Hrun; done|]. split.
  { exists P, ent, ob, live, d. eapply world_cluster; [exact Hg|exact Hi|exact Hw'|exact Hidle|apply grows_refl]. }
  split; [done|]. split.
  - intros k. destruct (Hsound k) as [?|(? & _ & ? & ?)]; [by left|by right].
  - intros k v Hk Hin. pose proof (deep_companion _ _ _ _ _ _ _ _ (entry_depth from to) k v Hw Hk) as Hdeep. split.
    + intros Hfc. apply Hall; [done|done|]. by apply Hdeep.
    + intros Hfc. destruct (Hsound k) as [?|(_ & Hd & _)]; [done|]. by destruct Hfc; apply Hdeep.
Qed.

(** ** The first state *)

(** Nothing was allocated yet; the root pointer may hold anything. *)
Record fresh (g : cluster) : Prop := {
  fr_dirs : ∃ size d, kChunkSize <= size < 2 ^ 48 ∧ directory_new size 0 0 = Ok d ∧ g_dirs g = [[d]];
  fr_threads : ∃ ids, Forall (λ '(n, t), 0 <= n ∧ 0 <= t) ids ∧ c_alloc <$> g_clients g = (λ '(n, t), thread_new n t) <$> ids;
  fr_mem : mem_ok (g_mem g) ∧ ∀ o, kChunkSize <= o → g_mem g node0 o = 0;
  fr_clients : Forall (client_ok (λ _, []) (λ _, None) (λ _, None)) (g_clients g)
}.

Definition root_only (s : slot) : option InternalEntry := match s with SRoot => Some entry_Null | Slot _ _ => None end.

Lemma shape_root_only P : shape P root_only (λ _, None).
Proof.
  split; try done; try by intros [].
  - intros a i. split; [by intros [? ?]|by intros [(? & ? & ?) _]].
  - intros [|a i] e [= <-]. apply entry_Null_ok.
  - intros [|a i] e [= <-]; done.
  - intros [|a i] e q [= <-]; done.
Qed.

Lemma holds_root_only m :
  load_word m node0 (offset (slot_ptr tree_id SRoot)) = entry_val entry_Null → (∀ o, kChunkSize <= o → m node0 o = 0) →
  holds tree_id m root_only (λ _, None) [].
Proof. intros Hr Hz. split; try done; [intros [|a i] e [= <-]; done|]. intros o Ho _. by apply Hz. Qed.

Lemma tree_new_run my_node fuel w :
  tree_id_ok tree_id → mem_ok (w_mem w) → my_node = 0 →
  ∃ m', run (Tree tree_id my_node (S fuel)) w = Ok (tt, set_mem m' w) ∧
    load_word m' node0 (offset (slot_ptr tree_id SRoot)) = entry_val entry_Null ∧
    ∀ o, kChunkSize <= o → m' node0 o = w_mem w node0 o.
Proof.
  intros Htid Hm ->. set (r := slot_ptr tree_id SRoot). assert (Hreg : dsm_region r = node0) by done.
  pose proof (load_word_range (w_mem w) node0 (offset r) Hm) as Hr. set (x := load_word (w_mem w) node0 (offset r)) in *.
  pose proof (root_slot_offset tree_id Htid) as Hoff. fold r in Hoff. change (get_root_ptr_ptr tree_id) with r in *.
  unfold Tree, get_root_ptr. rewrite run_bind, run_read_entry. change (get_root_ptr_ptr tree_id) with r. rewrite Hreg. fold x.
  cbn [Z.eqb andb]. change (0 =? 0) with true. cbn [andb].
  destruct (entry_eqb_spec (entry_of_val x) entry_Null (entry_of_val_ok x) entry_Null_ok) as [E|E]; cbn [negb].
  - exists (w_mem w). rewrite set_mem_id. split; [done|]. split; [|done]. fold x. rewrite <- (entry_val_of_val x Hr). by rewrite E.
  - eexists. split.
    + erewrite run_loop; [|].
      2: { rewrite run_bind, (run_cas_sync r) by (rewrite Hreg; fold x; by rewrite entry_val_of_val). reflexivity. }
      cbn [negb andb]. reflexivity.
    + rewrite Hreg. split; [apply load_store_word; by vm_compute|]. intros o Ho. apply store_outside. right. rewrite length_le_bytes. lia.
Qed.

Lemma cluster_start fuel g c :
  tree_id_ok tree_id → fresh g → g_clients g !! 0%nat = Some c → (1 ≤ fuel)%nat →
  ∃ g', on_client 0 (Tree tree_id 0 fuel) g = Ok (tt, g') ∧ cluster_inv g' ∅ ∧ length (g_clients g') = length (g_clients g) ∧
    (∀ n, roomy n g → roomy n g') ∧ chunks_left g' = chunks_left g.
Proof.
  intros Htid [(size & d & Hsz & Hd & Hdirs) (ids & Hids & Hth) [Hm Hz] Hcl] Hc Hfuel. destruct fuel as [|fuel]; [lia|].
  destruct (tree_new_run 0 fuel (world_of g c) Htid Hm eq_refl) as (m' & Hrun & Hr & Hz').
  eexists. split; [unfold on_client; rewrite Hc, Hrun; done|].
  assert (Hput : <[0%nat := client_of (set_mem m' (world_of g c))]> (g_clients g) = g_clients g).
  { apply list_insert_id. rewrite Hc. by destruct c. }
  rewrite Hput. split; [|split; [done|split; [done|done]]].
  exists (λ _, []), root_only, (λ _, None), [], d. split; cbn; [apply shape_root_only| |done| |done| |done|].
  - intros k v. split; [by rewrite lookup_empty|by intros (? & ? & ?)].
  - apply holds_root_only; [done|]. intros o Ho. rewrite Hz' by done. by apply Hz.
  - rewrite Hth. by eapply heap_inv_new.
  - eapply Forall_impl; [exact Hcl|]. intros c0. apply client_ok_grows. by split.
Qed.

(** ** Properties *)

(** C1. The tree is a finite map. On fresh memory, whatever the root pointer
    held, the first client constructs the tree; then any clients insert and
    search in any order. Every operation returns, within [max_rounds] rounds of
    its loop, and the answers are those of a finite map, although each client
    works with an index cache that is not told of what the others do, and the
    allocator, the lock tables and the unwritten bytes of the buffers are those
    of the program. *)
Theorem tree_history_refines_map (fuel : nat) (g : cluster) (ops : list (nat * tree_op))
    (Htid : tree_id_ok tree_id) (Hfresh : fresh g) (Hclients : (0 < length (g_clients g))%nat)
    (Hops : history_ok (length (g_clients g)) true ops) (Hroom : roomy (3 * max_rounds * length ops) g)
    (Hchunks : Z.of_nat (length ops) <= chunks_left g) (Hfuel : (max_rounds ≤ fuel)%nat) :
  ∃ g1 g2, on_client 0 (Tree tree_id 0 fuel) g = Ok (tt, g1) ∧
    history fuel ops g1 = Ok ((history_map ∅ ops).1, g2) ∧ cluster_inv g2 (history_map ∅ ops).2.
Proof.
  destruct (lookup_lt_is_Some_2 _ _ Hclients) as [c Hc].
  destruct (cluster_start fuel g c Htid Hfresh Hc) as (g1 & Hr1 & Hg1 & Hlen & Hroom1 & Hch1); [unfold max_rounds in Hfuel; lia|].
  destruct (history_run fuel ops g1 ∅ true Htid Hg1) as (g2 & Hr2 & Hg2); [done|by rewrite Hlen|by apply Hroom1|lia|done|].
  by exists g1, g2.
Qed.

(** C2. An insertion by a client whose index cache may be out of date, on a tree
    that holds [M]: it returns, and the tree holds [M] with the new value (or as
    it was, when a loading client finds the key there). It takes at most one
    chunk of memory, whether the key gets a slot, the node grows to its next
    type, a header is split, a leaf is pushed down by one new node or two, or a
    value is written in place. *)
Theorem tree_insert_correct (fuel : nat) (g : cluster) (M : gmap Key Z) (i : nat) (k : Key) (v : Z) (is_load : bool) (n : nat)
    (Htid : tree_id_ok tree_id) (Hg : cluster_inv g M) (Hi : (i < length (g_clients g))%nat) (Hk : key_ok k) (Hv : uint 64 v)
    (Hfuel : (max_rounds ≤ fuel)%nat) (Hroom : roomy (3 * max_rounds + n) g) (Hchunks : 0 < chunks_left g) :
  ∃ g', on_client i (insert CityHash64 tree_id fuel k v is_load) g = Ok (tt, g') ∧
    cluster_inv g' (if is_load && bool_decide (is_Some (M !! k)) then M else <[k := v]> M) ∧
    length (g_clients g') = length (g_clients g) ∧ roomy n g' ∧ chunks_left g - 1 <= chunks_left g'.
Proof. by apply cluster_insert. Qed.

(** C3. A search by a client whose index cache may be out of date, on a tree
    that holds [M] and is not empty: it returns whether the key is in [M] and
    its value, and does not write to the shared memory. *)
Theorem tree_search_any_cache (fuel : nat) (g : cluster) (M : gmap Key Z) (i : nat) (k : Key) (v : Z) (n : nat)
    (Htid : tree_id_ok tree_id) (Hg : cluster_inv g M) (Hi : (i < length (g_clients g))%nat) (HM : M ≠ ∅) (Hk : key_ok k)
    (Hfuel : (max_rounds ≤ fuel)%nat) (Hroom : roomy (3 * max_rounds + n) g) :
  ∃ g', on_client i (search CityHash64 tree_id fuel k v) g = Ok ((bool_decide (is_Some (M !! k)), default v (M !! k)), g') ∧
    cluster_inv g' M ∧ length (g_clients g') = length (g_clients g) ∧ roomy n g' ∧
    chunks_left g' = chunks_left g ∧ g_mem g' = g_mem g.
Proof. by apply cluster_search. Qed.

(** C4. A range query by a client with a cold cache, on a tree that holds [M]:
    with ten levels for its loop, however wide the range is, it returns, without
    a write to the shared memory; it adds keys of the range [[from, to)] alone,
    with their values; and it finds every key of the range when [from] and
    [to - 1] part in their first byte, or else every key of the range that
    shares all but the last of the bytes that the two have in common with
    another key of the tree. So a range that holds two keys is complete. The
    cache must have room for nine pages for each key of the tree, and [steps] is
    for the loop that looks up every key of the range in the cache. *)
Theorem tree_range_query_correct (fuel steps : nat) (g : cluster) (M : gmap Key Z) (i : nat) (c : client) (from to : Key) (ret : gmap Key Z)
    (Htid : tree_id_ok tree_id) (Hg : cluster_inv g M) (Hi : g_clients g !! i = Some c) (Hcold : cold (c_cache c))
    (Hfrom : key_ok from) (Hto : key_ok to) (Hsteps : key2int to - key2int from < Z.of_nat steps) (Hfuel : (10 ≤ fuel)%nat)
    (Hroom : (9 * size M < cache_room (c_cache c))%nat) :
  ∃ m g', on_client i (range_query tree_id fuel steps from to ret) g = Ok (m, g') ∧ cluster_inv g' M ∧ g_mem g' = g_mem g ∧
    (∀ k, m !! k = ret !! k ∨ in_range from to k ∧ is_Some (M !! k) ∧ m !! k = M !! k) ∧
    (∀ k v, M !! k = Some v → in_range from to k → found_cold M from to k → m !! k = Some v).
Proof.
  destruct (cluster_range fuel steps g M i c from to ret) as (m & g' & Hr & Hg' & Hm & Hs & Hall); [done..|].
  exists m, g'. do 4 (split; [done|]). intros k v Hk Hin. by apply Hall.
Qed.


(** C40. A range query by a client with a cold cache misses the other keys of
    the range: when [from] and [to - 1] start with the same bytes, a key of the
    range that shares all but the last of these bytes with no other key of the
    tree is not in the answer, although the tree holds it: its leaf hangs above
    the depth at which [search_entries] stops, and is given up. *)
Theorem range_query_misses_leaf (fuel steps : nat) (g : cluster) (M : gmap Key Z) (i : nat) (c : client) (from to : Key) (ret : gmap Key Z)
    (k : Key) (v : Z)
    (Htid : tree_id_ok tree_id) (Hg : cluster_inv g M) (Hi : g_clients g !! i = Some c) (Hcold : cold (c_cache c))
    (Hfrom : key_ok from) (Hto : key_ok to) (Hsteps : key2int to - key2int from < Z.of_nat steps) (Hfuel : (10 ≤ fuel)%nat)
    (Hroom : (9 * size M < cache_room (c_cache c))%nat)
    (Hk : M !! k = Some v) (Hin : in_range from to k) (Hdepth : 1 < entry_depth from to)
    (Halone : ∀ k', k' ≠ k → is_Some (M !! k') → take (Z.to_nat (entry_depth from to - 2)) k' ≠ take (Z.to_nat (entry_depth from to - 2)) k) :
  ∃ m g', on_client i (range_query tree_id fuel steps from to ret) g = Ok (m, g') ∧ m !! k = ret !! k.
Proof.
  destruct (cluster_range fuel steps g M i c from to ret) as (m & g' & Hr & _ & _ & _ & Hall); [done..|].
  exists m, g'. split; [done|]. apply (Hall k v Hk Hin). intros [?|(k' & Hne & Hk' & E)]; [lia|]. by destruct (Halone k' Hne Hk').
Qed.
End cluster.
