(* ===== verification/TreeExample.v ===== *)
(** * A tree in memory

    A root node with two leaves, written out byte by byte, a radix cache that is
    empty, and the instances of the search theorems there. Then two clients that
    build a tree on fresh memory, with the instances of the theorems on histories
    and on range queries, and what stale and warm caches do to a range. *)

From Stdlib Require Import ZArith Lia Bool.
From stdpp Require Import base tactics decidable option numbers list gmap.
From S2P Require Import Prelude.
From S2P Require Import Common.
From S2P Require Import Keys.
From S2P Require Import Address.
From S2P Require Import Nodes.
From S2P Require Import Allocators.
From S2P Require Import Memory.
From S2P Require Import Process.
From S2P Require Import LockTable.
From S2P Require Import IndexCache.
From S2P Require Import NumaPool.
From S2P Require Import RadixCache.
From S2P Require Import RadixLaws.
From S2P Require Import Tree.
From S2P Require Import TreeSearch.
From S2P Require Import TreeShape.
From S2P Require Import TreeHeap.
From S2P Require Import TreeState.
From S2P Require Import TreeInsert.
From S2P Require Import TreeOps.
From S2P Require Import TreeRange.
From S2P Require Import TreeWarm.
From S2P Require Import TreeCluster.

(** A checksum: the sum of the bytes. *)
#[local] Instance sum_checksum : Checksum.
Proof. refine {| crc64 := λ bs, wrap 64 (foldr Z.add 0 bs) |}. intros bs. by apply wrap_range. Defined.

Definition ex_key1 : Key := [3; 7; 0; 0; 0; 0; 0; 1].
Definition ex_key2 : Key := [9; 7; 0; 0; 0; 0; 0; 2].
Definition ex_node : GlobalAddress := mk_gaddr 0 4096.
Definition ex_leaf (i : Z) : GlobalAddress := mk_gaddr 0 (8192 + 256 * i).

Definition ex_page : InternalPage :=
  mkPage (get_root_ptr_ptr 0) (Hdr 1 NODE_4 0 [0; 0; 0; 0; 0; 0])
    [entry_leaf 3 1 (ex_leaf 0); entry_leaf 9 1 (ex_leaf 1); entry_Null; entry_Null].

Definition ex_mem : shared_mem :=
  store (store (store (store (λ _ _, 0)
    (dsm_region (get_root_ptr_ptr 0)) (offset (get_root_ptr_ptr 0)) (le_bytes 8 (entry_val (entry_node 0 NODE_4 ex_node))))
    (dsm_region ex_node) (offset ex_node) (page_bytes ex_page))
    (dsm_region (ex_leaf 0)) (offset (ex_leaf 0)) (leaf_bytes (leaf_make ex_key1 11 (GADD ex_node 16))))
    (dsm_region (ex_leaf 1)) (offset (ex_leaf 1)) (leaf_bytes (leaf_make ex_key2 22 (GADD ex_node 24))).

Definition ex_map : gmap Key Z := {[ ex_key1 := 11; ex_key2 := 22 ]}.

(** The page in memory: its four records, then zeros. *)
Lemma ex_page_at :
  page_at ex_mem ex_node 256 = mkPage (pg_rev_ptr ex_page) (pg_hdr ex_page) (pg_records ex_page ++ replicate 252 entry_Null).
Proof. by vm_compute. Qed.

Lemma ex_record i e :
  (i < 4)%nat → (pg_records ex_page ++ replicate 252 entry_Null) !! i = Some e → e ≠ entry_Null →
  i = 0%nat ∧ e = entry_leaf 3 1 (ex_leaf 0) ∨ i = 1%nat ∧ e = entry_leaf 9 1 (ex_leaf 1).
Proof.
  intros Hi. do 4 (destruct i as [|i]; [cbn; intros [= <-]; auto; done|]). lia.
Qed.

Lemma ex_repr_leaf n i k v π :
  i = 0 ∧ k = ex_key1 ∧ v = 11 ∧ π = [3] ∨ i = 1 ∧ k = ex_key2 ∧ v = 22 ∧ π = [9] →
  repr (S n) ex_mem π (GADD ex_node (page_head + i * 8)) (entry_leaf (nth 0 π 0) 1 (ex_leaf i)) {[ k := v ]}.
Proof.
  cbn [repr]. intros [(-> & -> & -> & ->)|(-> & -> & -> & ->)].
  all: split; [by apply (bool_decide_unpack _); vm_compute|]; split; [done|].
  all: cbn [e_is_leaf entry_leaf]; split_and!; [by vm_compute..| |by vm_compute].
  all: by apply (bool_decide_unpack _); vm_compute.
Qed.

Lemma ex_tree : tree_at 0 ex_mem ex_map.
Proof.
  assert (Hroot : root_entry 0 ex_mem = entry_node 0 NODE_4 ex_node) by by vm_compute.
  unfold tree_at. rewrite Hroot. unfold max_levels. cbn [repr e_is_leaf entry_node].
  replace (e_addr _) with ex_node by by vm_compute. rewrite ex_page_at.
  do 2 (split; [by apply (bool_decide_unpack _); vm_compute|]). cbv zeta. cbn [pg_rev_ptr pg_hdr pg_records].
  change (Z.to_nat (node_type_to_num (h_node_type (pg_hdr ex_page)))) with 4%nat.
  split; [by apply (bool_decide_unpack _); vm_compute|]. split; [done|].
  do 5 (split; [by apply (bool_decide_unpack _); vm_compute|]). split.
  { intros i j ei ej Hi Hj Hei Hej Hni Hnj E.
    destruct (ex_record i ei) as [[-> ->]|[-> ->]]; [done..| |]; destruct (ex_record j ej) as [[-> ->]|[-> ->]]; done. }
  exists (λ i, match i with O => {[ ex_key1 := 11 ]} | S O => {[ ex_key2 := 22 ]} | _ => ∅ end). split.
  - intros i ei Hi Hei Hn. destruct (ex_record i ei) as [[-> ->]|[-> ->]]; [done..| |].
    + apply (ex_repr_leaf 7 0 ex_key1 11 [3]). auto.
    + apply (ex_repr_leaf 7 1 ex_key2 22 [9]). auto.
  - intros k v. unfold ex_map. split.
    + intros [[<- <-]|[_ [<- <-]%lookup_singleton_Some]]%lookup_insert_Some.
      * exists 0%nat, (entry_leaf 3 1 (ex_leaf 0)). by split_and!; [lia|..|rewrite lookup_singleton_eq].
      * exists 1%nat, (entry_leaf 9 1 (ex_leaf 1)). by split_and!; [lia|..|rewrite lookup_singleton_eq].
    + intros (i & ei & Hi & Hei & Hn & Hk). destruct (ex_record i ei) as [[-> ->]|[-> ->]]; [done..| |].
      * apply lookup_singleton_Some in Hk as [<- <-]. by rewrite lookup_insert_eq.
      * apply lookup_singleton_Some in Hk as [<- <-]. by rewrite lookup_insert_ne, lookup_singleton_eq.
Qed.

(** A thread at work: the tree's memory, an idle lock table and an empty cache. *)
Definition ex_world (m : shared_mem) : @world (RadixCache_index 20 60000) :=
  @World (RadixCache_index 20 60000) m (thread_new 0 0) [] table_new (radix_new 60000 (λ i, Z.of_nat i)) (λ _, []).

Lemma table_new_idle i : node_idle (table_new i).
Proof. unfold node_idle, uint. cbn. split_and!; done. Qed.

Lemma ex_room : (max_levels ≤ radix_room (radix_new 60000 (λ i, Z.of_nat i)))%nat.
Proof. rewrite radix_new_room. pose proof pool_capacity_val. unfold max_levels. lia. Qed.

Lemma ex_fuel : (9 ≤ 20)%nat.
Proof. lia. Qed.

Lemma tree_search_correct_witness :
  ∃ w', run (@search _ (RadixCache_index 20 60000) (λ _, 0) 0 20 ex_key2 5) (ex_world ex_mem) = Ok (true, 22, w').
Proof.
  destruct (@tree_search_correct _ _ (RadixCache_laws 20 60000 ex_fuel) (λ _, 0) 0 20 (ex_world ex_mem) ex_map ex_key2 5)
    as (w' & Hr & _).
  - apply (bool_decide_unpack _). by vm_compute.
  - exact ex_tree.
  - apply table_new_idle.
  - apply radix_new_inv.
  - exact ex_room.
  - unfold max_levels. lia.
  - exists w'. exact Hr.
Defined.

Lemma search_empty_tree_asserts_witness :
  run (@search _ (RadixCache_index 20 60000) (λ _, 0) 0 20 ex_key1 5) (ex_world (λ _ _, 0)) = Fail EAssert.
Proof.
  apply (@search_empty_tree_asserts _ (RadixCache_index 20 60000) (λ _, 0) 0 20 (ex_world (λ _ _, 0)) ex_key1 5
           (radix_new 60000 (λ i, Z.of_nat i))).
  - apply table_new_idle.
  - by vm_compute.
  - by vm_compute.
Defined.

(** ** Two clients on fresh memory *)
Definition ex_dir : Directory :=
  Dir (GAlloc (GA 0 0) (64 * kChunkSize) (true :: replicate 63 false) 64 1) gaddr_Null (-1).

Definition ex_client (n : Z) : @client (RadixCache_index 20 60000) :=
  @Client (RadixCache_index 20 60000) (thread_new n 0) table_new (radix_new 60000 (λ i, Z.of_nat i)) (λ _, replicate 6 n).

(** The root pointer is not Null at first. *)
Definition ex_cluster : @cluster (RadixCache_index 20 60000) :=
  @Cluster (RadixCache_index 20 60000)
    (store (λ _ _, 0) node0 (offset (get_root_ptr_ptr 0)) [5; 6; 7]) [[ex_dir]] [ex_client 0; ex_client 1].

Lemma ex_client_ok P ent ob n : is_byte n → @client_ok _ (RadixCache_laws 20 60000 ex_fuel) P ent ob (ex_client n).
Proof.
  intros Hn. split; [apply table_new_idle|apply radix_new_inv|]. intros i. split; [done|].
  by repeat (apply Forall_cons; split; [done|]).
Qed.

Lemma ex_fresh : @fresh _ (RadixCache_laws 20 60000 ex_fuel) ex_cluster.
Proof.
  split.
  - exists (64 * kChunkSize), ex_dir. by vm_compute.
  - exists [(0, 0); (1, 0)]. split; [|done]. repeat (apply Forall_cons; split; [lia|]). done.
  - split.
    + apply store_ok; [intros ? ?; by vm_compute|]. by apply (bool_decide_unpack _); vm_compute.
    + intros o Ho. apply store_outside. right. right. cbn [length]. change kChunkSize with 16777216 in Ho.
      change (offset (get_root_ptr_ptr 0)) with 8388608. lia.
  - apply Forall_cons. split; [by apply ex_client_ok|]. apply Forall_cons. split; [by apply ex_client_ok|done].
Qed.

Lemma ex_roomy n : (n ≤ 500)%nat → @roomy _ (RadixCache_laws 20 60000 ex_fuel) n ex_cluster.
Proof.
  intros Hn. assert (n ≤ radix_room (radix_new 60000 (λ i, Z.of_nat i)))%nat as Hr.
  { rewrite radix_new_room. pose proof pool_capacity_val. lia. }
  apply Forall_cons. split; [exact Hr|]. apply Forall_cons. split; [exact Hr|done].
Qed.

Lemma ex_tree_id : tree_id_ok 0.
Proof. by vm_compute. Qed.

(** Keys that part in the first byte and in the last one. *)
Definition ex_key3 : Key := [3; 7; 0; 0; 0; 0; 0; 9].

Definition ex_history : list (nat * tree_op) :=
  [(0%nat, TInsert ex_key1 11 false); (1%nat, TSearch ex_key1 0); (1%nat, TInsert ex_key2 22 true); (0%nat, TInsert ex_key3 33 true);
   (1%nat, TInsert ex_key3 44 true); (0%nat, TInsert ex_key1 55 false); (1%nat, TSearch ex_key1 0); (1%nat, TSearch ex_key3 0);
   (0%nat, TSearch ex_key2 0); (0%nat, TSearch [9; 9; 9; 9; 9; 9; 9; 9] 77)].

Lemma ex_history_ok : history_ok 2 true ex_history.
Proof. cbn [history_ok ex_history]. split_and!; first [lia|by apply (bool_decide_unpack _); vm_compute|done]. Qed.

Lemma ex_history_map : (history_map ∅ ex_history).1 = [(true, 11); (true, 55); (true, 33); (true, 22); (false, 77)].
Proof. by vm_compute. Qed.

Lemma tree_history_refines_map_witness :
  ∃ g1 g2, on_client 0 (@Tree _ 0 0 20) ex_cluster = Ok (tt, g1) ∧
    @history _ (RadixCache_index 20 60000) (λ _, 0) 0 20 ex_history g1
    = Ok ([(true, 11); (true, 55); (true, 33); (true, 22); (false, 77)], g2).
Proof.
  destruct (@tree_history_refines_map _ _ (RadixCache_laws 20 60000 ex_fuel) (λ _, 0) 0 20 ex_cluster ex_history)
    as (g1 & g2 & Hr1 & Hr2 & _).
  - exact ex_tree_id.
  - exact ex_fresh.
  - cbn. lia.
  - exact ex_history_ok.
  - apply ex_roomy. cbn. lia.
  - by vm_compute.
  - by vm_compute; lia.
  - exists g1, g2. split; [exact Hr1|]. rewrite <- ex_history_map. exact Hr2.
Defined.

(** The cluster with an empty tree, and after one insertion. *)
Definition ex_empty : @cluster (RadixCache_index 20 60000) :=
  @Cluster (RadixCache_index 20 60000) (λ _ _, 0) [[ex_dir]] [ex_client 0; ex_client 1].

Lemma ex_empty_inv : @cluster_inv _ _ (RadixCache_laws 20 60000 ex_fuel) 0 ex_empty ∅.
Proof.
  exists (λ _, []), root_only, (λ _, None), [], ex_dir. split; [apply shape_root_only| |done| |done| |done|].
  - intros k v. split; [by rewrite lookup_empty|by intros (? & ? & ?)].
  - by apply holds_root_only.
  - apply (heap_inv_new (64 * kChunkSize) ex_dir [(0, 0); (1, 0)]); [by vm_compute..|].
    repeat (apply Forall_cons; split; [lia|]). done.
  - apply Forall_cons. split; [by apply ex_client_ok|]. apply Forall_cons. split; [by apply ex_client_ok|done].
Qed.

Lemma ex_key1_ok : key_ok ex_key1.
Proof. by apply (bool_decide_unpack _); vm_compute. Qed.

Lemma tree_insert_correct_witness :
  ∃ g', on_client 0 (@insert _ (RadixCache_index 20 60000) (λ _, 0) 0 20 ex_key1 11 false) ex_empty = Ok (tt, g') ∧
    @cluster_inv _ _ (RadixCache_laws 20 60000 ex_fuel) 0 g' {[ ex_key1 := 11 ]}.
Proof.
  destruct (@tree_insert_correct _ _ (RadixCache_laws 20 60000 ex_fuel) (λ _, 0) 0 20 ex_empty ∅ 0 ex_key1 11 false 0)
    as (g' & Hr & Hg & _).
  - exact ex_tree_id.
  - exact ex_empty_inv.
  - cbn. lia.
  - exact ex_key1_ok.
  - by vm_compute.
  - unfold max_rounds. lia.
  - apply ex_roomy. unfold max_rounds. lia.
  - by vm_compute.
  - exists g'. split; [exact Hr|exact Hg].
Defined.

(** The first client inserts, the second one, with a cold cache, finds the key. *)
Lemma ex_after_insert :
  ∃ g1, on_client 0 (@insert _ (RadixCache_index 20 60000) (λ _, 0) 0 20 ex_key1 11 false) ex_empty = Ok (tt, g1) ∧
    @cluster_inv _ _ (RadixCache_laws 20 60000 ex_fuel) 0 g1 {[ ex_key1 := 11 ]} ∧ (1 < length (g_clients g1))%nat ∧
    @roomy _ (RadixCache_laws 20 60000 ex_fuel) 100 g1 ∧ g_clients g1 !! 1%nat = Some (ex_client 1) ∧ 0 < chunks_left g1.
Proof.
  destruct (@cluster_insert _ _ (RadixCache_laws 20 60000 ex_fuel) (λ _, 0) 0 20 ex_empty ∅ 0 ex_key1 11 false 100)
    as (g1 & Hr & Hg & Hlen & Hroom & Hch).
  - exact ex_tree_id.
  - exact ex_empty_inv.
  - cbn. lia.
  - exact ex_key1_ok.
  - by vm_compute.
  - unfold max_rounds. lia.
  - apply ex_roomy. unfold max_rounds. lia.
  - by vm_compute.
  - exists g1. split; [exact Hr|]. split; [exact Hg|]. split; [rewrite Hlen; cbn; lia|]. split; [exact Hroom|].
    split; [by rewrite (on_client_other _ 1 _ _ _ _ Hr)|].
    assert (@chunks_left (RadixCache_index 20 60000) ex_empty = 63) as E by by vm_compute. lia.
Qed.

Lemma tree_search_any_cache_witness :
  ∃ g1 g2, on_client 0 (@insert _ (RadixCache_index 20 60000) (λ _, 0) 0 20 ex_key1 11 false) ex_empty = Ok (tt, g1) ∧
    on_client 1 (@search _ (RadixCache_index 20 60000) (λ _, 0) 0 20 ex_key1 0) g1 = Ok ((true, 11), g2).
Proof.
  destruct ex_after_insert as (g1 & Hr1 & Hg1 & Hlen & Hroom & _).
  destruct (@tree_search_any_cache _ _ (RadixCache_laws 20 60000 ex_fuel) (λ _, 0) 0 20 g1 {[ ex_key1 := 11 ]} 1 ex_key1 0 0)
    as (g2 & Hr2 & _).
  - exact ex_tree_id.
  - exact Hg1.
  - exact Hlen.
  - apply insert_non_empty.
  - exact ex_key1_ok.
  - unfold max_rounds. lia.
  - eapply Forall_impl; [exact Hroom|]. cbn beta. unfold max_rounds. lia.
  - exists g1, g2. split; [exact Hr1|exact Hr2].
Defined.

(** ** A range with a cold cache *)
Lemma ex_cold : @cold (RadixCache_index 20 60000) (radix_new 60000 (λ i, Z.of_nat i)).
Proof.
  intros k [Hl _]. change klen with 8%nat in Hl.
  do 8 (destruct k as [|? k]; [done|]). destruct k; [|done]. reflexivity.
Qed.

(** The first client inserts two keys. *)
Definition ex_two : gmap Key Z := <[ex_key3 := 33]> {[ ex_key1 := 11 ]}.

Lemma ex_two_keys :
  ∃ g, @cluster_inv _ _ (RadixCache_laws 20 60000 ex_fuel) 0 g ex_two ∧
    g_clients g !! 1%nat = Some (ex_client 1).
Proof.
  destruct ex_after_insert as (g1 & _ & Hg1 & Hlen & Hroom & Hc & Hch).
  destruct (@cluster_insert _ _ (RadixCache_laws 20 60000 ex_fuel) (λ _, 0) 0 20 g1 {[ ex_key1 := 11 ]} 0 ex_key3 33 false 0)
    as (g2 & Hr2 & Hg2 & _).
  - exact ex_tree_id.
  - exact Hg1.
  - lia.
  - by apply (bool_decide_unpack _); vm_compute.
  - by vm_compute.
  - unfold max_rounds. lia.
  - eapply Forall_impl; [exact Hroom|]. cbn beta. unfold max_rounds. lia.
  - exact Hch.
  - exists g2. split; [exact Hg2|]. by rewrite (on_client_other _ 1 _ _ _ _ Hr2).
Qed.

Lemma ex_cold_room (M : gmap Key Z) : (size M ≤ 10)%nat → (9 * size M < radix_room (radix_new 60000 (λ i, Z.of_nat i)))%nat.
Proof. intros HM. rewrite radix_new_room. pose proof pool_capacity_val. lia. Qed.

Definition ex_from : Key := [3; 7; 0; 0; 0; 0; 0; 0].
Definition ex_to : Key := [3; 7; 0; 0; 0; 0; 0; 10].

(** The second client finds both; its cache is cold. *)
Lemma tree_range_query_correct_witness :
  ∃ g m g', on_client 1 (@range_query _ (RadixCache_index 20 60000) 0 20 20 ex_from ex_to ∅) g = Ok (m, g') ∧
    m !! ex_key1 = Some 11 ∧ m !! ex_key3 = Some 33.
Proof.
  destruct ex_two_keys as (g & Hg & Hc).
  destruct (@tree_range_query_correct _ _ (RadixCache_laws 20 60000 ex_fuel) 0 20 20 g ex_two 1
              (ex_client 1) ex_from ex_to ∅) as (m & g' & Hr & _ & _ & _ & Hall).
  - exact ex_tree_id.
  - exact Hg.
  - exact Hc.
  - exact ex_cold.
  - by apply (bool_decide_unpack _); vm_compute.
  - by apply (bool_decide_unpack _); vm_compute.
  - by vm_compute.
  - lia.
  - exact (ex_cold_room ex_two ltac:(by apply (bool_decide_unpack _); vm_compute)).
  - exists g, m, g'. split; [exact Hr|]. split.
    + apply Hall; [by vm_compute|by split; [apply (bool_decide_unpack _); vm_compute|vm_compute]|].
      right. exists ex_key3. split; [done|]. split; [by eexists|by vm_compute].
    + apply Hall; [by vm_compute|by split; [apply (bool_decide_unpack _); vm_compute|vm_compute]|].
      right. exists ex_key1. split; [done|]. split; [by eexists|by vm_compute].
Defined.

(** The only key of the tree is in the range, and is missed. *)
Lemma range_query_misses_leaf_witness :
  ∃ g m g', on_client 1 (@range_query _ (RadixCache_index 20 60000) 0 20 20 ex_from ex_to ∅) g = Ok (m, g') ∧
    @cluster_inv _ _ (RadixCache_laws 20 60000 ex_fuel) 0 g {[ ex_key1 := 11 ]} ∧ m !! ex_key1 = None.
Proof.
  destruct ex_after_insert as (g & _ & Hg & _ & _ & Hc & _).
  destruct (@range_query_misses_leaf _ _ (RadixCache_laws 20 60000 ex_fuel) 0 20 20 g {[ ex_key1 := 11 ]} 1
              (ex_client 1) ex_from ex_to ∅ ex_key1 11) as (m & g' & Hr & Hm).
  - exact ex_tree_id.
  - exact Hg.
  - exact Hc.
  - exact ex_cold.
  - by apply (bool_decide_unpack _); vm_compute.
  - by apply (bool_decide_unpack _); vm_compute.
  - by vm_compute.
  - lia.
  - exact (ex_cold_room {[ ex_key1 := 11 ]} ltac:(by apply (bool_decide_unpack _); vm_compute)).
  - done.
  - by split; [apply (bool_decide_unpack _); vm_compute|vm_compute].
  - by vm_compute.
  - intros k' Hk' [v' [<- _]%lookup_singleton_Some]. done.
  - exists g, m, g'. split; [exact Hr|]. split; [exact Hg|]. by rewrite Hm, lookup_empty.
Defined.

(** ** A range with a warm cache *)









(** ** What else a warm cache does *)
Definition ex_query (ops : list (nat * tree_op)) : res (gmap Key Z * @cluster (RadixCache_index 20 60000)) :=
  r ← @history _ (RadixCache_index 20 60000) (λ _, 0) 0 20 ops ex_empty;
  on_client 1 (@range_query _ (RadixCache_index 20 60000) 0 20 20 ex_from ex_to ∅) r.2.

Definition ex_found (ops : list (nat * tree_op)) : res (option Z * option Z) :=
  r ← ex_query ops; Ok (r.1 !! ex_key1, r.1 !! ex_key3).

(** Tokens go by address. The cached entry for the leaf of [ex_key1] is stale: a
    node is there now, and the leaf hangs below it. The leaf is read with the
    stale entry, does not match it, and is marked as read, so that the entry of
    the node for it is dropped: the query loses a key that was in the tree all
    along. A second query finds it. *)
Definition ex_moved : list (nat * tree_op) :=
  [(0%nat, TInsert ex_key2 22 false); (0%nat, TInsert ex_key1 11 false); (0%nat, TInsert [3; 8; 0; 0; 0; 0; 0; 0] 88 false);
   (1%nat, TSearch ex_key1 0); (0%nat, TInsert ex_key3 33 false)].

Example stale_entry_loses_key : ex_found ex_moved = Ok (None, Some 33).
Proof. by vm_compute. Qed.

Example second_query_finds_key :
  (r ← ex_query ex_moved; r' ← on_client 1 (@range_query _ (RadixCache_index 20 60000) 0 20 20 ex_from ex_to ∅) r.2;
   Ok (r'.1 !! ex_key1, r'.1 !! ex_key3)) = Ok (Some 11, Some 33).
Proof. by vm_compute. Qed.

(** The cache holds the two nodes on the path of [ex_key1], both up to date. For
    a key of the range that is not in the tree it gives the entry of the lower
    node, for the two others their leaves. All are read at the first level, so
    that of the entries of the node none is left to read at the second one. *)
Example read_nothing :
  ex_found [(0%nat, TInsert ex_key1 11 false); (0%nat, TInsert ex_key3 33 false); (0%nat, TInsert ex_key2 22 false);
            (1%nat, TSearch ex_key1 0)] = Fail EUndef.
Proof. by vm_compute. Qed.
